(** * Pipeline hazard automaton generator (genautomata.c)

    A shallow embedding of the parts of [gcc/genautomata.c] that build
    and encode the pipeline hazard recognizer, with the properties of
    the specification stated and settled against them.

    Conventions of the embedding.

    - C [int] values are [Z]; loop counters and array indexes that the
      source keeps non-negative are [nat].
    - A reservation set ([reserv_sets_t]) is a bit string addressed by
      the byte-based macros [SET_BIT] / [TEST_BIT].  The
      [els_in_cycle_reserv] words of one cycle are kept as one [Z] whose
      bit [k] is [TEST_BIT (cycle, k)]; a whole set is the list of its
      [max_cycles_num] cycles.  The word-wise [&], [|] and comparisons of
      the source are the same operations on that [Z].
    - Pointers to declarations are indexes into the table they point to
      ([unit_num] into [units_array], the position in
      [description->decls] for reservations).
    - [abort ()] is the result [None] (or [Abort]); a loop that the
      source runs until a flag settles takes a fuel argument. *)

From Stdlib Require Import String ZArith List Bool Lia Arith PeanoNat Permutation.
Import ListNotations.

Local Open Scope Z_scope.

(** ** Bit strings *)

Module Bits.

Definition CHAR_BIT : nat := 8.

(** [TEST_BIT (bitstring, bitno)] *)
Definition TEST_BIT (bitstring : Z) (bitno : nat) : bool :=
  Z.testbit bitstring (Z.of_nat bitno).

(** [SET_BIT (bitstring, bitno)] *)
Definition SET_BIT (bitstring : Z) (bitno : nat) : Z :=
  Z.lor bitstring (Z.shiftl 1 (Z.of_nat bitno)).

(** [((unsigned char * ) set) [char_num]] *)
Definition char_at (set : Z) (char_num : nat) : Z :=
  Z.land (Z.shiftr set (Z.of_nat (char_num * CHAR_BIT))) 255.

(** The bits [CHAR_BIT - 1], ..., [0] in the order the source's
    [for (i = CHAR_BIT - 1; i >= 0; i--)] visits them. *)
Definition char_bits : list nat := [7; 6; 5; 4; 3; 2; 1; 0]%nat.

(** [a] holds every bit of [pat]: [(a & pat) == pat]. *)
Definition holds (a pat : Z) : bool := Z.land a pat =? pat.

Lemma TEST_BIT_SET_BIT (s : Z) (i j : nat) :
  TEST_BIT (SET_BIT s i) j = TEST_BIT s j || Nat.eqb i j.
Proof.
  unfold TEST_BIT, SET_BIT.
  rewrite Z.lor_spec, Z.shiftl_1_l, Z.pow2_bits_eqb by lia.
  f_equal.
  destruct (Nat.eqb_spec i j) as [->|Hne].
  - apply Z.eqb_refl.
  - apply Z.eqb_neq. lia.
Qed.

Lemma TEST_BIT_lor (a b : Z) (i : nat) :
  TEST_BIT (Z.lor a b) i = TEST_BIT a i || TEST_BIT b i.
Proof. apply Z.lor_spec. Qed.

Lemma TEST_BIT_land (a b : Z) (i : nat) :
  TEST_BIT (Z.land a b) i = TEST_BIT a i && TEST_BIT b i.
Proof. apply Z.land_spec. Qed.

Lemma TEST_BIT_0 (i : nat) : TEST_BIT 0 i = false.
Proof. apply Z.testbit_0_l. Qed.

End Bits.

(** ** Reservation sets, exclusion sets and presence/absence patterns *)

Module Reservs.
Import Bits.

(** [reserv_sets_t]: one [Z] per cycle, holding the
    [els_in_cycle_reserv] words of the cycle.  The source keeps the
    cycles one after another in one bit string and [SET_BIT] /
    [TEST_BIT] address it at
    [cycle_num * els_in_cycle_reserv * sizeof (set_el_t) * CHAR_BIT + unit_num];
    the list is that string for the units within the bits of a cycle,
    which the declared units are ([unit_num < units_num], and
    [els_in_cycle_reserv] is [units_num] rounded up to words).  A unit
    number past the bits of a cycle addresses the next cycle in the
    source and is outside the embedding: the properties below take the
    units within the cycle. *)
Definition reserv_sets_t := list Z.

(** [alloc_empty_reserv_sets] *)
Definition alloc_empty_reserv_sets (max_cycles_num : nat) : reserv_sets_t :=
  repeat 0 max_cycles_num.

(** [set_unit_reserv]; [None] is the source's [abort ()].  For
    [unit_num] within the bits of a cycle. *)
Definition set_unit_reserv (max_cycles_num : nat) (reservs : reserv_sets_t)
    (cycle_num unit_num : nat) : option reserv_sets_t :=
  if (max_cycles_num <=? cycle_num)%nat then None
  else Some (firstn cycle_num reservs
             ++ SET_BIT (nth cycle_num reservs 0) unit_num
             :: skipn (S cycle_num) reservs).

(** [test_unit_reserv], for [unit_num] within the bits of a cycle. *)
Definition test_unit_reserv (max_cycles_num : nat) (reservs : reserv_sets_t)
    (cycle_num unit_num : nat) : option bool :=
  if (max_cycles_num <=? cycle_num)%nat then None
  else Some (TEST_BIT (nth cycle_num reservs 0) unit_num).

(** [reserv_sets_or] *)
Fixpoint reserv_sets_or (operand_1 operand_2 : reserv_sets_t) : reserv_sets_t :=
  match operand_1, operand_2 with
  | el_1 :: rest_1, el_2 :: rest_2 => Z.lor el_1 el_2 :: reserv_sets_or rest_1 rest_2
  | _, _ => []
  end.

(** [reserv_sets_and] *)
Fixpoint reserv_sets_and (operand_1 operand_2 : reserv_sets_t) : reserv_sets_t :=
  match operand_1, operand_2 with
  | el_1 :: rest_1, el_2 :: rest_2 => Z.land el_1 el_2 :: reserv_sets_and rest_1 rest_2
  | _, _ => []
  end.

(** [reserv_sets_shift (result, operand)]: the cycles of [operand] move
    down by one; the last cycle of [result] is not written. *)
Definition reserv_sets_shift (result operand : reserv_sets_t) : reserv_sets_t :=
  tl operand ++ skipn (length operand - 1) result.

Section Patterns.

(** [description->units_num] *)
Variable units_num : nat.
(** [els_in_cycle_reserv * sizeof (set_el_t)], the bytes of one cycle. *)
Variable chars_num : nat.
(** [unit_excl_set_table] and the four pattern tables; [[]] is [NULL]. *)
Variable unit_excl_set_table : list Z.
Variable unit_presence_set_table : list (list Z).
Variable unit_final_presence_set_table : list (list Z).
Variable unit_absence_set_table : list (list Z).
Variable unit_final_absence_set_table : list (list Z).

(** The result of a loop body that may leave the function. *)
Inductive flow (A : Type) : Type :=
| Go (a : A)      (* fall through to the next iteration *)
| Return (a : A). (* [return a] *)
Arguments Go {A} a.
Arguments Return {A} a.

(** [get_excl_set]: the loop over the bits of one byte. *)
Fixpoint get_excl_set_bits (in_set : Z) (excl_char_num : nat) (bits : list nat)
    (excl_set : Z) : flow Z :=
  match bits with
  | [] => Go excl_set
  | i :: bits' =>
    if Z.testbit (char_at in_set excl_char_num) (Z.of_nat i) then
      let start_unit_num := (excl_char_num * CHAR_BIT + i)%nat in
      if (units_num <=? start_unit_num)%nat then Return excl_set
      else get_excl_set_bits in_set excl_char_num bits'
             (Z.lor excl_set (nth start_unit_num unit_excl_set_table 0))
    else get_excl_set_bits in_set excl_char_num bits' excl_set
  end.

(** [get_excl_set]: the loop over the bytes. *)
Fixpoint get_excl_set_chars (in_set : Z) (chars : list nat) (excl_set : Z) : Z :=
  match chars with
  | [] => excl_set
  | excl_char_num :: chars' =>
    if char_at in_set excl_char_num =? 0
    then get_excl_set_chars in_set chars' excl_set
    else match get_excl_set_bits in_set excl_char_num char_bits excl_set with
         | Return r => r
         | Go excl_set' => get_excl_set_chars in_set chars' excl_set'
         end
  end.

(** [get_excl_set (in_set)]: the union of the exclusion sets of the
    units of [in_set]. *)
Definition get_excl_set (in_set : Z) : Z :=
  get_excl_set_chars in_set (seq 0 chars_num) 0.

(** The loop over the patterns of one unit in
    [check_presence_pattern_sets]. *)
Fixpoint presence_pat_loop (checked_set : Z) (pats : list Z) (presence_p : bool) : bool :=
  match pats with
  | [] => presence_p
  | pat_reserv :: pats' =>
    presence_pat_loop checked_set pats' (presence_p || holds checked_set pat_reserv)
  end.

(** [check_presence_pattern_sets]: the bits of one byte.  [false] is
    [return FALSE]; [true] is the end of the loop, or its [break]. *)
Fixpoint check_presence_bits (checked_set origional_set : Z) (final_p : bool)
    (char_num : nat) (bits : list nat) : bool :=
  match bits with
  | [] => true
  | i :: bits' =>
    if Z.testbit (char_at origional_set char_num) (Z.of_nat i) then
      let start_unit_num := (char_num * CHAR_BIT + i)%nat in
      if (units_num <=? start_unit_num)%nat then true
      else
        let table := if final_p then unit_final_presence_set_table
                     else unit_presence_set_table in
        match nth start_unit_num table [] with
        | [] => check_presence_bits checked_set origional_set final_p char_num bits'
        | pats =>
          if presence_pat_loop checked_set pats false
          then check_presence_bits checked_set origional_set final_p char_num bits'
          else false
        end
    else check_presence_bits checked_set origional_set final_p char_num bits'
  end.

Fixpoint check_presence_chars (checked_set origional_set : Z) (final_p : bool)
    (chars : list nat) : bool :=
  match chars with
  | [] => true
  | char_num :: chars' =>
    if char_at origional_set char_num =? 0
    then check_presence_chars checked_set origional_set final_p chars'
    else if check_presence_bits checked_set origional_set final_p char_num char_bits
         then check_presence_chars checked_set origional_set final_p chars'
         else false
  end.

(** [check_presence_pattern_sets (checked_set, origional_set, final_p)] *)
Definition check_presence_pattern_sets (checked_set origional_set : Z)
    (final_p : bool) : bool :=
  check_presence_chars checked_set origional_set final_p (seq 0 chars_num).

(** The loop over the patterns of one unit in
    [check_absence_pattern_sets]; [false] is [return FALSE].  The word
    loop breaks on a word that is [!= 0] and not held. *)
Fixpoint absence_pat_loop (checked_set : Z) (pats : list Z) : bool :=
  match pats with
  | [] => true
  | pat_reserv :: pats' =>
    if negb (holds checked_set pat_reserv) && negb (pat_reserv =? 0)
    then absence_pat_loop checked_set pats'
    else false
  end.

Fixpoint check_absence_bits (checked_set origional_set : Z) (final_p : bool)
    (char_num : nat) (bits : list nat) : bool :=
  match bits with
  | [] => true
  | i :: bits' =>
    if Z.testbit (char_at origional_set char_num) (Z.of_nat i) then
      let start_unit_num := (char_num * CHAR_BIT + i)%nat in
      if (units_num <=? start_unit_num)%nat then true
      else
        let table := if final_p then unit_final_absence_set_table
                     else unit_absence_set_table in
        if absence_pat_loop checked_set (nth start_unit_num table [])
        then check_absence_bits checked_set origional_set final_p char_num bits'
        else false
    else check_absence_bits checked_set origional_set final_p char_num bits'
  end.

Fixpoint check_absence_chars (checked_set origional_set : Z) (final_p : bool)
    (chars : list nat) : bool :=
  match chars with
  | [] => true
  | char_num :: chars' =>
    if char_at origional_set char_num =? 0
    then check_absence_chars checked_set origional_set final_p chars'
    else if check_absence_bits checked_set origional_set final_p char_num char_bits
         then check_absence_chars checked_set origional_set final_p chars'
         else false
  end.

(** [check_absence_pattern_sets (checked_set, origional_set, final_p)] *)
Definition check_absence_pattern_sets (checked_set origional_set : Z)
    (final_p : bool) : bool :=
  check_absence_chars checked_set origional_set final_p (seq 0 chars_num).

(** [reserv_sets_are_intersected]: the first loop, over all elements. *)
Fixpoint common_bit_loop (operand_1 operand_2 : reserv_sets_t) : bool :=
  match operand_1, operand_2 with
  | el_1 :: rest_1, el_2 :: rest_2 =>
    if negb (Z.land el_1 el_2 =? 0) then true else common_bit_loop rest_1 rest_2
  | _, _ => false
  end.

(** [reserv_sets_are_intersected]: the second loop, cycle by cycle;
    [temp] is [temp_reserv + (cycle_ptr_2 - operand_2)]. *)
Fixpoint cycle_loop (operand_1 operand_2 temp : reserv_sets_t) : bool :=
  match operand_1, operand_2, temp with
  | cycle_1 :: rest_1, cycle_2 :: rest_2, temp_cycle :: temp' =>
    if negb (Z.land cycle_1 (get_excl_set cycle_2) =? 0) then true
    else if negb (check_presence_pattern_sets cycle_1 cycle_2 false) then true
    else if negb (check_presence_pattern_sets temp_cycle cycle_2 true) then true
    else if negb (check_absence_pattern_sets cycle_1 cycle_2 false) then true
    else if negb (check_absence_pattern_sets temp_cycle cycle_2 true) then true
    else cycle_loop rest_1 rest_2 temp'
  | _, _, _ => false
  end.

(** [reserv_sets_are_intersected (operand_1, operand_2)] *)
Definition reserv_sets_are_intersected (operand_1 operand_2 : reserv_sets_t) : bool :=
  if common_bit_loop operand_1 operand_2 then true
  else cycle_loop operand_1 operand_2 (reserv_sets_or operand_1 operand_2).

(** *** What the predicate decides, unit by unit *)

(** Every unit of the pattern [pat] is reserved in the cycle [set]. *)
Definition pattern_present (pat set : Z) : Prop :=
  forall unit : nat, TEST_BIT pat unit = true -> TEST_BIT set unit = true.

(** Some unit of [cycle_2] makes the reservation of [cycle_1] together
    with it illegal ([pattern_conflict]), or the two share a unit: a unit
    of [cycle_1] is excluded by a unit of [cycle_2]; a unit of [cycle_2] has presence
    patterns, none of them present in [cycle_1] (final ones: in the
    union); or a unit of [cycle_2] has an absence pattern present in
    [cycle_1] (final ones: in the union). *)
Definition pattern_conflict (cycle_1 cycle_2 : Z) : Prop :=
  (exists u v, (u < units_num)%nat /\ TEST_BIT cycle_2 u = true
        /\ TEST_BIT cycle_1 v = true
        /\ TEST_BIT (nth u unit_excl_set_table 0) v = true)
  \/ (exists u, (u < units_num)%nat /\ TEST_BIT cycle_2 u = true
        /\ nth u unit_presence_set_table [] <> []
        /\ forall pat, In pat (nth u unit_presence_set_table [])
             -> ~ pattern_present pat cycle_1)
  \/ (exists u, (u < units_num)%nat /\ TEST_BIT cycle_2 u = true
        /\ nth u unit_final_presence_set_table [] <> []
        /\ forall pat, In pat (nth u unit_final_presence_set_table [])
             -> ~ pattern_present pat (Z.lor cycle_1 cycle_2))
  \/ (exists u pat, (u < units_num)%nat /\ TEST_BIT cycle_2 u = true
        /\ In pat (nth u unit_absence_set_table [])
        /\ pattern_present pat cycle_1)
  \/ (exists u pat, (u < units_num)%nat /\ TEST_BIT cycle_2 u = true
        /\ In pat (nth u unit_final_absence_set_table [])
        /\ pattern_present pat (Z.lor cycle_1 cycle_2)).

Definition conflict (cycle_1 cycle_2 : Z) : Prop :=
  (exists u, TEST_BIT cycle_1 u = true /\ TEST_BIT cycle_2 u = true)
  \/ pattern_conflict cycle_1 cycle_2.

(** The units of [operand_2] conflict with [operand_1] on some cycle. *)
Definition conflict_on_some_cycle (operand_1 operand_2 : reserv_sets_t) : Prop :=
  exists cycle, (cycle < length operand_1)%nat
    /\ conflict (nth cycle operand_1 0) (nth cycle operand_2 0).

(** The predicate as the specification words it: the patterns of the
    units of either operand count. *)
Definition intersects_either_operand (operand_1 operand_2 : reserv_sets_t) : Prop :=
  conflict_on_some_cycle operand_1 operand_2
  \/ conflict_on_some_cycle operand_2 operand_1.

(** A cycle set is a set of declared units, as [set_unit_reserv] and
    the bitwise operations leave it. *)
Definition units_only (set : Z) : Prop :=
  forall k : nat, (units_num <= k)%nat -> TEST_BIT set k = false.

(** The same, as a range: a bit string of [units_num] bits. *)
Definition unit_set (set : Z) : Prop := 0 <= set < 2 ^ Z.of_nat units_num.


(** *** Bit-level facts *)

Lemma char_at_testbit (set : Z) (char_num i : nat) :
  (i < CHAR_BIT)%nat ->
  Z.testbit (char_at set char_num) (Z.of_nat i)
  = TEST_BIT set (char_num * CHAR_BIT + i).
Proof.
  intros Hi. unfold char_at, TEST_BIT, CHAR_BIT in *.
  change 255 with (Z.ones 8).
  rewrite Z.land_spec, Z.shiftr_spec by lia.
  rewrite Z.ones_spec_low by lia.
  rewrite andb_true_r. f_equal. lia.
Qed.

Lemma land_nonzero (a b : Z) :
  (Z.land a b =? 0) = false
  <-> exists u : nat, TEST_BIT a u = true /\ TEST_BIT b u = true.
Proof.
  rewrite Z.eqb_neq. split.
  - intros Hne.
    assert (exists n, 0 <= n /\ Z.testbit (Z.land a b) n = true) as (n & Hn & Hb).
    { destruct (Z.lt_trichotomy (Z.land a b) 0) as [Hneg | [H0 | Hpos]].
      - exists (Z.succ (Z.log2 (Z.pred (- Z.land a b)))). split.
        + pose proof (Z.log2_nonneg (Z.pred (- Z.land a b))). lia.
        + apply Z.bits_above_log2_neg; lia.
      - contradiction.
      - exists (Z.log2 (Z.land a b)). split.
        + apply Z.log2_nonneg.
        + apply Z.bit_log2. assumption. }
    exists (Z.to_nat n). unfold TEST_BIT. rewrite Z2Nat.id by assumption.
    rewrite Z.land_spec in Hb. apply andb_true_iff in Hb. exact Hb.
  - intros (u & Ha & Hb) H0.
    assert (TEST_BIT (Z.land a b) u = true) as Hab
      by (rewrite TEST_BIT_land, Ha, Hb; reflexivity).
    rewrite H0, TEST_BIT_0 in Hab. discriminate.
Qed.

Lemma holds_present (set pat : Z) :
  holds set pat = true <-> pattern_present pat set.
Proof.
  unfold holds, pattern_present. rewrite Z.eqb_eq. split.
  - intros Heq unit Hp. rewrite <- Heq, TEST_BIT_land in Hp.
    apply andb_true_iff in Hp. tauto.
  - intros Hall. apply Z.bits_inj'. intros n Hn.
    rewrite Z.land_spec.
    specialize (Hall (Z.to_nat n)). unfold TEST_BIT in Hall.
    rewrite Z2Nat.id in Hall by assumption.
    destruct (Z.testbit pat n).
    + rewrite Hall; reflexivity.
    + apply andb_false_r.
Qed.

Lemma holds_absent (set pat : Z) :
  holds set pat = false <-> ~ pattern_present pat set.
Proof.
  rewrite <- holds_present. destruct (holds set pat); split; try easy.
Qed.

(** *** The loops over the units of a cycle *)

(** The units in the order the byte and bit loops visit them. *)
Definition unit_order (chars : list nat) : list nat :=
  flat_map (fun char_num => map (fun i => (char_num * CHAR_BIT + i)%nat) char_bits) chars.

Lemma in_unit_order (n u : nat) :
  In u (unit_order (seq 0 n)) <-> (u < n * CHAR_BIT)%nat.
Proof.
  unfold unit_order. rewrite in_flat_map. split.
  - intros (c & Hc & Hu). apply in_seq in Hc. apply in_map_iff in Hu.
    destruct Hu as (i & <- & Hi).
    assert (i < CHAR_BIT)%nat by (unfold char_bits, CHAR_BIT in *; simpl in Hi; lia).
    nia.
  - intros Hu. exists (u / CHAR_BIT)%nat. unfold CHAR_BIT in *. split.
    + apply in_seq. split; [lia|]. rewrite Nat.add_0_l.
      apply Nat.Div0.div_lt_upper_bound. lia.
    + apply in_map_iff. exists (u mod 8)%nat. split.
      * pose proof (Nat.div_mod_eq u 8). lia.
      * pose proof (Nat.mod_upper_bound u 8 ltac:(lia)) as Hm.
        remember (u mod 8)%nat as m eqn:Em. clear Em. unfold char_bits.
        destruct m as [|[|[|[|[|[|[|[|k]]]]]]]]; try lia; simpl; auto 12.
Qed.

Lemma unit_order_cons (c : nat) (chars : list nat) :
  unit_order (c :: chars)
  = map (fun i => (c * CHAR_BIT + i)%nat) char_bits ++ unit_order chars.
Proof. reflexivity. Qed.

Lemma char_bits_small : Forall (fun i => (i < CHAR_BIT)%nat) char_bits.
Proof. unfold char_bits, CHAR_BIT. repeat constructor. Qed.

(** [get_excl_set] as a union over the visited units. *)
Definition excl_union (in_set : Z) (units : list nat) (excl_set : Z) : Z :=
  fold_left (fun acc u => if TEST_BIT in_set u
                          then Z.lor acc (nth u unit_excl_set_table 0) else acc)
            units excl_set.

Lemma get_excl_set_bits_union (in_set : Z) (c : nat) (bits : list nat) (acc : Z) :
  units_only in_set -> Forall (fun i => (i < CHAR_BIT)%nat) bits ->
  get_excl_set_bits in_set c bits acc
  = Go (excl_union in_set (map (fun i => (c * CHAR_BIT + i)%nat) bits) acc).
Proof.
  intros Hwf Hbits. revert acc.
  induction Hbits as [|i bits Hi _ IH]; intros acc; simpl; [reflexivity|].
  rewrite char_at_testbit by assumption.
  destruct (TEST_BIT in_set (c * CHAR_BIT + i)) eqn:Hb.
  - destruct (Nat.leb_spec units_num (c * CHAR_BIT + i)) as [Hge|Hlt].
    + rewrite (Hwf _ Hge) in Hb. discriminate.
    + apply IH.
  - apply IH.
Qed.

Lemma excl_union_no_bits (in_set : Z) (units : list nat) (acc : Z) :
  (forall u, In u units -> TEST_BIT in_set u = false) ->
  excl_union in_set units acc = acc.
Proof.
  revert acc. induction units as [|u units IH]; intros acc Hall; simpl; [reflexivity|].
  rewrite (Hall u) by (left; reflexivity). apply IH.
  intros v Hv. apply Hall. right. assumption.
Qed.

Lemma zero_char_no_bits (set : Z) (c u : nat) :
  char_at set c = 0 ->
  In u (map (fun i => (c * CHAR_BIT + i)%nat) char_bits) ->
  TEST_BIT set u = false.
Proof.
  intros H0 Hu. apply in_map_iff in Hu. destruct Hu as (i & <- & Hi).
  assert (i < CHAR_BIT)%nat as Hlt
    by (eapply Forall_forall in Hi; [exact Hi | apply char_bits_small]).
  rewrite <- char_at_testbit by assumption. rewrite H0. apply Z.testbit_0_l.
Qed.

Lemma get_excl_set_chars_union (in_set : Z) (chars : list nat) (acc : Z) :
  units_only in_set ->
  get_excl_set_chars in_set chars acc = excl_union in_set (unit_order chars) acc.
Proof.
  intros Hwf. revert acc.
  induction chars as [|c chars IH]; intros acc; [reflexivity|].
  rewrite unit_order_cons. cbn [get_excl_set_chars].
  unfold excl_union at 1. rewrite fold_left_app.
  fold (excl_union in_set (map (fun i => (c * CHAR_BIT + i)%nat) char_bits) acc).
  match goal with |- _ = fold_left ?f ?l ?a => change (fold_left f l a) with (excl_union in_set l a) end.
  destruct (Z.eqb_spec (char_at in_set c) 0) as [H0|Hne].
  - rewrite IH. f_equal. symmetry. apply excl_union_no_bits.
    intros u Hu. eapply zero_char_no_bits; eassumption.
  - rewrite get_excl_set_bits_union by (assumption || apply char_bits_small).
    apply IH.
Qed.

Lemma excl_union_bit (in_set : Z) (units : list nat) (acc : Z) (v : nat) :
  TEST_BIT (excl_union in_set units acc) v
  = TEST_BIT acc v
    || existsb (fun u => TEST_BIT in_set u && TEST_BIT (nth u unit_excl_set_table 0) v) units.
Proof.
  revert acc. induction units as [|u units IH]; intros acc; simpl.
  - rewrite orb_false_r. reflexivity.
  - unfold excl_union in *. rewrite IH.
    destruct (TEST_BIT in_set u); simpl.
    + rewrite TEST_BIT_lor, orb_assoc. reflexivity.
    + reflexivity.
Qed.

Hypothesis units_fit : (units_num <= chars_num * CHAR_BIT)%nat.

Lemma get_excl_set_bit (in_set : Z) (v : nat) :
  units_only in_set ->
  (TEST_BIT (get_excl_set in_set) v = true
   <-> exists u, (u < units_num)%nat /\ TEST_BIT in_set u = true
                 /\ TEST_BIT (nth u unit_excl_set_table 0) v = true).
Proof.
  intros Hwf. unfold get_excl_set.
  rewrite get_excl_set_chars_union, excl_union_bit, TEST_BIT_0 by assumption.
  simpl. rewrite existsb_exists. split.
  - intros (u & _ & Hu). apply andb_true_iff in Hu. destruct Hu as [Hin Hex].
    exists u. repeat split; try assumption.
    destruct (Nat.lt_ge_cases u units_num) as [|Hge]; [assumption|].
    rewrite (Hwf _ Hge) in Hin. discriminate.
  - intros (u & Hlt & Hin & Hex). exists u. split.
    + apply in_unit_order. lia.
    + rewrite Hin, Hex. reflexivity.
Qed.

(** [check_presence_pattern_sets] unit by unit. *)
Definition presence_ok (checked_set : Z) (table : list (list Z)) (u : nat) : bool :=
  match nth u table [] with
  | [] => true
  | pats => existsb (holds checked_set) pats
  end.

Lemma presence_pat_loop_existsb (checked_set : Z) (pats : list Z) (p : bool) :
  presence_pat_loop checked_set pats p = p || existsb (holds checked_set) pats.
Proof.
  revert p. induction pats as [|pat pats IH]; intros p; simpl.
  - rewrite orb_false_r. reflexivity.
  - rewrite IH, orb_assoc. reflexivity.
Qed.

Definition presence_table (final_p : bool) : list (list Z) :=
  if final_p then unit_final_presence_set_table else unit_presence_set_table.

Lemma presence_step (checked : Z) (table : list (list Z)) (u : nat) (rest : bool) :
  match nth u table [] with
  | [] => rest
  | _ :: _ => if presence_pat_loop checked (nth u table []) false then rest else false
  end
  = presence_ok checked table u && rest.
Proof.
  unfold presence_ok.
  destruct (nth u table []) as [|pat pats]; [reflexivity|].
  rewrite presence_pat_loop_existsb, orb_false_l.
  destruct (existsb (holds checked) (pat :: pats)); reflexivity.
Qed.

Lemma check_presence_bits_forallb (checked orig : Z) (final_p : bool) (c : nat)
    (bits : list nat) :
  units_only orig -> Forall (fun i => (i < CHAR_BIT)%nat) bits ->
  check_presence_bits checked orig final_p c bits
  = forallb (fun u => negb (TEST_BIT orig u)
                      || presence_ok checked (presence_table final_p) u)
            (map (fun i => (c * CHAR_BIT + i)%nat) bits).
Proof.
  intros Hwf Hbits.
  induction Hbits as [|i bits Hi _ IH]; [reflexivity|].
  cbn [check_presence_bits map forallb].
  rewrite char_at_testbit by assumption.
  destruct (TEST_BIT orig (c * CHAR_BIT + i)) eqn:Hb; cbn [negb orb andb]; [|exact IH].
  destruct (Nat.leb_spec units_num (c * CHAR_BIT + i)) as [Hge|Hlt].
  - rewrite (Hwf _ Hge) in Hb. discriminate.
  - rewrite <- IH. fold (presence_table final_p).
    rewrite <- presence_step.
    destruct (nth (c * CHAR_BIT + i) (presence_table final_p) []); reflexivity.
Qed.

Lemma forallb_no_bits (orig : Z) (f : nat -> bool) (units : list nat) :
  (forall u, In u units -> TEST_BIT orig u = false) ->
  forallb (fun u => negb (TEST_BIT orig u) || f u) units = true.
Proof.
  intros Hall. apply forallb_forall. intros u Hu. rewrite (Hall u Hu). reflexivity.
Qed.

Lemma check_presence_chars_forallb (checked orig : Z) (final_p : bool)
    (chars : list nat) :
  units_only orig ->
  check_presence_chars checked orig final_p chars
  = forallb (fun u => negb (TEST_BIT orig u)
                      || presence_ok checked (presence_table final_p) u)
            (unit_order chars).
Proof.
  intros Hwf. induction chars as [|c chars IH]; [reflexivity|].
  rewrite unit_order_cons, forallb_app. cbn [check_presence_chars].
  destruct (Z.eqb_spec (char_at orig c) 0) as [H0|Hne].
  - rewrite forallb_no_bits; [exact IH|].
    intros u Hu. eapply zero_char_no_bits; eassumption.
  - rewrite check_presence_bits_forallb by (assumption || apply char_bits_small).
    rewrite IH.
    destruct (forallb _ (map _ char_bits)); reflexivity.
Qed.

Lemma check_presence_fails (checked orig : Z) (final_p : bool) :
  units_only orig ->
  (check_presence_pattern_sets checked orig final_p = false
   <-> exists u, (u < units_num)%nat /\ TEST_BIT orig u = true
         /\ nth u (presence_table final_p) [] <> []
         /\ forall pat, In pat (nth u (presence_table final_p) [])
              -> ~ pattern_present pat checked).
Proof.
  intros Hwf. unfold check_presence_pattern_sets.
  rewrite check_presence_chars_forallb by assumption. split.
  - intros Hf.
    destruct (forallb _ _) eqn:Hall in Hf; [discriminate|]. clear Hf.
    assert (exists u, In u (unit_order (seq 0 chars_num))
              /\ (negb (TEST_BIT orig u)
                  || presence_ok checked (presence_table final_p) u) = false)
      as (u & _ & Hu).
    { clear -Hall. induction (unit_order (seq 0 chars_num)) as [|u l IH];
        simpl in Hall; [discriminate|].
      apply andb_false_iff in Hall. destruct Hall as [Hu|Hl].
      - exists u. split; [left; reflexivity | exact Hu].
      - destruct (IH Hl) as (v & Hv & Hvf). exists v. split; [right|]; assumption. }
    apply orb_false_iff in Hu. destruct Hu as [Hbit Hok].
    apply negb_false_iff in Hbit. exists u.
    assert (u < units_num)%nat as Hlt.
    { destruct (Nat.lt_ge_cases u units_num) as [|Hge]; [assumption|].
      rewrite (Hwf _ Hge) in Hbit. discriminate. }
    unfold presence_ok in Hok.
    destruct (nth u (presence_table final_p) []) as [|pat pats]; [discriminate|].
    repeat split; try assumption; [discriminate|].
    intros q Hq. apply holds_absent.
    destruct (holds checked q) eqn:Hh; [|reflexivity].
    assert (existsb (holds checked) (pat :: pats) = true) as Hex
      by (apply existsb_exists; exists q; split; assumption).
    rewrite Hex in Hok. discriminate.
  - intros (u & Hlt & Hbit & Hne & Hnone).
    destruct (forallb _ _) eqn:Hall; [|reflexivity]. exfalso.
    rewrite forallb_forall in Hall.
    specialize (Hall u). rewrite Hbit in Hall. simpl in Hall.
    assert (In u (unit_order (seq 0 chars_num))) as Hin by (apply in_unit_order; lia).
    specialize (Hall Hin). unfold presence_ok in Hall.
    destruct (nth u (presence_table final_p) []) as [|pat pats]; [congruence|].
    apply existsb_exists in Hall. destruct Hall as (q & Hq & Hh).
    apply (Hnone q Hq). apply holds_present. assumption.
Qed.

(** [check_absence_pattern_sets] unit by unit. *)
Definition absence_table (final_p : bool) : list (list Z) :=
  if final_p then unit_final_absence_set_table else unit_absence_set_table.

Lemma absence_pat_loop_forallb (checked_set : Z) (pats : list Z) :
  absence_pat_loop checked_set pats
  = forallb (fun pat => negb (holds checked_set pat)) pats.
Proof.
  induction pats as [|pat pats IH]; simpl; [reflexivity|].
  rewrite <- IH.
  destruct (holds checked_set pat) eqn:Hh; simpl; [reflexivity|].
  destruct (Z.eqb_spec pat 0) as [->|Hne]; simpl; [|reflexivity].
  unfold holds in Hh. rewrite Z.land_0_r in Hh. discriminate.
Qed.

Lemma check_absence_bits_forallb (checked orig : Z) (final_p : bool) (c : nat)
    (bits : list nat) :
  units_only orig -> Forall (fun i => (i < CHAR_BIT)%nat) bits ->
  check_absence_bits checked orig final_p c bits
  = forallb (fun u => negb (TEST_BIT orig u)
                      || absence_pat_loop checked (nth u (absence_table final_p) []))
            (map (fun i => (c * CHAR_BIT + i)%nat) bits).
Proof.
  intros Hwf Hbits.
  induction Hbits as [|i bits Hi _ IH]; [reflexivity|].
  cbn [check_absence_bits map forallb].
  rewrite char_at_testbit by assumption.
  destruct (TEST_BIT orig (c * CHAR_BIT + i)) eqn:Hb; cbn [negb orb andb]; [|exact IH].
  destruct (Nat.leb_spec units_num (c * CHAR_BIT + i)) as [Hge|Hlt].
  - rewrite (Hwf _ Hge) in Hb. discriminate.
  - rewrite <- IH. fold (absence_table final_p).
    destruct (absence_pat_loop checked _); reflexivity.
Qed.

Lemma check_absence_chars_forallb (checked orig : Z) (final_p : bool)
    (chars : list nat) :
  units_only orig ->
  check_absence_chars checked orig final_p chars
  = forallb (fun u => negb (TEST_BIT orig u)
                      || absence_pat_loop checked (nth u (absence_table final_p) []))
            (unit_order chars).
Proof.
  intros Hwf. induction chars as [|c chars IH]; [reflexivity|].
  rewrite unit_order_cons, forallb_app. cbn [check_absence_chars].
  destruct (Z.eqb_spec (char_at orig c) 0) as [H0|Hne].
  - rewrite forallb_no_bits; [exact IH|].
    intros u Hu. eapply zero_char_no_bits; eassumption.
  - rewrite check_absence_bits_forallb by (assumption || apply char_bits_small).
    rewrite IH.
    destruct (forallb _ (map _ char_bits)); reflexivity.
Qed.

Lemma check_absence_fails (checked orig : Z) (final_p : bool) :
  units_only orig ->
  (check_absence_pattern_sets checked orig final_p = false
   <-> exists u pat, (u < units_num)%nat /\ TEST_BIT orig u = true
         /\ In pat (nth u (absence_table final_p) [])
         /\ pattern_present pat checked).
Proof.
  intros Hwf. unfold check_absence_pattern_sets.
  rewrite check_absence_chars_forallb by assumption. split.
  - intros Hf.
    assert (exists u, In u (unit_order (seq 0 chars_num))
              /\ (negb (TEST_BIT orig u)
                  || absence_pat_loop checked (nth u (absence_table final_p) []))
                 = false)
      as (u & _ & Hu).
    { clear -Hf. induction (unit_order (seq 0 chars_num)) as [|u l IH];
        simpl in Hf; [discriminate|].
      apply andb_false_iff in Hf. destruct Hf as [Hu|Hl].
      - exists u. split; [left; reflexivity | exact Hu].
      - destruct (IH Hl) as (v & Hv & Hvf). exists v. split; [right|]; assumption. }
    apply orb_false_iff in Hu. destruct Hu as [Hbit Hok].
    apply negb_false_iff in Hbit.
    assert (u < units_num)%nat as Hlt.
    { destruct (Nat.lt_ge_cases u units_num) as [|Hge]; [assumption|].
      rewrite (Hwf _ Hge) in Hbit. discriminate. }
    rewrite absence_pat_loop_forallb in Hok.
    assert (exists pat, In pat (nth u (absence_table final_p) [])
                        /\ holds checked pat = true) as (pat & Hpat & Hh).
    { clear -Hok. induction (nth u (absence_table final_p) []) as [|q l IH];
        simpl in Hok; [discriminate|].
      apply andb_false_iff in Hok. destruct Hok as [Hq|Hl].
      - exists q. split; [left; reflexivity|]. apply negb_false_iff. exact Hq.
      - destruct (IH Hl) as (r & Hr & Hrh). exists r. split; [right|]; assumption. }
    exists u, pat. repeat split; try assumption. apply holds_present. assumption.
  - intros (u & pat & Hlt & Hbit & Hpat & Hpres).
    destruct (forallb _ _) eqn:Hall; [|reflexivity]. exfalso.
    rewrite forallb_forall in Hall.
    specialize (Hall u). rewrite Hbit in Hall. simpl in Hall.
    assert (In u (unit_order (seq 0 chars_num))) as Hin by (apply in_unit_order; lia).
    specialize (Hall Hin). rewrite absence_pat_loop_forallb, forallb_forall in Hall.
    specialize (Hall pat Hpat). apply holds_present in Hpres.
    rewrite Hpres in Hall. discriminate.
Qed.


Lemma unit_set_units_only (set : Z) : unit_set set -> units_only set.
Proof.
  intros [H0 Hlt] k Hk. unfold TEST_BIT.
  destruct (Z.eq_dec set 0) as [->|Hne]; [apply Z.testbit_0_l|].
  apply Z.bits_above_log2; [assumption|].
  assert (Z.log2 set < Z.of_nat units_num) by (apply Z.log2_lt_pow2; lia).
  lia.
Qed.

(** *** The two loops of [reserv_sets_are_intersected] *)

Lemma common_bit_loop_iff (operand_1 operand_2 : reserv_sets_t) :
  length operand_1 = length operand_2 ->
  (common_bit_loop operand_1 operand_2 = true
   <-> exists cycle, (cycle < length operand_1)%nat
         /\ exists u, TEST_BIT (nth cycle operand_1 0) u = true
                      /\ TEST_BIT (nth cycle operand_2 0) u = true).
Proof.
  revert operand_2.
  induction operand_1 as [|el_1 rest_1 IH]; intros [|el_2 rest_2] Hlen;
    try discriminate; simpl.
  - split; [discriminate | intros (c & Hc & _); lia].
  - injection Hlen as Hlen.
    destruct (Z.land el_1 el_2 =? 0) eqn:Hz; simpl.
    + rewrite (IH rest_2 Hlen). split.
      * intros (c & Hc & Hu). exists (S c). split; [lia | exact Hu].
      * intros ([|c] & Hc & u & Ha & Hb).
        -- assert ((Z.land el_1 el_2 =? 0) = false) as Hnz
             by (apply land_nonzero; exists u; split; assumption).
           congruence.
        -- exists c. split; [lia|]. exists u. split; assumption.
    + split; [|reflexivity]. intros _. exists 0%nat. split; [lia|].
      apply land_nonzero. exact Hz.
Qed.

Lemma cycle_step_iff (cycle_1 cycle_2 : Z) :
  units_only cycle_2 ->
  (negb (Z.land cycle_1 (get_excl_set cycle_2) =? 0)
   || negb (check_presence_pattern_sets cycle_1 cycle_2 false)
   || negb (check_presence_pattern_sets (Z.lor cycle_1 cycle_2) cycle_2 true)
   || negb (check_absence_pattern_sets cycle_1 cycle_2 false)
   || negb (check_absence_pattern_sets (Z.lor cycle_1 cycle_2) cycle_2 true) = true
   <-> pattern_conflict cycle_1 cycle_2).
Proof.
  intros Hwf. unfold pattern_conflict.
  rewrite !orb_true_iff, !negb_true_iff.
  rewrite land_nonzero.
  rewrite !check_presence_fails, !check_absence_fails by assumption.
  unfold presence_table, absence_table.
  split.
  - intros [[[[(v & Hv & Hex) | H] | H] | H] | H]; try tauto.
    left. apply get_excl_set_bit in Hex; [|assumption].
    destruct Hex as (u & Hlt & Hu & Hx). exists u, v. tauto.
  - intros [(u & v & Hlt & Hu & Hv & Hx) | [H | [H | [H | H]]]]; try tauto.
    left. left. left. left. exists v. split; [assumption|].
    apply get_excl_set_bit; [assumption|]. exists u. tauto.
Qed.

Lemma cycle_loop_iff (operand_1 operand_2 : reserv_sets_t) :
  length operand_1 = length operand_2 ->
  Forall units_only operand_2 ->
  (cycle_loop operand_1 operand_2 (reserv_sets_or operand_1 operand_2) = true
   <-> exists cycle, (cycle < length operand_1)%nat
         /\ pattern_conflict (nth cycle operand_1 0) (nth cycle operand_2 0)).
Proof.
  revert operand_2.
  induction operand_1 as [|c1 rest_1 IH]; intros [|c2 rest_2] Hlen Hwf;
    try discriminate.
  - simpl. split; [discriminate | intros (c & Hc & _); simpl in Hc; lia].
  - injection Hlen as Hlen. inversion Hwf as [|? ? Hwf2 Hwfr]; subst.
    cbn [cycle_loop reserv_sets_or].
    pose proof (cycle_step_iff c1 c2 Hwf2) as Hstep.
    specialize (IH rest_2 Hlen Hwfr).
    destruct (negb (Z.land c1 (get_excl_set c2) =? 0)
              || negb (check_presence_pattern_sets c1 c2 false)
              || negb (check_presence_pattern_sets (Z.lor c1 c2) c2 true)
              || negb (check_absence_pattern_sets c1 c2 false)
              || negb (check_absence_pattern_sets (Z.lor c1 c2) c2 true)) eqn:Hs.
    + assert (pattern_conflict c1 c2) as Hc by (apply Hstep; reflexivity).
      split.
      * intros _. exists 0%nat. split; [simpl; lia | exact Hc].
      * intros _.
        destruct (negb (Z.land c1 (get_excl_set c2) =? 0)); [reflexivity|].
        destruct (negb (check_presence_pattern_sets c1 c2 false)); [reflexivity|].
        destruct (negb (check_presence_pattern_sets (Z.lor c1 c2) c2 true)); [reflexivity|].
        destruct (negb (check_absence_pattern_sets c1 c2 false)); [reflexivity|].
        destruct (negb (check_absence_pattern_sets (Z.lor c1 c2) c2 true)); [reflexivity|].
        discriminate.
    + repeat (apply orb_false_iff in Hs; destruct Hs as [Hs ?]).
      repeat match goal with H : _ = false |- _ => rewrite H; clear H end.
      rewrite IH. split.
      * intros (c & Hc & Hp). exists (S c). split; [simpl; lia | exact Hp].
      * intros ([|c] & Hc & Hp).
        -- apply Hstep in Hp. discriminate.
        -- exists c. split; [simpl in Hc; lia | exact Hp].
Qed.

(** C1, as the code has it: [reserv_sets_are_intersected] answers true
    exactly when, on some cycle, the operands share a unit or a unit of
    the second operand conflicts with the first one: it excludes a unit
    of the first operand, none of its presence patterns is present in
    the first operand, none of its final presence patterns is present in
    the union, one of its absence patterns is present in the first
    operand, or one of its final absence patterns is present in the
    union.  The patterns of the units of the first operand are not
    consulted. *)
Theorem reserv_sets_are_intersected_second_operand
    (operand_1 operand_2 : reserv_sets_t) :
  length operand_1 = length operand_2 ->
  Forall unit_set operand_2 ->
  (reserv_sets_are_intersected operand_1 operand_2 = true
   <-> conflict_on_some_cycle operand_1 operand_2).
Proof.
  intros Hlen Hset.
  assert (Forall units_only operand_2) as Hwf
    by (eapply Forall_impl; [apply unit_set_units_only | exact Hset]).
  unfold reserv_sets_are_intersected, conflict_on_some_cycle, conflict.
  pose proof (common_bit_loop_iff operand_1 operand_2 Hlen) as Hcommon.
  pose proof (cycle_loop_iff operand_1 operand_2 Hlen Hwf) as Hcycle.
  destruct (common_bit_loop operand_1 operand_2).
  - split; [|reflexivity]. intros _.
    destruct Hcommon as [Hc _]. destruct (Hc eq_refl) as (c & Hlt & Hu).
    exists c. split; [assumption | left; assumption].
  - rewrite Hcycle. split.
    + intros (c & Hlt & Hp). exists c. split; [assumption | right; assumption].
    + intros (c & Hlt & [Hu | Hp]).
      * assert (false = true) by (apply Hcommon; exists c; split; assumption).
        discriminate.
      * exists c. split; assumption.
Qed.

End Patterns.

Arguments Go {A} a.
Arguments Return {A} a.


(** *** A three-unit description: [x] (0) requires the presence of [y]
    (1); [z] (2) has no pattern.  One [set_el_t] of eight bytes per
    cycle. *)

Definition xyz_intersected : reserv_sets_t -> reserv_sets_t -> bool :=
  reserv_sets_are_intersected 3 8 [0; 0; 0] [[2]; []; []]
    [[]; []; []] [[]; []; []] [[]; []; []].

(** C1 as worded does not hold: with [x] reserved in the first operand
    and [z] in the second, the presence pattern of [x] is violated by
    the union, yet the code finds no intersection. *)
Lemma reserv_sets_are_intersected_ignores_first_operand :
  xyz_intersected [1] [4] = false
  /\ intersects_either_operand 3 [0; 0; 0] [[2]; []; []]
       [[]; []; []] [[]; []; []] [[]; []; []] [1] [4].
Proof.
  split; [reflexivity|].
  right. exists 0%nat. split; [simpl; lia|].
  right. right. left. exists 0%nat. simpl.
  repeat split; try lia; try discriminate.
  intros pat [<- | []] Hp.
  specialize (Hp 1%nat eq_refl). discriminate.
Qed.

Lemma reserv_sets_are_intersected_second_operand_witness :
  xyz_intersected [4] [1] = true
  <-> conflict_on_some_cycle 3 [0; 0; 0] [[2]; []; []]
        [[]; []; []] [[]; []; []] [[]; []; []] [4] [1].
Proof.
  apply (reserv_sets_are_intersected_second_operand 3 8 [0; 0; 0] [[2]; []; []]
           [[]; []; []] [[]; []; []] [[]; []; []]).
  - simpl. lia.
  - reflexivity.
  - constructor; [|constructor]. unfold unit_set. simpl. lia.
Defined.

End Reservs.

(** ** The intermediate representation of a description *)

Module IR.

Local Set Warnings "-register-all".

(** [struct regexp]: a parsed reservation.  [rm_unit] and [rm_reserv]
    carry the declaration their [unit_decl] / [reserv_decl] field points
    to: a [unit_num], and the position of a [dm_reserv] declaration in
    [description->decls]. *)
Inductive regexp : Type :=
| rm_unit (unit_decl : nat)
| rm_reserv (reserv_decl : nat)
| rm_nothing
| rm_sequence (regexps : list regexp)
| rm_repeat (operand : regexp) (repeat_num : Z)
| rm_allof (regexps : list regexp)
| rm_oneof (regexps : list regexp).

(** Induction over a [regexp] with the operands of its lists. *)
Section RegexpInd.
Variable P : regexp -> Prop.
Hypothesis P_unit : forall u, P (rm_unit u).
Hypothesis P_reserv : forall d, P (rm_reserv d).
Hypothesis P_nothing : P rm_nothing.
Hypothesis P_sequence : forall rs, Forall P rs -> P (rm_sequence rs).
Hypothesis P_repeat : forall r n, P r -> P (rm_repeat r n).
Hypothesis P_allof : forall rs, Forall P rs -> P (rm_allof rs).
Hypothesis P_oneof : forall rs, Forall P rs -> P (rm_oneof rs).

Fixpoint regexp_rect' (r : regexp) : P r :=
  let fix all (rs : list regexp) : Forall P rs :=
    match rs with
    | [] => Forall_nil P
    | r' :: rs' => Forall_cons r' (regexp_rect' r') (all rs')
    end in
  match r with
  | rm_unit u => P_unit u
  | rm_reserv d => P_reserv d
  | rm_nothing => P_nothing
  | rm_sequence rs => P_sequence rs (all rs)
  | rm_repeat r' n => P_repeat r' n (regexp_rect' r')
  | rm_allof rs => P_allof rs (all rs)
  | rm_oneof rs => P_oneof rs (all rs)
  end.
End RegexpInd.

(** [struct pattern_set_el]: the units of one pattern. *)
Definition pattern_set_el := list nat.

(** [struct unit_decl], the fields the generator reads; the unit's
    [unit_num] is its position in [units_array]. *)
Record unit_decl : Type := mk_unit_decl {
  automaton_name : option string;
  query_p : bool;
  automaton_decl : option nat;
  max_occ_cycle_num : Z;
  min_occ_cycle_num : Z;
  excl_list : list nat;
  presence_list : list pattern_set_el;
  final_presence_list : list pattern_set_el;
  absence_list : list pattern_set_el;
  final_absence_list : list pattern_set_el;
  in_set_p : bool
}.

(** A unit as [gen_cpu_unit] creates it. *)
Definition gen_cpu_unit (automaton_name : option string) : unit_decl :=
  mk_unit_decl automaton_name false None 0 (-1) [] [] [] [] [] false.

(** A unit as [gen_query_cpu_unit] creates it: [create_node] clears
    every field and only [query_p] is set. *)
Definition gen_query_cpu_unit (automaton_name : option string) : unit_decl :=
  mk_unit_decl automaton_name true None 0 0 [] [] [] [] [] false.

(** [struct decl], with the fields of each mode that the checker and
    the generator read here.  Units live in [units_array]. *)
Inductive decl : Type :=
| dm_unit (unit_num : nat)
| dm_bypass (latency : Z)
| dm_automaton
| dm_excl
| dm_presence
| dm_absence
| dm_reserv (regexp0 : regexp)
| dm_insn_reserv (default_latency : Z) (regexp0 : option regexp).

(** [units_array [unit_num]] with one field replaced. *)
Definition update_unit (units : list unit_decl) (unit_num : nat)
    (f : unit_decl -> unit_decl) : list unit_decl :=
  match nth_error units unit_num with
  | Some u => firstn unit_num units ++ f u :: skipn (S unit_num) units
  | None => units
  end.

Lemma update_unit_length units n f : length (update_unit units n f) = length units.
Proof.
  unfold update_unit. destruct (nth_error units n) eqn:E; [|reflexivity].
  assert (n < length units)%nat by (apply nth_error_Some; congruence).
  rewrite length_app, length_firstn. cbn [length]. rewrite length_skipn. lia.
Qed.

Lemma update_unit_nth_error units n f m :
  nth_error (update_unit units n f) m
  = if Nat.eqb n m then option_map f (nth_error units n) else nth_error units m.
Proof.
  unfold update_unit. destruct (nth_error units n) as [u|] eqn:E.
  - assert (n < length units)%nat as Hn by (apply nth_error_Some; congruence).
    destruct (Nat.eqb_spec n m) as [<-|Hne].
    + rewrite nth_error_app2 by (rewrite length_firstn; lia).
      rewrite length_firstn. replace (n - Nat.min n (length units))%nat with 0%nat by lia.
      reflexivity.
    + destruct (Nat.lt_ge_cases m n).
      * rewrite nth_error_app1 by (rewrite length_firstn; lia).
        rewrite nth_error_firstn.
        destruct (Nat.ltb_spec m n); [reflexivity | lia].
      * rewrite nth_error_app2 by (rewrite length_firstn; lia).
        rewrite length_firstn. replace (Nat.min n (length units)) with n by lia.
        destruct (m - n)%nat as [|k] eqn:Ek; [lia|]. cbn [nth_error].
        rewrite nth_error_skipn. f_equal. lia.
  - destruct (Nat.eqb_spec n m) as [<-|Hne]; [rewrite E|]; reflexivity.
Qed.

End IR.

(** ** The checker: presence and absence sets *)

Module PresenceAbsence.
Import IR.

(** The diagnostics of [add_presence_absence]. *)
Inductive message : Type :=
| requires_own_absence (unit : nat)
| different_automata (presence_p final_p : bool) (unit dst : nat)
| excludes_and_requires_presence (dst unit : nat)
| requires_absence_and_presence (dst unit : nat).

Inductive diagnostic : Type :=
| error (m : message)
| warning (m : message).

(** Both units name an automaton and [strcmp] tells the names apart. *)
Definition automata_differ (dst unit : unit_decl) : bool :=
  match automaton_name dst, automaton_name unit with
  | Some dst_name, Some unit_name => negb (String.eqb dst_name unit_name)
  | _, _ => false
  end.

(** The loop over [dst->unit_decl->excl_list]; the result is the
    diagnostics and [no_error_flag]. *)
Fixpoint excl_check (w_flag : bool) (dst unit units_num : nat) (excl : list nat)
    (diags : list diagnostic) (no_error_flag : bool) : list diagnostic * bool :=
  match excl with
  | [] => (diags, no_error_flag)
  | curr_excl_el :: excl' =>
    if Nat.eqb unit curr_excl_el && Nat.eqb units_num 1 then
      if negb w_flag
      then excl_check w_flag dst unit units_num excl'
             (diags ++ [error (excludes_and_requires_presence dst unit)]) false
      else excl_check w_flag dst unit units_num excl'
             (diags ++ [warning (excludes_and_requires_presence dst unit)]) no_error_flag
    else excl_check w_flag dst unit units_num excl' diags no_error_flag
  end.

(** The loop over [dst->unit_decl->presence_list]. *)
Fixpoint presence_check (w_flag : bool) (dst unit : nat) (pats : list pattern_set_el)
    (diags : list diagnostic) (no_error_flag : bool) : list diagnostic * bool :=
  match pats with
  | [] => (diags, no_error_flag)
  | curr_pat_el :: pats' =>
    if Nat.eqb (length curr_pat_el) 1 && Nat.eqb unit (nth 0 curr_pat_el 0%nat) then
      if negb w_flag
      then presence_check w_flag dst unit pats'
             (diags ++ [error (requires_absence_and_presence dst unit)]) false
      else presence_check w_flag dst unit pats'
             (diags ++ [warning (requires_absence_and_presence dst unit)]) no_error_flag
    else presence_check w_flag dst unit pats' diags no_error_flag
  end.

(** The list whose last element [prev_el] is looked for.  The source
    names [final_presence_list] on both branches of the presence case. *)
Definition searched_list (presence_p final_p : bool) (d : unit_decl)
    : list pattern_set_el :=
  if presence_p
  then (if final_p then final_presence_list d else final_presence_list d)
  else (if final_p then final_absence_list d else absence_list d).

(** The end of the body: link [copy] after [prev_el], or, when [prev_el]
    is [NULL], make it the list chosen by [presence_p] and [final_p]. *)
Definition link_copy (presence_p final_p : bool) (copy : pattern_set_el)
    (d : unit_decl) : unit_decl :=
  match searched_list presence_p final_p d with
  | [] =>
    if presence_p then
      if final_p
      then mk_unit_decl (automaton_name d) (query_p d) (automaton_decl d)
             (max_occ_cycle_num d) (min_occ_cycle_num d) (excl_list d)
             (presence_list d) [copy] (absence_list d) (final_absence_list d)
             (in_set_p d)
      else mk_unit_decl (automaton_name d) (query_p d) (automaton_decl d)
             (max_occ_cycle_num d) (min_occ_cycle_num d) (excl_list d)
             [copy] (final_presence_list d) (absence_list d) (final_absence_list d)
             (in_set_p d)
    else if final_p
      then mk_unit_decl (automaton_name d) (query_p d) (automaton_decl d)
             (max_occ_cycle_num d) (min_occ_cycle_num d) (excl_list d)
             (presence_list d) (final_presence_list d) (absence_list d) [copy]
             (in_set_p d)
      else mk_unit_decl (automaton_name d) (query_p d) (automaton_decl d)
             (max_occ_cycle_num d) (min_occ_cycle_num d) (excl_list d)
             (presence_list d) (final_presence_list d) [copy] (final_absence_list d)
             (in_set_p d)
  | searched =>
    (* [prev_el->next_pattern_set_el = copy]: the searched list grows. *)
    if presence_p
    then mk_unit_decl (automaton_name d) (query_p d) (automaton_decl d)
           (max_occ_cycle_num d) (min_occ_cycle_num d) (excl_list d)
           (presence_list d) (searched ++ [copy]) (absence_list d)
           (final_absence_list d) (in_set_p d)
    else if final_p
      then mk_unit_decl (automaton_name d) (query_p d) (automaton_decl d)
             (max_occ_cycle_num d) (min_occ_cycle_num d) (excl_list d)
             (presence_list d) (final_presence_list d) (absence_list d)
             (searched ++ [copy]) (in_set_p d)
      else mk_unit_decl (automaton_name d) (query_p d) (automaton_decl d)
             (max_occ_cycle_num d) (min_occ_cycle_num d) (excl_list d)
             (presence_list d) (final_presence_list d) (searched ++ [copy])
             (final_absence_list d) (in_set_p d)
  end.

(** The body of the loop over the units of a pattern. *)
Definition add_pattern_unit (w_flag presence_p final_p : bool) (dst : nat)
    (pat : pattern_set_el) (unit : nat)
    (st : list unit_decl * list diagnostic) : list unit_decl * list diagnostic :=
  let (units, diags) := st in
  match nth_error units dst, nth_error units unit with
  | Some dst_decl, Some unit_decl0 =>
    if Nat.eqb dst unit && Nat.eqb (length pat) 1 && negb presence_p
    then (units, diags ++ [error (requires_own_absence unit)])
    else if automata_differ dst_decl unit_decl0
    then (units, diags ++ [error (different_automata presence_p final_p unit dst)])
    else
      let (diags', no_error_flag) :=
        if presence_p
        then excl_check w_flag dst unit (length pat) (excl_list dst_decl) diags true
        else if Nat.eqb (length pat) 1
        then presence_check w_flag dst unit (presence_list dst_decl) diags true
        else (diags, true) in
      if no_error_flag
      then (update_unit units dst (link_copy presence_p final_p pat), diags')
      else (units, diags')
  | _, _ => st
  end.

(** [add_presence_absence (dest_list, pattern_list, req_pos, presence_p,
    final_p)] *)
Definition add_presence_absence (w_flag : bool) (dest_list : list nat)
    (pattern_list : list pattern_set_el) (presence_p final_p : bool)
    (st : list unit_decl * list diagnostic) : list unit_decl * list diagnostic :=
  fold_left
    (fun st dst =>
       fold_left
         (fun st pat =>
            fold_left (fun st unit => add_pattern_unit w_flag presence_p final_p dst pat unit st)
                      pat st)
         pattern_list st)
    dest_list st.

(** *** Units [a] (0), [b] (1) and [c] (2) of one anonymous automaton *)

Definition abc : list unit_decl :=
  [gen_cpu_unit None; gen_cpu_unit None; gen_cpu_unit None].

(** [presence_set "a" "b"] followed by [presence_set "a" "c"]. *)
Definition two_presence_sets : list unit_decl * list diagnostic :=
  add_presence_absence false [0%nat] [[2%nat]] true false
    (add_presence_absence false [0%nat] [[1%nat]] true false (abc, [])).

(** [final_presence_set "a" "b"] followed by [presence_set "a" "c"]. *)
Definition final_then_presence : list unit_decl * list diagnostic :=
  add_presence_absence false [0%nat] [[2%nat]] true false
    (add_presence_absence false [0%nat] [[1%nat]] true true (abc, [])).

(** C7 does not hold of the code: a pattern of a presence declaration
    without the final flag is not appended to [presence_list].  While
    [final_presence_list] is empty it replaces [presence_list]; once
    [final_presence_list] is not empty it is appended to that list. *)
Lemma add_presence_absence_misplaces_presence :
  (map presence_list (fst two_presence_sets) = [[[2%nat]]; []; []]
   /\ snd two_presence_sets = [])
  /\ (map presence_list (fst final_then_presence) = [[]; []; []]
      /\ map final_presence_list (fst final_then_presence)
         = [[[1%nat]; [2%nat]]; []; []]
      /\ snd final_then_presence = []).
Proof. repeat split; reflexivity. Qed.

(** The absence case names a different list on each branch: there a
    pattern is appended to the list its declaration names, and the
    other three lists keep their value. *)
Lemma link_copy_absence (final_p : bool) (copy : pattern_set_el) (d : unit_decl) :
  let d' := link_copy false final_p copy d in
  presence_list d' = presence_list d
  /\ final_presence_list d' = final_presence_list d
  /\ absence_list d' = (if final_p then absence_list d else absence_list d ++ [copy])
  /\ final_absence_list d'
     = (if final_p then final_absence_list d ++ [copy] else final_absence_list d).
Proof.
  unfold link_copy, searched_list.
  destruct final_p; simpl.
  - destruct (final_absence_list d); simpl; auto.
  - destruct (absence_list d); simpl; auto.
Qed.

End PresenceAbsence.

(** ** The checker: cycles in reservation definitions *)

Module Loops.
Import IR.

(** The [loop_pass_num] fields of the reservation declarations, by the
    position of the declaration in [description->decls]. *)
Definition pass_nums := list Z.

Definition set_pass_num (pass_num : pass_nums) (reserv_decl : nat) (v : Z) : pass_nums :=
  if (reserv_decl <? length pass_num)%nat
  then firstn reserv_decl pass_num ++ v :: skipn (S reserv_decl) pass_num
  else pass_num.

Section LoopInRegexp.

(** [description->decls] *)
Variable decls : list decl.
(** [curr_loop_pass_num] *)
Variable curr_loop_pass_num : Z.
(** [start_decl] *)
Variable start_decl : nat.

(** [reserv_decl->regexp] of the declaration at a position. *)
Definition reserv_regexp (reserv_decl : nat) : option regexp :=
  match nth_error decls reserv_decl with
  | Some (dm_reserv r) => Some r
  | _ => None
  end.

Section Operands.
Variable in_regexp : regexp -> pass_nums -> option (bool * pass_nums).

(** [for (i = 0; i < regexps_num; i++) if (loop_in_regexp (regexps [i],
    start_decl)) return 1; return 0;] *)
Fixpoint in_operands (regexps : list regexp) (pass_num : pass_nums)
    : option (bool * pass_nums) :=
  match regexps with
  | [] => Some (false, pass_num)
  | r :: regexps' =>
    match in_regexp r pass_num with
    | Some (true, pass_num') => Some (true, pass_num')
    | Some (false, pass_num') => in_operands regexps' pass_num'
    | None => None
    end
  end.
End Operands.

Section Deref.
(** The call on the regexp of a reservation not yet processed. *)
Variable deref : nat -> pass_nums -> option (bool * pass_nums).

Fixpoint in_regexp (r : regexp) (pass_num : pass_nums) {struct r}
    : option (bool * pass_nums) :=
  match r with
  | rm_unit _ => Some (false, pass_num)
  | rm_reserv reserv_decl =>
    if (match nth_error decls start_decl with
        | Some (dm_reserv _) => true
        | _ => false
        end) && Nat.eqb reserv_decl start_decl
    then Some (true, pass_num)
    else if nth reserv_decl pass_num 0 =? curr_loop_pass_num
    then (* declaration has been processed *) Some (false, pass_num)
    else deref reserv_decl (set_pass_num pass_num reserv_decl curr_loop_pass_num)
  | rm_sequence regexps => in_operands in_regexp regexps pass_num
  | rm_allof regexps => in_operands in_regexp regexps pass_num
  | rm_oneof regexps => in_operands in_regexp regexps pass_num
  | rm_repeat operand _ => in_regexp operand pass_num
  | rm_nothing => Some (false, pass_num)
  end.
End Deref.

(** [loop_in_regexp (regexp, start_decl)]; the result is the returned
    flag and the [loop_pass_num] fields it leaves.  [None]: the fuel is
    used up, or a [reserv_decl] points to no reservation. *)
Fixpoint loop_in_regexp (fuel : nat) (r : regexp) (pass_num : pass_nums)
    : option (bool * pass_nums) :=
  match fuel with
  | O => None
  | S fuel' =>
    in_regexp
      (fun reserv_decl pass_num' =>
         match reserv_regexp reserv_decl with
         | Some r' => loop_in_regexp fuel' r' pass_num'
         | None => None
         end)
      r pass_num
  end.

End LoopInRegexp.

(** [check_loops_in_regexps]: the second loop, from declaration [i] on;
    the result lists the declarations reported with "cycle in definition
    of reservation". *)
Fixpoint check_loops_from (fuel : nat) (decls : list decl) (positions : list nat)
    (pass_num : pass_nums) (errors : list nat) : option (list nat) :=
  match positions with
  | [] => Some errors
  | i :: positions' =>
    match nth_error decls i with
    | Some (dm_reserv r) =>
      let curr_loop_pass_num := Z.of_nat i in
      match loop_in_regexp decls curr_loop_pass_num i fuel r
              (set_pass_num pass_num i curr_loop_pass_num) with
      | Some (true, pass_num') =>
        check_loops_from fuel decls positions' pass_num' (errors ++ [i])
      | Some (false, pass_num') =>
        check_loops_from fuel decls positions' pass_num' errors
      | None => None
      end
    | _ => check_loops_from fuel decls positions' pass_num errors
    end
  end.

(** [check_loops_in_regexps] *)
Definition check_loops_in_regexps (fuel : nat) (decls : list decl) : option (list nat) :=
  check_loops_from fuel decls (seq 0 (length decls))
    (repeat 0 (length decls)) [].

(** *** References between reservations *)

(** The reservations a regexp names, in the order of its [rm_reserv]
    nodes. *)
Fixpoint reservs_of (r : regexp) : list nat :=
  match r with
  | rm_reserv d => [d]
  | rm_sequence rs => flat_map reservs_of rs
  | rm_allof rs => flat_map reservs_of rs
  | rm_oneof rs => flat_map reservs_of rs
  | rm_repeat r' _ => reservs_of r'
  | rm_unit _ => []
  | rm_nothing => []
  end.

(** The definition of reservation [d] names reservation [d']. *)
Definition refers (decls : list decl) (d d' : nat) : Prop :=
  exists r, reserv_regexp decls d = Some r /\ In d' (reservs_of r).

(** Reservation [d] refers to [d'], directly or through others. *)
Definition reaches (decls : list decl) : nat -> nat -> Prop :=
  Relation_Operators.clos_trans nat (refers decls).

(** Reservation [d] refers to itself, directly or through others. *)
Definition cyclic (decls : list decl) (d : nat) : Prop := reaches decls d d.

(** Every [reserv_decl] of a regexp points to a reservation, as
    [process_regexp] leaves it. *)
Definition linked (decls : list decl) (r : regexp) : Prop :=
  forall d, In d (reservs_of r) -> exists r', reserv_regexp decls d = Some r'.

Definition linked_decls (decls : list decl) : Prop :=
  forall d r, reserv_regexp decls d = Some r -> linked decls r.


(** *** The marks left by a pass *)

Lemma set_pass_num_length (p : pass_nums) (d : nat) (v : Z) :
  length (set_pass_num p d v) = length p.
Proof.
  unfold set_pass_num. destruct (Nat.ltb_spec d (length p)); [|reflexivity].
  rewrite length_app, length_firstn. cbn [length]. rewrite length_skipn. lia.
Qed.

Lemma set_pass_num_nth (p : pass_nums) (d d' : nat) (v : Z) :
  (d < length p)%nat ->
  nth d' (set_pass_num p d v) 0 = if Nat.eqb d d' then v else nth d' p 0.
Proof.
  intros Hd. unfold set_pass_num.
  destruct (Nat.ltb_spec d (length p)); [|lia].
  destruct (Nat.eqb_spec d d') as [<-|Hne].
  - rewrite app_nth2 by (rewrite length_firstn; lia).
    rewrite length_firstn. replace (d - Nat.min d (length p))%nat with 0%nat by lia.
    reflexivity.
  - destruct (Nat.lt_ge_cases d' d).
    + rewrite app_nth1 by (rewrite length_firstn; lia).
      rewrite <- (firstn_skipn d p) at 2.
      rewrite app_nth1 by (rewrite length_firstn; lia). reflexivity.
    + rewrite app_nth2 by (rewrite length_firstn; lia).
      rewrite length_firstn. replace (Nat.min d (length p)) with d by lia.
      destruct (d' - d)%nat as [|k] eqn:Ek; [lia|]. cbn [nth].
      rewrite nth_skipn. f_equal. lia.
Qed.

Section Marks.

Variable curr : Z.

Definition marked (p : pass_nums) (d : nat) : Prop := nth d p 0 = curr.

(** The positions not yet marked in the current pass. *)
Definition unmarked (p : pass_nums) : nat :=
  length (filter (fun v => negb (v =? curr)) p).

Lemma unmarked_set (p : pass_nums) (d : nat) :
  (d < length p)%nat -> ~ marked p d ->
  S (unmarked (set_pass_num p d curr)) = unmarked p.
Proof.
  intros Hd Hnm. unfold unmarked, set_pass_num, marked in *.
  destruct (Nat.ltb_spec d (length p)); [|lia].
  rewrite <- (firstn_skipn d p) at 3.
  rewrite !filter_app, !length_app.
  assert (skipn d p = nth d p 0 :: skipn (S d) p) as ->.
  { clear Hnm. revert d Hd H. induction p as [|x p IH]; intros [|d] Hd H; simpl in *;
      try lia; [reflexivity|]. apply IH; lia. }
  cbn [filter]. rewrite Z.eqb_refl. cbn [negb].
  destruct (Z.eqb_spec (nth d p 0) curr); [contradiction|]. cbn [negb length]. lia.
Qed.

End Marks.

Section Passes.

Variable decls : list decl.
Variable curr : Z.
Variable start : nat.

Hypothesis start_is_reserv : exists r, reserv_regexp decls start = Some r.
Hypothesis all_linked : linked_decls decls.

(** What a call on a regexp naming the reservations [ms] leaves. *)
Definition good (ms : list nat) (p : pass_nums) (res : option (bool * pass_nums)) : Prop :=
  exists b p', res = Some (b, p')
    /\ length p' = length p
    /\ (forall d, nth d p' 0 = nth d p 0 \/ nth d p' 0 = curr)
    /\ (unmarked curr p' <= unmarked curr p)%nat
    /\ (b = true -> exists d, In d ms /\ (d = start \/ reaches decls d start))
    /\ (b = false ->
        (forall d, In d ms -> marked curr p' d /\ d <> start)
        /\ (forall n, marked curr p' n -> ~ marked curr p n ->
              forall d, refers decls n d -> marked curr p' d /\ d <> start)).

Lemma good_nil (p : pass_nums) : good [] p (Some (false, p)).
Proof.
  exists false, p. repeat split; auto; try discriminate; try contradiction.
Qed.

Lemma good_true_app (ms1 ms2 : list nat) (p p1 : pass_nums) :
  good ms1 p (Some (true, p1)) -> good (ms1 ++ ms2) p (Some (true, p1)).
Proof.
  intros (b & p' & E & Hl & Hv & Hu & Ht & Hf). injection E as <- <-.
  exists true, p1. repeat split; auto; try discriminate.
  destruct (Ht eq_refl) as (d & Hd & Hr). exists d. split; [apply in_or_app; left|]; assumption.
Qed.

Lemma good_seq (ms1 ms2 : list nat) (p p1 : pass_nums) (res : option (bool * pass_nums)) :
  good ms1 p (Some (false, p1)) -> good ms2 p1 res -> good (ms1 ++ ms2) p res.
Proof.
  intros (b1 & q1 & E1 & Hl1 & Hv1 & Hu1 & _ & Hf1) (b & p2 & E & Hl & Hv & Hu & Ht & Hf).
  injection E1 as <- <-. destruct (Hf1 eq_refl) as [Hm1 Hc1]. clear Hf1.
  assert (forall d, marked curr p1 d -> marked curr p2 d) as Hmono.
  { intros d Hd. unfold marked in *. destruct (Hv d); congruence. }
  exists b, p2. split; [assumption|]. split; [congruence|]. split.
  { intros d. destruct (Hv d) as [H2|H2]; [|right; assumption].
    destruct (Hv1 d) as [H1|H1]; [left | right]; congruence. }
  split; [lia|]. split.
  { intros Hb. destruct (Ht Hb) as (d & Hd & Hr). exists d.
    split; [apply in_or_app; right|]; assumption. }
  intros Hb. destruct (Hf Hb) as [Hm2 Hc2]. split.
  - intros d Hd. apply in_app_or in Hd. destruct Hd as [Hd|Hd].
    + destruct (Hm1 d Hd). split; auto.
    + apply Hm2. assumption.
  - intros n Hn2 Hn d Hd.
    destruct (Z.eq_dec (nth n p1 0) curr) as [Hn1|Hn1].
    + destruct (Hc1 n Hn1 Hn d Hd). split; auto.
    + apply (Hc2 n Hn2 Hn1 d Hd).
Qed.

Section Step.

Variable fuel : nat.
Variable deref : nat -> pass_nums -> option (bool * pass_nums).

Hypothesis deref_good : forall d r p,
  reserv_regexp decls d = Some r -> length p = length decls ->
  (unmarked curr p < fuel)%nat -> good (reservs_of r) p (deref d p).

Lemma in_operands_good (f : regexp -> pass_nums -> option (bool * pass_nums))
    (rs : list regexp) :
  Forall (fun r => linked decls r -> forall p, length p = length decls ->
            (unmarked curr p < S fuel)%nat -> good (reservs_of r) p (f r p)) rs ->
  (forall d, In d (flat_map reservs_of rs) -> exists r', reserv_regexp decls d = Some r') ->
  forall p, length p = length decls -> (unmarked curr p < S fuel)%nat ->
  good (flat_map reservs_of rs) p (in_operands f rs p).
Proof.
  induction 1 as [|r rs Hr _ IH]; intros Hlink p Hlen Hfuel.
  - apply good_nil.
  - cbn [flat_map in_operands].
    assert (linked decls r) as Hlr
      by (intros d Hd; apply Hlink; cbn [flat_map]; apply in_or_app; left; assumption).
    specialize (Hr Hlr p Hlen Hfuel).
    pose proof Hr as (b & p1 & E & Hl1 & _ & Hu1 & _). rewrite E in *.
    destruct b.
    + apply good_true_app. assumption.
    + eapply good_seq; [exact Hr|]. apply IH; try lia.
      intros d Hd. apply Hlink. cbn [flat_map]. apply in_or_app. right. assumption.
Qed.

Lemma in_regexp_good (r : regexp) :
  linked decls r -> forall p, length p = length decls ->
  (unmarked curr p < S fuel)%nat ->
  good (reservs_of r) p (in_regexp decls curr start deref r p).
Proof.
  induction r as [u | d | | rs IH | r n IH | rs IH | rs IH] using regexp_rect';
    intros Hlink p Hlen Hfuel; cbn [in_regexp reservs_of].
  - apply good_nil.
  - destruct start_is_reserv as (rs & Hrs). unfold reserv_regexp in Hrs.
    destruct (nth_error decls start) as [[]|] eqn:Es; try discriminate.
    cbn [andb].
    destruct (Nat.eqb_spec d start) as [->|Hne].
    + exists true, p. repeat split; auto; try discriminate.
      exists start. split; [left; reflexivity | left; reflexivity].
    + destruct (Z.eqb_spec (nth d p 0) curr) as [Hm|Hm].
      * exists false, p. split; [reflexivity|]. split; [reflexivity|].
        split; [intros; left; reflexivity|]. split; [lia|].
        split; [discriminate|]. intros _. split.
        -- intros x [<-|[]]. split; assumption.
        -- intros n0 Hn' Hn. contradiction.
      * destruct (Hlink d (or_introl eq_refl)) as (rd & Hrd).
        assert (d < length p)%nat as Hd.
        { rewrite Hlen. apply nth_error_Some. unfold reserv_regexp in Hrd.
          destruct (nth_error decls d); discriminate || congruence. }
        pose proof (unmarked_set curr p d Hd Hm) as Hus.
        assert (good (reservs_of rd) (set_pass_num p d curr)
                  (deref d (set_pass_num p d curr))) as Hg.
        { apply deref_good; [assumption | rewrite set_pass_num_length; assumption | lia]. }
        destruct Hg as (b & p' & E & Hl & Hv & Hu & Ht & Hf).
        assert (marked curr p' d) as Hdm.
        { unfold marked. destruct (Hv d) as [H|H]; [|assumption].
          rewrite H, set_pass_num_nth, Nat.eqb_refl by assumption. reflexivity. }
        exists b, p'. split; [assumption|].
        split; [rewrite Hl; apply set_pass_num_length|]. split.
        { intros x. destruct (Hv x) as [H|H]; [|right; assumption].
          rewrite set_pass_num_nth in H by assumption.
          destruct (Nat.eqb d x); [right | left]; assumption. }
        split; [lia|]. split.
        { intros Hb. destruct (Ht Hb) as (x & Hx & Hr). exists d.
          split; [left; reflexivity|]. right.
          assert (refers decls d x) as Hdx by (exists rd; split; assumption).
          destruct Hr as [->|Hr].
          - apply Relation_Operators.t_step. assumption.
          - eapply Relation_Operators.t_trans;
              [apply Relation_Operators.t_step; eassumption | assumption]. }
        intros Hb. destruct (Hf Hb) as [Hms Hc]. split.
        -- intros x [<-|[]]. split; assumption.
        -- intros n0 Hn' Hn x (rn & Hrn & Hx).
           destruct (Nat.eq_dec n0 d) as [->|Hnd].
           ++ rewrite Hrn in Hrd. injection Hrd as <-. apply Hms. assumption.
           ++ apply (Hc n0 Hn'); [|exists rn; split; assumption].
              unfold marked in *. rewrite set_pass_num_nth by assumption.
              destruct (Nat.eqb_spec d n0); [congruence | assumption].
  - apply good_nil.
  - apply in_operands_good; assumption.
  - apply IH; assumption.
  - apply in_operands_good; assumption.
  - apply in_operands_good; assumption.
Qed.

End Step.

Lemma loop_in_regexp_good (fuel : nat) :
  forall r p, linked decls r -> length p = length decls ->
  (unmarked curr p < fuel)%nat ->
  good (reservs_of r) p (loop_in_regexp decls curr start fuel r p).
Proof.
  induction fuel as [|fuel IH]; intros r p Hlink Hlen Hfuel; [lia|].
  cbn [loop_in_regexp]. apply in_regexp_good with (fuel := fuel); try assumption.
  intros d rd q Hrd Hq Hu. rewrite Hrd. apply IH; try assumption.
  apply (all_linked d). assumption.
Qed.

End Passes.


(** *** The passes of [check_loops_in_regexps] *)

Lemma unmarked_lt (curr : Z) (p : pass_nums) (d : nat) :
  (d < length p)%nat -> marked curr p d -> (unmarked curr p < length p)%nat.
Proof.
  unfold unmarked, marked. revert d.
  induction p as [|x p IH]; intros [|d] Hd Hm; cbn [length nth filter] in *; try lia.
  - rewrite Hm, Z.eqb_refl. cbn [negb].
    pose proof (filter_length_le (fun v => negb (v =? curr)) p). lia.
  - specialize (IH d ltac:(lia) Hm).
    destruct (negb (x =? curr)); cbn [length]; lia.
Qed.

Lemma reaches_from_reserv (decls : list decl) (d d' : nat) :
  reaches decls d d' -> exists r, reserv_regexp decls d = Some r.
Proof.
  induction 1 as [d d' (r & Hr & _) | d x d' _ IH _ _]; [exists r|]; assumption.
Qed.

Section Check.

Variable decls : list decl.
Variable fuel : nat.
Hypothesis all_linked : linked_decls decls.
Hypothesis enough_fuel : (length decls <= fuel)%nat.

(** Before the pass of declaration [k] every [loop_pass_num] is [0] or
    the number of an earlier pass. *)
Definition earlier_marks (k : nat) (p : pass_nums) : Prop :=
  length p = length decls
  /\ forall d, nth d p 0 = 0 \/ nth d p 0 < Z.of_nat k.

Lemma pass_spec (i : nat) (r : regexp) (p : pass_nums) :
  nth_error decls i = Some (dm_reserv r) -> earlier_marks i p ->
  exists b p',
    loop_in_regexp decls (Z.of_nat i) i fuel r (set_pass_num p i (Z.of_nat i))
    = Some (b, p')
    /\ earlier_marks (S i) p'
    /\ (b = true -> cyclic decls i)
    /\ (b = false -> ~ refers decls i i)
    /\ (b = false -> i <> 0%nat -> ~ cyclic decls i).
Proof.
  intros Hi [Hlen Hinv].
  assert (reserv_regexp decls i = Some r) as Hr by (unfold reserv_regexp; rewrite Hi; reflexivity).
  assert (i < length p)%nat as Hip
    by (rewrite Hlen; apply nth_error_Some; congruence).
  set (curr := Z.of_nat i). set (p0 := set_pass_num p i curr).
  assert (marked curr p0 i) as Hmi.
  { unfold marked, p0. rewrite set_pass_num_nth, Nat.eqb_refl by assumption. reflexivity. }
  assert (length p0 = length decls) as Hlen0
    by (unfold p0; rewrite set_pass_num_length; assumption).
  assert (unmarked curr p0 < fuel)%nat as Hfuel.
  { pose proof (unmarked_lt curr p0 i ltac:(lia) Hmi). lia. }
  destruct (loop_in_regexp_good decls curr i (ex_intro _ r Hr) all_linked fuel r p0
              (all_linked i r Hr) Hlen0 Hfuel)
    as (b & p' & E & Hl & Hv & _ & Ht & Hf).
  exists b, p'. split; [exact E|]. split.
  { split; [congruence|]. intros d. destruct (Hv d) as [H|H].
    - unfold p0 in H. rewrite set_pass_num_nth in H by assumption.
      destruct (Nat.eqb i d).
      + right. rewrite H. unfold curr. lia.
      + rewrite H. destruct (Hinv d); [left; assumption | right; lia].
    - right. rewrite H. unfold curr. lia. }
  split.
  { intros Hb. destruct (Ht Hb) as (d & Hd & Hreach).
    assert (refers decls i d) as Hid by (exists r; split; assumption).
    unfold cyclic, reaches. destruct Hreach as [->|Hreach].
    - apply Relation_Operators.t_step. assumption.
    - eapply Relation_Operators.t_trans;
        [apply Relation_Operators.t_step; eassumption | assumption]. }
  split.
  { intros Hb (r' & Hr' & Hin). destruct (Hf Hb) as [Hms _].
    rewrite Hr in Hr'. injection Hr' as <-. destruct (Hms i Hin). congruence. }
  intros Hb Hi0 Hcyc. destruct (Hf Hb) as [Hms Hc].
  assert (forall x, marked curr p0 x -> x = i) as Honly.
  { intros x Hx. unfold marked, p0 in Hx.
    rewrite set_pass_num_nth in Hx by assumption.
    destruct (Nat.eqb_spec i x); [congruence|].
    unfold curr in Hx. destruct (Hinv x); lia. }
  assert (forall x, reaches decls i x -> marked curr p' x /\ x <> i) as Hall.
  { intros x Hx. apply Operators_Properties.clos_trans_tn1 in Hx.
    induction Hx as [x (r' & Hr' & Hin) | x y Hxy _ IH].
    - rewrite Hr in Hr'. injection Hr' as <-. apply Hms. assumption.
    - destruct IH as [Hm Hne]. apply (Hc x Hm); [|assumption].
      intros Hx0. apply Hne. apply Honly. assumption. }
  destruct (Hall i Hcyc). congruence.
Qed.

Lemma check_loops_from_spec (m : nat) :
  forall k p errors, (k + m = length decls)%nat -> earlier_marks k p ->
  exists new,
    check_loops_from fuel decls (seq k m) p errors = Some (errors ++ new)
    /\ (forall i, In i new -> cyclic decls i)
    /\ (forall i, (k <= i < k + m)%nat -> i <> 0%nat -> cyclic decls i -> In i new)
    /\ (k = 0%nat -> m <> 0%nat -> refers decls 0%nat 0%nat -> In 0%nat new).
Proof.
  induction m as [|m IH]; intros k p errors Hk Hinv.
  - exists []. cbn [seq check_loops_from]. rewrite app_nil_r.
    split; [reflexivity|]. split; [intros i []|]. split; intros; lia.
  - cbn [seq check_loops_from].
    destruct (reserv_regexp decls k) as [r|] eqn:Hr.
    + assert (nth_error decls k = Some (dm_reserv r)) as Hn.
      { unfold reserv_regexp in Hr. destruct (nth_error decls k) as [[]|]; congruence. }
      rewrite Hn.
      destruct (pass_spec k r p Hn Hinv) as (b & p' & E & Hinv' & Ht & Hself & Hf).
      rewrite E.
      destruct b.
      * destruct (IH (S k) p' (errors ++ [k]) ltac:(lia) Hinv')
          as (new & Enew & Hsound & Hcomplete & _).
        exists (k :: new). rewrite Enew, <- app_assoc. split; [reflexivity|].
        split; [|split].
        -- intros i [<-|Hi]; [apply Ht; reflexivity | apply Hsound; assumption].
        -- intros i Hi Hi0 Hc. destruct (Nat.eq_dec i k) as [->|Hne]; [left; reflexivity|].
           right. apply Hcomplete; [lia | assumption | assumption].
        -- intros -> _ _. left. reflexivity.
      * destruct (IH (S k) p' errors ltac:(lia) Hinv')
          as (new & Enew & Hsound & Hcomplete & _).
        exists new. split; [assumption|]. split; [assumption|]. split.
        -- intros i Hi Hi0 Hc. destruct (Nat.eq_dec i k) as [->|Hne].
           ++ exfalso. apply (Hf eq_refl Hi0 Hc).
           ++ apply Hcomplete; [lia | assumption | assumption].
        -- intros -> _ Hrefl. exfalso. apply (Hself eq_refl Hrefl).
    + assert (earlier_marks (S k) p) as Hinv'.
      { destruct Hinv as [Hlen Hv]. split; [assumption|].
        intros d. destruct (Hv d); [left; assumption | right; lia]. }
      destruct (IH (S k) p errors ltac:(lia) Hinv')
        as (new & Enew & Hsound & Hcomplete & _).
      exists new.
      assert (check_loops_from fuel decls (seq (S k) m) p errors
              = match nth_error decls k with
                | Some (dm_reserv r) =>
                  match loop_in_regexp decls (Z.of_nat k) k fuel r
                          (set_pass_num p k (Z.of_nat k)) with
                  | Some (true, pass_num') =>
                    check_loops_from fuel decls (seq (S k) m) pass_num' (errors ++ [k])
                  | Some (false, pass_num') =>
                    check_loops_from fuel decls (seq (S k) m) pass_num' errors
                  | None => None
                  end
                | _ => check_loops_from fuel decls (seq (S k) m) p errors
                end) as <-.
      { unfold reserv_regexp in Hr.
        destruct (nth_error decls k) as [[]|]; congruence || reflexivity. }
      split; [assumption|]. split; [assumption|]. split.
      * intros i Hi Hi0 Hc. destruct (Nat.eq_dec i k) as [->|Hne].
        -- destruct (reaches_from_reserv decls k k Hc). congruence.
        -- apply Hcomplete; [lia | assumption | assumption].
      * intros -> _ (r & Hr0 & _). congruence.
Qed.

End Check.

(** C8: on linked declarations [check_loops_in_regexps] ends and
    reports a cycle exactly when some reservation refers to itself,
    directly or through other reservations.  Every reservation it names
    is on a cycle, and it names every reservation on a cycle apart,
    possibly, from the one declared at position 0 of the description
    (named only when its own definition names it). *)
Theorem check_loops_in_regexps_rejects_cycles
    (decls : list decl) (fuel : nat) :
  linked_decls decls -> (length decls <= fuel)%nat ->
  exists errors,
    check_loops_in_regexps fuel decls = Some errors
    /\ ((exists d, cyclic decls d) <-> errors <> [])
    /\ (forall d, In d errors -> cyclic decls d)
    /\ (forall d, d <> 0%nat -> cyclic decls d -> In d errors).
Proof.
  intros Hlinked Hfuel. unfold check_loops_in_regexps.
  assert (earlier_marks decls 0 (repeat 0 (length decls))) as Hinv.
  { split; [apply repeat_length|]. intros d. left.
    destruct (Nat.lt_ge_cases d (length decls)).
    - apply nth_repeat_lt. assumption.
    - apply nth_overflow. rewrite repeat_length. assumption. }
  destruct (check_loops_from_spec decls fuel Hlinked Hfuel (length decls) 0
              (repeat 0 (length decls)) [] eq_refl Hinv)
    as (errors & E & Hsound & Hcomplete & Hzero).
  exists errors. split; [exact E|].
  assert (forall d, cyclic decls d -> (d < length decls)%nat) as Hrange.
  { intros d Hc. destruct (reaches_from_reserv decls d d Hc) as (r & Hr).
    apply nth_error_Some. unfold reserv_regexp in Hr.
    destruct (nth_error decls d); congruence. }
  assert (forall d, d <> 0%nat -> cyclic decls d -> In d errors) as Hnamed.
  { intros d Hd Hc. apply Hcomplete; [|assumption|assumption].
    pose proof (Hrange d Hc). lia. }
  split; [|split; assumption].
  split.
  - intros (d & Hc) Hnil.
    assert (exists e, In e errors) as (e & He); [|rewrite Hnil in He; contradiction].
    destruct (Nat.eq_dec d 0) as [->|Hd]; [|exists d; apply Hnamed; assumption].
    pose proof (Hrange _ Hc) as Hlen.
    apply Operators_Properties.clos_trans_t1n in Hc.
    inversion Hc as [y Hstep | y z Hstep Hrest]; subst.
    + exists 0%nat. apply Hzero; [reflexivity | lia | assumption].
    + destruct (Nat.eq_dec y 0) as [->|Hy].
      * exists 0%nat. apply Hzero; [reflexivity | lia | assumption].
      * exists y. apply Hnamed; [assumption|]. unfold cyclic, reaches.
        eapply Relation_Operators.t_trans.
        -- apply Operators_Properties.clos_t1n_trans. eassumption.
        -- apply Relation_Operators.t_step. assumption.
  - intros Hne. destruct errors as [|e errors]; [congruence|].
    exists e. apply Hsound. left. reflexivity.
Qed.

(** Reservations [R := S] and [S := R], declared in this order. *)
Definition R_S : list decl := [dm_reserv (rm_reserv 1); dm_reserv (rm_reserv 0)].

Lemma check_loops_in_regexps_rejects_cycles_witness :
  exists errors,
    check_loops_in_regexps 2 R_S = Some errors
    /\ ((exists d, cyclic R_S d) <-> errors <> [])
    /\ (forall d, In d errors -> cyclic R_S d)
    /\ (forall d, d <> 0%nat -> cyclic R_S d -> In d errors).
Proof.
  apply (check_loops_in_regexps_rejects_cycles R_S 2).
  - intros d r Hr d' Hd'. unfold reserv_regexp in *.
    destruct d as [|[|d]]; simpl in Hr; try (destruct d; discriminate).
    + injection Hr as <-. destruct Hd' as [<-|[]]. simpl. eauto.
    + injection Hr as <-. destruct Hd' as [<-|[]]. simpl. eauto.
  - simpl. lia.
Defined.

(** The pass of the first declaration finds every other reservation
    marked already: [R] is on a cycle and is not named. *)
Lemma check_loops_in_regexps_first_decl :
  check_loops_in_regexps 2 R_S = Some [1%nat] /\ cyclic R_S 0.
Proof.
  split; [reflexivity|].
  apply Relation_Operators.t_trans with 1%nat; apply Relation_Operators.t_step.
  - exists (rm_reserv 1). split; [reflexivity | left; reflexivity].
  - exists (rm_reserv 0). split; [reflexivity | left; reflexivity].
Qed.

End Loops.

(** ** The checker: reservation lengths and [max_insn_queue_index] *)

Module Cycles.
Import IR.

(** A regexp as [gen_regexp] builds it: a sequence, an allof and a oneof
    have at least two operands, a repetition is by at least two. *)
Fixpoint parsed (r : regexp) : Prop :=
  match r with
  | rm_unit _ => True
  | rm_reserv _ => True
  | rm_nothing => True
  | rm_sequence rs =>
    (2 <= length rs)%nat /\ (fix all rs := match rs with
                                          | [] => True
                                          | r' :: rs' => parsed r' /\ all rs'
                                          end) rs
  | rm_repeat r' n => 2 <= n /\ parsed r'
  | rm_allof rs =>
    (2 <= length rs)%nat /\ (fix all rs := match rs with
                                          | [] => True
                                          | r' :: rs' => parsed r' /\ all rs'
                                          end) rs
  | rm_oneof rs =>
    (2 <= length rs)%nat /\ (fix all rs := match rs with
                                          | [] => True
                                          | r' :: rs' => parsed r' /\ all rs'
                                          end) rs
  end.

(** The cells [*max_finish_cycle] and [*min_finish_cycle] with
    [units_array]. *)
Record cycles_state : Type := mk_cycles_state {
  max_finish_cycle : Z;
  min_finish_cycle : Z;
  units : list unit_decl
}.

(** The [rm_unit] case: the occurrence cycles of the unit. *)
Definition note_unit (max_start_cycle min_start_cycle : Z) (u : unit_decl) : unit_decl :=
  let max_occ := if max_occ_cycle_num u <? max_start_cycle
                 then max_start_cycle else max_occ_cycle_num u in
  let min_occ := if (min_occ_cycle_num u >? min_start_cycle)
                    || (min_occ_cycle_num u =? -1)
                 then min_start_cycle else min_occ_cycle_num u in
  mk_unit_decl (automaton_name u) (query_p u) (automaton_decl u) max_occ min_occ
    (excl_list u) (presence_list u) (final_presence_list u) (absence_list u)
    (final_absence_list u) (in_set_p u).

Section Process.

(** [description->decls] *)
Variable decls : list decl.

Section Operands.
Variable process : regexp -> Z -> Z -> cycles_state -> option cycles_state.

(** The loop of the [rm_sequence] case. *)
Fixpoint process_sequence (regexps : list regexp) (max_start_cycle min_start_cycle : Z)
    (st : cycles_state) : option cycles_state :=
  match regexps with
  | [] => Some st
  | r :: regexps' =>
    match process r max_start_cycle min_start_cycle st with
    | Some st' =>
      process_sequence regexps' (max_finish_cycle st' + 1) (min_finish_cycle st' + 1) st'
    | None => None
    end
  end.

(** The loop of the [rm_repeat] case, [repeat_num - i] times. *)
Fixpoint process_repeat (r : regexp) (times : nat) (max_start_cycle min_start_cycle : Z)
    (st : cycles_state) : option cycles_state :=
  match times with
  | O => Some st
  | S times' =>
    match process r max_start_cycle min_start_cycle st with
    | Some st' =>
      process_repeat r times' (max_finish_cycle st' + 1) (min_finish_cycle st' + 1) st'
    | None => None
    end
  end.

(** The loop of the [rm_allof] and [rm_oneof] cases; [first] is
    [i == 0]; the result carries [max_cycle] and [min_cycle]. *)
Fixpoint process_all (regexps : list regexp) (first : bool)
    (max_start_cycle min_start_cycle max_cycle min_cycle : Z)
    (st : cycles_state) : option (Z * Z * cycles_state) :=
  match regexps with
  | [] => Some (max_cycle, min_cycle, st)
  | r :: regexps' =>
    match process r max_start_cycle min_start_cycle st with
    | Some st' =>
      let max_cycle' := if max_cycle <? max_finish_cycle st'
                        then max_finish_cycle st' else max_cycle in
      let min_cycle' := if first || (min_cycle >? min_finish_cycle st')
                        then min_finish_cycle st' else min_cycle in
      process_all regexps' false max_start_cycle min_start_cycle max_cycle' min_cycle' st'
    | None => None
    end
  end.
End Operands.

Section Deref.
(** The call on [reserv_decl->regexp]. *)
Variable deref : nat -> Z -> Z -> cycles_state -> option cycles_state.

Fixpoint process_regexp (r : regexp) (max_start_cycle min_start_cycle : Z)
    (st : cycles_state) {struct r} : option cycles_state :=
  match r with
  | rm_unit unit_decl0 =>
    Some (mk_cycles_state max_start_cycle min_start_cycle
            (update_unit (units st) unit_decl0
               (note_unit max_start_cycle min_start_cycle)))
  | rm_reserv reserv_decl => deref reserv_decl max_start_cycle min_start_cycle st
  | rm_repeat operand repeat_num =>
    process_repeat process_regexp operand (Z.to_nat repeat_num)
      max_start_cycle min_start_cycle st
  | rm_sequence regexps =>
    process_sequence process_regexp regexps max_start_cycle min_start_cycle st
  | rm_allof regexps =>
    match process_all process_regexp regexps true max_start_cycle min_start_cycle 0 0 st with
    | Some (max_cycle, min_cycle, st') => Some (mk_cycles_state max_cycle min_cycle (units st'))
    | None => None
    end
  | rm_oneof regexps =>
    match process_all process_regexp regexps true max_start_cycle min_start_cycle 0 0 st with
    | Some (max_cycle, min_cycle, st') => Some (mk_cycles_state max_cycle min_cycle (units st'))
    | None => None
    end
  | rm_nothing => Some (mk_cycles_state max_start_cycle min_start_cycle (units st))
  end.
End Deref.

(** [process_regexp_cycles (regexp, max_start_cycle, min_start_cycle,
    max_finish_cycle, min_finish_cycle)]; [None]: the fuel is used up or
    a [reserv_decl] points to no reservation. *)
Fixpoint process_regexp_cycles (fuel : nat) (r : regexp)
    (max_start_cycle min_start_cycle : Z) (st : cycles_state) : option cycles_state :=
  match fuel with
  | O => None
  | S fuel' =>
    process_regexp
      (fun reserv_decl max_start min_start st' =>
         match Loops.reserv_regexp decls reserv_decl with
         | Some r' => process_regexp_cycles fuel' r' max_start min_start st'
         | None => None
         end)
      r max_start_cycle min_start_cycle st
  end.

(** [evaluate_max_reserv_cycles]: the loop over the declarations;
    [max_insn_reserv_cycles] is [description->max_insn_reserv_cycles]. *)
Fixpoint evaluate_loop (fuel : nat) (ds : list decl) (max_insn_reserv_cycles : Z)
    (st : cycles_state) : option (Z * cycles_state) :=
  match ds with
  | [] => Some (max_insn_reserv_cycles, st)
  | dm_insn_reserv _ (Some r) :: ds' =>
    match process_regexp_cycles fuel r 0 0 st with
    | Some st' =>
      evaluate_loop fuel ds'
        (if max_insn_reserv_cycles <? max_finish_cycle st'
         then max_finish_cycle st' else max_insn_reserv_cycles) st'
    | None => None
    end
  | dm_insn_reserv _ None :: _ => None
  | _ :: ds' => evaluate_loop fuel ds' max_insn_reserv_cycles st
  end.

End Process.

(** [evaluate_max_reserv_cycles]; [max_insn_cycles_num] and
    [min_insn_cycles_num] are the locals the cells live in.  The result
    is [description->max_insn_reserv_cycles] and [units_array]. *)
Definition evaluate_max_reserv_cycles (fuel : nat) (decls : list decl)
    (max_insn_cycles_num min_insn_cycles_num : Z) (units_array : list unit_decl)
    : option (Z * list unit_decl) :=
  match evaluate_loop decls fuel decls 0
          (mk_cycles_state max_insn_cycles_num min_insn_cycles_num units_array) with
  | Some (max_insn_reserv_cycles, st) => Some (max_insn_reserv_cycles + 1, units st)
  | None => None
  end.

(** [add_advance_cycle_insn_decl]: the declarations with the insn
    [$advance_cycle], and its position [advance_cycle_insn_decl]. *)
Definition add_advance_cycle_insn_decl (decls : list decl) : list decl * nat :=
  (decls ++ [dm_insn_reserv 0 None], length decls).

(** [output_max_insn_queue_index_def]: the loop over the declarations,
    from declaration [i] on. *)
Fixpoint max_latency_loop (ds : list decl) (i advance_cycle_insn_decl : nat) (max : Z) : Z :=
  match ds with
  | [] => max
  | dm_insn_reserv latency _ :: ds' =>
    if negb (Nat.eqb i advance_cycle_insn_decl)
    then max_latency_loop ds' (S i) advance_cycle_insn_decl
           (if latency >? max then latency else max)
    else max_latency_loop ds' (S i) advance_cycle_insn_decl max
  | dm_bypass latency :: ds' =>
    max_latency_loop ds' (S i) advance_cycle_insn_decl
      (if latency >? max then latency else max)
  | _ :: ds' => max_latency_loop ds' (S i) advance_cycle_insn_decl max
  end.

(** [for (i = 0; (1 << i) <= max; i++) ;] on a 32-bit [int]: [1 << i]
    is defined up to [i = 30]; [None] stands for the shift past it. *)
Fixpoint shift_loop (defined_shifts : nat) (i : Z) (max : Z) : option Z :=
  match defined_shifts with
  | O => None
  | S n => if Z.shiftl 1 i <=? max then shift_loop n (i + 1) max else Some i
  end.

(** [output_max_insn_queue_index_def]: the value printed for
    [max_insn_queue_index]. *)
Definition output_max_insn_queue_index_def (decls : list decl)
    (advance_cycle_insn_decl : nat) (max_insn_reserv_cycles : Z) : option Z :=
  let max := max_latency_loop decls 0 advance_cycle_insn_decl max_insn_reserv_cycles in
  match shift_loop 31 0 max with
  | Some i => Some (Z.shiftl 1 i - 1)
  | None => None
  end.

(** The latencies [output_max_insn_queue_index_def] reads: the default
    latency of every insn reservation but [$advance_cycle], and the
    latency of every bypass. *)
Fixpoint latencies (ds : list decl) (i advance_cycle_insn_decl : nat) : list Z :=
  match ds with
  | [] => []
  | dm_insn_reserv latency _ :: ds' =>
    if Nat.eqb i advance_cycle_insn_decl
    then latencies ds' (S i) advance_cycle_insn_decl
    else latency :: latencies ds' (S i) advance_cycle_insn_decl
  | dm_bypass latency :: ds' => latency :: latencies ds' (S i) advance_cycle_insn_decl
  | _ :: ds' => latencies ds' (S i) advance_cycle_insn_decl
  end.

(** Reservation references nest at most [depth] deep below [r]. *)
Fixpoint nesting (decls : list decl) (depth : nat) (r : regexp) : Prop :=
  forall d, In d (Loops.reservs_of r) ->
    match depth with
    | O => False
    | S depth' => exists r', Loops.reserv_regexp decls d = Some r'
                             /\ nesting decls depth' r'
    end.


(** *** The smallest [2^k - 1] *)

Lemma shift_loop_spec (n : nat) :
  forall i max, (1 <= n)%nat -> 0 <= i -> max < 2 ^ (i + Z.of_nat n - 1) ->
  exists k, shift_loop n i max = Some k /\ i <= k /\ max < 2 ^ k
            /\ forall j, i <= j < k -> 2 ^ j <= max.
Proof.
  induction n as [|n IH]; intros i max Hn Hi Hmax; [lia|].
  cbn [shift_loop]. rewrite Z.shiftl_1_l.
  destruct (Z.leb_spec (2 ^ i) max) as [Hle|Hgt].
  - assert (1 <= n)%nat as Hn'.
    { destruct n; [|lia]. exfalso.
      replace (i + Z.of_nat 1 - 1) with i in Hmax by lia. lia. }
    destruct (IH (i + 1) max Hn' ltac:(lia)) as (k & E & Hk & Hlt & Hall).
    { replace (i + 1 + Z.of_nat n - 1) with (i + Z.of_nat (S n) - 1) by lia. assumption. }
    exists k. split; [assumption|]. split; [lia|]. split; [assumption|].
    intros j Hj. destruct (Z.eq_dec j i) as [->|Hne]; [assumption|].
    apply Hall. lia.
  - exists i. split; [reflexivity|]. split; [lia|]. split; [assumption|].
    intros j Hj. lia.
Qed.

Lemma max_latency_loop_spec (ds : list decl) :
  forall i adv max,
    let m := max_latency_loop ds i adv max in
    In m (max :: latencies ds i adv)
    /\ Forall (fun v => v <= m) (max :: latencies ds i adv).
Proof.
  induction ds as [|d ds IH]; intros i adv max.
  - cbn. split; [left; reflexivity | repeat constructor; lia].
  - assert (forall lat,
              let m := max_latency_loop ds (S i) adv (if lat >? max then lat else max) in
              In m (max :: lat :: latencies ds (S i) adv)
              /\ Forall (fun v => v <= m) (max :: lat :: latencies ds (S i) adv)) as Hstep.
    { intros lat. specialize (IH (S i) adv (if lat >? max then lat else max)).
      cbv zeta in *. destruct IH as [Hin Hall].
      inversion Hall as [|? ? Hhd Htl]; subst. split.
      - destruct Hin as [Hin|Hin].
        + rewrite <- Hin. destruct (lat >? max); [right; left | left]; reflexivity.
        + right. right. assumption.
      - destruct (Z.gtb_spec lat max); repeat constructor; try assumption; lia. }
    destruct d; cbn [max_latency_loop latencies]; try apply IH.
    + apply Hstep.
    + destruct (Nat.eqb i adv); cbn [negb]; [apply IH | apply Hstep].
Qed.

(** *** The occurrence cycles left by [process_regexp_cycles] *)

Definition occ (st : cycles_state) (u : nat) : Z :=
  match nth_error (units st) u with
  | Some x => max_occ_cycle_num x
  | None => 0
  end.

(** A call started on cycle [max_start] ends on a cycle not before it,
    and leaves every [max_occ_cycle_num] at its old value or at most at
    the finishing cycle. *)
Definition post (max_start : Z) (st st' : cycles_state) : Prop :=
  max_start <= max_finish_cycle st'
  /\ length (units st') = length (units st)
  /\ forall u, occ st' u <= Z.max (occ st u) (max_finish_cycle st').

Lemma parsed_all (rs : list regexp) :
  (fix all rs := match rs with
                 | [] => True
                 | r' :: rs' => parsed r' /\ all rs'
                 end) rs <-> Forall parsed rs.
Proof.
  induction rs as [|r rs IH].
  - split; intros _; constructor.
  - split.
    + intros [Hr Hrs]. constructor; [assumption | apply IH; assumption].
    + intros H. inversion H; subst. split; [assumption | apply IH; assumption].
Qed.

Section ProcessOk.

Variable decls : list decl.

Definition call_ok (f : Z -> Z -> cycles_state -> option cycles_state) : Prop :=
  forall ms mn st, exists st', f ms mn st = Some st' /\ post ms st st'.

Lemma process_sequence_ok (f : regexp -> Z -> Z -> cycles_state -> option cycles_state)
    (rs : list regexp) :
  Forall (fun r => call_ok (f r)) rs -> rs <> [] ->
  call_ok (process_sequence f rs).
Proof.
  induction 1 as [|r rs Hr Hrs IH]; intros Hne ms mn st; [congruence|].
  cbn [process_sequence].
  destruct (Hr ms mn st) as (st1 & E1 & Hge1 & Hlen1 & Hocc1). rewrite E1.
  destruct rs as [|r2 rs].
  - exists st1. split; [reflexivity | unfold post; auto].
  - destruct (IH ltac:(discriminate) (max_finish_cycle st1 + 1)
                (min_finish_cycle st1 + 1) st1) as (st' & E & Hge & Hlen & Hocc).
    exists st'. split; [assumption|]. split; [lia|]. split; [congruence|].
    intros u. specialize (Hocc u). specialize (Hocc1 u). lia.
Qed.

Lemma process_repeat_ok (f : regexp -> Z -> Z -> cycles_state -> option cycles_state)
    (r : regexp) (times : nat) :
  call_ok (f r) -> (1 <= times)%nat -> call_ok (process_repeat f r times).
Proof.
  intros Hr. induction times as [|times IH]; intros Ht ms mn st; [lia|].
  cbn [process_repeat].
  destruct (Hr ms mn st) as (st1 & E1 & Hge1 & Hlen1 & Hocc1). rewrite E1.
  destruct times as [|times].
  - exists st1. split; [reflexivity | unfold post; auto].
  - destruct (IH ltac:(lia) (max_finish_cycle st1 + 1)
                (min_finish_cycle st1 + 1) st1) as (st' & E & Hge & Hlen & Hocc).
    exists st'. split; [assumption|]. split; [lia|]. split; [congruence|].
    intros u. specialize (Hocc u). specialize (Hocc1 u). lia.
Qed.

Lemma process_all_ok (f : regexp -> Z -> Z -> cycles_state -> option cycles_state)
    (rs : list regexp) :
  Forall (fun r => call_ok (f r)) rs ->
  forall first ms mn max_cycle min_cycle st,
  exists mc mnc st',
    process_all f rs first ms mn max_cycle min_cycle st = Some (mc, mnc, st')
    /\ max_cycle <= mc
    /\ (rs <> [] -> ms <= mc)
    /\ length (units st') = length (units st)
    /\ forall u, occ st' u <= Z.max (occ st u) mc.
Proof.
  induction 1 as [|r rs Hr Hrs IH]; intros first ms mn max_cycle min_cycle st.
  - exists max_cycle, min_cycle, st. cbn [process_all].
    split; [reflexivity|]. split; [lia|]. split; [congruence|].
    split; [reflexivity|]. intros u. lia.
  - cbn [process_all].
    destruct (Hr ms mn st) as (st1 & E1 & Hge1 & Hlen1 & Hocc1). rewrite E1.
    destruct (IH false ms mn
                (if max_cycle <? max_finish_cycle st1
                 then max_finish_cycle st1 else max_cycle)
                (if first || (min_cycle >? min_finish_cycle st1)
                 then min_finish_cycle st1 else min_cycle) st1)
      as (mc & mnc & st' & E & Hacc & _ & Hlen & Hocc).
    exists mc, mnc, st'. split; [assumption|].
    destruct (Z.ltb_spec max_cycle (max_finish_cycle st1)).
    + split; [lia|]. split; [lia|]. split; [congruence|].
      intros u. specialize (Hocc u). specialize (Hocc1 u). lia.
    + split; [lia|]. split; [lia|]. split; [congruence|].
      intros u. specialize (Hocc u). specialize (Hocc1 u). lia.
Qed.

Lemma occ_update_unit (st : cycles_state) (n u : nat) (ms mn : Z) :
  match nth_error (update_unit (units st) n (note_unit ms mn)) u with
  | Some x => max_occ_cycle_num x
  | None => 0
  end <= Z.max (occ st u) ms.
Proof.
  unfold occ. rewrite update_unit_nth_error.
  destruct (Nat.eqb_spec n u) as [->|Hne].
  - destruct (nth_error (units st) u) as [x|]; cbn; [|lia].
    destruct (Z.ltb_spec (max_occ_cycle_num x) ms); lia.
  - destruct (nth_error (units st) u); lia.
Qed.

Lemma process_regexp_ok
    (deref : nat -> Z -> Z -> cycles_state -> option cycles_state) (r : regexp) :
  parsed r ->
  (forall d, In d (Loops.reservs_of r) -> call_ok (deref d)) ->
  call_ok (process_regexp deref r).
Proof.
  induction r as [u | d | | rs IH | r n IH | rs IH | rs IH] using regexp_rect';
    intros Hp Hd.
  - intros ms mn st. eexists. split; [reflexivity|]. unfold post. cbn.
    split; [lia|]. split; [apply update_unit_length|].
    intros v. apply occ_update_unit.
  - apply Hd. left. reflexivity.
  - intros ms mn st. eexists. split; [reflexivity|]. unfold post, occ. cbn.
    split; [lia|]. split; [reflexivity|]. intros v. lia.
  - cbn [parsed] in Hp. destruct Hp as [Hlen Hall]. apply parsed_all in Hall.
    cbn [process_regexp]. apply process_sequence_ok.
    + rewrite Forall_forall in *. intros r Hr. apply IH; [assumption | auto |].
      intros d Hin. apply Hd. cbn [Loops.reservs_of]. apply in_flat_map.
      exists r. split; assumption.
    + destruct rs; [cbn in Hlen; lia | discriminate].
  - cbn [parsed] in Hp. destruct Hp as [Hn Hpr].
    cbn [process_regexp]. apply process_repeat_ok; [|lia].
    apply IH; assumption.
  - cbn [parsed] in Hp. destruct Hp as [Hlen Hall]. apply parsed_all in Hall.
    intros ms mn st. cbn [process_regexp].
    destruct (process_all_ok (process_regexp deref) rs) with
      (first := true) (ms := ms) (mn := mn) (max_cycle := 0) (min_cycle := 0) (st := st)
      as (mc & mnc & st' & E & Hacc & Hfirst & Hl & Hocc).
    { rewrite Forall_forall in *. intros r Hr. apply IH; [assumption | auto |].
      intros d Hin. apply Hd. cbn [Loops.reservs_of]. apply in_flat_map.
      exists r. split; assumption. }
    rewrite E. eexists. split; [reflexivity|]. unfold post. cbn.
    split; [apply Hfirst; destruct rs; [cbn in Hlen; lia | discriminate]|].
    split; [assumption|]. exact Hocc.
  - cbn [parsed] in Hp. destruct Hp as [Hlen Hall]. apply parsed_all in Hall.
    intros ms mn st. cbn [process_regexp].
    destruct (process_all_ok (process_regexp deref) rs) with
      (first := true) (ms := ms) (mn := mn) (max_cycle := 0) (min_cycle := 0) (st := st)
      as (mc & mnc & st' & E & Hacc & Hfirst & Hl & Hocc).
    { rewrite Forall_forall in *. intros r Hr. apply IH; [assumption | auto |].
      intros d Hin. apply Hd. cbn [Loops.reservs_of]. apply in_flat_map.
      exists r. split; assumption. }
    rewrite E. eexists. split; [reflexivity|]. unfold post. cbn.
    split; [apply Hfirst; destruct rs; [cbn in Hlen; lia | discriminate]|].
    split; [assumption|]. exact Hocc.
Qed.

Hypothesis reservations_parsed :
  forall d r, Loops.reserv_regexp decls d = Some r -> parsed r.

Lemma process_regexp_cycles_ok (depth : nat) :
  forall r, parsed r -> nesting decls depth r ->
  call_ok (process_regexp_cycles decls (S depth) r).
Proof.
  induction depth as [|depth IH]; intros r Hp Hn; cbn [process_regexp_cycles].
  - apply process_regexp_ok; [assumption|]. intros d Hd. destruct (Hn d Hd).
  - apply process_regexp_ok; [assumption|]. intros d Hd.
    destruct (Hn d Hd) as (r' & Hr' & Hn'). rewrite Hr'.
    apply IH; [eapply reservations_parsed; eassumption | assumption].
Qed.

Lemma evaluate_loop_ok (depth : nat) (ds : list decl) :
  (forall lat r, In (dm_insn_reserv lat r) ds ->
     exists r', r = Some r' /\ parsed r' /\ nesting decls depth r') ->
  forall acc st, (forall u, occ st u <= acc) ->
  exists m st', evaluate_loop decls (S depth) ds acc st = Some (m, st')
    /\ acc <= m
    /\ length (units st') = length (units st)
    /\ forall u, occ st' u <= m.
Proof.
  induction ds as [|d ds IH]; intros Hins acc st Hacc.
  - exists acc, st. repeat split; try assumption; lia.
  - assert (forall lat r, In (dm_insn_reserv lat r) ds ->
              exists r', r = Some r' /\ parsed r' /\ nesting decls depth r') as Hins'
      by (intros lat r Hin; apply (Hins lat r); right; assumption).
    destruct d as [ | | | | | | | lat r];
      try (cbn [evaluate_loop]; apply IH; assumption).
    destruct (Hins lat r (or_introl eq_refl)) as (r' & -> & Hp & Hn).
    cbn [evaluate_loop].
    destruct (process_regexp_cycles_ok depth r' Hp Hn 0 0 st)
      as (st1 & E1 & Hge & Hlen1 & Hocc1).
    rewrite E1.
    destruct (IH Hins'
                (if acc <? max_finish_cycle st1 then max_finish_cycle st1 else acc) st1)
      as (m & st' & E & Hm & Hlen & Hocc).
    { intros u. specialize (Hocc1 u). specialize (Hacc u).
      destruct (Z.ltb_spec acc (max_finish_cycle st1)); lia. }
    exists m, st'. split; [assumption|].
    split; [destruct (Z.ltb_spec acc (max_finish_cycle st1)); lia|].
    split; [congruence | assumption].
Qed.

End ProcessOk.

(** *** The reservations a regexp describes *)

(** A reservation: the units reserved on each of its cycles, the first
    cycle first.  A cycle of [nothing] has no unit. *)
Definition reservation : Type := list (list nat).

(** Two reservations that start on the same cycle. *)
Fixpoint together (a b : reservation) : reservation :=
  match a, b with
  | [], _ => b
  | _, [] => a
  | us :: a', vs :: b' => (us ++ vs) :: together a' b'
  end.

Section Reservations.

(** The reservations of the reservation declared at a position. *)
Variable deref : nat -> list reservation.

Section Operands.
Variable of_operand : regexp -> list reservation.

(** [r1, r2, ...]: a reservation of each operand, one after another. *)
Fixpoint in_sequence (regexps : list regexp) : list reservation :=
  match regexps with
  | [] => [[]]
  | r :: regexps' => flat_map (fun a => map (app a) (in_sequence regexps')) (of_operand r)
  end.

(** [r * n] *)
Fixpoint repeated (r : regexp) (times : nat) : list reservation :=
  match times with
  | O => [[]]
  | S times' => flat_map (fun a => map (app a) (repeated r times')) (of_operand r)
  end.

(** [r1 + r2 + ...]: a reservation of each operand, from the same
    cycle on. *)
Fixpoint all_of (regexps : list regexp) : list reservation :=
  match regexps with
  | [] => [[]]
  | r :: regexps' => flat_map (fun a => map (together a) (all_of regexps')) (of_operand r)
  end.

(** [r1 | r2 | ...]: a reservation of one of the operands. *)
Fixpoint one_of (regexps : list regexp) : list reservation :=
  match regexps with
  | [] => []
  | r :: regexps' => of_operand r ++ one_of regexps'
  end.
End Operands.

(** The reservations a regexp describes: a unit takes one cycle,
    [nothing] takes one cycle without a unit. *)
Fixpoint reservations_of (r : regexp) : list reservation :=
  match r with
  | rm_unit unit_decl0 => [[[unit_decl0]]]
  | rm_nothing => [[[]]]
  | rm_reserv reserv_decl => deref reserv_decl
  | rm_sequence regexps => in_sequence reservations_of regexps
  | rm_repeat operand repeat_num => repeated reservations_of operand (Z.to_nat repeat_num)
  | rm_allof regexps => all_of reservations_of regexps
  | rm_oneof regexps => one_of reservations_of regexps
  end.

End Reservations.

(** The reservations of a regexp of the description, through the
    reservations it names. *)
Fixpoint regexp_reservations (decls : list decl) (fuel : nat) (r : regexp)
    : list reservation :=
  match fuel with
  | O => []
  | S fuel' =>
    reservations_of
      (fun reserv_decl =>
         match Loops.reserv_regexp decls reserv_decl with
         | Some r' => regexp_reservations decls fuel' r'
         | None => []
         end)
      r
  end.

(** [v] is the length in cycles of the longest of the reservations. *)
Definition longest (reservations : list reservation) (v : Z) : Prop :=
  (forall a, In a reservations -> Z.of_nat (length a) <= v)
  /\ exists a, In a reservations /\ Z.of_nat (length a) = v.

Lemma together_length (a b : reservation) :
  length (together a b) = Nat.max (length a) (length b).
Proof.
  revert b. induction a as [|us a IH]; intros [|vs b]; cbn [together length];
    try reflexivity.
  rewrite IH. reflexivity.
Qed.

Lemma longest_pairs (f : reservation -> reservation -> reservation)
    (g : Z -> Z -> Z) (A B : list reservation) (a b : Z) :
  (forall x y, Z.of_nat (length (f x y)) = g (Z.of_nat (length x)) (Z.of_nat (length y))) ->
  (forall x x' y y', x <= x' -> y <= y' -> g x y <= g x' y') ->
  longest A a -> longest B b ->
  longest (flat_map (fun x => map (f x) B) A) (g a b).
Proof.
  intros Hf Hg [HA (x & Hx & Ex)] [HB (y & Hy & Ey)]. split.
  - intros z Hz. apply in_flat_map in Hz. destruct Hz as (x' & Hx' & Hz).
    apply in_map_iff in Hz. destruct Hz as (y' & <- & Hy').
    rewrite Hf. apply Hg; auto.
  - exists (f x y). split.
    + apply in_flat_map. exists x. split; [exact Hx|]. apply in_map. exact Hy.
    + rewrite Hf, Ex, Ey. reflexivity.
Qed.

Lemma longest_sequence (A B : list reservation) (a b : Z) :
  longest A a -> longest B b ->
  longest (flat_map (fun x => map (app x) B) A) (a + b).
Proof.
  apply (longest_pairs (@app (list nat)) Z.add).
  - intros x y. rewrite length_app. lia.
  - intros. lia.
Qed.

Lemma longest_together (A B : list reservation) (a b : Z) :
  longest A a -> longest B b ->
  longest (flat_map (fun x => map (together x) B) A) (Z.max a b).
Proof.
  apply (longest_pairs together Z.max).
  - intros x y. rewrite together_length. lia.
  - intros. lia.
Qed.

Lemma longest_one (A B : list reservation) (a b : Z) :
  longest A a -> longest B b -> longest (A ++ B) (Z.max a b).
Proof.
  intros [HA (x & Hx & Ex)] [HB (y & Hy & Ey)]. split.
  - intros z Hz. apply in_app_or in Hz. destruct Hz as [Hz|Hz];
      [specialize (HA z Hz) | specialize (HB z Hz)]; lia.
  - destruct (Z.max_spec a b) as [[_ ->]|[_ ->]].
    + exists y. split; [apply in_or_app; right; exact Hy | exact Ey].
    + exists x. split; [apply in_or_app; left; exact Hx | exact Ex].
Qed.

Lemma longest_empty : longest [[]] 0.
Proof.
  split; [intros a [<-|[]]; reflexivity|]. exists []. split; [left|]; reflexivity.
Qed.

(** A call started on a cycle that is not negative ends on the last
    cycle of the longest of the reservations. *)
Definition call_longest (f : Z -> Z -> cycles_state -> option cycles_state)
    (reservations : list reservation) : Prop :=
  exists v, 1 <= v /\ longest reservations v
            /\ forall ms mn st, 0 <= ms ->
                 exists st', f ms mn st = Some st'
                             /\ max_finish_cycle st' = ms + v - 1.

Section Longest.

Variable f : regexp -> Z -> Z -> cycles_state -> option cycles_state.
Variable of_operand : regexp -> list reservation.

Lemma process_sequence_longest (rs : list regexp) :
  Forall (fun r => call_longest (f r) (of_operand r)) rs -> rs <> [] ->
  call_longest (process_sequence f rs) (in_sequence of_operand rs).
Proof.
  induction 1 as [|r rs (v & Hv & Hlong & Hcall) Hrs IH]; intros Hne; [congruence|].
  cbn [process_sequence in_sequence]. destruct rs as [|r2 rs].
  - exists v. split; [exact Hv|]. split.
    + replace v with (v + 0) by lia. apply longest_sequence; [exact Hlong|].
      apply longest_empty.
    + intros ms mn st Hms. destruct (Hcall ms mn st Hms) as (st1 & -> & E1).
      exists st1. auto.
  - destruct (IH ltac:(discriminate)) as (v' & Hv' & Hlong' & Hcall').
    exists (v + v'). split; [lia|]. split; [apply longest_sequence; assumption|].
    intros ms mn st Hms. destruct (Hcall ms mn st Hms) as (st1 & -> & E1).
    destruct (Hcall' (max_finish_cycle st1 + 1) (min_finish_cycle st1 + 1) st1)
      as (st' & E' & Hfinish); [lia|].
    exists st'. split; [exact E'|]. lia.
Qed.

Lemma process_repeat_longest (r : regexp) (times : nat) :
  call_longest (f r) (of_operand r) -> (1 <= times)%nat ->
  call_longest (process_repeat f r times) (repeated of_operand r times).
Proof.
  intros (v & Hv & Hlong & Hcall). induction times as [|times IH]; intros Ht; [lia|].
  cbn [process_repeat repeated]. destruct times as [|times].
  - exists v. split; [exact Hv|]. split.
    + replace v with (v + 0) by lia. apply longest_sequence; [exact Hlong|].
      apply longest_empty.
    + intros ms mn st Hms. destruct (Hcall ms mn st Hms) as (st1 & -> & E1).
      exists st1. auto.
  - destruct (IH ltac:(lia)) as (v' & Hv' & Hlong' & Hcall').
    exists (v + v'). split; [lia|]. split; [apply longest_sequence; assumption|].
    intros ms mn st Hms. destruct (Hcall ms mn st Hms) as (st1 & -> & E1).
    destruct (Hcall' (max_finish_cycle st1 + 1) (min_finish_cycle st1 + 1) st1)
      as (st' & E' & Hfinish); [lia|].
    exists st'. split; [exact E'|]. lia.
Qed.

(** The loop of [rm_allof] and of [rm_oneof] leaves in [max_cycle] the
    last cycle of the longest reservation, or what it held if that is
    later. *)
Lemma process_all_longest (reservations : list regexp -> list reservation)
    (rs : list regexp) :
  (forall r, call_longest (f r) (of_operand r) -> call_longest (f r) (reservations [r])) ->
  (forall r r2 rs' v v', longest (of_operand r) v -> longest (reservations (r2 :: rs')) v' ->
                         longest (reservations (r :: r2 :: rs')) (Z.max v v')) ->
  Forall (fun r => call_longest (f r) (of_operand r)) rs -> rs <> [] ->
  exists v, 1 <= v /\ longest (reservations rs) v
            /\ forall first ms mn max_cycle min_cycle st, 0 <= ms ->
                 exists mc mnc st',
                   process_all f rs first ms mn max_cycle min_cycle st = Some (mc, mnc, st')
                   /\ mc = Z.max max_cycle (ms + v - 1).
Proof.
  intros Hone Hmore.
  induction 1 as [|r rs Hr Hrs IH]; intros Hne; [congruence|].
  destruct rs as [|r2 rs].
  - destruct (Hone r Hr) as (v & Hv & Hlong & _). destruct Hr as (v0 & Hv0 & Hlong0 & Hcall).
    assert (v0 = v) as ->.
    { destruct (Hone r (ex_intro _ v0 (conj Hv0 (conj Hlong0 Hcall))))
        as (v1 & _ & Hlong1 & Hcall1).
      destruct (Hcall 0 0 (mk_cycles_state 0 0 [])) as (s1 & E1 & F1); [lia|].
      destruct (Hcall1 0 0 (mk_cycles_state 0 0 [])) as (s2 & E2 & F2); [lia|].
      rewrite E1 in E2. injection E2 as <-.
      destruct Hlong as [Hall (a & Ha & Ea)], Hlong1 as [Hall1 (a1 & Ha1 & Ea1)].
      specialize (Hall a1 Ha1). specialize (Hall1 a Ha). lia. }
    exists v. split; [exact Hv|]. split; [exact Hlong|].
    intros first ms mn max_cycle min_cycle st Hms. cbn [process_all].
    destruct (Hcall ms mn st Hms) as (st1 & -> & E1).
    eexists. eexists. eexists. split; [reflexivity|].
    destruct (Z.ltb_spec max_cycle (max_finish_cycle st1)); lia.
  - destruct Hr as (v & Hv & Hlong & Hcall).
    destruct (IH ltac:(discriminate)) as (v' & Hv' & Hlong' & Hcall').
    exists (Z.max v v'). split; [lia|]. split; [apply Hmore; assumption|].
    intros first ms mn max_cycle min_cycle st Hms.
    cbn [process_all]. destruct (Hcall ms mn st Hms) as (st1 & -> & E1).
    destruct (Hcall' false ms mn
                (if max_cycle <? max_finish_cycle st1
                 then max_finish_cycle st1 else max_cycle)
                (if first || (min_cycle >? min_finish_cycle st1)
                 then min_finish_cycle st1 else min_cycle) st1 Hms)
      as (mc & mnc & st' & E' & Hmc).
    exists mc, mnc, st'. split; [exact E'|].
    destruct (Z.ltb_spec max_cycle (max_finish_cycle st1)); lia.
Qed.

End Longest.

Lemma map_together_empty (A : list reservation) :
  flat_map (fun a => map (together a) [[]]) A = A.
Proof.
  induction A as [|a A IH]; [reflexivity|].
  change (flat_map (fun a0 => map (together a0) [[]]) (a :: A))
    with (together a [] :: flat_map (fun a0 => map (together a0) [[]]) A).
  rewrite IH. destruct a; reflexivity.
Qed.

Lemma process_regexp_longest
    (deref : nat -> Z -> Z -> cycles_state -> option cycles_state)
    (deref_reservations : nat -> list reservation) (r : regexp) :
  parsed r ->
  (forall d, In d (Loops.reservs_of r) -> call_longest (deref d) (deref_reservations d)) ->
  call_longest (process_regexp deref r) (reservations_of deref_reservations r).
Proof.
  induction r as [u | d | | rs IH | r n IH | rs IH | rs IH] using regexp_rect';
    intros Hp Hd.
  - exists 1. split; [lia|]. split.
    + split; [intros a [<-|[]]; reflexivity|]. eexists. split; [left|]; reflexivity.
    + intros ms mn st _. eexists. split; [reflexivity|]. cbn. lia.
  - apply Hd. left. reflexivity.
  - exists 1. split; [lia|]. split.
    + split; [intros a [<-|[]]; reflexivity|]. eexists. split; [left|]; reflexivity.
    + intros ms mn st _. eexists. split; [reflexivity|]. cbn. lia.
  - cbn [parsed] in Hp. destruct Hp as [Hlen Hall]. apply parsed_all in Hall.
    cbn [process_regexp reservations_of]. apply process_sequence_longest.
    + rewrite Forall_forall in *. intros r Hr. apply IH; [assumption | auto |].
      intros d Hin. apply Hd. cbn [Loops.reservs_of]. apply in_flat_map.
      exists r. split; assumption.
    + destruct rs; [cbn in Hlen; lia | discriminate].
  - cbn [parsed] in Hp. destruct Hp as [Hn Hpr].
    cbn [process_regexp reservations_of]. apply process_repeat_longest; [|lia].
    apply IH; assumption.
  - cbn [parsed] in Hp. destruct Hp as [Hlen Hall]. apply parsed_all in Hall.
    destruct (process_all_longest (process_regexp deref)
                (reservations_of deref_reservations)
                (all_of (reservations_of deref_reservations)) rs)
      as (v & Hv & Hlong & Hcall).
    { intros r. cbn [all_of]. rewrite map_together_empty. auto. }
    { intros r r2 rs' v v' Hlong Hlong'. cbn [all_of].
      apply longest_together; assumption. }
    { rewrite Forall_forall in *. intros r Hr. apply IH; [assumption | auto |].
      intros d Hin. apply Hd. cbn [Loops.reservs_of]. apply in_flat_map.
      exists r. split; assumption. }
    { destruct rs; [cbn in Hlen; lia | discriminate]. }
    exists v. split; [exact Hv|]. split; [exact Hlong|].
    intros ms mn st Hms. cbn [process_regexp].
    destruct (Hcall true ms mn 0 0 st Hms) as (mc & mnc & st' & -> & ->).
    eexists. split; [reflexivity|]. cbn [max_finish_cycle]. lia.
  - cbn [parsed] in Hp. destruct Hp as [Hlen Hall]. apply parsed_all in Hall.
    destruct (process_all_longest (process_regexp deref)
                (reservations_of deref_reservations)
                (one_of (reservations_of deref_reservations)) rs)
      as (v & Hv & Hlong & Hcall).
    { intros r. cbn [one_of]. rewrite app_nil_r. auto. }
    { intros r r2 rs' v v' Hlong Hlong'.
      change (one_of (reservations_of deref_reservations) (r :: r2 :: rs'))
        with (reservations_of deref_reservations r
              ++ one_of (reservations_of deref_reservations) (r2 :: rs')).
      apply longest_one; assumption. }
    { rewrite Forall_forall in *. intros r Hr. apply IH; [assumption | auto |].
      intros d Hin. apply Hd. cbn [Loops.reservs_of]. apply in_flat_map.
      exists r. split; assumption. }
    { destruct rs; [cbn in Hlen; lia | discriminate]. }
    exists v. split; [exact Hv|]. split; [exact Hlong|].
    intros ms mn st Hms. cbn [process_regexp].
    destruct (Hcall true ms mn 0 0 st Hms) as (mc & mnc & st' & -> & ->).
    eexists. split; [reflexivity|]. cbn [max_finish_cycle]. lia.
Qed.

Section LongestOfDescription.

Variable decls : list decl.

Hypothesis reservations_parsed :
  forall d r, Loops.reserv_regexp decls d = Some r -> parsed r.

Lemma process_regexp_cycles_longest (depth : nat) :
  forall r, parsed r -> nesting decls depth r ->
  call_longest (process_regexp_cycles decls (S depth) r)
    (regexp_reservations decls (S depth) r).
Proof.
  induction depth as [|depth IH]; intros r Hp Hn;
    cbn [process_regexp_cycles regexp_reservations].
  - apply process_regexp_longest; [assumption|]. intros d Hd. destruct (Hn d Hd).
  - apply process_regexp_longest; [assumption|]. intros d Hd.
    destruct (Hn d Hd) as (r' & Hr' & Hn'). rewrite Hr'.
    apply IH; [eapply reservations_parsed; eassumption | assumption].
Qed.

(** The loop of [evaluate_max_reserv_cycles] leaves the last cycle of
    the longest reservation of an insn, or what
    [max_insn_reserv_cycles] held if that is later. *)
Lemma evaluate_loop_longest (depth : nat) (ds : list decl) :
  (forall lat r, In (dm_insn_reserv lat r) ds ->
     exists r', r = Some r' /\ parsed r' /\ nesting decls depth r') ->
  forall acc st,
  exists m st', evaluate_loop decls (S depth) ds acc st = Some (m, st')
    /\ acc <= m
    /\ (forall lat r a, In (dm_insn_reserv lat (Some r)) ds ->
          In a (regexp_reservations decls (S depth) r) -> Z.of_nat (length a) - 1 <= m)
    /\ (m = acc
        \/ exists lat r a, In (dm_insn_reserv lat (Some r)) ds
                           /\ In a (regexp_reservations decls (S depth) r)
                           /\ Z.of_nat (length a) - 1 = m).
Proof.
  induction ds as [|d ds IH]; intros Hins acc st.
  - exists acc, st. split; [reflexivity|]. split; [lia|].
    split; [intros lat r a []|]. left. reflexivity.
  - assert (forall lat r, In (dm_insn_reserv lat r) ds ->
              exists r', r = Some r' /\ parsed r' /\ nesting decls depth r') as Hins'
      by (intros lat r Hin; apply (Hins lat r); right; assumption).
    assert (forall d', (forall lat r, d' <> dm_insn_reserv lat r) ->
              exists m st', evaluate_loop decls (S depth) ds acc st = Some (m, st')
                /\ acc <= m
                /\ (forall lat r a, In (dm_insn_reserv lat (Some r)) (d' :: ds) ->
                      In a (regexp_reservations decls (S depth) r) ->
                      Z.of_nat (length a) - 1 <= m)
                /\ (m = acc
                    \/ exists lat r a, In (dm_insn_reserv lat (Some r)) (d' :: ds)
                                       /\ In a (regexp_reservations decls (S depth) r)
                                       /\ Z.of_nat (length a) - 1 = m)) as Hskip.
    { intros d' Hd'. destruct (IH Hins' acc st) as (m & st' & E & Hacc & Hall & Hsome).
      exists m, st'. split; [exact E|]. split; [exact Hacc|]. split.
      - intros lat r a [Heq|Hin]; [exfalso; exact (Hd' _ _ Heq) | eapply Hall; eassumption].
      - destruct Hsome as [->|(lat & r & a & Hin & H)]; [left; reflexivity|].
        right. exists lat, r, a. split; [right; exact Hin | exact H]. }
    destruct d as [ | | | | | | | lat r];
      try (cbn [evaluate_loop]; apply Hskip; intros; discriminate).
    destruct (Hins lat r (or_introl eq_refl)) as (r' & -> & Hp & Hn).
    cbn [evaluate_loop].
    destruct (process_regexp_cycles_longest depth r' Hp Hn) as (v & Hv & Hlong & Hcall).
    destruct (Hcall 0 0 st ltac:(lia)) as (st1 & -> & Hfinish).
    destruct (IH Hins'
                (if acc <? max_finish_cycle st1 then max_finish_cycle st1 else acc) st1)
      as (m & st' & E & Hm & Hall & Hsome).
    exists m, st'. split; [exact E|].
    destruct Hlong as [Hle (a0 & Ha0 & Ea0)].
    split; [destruct (Z.ltb_spec acc (max_finish_cycle st1)); lia|]. split.
    + intros lat' r a [Heq|Hin] Ha; [|eapply Hall; eassumption].
      injection Heq as _ <-. specialize (Hle a Ha).
      destruct (Z.ltb_spec acc (max_finish_cycle st1)); lia.
    + destruct Hsome as [->|(lat' & r & a & Hin & H)].
      * destruct (Z.ltb_spec acc (max_finish_cycle st1)); [|left; reflexivity].
        right. exists lat, r', a0. split; [left; reflexivity|]. split; [exact Ha0|]. lia.
      * right. exists lat', r, a. split; [right; exact Hin | exact H].
Qed.

End LongestOfDescription.

Lemma classic_insn (ds : list decl) :
  (exists lat r, In (dm_insn_reserv lat r) ds)
  \/ forall lat r, ~ In (dm_insn_reserv lat r) ds.
Proof.
  induction ds as [|d ds [(lat & r & H)|IH]].
  - right. intros lat r [].
  - left. exists lat, r. right. exact H.
  - destruct d as [ | | | | | | | lat r];
      try (right; intros lat' r' [Heq|Hin]; [discriminate | exact (IH _ _ Hin)]).
    left. exists lat, r. left. reflexivity.
Qed.

(** C9, as the code has it: on a description whose reservation
    references nest at most [depth] deep, [evaluate_max_reserv_cycles]
    ends with [max_insn_reserv_cycles] the length in cycles of the
    longest reservation of an insn (one past its last cycle, the cycles
    of [nothing] counted), 1 when no insn is declared; every cycle on
    which a reservation of an insn has a unit is below it, and so is
    the [max_occ_cycle_num] of every unit.
    [output_max_insn_queue_index_def] prints the smallest [2^k - 1] that
    is not below [max_insn_reserv_cycles], the default latencies and the
    bypass latencies, as long as these stay below [2^30]. *)
Theorem max_insn_queue_index_least (decls : list decl) (units_array : list unit_decl)
    (depth : nat) (max_insn_cycles_num min_insn_cycles_num : Z) :
  (forall lat r, In (dm_insn_reserv lat r) decls ->
     exists r', r = Some r' /\ parsed r' /\ nesting decls depth r') ->
  (forall d r, Loops.reserv_regexp decls d = Some r -> parsed r) ->
  Forall (fun u => max_occ_cycle_num u = 0) units_array ->
  exists max_insn_reserv_cycles units_array',
    evaluate_max_reserv_cycles (S depth) decls max_insn_cycles_num min_insn_cycles_num
      units_array = Some (max_insn_reserv_cycles, units_array')
    /\ (forall lat r a,
          In (dm_insn_reserv lat (Some r)) decls ->
          In a (regexp_reservations decls (S depth) r) ->
          Z.of_nat (length a) <= max_insn_reserv_cycles)
    /\ ((exists lat r a,
           In (dm_insn_reserv lat (Some r)) decls
           /\ In a (regexp_reservations decls (S depth) r)
           /\ Z.of_nat (length a) = max_insn_reserv_cycles)
        \/ ((forall lat r, ~ In (dm_insn_reserv lat r) decls)
            /\ max_insn_reserv_cycles = 1))
    /\ (forall lat r a cycle cycle_units unit,
          In (dm_insn_reserv lat (Some r)) decls ->
          In a (regexp_reservations decls (S depth) r) ->
          nth_error a cycle = Some cycle_units -> In unit cycle_units ->
          Z.of_nat cycle < max_insn_reserv_cycles)
    /\ Forall (fun u => max_occ_cycle_num u < max_insn_reserv_cycles) units_array'
    /\ let decls' := fst (add_advance_cycle_insn_decl decls) in
       let advance := snd (add_advance_cycle_insn_decl decls) in
       let values := max_insn_reserv_cycles :: latencies decls' 0 advance in
       (Forall (fun v => v < 2 ^ 30) values ->
        exists k, 0 <= k
          /\ output_max_insn_queue_index_def decls' advance max_insn_reserv_cycles
             = Some (2 ^ k - 1)
          /\ Forall (fun v => v <= 2 ^ k - 1) values
          /\ forall j, 0 <= j -> Forall (fun v => v <= 2 ^ j - 1) values -> k <= j).
Proof.
  intros Hins Hres Hzero. unfold evaluate_max_reserv_cycles.
  destruct (evaluate_loop_ok decls Hres depth decls Hins 0
              (mk_cycles_state max_insn_cycles_num min_insn_cycles_num units_array))
    as (m & st' & E & Hm & Hlen & Hocc).
  { intros u. unfold occ. cbn [units].
    destruct (nth_error units_array u) as [x|] eqn:Ex; [|lia].
    rewrite Forall_forall in Hzero. rewrite (Hzero x); [lia|].
    eapply nth_error_In. eassumption. }
  destruct (evaluate_loop_longest decls Hres depth decls Hins 0
              (mk_cycles_state max_insn_cycles_num min_insn_cycles_num units_array))
    as (m' & st'' & E' & _ & Hall & Hsome).
  rewrite E in E'. injection E' as <- <-.
  rewrite E. exists (m + 1), (units st'). split; [reflexivity|].
  assert (forall lat r a,
            In (dm_insn_reserv lat (Some r)) decls ->
            In a (regexp_reservations decls (S depth) r) ->
            Z.of_nat (length a) <= m + 1) as Hbound.
  { intros lat r a Hin Ha. specialize (Hall lat r a Hin Ha). lia. }
  split; [exact Hbound|]. split.
  { destruct Hsome as [->|(lat & r & a & Hin & Ha & Ea)].
    - destruct (classic_insn decls) as [(lat & r & Hin)|Hnone].
      + left. destruct (Hins lat r Hin) as (r' & -> & Hp & Hn).
        destruct (process_regexp_cycles_longest decls Hres depth r' Hp Hn)
          as (v & Hv & [Hle (a & Ha & Ea)] & _).
        exists lat, r', a. split; [exact Hin|]. split; [exact Ha|].
        specialize (Hall lat r' a Hin Ha). lia.
      + right. split; [exact Hnone | reflexivity].
    - left. exists lat, r, a. split; [exact Hin|]. split; [exact Ha|]. lia. }
  split.
  { intros lat r a cycle cycle_units unit Hin Ha Hcycle _.
    specialize (Hbound lat r a Hin Ha).
    assert (cycle < length a)%nat by (apply nth_error_Some; congruence). lia. }
  split.
  { apply Forall_forall. intros x Hx. apply In_nth_error in Hx. destruct Hx as (u & Hu).
    specialize (Hocc u). unfold occ in Hocc. rewrite Hu in Hocc. lia. }
  cbv zeta. intros Hbound'.
  set (decls' := fst (add_advance_cycle_insn_decl decls)) in *.
  set (advance := snd (add_advance_cycle_insn_decl decls)) in *.
  unfold output_max_insn_queue_index_def.
  destruct (max_latency_loop_spec decls' 0 advance (m + 1)) as [Hin Hall'].
  set (M := max_latency_loop decls' 0 advance (m + 1)) in *.
  assert (M < 2 ^ 30) as HM by (rewrite Forall_forall in Hbound'; apply Hbound'; assumption).
  destruct (shift_loop_spec 31 0 M ltac:(lia) ltac:(lia)) as (k & Ek & Hk & Hlt & Hlow).
  { change (0 + Z.of_nat 31 - 1) with 30. assumption. }
  exists k. split; [assumption|]. rewrite Ek, Z.shiftl_1_l. split; [reflexivity|]. split.
  - eapply Forall_impl; [|exact Hall']. cbn beta. intros v Hv. lia.
  - intros j Hj Hvals.
    destruct (Z.lt_ge_cases j k) as [Hjk|]; [|lia]. exfalso.
    assert (2 ^ j <= M) by (apply Hlow; lia).
    rewrite Forall_forall in Hvals. specialize (Hvals M Hin). lia.
Qed.

(** *** An insn of latency 1 with the reservation [u, nothing, nothing] *)

Definition padded : list decl :=
  [dm_insn_reserv 1 (Some (rm_sequence [rm_unit 0; rm_nothing; rm_nothing]))].

Lemma max_insn_queue_index_least_witness :
  exists max_insn_reserv_cycles units_array',
    evaluate_max_reserv_cycles 1 padded 0 0 [gen_cpu_unit None]
    = Some (max_insn_reserv_cycles, units_array')
    /\ (forall lat r a,
          In (dm_insn_reserv lat (Some r)) padded ->
          In a (regexp_reservations padded 1 r) ->
          Z.of_nat (length a) <= max_insn_reserv_cycles)
    /\ ((exists lat r a,
           In (dm_insn_reserv lat (Some r)) padded
           /\ In a (regexp_reservations padded 1 r)
           /\ Z.of_nat (length a) = max_insn_reserv_cycles)
        \/ ((forall lat r, ~ In (dm_insn_reserv lat r) padded)
            /\ max_insn_reserv_cycles = 1))
    /\ (forall lat r a cycle cycle_units unit,
          In (dm_insn_reserv lat (Some r)) padded ->
          In a (regexp_reservations padded 1 r) ->
          nth_error a cycle = Some cycle_units -> In unit cycle_units ->
          Z.of_nat cycle < max_insn_reserv_cycles)
    /\ Forall (fun u => max_occ_cycle_num u < max_insn_reserv_cycles) units_array'
    /\ let decls' := fst (add_advance_cycle_insn_decl padded) in
       let advance := snd (add_advance_cycle_insn_decl padded) in
       let values := max_insn_reserv_cycles :: latencies decls' 0 advance in
       (Forall (fun v => v < 2 ^ 30) values ->
        exists k, 0 <= k
          /\ output_max_insn_queue_index_def decls' advance max_insn_reserv_cycles
             = Some (2 ^ k - 1)
          /\ Forall (fun v => v <= 2 ^ k - 1) values
          /\ forall j, 0 <= j -> Forall (fun v => v <= 2 ^ j - 1) values -> k <= j).
Proof.
  apply (max_insn_queue_index_least padded [gen_cpu_unit None] 0 0 0).
  - intros lat r [E|[]]. injection E as <- <-. eexists. split; [reflexivity|].
    split; [cbn; repeat split; lia|]. intros d [].
  - intros d r Hr. unfold Loops.reserv_regexp in Hr.
    destruct d as [|[|d]]; discriminate.
  - repeat constructor.
Defined.

(** C9 as worded does not hold: the only reservation of the insn has
    the unit on cycle 0 and no unit on the cycles 1 and 2, so one past
    the last cycle on which a unit is reserved is 1 and [2^1 - 1] bounds
    it and the latency; the code counts the two [nothing] cycles, finds
    [max_insn_reserv_cycles = 3] and prints 3. *)
Lemma max_insn_queue_index_counts_nothing :
  regexp_reservations padded 1 (rm_sequence [rm_unit 0; rm_nothing; rm_nothing])
  = [[[0%nat]; []; []]]
  /\ evaluate_max_reserv_cycles 1 padded 0 0 [gen_cpu_unit None]
     = Some (3, [mk_unit_decl None false None 0 0 [] [] [] [] [] false])
  /\ output_max_insn_queue_index_def (fst (add_advance_cycle_insn_decl padded))
       (snd (add_advance_cycle_insn_decl padded)) 3 = Some 3
  /\ Forall (fun v => v <= 2 ^ 1 - 1)
       ((0 + 1) :: latencies (fst (add_advance_cycle_insn_decl padded)) 0
                     (snd (add_advance_cycle_insn_decl padded))).
Proof.
  split; [reflexivity|]. split; [reflexivity|]. split; [reflexivity|].
  cbn. repeat constructor; lia.
Qed.

End Cycles.

(** ** The regexp transformer *)

Module Transform.
Import IR.

(** What a call ends with: a value, [abort ()], or (in the embedding)
    the end of the fuel. *)
Inductive outcome (A : Type) : Type :=
| Done (a : A)
| Abort
| NoFuel.
Arguments Done {A} a.
Arguments Abort {A}.
Arguments NoFuel {A}.

Definition bind {A B : Type} (x : outcome A) (f : A -> outcome B) : outcome B :=
  match x with
  | Done a => f a
  | Abort => Abort
  | NoFuel => NoFuel
  end.

Notation "x <- e1 ;; e2" := (bind e1 (fun x => e2))
  (at level 61, e1 at next level, right associativity).

Section Traverse.
Context {A B : Type}.
Variable f : A -> outcome B.

(** A loop that fills the operands of a new node, left to right. *)
Fixpoint for_each (xs : list A) : outcome (list B) :=
  match xs with
  | [] => Done []
  | x :: xs' => y <- f x ;; ys <- for_each xs' ;; Done (y :: ys)
  end.
End Traverse.

Section Copy.

(** [description->decls] *)
Variable decls : list decl.

Section Deref.
(** The call on [reserv_decl->regexp]. *)
Variable deref : nat -> outcome regexp.

Fixpoint copy_regexp (r : regexp) : outcome regexp :=
  match r with
  | rm_reserv reserv_decl => deref reserv_decl
  | rm_unit u => Done (rm_unit u)
  | rm_repeat operand repeat_num =>
    operand' <- copy_regexp operand ;; Done (rm_repeat operand' repeat_num)
  | rm_sequence regexps =>
    regexps' <- for_each copy_regexp regexps ;; Done (rm_sequence regexps')
  | rm_allof regexps =>
    regexps' <- for_each copy_regexp regexps ;; Done (rm_allof regexps')
  | rm_oneof regexps =>
    regexps' <- for_each copy_regexp regexps ;; Done (rm_oneof regexps')
  | rm_nothing => Done rm_nothing
  end.
End Deref.

(** [copy_insn_regexp (regexp)]: a copy with every reservation replaced
    by its definition; [depth] bounds the nesting of the references. *)
Fixpoint copy_insn_regexp (depth : nat) (r : regexp) : outcome regexp :=
  match depth with
  | O => NoFuel
  | S depth' =>
    copy_regexp
      (fun reserv_decl =>
         match Loops.reserv_regexp decls reserv_decl with
         | Some r' => copy_insn_regexp depth' r'
         | None => Abort
         end)
      r
  end.

Variable depth : nat.

(** The first operand of a list that satisfies [p], with the operands
    before and after it: the loop [for (i = 0; ...) if (... mode == m)
    { index = i; ...; break; }]. *)
Fixpoint first_operand (p : regexp -> bool) (regexps : list regexp)
    : option (list regexp * regexp * list regexp) :=
  match regexps with
  | [] => None
  | r :: regexps' =>
    if p r then Some ([], r, regexps')
    else match first_operand p regexps' with
         | Some (before, x, after) => Some (r :: before, x, after)
         | None => None
         end
  end.

Definition is_sequence (r : regexp) : bool :=
  match r with rm_sequence _ => true | _ => false end.
Definition is_allof (r : regexp) : bool :=
  match r with rm_allof _ => true | _ => false end.
Definition is_oneof (r : regexp) : bool :=
  match r with rm_oneof _ => true | _ => false end.

Definition operands (r : regexp) : list regexp :=
  match r with
  | rm_sequence rs => rs
  | rm_allof rs => rs
  | rm_oneof rs => rs
  | _ => []
  end.

(** [transform_1]: [A*N -> A, A, ...]; the flag is
    [regexp_transformed_p]. *)
Definition transform_1 (r : regexp) (regexp_transformed_p : bool)
    : outcome (regexp * bool) :=
  match r with
  | rm_repeat operand repeat_num =>
    if repeat_num <=? 1 then Abort
    else
      regexps <- for_each (copy_insn_regexp depth)
                   (repeat operand (Z.to_nat repeat_num)) ;;
      Done (rm_sequence regexps, true)
  | _ => Done (r, regexp_transformed_p)
  end.

(** The three cases of [transform_2] share their code: the first
    operand of the node's own mode is replaced by its operands. *)
Definition flatten (is_mode : regexp -> bool) (node : list regexp -> regexp)
    (r : regexp) (regexps : list regexp) (regexp_transformed_p : bool)
    : outcome (regexp * bool) :=
  match first_operand is_mode regexps with
  | Some (before, inner, after) =>
    if (length (operands inner) <=? 1)%nat || (length regexps <=? 1)%nat then Abort
    else
      result <- for_each (copy_insn_regexp depth) (before ++ operands inner ++ after) ;;
      Done (node result, true)
  | None => Done (r, regexp_transformed_p)
  end.

(** [transform_2]: [...,(A,B,...),C,... -> ...,A,B,...,C,...] and the
    same for [+] and [|]. *)
Definition transform_2 (r : regexp) (regexp_transformed_p : bool)
    : outcome (regexp * bool) :=
  match r with
  | rm_sequence regexps => flatten is_sequence rm_sequence r regexps regexp_transformed_p
  | rm_allof regexps => flatten is_allof rm_allof r regexps regexp_transformed_p
  | rm_oneof regexps => flatten is_oneof rm_oneof r regexps regexp_transformed_p
  | _ => Done (r, regexp_transformed_p)
  end.

(** The first loop of the [rm_allof] case of [transform_3] after the
    alternatives are lifted: the longest sequence among the operands,
    or 0 at the first operand that is no sequence, unit or nothing. *)
Fixpoint max_seq_length_loop (regexps : list regexp) (max_seq_length : nat) : nat :=
  match regexps with
  | [] => max_seq_length
  | rm_sequence seq :: regexps' =>
    max_seq_length_loop regexps'
      (if (max_seq_length <? length seq)%nat then length seq else max_seq_length)
  | rm_unit _ :: regexps' => max_seq_length_loop regexps' max_seq_length
  | rm_nothing :: regexps' => max_seq_length_loop regexps' max_seq_length
  | _ :: _ => 0%nat
  end.

(** The operands collected for cycle [i]: the [i]-th element of every
    sequence that has one, and for [i = 0] the units and [nothing]s. *)
Fixpoint cycle_operands (i : nat) (regexps : list regexp) : list regexp :=
  match regexps with
  | [] => []
  | rm_sequence seq :: regexps' =>
    if (i <? length seq)%nat
    then nth i seq rm_nothing :: cycle_operands i regexps'
    else cycle_operands i regexps'
  | rm_unit u :: regexps' =>
    if Nat.eqb i 0 then rm_unit u :: cycle_operands i regexps'
    else cycle_operands i regexps'
  | rm_nothing :: regexps' =>
    if Nat.eqb i 0 then rm_nothing :: cycle_operands i regexps'
    else cycle_operands i regexps'
  | _ :: regexps' => cycle_operands i regexps'
  end.

(** Element [i] of the resulting sequence: [allof_op] when
    [allof_length == 1], else a new allof. *)
Definition cycle_regexp (i : nat) (regexps : list regexp) : regexp :=
  match cycle_operands i regexps with
  | [allof_op] => allof_op
  | ops => rm_allof ops
  end.

(** The two cases of [transform_3] that lift [|] share their code. *)
Definition lift_oneof (node : list regexp -> regexp) (regexps : list regexp)
    : option (outcome (regexp * bool)) :=
  match first_operand is_oneof regexps with
  | Some (before, oneof, after) =>
    Some (if (length (operands oneof) <=? 1)%nat || (length regexps <=? 1)%nat
          then Abort
          else
            alternatives <-
              for_each (fun alternative =>
                          ops <- for_each (copy_insn_regexp depth)
                                   (before ++ alternative :: after) ;;
                          Done (node ops))
                       (operands oneof) ;;
            Done (rm_oneof alternatives, true))
  | None => None
  end.

(** [transform_3]: [|] is lifted out of [,] and [+]; an allof of
    sequences becomes a sequence of allofs. *)
Definition transform_3 (r : regexp) (regexp_transformed_p : bool)
    : outcome (regexp * bool) :=
  match r with
  | rm_sequence regexps =>
    match lift_oneof rm_sequence regexps with
    | Some result => result
    | None => Done (r, regexp_transformed_p)
    end
  | rm_allof regexps =>
    match lift_oneof rm_allof regexps with
    | Some result => result
    | None =>
      let max_seq_length := max_seq_length_loop regexps 0 in
      if negb (Nat.eqb max_seq_length 0) then
        if Nat.eqb max_seq_length 1 || (length regexps <=? 1)%nat then Abort
        else Done (rm_sequence
                     (map (fun i => cycle_regexp i regexps) (seq 0 max_seq_length)),
                   true)
      else Done (r, regexp_transformed_p)
    end
  | _ => Done (r, regexp_transformed_p)
  end.

Section Func.
Variable func : regexp -> bool -> outcome (regexp * bool).

(** The loops of [regexp_transform_func] over the operands. *)
Section Operands.
Variable transform : regexp -> bool -> outcome (regexp * bool).
Fixpoint transform_operands (regexps : list regexp) (regexp_transformed_p : bool)
    : outcome (list regexp * bool) :=
  match regexps with
  | [] => Done ([], regexp_transformed_p)
  | r :: regexps' =>
    r_p <- transform r regexp_transformed_p ;;
    rs_p <- transform_operands regexps' (snd r_p) ;;
    Done (fst r_p :: fst rs_p, snd rs_p)
  end.
End Operands.

(** [regexp_transform_func (regexp, func)] *)
Fixpoint regexp_transform_func (r : regexp) (regexp_transformed_p : bool)
    : outcome (regexp * bool) :=
  match r with
  | rm_sequence regexps =>
    rs_p <- transform_operands regexp_transform_func regexps regexp_transformed_p ;;
    func (rm_sequence (fst rs_p)) (snd rs_p)
  | rm_allof regexps =>
    rs_p <- transform_operands regexp_transform_func regexps regexp_transformed_p ;;
    func (rm_allof (fst rs_p)) (snd rs_p)
  | rm_oneof regexps =>
    rs_p <- transform_operands regexp_transform_func regexps regexp_transformed_p ;;
    func (rm_oneof (fst rs_p)) (snd rs_p)
  | rm_repeat operand repeat_num =>
    r_p <- regexp_transform_func operand regexp_transformed_p ;;
    func (rm_repeat (fst r_p) repeat_num) (snd r_p)
  | rm_nothing => func r regexp_transformed_p
  | rm_unit _ => func r regexp_transformed_p
  | rm_reserv _ => Abort
  end.
End Func.

(** The [do ... while (regexp_transformed_p)] of [transform_regexp]. *)
Fixpoint transform_loop (fuel : nat) (r : regexp) : outcome regexp :=
  match fuel with
  | O => NoFuel
  | S fuel' =>
    r_p <- regexp_transform_func transform_2 r false ;;
    r_p' <- regexp_transform_func transform_3 (fst r_p) (snd r_p) ;;
    if snd r_p' then transform_loop fuel' (fst r_p') else Done (fst r_p')
  end.

(** [transform_regexp (regexp)] *)
Definition transform_regexp (fuel : nat) (r : regexp) (regexp_transformed_p : bool)
    : outcome regexp :=
  r_p <- regexp_transform_func transform_1 r regexp_transformed_p ;;
  transform_loop fuel (fst r_p).

(** The body of the loop of [transform_insn_regexps]:
    [transform_regexp (copy_insn_regexp (regexp))]. *)
Definition transformed_regexp (fuel : nat) (r : regexp) : outcome regexp :=
  r' <- copy_insn_regexp depth r ;; transform_regexp fuel r' false.

End Copy.

(** *** The canonical shape *)

Definition leaf (r : regexp) : Prop :=
  match r with rm_unit _ => True | rm_nothing => True | _ => False end.

(** A unit, [nothing], or an allof of them. *)
Definition flat_allof (r : regexp) : Prop :=
  match r with
  | rm_allof rs => Forall leaf rs
  | _ => leaf r
  end.

(** A [flat_allof] or a sequence of them. *)
Definition flat_sequence (r : regexp) : Prop :=
  match r with
  | rm_sequence rs => Forall flat_allof rs
  | _ => flat_allof r
  end.

(** [oneof (sequence (allof (unit | nothing ...) ...) ...)], each level
    possibly absent. *)
Definition canonical (r : regexp) : Prop :=
  match r with
  | rm_oneof rs => Forall flat_sequence rs
  | _ => flat_sequence r
  end.

(** No [rm_reserv] and no [rm_repeat] in [r]; no [rm_oneof] either when
    [inside] (below a sequence or an allof). *)
Fixpoint lifted (inside : bool) (r : regexp) : bool :=
  match r with
  | rm_unit _ => true
  | rm_nothing => true
  | rm_reserv _ => false
  | rm_repeat _ _ => false
  | rm_sequence rs => forallb (lifted true) rs
  | rm_allof rs => forallb (lifted true) rs
  | rm_oneof rs => negb inside && forallb (lifted inside) rs
  end.


(** *** Invariants of the transformer *)

(** No [rm_reserv]; every sequence, allof and oneof has at least two
    operands; [rm_repeat] only when [repeats]. *)
Fixpoint shape (repeats : bool) (r : regexp) : bool :=
  match r with
  | rm_unit _ => true
  | rm_nothing => true
  | rm_reserv _ => false
  | rm_repeat r' _ => repeats && shape repeats r'
  | rm_sequence rs => (2 <=? length rs)%nat && forallb (shape repeats) rs
  | rm_allof rs => (2 <=? length rs)%nat && forallb (shape repeats) rs
  | rm_oneof rs => (2 <=? length rs)%nat && forallb (shape repeats) rs
  end.

Abbreviation plain := (shape false).

Lemma bind_done {A B : Type} (x : outcome A) (f : A -> outcome B) (b : B) :
  bind x f = Done b -> exists a, x = Done a /\ f a = Done b.
Proof. destruct x; cbn; try discriminate. intros H. exists a. split; [reflexivity | exact H]. Qed.

Ltac bind_inv E x Ex :=
  apply bind_done in E; destruct E as (x & Ex & E); cbn beta in E.

Lemma for_each_done {A B : Type} (f : A -> outcome B) (Q : B -> Prop) (xs : list A) :
  Forall (fun x => forall y, f x = Done y -> Q y) xs ->
  forall ys, for_each f xs = Done ys -> Forall Q ys /\ length ys = length xs.
Proof.
  induction 1 as [|x xs Hx _ IH]; intros ys E; cbn in E.
  - injection E as <-. split; [constructor | reflexivity].
  - bind_inv E y Ey.
    bind_inv E ys' Eys. injection E as <-.
    destruct (IH ys' Eys). split; [constructor; auto | cbn; congruence].
Qed.

Lemma for_each_id {A : Type} (f : A -> outcome A) (xs : list A) :
  Forall (fun x => f x = Done x) xs -> for_each f xs = Done xs.
Proof.
  induction 1 as [|x xs Hx _ IH]; cbn; [reflexivity|]. rewrite Hx. cbn. rewrite IH. reflexivity.
Qed.

Section Invariants.

Variable decls : list decl.

Hypothesis reservations_parsed :
  forall d r, Loops.reserv_regexp decls d = Some r -> Cycles.parsed r.

(** A copy of a parsed regexp holds no reservation. *)
Lemma copy_regexp_shape (deref : nat -> outcome regexp) (r : regexp) :
  (forall d r', deref d = Done r' -> shape true r' = true) ->
  Cycles.parsed r -> forall r', copy_regexp deref r = Done r' -> shape true r' = true.
Proof.
  intros Hd.
  induction r as [u | d | | rs IH | r n IH | rs IH | rs IH] using regexp_rect';
    intros Hp r' E; cbn [copy_regexp] in E.
  - injection E as <-. reflexivity.
  - eapply Hd. eassumption.
  - injection E as <-. reflexivity.
  - bind_inv E rs' Ers. injection E as <-.
    cbn [Cycles.parsed] in Hp. destruct Hp as [Hlen Hall]. apply Cycles.parsed_all in Hall.
    destruct (for_each_done (copy_regexp deref) (fun y => shape true y = true) rs) with (ys := rs')
      as [Hall' Hlen']; [|assumption|].
    { rewrite Forall_forall in *. intros x Hx y Ey. apply (IH x Hx); auto. }
    cbn [shape]. apply andb_true_iff. split; [apply Nat.leb_le; lia|].
    apply forallb_forall. rewrite Forall_forall in Hall'. assumption.
  - bind_inv E r0 Er. injection E as <-.
    cbn [Cycles.parsed] in Hp. destruct Hp as [Hn Hpr].
    cbn [shape]. cbn [andb]. apply (IH Hpr). assumption.
  - bind_inv E rs' Ers. injection E as <-.
    cbn [Cycles.parsed] in Hp. destruct Hp as [Hlen Hall]. apply Cycles.parsed_all in Hall.
    destruct (for_each_done (copy_regexp deref) (fun y => shape true y = true) rs) with (ys := rs')
      as [Hall' Hlen']; [|assumption|].
    { rewrite Forall_forall in *. intros x Hx y Ey. apply (IH x Hx); auto. }
    cbn [shape]. apply andb_true_iff. split; [apply Nat.leb_le; lia|].
    apply forallb_forall. rewrite Forall_forall in Hall'. assumption.
  - bind_inv E rs' Ers. injection E as <-.
    cbn [Cycles.parsed] in Hp. destruct Hp as [Hlen Hall]. apply Cycles.parsed_all in Hall.
    destruct (for_each_done (copy_regexp deref) (fun y => shape true y = true) rs) with (ys := rs')
      as [Hall' Hlen']; [|assumption|].
    { rewrite Forall_forall in *. intros x Hx y Ey. apply (IH x Hx); auto. }
    cbn [shape]. apply andb_true_iff. split; [apply Nat.leb_le; lia|].
    apply forallb_forall. rewrite Forall_forall in Hall'. assumption.
Qed.

Lemma copy_insn_regexp_shape (depth : nat) :
  forall r, Cycles.parsed r ->
  forall r', copy_insn_regexp decls depth r = Done r' -> shape true r' = true.
Proof.
  induction depth as [|depth IH]; intros r Hp r' E; cbn [copy_insn_regexp] in E;
    [discriminate|].
  eapply copy_regexp_shape; [|exact Hp|exact E].
  intros d r0 Ed. cbn beta in Ed.
  destruct (Loops.reserv_regexp decls d) as [rd|] eqn:Erd; [|discriminate].
  eapply IH; [|exact Ed]. eapply reservations_parsed. eassumption.
Qed.

(** A regexp without reservations is its own copy. *)
Lemma copy_regexp_id (deref : nat -> outcome regexp) (b : bool) (r : regexp) :
  shape b r = true -> copy_regexp deref r = Done r.
Proof.
  induction r as [u | d | | rs IH | r n IH | rs IH | rs IH] using regexp_rect';
    intros Hs; cbn [copy_regexp shape] in *; try reflexivity; try discriminate.
  - apply andb_true_iff in Hs. destruct Hs as [_ Hs]. rewrite forallb_forall in Hs.
    rewrite for_each_id; [reflexivity|].
    rewrite Forall_forall in *. intros x Hx. apply (IH x Hx). auto.
  - apply andb_true_iff in Hs. destruct Hs as [_ Hs]. rewrite (IH Hs). reflexivity.
  - apply andb_true_iff in Hs. destruct Hs as [_ Hs]. rewrite forallb_forall in Hs.
    rewrite for_each_id; [reflexivity|].
    rewrite Forall_forall in *. intros x Hx. apply (IH x Hx). auto.
  - apply andb_true_iff in Hs. destruct Hs as [_ Hs]. rewrite forallb_forall in Hs.
    rewrite for_each_id; [reflexivity|].
    rewrite Forall_forall in *. intros x Hx. apply (IH x Hx). auto.
Qed.

Lemma copy_insn_regexp_id (depth : nat) (b : bool) (r : regexp) :
  shape b r = true -> copy_insn_regexp decls (S depth) r = Done r.
Proof. intros Hs. cbn [copy_insn_regexp]. eapply copy_regexp_id. eassumption. Qed.

Lemma copies_id (depth : nat) (b : bool) (rs : list regexp) :
  forallb (shape b) rs = true ->
  for_each (copy_insn_regexp decls (S depth)) rs = Done rs.
Proof.
  intros Hs. apply for_each_id. apply Forall_forall. intros x Hx.
  rewrite forallb_forall in Hs. eapply copy_insn_regexp_id. apply Hs. assumption.
Qed.

End Invariants.


(** *** Where the rules apply *)

(** [transform_2] changes the node. *)
Definition fires_2 (r : regexp) : bool :=
  match r with
  | rm_sequence rs => existsb is_sequence rs
  | rm_allof rs => existsb is_allof rs
  | rm_oneof rs => existsb is_oneof rs
  | _ => false
  end.

(** [transform_3] changes the node. *)
Definition fires_3 (r : regexp) : bool :=
  match r with
  | rm_sequence rs => existsb is_oneof rs
  | rm_allof rs => existsb is_oneof rs || negb (Nat.eqb (max_seq_length_loop rs 0) 0)
  | _ => false
  end.

(** [q] holds of every node of [r]. *)
Fixpoint everywhere (q : regexp -> bool) (r : regexp) : bool :=
  q r && match r with
         | rm_sequence rs => forallb (everywhere q) rs
         | rm_allof rs => forallb (everywhere q) rs
         | rm_oneof rs => forallb (everywhere q) rs
         | rm_repeat r' _ => everywhere q r'
         | _ => true
         end.

Lemma first_operand_none (p : regexp -> bool) (rs : list regexp) :
  first_operand p rs = None <-> existsb p rs = false.
Proof.
  induction rs as [|r rs IH]; cbn; [tauto|].
  destruct (p r); cbn; [split; discriminate|].
  destruct (first_operand p rs) as [[[b x] a]|].
  - split; [discriminate|]. intros H. apply IH in H. discriminate.
  - split; [intros _; apply IH; reflexivity | reflexivity].
Qed.

Lemma first_operand_some (p : regexp -> bool) (rs : list regexp) before x after :
  first_operand p rs = Some (before, x, after) ->
  rs = before ++ x :: after /\ p x = true.
Proof.
  revert before. induction rs as [|r rs IH]; intros before E; cbn in E; [discriminate|].
  destruct (p r) eqn:Hp.
  - injection E as <- <- <-. split; [reflexivity | assumption].
  - destruct (first_operand p rs) as [[[b y] a]|]; [|discriminate].
    injection E as <- <- <-. destruct (IH b eq_refl) as [-> Hx].
    split; [reflexivity | assumption].
Qed.

Lemma first_operand_fires (p : regexp -> bool) (rs : list regexp) before x after :
  first_operand p rs = Some (before, x, after) -> existsb p rs = true.
Proof.
  intros E. destruct (existsb p rs) eqn:Ex; [reflexivity|].
  apply first_operand_none in Ex. congruence.
Qed.

Lemma transform_operands_done (tr : regexp -> bool -> outcome (regexp * bool))
    (Q : regexp -> Prop) (rs : list regexp) :
  Forall (fun r => forall f r' f', tr r f = Done (r', f') -> Q r') rs ->
  forall f rs' f', transform_operands tr rs f = Done (rs', f') ->
  Forall Q rs' /\ length rs' = length rs.
Proof.
  induction 1 as [|r rs Hr _ IH]; intros f rs' f' E; cbn in E.
  - injection E as <- <-. split; [constructor | reflexivity].
  - bind_inv E r_p Er. bind_inv E rs_p Ers. injection E as <- <-.
    destruct r_p as [r1 f1], rs_p as [rs1 f2]. cbn [fst snd] in *.
    destruct (IH _ _ _ Ers). split; [constructor; eauto | cbn; congruence].
Qed.

Lemma transform_operands_stable (tr : regexp -> bool -> outcome (regexp * bool))
    (S : regexp -> Prop) (rs : list regexp) :
  Forall (fun r => forall f r' f', tr r f = Done (r', f') ->
            (f = true -> f' = true) /\ (f' = false -> r' = r /\ S r)) rs ->
  forall f rs' f', transform_operands tr rs f = Done (rs', f') ->
  (f = true -> f' = true) /\ (f' = false -> rs' = rs /\ Forall S rs).
Proof.
  induction 1 as [|r rs Hr _ IH]; intros f rs' f' E; cbn in E.
  - injection E as <- <-. split; [auto|]. intros _. split; [reflexivity | constructor].
  - bind_inv E r_p Er. bind_inv E rs_p Ers. injection E as <- <-.
    destruct r_p as [r1 f1], rs_p as [rs1 f2]. cbn [fst snd] in *.
    destruct (Hr _ _ _ Er) as [Hmono1 Hst1]. destruct (IH _ _ _ Ers) as [Hmono2 Hst2].
    split; [auto|]. intros Hf2. destruct (Hst2 Hf2) as [-> Hall].
    assert (f1 = false) as Hf1 by (destruct f1; [rewrite Hmono2 in Hf2 by reflexivity; discriminate | reflexivity]).
    destruct (Hst1 Hf1) as [-> Hs]. split; [reflexivity | constructor; assumption].
Qed.

Section Preservation.

Variable decls : list decl.
Variable depth : nat.

Lemma forallb_app_true {A : Type} (q : A -> bool) (xs ys : list A) :
  forallb q (xs ++ ys) = true <-> forallb q xs = true /\ forallb q ys = true.
Proof. rewrite forallb_app. apply andb_true_iff. Qed.

Lemma plain_operands (r : regexp) :
  plain r = true -> forallb plain (operands r) = true.
Proof.
  destruct r; cbn; try reflexivity; intros H; apply andb_true_iff in H; tauto.
Qed.

Lemma flatten_plain (is_mode : regexp -> bool) (node : list regexp -> regexp)
    (r : regexp) (rs : list regexp) (f : bool) r' f' :
  (forall ops, plain (node ops) = (2 <=? length ops)%nat && forallb plain ops) ->
  plain r = true -> forallb plain rs = true ->
  flatten decls (S depth) is_mode node r rs f = Done (r', f') -> plain r' = true.
Proof.
  intros Hnode Hr Hrs E. unfold flatten in E.
  destruct (first_operand is_mode rs) as [[[before inner] after]|] eqn:Ef.
  - apply first_operand_some in Ef. destruct Ef as [-> Hinner].
    destruct ((length (operands inner) <=? 1)%nat
              || (length (before ++ inner :: after) <=? 1)%nat) eqn:Hlen; [discriminate|].
    apply orb_false_iff in Hlen. destruct Hlen as [Hl1 Hl2].
    apply Nat.leb_gt in Hl1. apply Nat.leb_gt in Hl2.
    apply forallb_app_true in Hrs. destruct Hrs as [Hb Hia]. cbn [forallb] in Hia.
    apply andb_true_iff in Hia. destruct Hia as [Hi Ha].
    assert (forallb plain (before ++ operands inner ++ after) = true) as Hall.
    { apply forallb_app_true. split; [assumption|]. apply forallb_app_true.
      split; [apply plain_operands|]; assumption. }
    rewrite (copies_id decls depth false _ Hall) in E. cbn in E.
    injection E as <- <-. rewrite Hnode, Hall, andb_true_r.
    apply Nat.leb_le. rewrite !length_app. lia.
  - injection E as <- <-. assumption.
Qed.

Lemma transform_2_plain (r : regexp) (f : bool) r' f' :
  plain r = true -> transform_2 decls (S depth) r f = Done (r', f') -> plain r' = true.
Proof.
  intros Hr E. destruct r; cbn [transform_2] in E; try (injection E as <- <-; assumption).
  - eapply flatten_plain; [| exact Hr | | exact E]; [reflexivity|].
    cbn in Hr. apply andb_true_iff in Hr. tauto.
  - eapply flatten_plain; [| exact Hr | | exact E]; [reflexivity|].
    cbn in Hr. apply andb_true_iff in Hr. tauto.
  - eapply flatten_plain; [| exact Hr | | exact E]; [reflexivity|].
    cbn in Hr. apply andb_true_iff in Hr. tauto.
Qed.

Lemma lift_oneof_plain (node : list regexp -> regexp) (rs : list regexp) res r' f' :
  (forall ops, plain (node ops) = (2 <=? length ops)%nat && forallb plain ops) ->
  forallb plain rs = true ->
  lift_oneof decls (S depth) node rs = Some res -> res = Done (r', f') ->
  plain r' = true.
Proof.
  intros Hnode Hrs El E. unfold lift_oneof in El.
  destruct (first_operand is_oneof rs) as [[[before oneof] after]|] eqn:Ef; [|discriminate].
  injection El as <-.
  apply first_operand_some in Ef. destruct Ef as [-> Honeof].
  destruct ((length (operands oneof) <=? 1)%nat
            || (length (before ++ oneof :: after) <=? 1)%nat) eqn:Hlen; [discriminate|].
  apply orb_false_iff in Hlen. destruct Hlen as [Hl1 Hl2].
  apply Nat.leb_gt in Hl1. apply Nat.leb_gt in Hl2.
  apply forallb_app_true in Hrs. destruct Hrs as [Hb Hoa]. cbn [forallb] in Hoa.
  apply andb_true_iff in Hoa. destruct Hoa as [Ho Ha].
  bind_inv E alts Ealts. injection E as <- <-.
  destruct (for_each_done
              (fun alternative =>
                 ops <- for_each (copy_insn_regexp decls (S depth))
                          (before ++ alternative :: after) ;;
                 Done (node ops))
              (fun y => plain y = true) (operands oneof)) with (ys := alts)
    as [Hall Hlen]; [|assumption|].
  { apply Forall_forall. intros alt Halt y Ey.
    assert (plain alt = true) as Hpa.
    { apply plain_operands in Ho. rewrite forallb_forall in Ho. auto. }
    assert (forallb plain (before ++ alt :: after) = true) as Hops.
    { apply forallb_app_true. split; [assumption|]. cbn. rewrite Hpa, Ha. reflexivity. }
    rewrite (copies_id decls depth false _ Hops) in Ey. cbn in Ey. injection Ey as <-.
    rewrite Hnode, Hops, andb_true_r. apply Nat.leb_le.
    rewrite length_app in *. cbn [length] in *. lia. }
  cbn [shape]. apply andb_true_iff. split; [apply Nat.leb_le; lia|].
  apply forallb_forall. rewrite Forall_forall in Hall. assumption.
Qed.

Lemma cycle_operands_plain (i : nat) (rs : list regexp) :
  forallb plain rs = true -> forallb plain (cycle_operands i rs) = true.
Proof.
  induction rs as [|r rs IH]; intros H; [reflexivity|].
  cbn [forallb] in H. apply andb_true_iff in H. destruct H as [Hr Hrs].
  specialize (IH Hrs).
  destruct r; cbn [cycle_operands]; try assumption.
  - destruct (Nat.eqb i 0); [cbn; assumption | assumption].
  - destruct (Nat.eqb i 0); [cbn; assumption | assumption].
  - destruct (Nat.ltb_spec i (length regexps)); [|assumption].
    cbn [forallb]. rewrite IH, andb_true_r.
    cbn in Hr. apply andb_true_iff in Hr. destruct Hr as [_ Hr].
    rewrite forallb_forall in Hr. apply Hr. apply nth_In. assumption.
Qed.

Lemma cycle_operands_nonempty (i : nat) (rs : list regexp) :
  forall acc, (i < max_seq_length_loop rs acc)%nat ->
  (i < acc)%nat \/ cycle_operands i rs <> [].
Proof.
  induction rs as [|r rs IH]; intros acc H; cbn [max_seq_length_loop] in H; [left; assumption|].
  destruct r; cbn [cycle_operands]; try lia.
  - destruct (IH _ H) as [Hacc|Hne]; [left; assumption|].
    right. destruct (Nat.eqb i 0); [discriminate | assumption].
  - destruct (IH _ H) as [Hacc|Hne]; [left; assumption|].
    right. destruct (Nat.eqb i 0); [discriminate | assumption].
  - destruct (IH _ H) as [Hacc|Hne].
    + destruct (Nat.ltb_spec acc (length regexps)).
      * right. destruct (Nat.ltb_spec i (length regexps)); [discriminate | lia].
      * left. assumption.
    + right. destruct (Nat.ltb_spec i (length regexps)); [discriminate | assumption].
Qed.

Lemma transform_3_plain (r : regexp) (f : bool) r' f' :
  plain r = true -> transform_3 decls (S depth) r f = Done (r', f') -> plain r' = true.
Proof.
  intros Hr E. destruct r; cbn [transform_3] in E; try (injection E as <- <-; assumption).
  - destruct (lift_oneof decls (S depth) rm_sequence regexps) as [res|] eqn:El.
    + eapply lift_oneof_plain; [| | exact El | exact E]; [reflexivity|].
      cbn in Hr. apply andb_true_iff in Hr. tauto.
    + injection E as <- <-. assumption.
  - destruct (lift_oneof decls (S depth) rm_allof regexps) as [res|] eqn:El.
    + eapply lift_oneof_plain; [| | exact El | exact E]; [reflexivity|].
      cbn in Hr. apply andb_true_iff in Hr. tauto.
    + destruct (Nat.eqb_spec (max_seq_length_loop regexps 0) 0) as [H0|H0]; cbn [negb] in E;
        [injection E as <- <-; assumption|].
      destruct (Nat.eqb_spec (max_seq_length_loop regexps 0) 1) as [H1|H1]; cbn [orb] in E;
        [discriminate|].
      destruct (length regexps <=? 1)%nat; [discriminate|].
      injection E as <- <-. cbn [shape].
      assert (forallb plain regexps = true) as Hrs
        by (cbn in Hr; apply andb_true_iff in Hr; tauto).
      apply andb_true_iff. split.
      * apply Nat.leb_le. rewrite length_map, length_seq. lia.
      * apply forallb_forall. intros x Hx. apply in_map_iff in Hx.
        destruct Hx as (i & <- & Hi). apply in_seq in Hi.
        pose proof (cycle_operands_plain i regexps Hrs) as Hcol.
        destruct (cycle_operands_nonempty i regexps 0 ltac:(lia)) as [Hlt|Hne]; [lia|].
        unfold cycle_regexp.
        destruct (cycle_operands i regexps) as [|x [|y ops]]; [congruence| |].
        -- cbn in Hcol. apply andb_true_iff in Hcol. tauto.
        -- cbn [shape]. rewrite Hcol. reflexivity.
Qed.

Lemma regexp_transform_func_plain (func : regexp -> bool -> outcome (regexp * bool)) :
  (forall r f r' f', plain r = true -> func r f = Done (r', f') -> plain r' = true) ->
  forall r f r' f', plain r = true ->
  regexp_transform_func func r f = Done (r', f') -> plain r' = true.
Proof.
  intros Hfunc r.
  induction r as [u | d | | rs IH | r n IH | rs IH | rs IH] using regexp_rect';
    intros f r' f' Hr E; cbn [regexp_transform_func] in E; try discriminate;
    try (eapply Hfunc; eassumption).
  - bind_inv E rs_p Ers. destruct rs_p as [rs1 f1]. cbn [fst snd] in E.
    cbn [shape] in Hr. apply andb_true_iff in Hr. destruct Hr as [Hlen Hall].
    rewrite forallb_forall in Hall.
    destruct (transform_operands_done (regexp_transform_func func)
                (fun y => plain y = true) rs) with (f := f) (rs' := rs1) (f' := f1)
      as [Hall1 Hlen1]; [|assumption|].
    { rewrite Forall_forall in *. intros x Hx g x' g' Ex. eapply (IH x Hx); eauto. }
    eapply Hfunc; [|exact E]. cbn [shape]. rewrite Hlen1, Hlen.
    apply forallb_forall. rewrite Forall_forall in Hall1. assumption.
  - bind_inv E rs_p Ers. destruct rs_p as [rs1 f1]. cbn [fst snd] in E.
    cbn [shape] in Hr. apply andb_true_iff in Hr. destruct Hr as [Hlen Hall].
    rewrite forallb_forall in Hall.
    destruct (transform_operands_done (regexp_transform_func func)
                (fun y => plain y = true) rs) with (f := f) (rs' := rs1) (f' := f1)
      as [Hall1 Hlen1]; [|assumption|].
    { rewrite Forall_forall in *. intros x Hx g x' g' Ex. eapply (IH x Hx); eauto. }
    eapply Hfunc; [|exact E]. cbn [shape]. rewrite Hlen1, Hlen.
    apply forallb_forall. rewrite Forall_forall in Hall1. assumption.
  - bind_inv E rs_p Ers. destruct rs_p as [rs1 f1]. cbn [fst snd] in E.
    cbn [shape] in Hr. apply andb_true_iff in Hr. destruct Hr as [Hlen Hall].
    rewrite forallb_forall in Hall.
    destruct (transform_operands_done (regexp_transform_func func)
                (fun y => plain y = true) rs) with (f := f) (rs' := rs1) (f' := f1)
      as [Hall1 Hlen1]; [|assumption|].
    { rewrite Forall_forall in *. intros x Hx g x' g' Ex. eapply (IH x Hx); eauto. }
    eapply Hfunc; [|exact E]. cbn [shape]. rewrite Hlen1, Hlen.
    apply forallb_forall. rewrite Forall_forall in Hall1. assumption.
Qed.

(** After [transform_1] no repetition is left. *)
Lemma regexp_transform_func_1_plain (r : regexp) :
  forall f r' f', shape true r = true ->
  regexp_transform_func (transform_1 decls (S depth)) r f = Done (r', f') ->
  plain r' = true.
Proof.
  induction r as [u | d | | rs IH | r n IH | rs IH | rs IH] using regexp_rect';
    intros f r' f' Hr E; cbn [regexp_transform_func transform_1] in E; try discriminate;
    try (injection E as <- <-; reflexivity).
  - bind_inv E rs_p Ers. destruct rs_p as [rs1 f1]. cbn [fst snd] in E.
    injection E as <- <-.
    cbn [shape] in Hr. apply andb_true_iff in Hr. destruct Hr as [Hlen Hall].
    rewrite forallb_forall in Hall.
    destruct (transform_operands_done (regexp_transform_func (transform_1 decls (S depth)))
                (fun y => plain y = true) rs) with (f := f) (rs' := rs1) (f' := f1)
      as [Hall1 Hlen1]; [|assumption|].
    { rewrite Forall_forall in *. intros x Hx g x' g' Ex. eapply (IH x Hx); eauto. }
    cbn [shape]. rewrite Hlen1, Hlen.
    apply forallb_forall. rewrite Forall_forall in Hall1. assumption.
  - bind_inv E r_p Er. destruct r_p as [r1 f1]. cbn [fst snd] in E.
    cbn [shape] in Hr. cbn [andb] in Hr.
    pose proof (IH _ _ _ Hr Er) as Hr1.
    destruct (Z.leb_spec n 1); [discriminate|].
    assert (forallb plain (repeat r1 (Z.to_nat n)) = true) as Hall.
    { apply forallb_forall. intros x Hx. apply repeat_spec in Hx. subst. assumption. }
    rewrite (copies_id decls depth false _ Hall) in E. cbn in E. injection E as <- <-.
    cbn [shape]. rewrite Hall, andb_true_r. apply Nat.leb_le. rewrite repeat_length. lia.
  - bind_inv E rs_p Ers. destruct rs_p as [rs1 f1]. cbn [fst snd] in E.
    injection E as <- <-.
    cbn [shape] in Hr. apply andb_true_iff in Hr. destruct Hr as [Hlen Hall].
    rewrite forallb_forall in Hall.
    destruct (transform_operands_done (regexp_transform_func (transform_1 decls (S depth)))
                (fun y => plain y = true) rs) with (f := f) (rs' := rs1) (f' := f1)
      as [Hall1 Hlen1]; [|assumption|].
    { rewrite Forall_forall in *. intros x Hx g x' g' Ex. eapply (IH x Hx); eauto. }
    cbn [shape]. rewrite Hlen1, Hlen.
    apply forallb_forall. rewrite Forall_forall in Hall1. assumption.
  - bind_inv E rs_p Ers. destruct rs_p as [rs1 f1]. cbn [fst snd] in E.
    injection E as <- <-.
    cbn [shape] in Hr. apply andb_true_iff in Hr. destruct Hr as [Hlen Hall].
    rewrite forallb_forall in Hall.
    destruct (transform_operands_done (regexp_transform_func (transform_1 decls (S depth)))
                (fun y => plain y = true) rs) with (f := f) (rs' := rs1) (f' := f1)
      as [Hall1 Hlen1]; [|assumption|].
    { rewrite Forall_forall in *. intros x Hx g x' g' Ex. eapply (IH x Hx); eauto. }
    cbn [shape]. rewrite Hlen1, Hlen.
    apply forallb_forall. rewrite Forall_forall in Hall1. assumption.
Qed.

End Preservation.


(** *** The fixed point *)

Section FixedPoint.

Variable decls : list decl.
Variable depth : nat.

Lemma flatten_fires (is_mode : regexp -> bool) (node : list regexp -> regexp)
    (r : regexp) (rs : list regexp) (f : bool) r' f' :
  flatten decls depth is_mode node r rs f = Done (r', f') ->
  (existsb is_mode rs = false -> r' = r /\ f' = f)
  /\ (existsb is_mode rs = true -> f' = true).
Proof.
  unfold flatten. intros E.
  destruct (first_operand is_mode rs) as [[[before inner] after]|] eqn:Ef.
  - rewrite (first_operand_fires _ _ _ _ _ Ef).
    split; [discriminate|]. intros _.
    destruct (_ || _); [discriminate|]. bind_inv E res Eres. injection E as <- <-. reflexivity.
  - apply first_operand_none in Ef. rewrite Ef. injection E as <- <-.
    split; [auto | discriminate].
Qed.

Lemma transform_2_fires (r : regexp) (f : bool) r' f' :
  transform_2 decls depth r f = Done (r', f') ->
  (fires_2 r = false -> r' = r /\ f' = f) /\ (fires_2 r = true -> f' = true).
Proof.
  destruct r; cbn [transform_2 fires_2]; intros E;
    try (injection E as <- <-; split; [auto | discriminate]);
    eapply flatten_fires; eassumption.
Qed.

Lemma lift_oneof_fires (node : list regexp -> regexp) (rs : list regexp) :
  match lift_oneof decls depth node rs with
  | Some res => existsb is_oneof rs = true
                /\ forall r' f', res = Done (r', f') -> f' = true
  | None => existsb is_oneof rs = false
  end.
Proof.
  unfold lift_oneof.
  destruct (first_operand is_oneof rs) as [[[before oneof] after]|] eqn:Ef.
  - split; [eapply first_operand_fires; eassumption|]. intros r' f' E.
    destruct (_ || _); [discriminate|]. bind_inv E res Eres. injection E as <- <-. reflexivity.
  - apply first_operand_none. assumption.
Qed.

Lemma transform_3_fires (r : regexp) (f : bool) r' f' :
  transform_3 decls depth r f = Done (r', f') ->
  (fires_3 r = false -> r' = r /\ f' = f) /\ (fires_3 r = true -> f' = true).
Proof.
  destruct r; cbn [transform_3 fires_3]; intros E;
    try (injection E as <- <-; split; [auto | discriminate]).
  - pose proof (lift_oneof_fires rm_sequence regexps) as Hl.
    destruct (lift_oneof decls depth rm_sequence regexps) as [res|].
    + destruct Hl as [Hex Hf]. rewrite Hex. split; [discriminate | eauto].
    + rewrite Hl. injection E as <- <-. split; [auto | discriminate].
  - pose proof (lift_oneof_fires rm_allof regexps) as Hl.
    destruct (lift_oneof decls depth rm_allof regexps) as [res|].
    + destruct Hl as [Hex Hf]. rewrite Hex. split; [discriminate | eauto].
    + rewrite Hl. cbn [orb].
      destruct (negb (Nat.eqb (max_seq_length_loop regexps 0) 0)).
      * split; [discriminate|]. intros _.
        destruct (_ || _); [discriminate|]. injection E as <- <-. reflexivity.
      * injection E as <- <-. split; [auto | discriminate].
Qed.

Lemma regexp_transform_func_stable
    (func : regexp -> bool -> outcome (regexp * bool)) (fires : regexp -> bool) :
  (forall r f r' f', func r f = Done (r', f') ->
     (fires r = false -> r' = r /\ f' = f) /\ (fires r = true -> f' = true)) ->
  forall r f r' f', regexp_transform_func func r f = Done (r', f') ->
  (f = true -> f' = true)
  /\ (f' = false -> r' = r /\ everywhere (fun x => negb (fires x)) r = true).
Proof.
  intros Hfunc.
  assert (forall node rs rs1 f f1 r' f',
             ((f = true -> f1 = true)
              /\ (f1 = false -> rs1 = rs
                  /\ Forall (fun x => everywhere (fun x => negb (fires x)) x = true) rs)) ->
             func (node rs1) f1 = Done (r', f') ->
             (f = true -> f' = true)
             /\ (f' = false -> r' = node rs /\ negb (fires (node rs)) = true
                 /\ forallb (everywhere (fun x => negb (fires x))) rs = true)) as Hnode.
  { intros node rs rs1 f f1 r' f' [Hmono Hst] E.
    destruct (Hfunc _ _ _ _ E) as [Hno Hyes].
    destruct (fires (node rs1)) eqn:Hf.
    - rewrite (Hyes eq_refl). split; [reflexivity | discriminate].
    - destruct (Hno eq_refl) as [-> ->]. split; [assumption|].
      intros Hf1. destruct (Hst Hf1) as [-> Hall].
      split; [reflexivity|]. rewrite Hf. split; [reflexivity|].
      apply forallb_forall. rewrite Forall_forall in Hall. assumption. }
  assert (forall r f r' f', func r f = Done (r', f') ->
            (f = true -> f' = true)
            /\ (f' = false -> r' = r /\ negb (fires r) = true)) as Hleaf.
  { intros r f r' f' E. destruct (Hfunc _ _ _ _ E) as [Hno Hyes].
    destruct (fires r) eqn:Hf.
    - rewrite (Hyes eq_refl). split; [reflexivity | discriminate].
    - destruct (Hno eq_refl) as [-> ->]. split; [auto|]. intros _. split; reflexivity. }
  intros r.
  induction r as [u | d | | rs IH | r n IH | rs IH | rs IH] using regexp_rect';
    intros f r' f' E; cbn [regexp_transform_func] in E; try discriminate.
  - destruct (Hleaf _ _ _ _ E) as [Hm Hs]. split; [assumption|].
    intros Hf'. destruct (Hs Hf') as [-> Hq]. split; [reflexivity|].
    cbn [everywhere]. rewrite Hq. reflexivity.
  - destruct (Hleaf _ _ _ _ E) as [Hm Hs]. split; [assumption|].
    intros Hf'. destruct (Hs Hf') as [-> Hq]. split; [reflexivity|].
    cbn [everywhere]. rewrite Hq. reflexivity.
  - bind_inv E rs_p Ers. destruct rs_p as [rs1 f1]. cbn [fst snd] in E.
    pose proof (transform_operands_stable (regexp_transform_func func)
                  (fun x => everywhere (fun x => negb (fires x)) x = true) rs) as Hops.
    specialize (Hops ltac:(rewrite Forall_forall in *; intros x Hx; apply (IH x Hx))
                 _ _ _ Ers).
    destruct (Hnode rm_sequence rs rs1 f f1 r' f' Hops E) as [Hm Hs].
    split; [assumption|]. intros Hf'. destruct (Hs Hf') as (-> & Hq & Hall).
    split; [reflexivity|]. cbn [everywhere]. rewrite Hq, Hall. reflexivity.
  - bind_inv E r_p Er. destruct r_p as [r1 f1]. cbn [fst snd] in E.
    destruct (IH _ _ _ Er) as [Hm1 Hs1].
    destruct (Hfunc _ _ _ _ E) as [Hno Hyes].
    destruct (fires (rm_repeat r1 n)) eqn:Hf.
    + rewrite (Hyes eq_refl). split; [reflexivity | discriminate].
    + destruct (Hno eq_refl) as [-> ->]. split; [assumption|].
      intros Hf1. destruct (Hs1 Hf1) as [-> Hall].
      split; [reflexivity|]. cbn [everywhere]. rewrite Hf, Hall. reflexivity.
  - bind_inv E rs_p Ers. destruct rs_p as [rs1 f1]. cbn [fst snd] in E.
    pose proof (transform_operands_stable (regexp_transform_func func)
                  (fun x => everywhere (fun x => negb (fires x)) x = true) rs) as Hops.
    specialize (Hops ltac:(rewrite Forall_forall in *; intros x Hx; apply (IH x Hx))
                 _ _ _ Ers).
    destruct (Hnode rm_allof rs rs1 f f1 r' f' Hops E) as [Hm Hs].
    split; [assumption|]. intros Hf'. destruct (Hs Hf') as (-> & Hq & Hall).
    split; [reflexivity|]. cbn [everywhere]. rewrite Hq, Hall. reflexivity.
  - bind_inv E rs_p Ers. destruct rs_p as [rs1 f1]. cbn [fst snd] in E.
    pose proof (transform_operands_stable (regexp_transform_func func)
                  (fun x => everywhere (fun x => negb (fires x)) x = true) rs) as Hops.
    specialize (Hops ltac:(rewrite Forall_forall in *; intros x Hx; apply (IH x Hx))
                 _ _ _ Ers).
    destruct (Hnode rm_oneof rs rs1 f f1 r' f' Hops E) as [Hm Hs].
    split; [assumption|]. intros Hf'. destruct (Hs Hf') as (-> & Hq & Hall).
    split; [reflexivity|]. cbn [everywhere]. rewrite Hq, Hall. reflexivity.
Qed.

(** No rule applies anywhere in [r]. *)
Definition settled (r : regexp) : Prop :=
  plain r = true
  /\ everywhere (fun x => negb (fires_2 x)) r = true
  /\ everywhere (fun x => negb (fires_3 x)) r = true.

End FixedPoint.

Lemma transform_loop_settled (decls : list decl) (depth fuel : nat) :
  forall r r', plain r = true ->
  transform_loop decls (S depth) fuel r = Done r' -> settled r'.
Proof.
  induction fuel as [|fuel IH]; intros r r' Hr E; cbn [transform_loop] in E; [discriminate|].
  bind_inv E r_p E2. destruct r_p as [r2 f2]. cbn [fst snd] in E.
  bind_inv E r_p' E3. destruct r_p' as [r3 f3]. cbn [fst snd] in E.
  pose proof (regexp_transform_func_plain _ (transform_2_plain decls depth) _ _ _ _ Hr E2) as H2.
  pose proof (regexp_transform_func_plain _ (transform_3_plain decls depth) _ _ _ _ H2 E3) as H3.
  destruct f3.
  - eapply IH; eassumption.
  - injection E as <-.
    destruct (regexp_transform_func_stable _ fires_3 (transform_3_fires decls (S depth)) _ _ _ _ E3)
      as [Hm3 Hs3].
    destruct (Hs3 eq_refl) as [-> Hno3].
    assert (f2 = false) as ->
      by (destruct f2; [specialize (Hm3 eq_refl); discriminate | reflexivity]).
    destruct (regexp_transform_func_stable _ fires_2 (transform_2_fires decls (S depth)) _ _ _ _ E2)
      as [_ Hs2].
    destruct (Hs2 eq_refl) as [-> Hno2].
    repeat split; assumption.
Qed.


Lemma settled_operands (node : list regexp -> regexp) (rs : list regexp) :
  node = rm_sequence \/ node = rm_allof \/ node = rm_oneof ->
  settled (node rs) -> Forall settled rs.
Proof.
  intros Hnode (Hp & H2 & H3). apply Forall_forall. intros x Hx.
  destruct Hnode as [-> | [-> | ->]]; cbn [shape everywhere] in *;
    repeat match goal with
           | H : _ && _ = true |- _ => apply andb_true_iff in H; destruct H
           end;
    repeat match goal with
           | H : forallb _ _ = true |- _ => rewrite forallb_forall in H; specialize (H x Hx)
           end;
    repeat split; assumption.
Qed.

Lemma not_exists (p : regexp -> bool) (rs : list regexp) (x : regexp) :
  existsb p rs = false -> In x rs -> p x = false.
Proof.
  intros H Hx. destruct (p x) eqn:Hp; [|reflexivity].
  assert (existsb p rs = true) by (apply existsb_exists; exists x; split; assumption).
  congruence.
Qed.

Lemma max_seq_length_zero (rs : list regexp) :
  Forall (fun x => plain x = true /\ is_allof x = false /\ is_oneof x = false) rs ->
  forall acc, max_seq_length_loop rs acc = 0%nat -> acc = 0%nat /\ Forall leaf rs.
Proof.
  induction 1 as [|x rs (Hp & Ha & Ho) _ IH]; intros acc H;
    [split; [exact H | constructor]|].
  destruct x; cbn [shape is_allof is_oneof] in Hp, Ha, Ho; try discriminate;
    cbn [max_seq_length_loop] in H.
  - destruct (IH _ H) as [-> Hl]. split; [reflexivity | constructor; [exact I | exact Hl]].
  - destruct (IH _ H) as [-> Hl]. split; [reflexivity | constructor; [exact I | exact Hl]].
  - exfalso. apply andb_true_iff in Hp. destruct Hp as [Hlen _]. apply Nat.leb_le in Hlen.
    destruct (IH _ H) as [Hacc _].
    destruct (Nat.ltb_spec acc (length regexps)); lia.
Qed.

Lemma settled_allof_leaves (rs : list regexp) :
  settled (rm_allof rs) -> Forall leaf rs.
Proof.
  intros Hs. pose proof (settled_operands rm_allof rs ltac:(auto) Hs) as Hops.
  destruct Hs as (_ & H2 & H3). cbn [everywhere fires_2 fires_3] in H2, H3.
  apply andb_true_iff in H2. destruct H2 as [H2 _].
  apply andb_true_iff in H3. destruct H3 as [H3 _].
  apply negb_true_iff in H2. apply negb_true_iff in H3.
  apply orb_false_iff in H3. destruct H3 as [H3 Hmax].
  apply negb_false_iff in Hmax. apply Nat.eqb_eq in Hmax.
  apply (max_seq_length_zero rs) in Hmax; [apply Hmax|].
  apply Forall_forall. intros x Hx. rewrite Forall_forall in Hops.
  split; [apply (Hops x Hx)|]. split; eapply not_exists; eassumption.
Qed.

Lemma settled_flat_allof (x : regexp) :
  settled x -> is_sequence x = false -> is_oneof x = false -> flat_allof x.
Proof.
  intros Hs Hseq Hone. destruct x; cbn in Hseq, Hone; try discriminate;
    try exact I; try (destruct Hs as [Hp _]; cbn in Hp; discriminate).
  cbn [flat_allof]. apply settled_allof_leaves. assumption.
Qed.

Lemma settled_flat_sequence (x : regexp) :
  settled x -> is_oneof x = false -> flat_sequence x.
Proof.
  intros Hs Hone. destruct x; try (apply settled_flat_allof; [assumption | reflexivity | assumption]).
  cbn [flat_sequence].
  pose proof (settled_operands rm_sequence regexps ltac:(auto) Hs) as Hops.
  destruct Hs as (_ & H2 & H3). cbn [everywhere fires_2 fires_3] in H2, H3.
  apply andb_true_iff in H2. destruct H2 as [H2 _].
  apply andb_true_iff in H3. destruct H3 as [H3 _].
  apply negb_true_iff in H2. apply negb_true_iff in H3.
  apply Forall_forall. intros x Hx. rewrite Forall_forall in Hops.
  apply settled_flat_allof; [apply (Hops x Hx) | |]; eapply not_exists; eassumption.
Qed.

Lemma settled_canonical (r : regexp) : settled r -> canonical r.
Proof.
  intros Hs. destruct r; try (apply settled_flat_sequence; [assumption | reflexivity]).
  cbn [canonical].
  pose proof (settled_operands rm_oneof regexps ltac:(auto) Hs) as Hops.
  destruct Hs as (_ & H2 & _). cbn [everywhere fires_2] in H2.
  apply andb_true_iff in H2. destruct H2 as [H2 _]. apply negb_true_iff in H2.
  apply Forall_forall. intros x Hx. rewrite Forall_forall in Hops.
  apply settled_flat_sequence; [apply (Hops x Hx) | eapply not_exists; eassumption].
Qed.

Lemma leaf_lifted (b : bool) (r : regexp) : leaf r -> lifted b r = true.
Proof. destruct r; cbn; intros H; try contradiction; reflexivity. Qed.

Lemma flat_allof_lifted (r : regexp) : flat_allof r -> lifted true r = true.
Proof.
  destruct r; cbn [flat_allof]; intros H; try (apply leaf_lifted; assumption).
  cbn [lifted]. apply forallb_forall. rewrite Forall_forall in H.
  intros x Hx. apply leaf_lifted. auto.
Qed.

Lemma flat_sequence_lifted (r : regexp) : flat_sequence r -> lifted true r = true.
Proof.
  destruct r; cbn [flat_sequence]; intros H; try (apply flat_allof_lifted; assumption).
  cbn [lifted]. apply forallb_forall. rewrite Forall_forall in H.
  intros x Hx. apply flat_allof_lifted. auto.
Qed.

Lemma lifted_weaken (r : regexp) : lifted true r = true -> lifted false r = true.
Proof. destruct r; cbn [lifted]; try tauto. cbn. discriminate. Qed.

Lemma canonical_lifted (r : regexp) : canonical r -> lifted false r = true.
Proof.
  destruct r; cbn [canonical]; intros H;
    try (apply lifted_weaken, flat_sequence_lifted; assumption).
  cbn [lifted negb andb]. apply forallb_forall. rewrite Forall_forall in H.
  intros x Hx. apply lifted_weaken, flat_sequence_lifted. auto.
Qed.


Lemma transformed_regexp_settled (decls : list decl) (depth fuel : nat) (r r' : regexp) :
  (forall d rd, Loops.reserv_regexp decls d = Some rd -> Cycles.parsed rd) ->
  Cycles.parsed r ->
  transformed_regexp decls depth fuel r = Done r' ->
  settled r'.
Proof.
  intros Hdecls Hr E. unfold transformed_regexp, transform_regexp in E.
  bind_inv E r0 E0. bind_inv E r_p E1. destruct r_p as [r1 f1]. cbn [fst] in E.
  pose proof (copy_insn_regexp_shape decls Hdecls depth r Hr r0 E0) as H0.
  destruct depth as [|depth]; [discriminate|].
  pose proof (regexp_transform_func_1_plain decls depth r0 _ _ _ H0 E1) as H1.
  eapply transform_loop_settled; eassumption.
Qed.

(** *** The transformer ends *)

Section Termination.

Local Open Scope nat_scope.

Definition product (l : list nat) : nat := fold_right Nat.mul 1%nat l.

(** A number that every rule of [transform_2] and [transform_3] makes
    smaller: [,] multiplies, [+] multiplies and squares, [|] adds. *)
Fixpoint weight (r : regexp) : nat :=
  match r with
  | rm_unit _ => 2
  | rm_nothing => 2
  | rm_reserv _ => 2
  | rm_repeat r' _ => weight r'
  | rm_sequence rs => S (product (map weight rs))
  | rm_allof rs => product (map weight rs) * product (map weight rs)
  | rm_oneof rs => S (list_sum (map (fun x => S (weight x)) rs))
  end.


Lemma product_app (l l' : list nat) : product (l ++ l') = product l * product l'.
Proof.
  unfold product. induction l as [|x l IH]; simpl; [lia | rewrite IH; lia].
Qed.

Lemma product_cons (x : nat) (l : list nat) : product (x :: l) = x * product l.
Proof. reflexivity. Qed.

Lemma product_pos (l : list nat) : Forall (fun x => 1 <= x) l -> 1 <= product l.
Proof.
  induction 1 as [|x l Hx _ IH]; [cbn; lia|]. rewrite product_cons. nia.
Qed.

Lemma product_two (l : list nat) :
  l <> [] -> Forall (fun x => 2 <= x) l -> 2 <= product l.
Proof.
  intros Hne H. destruct H as [|x l Hx Hl]; [contradiction|].
  rewrite product_cons.
  assert (1 <= product l) by (apply product_pos; eapply Forall_impl; [|exact Hl]; cbn; lia).
  nia.
Qed.

Definition total (rs : list regexp) : nat := list_sum (map (fun x => S (weight x)) rs).

Lemma total_cons (x : regexp) (rs : list regexp) : total (x :: rs) = S (weight x) + total rs.
Proof. reflexivity. Qed.

Lemma total_app (rs rs' : list regexp) : total (rs ++ rs') = total rs + total rs'.
Proof. unfold total. rewrite map_app, list_sum_app. reflexivity. Qed.

Lemma weight_oneof (rs : list regexp) : weight (rm_oneof rs) = S (total rs).
Proof. reflexivity. Qed.

Lemma weight_sequence (rs : list regexp) :
  weight (rm_sequence rs) = S (product (map weight rs)).
Proof. reflexivity. Qed.

Lemma weight_allof (rs : list regexp) :
  weight (rm_allof rs) = product (map weight rs) * product (map weight rs).
Proof. reflexivity. Qed.

Lemma weight_pos (r : regexp) : 1 <= weight r.
Proof.
  induction r as [u | d | | rs IH | r n IH | rs IH | rs IH] using regexp_rect';
    cbn [weight]; try lia.
  assert (1 <= product (map weight rs)); [|nia].
  apply product_pos. apply Forall_map. exact IH.
Qed.

Lemma weights_pos (rs : list regexp) : 1 <= product (map weight rs).
Proof.
  apply product_pos, Forall_map, Forall_forall. intros x _. apply weight_pos.
Qed.

Lemma weights_two (rs : list regexp) :
  Forall (fun x => 2 <= weight x) rs -> rs <> [] -> 2 <= product (map weight rs).
Proof.
  intros H Hne. apply product_two.
  - destruct rs; [contradiction | discriminate].
  - apply Forall_map. exact H.
Qed.

Lemma weight_plain (r : regexp) : plain r = true -> 2 <= weight r.
Proof.
  induction r as [u | d | | rs IH | r n IH | rs IH | rs IH] using regexp_rect';
    cbn [weight shape]; try lia; try discriminate; intros H;
    apply andb_true_iff in H; destruct H as [Hlen Hall]; apply Nat.leb_le in Hlen.
  - pose proof (weights_pos rs). lia.
  - assert (2 <= product (map weight rs)); [|nia].
    apply weights_two; [|destruct rs; [cbn in Hlen; lia | discriminate]].
    rewrite Forall_forall in *. rewrite forallb_forall in Hall. auto.
  - destruct rs as [|x rs]; [cbn in Hlen; lia|].
    change (2 <= S (total (x :: rs))). rewrite total_cons. lia.
Qed.

Lemma weights_plain (rs : list regexp) :
  forallb plain rs = true -> Forall (fun x => 2 <= weight x) rs.
Proof.
  intros H. apply Forall_forall. intros x Hx. apply weight_plain.
  rewrite forallb_forall in H. auto.
Qed.

(** What a pass does to a regexp without reservations and repetitions:
    it ends, and the weight is smaller when it sets the flag. *)
Definition decreasing (func : regexp -> bool -> outcome (regexp * bool)) : Prop :=
  forall r f, plain r = true ->
  exists r' f',
    func r f = Done (r', f')
    /\ plain r' = true
    /\ weight r' <= weight r
    /\ (f' = true -> f = true \/ weight r' < weight r).

Lemma transform_operands_decreasing (tr : regexp -> bool -> outcome (regexp * bool))
    (rs : list regexp) :
  Forall (fun r => forall f, exists r' f',
            tr r f = Done (r', f') /\ plain r' = true /\ weight r' <= weight r
            /\ (f' = true -> f = true \/ weight r' < weight r)) rs ->
  forall f, exists rs' f',
    transform_operands tr rs f = Done (rs', f')
    /\ length rs' = length rs
    /\ forallb plain rs' = true
    /\ product (map weight rs') <= product (map weight rs)
    /\ total rs' <= total rs
    /\ (f' = true ->
        f = true \/ (product (map weight rs') < product (map weight rs)
                     /\ total rs' < total rs)).
Proof.
  induction 1 as [|r rs Hr _ IH]; intros f.
  - exists [], f. split; [reflexivity|]. repeat split; auto.
  - destruct (Hr f) as (r1 & f1 & E1 & Hp1 & Hw1 & Hf1).
    destruct (IH f1) as (rs1 & f2 & E2 & Hlen & Hp2 & Hprod & Htot & Hf2).
    exists (r1 :: rs1), f2. cbn [transform_operands]. rewrite E1. cbn [bind fst snd].
    rewrite E2. cbn [bind fst snd]. split; [reflexivity|].
    split; [cbn [length]; congruence|].
    split; [cbn [forallb]; rewrite Hp1, Hp2; reflexivity|].
    cbn [map]. rewrite !total_cons, !product_cons.
    pose proof (weight_pos r1). pose proof (weight_pos r).
    pose proof (weights_pos rs1). pose proof (weights_pos rs).
    split; [nia|]. split; [lia|].
    intros Hf. destruct (Hf2 Hf) as [Hf1'|[Hlt1 Hlt2]].
    + destruct (Hf1 Hf1') as [Hf0|Hlt]; [left; exact Hf0|]. right. split; [nia | lia].
    + right. split; [nia | lia].
Qed.

Lemma regexp_transform_func_decreasing
    (func : regexp -> bool -> outcome (regexp * bool)) :
  decreasing func -> decreasing (regexp_transform_func func).
Proof.
  intros Hfunc r.
  induction r as [u | d | | rs IH | r n IH | rs IH | rs IH] using regexp_rect';
    intros f Hr; cbn [regexp_transform_func]; try discriminate;
    try (apply Hfunc; exact Hr);
    cbn [shape] in Hr; apply andb_true_iff in Hr; destruct Hr as [Hlen Hall];
    rewrite forallb_forall in Hall;
    (destruct (transform_operands_decreasing (regexp_transform_func func) rs) with (f := f)
      as (rs1 & f1 & -> & Hlen1 & Hp1 & Hprod & Htot & Hf1);
     [rewrite Forall_forall in *; intros x Hx g; apply (IH x Hx); auto|]);
    cbn [bind fst snd].
  - destruct (Hfunc (rm_sequence rs1) f1) as (r' & f' & E & Hp & Hw & Hf).
    { cbn [shape]. rewrite Hlen1, Hlen, Hp1. reflexivity. }
    exists r', f'. split; [exact E|]. split; [exact Hp|]. cbn [weight] in *.
    split; [lia|]. intros Hf'. destruct (Hf Hf') as [H|H]; [|right; lia].
    destruct (Hf1 H) as [H0|[H1 H2]]; [left; exact H0 | right; lia].
  - destruct (Hfunc (rm_allof rs1) f1) as (r' & f' & E & Hp & Hw & Hf).
    { cbn [shape]. rewrite Hlen1, Hlen, Hp1. reflexivity. }
    exists r', f'. split; [exact E|]. split; [exact Hp|]. cbn [weight] in *.
    split; [nia|]. intros Hf'. destruct (Hf Hf') as [H|H]; [|right; nia].
    destruct (Hf1 H) as [H0|[H1 H2]]; [left; exact H0 | right; nia].
  - destruct (Hfunc (rm_oneof rs1) f1) as (r' & f' & E & Hp & Hw & Hf).
    { cbn [shape]. rewrite Hlen1, Hlen, Hp1. reflexivity. }
    exists r', f'. split; [exact E|]. split; [exact Hp|]. cbn [weight] in *.
    fold (total rs1) in *. fold (total rs) in *.
    split; [lia|]. intros Hf'. destruct (Hf Hf') as [H|H]; [|right; lia].
    destruct (Hf1 H) as [H0|[H1 H2]]; [left; exact H0 | right; lia].
Qed.

Section Rules.

Variable decls : list decl.
Variable depth : nat.

Lemma plain_node_operands (r : regexp) :
  (is_sequence r || is_allof r || is_oneof r) = true -> plain r = true ->
  2 <= length (operands r).
Proof.
  destruct r; cbn [is_sequence is_allof is_oneof orb operands shape]; try discriminate;
    intros _ H; apply andb_true_iff in H; destruct H as [H _]; apply Nat.leb_le in H;
    exact H.
Qed.

(** What [flatten] gives for the operands of a node. *)
Lemma flatten_result (is_mode : regexp -> bool) (node : list regexp -> regexp)
    (r : regexp) (rs : list regexp) (f : bool) :
  (forall x, is_mode x = true -> (is_sequence x || is_allof x || is_oneof x) = true) ->
  2 <= length rs -> forallb plain rs = true ->
  flatten decls (S depth) is_mode node r rs f = Done (r, f)
  \/ exists before inner after,
       rs = before ++ inner :: after /\ is_mode inner = true
       /\ flatten decls (S depth) is_mode node r rs f
          = Done (node (before ++ operands inner ++ after), true).
Proof.
  intros Hmode Hlen Hrs. unfold flatten.
  destruct (first_operand is_mode rs) as [[[before inner] after]|] eqn:Ef; [|left; reflexivity].
  right. apply first_operand_some in Ef. destruct Ef as [-> Hinner].
  exists before, inner, after. split; [reflexivity|]. split; [exact Hinner|].
  apply forallb_app_true in Hrs. destruct Hrs as [Hb Hia]. cbn [forallb] in Hia.
  apply andb_true_iff in Hia. destruct Hia as [Hi Ha].
  pose proof (plain_node_operands inner (Hmode inner Hinner) Hi) as Hops.
  destruct (Nat.leb_spec (length (operands inner)) 1); [lia|].
  destruct (Nat.leb_spec (length (before ++ inner :: after)) 1); [lia|]. cbn [orb].
  rewrite (copies_id decls depth false).
  - reflexivity.
  - apply forallb_app_true. split; [exact Hb|]. apply forallb_app_true.
    split; [apply plain_operands; exact Hi | exact Ha].
Qed.

Lemma transform_2_decreasing : decreasing (transform_2 decls (S depth)).
Proof.
  intros r f Hr.
  assert (forall r', transform_2 decls (S depth) r f = Done (r', true) ->
          weight r' < weight r ->
          exists r' f', transform_2 decls (S depth) r f = Done (r', f')
                        /\ plain r' = true /\ weight r' <= weight r
                        /\ (f' = true -> f = true \/ weight r' < weight r)) as Hfired.
  { intros r' E Hw. exists r', true. split; [exact E|].
    split; [exact (transform_2_plain decls depth r f r' true Hr E)|].
    split; [lia | right; exact Hw]. }
  assert (transform_2 decls (S depth) r f = Done (r, f) ->
          exists r' f', transform_2 decls (S depth) r f = Done (r', f')
                        /\ plain r' = true /\ weight r' <= weight r
                        /\ (f' = true -> f = true \/ weight r' < weight r)) as Hsame.
  { intros E. exists r, f. split; [exact E|]. split; [exact Hr|]. split; [lia|].
    intros ->. left. reflexivity. }
  destruct r as [u | d | | rs | r n | rs | rs]; try (apply Hsame; reflexivity);
    pose proof Hr as Hr'; cbn [shape] in Hr'; apply andb_true_iff in Hr';
    destruct Hr' as [Hlen Hall]; apply Nat.leb_le in Hlen; cbn [transform_2] in *.
  - destruct (flatten_result is_sequence rm_sequence (rm_sequence rs) rs f)
      as [E|(before & inner & after & -> & Hinner & E)]; try assumption.
    { intros x Hx. destruct x; try discriminate; reflexivity. }
    { apply Hsame. exact E. }
    apply (Hfired _ E). destruct inner; try discriminate. cbn [operands weight].
    rewrite !map_app, !product_app. cbn [map]. rewrite product_cons. cbn [weight].
    pose proof (weights_pos before). pose proof (weights_pos after).
    pose proof (weights_pos regexps). nia.
  - destruct (flatten_result is_allof rm_allof (rm_allof rs) rs f)
      as [E|(before & inner & after & -> & Hinner & E)]; try assumption.
    { intros x Hx. destruct x; try discriminate; reflexivity. }
    { apply Hsame. exact E. }
    apply (Hfired _ E). destruct inner; try discriminate. cbn [operands weight].
    rewrite !map_app, !product_app. cbn [map]. rewrite product_cons. cbn [weight].
    pose proof (weights_pos before). pose proof (weights_pos after).
    assert (2 <= product (map weight regexps)) as Hinner2.
    { apply forallb_app_true in Hall. destruct Hall as [_ Hia]. cbn [forallb] in Hia.
      apply andb_true_iff in Hia. destruct Hia as [Hi _].
      cbn [shape] in Hi. apply andb_true_iff in Hi. destruct Hi as [Hl Hi].
      apply Nat.leb_le in Hl. apply weights_two; [apply weights_plain; exact Hi|].
      destruct regexps; [cbn in Hl; lia | discriminate]. }
    set (B := product (map weight before)) in *.
    set (A := product (map weight after)) in *.
    set (X := product (map weight regexps)) in *.
    assert (B * X * A < B * (X * X * A)) by nia.
    nia.
  - destruct (flatten_result is_oneof rm_oneof (rm_oneof rs) rs f)
      as [E|(before & inner & after & -> & Hinner & E)]; try assumption.
    { intros x Hx. destruct x; try discriminate; reflexivity. }
    { apply Hsame. exact E. }
    apply (Hfired _ E). destruct inner; try discriminate. cbn [operands].
    rewrite !weight_oneof, !total_app, total_cons, weight_oneof. lia.
Qed.

Lemma for_each_map {A B : Type} (f : A -> outcome B) (g : A -> B) (xs : list A) :
  Forall (fun x => f x = Done (g x)) xs -> for_each f xs = Done (map g xs).
Proof.
  induction 1 as [|x xs Hx _ IH]; cbn [for_each map]; [reflexivity|].
  rewrite Hx. cbn [bind]. rewrite IH. reflexivity.
Qed.

(** What [lift_oneof] gives for the operands of a node. *)
Lemma lift_oneof_result (node : list regexp -> regexp) (rs : list regexp) :
  2 <= length rs -> forallb plain rs = true ->
  lift_oneof decls (S depth) node rs = None
  \/ exists before alts after,
       rs = before ++ rm_oneof alts :: after
       /\ lift_oneof decls (S depth) node rs
          = Some (Done (rm_oneof (map (fun alt => node (before ++ alt :: after)) alts),
                        true)).
Proof.
  intros Hlen Hrs. unfold lift_oneof.
  destruct (first_operand is_oneof rs) as [[[before oneof] after]|] eqn:Ef; [|left; reflexivity].
  right. apply first_operand_some in Ef. destruct Ef as [-> Honeof].
  destruct oneof as [| | | | | |alts]; try discriminate.
  exists before, alts, after. split; [reflexivity|]. f_equal.
  apply forallb_app_true in Hrs. destruct Hrs as [Hb Hia]. cbn [forallb] in Hia.
  apply andb_true_iff in Hia. destruct Hia as [Hi Ha].
  pose proof (plain_node_operands (rm_oneof alts) eq_refl Hi) as Hops.
  cbn [operands] in *.
  destruct (Nat.leb_spec (length alts) 1); [lia|].
  destruct (Nat.leb_spec (length (before ++ rm_oneof alts :: after)) 1); [lia|]. cbn [orb].
  rewrite (for_each_map _ (fun alt => node (before ++ alt :: after))); [reflexivity|].
  apply Forall_forall. intros alt Halt.
  rewrite (copies_id decls depth false); [reflexivity|].
  apply forallb_app_true. split; [exact Hb|]. cbn [forallb]. rewrite Ha, andb_true_r.
  apply plain_operands in Hi. cbn [operands] in Hi. rewrite forallb_forall in Hi. auto.
Qed.

Lemma total_weights (alts : list regexp) :
  total alts = length alts + list_sum (map weight alts).
Proof.
  induction alts as [|x alts IH]; [reflexivity|].
  rewrite total_cons, IH. cbn [length map list_sum fold_right].
  fold (list_sum (map weight alts)). lia.
Qed.

Lemma list_sum_cons (x : nat) (l : list nat) : list_sum (x :: l) = x + list_sum l.
Proof. reflexivity. Qed.

Lemma total_lifted_sequence (before after alts : list regexp) :
  total (map (fun alt => rm_sequence (before ++ alt :: after)) alts)
  = 2 * length alts
    + product (map weight before) * product (map weight after)
      * list_sum (map weight alts).
Proof.
  induction alts as [|x alts IH]; [cbn; lia|].
  cbn [map]. rewrite total_cons, IH, weight_sequence, map_app, product_app.
  cbn [map length]. rewrite product_cons, list_sum_cons. nia.
Qed.

Lemma total_lifted_allof (before after alts : list regexp) :
  total (map (fun alt => rm_allof (before ++ alt :: after)) alts)
  = length alts
    + product (map weight before) * product (map weight after)
      * (product (map weight before) * product (map weight after))
      * list_sum (map (fun x => weight x * weight x) alts).
Proof.
  induction alts as [|x alts IH]; [cbn; lia|].
  cbn [map]. rewrite total_cons, IH, weight_allof, map_app, product_app.
  cbn [map length]. rewrite product_cons, list_sum_cons. nia.
Qed.

Lemma sum_squares (alts : list regexp) :
  list_sum (map (fun x => weight x * weight x) alts)
  <= list_sum (map weight alts) * list_sum (map weight alts).
Proof.
  induction alts as [|x alts IH]; [cbn; lia|].
  cbn [map]. rewrite !list_sum_cons. nia.
Qed.

End Rules.

(** **** An allof of sequences *)

(** An operand that [max_seq_length_loop] goes over. *)
Definition row (r : regexp) : bool :=
  match r with
  | rm_sequence _ => true
  | rm_unit _ => true
  | rm_nothing => true
  | _ => false
  end.

(** The elements of a row, cycle by cycle. *)
Definition elems (r : regexp) : list regexp :=
  match r with
  | rm_sequence xs => xs
  | _ => [r]
  end.

Lemma max_seq_length_rows (rs : list regexp) :
  forall acc, max_seq_length_loop rs acc <> 0 ->
  acc <= max_seq_length_loop rs acc
  /\ forallb row rs = true
  /\ Forall (fun s => length (elems s) <= max_seq_length_loop rs acc) rs
  /\ (max_seq_length_loop rs acc = acc \/ existsb is_sequence rs = true).
Proof.
  induction rs as [|r rs IH]; intros acc H; cbn [max_seq_length_loop] in *.
  - split; [lia|]. split; [reflexivity|]. split; [constructor | left; reflexivity].
  - destruct r as [u | d | | xs | r n | xs | xs]; try contradiction.
    + destruct (IH acc H) as (Hacc & Hrow & Hlen & Hseq).
      split; [exact Hacc|]. split; [exact Hrow|]. split; [|exact Hseq].
      constructor; [cbn [elems length]; lia | exact Hlen].
    + destruct (IH acc H) as (Hacc & Hrow & Hlen & Hseq).
      split; [exact Hacc|]. split; [exact Hrow|]. split; [|exact Hseq].
      constructor; [cbn [elems length]; lia | exact Hlen].
    + destruct (IH _ H) as (Hacc & Hrow & Hlen & Hseq).
      destruct (Nat.ltb_spec acc (length xs)).
      * split; [lia|]. split; [exact Hrow|]. split; [|right; reflexivity].
        constructor; [cbn [elems]; lia | exact Hlen].
      * split; [lia|]. split; [exact Hrow|]. split; [|right; reflexivity].
        constructor; [cbn [elems]; lia | exact Hlen].
Qed.

Lemma product_ones {A : Type} (l : list A) : product (map (fun _ => 1) l) = 1.
Proof. induction l as [|x l IH]; [reflexivity|]. cbn [map]. rewrite product_cons, IH. lia. Qed.

Lemma product_map_mul {A : Type} (f g : A -> nat) (l : list A) :
  product (map (fun x => f x * g x) l) = product (map f l) * product (map g l).
Proof.
  induction l as [|x l IH]; [reflexivity|]. cbn [map]. rewrite !product_cons, IH. lia.
Qed.

Lemma product_map_le {A : Type} (f g : A -> nat) (l : list A) :
  (forall x, In x l -> f x <= g x) -> product (map f l) <= product (map g l).
Proof.
  induction l as [|x l IH]; intros H; [reflexivity|]. cbn [map]. rewrite !product_cons.
  assert (f x <= g x) by (apply H; left; reflexivity).
  assert (product (map f l) <= product (map g l)) by (apply IH; intros y Hy; apply H; right; exact Hy).
  nia.
Qed.

(** The product over the cycles of one row. *)
Lemma product_row (f : regexp -> nat) (xs : list regexp) :
  forall L, length xs <= L ->
  product (map (fun i => if i <? length xs then f (nth i xs rm_nothing) else 1) (seq 0 L))
  = product (map f xs).
Proof.
  induction xs as [|x xs IH]; intros L HL.
  - cbn [length]. rewrite (map_ext _ (fun _ => 1)) by reflexivity. apply product_ones.
  - destruct L as [|L]; [cbn in HL; lia|].
    cbn [seq map]. rewrite <- seq_shift, map_map, !product_cons. cbn [length] in *.
    rewrite <- (IH L) by lia. cbn [Nat.ltb Nat.leb nth]. f_equal.
Qed.

Lemma cycle_operands_cons (i : nat) (s : regexp) (rs : list regexp) :
  row s = true ->
  product (map weight (cycle_operands i (s :: rs)))
  = (if i <? length (elems s) then weight (nth i (elems s) rm_nothing) else 1)
    * product (map weight (cycle_operands i rs)).
Proof.
  destruct s as [u | d | | xs | r n | xs | xs]; try discriminate; intros _;
    cbn [cycle_operands elems length].
  - destruct i; cbn [Nat.eqb Nat.ltb Nat.leb nth map]; [rewrite product_cons|]; lia.
  - destruct i; cbn [Nat.eqb Nat.ltb Nat.leb nth map]; [rewrite product_cons|]; lia.
  - destruct (i <? length xs); cbn [map]; [rewrite product_cons|]; lia.
Qed.

Lemma cycles_product (rs : list regexp) (L : nat) :
  forallb row rs = true -> Forall (fun s => length (elems s) <= L) rs ->
  product (map (fun i => product (map weight (cycle_operands i rs))) (seq 0 L))
  = product (map (fun s => product (map weight (elems s))) rs).
Proof.
  induction rs as [|s rs IH]; intros Hrow Hlen.
  - cbn [cycle_operands map]. apply product_ones.
  - cbn [forallb] in Hrow. apply andb_true_iff in Hrow. destruct Hrow as [Hs Hrow].
    inversion Hlen as [|? ? Hl Hlen']; subst.
    rewrite (map_ext _ _ (fun i => cycle_operands_cons i s rs Hs)).
    rewrite product_map_mul, (product_row weight (elems s) L Hl), (IH Hrow Hlen').
    reflexivity.
Qed.

Lemma weight_cycle_regexp (i : nat) (rs : list regexp) :
  weight (cycle_regexp i rs)
  <= product (map weight (cycle_operands i rs)) * product (map weight (cycle_operands i rs)).
Proof.
  unfold cycle_regexp. destruct (cycle_operands i rs) as [|x [|y ops]].
  - cbn. lia.
  - cbn [map]. rewrite product_cons. cbn [map product fold_right].
    pose proof (weight_pos x). nia.
  - rewrite weight_allof. lia.
Qed.

Lemma rows_weight (rs : list regexp) :
  forallb row rs = true ->
  product (map (fun s => product (map weight (elems s))) rs) <= product (map weight rs)
  /\ (existsb is_sequence rs = true ->
      product (map (fun s => product (map weight (elems s))) rs) < product (map weight rs)).
Proof.
  induction rs as [|s rs IH]; intros Hrow.
  - split; [reflexivity | discriminate].
  - cbn [forallb] in Hrow. apply andb_true_iff in Hrow. destruct Hrow as [Hs Hrow].
    destruct (IH Hrow) as [Hle Hlt]. cbn [map existsb]. rewrite !product_cons.
    pose proof (weights_pos rs) as Hpos.
    assert (1 <= product (map (fun s => product (map weight (elems s))) rs)) as Hpos'.
    { apply product_pos, Forall_map, Forall_forall. intros x _. apply weights_pos. }
    destruct s as [u | d | | xs | r n | xs | xs]; try discriminate;
      cbn [elems is_sequence orb map weight]; rewrite ?product_cons;
      cbn [product fold_right].
    + split; [nia|]. intros H. specialize (Hlt H). nia.
    + split; [nia|]. intros H. specialize (Hlt H). nia.
    + pose proof (weights_pos xs). split; [nia|]. intros _. nia.
Qed.

(** The sequence of allofs weighs less than the allof of sequences. *)
Lemma weight_cycles (rs : list regexp) :
  max_seq_length_loop rs 0 <> 0 ->
  weight (rm_sequence (map (fun i => cycle_regexp i rs) (seq 0 (max_seq_length_loop rs 0))))
  < weight (rm_allof rs).
Proof.
  intros H. destruct (max_seq_length_rows rs 0 H) as (_ & Hrow & Hlen & Hseq).
  destruct Hseq as [Hseq|Hseq]; [contradiction|].
  rewrite weight_sequence, weight_allof, map_map.
  set (L := max_seq_length_loop rs 0) in *.
  pose proof (product_map_le (fun i => weight (cycle_regexp i rs))
                (fun i => product (map weight (cycle_operands i rs))
                          * product (map weight (cycle_operands i rs)))
                (seq 0 L) (fun i _ => weight_cycle_regexp i rs)) as Hle.
  rewrite product_map_mul, (cycles_product rs L Hrow Hlen) in Hle.
  destruct (rows_weight rs Hrow) as [_ Hlt]. specialize (Hlt Hseq).
  set (Q := product (map (fun s => product (map weight (elems s))) rs)) in *.
  set (W := product (map weight rs)) in *.
  assert (1 <= Q) as Hpos.
  { apply product_pos, Forall_map, Forall_forall. intros x _. apply weights_pos. }
  assert ((Q + 1) * (Q + 1) <= W * W) by (apply Nat.mul_le_mono; lia).
  nia.
Qed.

Section Lift.

Variable decls : list decl.
Variable depth : nat.

Lemma others_weight (before after : list regexp) (x : regexp) :
  2 <= length (before ++ x :: after) ->
  forallb plain (before ++ x :: after) = true ->
  2 <= product (map weight before) * product (map weight after).
Proof.
  intros Hlen Hall. rewrite <- product_app, <- map_app.
  apply forallb_app_true in Hall. destruct Hall as [Hb Hxa]. cbn [forallb] in Hxa.
  apply andb_true_iff in Hxa. destruct Hxa as [_ Ha].
  apply weights_two.
  - apply weights_plain. apply forallb_app_true. split; assumption.
  - rewrite length_app in Hlen. cbn [length] in Hlen.
    destruct before; [destruct after; [cbn in Hlen; lia | discriminate] | discriminate].
Qed.

Lemma max_seq_length_two (rs : list regexp) :
  forallb plain rs = true -> max_seq_length_loop rs 0 <> 0 ->
  2 <= max_seq_length_loop rs 0.
Proof.
  intros Hall H. destruct (max_seq_length_rows rs 0 H) as (_ & _ & Hlen & Hseq).
  destruct Hseq as [Hseq|Hseq]; [contradiction|].
  apply existsb_exists in Hseq. destruct Hseq as (s & Hs & Hseq).
  rewrite Forall_forall in Hlen. specialize (Hlen s Hs).
  rewrite forallb_forall in Hall. specialize (Hall s Hs).
  destruct s; try discriminate. cbn [elems] in Hlen. cbn [shape] in Hall.
  apply andb_true_iff in Hall. destruct Hall as [Hl _]. apply Nat.leb_le in Hl. lia.
Qed.

Lemma transform_3_decreasing : decreasing (transform_3 decls (S depth)).
Proof.
  intros r f Hr.
  assert (forall r', transform_3 decls (S depth) r f = Done (r', true) ->
          weight r' < weight r ->
          exists r' f', transform_3 decls (S depth) r f = Done (r', f')
                        /\ plain r' = true /\ weight r' <= weight r
                        /\ (f' = true -> f = true \/ weight r' < weight r)) as Hfired.
  { intros r' E Hw. exists r', true. split; [exact E|].
    split; [exact (transform_3_plain decls depth r f r' true Hr E)|].
    split; [lia | right; exact Hw]. }
  assert (transform_3 decls (S depth) r f = Done (r, f) ->
          exists r' f', transform_3 decls (S depth) r f = Done (r', f')
                        /\ plain r' = true /\ weight r' <= weight r
                        /\ (f' = true -> f = true \/ weight r' < weight r)) as Hsame.
  { intros E. exists r, f. split; [exact E|]. split; [exact Hr|]. split; [lia|].
    intros ->. left. reflexivity. }
  destruct r as [u | d | | rs | r n | rs | rs]; try (apply Hsame; reflexivity);
    pose proof Hr as Hr'; cbn [shape] in Hr'; apply andb_true_iff in Hr';
    destruct Hr' as [Hlen Hall]; apply Nat.leb_le in Hlen; cbn [transform_3] in *.
  - destruct (lift_oneof_result decls depth rm_sequence rs Hlen Hall)
      as [E|(before & alts & after & -> & E)]; rewrite E in *.
    { apply Hsame. reflexivity. }
    apply (Hfired _ eq_refl).
    pose proof (others_weight before after _ Hlen Hall) as Hothers.
    rewrite weight_oneof, total_lifted_sequence, weight_sequence, map_app, product_app.
    cbn [map]. rewrite product_cons, weight_oneof, total_weights.
    set (B := product (map weight before)) in *.
    set (A := product (map weight after)) in *.
    set (k := length alts). set (w := list_sum (map weight alts)).
    assert (B * (S (k + w) * A) = B * A + B * A * k + B * A * w) as -> by nia.
    nia.
  - destruct (lift_oneof_result decls depth rm_allof rs Hlen Hall)
      as [E|(before & alts & after & -> & E)]; rewrite E in *.
    + destruct (Nat.eqb_spec (max_seq_length_loop rs 0) 0) as [H0|H0]; cbn [negb] in *.
      { apply Hsame. reflexivity. }
      pose proof (max_seq_length_two rs Hall H0) as H2.
      destruct (Nat.eqb_spec (max_seq_length_loop rs 0) 1) as [H1|H1]; [lia|].
      destruct (Nat.leb_spec (length rs) 1); [lia|]. cbn [orb] in *.
      apply (Hfired _ eq_refl). apply weight_cycles. exact H0.
    + apply (Hfired _ eq_refl).
      pose proof (others_weight before after _ Hlen Hall) as Hothers.
      rewrite weight_oneof, total_lifted_allof, weight_allof, map_app, product_app.
      cbn [map]. rewrite product_cons, weight_oneof, total_weights.
      pose proof (sum_squares alts) as Hsq.
      assert (2 <= length alts) as Hk.
      { apply forallb_app_true in Hall. destruct Hall as [_ Hia]. cbn [forallb] in Hia.
        apply andb_true_iff in Hia. destruct Hia as [Hi _].
        exact (plain_node_operands (rm_oneof alts) eq_refl Hi). }
      set (B := product (map weight before)) in *.
      set (A := product (map weight after)) in *.
      set (k := length alts) in *. set (w := list_sum (map weight alts)) in *.
      set (q := list_sum (map (fun x => weight x * weight x) alts)) in *.
      assert (B * (S (k + w) * A) * (B * (S (k + w) * A))
              = B * A * (B * A) * (S (k + w) * S (k + w))) as -> by nia.
      assert (1 <= B * A * (B * A)) as Hc by nia.
      set (c := B * A * (B * A)) in *.
      assert (S k * S k + q <= S (k + w) * S (k + w)) as Hsum by nia.
      assert (c * (S k * S k + q) <= c * (S (k + w) * S (k + w))) as Hmul
        by (apply Nat.mul_le_mono_l; exact Hsum).
      nia.
Qed.

End Lift.

Lemma transform_loop_ends (decls : list decl) (depth fuel : nat) :
  forall r, plain r = true -> weight r < fuel ->
  exists r', transform_loop decls (S depth) fuel r = Done r'.
Proof.
  induction fuel as [|fuel IH]; intros r Hr Hfuel; [lia|].
  cbn [transform_loop].
  destruct (regexp_transform_func_decreasing _ (transform_2_decreasing decls depth)
              r false Hr)
    as (r2 & f2 & -> & Hp2 & Hw2 & Hf2).
  cbn [bind fst snd].
  destruct (regexp_transform_func_decreasing _ (transform_3_decreasing decls depth)
              r2 f2 Hp2)
    as (r3 & f3 & -> & Hp3 & Hw3 & Hf3).
  cbn [bind fst snd]. destruct f3; [|eexists; reflexivity].
  apply IH; [exact Hp3|].
  destruct (Hf3 eq_refl) as [->|H]; [|lia].
  destruct (Hf2 eq_refl) as [H|H]; [discriminate | lia].
Qed.

(** **** The first pass *)

Section FirstPass.

Variable decls : list decl.

Hypothesis reservations_parsed :
  forall d r, Loops.reserv_regexp decls d = Some r -> Cycles.parsed r.

Lemma for_each_parsed (f : regexp -> outcome regexp) (rs rs' : list regexp) :
  Forall (fun x => Cycles.parsed x -> forall y, f x = Done y -> Cycles.parsed y) rs ->
  Forall Cycles.parsed rs -> for_each f rs = Done rs' ->
  Forall Cycles.parsed rs' /\ length rs' = length rs.
Proof.
  intros IH Hall E. apply (for_each_done f Cycles.parsed rs); [|exact E].
  rewrite Forall_forall in *. intros x Hx y Ey. apply (IH x Hx); auto.
Qed.

(** A copy of a parsed regexp is a parsed regexp. *)
Lemma copy_regexp_parsed (deref : nat -> outcome regexp) (r : regexp) :
  (forall d r', deref d = Done r' -> Cycles.parsed r') ->
  Cycles.parsed r -> forall r', copy_regexp deref r = Done r' -> Cycles.parsed r'.
Proof.
  intros Hd.
  induction r as [u | d | | rs IH | r n IH | rs IH | rs IH] using regexp_rect';
    intros Hp r' E; cbn [copy_regexp] in E.
  - injection E as <-. exact I.
  - eapply Hd. eassumption.
  - injection E as <-. exact I.
  - bind_inv E rs' Ers. injection E as <-.
    cbn [Cycles.parsed] in Hp. destruct Hp as [Hlen Hall]. apply Cycles.parsed_all in Hall.
    destruct (for_each_parsed _ rs rs' IH Hall Ers) as [Hall' Hlen'].
    cbn [Cycles.parsed]. split; [lia | apply Cycles.parsed_all; exact Hall'].
  - bind_inv E r0 Er. injection E as <-.
    cbn [Cycles.parsed] in *. destruct Hp as [Hn Hpr]. split; [exact Hn | auto].
  - bind_inv E rs' Ers. injection E as <-.
    cbn [Cycles.parsed] in Hp. destruct Hp as [Hlen Hall]. apply Cycles.parsed_all in Hall.
    destruct (for_each_parsed _ rs rs' IH Hall Ers) as [Hall' Hlen'].
    cbn [Cycles.parsed]. split; [lia | apply Cycles.parsed_all; exact Hall'].
  - bind_inv E rs' Ers. injection E as <-.
    cbn [Cycles.parsed] in Hp. destruct Hp as [Hlen Hall]. apply Cycles.parsed_all in Hall.
    destruct (for_each_parsed _ rs rs' IH Hall Ers) as [Hall' Hlen'].
    cbn [Cycles.parsed]. split; [lia | apply Cycles.parsed_all; exact Hall'].
Qed.

Lemma copy_insn_regexp_parsed (depth : nat) :
  forall r, Cycles.parsed r ->
  forall r', copy_insn_regexp decls depth r = Done r' -> Cycles.parsed r'.
Proof.
  induction depth as [|depth IH]; intros r Hp r' E; cbn [copy_insn_regexp] in E;
    [discriminate|].
  eapply copy_regexp_parsed; [|exact Hp|exact E].
  intros d r0 Ed. cbn beta in Ed.
  destruct (Loops.reserv_regexp decls d) as [rd|] eqn:Erd; [|discriminate].
  eapply IH; [|exact Ed]. eapply reservations_parsed. eassumption.
Qed.

Lemma transform_operands_total (tr : regexp -> bool -> outcome (regexp * bool))
    (rs : list regexp) :
  Forall (fun r => forall f, exists r' f', tr r f = Done (r', f')) rs ->
  forall f, exists rs' f', transform_operands tr rs f = Done (rs', f').
Proof.
  induction 1 as [|r rs Hr _ IH]; intros f; cbn [transform_operands].
  - eexists. eexists. reflexivity.
  - destruct (Hr f) as (r1 & f1 & ->). cbn [bind fst snd].
    destruct (IH f1) as (rs1 & f2 & ->). cbn [bind fst snd]. eexists. eexists. reflexivity.
Qed.

(** The pass of [transform_1] ends on a parsed regexp without
    reservations. *)
Lemma regexp_transform_func_1_ends (depth : nat) (r : regexp) :
  Cycles.parsed r -> shape true r = true ->
  forall f, exists r' f',
    regexp_transform_func (transform_1 decls (S depth)) r f = Done (r', f').
Proof.
  induction r as [u | d | | rs IH | r n IH | rs IH | rs IH] using regexp_rect';
    intros Hp Hs f; cbn [regexp_transform_func transform_1]; try discriminate;
    try (eexists; eexists; reflexivity).
  - cbn [Cycles.parsed shape] in *. destruct Hp as [_ Hall]. apply Cycles.parsed_all in Hall.
    apply andb_true_iff in Hs. destruct Hs as [_ Hs]. rewrite forallb_forall in Hs.
    destruct (transform_operands_total
                (regexp_transform_func (transform_1 decls (S depth))) rs) with (f := f)
      as (rs1 & f1 & ->).
    { rewrite Forall_forall in *. intros x Hx. apply (IH x Hx); auto. }
    cbn [bind]. eexists. eexists. reflexivity.
  - cbn [Cycles.parsed shape] in *. destruct Hp as [Hn Hp]. cbn [andb] in Hs.
    destruct (IH Hp Hs f) as (r1 & f1 & E). rewrite E. cbn [bind fst snd].
    pose proof (regexp_transform_func_1_plain decls depth r _ _ _ Hs E) as H1.
    destruct (Z.leb_spec n 1); [lia|].
    rewrite (copies_id decls depth false).
    + cbn [bind]. eexists. eexists. reflexivity.
    + apply forallb_forall. intros x Hx. apply repeat_spec in Hx. subst. exact H1.
  - cbn [Cycles.parsed shape] in *. destruct Hp as [_ Hall]. apply Cycles.parsed_all in Hall.
    apply andb_true_iff in Hs. destruct Hs as [_ Hs]. rewrite forallb_forall in Hs.
    destruct (transform_operands_total
                (regexp_transform_func (transform_1 decls (S depth))) rs) with (f := f)
      as (rs1 & f1 & ->).
    { rewrite Forall_forall in *. intros x Hx. apply (IH x Hx); auto. }
    cbn [bind]. eexists. eexists. reflexivity.
  - cbn [Cycles.parsed shape] in *. destruct Hp as [_ Hall]. apply Cycles.parsed_all in Hall.
    apply andb_true_iff in Hs. destruct Hs as [_ Hs]. rewrite forallb_forall in Hs.
    destruct (transform_operands_total
                (regexp_transform_func (transform_1 decls (S depth))) rs) with (f := f)
      as (rs1 & f1 & ->).
    { rewrite Forall_forall in *. intros x Hx. apply (IH x Hx); auto. }
    cbn [bind]. eexists. eexists. reflexivity.
Qed.

(** When the copy of the regexp is made, the transformer ends. *)
Lemma transformed_regexp_ends (depth : nat) (r r0 : regexp) :
  Cycles.parsed r ->
  copy_insn_regexp decls depth r = Done r0 ->
  exists fuel r', transformed_regexp decls depth fuel r = Done r'.
Proof.
  intros Hr E0. unfold transformed_regexp, transform_regexp. rewrite E0. cbn [bind].
  pose proof (copy_insn_regexp_shape decls reservations_parsed depth r Hr r0 E0) as Hs0.
  pose proof (copy_insn_regexp_parsed depth r Hr r0 E0) as Hp0.
  destruct depth as [|depth]; [discriminate|].
  destruct (regexp_transform_func_1_ends depth r0 Hp0 Hs0 false) as (r1 & f1 & E1).
  rewrite E1. cbn [bind fst].
  pose proof (regexp_transform_func_1_plain decls depth r0 _ _ _ Hs0 E1) as H1.
  exists (S (weight r1)). apply transform_loop_ends; [exact H1 | lia].
Qed.

End FirstPass.

End Termination.

(** **** The copy *)

Section CopyEnds.

Local Open Scope nat_scope.

Variable decls : list decl.

Hypothesis all_linked : Loops.linked_decls decls.
Hypothesis acyclic : forall d, ~ Loops.cyclic decls d.

Lemma for_each_total {A B : Type} (f : A -> outcome B) (xs : list A) :
  Forall (fun x => exists y, f x = Done y) xs -> exists ys, for_each f xs = Done ys.
Proof.
  induction 1 as [|x xs (y & Hy) _ (ys & IH)]; cbn [for_each].
  - eexists. reflexivity.
  - rewrite Hy. cbn [bind]. rewrite IH. cbn [bind]. eexists. reflexivity.
Qed.

Lemma copy_regexp_ends (deref : nat -> outcome regexp) (r : regexp) :
  (forall d, In d (Loops.reservs_of r) -> exists r', deref d = Done r') ->
  exists r', copy_regexp deref r = Done r'.
Proof.
  induction r as [u | d | | rs IH | r n IH | rs IH | rs IH] using regexp_rect';
    intros Hd; cbn [copy_regexp Loops.reservs_of] in *;
    try (eexists; reflexivity).
  - apply Hd. left. reflexivity.
  - destruct (for_each_total (copy_regexp deref) rs) as (rs' & ->).
    { rewrite Forall_forall in *. intros x Hx. apply (IH x Hx).
      intros d Hin. apply Hd. apply in_flat_map. exists x. auto. }
    cbn [bind]. eexists. reflexivity.
  - destruct (IH Hd) as (r' & ->). cbn [bind]. eexists. reflexivity.
  - destruct (for_each_total (copy_regexp deref) rs) as (rs' & ->).
    { rewrite Forall_forall in *. intros x Hx. apply (IH x Hx).
      intros d Hin. apply Hd. apply in_flat_map. exists x. auto. }
    cbn [bind]. eexists. reflexivity.
  - destruct (for_each_total (copy_regexp deref) rs) as (rs' & ->).
    { rewrite Forall_forall in *. intros x Hx. apply (IH x Hx).
      intros d Hin. apply Hd. apply in_flat_map. exists x. auto. }
    cbn [bind]. eexists. reflexivity.
Qed.

(** The reservations of [path] are on the way to [d]. *)
Definition on_the_way (path : list nat) (d : nat) : Prop :=
  NoDup path /\ In d path
  /\ (forall x, In x path -> x < length decls)
  /\ forall x, In x path -> x = d \/ Loops.reaches decls x d.

Lemma reserv_regexp_range (d : nat) (r : regexp) :
  Loops.reserv_regexp decls d = Some r -> d < length decls.
Proof.
  unfold Loops.reserv_regexp. intros H. apply nth_error_Some.
  destruct (nth_error decls d); [discriminate | discriminate].
Qed.

Lemma on_the_way_next (path : list nat) (d d' : nat) (rd : regexp) :
  on_the_way path d -> Loops.reserv_regexp decls d = Some rd ->
  In d' (Loops.reservs_of rd) ->
  on_the_way (d' :: path) d'.
Proof.
  intros (Hnd & Hd & Hrange & Hway) Hrd Hd'.
  assert (Loops.reaches decls d d') as Hstep.
  { apply Relation_Operators.t_step. exists rd. split; assumption. }
  assert (~ In d' path) as Hnew.
  { intros Hin. apply (acyclic d'). destruct (Hway d' Hin) as [->|Hreach].
    - exact Hstep.
    - eapply Relation_Operators.t_trans; eassumption. }
  split; [constructor; assumption|]. split; [left; reflexivity|]. split.
  - intros x [<-|Hx]; [|apply Hrange; exact Hx].
    destruct (all_linked d rd Hrd d' Hd') as (r' & Hr'). eapply reserv_regexp_range. exact Hr'.
  - intros x [->|Hx]; [left; reflexivity|]. right.
    destruct (Hway x Hx) as [->|Hreach]; [exact Hstep|].
    eapply Relation_Operators.t_trans; eassumption.
Qed.

Lemma on_the_way_length (path : list nat) (d : nat) :
  on_the_way path d -> length path <= length decls.
Proof.
  intros (Hnd & _ & Hrange & _).
  assert (incl path (seq 0 (length decls))) as Hincl
    by (intros x Hx; apply in_seq; specialize (Hrange x Hx); lia).
  pose proof (NoDup_incl_length Hnd Hincl) as H. rewrite length_seq in H. exact H.
Qed.

Lemma copy_reservation_ends (m : nat) :
  forall path d rd,
  on_the_way path d -> Loops.reserv_regexp decls d = Some rd ->
  length path + m = length decls ->
  exists r', copy_insn_regexp decls (S m) rd = Done r'.
Proof.
  induction m as [|m IH]; intros path d rd Hway Hrd Hlen; cbn [copy_insn_regexp];
    apply copy_regexp_ends; intros d' Hd';
    pose proof (on_the_way_next path d d' rd Hway Hrd Hd') as Hway';
    pose proof (on_the_way_length _ _ Hway') as Hle; cbn [length] in Hle; [lia|].
  destruct (all_linked d rd Hrd d' Hd') as (rd' & Hrd'). rewrite Hrd'.
  apply (IH (d' :: path) d' rd' Hway' Hrd'). cbn [length]. lia.
Qed.

(** The copy of a regexp is made when no reservation names itself. *)
Lemma copy_insn_regexp_ends (r : regexp) :
  Loops.linked decls r ->
  exists r', copy_insn_regexp decls (S (length decls)) r = Done r'.
Proof.
  intros Hr. cbn [copy_insn_regexp]. apply copy_regexp_ends. intros d Hd.
  destruct (Hr d Hd) as (rd & Hrd). rewrite Hrd.
  pose proof (reserv_regexp_range d rd Hrd) as Hrange.
  destruct (length decls) as [|n] eqn:En; [lia|].
  apply (copy_reservation_ends n [d] d rd); [|exact Hrd|cbn [length]; lia].
  split; [constructor; [intros [] | constructor]|]. split; [left; reflexivity|]. split.
  - intros x [<-|[]]. lia.
  - intros x [<-|[]]. left. reflexivity.
Qed.

End CopyEnds.


(** C2: on the regexp of an insn reservation (parsed regexps, as
    [gen_regexp] builds them, in the insn and in the reservations, each
    name of a reservation linked to its declaration, and no reservation
    that names itself, as [check_loops_in_regexps] requires) the
    transformer ends, and the regexp it returns has the shape
    oneof (sequence (allof (unit | nothing ...) ...) ...), each level
    possibly absent: it holds no [rm_reserv], no [rm_repeat], and no
    [rm_oneof] below a sequence or an allof. *)
Theorem transformed_regexp_canonical (decls : list decl) (r : regexp) :
  Loops.linked_decls decls -> Loops.linked decls r ->
  (forall d, ~ Loops.cyclic decls d) ->
  (forall d rd, Loops.reserv_regexp decls d = Some rd -> Cycles.parsed rd) ->
  Cycles.parsed r ->
  (exists depth fuel r', transformed_regexp decls depth fuel r = Done r')
  /\ forall depth fuel r',
       transformed_regexp decls depth fuel r = Done r' ->
       canonical r' /\ lifted false r' = true.
Proof.
  intros Hlinked Hlr Hacyclic Hdecls Hr. split.
  - destruct (copy_insn_regexp_ends decls Hlinked Hacyclic r Hlr) as (r0 & E0).
    exists (S (length decls)).
    exact (transformed_regexp_ends decls Hdecls (S (length decls)) r r0 Hr E0).
  - intros depth fuel r' E.
    pose proof (settled_canonical r'
                  (transformed_regexp_settled decls depth fuel r r' Hdecls Hr E)) as Hc.
    split; [exact Hc | apply canonical_lifted; exact Hc].
Qed.

(** [(a | b), c*2 + r] with the reservation [r = (d | e)]. *)
Definition mixed_decls : list decl := [dm_reserv (rm_oneof [rm_unit 3; rm_unit 4])].

Definition mixed : regexp :=
  rm_sequence [rm_oneof [rm_unit 0; rm_unit 1];
               rm_allof [rm_repeat (rm_unit 2) 2; rm_reserv 0]].

Definition mixed_transformed : regexp :=
  rm_oneof
    [rm_sequence [rm_unit 0; rm_allof [rm_unit 2; rm_unit 3]; rm_unit 2];
     rm_sequence [rm_unit 0; rm_allof [rm_unit 2; rm_unit 4]; rm_unit 2];
     rm_sequence [rm_unit 1; rm_allof [rm_unit 2; rm_unit 3]; rm_unit 2];
     rm_sequence [rm_unit 1; rm_allof [rm_unit 2; rm_unit 4]; rm_unit 2]].

Lemma mixed_decls_reservation (d : nat) (rd : regexp) :
  Loops.reserv_regexp mixed_decls d = Some rd -> rd = rm_oneof [rm_unit 3; rm_unit 4].
Proof.
  intros E. destruct d as [|d]; cbn in E; [|destruct d; discriminate].
  injection E as <-. reflexivity.
Qed.

Lemma transformed_regexp_canonical_witness :
  transformed_regexp mixed_decls 2 10 mixed = Done mixed_transformed
  /\ (exists depth fuel r', transformed_regexp mixed_decls depth fuel mixed = Done r')
  /\ forall depth fuel r',
       transformed_regexp mixed_decls depth fuel mixed = Done r' ->
       canonical r' /\ lifted false r' = true.
Proof.
  split; [vm_compute; reflexivity|].
  apply (transformed_regexp_canonical mixed_decls mixed).
  - intros d rd E d' Hd'. rewrite (mixed_decls_reservation d rd E) in Hd'. destruct Hd'.
  - intros d [<-|[]]. eexists. reflexivity.
  - intros d Hc. apply Operators_Properties.clos_trans_t1n in Hc.
    destruct Hc as [y (rd & E & Hin) | y z (rd & E & Hin) _];
      rewrite (mixed_decls_reservation _ rd E) in Hin; destruct Hin.
  - intros d rd E. rewrite (mixed_decls_reservation d rd E). cbn. auto.
  - cbn. repeat split; lia.
Defined.

End Transform.

(** ** States, arcs and the construction of an automaton *)

Module Automata.
Import Bits Reservs IR.
Import Transform(outcome, Done, Abort, NoFuel).

(** [struct arc].  An [arc_t] is the number [arc_id] of the node's
    allocation; a node that [add_arc] takes from [first_free_arc] counts
    as a new one, nothing refers to a freed arc.  [insn] is the position
    of the [ainsn] in [automaton->ainsn_list]; [first_out_arc] and
    [next_out_arc] make the list the state holds. *)
Record arc : Type := mk_arc {
  arc_id : nat;
  to_state : nat;
  insn : nat;
  state_alts : Z
}.

(** [struct state], the fields the construction uses.  A [state_t] is
    the node's [unique_num], its position in [states]; [reservs = []]
    is [NULL]; [component_states] is the list that
    [next_sorted_alt_state] links, [[]] for [NULL]. *)
Record state : Type := mk_state {
  reservs : reserv_sets_t;
  automaton : nat;
  first_out_arc : list arc;
  it_was_placed_in_stack_for_NDFA_forming : bool;
  it_was_placed_in_stack_for_DFA_forming : bool;
  component_states : list nat
}.

(** A node as [create_node] returns it. *)
Definition create_node : state := mk_state [] 0 [] false false [].

(** The heap of states with [free_states] (top first), [state_table]
    and the number of arcs allocated. *)
Record store : Type := mk_store {
  states : list state;
  free_states : list nat;
  state_table : list nat;
  allocated_arcs_num : nat
}.

(** [initiate_states], [initiate_arcs] *)
Definition initiate_states : store := mk_store [] [] [] 0.

(** [*state] *)
Definition the_state (st : store) (s : nat) : state := nth s (states st) create_node.

Definition set_nth {A : Type} (n : nat) (x : A) (l : list A) : list A :=
  firstn n l ++ x :: skipn (S n) l.

(** Code that reads and writes the heap and may end in [abort ()]. *)
Definition M (A : Type) : Type := store -> outcome (A * store).

Definition ret {A : Type} (a : A) : M A := fun st => Done (a, st).

Definition bind {A B : Type} (m : M A) (k : A -> M B) : M B :=
  fun st =>
    match m st with
    | Done (a, st') => k a st'
    | Abort => Abort
    | NoFuel => NoFuel
    end.

Definition abort {A : Type} : M A := fun _ => Abort.
Definition no_fuel {A : Type} : M A := fun _ => NoFuel.

Declare Scope heap_scope.
Delimit Scope heap_scope with heap.
Notation "x <- e1 ;; e2" := (bind e1 (fun x => e2))
  (at level 61, e1 at next level, right associativity) : heap_scope.
Notation "e1 ;;; e2" := (bind e1 (fun _ => e2))
  (at level 61, right associativity) : heap_scope.
Local Open Scope heap_scope.

Definition read (s : nat) : M state := fun st => Done (the_state st s, st).

Definition write (s : nat) (x : state) : M unit :=
  fun st => Done (tt, mk_store (set_nth s x (states st)) (free_states st)
                        (state_table st) (allocated_arcs_num st)).

(** [struct ainsn]: [insn_reserv_decl] is the position of the insn in
    [description->decls]. *)
Record ainsn : Type := mk_ainsn {
  insn_reserv_decl : nat;
  alt_states : list nat;
  sorted_alt_states : list nat;
  first_insn_with_same_reservs : bool
}.

(** [struct automaton] *)
Record automaton_t : Type := mk_automaton {
  ainsn_list : list ainsn;
  corresponding_automaton_decl : option nat;
  automaton_order_num : nat;
  start_state : nat
}.

(** [alt_state_cmp] orders alt states by the [unique_num] of their
    state; [qsort] with it. *)
Fixpoint insert_sorted (x : nat) (l : list nat) : list nat :=
  match l with
  | [] => [x]
  | y :: l' => if (x <=? y)%nat then x :: l else y :: insert_sorted x l'
  end.

Definition qsort (l : list nat) : list nat := fold_right insert_sorted [] l.

(** The loop of [uniq_sort_alt_states] that drops an alt state whose
    state is the one kept last. *)
Fixpoint uniq_loop (prev_unique_state : nat) (alt_states : list nat) : list nat :=
  match alt_states with
  | [] => []
  | x :: rest =>
    if (x =? prev_unique_state)%nat then uniq_loop prev_unique_state rest
    else x :: uniq_loop x rest
  end.

(** [uniq_sort_alt_states (alt_states_list)]: the list through
    [next_sorted_alt_state]. *)
Definition uniq_sort_alt_states (alt_states_list : list nat) : list nat :=
  match qsort alt_states_list with
  | [] => []
  | x :: rest => x :: uniq_loop x rest
  end.

(** [alt_states_eq] on sorted lists. *)
Fixpoint alt_states_eq (alt_states_1 alt_states_2 : list nat) : bool :=
  match alt_states_1, alt_states_2 with
  | x :: rest_1, y :: rest_2 => (x =? y)%nat && alt_states_eq rest_1 rest_2
  | [], [] => true
  | _, _ => false
  end.

(** [reserv_sets_eq] *)
Fixpoint reserv_sets_eq (reservs_1 reservs_2 : reserv_sets_t) : bool :=
  match reservs_1, reservs_2 with
  | x :: rest_1, y :: rest_2 => (x =? y) && reserv_sets_eq rest_1 rest_2
  | [], [] => true
  | _, _ => false
  end.

(** [state_eq_p] *)
Definition state_eq_p (state_1 state_2 : state) : bool :=
  if negb (automaton state_1 =? automaton state_2)%nat then false
  else
    match component_states state_1, component_states state_2 with
    | [], [] => reserv_sets_eq (reservs state_1) (reservs state_2)
    | _ :: _, _ :: _ => alt_states_eq (component_states state_1) (component_states state_2)
    | _, _ => false
    end.

Section Description.

(** [description->units_num] and the bytes of one cycle of a
    reservation set. *)
Variable units_num : nat.
Variable chars_num : nat.
(** The tables of the exclusion sets and of the patterns. *)
Variable unit_excl_set_table : list Z.
Variable unit_presence_set_table : list (list Z).
Variable unit_final_presence_set_table : list (list Z).
Variable unit_absence_set_table : list (list Z).
Variable unit_final_absence_set_table : list (list Z).
(** [max_cycles_num = description->max_insn_reserv_cycles] *)
Variable max_cycles_num : nat.
(** [units_array], and the field [corresponding_automaton_num] of its
    elements as [units_to_automata_distr] sets it. *)
Variable units_array : list unit_decl.
Variable corresponding_automaton_num : nat -> nat.
(** The option [-ndfa]. *)
Variable ndfa_flag : bool.
(** [description->decls], the position of [advance_cycle_insn_decl] in
    it, and the field [transformed_regexp] of its insn declarations. *)
Variable decls : list decl.
Variable advance_cycle_insn_decl : nat.
Variable transformed_regexp : nat -> regexp.

(** [get_free_state (with_reservs, automaton)] *)
Definition get_free_state (with_reservs : bool) (automaton : nat) : M nat :=
  fun st =>
    if (max_cycles_num <=? 0)%nat then Abort
    else
      match free_states st with
      | result :: rest =>
        let node := the_state st result in
        let node' :=
          mk_state (if with_reservs then alloc_empty_reserv_sets max_cycles_num
                    else reservs node)
                   automaton [] false false [] in
        Done (result, mk_store (set_nth result node' (states st)) rest
                        (state_table st) (allocated_arcs_num st))
      | [] =>
        let node' :=
          mk_state (if with_reservs then alloc_empty_reserv_sets max_cycles_num else [])
                   automaton [] false false [] in
        Done (length (states st),
              mk_store (states st ++ [node']) [] (state_table st) (allocated_arcs_num st))
      end.

(** [free_state (state)] *)
Definition free_state (state : nat) : M unit :=
  fun st => Done (tt, mk_store (states st) (state :: free_states st)
                        (state_table st) (allocated_arcs_num st)).

(** [insert_state (state)]: the entry of [state_table] that
    [state_eq_p] finds, or [state] itself, now in the table. *)
Definition insert_state (state : nat) : M nat :=
  fun st =>
    match find (fun entry => state_eq_p (the_state st entry) (the_state st state))
               (state_table st) with
    | Some entry => Done (entry, st)
    | None => Done (state, mk_store (states st) (free_states st)
                             (state :: state_table st) (allocated_arcs_num st))
    end.

(** [set_state_reserv (state, cycle_num, unit_num)] *)
Definition set_state_reserv (state cycle_num unit_num : nat) : M unit :=
  node <- read state ;;
  match set_unit_reserv max_cycles_num (reservs node) cycle_num unit_num with
  | Some reservs' =>
    write state (mk_state reservs' (automaton node) (first_out_arc node)
                   (it_was_placed_in_stack_for_NDFA_forming node)
                   (it_was_placed_in_stack_for_DFA_forming node)
                   (component_states node))
  | None => abort
  end.

(** [intersected_state_reservs_p (state1, state2)] *)
Definition intersected_state_reservs_p (state1 state2 : nat) : M bool :=
  node1 <- read state1 ;;
  node2 <- read state2 ;;
  if negb (automaton node1 =? automaton node2)%nat then abort
  else ret (reserv_sets_are_intersected units_num chars_num unit_excl_set_table
              unit_presence_set_table unit_final_presence_set_table
              unit_absence_set_table unit_final_absence_set_table
              (reservs node1) (reservs node2)).

(** The end of [states_union] and [state_shift]: the state of the table
    with the reservations of [result]. *)
Definition state_in_table_for (result : nat) : M nat :=
  state_in_table <- insert_state result ;;
  if negb (result =? state_in_table)%nat
  then free_state result ;;; ret state_in_table
  else ret result.

Definition set_reservs (state : nat) (reservs' : reserv_sets_t) : M unit :=
  node <- read state ;;
  write state (mk_state reservs' (automaton node) (first_out_arc node)
                 (it_was_placed_in_stack_for_NDFA_forming node)
                 (it_was_placed_in_stack_for_DFA_forming node)
                 (component_states node)).

(** [states_union (state1, state2, reservs)] *)
Definition states_union (state1 state2 : nat) (reservs_matter : reserv_sets_t) : M nat :=
  node1 <- read state1 ;;
  node2 <- read state2 ;;
  if negb (automaton node1 =? automaton node2)%nat then abort
  else
    result <- get_free_state true (automaton node1) ;;
    set_reservs result
      (reserv_sets_and (reserv_sets_or (reservs node1) (reservs node2)) reservs_matter) ;;;
    state_in_table_for result.

(** [state_shift (state, reservs)] *)
Definition state_shift (state : nat) (reservs_matter : reserv_sets_t) : M nat :=
  node <- read state ;;
  result <- get_free_state true (automaton node) ;;
  node' <- read result ;;
  set_reservs result
    (reserv_sets_and (reserv_sets_shift (reservs node') (reservs node)) reservs_matter) ;;;
  state_in_table_for result.

(** [find_arc (from_state, to_state, insn)] *)
Definition find_arc (from_state : state) (to_state' insn' : nat) : option arc :=
  find (fun arc => (to_state arc =? to_state')%nat && (insn arc =? insn')%nat)
       (first_out_arc from_state).

Definition set_first_out_arc (state : nat) (arcs : list arc) : M unit :=
  node <- read state ;;
  write state (mk_state (reservs node) (automaton node) arcs
                 (it_was_placed_in_stack_for_NDFA_forming node)
                 (it_was_placed_in_stack_for_DFA_forming node)
                 (component_states node)).

(** [add_arc (from_state, to_state, ainsn, state_alts)]: the [arc_id]
    of the arc. *)
Definition add_arc (from_state to_state' ainsn' : nat) (state_alts' : Z) : M nat :=
  node <- read from_state ;;
  match find_arc node to_state' ainsn' with
  | Some new_arc => ret (arc_id new_arc)
  | None =>
    fun st =>
      let new_arc := mk_arc (allocated_arcs_num st) to_state' ainsn' state_alts' in
      (set_first_out_arc from_state (new_arc :: first_out_arc node) ;;;
       ret (arc_id new_arc))
        (mk_store (states st) (free_states st) (state_table st)
           (S (allocated_arcs_num st)))
  end.

(** The search of [remove_arc]; [None] is its [abort ()]. *)
Fixpoint unlink_arc (arcs : list arc) (arc' : nat) : option (list arc) :=
  match arcs with
  | [] => None
  | curr_arc :: rest =>
    if (arc_id curr_arc =? arc')%nat then Some rest
    else match unlink_arc rest arc' with
         | Some rest' => Some (curr_arc :: rest')
         | None => None
         end
  end.

(** [remove_arc (from_state, arc)] *)
Definition remove_arc (from_state arc' : nat) : M unit :=
  node <- read from_state ;;
  match unlink_arc (first_out_arc node) arc' with
  | Some arcs => set_first_out_arc from_state arcs
  | None => abort
  end.

(** An assignment to the fields [to_state] and [state_alts] of the arc
    [arc'] of [from_state]. *)
Definition update_arc (from_state arc' : nat) (f : arc -> arc) : M unit :=
  node <- read from_state ;;
  set_first_out_arc from_state
    (map (fun a => if (arc_id a =? arc')%nat then f a else a) (first_out_arc node)).

(** [create_ainsns]: one [ainsn] for each insn declaration, from
    declaration [i] on. *)
Fixpoint create_ainsns (ds : list decl) (i : nat) : list ainsn :=
  match ds with
  | [] => []
  | dm_insn_reserv _ _ :: ds' => mk_ainsn i [] [] false :: create_ainsns ds' (S i)
  | _ :: ds' => create_ainsns ds' (S i)
  end.

(** *** The alt states of the insns *)

(** [process_seq_for_forming_states (regexp, automaton, curr_cycle)]
    on [state_being_formed]. *)
Fixpoint process_seq_for_forming_states (state_being_formed : nat) (regexp : regexp)
    (automaton : automaton_t) (curr_cycle : nat) : M nat :=
  match regexp with
  | rm_unit unit_num =>
    if (corresponding_automaton_num unit_num =? automaton_order_num automaton)%nat
    then set_state_reserv state_being_formed curr_cycle unit_num ;;; ret curr_cycle
    else ret curr_cycle
  | rm_sequence regexps =>
    (fix loop (regexps : list IR.regexp) (curr_cycle : nat) : M nat :=
       match regexps with
       | [] => ret curr_cycle
       | r :: regexps' =>
         cycle <- process_seq_for_forming_states state_being_formed r automaton curr_cycle ;;
         loop regexps' (cycle + 1)%nat
       end) regexps curr_cycle
  | rm_allof regexps =>
    (fix loop (regexps : list IR.regexp) (finish_cycle : nat) : M nat :=
       match regexps with
       | [] => ret finish_cycle
       | r :: regexps' =>
         cycle <- process_seq_for_forming_states state_being_formed r automaton curr_cycle ;;
         loop regexps' (if (finish_cycle <? cycle)%nat then cycle else finish_cycle)
       end) regexps 0%nat
  | rm_nothing => ret curr_cycle
  | _ => abort
  end.

(** The branch [regexp->mode != rm_oneof] of
    [process_alts_for_forming_states] with [finish_forming_alt_state]:
    the new head of [curr_ainsn->alt_states]. *)
Definition form_alt_state (regexp : regexp) (automaton : automaton_t)
    (curr_alt_states : list nat) : M (list nat) :=
  state_being_formed <- get_free_state true (automaton_order_num automaton) ;;
  process_seq_for_forming_states state_being_formed regexp automaton 0 ;;;
  state_in_table <- insert_state state_being_formed ;;
  if negb (state_in_table =? state_being_formed)%nat
  then free_state state_being_formed ;;; ret (state_in_table :: curr_alt_states)
  else ret (state_being_formed :: curr_alt_states).

(** [process_alts_for_forming_states (regexp, automaton, 1)], the call
    on an operand of a oneof. *)
Definition process_alts_inside_oneof (regexp : regexp) (automaton : automaton_t)
    (curr_alt_states : list nat) : M (list nat) :=
  match regexp with
  | rm_oneof _ => abort
  | _ => form_alt_state regexp automaton curr_alt_states
  end.

(** The loop over the operands of a oneof, the last one first. *)
Fixpoint process_alts_loop (regexps : list regexp) (automaton : automaton_t)
    (curr_alt_states : list nat) : M (list nat) :=
  match regexps with
  | [] => ret curr_alt_states
  | r :: regexps' =>
    curr_alt_states' <- process_alts_inside_oneof r automaton curr_alt_states ;;
    process_alts_loop regexps' automaton curr_alt_states'
  end.

(** [process_alts_for_forming_states (regexp, automaton, 0)] *)
Definition process_alts_for_forming_states (regexp : regexp) (automaton : automaton_t)
    (curr_alt_states : list nat) : M (list nat) :=
  match regexp with
  | rm_oneof regexps => process_alts_loop (rev regexps) automaton curr_alt_states
  | _ => form_alt_state regexp automaton curr_alt_states
  end.

(** The loop of [create_alt_states] over [automaton->ainsn_list]. *)
Fixpoint create_alt_states_loop (automaton : automaton_t) (ainsns : list ainsn)
    : M (list ainsn) :=
  match ainsns with
  | [] => ret []
  | curr_ainsn :: ainsns' =>
    curr_ainsn' <-
      (if negb (insn_reserv_decl curr_ainsn =? advance_cycle_insn_decl)%nat
       then
         alt_states' <- process_alts_for_forming_states
                          (transformed_regexp (insn_reserv_decl curr_ainsn))
                          automaton [] ;;
         ret (mk_ainsn (insn_reserv_decl curr_ainsn) alt_states'
                (uniq_sort_alt_states alt_states')
                (first_insn_with_same_reservs curr_ainsn))
       else ret curr_ainsn) ;;
    rest <- create_alt_states_loop automaton ainsns' ;;
    ret (curr_ainsn' :: rest)
  end.

Definition set_ainsn_list (automaton : automaton_t) (ainsns : list ainsn) : automaton_t :=
  mk_automaton ainsns (corresponding_automaton_decl automaton)
    (automaton_order_num automaton) (start_state automaton).

(** [create_alt_states (automaton)] *)
Definition create_alt_states (automaton : automaton_t) : M automaton_t :=
  ainsns <- create_alt_states_loop automaton (ainsn_list automaton) ;;
  ret (set_ainsn_list automaton ainsns).

(** The loop of [form_ainsn_with_same_reservs]; [first_insns] holds the
    sorted alt states of the first insns found. *)
Fixpoint form_ainsn_with_same_reservs_loop (ainsns : list ainsn)
    (first_insns : list (list nat)) : list ainsn :=
  match ainsns with
  | [] => []
  | curr_ainsn :: ainsns' =>
    if (insn_reserv_decl curr_ainsn =? advance_cycle_insn_decl)%nat then
      mk_ainsn (insn_reserv_decl curr_ainsn) (alt_states curr_ainsn)
        (sorted_alt_states curr_ainsn) true
      :: form_ainsn_with_same_reservs_loop ainsns' first_insns
    else if existsb (alt_states_eq (sorted_alt_states curr_ainsn)) first_insns then
      mk_ainsn (insn_reserv_decl curr_ainsn) (alt_states curr_ainsn)
        (sorted_alt_states curr_ainsn) false
      :: form_ainsn_with_same_reservs_loop ainsns' first_insns
    else
      mk_ainsn (insn_reserv_decl curr_ainsn) (alt_states curr_ainsn)
        (sorted_alt_states curr_ainsn) true
      :: form_ainsn_with_same_reservs_loop ainsns'
           (first_insns ++ [sorted_alt_states curr_ainsn])
  end.

(** [form_ainsn_with_same_reservs (automaton)] *)
Definition form_ainsn_with_same_reservs (automaton : automaton_t) : automaton_t :=
  set_ainsn_list automaton (form_ainsn_with_same_reservs_loop (ainsn_list automaton) []).

(** *** The automaton *)

(** [unit->automaton_decl == automaton->corresponding_automaton_decl] *)
Definition belongs (automaton : automaton_t) (unit : unit_decl) : bool :=
  match automaton_decl unit, corresponding_automaton_decl automaton with
  | Some d, Some d' => (d =? d')%nat
  | None, None => true
  | _, _ => false
  end.

(** The condition of [form_reservs_matter] on [unit] at [cycle]. *)
Definition matters (automaton : automaton_t) (cycle : nat) (unit : unit_decl) : bool :=
  belongs automaton unit
  && ((min_occ_cycle_num unit <=? Z.of_nat cycle) || query_p unit || in_set_p unit).

(** The loop of [form_reservs_matter] over the units. *)
Fixpoint form_reservs_matter_units (automaton : automaton_t) (cycle : nat)
    (units : list nat) (reservs_matter : reserv_sets_t) : option reserv_sets_t :=
  match units with
  | [] => Some reservs_matter
  | unit :: units' =>
    match nth_error units_array unit with
    | None => None
    | Some unit_decl =>
      if matters automaton cycle unit_decl then
        match set_unit_reserv max_cycles_num reservs_matter cycle unit with
        | Some reservs_matter' =>
          form_reservs_matter_units automaton cycle units' reservs_matter'
        | None => None
        end
      else form_reservs_matter_units automaton cycle units' reservs_matter
    end
  end.

(** The loop of [form_reservs_matter] over the cycles. *)
Fixpoint form_reservs_matter_cycles (automaton : automaton_t) (cycles : list nat)
    (reservs_matter : reserv_sets_t) : option reserv_sets_t :=
  match cycles with
  | [] => Some reservs_matter
  | cycle :: cycles' =>
    match form_reservs_matter_units automaton cycle (seq 0 units_num) reservs_matter with
    | Some reservs_matter' => form_reservs_matter_cycles automaton cycles' reservs_matter'
    | None => None
    end
  end.

(** [form_reservs_matter (automaton)] *)
Definition form_reservs_matter (automaton : automaton_t) : option reserv_sets_t :=
  form_reservs_matter_cycles automaton (seq 0 max_cycles_num)
    (alloc_empty_reserv_sets max_cycles_num).

Definition set_placed_NDFA (state : nat) : M unit :=
  node <- read state ;;
  write state (mk_state (reservs node) (automaton node) (first_out_arc node) true
                 (it_was_placed_in_stack_for_DFA_forming node) (component_states node)).

Definition set_placed_DFA (state : nat) : M unit :=
  node <- read state ;;
  write state (mk_state (reservs node) (automaton node) (first_out_arc node)
                 (it_was_placed_in_stack_for_NDFA_forming node) true
                 (component_states node)).

Definition set_component_states (state : nat) (alt_states' : list nat) : M unit :=
  node <- read state ;;
  write state (mk_state (reservs node) (automaton node) (first_out_arc node)
                 (it_was_placed_in_stack_for_NDFA_forming node)
                 (it_was_placed_in_stack_for_DFA_forming node) alt_states').

(** [state2] goes on [state_stack] (top first) unless it has been
    there. *)
Definition place_in_stack_for_NDFA (state2 : nat) (state_stack : list nat) : M (list nat) :=
  node2 <- read state2 ;;
  if negb (it_was_placed_in_stack_for_NDFA_forming node2)
  then set_placed_NDFA state2 ;;; ret (state2 :: state_stack)
  else ret state_stack.

(** The first loop of [make_automaton] over [ainsn->alt_states]: the
    arcs of [ainsn] from [state]; the result is [added_arc] with the
    stack. *)
Fixpoint add_alt_arcs (state ainsn' : nat) (reservs_matter : reserv_sets_t)
    (alts : list nat) (added_arc : option nat) (state_stack : list nat)
    : M (option nat * list nat) :=
  match alts with
  | [] => ret (added_arc, state_stack)
  | state2 :: alts' =>
    intersected <- intersected_state_reservs_p state state2 ;;
    if negb intersected then
      state2' <- states_union state state2 reservs_matter ;;
      state_stack' <- place_in_stack_for_NDFA state2' state_stack ;;
      added_arc' <- add_arc state state2' ainsn' 1 ;;
      if negb ndfa_flag then ret (Some added_arc', state_stack')
      else add_alt_arcs state ainsn' reservs_matter alts' (Some added_arc') state_stack'
    else add_alt_arcs state ainsn' reservs_matter alts' added_arc state_stack
  end.

(** The second loop: the alternatives [state] can take. *)
Fixpoint count_state_alts (state added_arc : nat) (alts : list nat) : M unit :=
  match alts with
  | [] => ret tt
  | state2 :: alts' =>
    intersected <- intersected_state_reservs_p state state2 ;;
    (if negb intersected
     then update_arc state added_arc
            (fun a => mk_arc (arc_id a) (to_state a) (insn a) (state_alts a + 1))
     else ret tt) ;;;
    count_state_alts state added_arc alts'
  end.

(** The loop of [make_automaton] over [automaton->ainsn_list]; [ainsn']
    numbers the insns; the result is [advance_cycle_ainsn] with the
    stack. *)
Fixpoint ainsns_loop (state : nat) (reservs_matter : reserv_sets_t)
    (ainsns : list ainsn) (ainsn' : nat) (advance_cycle_ainsn : option nat)
    (state_stack : list nat) : M (option nat * list nat) :=
  match ainsns with
  | [] => ret (advance_cycle_ainsn, state_stack)
  | ainsn :: ainsns' =>
    if first_insn_with_same_reservs ainsn then
      if negb (insn_reserv_decl ainsn =? advance_cycle_insn_decl)%nat then
        r <- add_alt_arcs state ainsn' reservs_matter (alt_states ainsn) None state_stack ;;
        (match fst r with
         | Some added_arc =>
           if negb ndfa_flag then
             update_arc state added_arc
               (fun a => mk_arc (arc_id a) (to_state a) (insn a) 0) ;;;
             count_state_alts state added_arc (alt_states ainsn)
           else ret tt
         | None => ret tt
         end) ;;;
        ainsns_loop state reservs_matter ainsns' (S ainsn') advance_cycle_ainsn (snd r)
      else ainsns_loop state reservs_matter ainsns' (S ainsn') (Some ainsn') state_stack
    else ainsns_loop state reservs_matter ainsns' (S ainsn') advance_cycle_ainsn state_stack
  end.

(** The [while] loop of [make_automaton]. *)
Fixpoint make_automaton_loop (fuel : nat) (automaton : automaton_t)
    (reservs_matter : reserv_sets_t) (state_stack : list nat) : M unit :=
  match state_stack with
  | [] => ret tt
  | state :: state_stack' =>
    match fuel with
    | O => no_fuel
    | S fuel' =>
      r <- ainsns_loop state reservs_matter (ainsn_list automaton) 0 None state_stack' ;;
      state2 <- state_shift state reservs_matter ;;
      state_stack'' <- place_in_stack_for_NDFA state2 (snd r) ;;
      match fst r with
      | None => abort
      | Some advance_cycle_ainsn =>
        add_arc state state2 advance_cycle_ainsn 1 ;;;
        make_automaton_loop fuel' automaton reservs_matter state_stack''
      end
    end
  end.

(** [make_automaton (automaton)] *)
Definition make_automaton (fuel : nat) (automaton : automaton_t) : M automaton_t :=
  match form_reservs_matter automaton with
  | None => abort
  | Some reservs_matter =>
    start_state' <- (s <- get_free_state true (automaton_order_num automaton) ;;
                     insert_state s) ;;
    set_placed_NDFA start_state' ;;;
    make_automaton_loop fuel automaton reservs_matter [start_state'] ;;;
    ret (mk_automaton (ainsn_list automaton) (corresponding_automaton_decl automaton)
           (automaton_order_num automaton) start_state')
  end.

(** *** From the NDFA to the DFA *)

(** [form_arcs_marked_by_insn (state)]: the lists through
    [next_arc_marked_by_insn], one for each declaration. *)
Fixpoint form_arcs_marked_by_insn (automaton : automaton_t) (arcs : list arc)
    (arcs_marked_by_insn : list (list arc)) : list (list arc) :=
  match arcs with
  | [] => arcs_marked_by_insn
  | arc :: arcs' =>
    let d := insn_reserv_decl
               (nth (insn arc) (ainsn_list automaton) (mk_ainsn 0 [] [] false)) in
    form_arcs_marked_by_insn automaton arcs'
      (set_nth d (arc :: nth d arcs_marked_by_insn []) arcs_marked_by_insn)
  end.

(** The loop of [create_composed_state] over the component states of
    the state an arc enters. *)
Fixpoint add_component_alt_states (components : list nat) (curr_alt_state : list nat)
    : M (list nat) :=
  match components with
  | [] => ret curr_alt_state
  | alt_state :: components' =>
    node <- read alt_state ;;
    match component_states node with
    | [] => add_component_alt_states components' (alt_state :: curr_alt_state)
    | _ :: _ => abort
    end
  end.

(** The loop of [create_composed_state] over [arcs_marked_by_insn]. *)
Fixpoint collect_alt_states (arcs : list arc) (curr_alt_state : list nat) : M (list nat) :=
  match arcs with
  | [] => ret curr_alt_state
  | curr_arc :: arcs' =>
    node <- read (to_state curr_arc) ;;
    match component_states node with
    | [] => collect_alt_states arcs' (to_state curr_arc :: curr_alt_state)
    | components =>
      curr_alt_state' <- add_component_alt_states components curr_alt_state ;;
      collect_alt_states arcs' curr_alt_state'
    end
  end.

(** The arcs a new composed state gets: those of its components. *)
Fixpoint add_arcs_of (state : nat) (arcs : list arc) : M unit :=
  match arcs with
  | [] => ret tt
  | curr_arc :: arcs' =>
    add_arc state (to_state curr_arc) (insn curr_arc) 1 ;;;
    add_arcs_of state arcs'
  end.

Fixpoint add_component_arcs (state : nat) (components : list nat) : M unit :=
  match components with
  | [] => ret tt
  | curr_alt_state :: components' =>
    node <- read curr_alt_state ;;
    add_arcs_of state (first_out_arc node) ;;;
    add_component_arcs state components'
  end.

(** The removal of the other arcs of the insn; the result is
    [alts_number]. *)
Fixpoint remove_arcs (original_state : nat) (arcs : list arc) (alts_number : Z) : M Z :=
  match arcs with
  | [] => ret alts_number
  | curr_arc :: arcs' =>
    remove_arc original_state (arc_id curr_arc) ;;;
    remove_arcs original_state arcs' (alts_number + 1)
  end.

(** [create_composed_state (original_state, arcs_marked_by_insn,
    &state_stack)]: [new_state_p] with the stack. *)
Definition create_composed_state (original_state : nat) (arcs_marked_by_insn : list arc)
    (state_stack : list nat) : M (bool * list nat) :=
  match arcs_marked_by_insn with
  | [] => ret (false, state_stack)
  | first_arc :: next_arcs =>
    r <- match next_arcs with
         | [] => ret (to_state first_arc, false)
         | _ :: _ =>
           if negb ndfa_flag then abort
           else
             to_node <- read (to_state first_arc) ;;
             state <- get_free_state false (automaton to_node) ;;
             curr_alt_state <- collect_alt_states arcs_marked_by_insn [] ;;
             match uniq_sort_alt_states curr_alt_state with
             | [] => abort
             | [canonical] => free_state state ;;; ret (canonical, false)
             | canonical_alt_states_list =>
               set_component_states state canonical_alt_states_list ;;;
               state_in_table <- insert_state state ;;
               in_table <- read state_in_table ;;
               r' <- (if negb (state_in_table =? state)%nat then
                        if negb (it_was_placed_in_stack_for_DFA_forming in_table)
                        then abort
                        else free_state state ;;; ret (state_in_table, false)
                      else
                        if it_was_placed_in_stack_for_DFA_forming in_table then abort
                        else
                          add_component_arcs state canonical_alt_states_list ;;;
                          ret (state, true)) ;;
               update_arc original_state (arc_id first_arc)
                 (fun a => mk_arc (arc_id a) (fst r') (insn a) (state_alts a)) ;;;
               alts_number <- remove_arcs original_state next_arcs 0 ;;
               update_arc original_state (arc_id first_arc)
                 (fun a => mk_arc (arc_id a) (to_state a) (insn a) alts_number) ;;;
               ret r'
             end
         end ;;
    node <- read (fst r) ;;
    if negb (it_was_placed_in_stack_for_DFA_forming node)
    then set_placed_DFA (fst r) ;;; ret (snd r, fst r :: state_stack)
    else ret (snd r, state_stack)
  end.

(** The loop of [NDFA_to_DFA] over [description->decls]. *)
Fixpoint decls_loop (state : nat) (arcs_marked_by_insn : list (list arc))
    (ds : list decl) (i : nat) (state_stack : list nat) : M (list nat) :=
  match ds with
  | [] => ret state_stack
  | dm_insn_reserv _ _ :: ds' =>
    r <- create_composed_state state (nth i arcs_marked_by_insn []) state_stack ;;
    decls_loop state arcs_marked_by_insn ds' (S i) (snd r)
  | _ :: ds' => decls_loop state arcs_marked_by_insn ds' (S i) state_stack
  end.

(** The [while] loop of [NDFA_to_DFA]. *)
Fixpoint NDFA_to_DFA_loop (fuel : nat) (automaton : automaton_t) (state_stack : list nat)
    : M unit :=
  match state_stack with
  | [] => ret tt
  | state :: state_stack' =>
    match fuel with
    | O => no_fuel
    | S fuel' =>
      node <- read state ;;
      state_stack'' <- decls_loop state
                         (form_arcs_marked_by_insn automaton (first_out_arc node)
                            (repeat [] (length decls)))
                         decls 0 state_stack' ;;
      NDFA_to_DFA_loop fuel' automaton state_stack''
    end
  end.

(** [NDFA_to_DFA (automaton)] *)
Definition NDFA_to_DFA (fuel : nat) (automaton : automaton_t) : M unit :=
  set_placed_DFA (start_state automaton) ;;;
  NDFA_to_DFA_loop fuel automaton [start_state automaton].

(** *** The first cycle of a state *)

(** [first_cycle_unit_presence (state, unit_num)]; [None] is the
    [abort ()] of [test_unit_reserv]. *)
Definition first_cycle_unit_presence (st : store) (state unit_num : nat) : option bool :=
  match component_states (the_state st state) with
  | [] => test_unit_reserv max_cycles_num (reservs (the_state st state)) 0 unit_num
  | first_component :: _ =>
    test_unit_reserv max_cycles_num (reservs (the_state st first_component)) 0 unit_num
  end.

End Description.


(** *** The mask [reservs_matter] *)

Lemma set_nth_length {A : Type} (n : nat) (x : A) (l : list A) :
  (n < length l)%nat -> length (set_nth n x l) = length l.
Proof.
  intros H. unfold set_nth.
  rewrite length_app, length_firstn. cbn [length]. rewrite length_skipn. lia.
Qed.

Lemma nth_set_nth {A : Type} (n m : nat) (x d : A) (l : list A) :
  (n < length l)%nat ->
  nth m (set_nth n x l) d = if (m =? n)%nat then x else nth m l d.
Proof.
  intros H. unfold set_nth.
  assert (length (firstn n l) = n) as Hlen by (rewrite length_firstn; lia).
  destruct (Nat.eqb_spec m n) as [->|Hne].
  - rewrite app_nth2 by lia. rewrite Hlen, Nat.sub_diag. reflexivity.
  - destruct (Nat.lt_ge_cases m n) as [Hlt|Hge].
    + rewrite app_nth1 by lia. rewrite nth_firstn.
      destruct (Nat.ltb_spec m n); [reflexivity | lia].
    + rewrite app_nth2 by lia. rewrite Hlen.
      replace (m - n)%nat with (S (m - n - 1)) by lia. cbn [nth].
      rewrite nth_skipn. f_equal. lia.
Qed.

Lemma nth_set_nth_end {A : Type} (x d : A) (l : list A) :
  nth (length l) (l ++ [x]) d = x.
Proof. rewrite app_nth2 by lia. rewrite Nat.sub_diag. reflexivity. Qed.

Lemma set_unit_reserv_spec (max_cycles_num : nat) (rm : reserv_sets_t) (c u : nat) :
  (c < max_cycles_num)%nat -> length rm = max_cycles_num ->
  exists rm',
    set_unit_reserv max_cycles_num rm c u = Some rm'
    /\ length rm' = max_cycles_num
    /\ forall c' u', TEST_BIT (nth c' rm' 0) u'
                     = TEST_BIT (nth c' rm 0) u' || ((c' =? c)%nat && (u =? u')%nat).
Proof.
  intros Hc Hlen. unfold set_unit_reserv.
  destruct (Nat.leb_spec max_cycles_num c) as [Hle|_]; [lia|].
  eexists. split; [reflexivity|].
  change (firstn c rm ++ SET_BIT (nth c rm 0) u :: skipn (S c) rm)
    with (set_nth c (SET_BIT (nth c rm 0) u) rm).
  split; [rewrite set_nth_length; lia|].
  intros c' u'. rewrite nth_set_nth by lia.
  destruct (Nat.eqb_spec c' c) as [->|Hne].
  - rewrite TEST_BIT_SET_BIT. reflexivity.
  - cbn [andb]. rewrite orb_false_r. reflexivity.
Qed.

Lemma reserv_sets_or_nth (a b : reserv_sets_t) :
  length a = length b ->
  length (reserv_sets_or a b) = length a
  /\ forall c, nth c (reserv_sets_or a b) 0 = Z.lor (nth c a 0) (nth c b 0).
Proof.
  revert b. induction a as [|x a IH]; intros [|y b] Hlen; try discriminate.
  - split; [reflexivity|]. intros [|c]; reflexivity.
  - cbn [length] in Hlen. destruct (IH b ltac:(lia)) as [Hl Hn].
    cbn [reserv_sets_or length]. split; [lia|]. intros [|c]; cbn [nth]; auto.
Qed.

Lemma reserv_sets_and_nth (a b : reserv_sets_t) :
  length a = length b ->
  length (reserv_sets_and a b) = length a
  /\ forall c, nth c (reserv_sets_and a b) 0 = Z.land (nth c a 0) (nth c b 0).
Proof.
  revert b. induction a as [|x a IH]; intros [|y b] Hlen; try discriminate.
  - split; [reflexivity|]. intros [|c]; reflexivity.
  - cbn [length] in Hlen. destruct (IH b ltac:(lia)) as [Hl Hn].
    cbn [reserv_sets_and length]. split; [lia|]. intros [|c]; cbn [nth]; auto.
Qed.

Lemma reserv_sets_eq_eq (a b : reserv_sets_t) : reserv_sets_eq a b = true -> a = b.
Proof.
  revert b. induction a as [|x a IH]; intros [|y b] H; try discriminate; [reflexivity|].
  cbn [reserv_sets_eq] in H. apply andb_true_iff in H. destruct H as [Hxy H].
  apply Z.eqb_eq in Hxy. subst. f_equal. auto.
Qed.

Section Mask.

Variable units_num : nat.
Variable max_cycles_num : nat.
Variable units_array : list unit_decl.
Variable automaton : automaton_t.

Hypothesis units_array_length : length units_array = units_num.

(** The condition on the unit with number [u]. *)
Definition unit_matters (c u : nat) : bool :=
  match nth_error units_array u with
  | Some d => matters automaton c d
  | None => false
  end.

Lemma form_reservs_matter_units_spec (c : nat) (us : list nat) :
  (c < max_cycles_num)%nat ->
  Forall (fun u => (u < length units_array)%nat) us ->
  forall rm, length rm = max_cycles_num ->
  exists rm',
    form_reservs_matter_units max_cycles_num units_array automaton c us rm = Some rm'
    /\ length rm' = max_cycles_num
    /\ forall c' u', TEST_BIT (nth c' rm' 0) u'
                     = TEST_BIT (nth c' rm 0) u'
                       || ((c' =? c)%nat && existsb (Nat.eqb u') us && unit_matters c u').
Proof.
  intros Hc. induction 1 as [|u us Hu _ IH]; intros rm Hlen.
  - exists rm. split; [reflexivity|]. split; [assumption|]. intros c' u'.
    cbn [existsb]. rewrite andb_false_r. cbn [andb]. rewrite orb_false_r. reflexivity.
  - cbn [form_reservs_matter_units].
    destruct (nth_error units_array u) as [d|] eqn:Ed;
      [|apply nth_error_None in Ed; lia].
    destruct (matters automaton c d) eqn:Em.
    + destruct (set_unit_reserv_spec max_cycles_num rm c u Hc Hlen) as (rm1 & -> & Hl1 & Hb1).
      destruct (IH rm1 Hl1) as (rm' & -> & Hl' & Hb').
      exists rm'. split; [reflexivity|]. split; [assumption|]. intros c' u'.
      rewrite Hb', Hb1. cbn [existsb].
      destruct (Nat.eqb_spec c' c) as [->|]; cbn [andb]; [|rewrite !orb_false_r; reflexivity].
      rewrite (Nat.eqb_sym u u').
      destruct (Nat.eqb_spec u' u) as [->|]; cbn [orb andb]; [|rewrite orb_false_r; reflexivity].
      unfold unit_matters at 2. rewrite Ed, Em.
      destruct (TEST_BIT (nth c rm 0) u); reflexivity.
    + destruct (IH rm Hlen) as (rm' & -> & Hl' & Hb').
      exists rm'. split; [reflexivity|]. split; [assumption|]. intros c' u'.
      rewrite Hb'. cbn [existsb]. f_equal.
      destruct (Nat.eqb_spec c' c) as [->|]; cbn [andb]; [|reflexivity].
      destruct (Nat.eqb_spec u' u) as [->|]; cbn [orb andb]; [|reflexivity].
      unfold unit_matters. rewrite Ed, Em. rewrite andb_false_r. reflexivity.
Qed.

Lemma existsb_seq (u n : nat) : existsb (Nat.eqb u) (seq 0 n) = (u <? n)%nat.
Proof.
  destruct (Nat.ltb_spec u n) as [Hlt|Hge].
  - apply existsb_exists. exists u. split; [apply in_seq; lia | apply Nat.eqb_refl].
  - destruct (existsb (Nat.eqb u) (seq 0 n)) eqn:E; [|reflexivity].
    apply existsb_exists in E. destruct E as (x & Hx & Heq).
    apply in_seq in Hx. apply Nat.eqb_eq in Heq. lia.
Qed.

Lemma unit_matters_range (c u : nat) :
  (u <? units_num)%nat && unit_matters c u = unit_matters c u.
Proof.
  destruct (Nat.ltb_spec u units_num) as [|Hge]; [reflexivity|].
  unfold unit_matters.
  destruct (nth_error units_array u) eqn:E; [|reflexivity].
  assert (u < length units_array)%nat by (apply nth_error_Some; congruence). lia.
Qed.

Lemma form_reservs_matter_cycles_spec (cs : list nat) :
  Forall (fun c => (c < max_cycles_num)%nat) cs ->
  forall rm, length rm = max_cycles_num ->
  exists rm',
    form_reservs_matter_cycles units_num max_cycles_num units_array automaton cs rm
    = Some rm'
    /\ length rm' = max_cycles_num
    /\ forall c' u', TEST_BIT (nth c' rm' 0) u'
                     = TEST_BIT (nth c' rm 0) u'
                       || (existsb (Nat.eqb c') cs && unit_matters c' u').
Proof.
  induction 1 as [|c cs Hc _ IH]; intros rm Hlen.
  - exists rm. split; [reflexivity|]. split; [assumption|]. intros c' u'.
    cbn [existsb andb]. rewrite orb_false_r. reflexivity.
  - cbn [form_reservs_matter_cycles].
    destruct (form_reservs_matter_units_spec c (seq 0 units_num) Hc) with (rm := rm)
      as (rm1 & -> & Hl1 & Hb1); [|assumption|].
    { apply Forall_forall. intros u Hu. apply in_seq in Hu. lia. }
    destruct (IH rm1 Hl1) as (rm' & -> & Hl' & Hb').
    exists rm'. split; [reflexivity|]. split; [assumption|]. intros c' u'.
    rewrite Hb', Hb1, existsb_seq. cbn [existsb].
    rewrite <- andb_assoc, unit_matters_range.
    destruct (Nat.eqb_spec c' c) as [->|]; cbn [andb orb].
    + destruct (TEST_BIT (nth c rm 0) u'), (unit_matters c u'),
        (existsb (Nat.eqb c) cs); reflexivity.
    + rewrite orb_false_r. reflexivity.
Qed.

(** [form_reservs_matter] returns the mask of [matters]. *)
Lemma form_reservs_matter_spec :
  exists reservs_matter,
    form_reservs_matter units_num max_cycles_num units_array automaton
    = Some reservs_matter
    /\ length reservs_matter = max_cycles_num
    /\ forall c u, (c < max_cycles_num)%nat ->
                   TEST_BIT (nth c reservs_matter 0) u = unit_matters c u.
Proof.
  unfold form_reservs_matter.
  destruct (form_reservs_matter_cycles_spec (seq 0 max_cycles_num))
    with (rm := alloc_empty_reserv_sets max_cycles_num) as (rm & E & Hl & Hb).
  { apply Forall_forall. intros c Hc. apply in_seq in Hc. lia. }
  { apply repeat_length. }
  exists rm. split; [exact E|]. split; [exact Hl|]. intros c u Hc.
  rewrite Hb, existsb_seq. unfold alloc_empty_reserv_sets.
  rewrite nth_repeat, TEST_BIT_0.
  destruct (Nat.ltb_spec c max_cycles_num); [reflexivity | lia].
Qed.

End Mask.


(** *** [states_union] *)

(** The free states are nodes of the heap. *)
Definition free_states_allocated (st : store) : Prop :=
  Forall (fun s => (s < length (states st))%nat) (free_states st).

Lemma get_free_state_spec (max_cycles_num : nat) (with_reservs : bool) (a : nat)
    (st : store) result st1 :
  free_states_allocated st ->
  get_free_state max_cycles_num with_reservs a st = Done (result, st1) ->
  (result < length (states st1))%nat
  /\ (length (states st) <= length (states st1))%nat
  /\ component_states (the_state st1 result) = []
  /\ automaton (the_state st1 result) = a
  /\ first_out_arc (the_state st1 result) = []
  /\ (with_reservs = true ->
      reservs (the_state st1 result) = alloc_empty_reserv_sets max_cycles_num)
  /\ state_table st1 = state_table st
  /\ allocated_arcs_num st1 = allocated_arcs_num st
  /\ (forall s, s <> result -> (s < length (states st))%nat ->
                the_state st1 s = the_state st s)
  /\ free_states_allocated st1.
Proof.
  intros Hfree E. unfold get_free_state in E.
  destruct (max_cycles_num <=? 0)%nat; [discriminate|].
  destruct (free_states st) as [|r rest] eqn:Ef.
  - injection E as <- <-. unfold the_state. cbn [states state_table allocated_arcs_num].
    rewrite length_app, nth_set_nth_end. cbn [length].
    split; [lia|]. split; [lia|]. split; [reflexivity|]. split; [reflexivity|].
    split; [reflexivity|]. split; [intros ->; reflexivity|].
    split; [reflexivity|]. split; [reflexivity|].
    split; [intros s _ Hs; apply app_nth1; exact Hs|]. constructor.
  - injection E as <- <-.
    unfold free_states_allocated in Hfree. rewrite Ef in Hfree.
    inversion Hfree as [|? ? Hr Hrest]; subst.
    unfold the_state. cbn [states state_table allocated_arcs_num].
    rewrite set_nth_length by exact Hr. rewrite nth_set_nth by exact Hr.
    rewrite Nat.eqb_refl.
    split; [lia|]. split; [lia|]. split; [reflexivity|]. split; [reflexivity|].
    split; [reflexivity|]. split; [intros ->; reflexivity|].
    split; [reflexivity|]. split; [reflexivity|].
    split.
    + intros s Hs _. rewrite nth_set_nth by exact Hr.
      destruct (Nat.eqb_spec s r); [contradiction | reflexivity].
    + unfold free_states_allocated. cbn [states free_states].
      rewrite set_nth_length by exact Hr. exact Hrest.
Qed.

Lemma states_union_reservs (max_cycles_num : nat) (st : store) (state1 state2 : nat)
    (reservs_matter : reserv_sets_t) result st' :
  free_states_allocated st ->
  states_union max_cycles_num state1 state2 reservs_matter st = Done (result, st') ->
  reservs (the_state st' result)
  = reserv_sets_and
      (reserv_sets_or (reservs (the_state st state1)) (reservs (the_state st state2)))
      reservs_matter.
Proof.
  intros Hfree E. unfold states_union, bind, read in E.
  destruct (negb _); [discriminate|].
  destruct (get_free_state max_cycles_num true (automaton (the_state st state1)) st)
    as [[r st1]| |] eqn:Eg; try discriminate.
  destruct (get_free_state_spec _ _ _ _ _ _ Hfree Eg)
    as (Hr & _ & Hcomp & _ & _ & _ & _ & _ & _ & _).
  unfold set_reservs, bind, read, write in E.
  set (R := reserv_sets_and _ _) in *.
  set (st2 := mk_store _ _ _ _) in E.
  assert (reservs (the_state st2 r) = R /\ component_states (the_state st2 r) = [])
    as [HR Hc2].
  { unfold the_state, st2. cbn [states]. rewrite nth_set_nth by exact Hr.
    rewrite Nat.eqb_refl. split; [reflexivity|]. exact Hcomp. }
  unfold state_in_table_for, bind, insert_state in E.
  destruct (find _ (state_table st2)) as [entry|] eqn:Efind.
  - apply find_some in Efind. destruct Efind as [_ Heq].
    assert (reservs (the_state st2 entry) = R) as Hentry.
    { unfold state_eq_p in Heq. destruct (negb _); [discriminate|].
      rewrite Hc2 in Heq.
      destruct (component_states (the_state st2 entry)); [|discriminate].
      apply reserv_sets_eq_eq in Heq. congruence. }
    destruct (negb (r =? entry)%nat); cbn in E; injection E as <- <-; assumption.
  - rewrite Nat.eqb_refl in E. cbn in E. injection E as <- <-. exact HR.
Qed.

Lemma states_union_done (max_cycles_num : nat) (st : store) (state1 state2 : nat)
    (reservs_matter : reserv_sets_t) :
  (0 < max_cycles_num)%nat ->
  automaton (the_state st state1) = automaton (the_state st state2) ->
  exists result st',
    states_union max_cycles_num state1 state2 reservs_matter st = Done (result, st').
Proof.
  intros Hcycles Hsame. unfold states_union, bind, read.
  rewrite Hsame, Nat.eqb_refl. cbn [negb]. unfold get_free_state.
  destruct (Nat.leb_spec max_cycles_num 0); [lia|].
  destruct (free_states st) as [|r rest];
    unfold set_reservs, bind, read, write, state_in_table_for, bind, insert_state;
    match goal with
    | |- context [find ?f ?l] => destruct (find f l)
    end;
    match goal with
    | |- context [negb ?b] => destruct (negb b)
    end;
    eexists; eexists; reflexivity.
Qed.

(** C5: [states_union] on two states of one automaton returns a state
    that holds the reservations of both on the units the mask
    [form_reservs_matter] keeps: a unit of the automaton keeps its bit
    on every cycle from its [min_occ_cycle_num] on, and on every cycle
    when it is a query unit or occurs in an exclusion, presence or
    absence set; its bit is cleared on the cycles before
    [min_occ_cycle_num] otherwise, and the bit of a unit of another
    automaton always. *)
Theorem states_union_keeps_cycles_from_min_occ
    (units_num max_cycles_num : nat) (units_array : list unit_decl)
    (automaton' : automaton_t) (st : store) (state1 state2 : nat) :
  length units_array = units_num ->
  free_states_allocated st ->
  automaton (the_state st state1) = automaton (the_state st state2) ->
  length (reservs (the_state st state1)) = max_cycles_num ->
  length (reservs (the_state st state2)) = max_cycles_num ->
  (0 < max_cycles_num)%nat ->
  exists reservs_matter result st',
    form_reservs_matter units_num max_cycles_num units_array automaton'
    = Some reservs_matter
    /\ states_union max_cycles_num state1 state2 reservs_matter st = Done (result, st')
    /\ forall cycle unit unit_decl',
         (cycle < max_cycles_num)%nat ->
         nth_error units_array unit = Some unit_decl' ->
         let reserved :=
           TEST_BIT (nth cycle (reservs (the_state st state1)) 0) unit
           || TEST_BIT (nth cycle (reservs (the_state st state2)) 0) unit in
         let bit :=
           test_unit_reserv max_cycles_num (reservs (the_state st' result)) cycle unit in
         (belongs automaton' unit_decl' = true ->
          min_occ_cycle_num unit_decl' <= Z.of_nat cycle
          \/ query_p unit_decl' = true \/ in_set_p unit_decl' = true ->
          bit = Some reserved)
         /\ (Z.of_nat cycle < min_occ_cycle_num unit_decl' ->
             query_p unit_decl' = false -> in_set_p unit_decl' = false ->
             bit = Some false)
         /\ (belongs automaton' unit_decl' = false -> bit = Some false).
Proof.
  intros Hunits Hfree Hsame Hl1 Hl2 Hcycles.
  destruct (form_reservs_matter_spec units_num max_cycles_num units_array automaton' Hunits)
    as (reservs_matter & Erm & Hlrm & Hbits).
  destruct (states_union_done max_cycles_num st state1 state2 reservs_matter Hcycles Hsame)
    as (result & st' & E).
  exists reservs_matter, result, st'. split; [exact Erm|]. split; [exact E|].
  intros cycle unit unit_decl' Hcycle Hunit reserved bit.
  assert (bit = Some (reserved && matters automaton' cycle unit_decl')) as Hbit.
  { unfold bit, test_unit_reserv.
    destruct (Nat.leb_spec max_cycles_num cycle); [lia|]. f_equal.
    rewrite (states_union_reservs _ _ _ _ _ _ _ Hfree E).
    destruct (reserv_sets_or_nth (reservs (the_state st state1))
                (reservs (the_state st state2)) ltac:(congruence)) as [Hlor Hor].
    destruct (reserv_sets_and_nth
                (reserv_sets_or (reservs (the_state st state1))
                   (reservs (the_state st state2)))
                reservs_matter ltac:(congruence)) as [_ Hand].
    rewrite Hand, TEST_BIT_land, Hor, TEST_BIT_lor, (Hbits cycle unit Hcycle).
    unfold unit_matters. rewrite Hunit. reflexivity. }
  rewrite Hbit. unfold matters.
  split; [|split].
  - intros -> Hcond. cbn [andb].
    assert ((min_occ_cycle_num unit_decl' <=? Z.of_nat cycle) || query_p unit_decl'
            || in_set_p unit_decl' = true) as ->.
    { destruct Hcond as [H | [-> | ->]].
      - apply Z.leb_le in H. rewrite H. reflexivity.
      - rewrite orb_true_r. reflexivity.
      - rewrite orb_true_r. reflexivity. }
    rewrite andb_true_r. reflexivity.
  - intros Hlt -> ->. apply Z.leb_gt in Hlt. rewrite Hlt. cbn [orb].
    rewrite !andb_false_r. reflexivity.
  - intros ->. cbn [andb]. rewrite andb_false_r. reflexivity.
Qed.

(** One unit that its insns reserve from cycle 1 on; the first state
    reserves it on the cycles 0 and 1, the second state is empty. *)
Definition late_unit : unit_decl := mk_unit_decl None false None 1 1 [] [] [] [] [] false.

Definition anonymous : automaton_t := mk_automaton [] None 0 0.

Definition two_states : store :=
  mk_store [mk_state [1; 1] 0 [] false false []; mk_state [0; 0] 0 [] false false []]
    [] [1%nat; 0%nat] 0.

(** The bit of the cycle from [min_occ_cycle_num] stays, the bit of the
    cycle before it goes. *)
Lemma states_union_keeps_late_cycle :
  form_reservs_matter 1 2 [late_unit] anonymous = Some [0; 1]
  /\ exists st', states_union 2 0 1 [0; 1] two_states = Done (2%nat, st')
                 /\ reservs (the_state st' 2) = [0; 1]
                 /\ test_unit_reserv 2 (reservs (the_state st' 2)) 1 0 = Some true
                 /\ test_unit_reserv 2 (reservs (the_state st' 2)) 0 0 = Some false.
Proof.
  split; [reflexivity|]. eexists. split; [reflexivity|].
  repeat split; reflexivity.
Qed.

Lemma states_union_keeps_cycles_from_min_occ_witness :
  exists reservs_matter result st',
    form_reservs_matter 1 2 [late_unit] anonymous = Some reservs_matter
    /\ states_union 2 0 1 reservs_matter two_states = Done (result, st')
    /\ forall cycle unit unit_decl',
         (cycle < 2)%nat ->
         nth_error [late_unit] unit = Some unit_decl' ->
         let reserved :=
           TEST_BIT (nth cycle (reservs (the_state two_states 0)) 0) unit
           || TEST_BIT (nth cycle (reservs (the_state two_states 1)) 0) unit in
         let bit := test_unit_reserv 2 (reservs (the_state st' result)) cycle unit in
         (belongs anonymous unit_decl' = true ->
          min_occ_cycle_num unit_decl' <= Z.of_nat cycle
          \/ query_p unit_decl' = true \/ in_set_p unit_decl' = true ->
          bit = Some reserved)
         /\ (Z.of_nat cycle < min_occ_cycle_num unit_decl' ->
             query_p unit_decl' = false -> in_set_p unit_decl' = false ->
             bit = Some false)
         /\ (belongs anonymous unit_decl' = false -> bit = Some false).
Proof.
  apply (states_union_keeps_cycles_from_min_occ 1 2 [late_unit] anonymous two_states 0 1).
  - reflexivity.
  - constructor.
  - reflexivity.
  - reflexivity.
  - reflexivity.
  - lia.
Defined.

End Automata.

(** ** The parser of reservations *)

Module Parse.
Import Transform(outcome, Done, Abort, NoFuel).
Import Ascii.

Local Set Warnings "-register-all".
Local Open Scope char_scope.
Local Open Scope string_scope.

(** [struct regexp] as [gen_regexp] builds it: units and reservations
    are names, [process_regexp] resolves them. *)
Inductive regexp : Type :=
| rm_unit (name : string)
| rm_nothing
| rm_sequence (regexps : list regexp)
| rm_repeat (operand : regexp) (repeat_num : Z)
| rm_allof (regexps : list regexp)
| rm_oneof (regexps : list regexp).

(** [ISSPACE] *)
Definition ISSPACE (c : ascii) : bool :=
  let n := nat_of_ascii c in
  (n =? 32)%nat || ((9 <=? n)%nat && (n <=? 13)%nat).

Fixpoint skip_spaces (s : string) : string :=
  match s with
  | String c s' => if ISSPACE c then skip_spaces s' else s
  | EmptyString => s
  end.

(** The [for] loop of [next_sep_el]: the characters put on the obstack
    and the position [p] at the end.  [spaces] holds the [n_spaces]
    characters before [p]. *)
Fixpoint next_sep_el_loop (sep : ascii) (par_flag : bool) (p : string) (pars_num : Z)
    (spaces out_str : string) : string * string :=
  match p with
  | EmptyString => (out_str, p)
  | String c p' =>
    if par_flag && Ascii.eqb c "(" then
      next_sep_el_loop sep par_flag p' (pars_num + 1) ""
        (out_str ++ spaces ++ String c "")
    else if par_flag && Ascii.eqb c ")" then
      next_sep_el_loop sep par_flag p' (pars_num - 1) ""
        (out_str ++ spaces ++ String c "")
    else if (pars_num =? 0)%Z && Ascii.eqb c sep then (out_str, p)
    else if (pars_num =? 0)%Z && ISSPACE c
    then next_sep_el_loop sep par_flag p' pars_num (spaces ++ String c "") out_str
    else next_sep_el_loop sep par_flag p' pars_num "" (out_str ++ spaces ++ String c "")
  end.

(** [next_sep_el (pstr, sep, par_flag)]: the element ([None] for
    [NULL]) and the new [*pstr]. *)
Definition next_sep_el (pstr : string) (sep : ascii) (par_flag : bool)
    : option string * string :=
  let pstr := skip_spaces pstr in
  match pstr with
  | EmptyString => (None, pstr)
  | _ =>
    let (out_str, p) := next_sep_el_loop sep par_flag pstr 0 "" "" in
    (Some out_str,
     match p with
     | String c p' => if Ascii.eqb c sep then p' else p
     | EmptyString => p
     end)
  end.

(** The loop of [n_sep_els]. *)
Fixpoint n_sep_els_loop (s : string) (sep : ascii) (par_flag : bool) (pars_num n : Z)
    : Z :=
  match s with
  | EmptyString => if negb (pars_num =? 0)%Z then -1 else n
  | String c s' =>
    if par_flag && Ascii.eqb c "(" then n_sep_els_loop s' sep par_flag (pars_num + 1) n
    else if par_flag && Ascii.eqb c ")" then n_sep_els_loop s' sep par_flag (pars_num - 1) n
    else if (pars_num =? 0)%Z && Ascii.eqb c sep
         then n_sep_els_loop s' sep par_flag pars_num (n + 1)
         else n_sep_els_loop s' sep par_flag pars_num n
  end.

(** [n_sep_els (s, sep, par_flag)] *)
Definition n_sep_els (s : string) (sep : ascii) (par_flag : bool) : Z :=
  match s with
  | EmptyString => 0
  | _ => n_sep_els_loop s sep par_flag 0 1
  end.

(** The loop of [get_str_vect] that fills [vect]. *)
Fixpoint get_str_vect_loop (els_num : nat) (pstr : string) (sep : ascii) (paren_p : bool)
    : list (option string) * string :=
  match els_num with
  | O => ([], pstr)
  | S els_num' =>
    let (el, pstr') := next_sep_el pstr sep paren_p in
    let (vect, pstr'') := get_str_vect_loop els_num' pstr' sep paren_p in
    (el :: vect, pstr'')
  end.

(** [get_str_vect (str, &els_num, sep, paren_p)]: [Done None] is the
    result [NULL]. *)
Definition get_str_vect (str : string) (sep : ascii) (paren_p : bool)
    : outcome (option (list (option string))) :=
  let els_num := n_sep_els str sep paren_p in
  if (els_num <=? 0)%Z then Done None
  else
    let (vect, pstr) := get_str_vect_loop (Z.to_nat els_num) str sep paren_p in
    match fst (next_sep_el pstr sep paren_p) with
    | Some _ => Abort
    | None => Done (Some vect)
    end.

(** [atoi] on the digits of a repetition. *)
Fixpoint atoi_digits (s : string) (n : Z) : Z :=
  match s with
  | String c s' =>
    let d := nat_of_ascii c in
    if (48 <=? d)%nat && (d <=? 57)%nat
    then atoi_digits s' (10 * n + Z.of_nat (d - 48))
    else n
  | EmptyString => n
  end.

Definition atoi (s : string) : Z :=
  match skip_spaces s with
  | String "-"%char s' => - atoi_digits s' 0
  | String "+"%char s' => atoi_digits s' 0
  | s' => atoi_digits s' 0
  end.

Definition last_char (s : string) : option ascii :=
  match String.length s with
  | O => None
  | S n => String.get n s
  end.

Section Levels.

(** The call of [gen_regexp_sequence] in [gen_regexp_el]. *)
Variable gen_regexp_sequence' : string -> outcome regexp.

(** [gen_regexp_el (str)]; [Abort] is [fatal]; a [NULL] string is not
    read. *)
Definition gen_regexp_el (str : option string) : outcome regexp :=
  match str with
  | None => Abort
  | Some (String "("%char inner as str') =>
    match last_char str' with
    | Some ")"%char => gen_regexp_sequence' (substring 0 (String.length inner - 1) inner)
    | _ => Abort
    end
  | Some str' =>
    if String.eqb str' "nothing" then Done rm_nothing else Done (rm_unit str')
  end.

(** The loop of [gen_regexp_repeat]. *)
Fixpoint gen_regexp_repeat_loop (regexp' : regexp) (repeat_vect : list (option string))
    : outcome regexp :=
  match repeat_vect with
  | [] => Done regexp'
  | None :: _ => Abort
  | Some el :: repeat_vect' =>
    if (atoi el <=? 1)%Z then Abort
    else gen_regexp_repeat_loop (rm_repeat regexp' (atoi el)) repeat_vect'
  end.

(** [gen_regexp_repeat (str)] *)
Definition gen_regexp_repeat (str : option string) : outcome regexp :=
  match str with
  | None => Abort
  | Some str' =>
    match get_str_vect str' "*" true with
    | Done None => Abort
    | Done (Some (first :: (_ :: _) as rest)) =>
      match gen_regexp_el first with
      | Done regexp' => gen_regexp_repeat_loop regexp' rest
      | other => other
      end
    | Done (Some _) => gen_regexp_el str
    | Abort => Abort
    | NoFuel => NoFuel
    end
  end.

(** The loop that fills the operands of a new node. *)
Fixpoint gen_operands (gen : option string -> outcome regexp) (vect : list (option string))
    : outcome (list regexp) :=
  match vect with
  | [] => Done []
  | el :: vect' =>
    match gen el with
    | Done r =>
      match gen_operands gen vect' with
      | Done rs => Done (r :: rs)
      | Abort => Abort
      | NoFuel => NoFuel
      end
    | Abort => Abort
    | NoFuel => NoFuel
    end
  end.

(** [gen_regexp_allof (str)] *)
Definition gen_regexp_allof (str : option string) : outcome regexp :=
  match str with
  | None => Abort
  | Some str' =>
    match get_str_vect str' "+" true with
    | Done None => Abort
    | Done (Some ((_ :: _ :: _) as allof_vect)) =>
      match gen_operands gen_regexp_repeat allof_vect with
      | Done rs => Done (rm_allof rs)
      | Abort => Abort
      | NoFuel => NoFuel
      end
    | Done (Some _) => gen_regexp_repeat str
    | Abort => Abort
    | NoFuel => NoFuel
    end
  end.

(** [gen_regexp_oneof (str)] *)
Definition gen_regexp_oneof (str : option string) : outcome regexp :=
  match str with
  | None => Abort
  | Some str' =>
    match get_str_vect str' "|" true with
    | Done None => Abort
    | Done (Some ((_ :: _ :: _) as oneof_vect)) =>
      match gen_operands gen_regexp_allof oneof_vect with
      | Done rs => Done (rm_oneof rs)
      | Abort => Abort
      | NoFuel => NoFuel
      end
    | Done (Some _) => gen_regexp_allof str
    | Abort => Abort
    | NoFuel => NoFuel
    end
  end.

End Levels.

(** [gen_regexp_sequence (str)]; [fuel] bounds the nesting of the
    parentheses. *)
Fixpoint gen_regexp_sequence (fuel : nat) (str : string) : outcome regexp :=
  match fuel with
  | O => NoFuel
  | S fuel' =>
    match get_str_vect str "," true with
    | Done (Some ((_ :: _ :: _) as sequence_vect)) =>
      match gen_operands (gen_regexp_oneof (gen_regexp_sequence fuel')) sequence_vect with
      | Done rs => Done (rm_sequence rs)
      | Abort => Abort
      | NoFuel => NoFuel
      end
    | Done _ => gen_regexp_oneof (gen_regexp_sequence fuel') (Some str)
    | Abort => Abort
    | NoFuel => NoFuel
    end
  end.

(** [gen_regexp (str)] *)
Definition gen_regexp (str : string) : outcome regexp :=
  gen_regexp_sequence (S (String.length str)) str.

(** What [find_decl] returns for a name. *)
Inductive decl_in_table : Type :=
| unit_in_table (unit_num : nat)
| reserv_in_table (reserv_decl : nat).

Section Names.

Variable find_decl : string -> option decl_in_table.

(** [process_regexp (regexp)]; [Abort] is the error of an undeclared
    name, after which no automaton is generated. *)
Fixpoint process_regexp (regexp' : regexp) : outcome IR.regexp :=
  match regexp' with
  | rm_unit name =>
    match find_decl name with
    | None => Abort
    | Some (unit_in_table unit_num) => Done (IR.rm_unit unit_num)
    | Some (reserv_in_table reserv_decl) => Done (IR.rm_reserv reserv_decl)
    end
  | rm_sequence regexps =>
    match Transform.for_each process_regexp regexps with
    | Done rs => Done (IR.rm_sequence rs)
    | Abort => Abort
    | NoFuel => NoFuel
    end
  | rm_allof regexps =>
    match Transform.for_each process_regexp regexps with
    | Done rs => Done (IR.rm_allof rs)
    | Abort => Abort
    | NoFuel => NoFuel
    end
  | rm_oneof regexps =>
    match Transform.for_each process_regexp regexps with
    | Done rs => Done (IR.rm_oneof rs)
    | Abort => Abort
    | NoFuel => NoFuel
    end
  | rm_repeat operand repeat_num =>
    match process_regexp operand with
    | Done r => Done (IR.rm_repeat r repeat_num)
    | Abort => Abort
    | NoFuel => NoFuel
    end
  | rm_nothing => Done IR.rm_nothing
  end.

End Names.

End Parse.

(** ** A machine with one unit and one insn *)

Module Example.
Import Reservs IR Automata.
Import Transform(outcome, Done, Abort, NoFuel).

Local Open Scope string_scope.

(** The unit [u] is declared first, the insn [i] second. *)
Definition find_decl (name : string) : option Parse.decl_in_table :=
  if String.eqb name "u" then Some (Parse.unit_in_table 0) else None.

(** [gen_regexp] and [process_regexp] on the reservation of [i]. *)
Definition reservation (str : string) : outcome regexp :=
  match Parse.gen_regexp str with
  | Done r => Parse.process_regexp find_decl r
  | Abort => Abort
  | NoFuel => NoFuel
  end.

(** The description, checked and transformed, of the machine whose
    insn [i] has the reservation [regexp]. *)
Record description : Type := mk_description {
  decls : list decl;
  advance_cycle_insn_decl : nat;
  max_insn_reserv_cycles : nat;
  units_array : list unit_decl;
  transformed_regexp : nat -> regexp
}.

Definition describe (regexp' : regexp) : outcome description :=
  let decls0 := [dm_unit 0; dm_insn_reserv 1 (Some regexp')] in
  match Cycles.evaluate_max_reserv_cycles 1 decls0 0 0 [gen_cpu_unit None] with
  | None => Abort
  | Some (max_cycles, units) =>
    let (decls1, advance) := Cycles.add_advance_cycle_insn_decl decls0 in
    match Transform.transformed_regexp decls1 1 10 regexp' with
    | Done transformed =>
      Done (mk_description decls1 advance (Z.to_nat max_cycles) units
              (fun _ => transformed))
    | Abort => Abort
    | NoFuel => NoFuel
    end
  end.

Section Build.

Variable ndfa_flag : bool.
Variable d : description.

(** The body of the loop of [create_automata] up to [make_automaton],
    on the one anonymous automaton. *)
Definition make : M automaton_t :=
  (automaton1 <- create_alt_states (max_insn_reserv_cycles d) (fun _ => 0%nat)
                   (advance_cycle_insn_decl d) (transformed_regexp d)
                   (mk_automaton (create_ainsns (decls d) 0) None 0 0) ;;
   make_automaton 1 8 [0] [[]] [[]] [[]] [[]] (max_insn_reserv_cycles d)
     (units_array d) ndfa_flag (advance_cycle_insn_decl d) 20
     (form_ainsn_with_same_reservs (advance_cycle_insn_decl d) automaton1))%heap.

(** [make_automaton] and [NDFA_to_DFA]. *)
Definition make_DFA : M automaton_t :=
  (automaton2 <- make ;;
   NDFA_to_DFA (max_insn_reserv_cycles d) ndfa_flag (decls d) 20 automaton2 ;;;
   ret automaton2)%heap.

End Build.


(** The arcs of [state] marked by the insn [i] (the first [ainsn]):
    their [to_state] and [state_alts]. *)
Definition arcs_on_i (st : store) (state : nat) : list (nat * Z) :=
  map (fun a => (to_state a, state_alts a))
      (filter (fun a => (insn a =? 0)%nat) (first_out_arc (the_state st state))).

(** What is read off the automaton of the machine with the reservation
    [str]: the arcs on [i] from the start state, with the reservations
    and the component states of the states they enter. *)
Definition start_arcs_on_i (build : description -> M automaton_t) (str : string)
    : outcome (list (nat * Z * reserv_sets_t * list nat)) :=
  match reservation str with
  | Done regexp' =>
    match describe regexp' with
    | Done d =>
      match build d initiate_states with
      | Done (automaton', st) =>
        Done (map (fun a => (fst a, snd a, reservs (the_state st (fst a)),
                             component_states (the_state st (fst a))))
                  (arcs_on_i st (start_state automaton')))
      | Abort => Abort
      | NoFuel => NoFuel
      end
    | Abort => Abort
    | NoFuel => NoFuel
    end
  | Abort => Abort
  | NoFuel => NoFuel
  end.

(** C6, as the code has it, for the reservation [u | (u,u)]: with
    [-ndfa] the start state of the NDFA has two arcs on [i], to the
    states of [u,u] and of [u]; [NDFA_to_DFA] leaves one arc, to the
    state composed of the two, with [state_alts] 1, the number of arcs
    it removed; without [-ndfa] the one arc enters the state of the
    first alternative [u] and its [state_alts] is 2, the number of
    alternatives the start state can take. *)
Theorem one_unit_machine_alternatives :
  reservation "u | (u,u)"
  = Done (rm_oneof [rm_unit 0; rm_sequence [rm_unit 0; rm_unit 0]])
  /\ start_arcs_on_i (make true) "u | (u,u)"
     = Done [(0%nat, 1, [1; 1], []); (1%nat, 1, [1; 0], [])]
  /\ start_arcs_on_i (make_DFA true) "u | (u,u)"
     = Done [(3%nat, 1, [0; 0], [0%nat; 1%nat])]
  /\ start_arcs_on_i (make_DFA false) "u | (u,u)"
     = Done [(1%nat, 2, [1; 0], [])].
Proof. repeat split; vm_compute; reflexivity. Qed.

(** The reservation [u | u,u] is the sequence of [u | u] and [u]: its
    two alternatives are the same, the start state has one arc on [i]
    with and without [-ndfa], with [state_alts] 1 and 2. *)
Lemma one_unit_machine_as_written :
  reservation "u | u,u"
  = Done (rm_sequence [rm_oneof [rm_unit 0; rm_unit 0]; rm_unit 0])
  /\ start_arcs_on_i (make true) "u | u,u" = Done [(0%nat, 1, [1; 1], [])]
  /\ start_arcs_on_i (make_DFA true) "u | u,u" = Done [(0%nat, 1, [1; 1], [])]
  /\ start_arcs_on_i (make_DFA false) "u | u,u" = Done [(0%nat, 2, [1; 1], [])].
Proof. repeat split; vm_compute; reflexivity. Qed.

End Example.

(** ** The tables state x insn class *)

Module Tables.
Import Automata.

(** [struct state_ainsn_table], its four vectors. *)
Record state_ainsn_table : Type := mk_table {
  comb_vect : list Z;
  check_vect : list Z;
  base_vect : list Z;
  full_vect : list Z
}.

Section Table.

(** [automaton->insn_equiv_classes_num], [automaton->achieved_states_num]
    and [undefined_vect_el_value]. *)
Variable insn_equiv_classes_num : nat.
Variable achieved_states_num : nat.
Variable undefined_vect_el_value : Z.

(** [create_state_ainsn_table]; [VLA_HWINT_EXPAND] leaves the elements
    of [base_vect] unset, they are 0 here. *)
Definition create_state_ainsn_table : state_ainsn_table :=
  mk_table [] [] (repeat 0 achieved_states_num)
    (repeat undefined_vect_el_value (insn_equiv_classes_num * achieved_states_num)).

(** An assignment to an element of a vector; [None] outside of it. *)
Definition assign (vect : list Z) (index : nat) (value : Z) : option (list Z) :=
  if (index <? length vect)%nat then Some (set_nth index value vect) else None.

(** The loop of [add_vect] that forms the full vector, from [i] on. *)
Fixpoint form_full_vect (vect_num : nat) (vect : list Z) (i : nat) (full : list Z)
    : option (list Z) :=
  match vect with
  | [] => Some full
  | el :: vect' =>
    match assign full (i + insn_equiv_classes_num * vect_num) el with
    | Some full' => form_full_vect vect_num vect' (S i) full'
    | None => None
    end
  end.

(** The loop for [first_unempty_vect_index], from [i] on. *)
Fixpoint first_unempty (vect : list Z) (i : nat) : nat :=
  match vect with
  | [] => i
  | el :: vect' =>
    if negb (el =? undefined_vect_el_value) then i else first_unempty vect' (S i)
  end.

(** The inner loop of the search: [vect_index] at its end. *)
Fixpoint collision_index (vect comb : list Z) (comb_vect_index : nat)
    (vect_indexes : list nat) : nat :=
  match vect_indexes with
  | [] => length vect
  | vect_index :: vect_indexes' =>
    if (vect_index + comb_vect_index <? length comb)%nat then
      if negb (nth vect_index vect 0 =? undefined_vect_el_value)
         && negb (nth (vect_index + comb_vect_index) comb 0 =? undefined_vect_el_value)
      then vect_index
      else collision_index vect comb comb_vect_index vect_indexes'
    else vect_index
  end.

(** The search for the place of [vect] in [comb]: [comb_vect_index] at
    its end. *)
Fixpoint find_place (vect comb : list Z) (first_unempty_vect_index : nat)
    (comb_vect_indexes : list nat) : nat :=
  match comb_vect_indexes with
  | [] => length comb
  | comb_vect_index :: comb_vect_indexes' =>
    let vect_index :=
      collision_index vect comb comb_vect_index
        (seq first_unempty_vect_index (length vect - first_unempty_vect_index)) in
    if (length vect <=? vect_index)%nat
       || (length comb <=? vect_index + comb_vect_index)%nat
    then comb_vect_index
    else find_place vect comb first_unempty_vect_index comb_vect_indexes'
  end.

(** The loop that fills the comb and check vectors, from [vect_index]
    on. *)
Fixpoint fill (vect_num comb_vect_index : nat) (vect : list Z) (vect_index : nat)
    (comb check : list Z) : option (list Z * list Z) :=
  match vect with
  | [] => Some (comb, check)
  | el :: vect' =>
    if negb (el =? undefined_vect_el_value) then
      if negb (nth (comb_vect_index + vect_index) comb 0 =? undefined_vect_el_value)
      then None
      else
        match assign comb (comb_vect_index + vect_index) el with
        | None => None
        | Some comb' =>
          if el <? 0 then None
          else
            match assign check (comb_vect_index + vect_index) (Z.of_nat vect_num) with
            | None => None
            | Some check' => fill vect_num comb_vect_index vect' (S vect_index) comb' check'
            end
        end
    else fill vect_num comb_vect_index vect' (S vect_index) comb check
  end.

(** [add_vect (tab, vect_num, vect, vect_length)]; [None] is
    [abort ()]. *)
Definition add_vect (tab : state_ainsn_table) (vect_num : nat) (vect : list Z)
    : option state_ainsn_table :=
  if (length vect =? 0)%nat then None
  else
    let real_vect_length := insn_equiv_classes_num in
    if nth (length vect - 1) vect 0 =? undefined_vect_el_value then None
    else
      match form_full_vect vect_num vect 0 (full_vect tab) with
      | None => None
      | Some full =>
        if negb (length (comb_vect tab) =? length (check_vect tab))%nat then None
        else
          let comb_vect_els_num := length (comb_vect tab) in
          let first_unempty_vect_index := first_unempty vect 0 in
          let comb_vect_index :=
            find_place vect (comb_vect tab) first_unempty_vect_index
              (seq 0 comb_vect_els_num) in
          let additional_els_num :=
            (comb_vect_index + real_vect_length - comb_vect_els_num)%nat in
          let comb := comb_vect tab ++ repeat undefined_vect_el_value additional_els_num in
          let check := check_vect tab
                       ++ repeat (Z.of_nat achieved_states_num) additional_els_num in
          if (length comb <? comb_vect_index + real_vect_length)%nat then None
          else
            match fill vect_num comb_vect_index vect 0 comb check with
            | None => None
            | Some (comb', check') =>
              match assign (base_vect tab) vect_num (Z.of_nat comb_vect_index) with
              | None => None
              | Some base => Some (mk_table comb' check' base full)
              end
            end
      end.

(** The loop of [output_trans_table] and [output_state_alts_table]
    over the states: one vector for each [order_state_num]. *)
Fixpoint add_vects (tab : state_ainsn_table) (vects : list (nat * list Z))
    : option state_ainsn_table :=
  match vects with
  | [] => Some tab
  | (vect_num, vect) :: vects' =>
    match add_vect tab vect_num vect with
    | Some tab' => add_vects tab' vects'
    | None => None
    end
  end.

(** The lookup the generated code makes in the comb vector:
    [temp = base [state] + class];
    [check [temp] != state] gives the undefined value, else
    [comb [temp]]. *)
Definition comb_lookup (tab : state_ainsn_table) (state class : nat) : Z :=
  let temp := Z.to_nat (nth state (base_vect tab) 0 + Z.of_nat class) in
  if negb (nth temp (check_vect tab) 0 =? Z.of_nat state)
  then undefined_vect_el_value
  else nth temp (comb_vect tab) 0.

(** The lookup in the full vector: [full [class + state * classes]]. *)
Definition full_lookup (tab : state_ainsn_table) (state class : nat) : Z :=
  nth (class + state * insn_equiv_classes_num) (full_vect tab) 0.

End Table.


(** *** The comb vector against the full vector *)

Section Soundness.

Variable insn_equiv_classes_num : nat.
Variable achieved_states_num : nat.
Variable undefined_vect_el_value : Z.

Local Abbreviation C := insn_equiv_classes_num.
Local Abbreviation A := achieved_states_num.
Local Abbreviation U := undefined_vect_el_value.

(** A vector as [add_vect_el] forms it for the state [vect_num]: not
    empty, no longer than the classes, its last element set, its set
    elements not negative. *)
Definition valid_vect (row : nat * list Z) : Prop :=
  (fst row < A)%nat
  /\ (0 < length (snd row) <= C)%nat
  /\ nth (length (snd row) - 1) (snd row) 0 <> U
  /\ Forall (fun x => x <> U -> 0 <= x) (snd row).

Lemma assign_some (vect : list Z) (index : nat) (value : Z) :
  (index < length vect)%nat ->
  assign vect index value = Some (set_nth index value vect).
Proof.
  intros H. unfold assign. destruct (Nat.ltb_spec index (length vect)); [reflexivity | lia].
Qed.

Lemma form_full_vect_spec (vect_num : nat) (vect : list Z) :
  forall (i : nat) (full : list Z),
  (i + C * vect_num + length vect <= length full)%nat ->
  exists full',
    form_full_vect C vect_num vect i full = Some full'
    /\ length full' = length full
    /\ (forall j, (j < length vect)%nat ->
                  nth (i + C * vect_num + j) full' 0 = nth j vect 0)
    /\ (forall p, (p < i + C * vect_num \/ i + C * vect_num + length vect <= p)%nat ->
                  nth p full' 0 = nth p full 0).
Proof.
  induction vect as [|el vect IH]; intros i full Hlen; cbn [form_full_vect length] in *.
  - exists full. split; [reflexivity|]. split; [reflexivity|].
    split; [intros j Hj; lia | reflexivity].
  - rewrite assign_some by lia.
    destruct (IH (S i) (set_nth (i + C * vect_num) el full)) as (full' & E & Hl & H1 & H2).
    { rewrite set_nth_length by lia. lia. }
    exists full'. split; [exact E|].
    split; [rewrite Hl, set_nth_length by lia; reflexivity|]. split.
    + intros [|j] Hj.
      * rewrite Nat.add_0_r, H2 by lia. rewrite nth_set_nth by lia.
        rewrite Nat.eqb_refl. reflexivity.
      * cbn [nth]. rewrite <- (H1 j) by lia. f_equal. lia.
    + intros p Hp. rewrite H2 by lia. rewrite nth_set_nth by lia.
      destruct (Nat.eqb_spec p (i + C * vect_num)); [lia | reflexivity].
Qed.

Lemma first_unempty_spec (vect : list Z) :
  forall i, (i <= first_unempty U vect i <= i + length vect)%nat
            /\ forall j, (j < first_unempty U vect i - i)%nat -> nth j vect 0 = U.
Proof.
  induction vect as [|el vect IH]; intros i; cbn [first_unempty length].
  - split; [lia|]. intros j Hj. lia.
  - destruct (Z.eqb_spec el U) as [->|Hne]; cbn [negb].
    + destruct (IH (S i)) as [Hr Hu]. split; [lia|].
      intros [|j] Hj; [reflexivity|]. cbn [nth]. apply Hu. lia.
    + split; [lia|]. intros j Hj. lia.
Qed.

(** Element [i] of [vect] can go to [comb_vect_index + i]. *)
Definition free_at (vect comb : list Z) (comb_vect_index i : nat) : Prop :=
  (i + comb_vect_index < length comb)%nat ->
  nth i vect 0 <> U -> nth (i + comb_vect_index) comb 0 = U.

Lemma collision_index_spec (vect comb : list Z) (comb_vect_index : nat) (k : nat) :
  forall a, (a + k = length vect)%nat ->
  let vect_index := collision_index U vect comb comb_vect_index (seq a k) in
  (a <= vect_index <= length vect)%nat
  /\ (forall i, (a <= i < vect_index)%nat -> free_at vect comb comb_vect_index i)
  /\ ((length vect <= vect_index)%nat
      \/ (length comb <= vect_index + comb_vect_index)%nat
      \/ ~ free_at vect comb comb_vect_index vect_index).
Proof.
  induction k as [|k IH]; intros a Ha; cbn [seq collision_index].
  - split; [lia|]. split; [intros i Hi; lia|]. left. lia.
  - destruct (Nat.ltb_spec (a + comb_vect_index) (length comb)) as [Hin|Hout].
    + destruct (Z.eqb_spec (nth a vect 0) U) as [Hv|Hv]; cbn [negb andb].
      * destruct (IH (S a) ltac:(lia)) as (Hr & Hfree & Hexit).
        split; [lia|]. split; [|exact Hexit].
        intros i Hi. destruct (Nat.eq_dec i a) as [->|Hne].
        -- intros _ Hdef. contradiction.
        -- apply Hfree. lia.
      * destruct (Z.eqb_spec (nth (a + comb_vect_index) comb 0) U) as [Hc|Hc]; cbn [negb].
        -- destruct (IH (S a) ltac:(lia)) as (Hr & Hfree & Hexit).
           split; [lia|]. split; [|exact Hexit].
           intros i Hi. destruct (Nat.eq_dec i a) as [->|Hne].
           ++ intros _ _. exact Hc.
           ++ apply Hfree. lia.
        -- split; [lia|]. split; [intros i Hi; lia|].
           right. right. intros Hfree. apply Hc. apply Hfree; assumption.
    + split; [lia|]. split; [intros i Hi; lia|]. right. left. lia.
Qed.

Lemma find_place_spec (vect comb : list Z) (first : nat) (k : nat) :
  (first <= length vect)%nat ->
  forall a, (a + k = length comb)%nat ->
  let comb_vect_index := find_place U vect comb first (seq a k) in
  (a <= comb_vect_index <= length comb)%nat
  /\ forall i, (first <= i < length vect)%nat -> free_at vect comb comb_vect_index i.
Proof.
  intros Hfirst. induction k as [|k IH]; intros a Ha; cbn [seq find_place].
  - split; [lia|]. intros i Hi Hin. lia.
  - destruct (collision_index_spec vect comb a (length vect - first) first ltac:(lia))
      as (Hr & Hfree & Hexit).
    set (vect_index := collision_index U vect comb a (seq first (length vect - first))) in *.
    destruct (Nat.leb_spec (length vect) vect_index) as [Hend|Hmid]; cbn [orb].
    + split; [lia|]. intros i Hi. apply Hfree. lia.
    + destruct (Nat.leb_spec (length comb) (vect_index + a)) as [Hout|Hin].
      * split; [lia|]. intros i Hi.
        destruct (Nat.lt_ge_cases i vect_index) as [Hlt|Hge]; [apply Hfree; lia|].
        intros Hin'. lia.
      * destruct (IH (S a) ltac:(lia)) as [Hr' Hfree']. split; [lia|]. exact Hfree'.
Qed.

Lemma fill_spec (vect_num comb_vect_index : nat) (vect : list Z) :
  forall (vect_index : nat) (comb check : list Z),
  length comb = length check ->
  (comb_vect_index + vect_index + length vect <= length comb)%nat ->
  (forall j, (j < length vect)%nat -> nth j vect 0 <> U ->
     nth (comb_vect_index + vect_index + j) comb 0 = U /\ 0 <= nth j vect 0) ->
  exists comb' check',
    fill U vect_num comb_vect_index vect vect_index comb check = Some (comb', check')
    /\ length comb' = length comb /\ length check' = length comb
    /\ (forall j, (j < length vect)%nat -> nth j vect 0 <> U ->
          nth (comb_vect_index + vect_index + j) comb' 0 = nth j vect 0
          /\ nth (comb_vect_index + vect_index + j) check' 0 = Z.of_nat vect_num)
    /\ (forall p,
          (forall j, (j < length vect)%nat -> p = (comb_vect_index + vect_index + j)%nat ->
                     nth j vect 0 = U) ->
          nth p comb' 0 = nth p comb 0 /\ nth p check' 0 = nth p check 0).
Proof.
  induction vect as [|el vect IH]; intros vect_index comb check Hlen Hfit Hfree;
    cbn [fill length] in *.
  - exists comb, check. split; [reflexivity|]. split; [reflexivity|].
    split; [symmetry; exact Hlen|]. split; [intros j Hj; lia | auto].
  - destruct (Z.eqb_spec el U) as [Hel|Hel]; cbn [negb].
    + destruct (IH (S vect_index) comb check Hlen ltac:(lia))
        as (comb' & check' & E & Hlc & Hlk & H1 & H2).
      { intros j Hj Hdef. destruct (Hfree (S j) ltac:(lia) Hdef) as [Hu Hpos].
        split; [|exact Hpos]. rewrite <- Hu. f_equal. lia. }
      exists comb', check'. split; [exact E|]. split; [exact Hlc|]. split; [exact Hlk|].
      split.
      * intros [|j] Hj Hdef; [contradiction|]. cbn [nth] in *.
        destruct (H1 j ltac:(lia) Hdef) as [Hc Hk].
        replace (comb_vect_index + vect_index + S j)%nat
          with (comb_vect_index + S vect_index + j)%nat by lia. auto.
      * intros p Hp. apply H2. intros j Hj Hpj. apply (Hp (S j)); lia.
    + destruct (Hfree 0%nat ltac:(lia) Hel) as [Hu Hpos]. cbn [nth] in Hu, Hpos.
      rewrite Nat.add_0_r in Hu. rewrite Hu, Z.eqb_refl. cbn [negb].
      rewrite assign_some by lia.
      destruct (Z.ltb_spec el 0) as [Hneg|_]; [lia|].
      rewrite assign_some by lia.
      destruct (IH (S vect_index)
                  (set_nth (comb_vect_index + vect_index) el comb)
                  (set_nth (comb_vect_index + vect_index) (Z.of_nat vect_num) check))
        as (comb' & check' & E & Hlc & Hlk & H1 & H2).
      { rewrite !set_nth_length by lia. exact Hlen. }
      { rewrite set_nth_length by lia. lia. }
      { intros j Hj Hdef. destruct (Hfree (S j) ltac:(lia) Hdef) as [Hu' Hpos'].
        split; [|exact Hpos']. rewrite nth_set_nth by lia.
        destruct (Nat.eqb_spec (comb_vect_index + S vect_index + j)
                    (comb_vect_index + vect_index)); [lia|].
        rewrite <- Hu'. f_equal. lia. }
      rewrite set_nth_length in Hlc, Hlk by lia.
      exists comb', check'. split; [exact E|]. split; [exact Hlc|]. split; [exact Hlk|].
      split.
      * intros [|j] Hj Hdef.
        -- rewrite Nat.add_0_r. cbn [nth].
           destruct (H2 (comb_vect_index + vect_index)%nat) as [-> ->];
             [intros j Hj' Hpj; lia|].
           rewrite !nth_set_nth by lia. rewrite Nat.eqb_refl. auto.
        -- cbn [nth] in *. destruct (H1 j ltac:(lia) Hdef) as [Hc Hk].
           replace (comb_vect_index + vect_index + S j)%nat
             with (comb_vect_index + S vect_index + j)%nat by lia. auto.
      * intros p Hp.
        assert (p <> (comb_vect_index + vect_index)%nat) as Hne.
        { intros ->. apply Hel. apply (Hp 0%nat); lia. }
        destruct (H2 p) as [-> ->].
        { intros j Hj Hpj. apply (Hp (S j)); lia. }
        rewrite !nth_set_nth by lia.
        destruct (Nat.eqb_spec p (comb_vect_index + vect_index)); [contradiction|]. auto.
Qed.

(** [base [vect_num]] *)
Definition base_of (tab : state_ainsn_table) (vect_num : nat) : nat :=
  Z.to_nat (nth vect_num (base_vect tab) 0).

(** The table after the vectors [added]: an element of the comb vector
    is unset and checked by no state, or it is a set element of the
    vector of the state that checks it. *)
Record table_of (added : list (nat * list Z)) (tab : state_ainsn_table) : Prop := {
  lengths_agree : length (comb_vect tab) = length (check_vect tab);
  base_length : length (base_vect tab) = A;
  full_length : length (full_vect tab) = (C * A)%nat;
  owner : forall p, (p < length (comb_vect tab))%nat ->
    (nth p (comb_vect tab) 0 = U /\ nth p (check_vect tab) 0 = Z.of_nat A)
    \/ exists n v i, In (n, v) added /\ p = (base_of tab n + i)%nat
                     /\ (i < length v)%nat /\ nth i v 0 <> U
                     /\ nth p (check_vect tab) 0 = Z.of_nat n;
  rows : forall n v, In (n, v) added ->
    (length v <= C)%nat
    /\ 0 <= nth n (base_vect tab) 0
    /\ (base_of tab n + C <= length (comb_vect tab))%nat
    /\ (forall i, (i < length v)%nat -> nth i v 0 <> U ->
          nth (base_of tab n + i) (check_vect tab) 0 = Z.of_nat n
          /\ nth (base_of tab n + i) (comb_vect tab) 0 = nth i v 0)
    /\ (forall i, (i < C)%nat ->
          nth (i + n * C) (full_vect tab) 0
          = if (i <? length v)%nat then nth i v 0 else U);
  others : forall n, (n < A)%nat -> ~ In n (map fst added) ->
    forall i, (i < C)%nat -> nth (i + n * C) (full_vect tab) 0 = U
}.

Lemma table_of_create : table_of [] (create_state_ainsn_table C A U).
Proof.
  constructor; cbn [create_state_ainsn_table comb_vect check_vect base_vect full_vect].
  - reflexivity.
  - apply repeat_length.
  - apply repeat_length.
  - intros p Hp. cbn [length] in Hp. lia.
  - intros n v [].
  - intros n Hn _ i Hi. apply nth_repeat_lt. nia.
Qed.

Lemma nth_app_repeat (l : list Z) (x : Z) (k p : nat) :
  nth p (l ++ repeat x k) 0
  = if (p <? length l)%nat then nth p l 0
    else if (p <? length l + k)%nat then x else 0.
Proof.
  destruct (Nat.ltb_spec p (length l)) as [Hlt|Hge].
  - apply app_nth1. exact Hlt.
  - rewrite app_nth2 by lia.
    destruct (Nat.ltb_spec p (length l + k)) as [Hlt'|Hge'].
    + apply nth_repeat_lt. lia.
    + apply nth_overflow. rewrite repeat_length. lia.
Qed.

Lemma add_vect_table_of (added : list (nat * list Z)) (tab : state_ainsn_table)
    (n : nat) (v : list Z) :
  table_of added tab -> valid_vect (n, v) -> ~ In n (map fst added) ->
  exists tab', add_vect C A U tab n v = Some tab' /\ table_of ((n, v) :: added) tab'.
Proof.
  intros [Hlen Hbase Hfull Howner Hrows Hothers] (Hn & Hv & Hlast & Hpos) Hnew.
  cbn [fst snd] in Hn, Hv, Hlast, Hpos.
  unfold add_vect.
  destruct (Nat.eqb_spec (length v) 0) as [H0|_]; [lia|].
  destruct (Z.eqb_spec (nth (length v - 1) v 0) U) as [Hl|_]; [contradiction|].
  destruct (form_full_vect_spec n v 0 (full_vect tab)) as (full' & -> & Hfl & Hf1 & Hf2).
  { rewrite Hfull. nia. }
  rewrite Hlen, Nat.eqb_refl. cbn [negb]. rewrite <- Hlen.
  destruct (first_unempty_spec v 0) as [Hfirst Hunset].
  set (first := first_unempty U v 0) in *.
  destruct (find_place_spec v (comb_vect tab) first (length (comb_vect tab))
              ltac:(lia) 0%nat eq_refl) as [Hidx Hfree].
  set (idx := find_place U v (comb_vect tab) first (seq 0 (length (comb_vect tab)))) in *.
  set (extra := (idx + C - length (comb_vect tab))%nat).
  set (comb1 := comb_vect tab ++ repeat U extra).
  set (check1 := check_vect tab ++ repeat (Z.of_nat A) extra).
  assert (length comb1 = (length (comb_vect tab) + extra)%nat) as Hl1
    by (unfold comb1; rewrite length_app, repeat_length; reflexivity).
  assert (length check1 = length comb1) as Hl1'
    by (unfold check1; rewrite length_app, repeat_length; lia).
  destruct (Nat.ltb_spec (length comb1) (idx + C)) as [Hshort|_]; [unfold extra in *; lia|].
  assert (forall j, (j < length v)%nat -> nth j v 0 <> U ->
                    nth (idx + 0 + j) comb1 0 = U /\ 0 <= nth j v 0) as Hpre.
  { intros j Hj Hdef. split.
    - unfold comb1. rewrite nth_app_repeat.
      destruct (Nat.ltb_spec (idx + 0 + j) (length (comb_vect tab))) as [Hin|Hout].
      + replace (idx + 0 + j)%nat with (j + idx)%nat by lia.
        apply Hfree; [|lia|exact Hdef].
        destruct (Nat.lt_ge_cases j first) as [Hlt|Hge]; [|lia].
        exfalso. apply Hdef. apply Hunset. lia.
      + destruct (Nat.ltb_spec (idx + 0 + j) (length (comb_vect tab) + extra));
          [reflexivity | unfold extra in *; lia].
    - rewrite Forall_forall in Hpos. apply Hpos; [apply nth_In; exact Hj | exact Hdef]. }
  destruct (fill_spec n idx v 0 comb1 check1 ltac:(lia) ltac:(unfold extra in *; lia) Hpre)
    as (comb' & check' & -> & Hlc & Hlk & Hw1 & Hw2).
  rewrite assign_some by lia.
  eexists. split; [reflexivity|].
  assert (forall m, base_of (mk_table comb' check'
                               (set_nth n (Z.of_nat idx) (base_vect tab)) full') m
                    = if (m =? n)%nat then idx else base_of tab m) as Hbase_of.
  { intros m. unfold base_of. cbn [base_vect]. rewrite nth_set_nth by lia.
    destruct (Nat.eqb_spec m n); [apply Nat2Z.id | reflexivity]. }
  assert (forall n' v', In (n', v') added -> n' <> n) as Hdiff.
  { intros n' v' Hin ->. apply Hnew. apply in_map_iff. exists (n, v'). auto. }
  assert (forall p, (p < length (comb_vect tab))%nat ->
                    nth p comb1 0 = nth p (comb_vect tab) 0
                    /\ nth p check1 0 = nth p (check_vect tab) 0) as Hold.
  { intros p Hp. unfold comb1, check1. rewrite !app_nth1 by lia. auto. }
  assert (forall n' v' i, In (n', v') added -> (i < length v')%nat -> nth i v' 0 <> U ->
            forall j, (j < length v)%nat -> (base_of tab n' + i)%nat = (idx + 0 + j)%nat ->
                      nth j v 0 = U) as Hkeep.
  { intros n' v' i Hin Hi Hdef j Hj Hpj.
    destruct (Z.eq_dec (nth j v 0) U) as [|Hjdef]; [assumption|]. exfalso.
    destruct (Hrows n' v' Hin) as (Hv' & _ & Hfit & Hset & _).
    destruct (Hset i Hi Hdef) as [_ Hc].
    destruct (Hpre j Hj Hjdef) as [Hu _].
    rewrite <- Hpj in Hu. destruct (Hold (base_of tab n' + i)%nat ltac:(lia)) as [Hc1 _].
    congruence. }
  constructor; cbn [comb_vect check_vect base_vect full_vect].
  - lia.
  - rewrite set_nth_length by lia. exact Hbase.
  - lia.
  - intros p Hp.
    assert ((forall j, (j < length v)%nat -> p = (idx + 0 + j)%nat -> nth j v 0 = U) ->
            (nth p comb' 0 = U /\ nth p check' 0 = Z.of_nat A)
            \/ exists n' v' i,
                 In (n', v') ((n, v) :: added)
                 /\ p = (base_of (mk_table comb' check'
                                   (set_nth n (Z.of_nat idx) (base_vect tab)) full') n'
                         + i)%nat
                 /\ (i < length v')%nat /\ nth i v' 0 <> U
                 /\ nth p check' 0 = Z.of_nat n') as Hunchanged.
    { intros Hp'. destruct (Hw2 p Hp') as [-> ->].
      destruct (Nat.lt_ge_cases p (length (comb_vect tab))) as [Hpin|Hpout].
      - destruct (Hold p Hpin) as [-> ->].
        destruct (Howner p Hpin) as [Hleft | (n' & v' & i & Hin' & Hpi & Hi & Hdef' & Hk')].
        + left. exact Hleft.
        + right. exists n', v', i. split; [right; exact Hin'|].
          rewrite Hbase_of.
          destruct (Nat.eqb_spec n' n) as [Heq|_]; [exfalso; eapply Hdiff; eassumption|].
          auto.
      - left. unfold comb1, check1. rewrite !nth_app_repeat, <- Hlen.
        destruct (Nat.ltb_spec p (length (comb_vect tab))); [lia|].
        destruct (Nat.ltb_spec p (length (comb_vect tab) + extra)); [auto | lia]. }
    destruct (Nat.leb_spec idx p) as [Hge|Hlt].
    + destruct (Nat.ltb_spec p (idx + length v)) as [Hrange|Hout].
      * destruct (Z.eq_dec (nth (p - idx) v 0) U) as [Hu|Hdef].
        -- apply Hunchanged. intros j Hj Hpj.
           replace j with (p - idx)%nat by lia. exact Hu.
        -- right. exists n, v, (p - idx)%nat. split; [left; reflexivity|].
           rewrite Hbase_of, Nat.eqb_refl. split; [lia|]. split; [lia|].
           split; [exact Hdef|].
           destruct (Hw1 (p - idx)%nat ltac:(lia) Hdef) as [_ Hk].
           replace (idx + 0 + (p - idx))%nat with p in Hk by lia. exact Hk.
      * apply Hunchanged. intros j Hj Hpj. lia.
    + apply Hunchanged. intros j Hj Hpj. lia.
  - intros n' v' [Heq | Hin].
    + injection Heq as <- <-. rewrite Hbase_of, Nat.eqb_refl.
      split; [lia|]. split; [rewrite nth_set_nth by lia; rewrite Nat.eqb_refl; lia|].
      split; [lia|]. split.
      * intros i Hi Hdef. destruct (Hw1 i Hi Hdef) as [Hc Hk].
        rewrite Nat.add_0_r in Hc, Hk. auto.
      * intros i Hi. destruct (Nat.ltb_spec i (length v)) as [Hlt|Hge].
        -- rewrite <- (Hf1 i Hlt). f_equal. lia.
        -- rewrite Hf2 by nia. apply Hothers; assumption.
    + destruct (Hrows n' v' Hin) as (Hv' & Hb0 & Hfit & Hset & Hfullrow).
      pose proof (Hdiff n' v' Hin) as Hne.
      rewrite Hbase_of. destruct (Nat.eqb_spec n' n) as [|_]; [contradiction|].
      split; [exact Hv'|].
      split; [rewrite nth_set_nth by lia;
              destruct (Nat.eqb_spec n' n); [contradiction | exact Hb0]|].
      split; [lia|]. split.
      * intros i Hi Hdef. destruct (Hset i Hi Hdef) as [Hk Hc].
        destruct (Hw2 (base_of tab n' + i)%nat) as [-> ->].
        { intros j Hj Hpj. eapply Hkeep; eassumption. }
        destruct (Hold (base_of tab n' + i)%nat ltac:(lia)) as [-> ->]. auto.
      * intros i Hi. rewrite Hf2; [apply Hfullrow; exact Hi|].
        destruct (Nat.lt_ge_cases n' n); [left | right]; nia.
  - intros n' Hn' Hnot i Hi.
    assert (n' <> n) as Hne by (intros ->; apply Hnot; left; reflexivity).
    rewrite Hf2; [apply Hothers; [assumption | | assumption]|].
    + intros Hin. apply Hnot. right. exact Hin.
    + destruct (Nat.lt_ge_cases n' n); [left | right]; nia.
Qed.

Lemma add_vects_table_of (vects : list (nat * list Z)) :
  forall (added : list (nat * list Z)) (tab : state_ainsn_table),
  table_of added tab -> Forall valid_vect vects ->
  NoDup (map fst vects) ->
  (forall n, In n (map fst vects) -> ~ In n (map fst added)) ->
  exists tab', add_vects C A U tab vects = Some tab'
               /\ table_of (rev vects ++ added) tab'.
Proof.
  induction vects as [|[n v] vects IH]; intros added tab Htab Hvalid Hnodup Hfresh.
  - exists tab. split; [reflexivity | exact Htab].
  - cbn [add_vects]. inversion Hvalid as [|? ? Hv Hrest]; subst.
    cbn [map fst] in Hnodup, Hfresh. inversion Hnodup as [|? ? Hnotin Hnodup']; subst.
    destruct (add_vect_table_of added tab n v Htab Hv) as (tab1 & -> & Htab1).
    { apply Hfresh. left. reflexivity. }
    destruct (IH ((n, v) :: added) tab1 Htab1 Hrest Hnodup') as (tab' & E & Htab').
    { intros m Hm [Heq | Hin].
      - cbn [fst] in Heq. subst m. contradiction.
      - apply (Hfresh m); [right; exact Hm | exact Hin]. }
    exists tab'. split; [exact E|]. cbn [rev]. rewrite <- app_assoc. exact Htab'.
Qed.

Lemma fst_unique (l : list (nat * list Z)) (n : nat) (v v' : list Z) :
  NoDup (map fst l) -> In (n, v) l -> In (n, v') l -> v = v'.
Proof.
  induction l as [|[m w] l IH]; intros Hnodup Hin Hin'; [contradiction|].
  cbn [map fst] in Hnodup. inversion Hnodup as [|? ? Hnotin Hnodup']; subst.
  assert (forall x, In (m, x) l -> False) as Hno.
  { intros x Hx. apply Hnotin. apply in_map_iff. exists (m, x). auto. }
  destruct Hin as [Heq | Hin], Hin' as [Heq' | Hin'].
  - congruence.
  - injection Heq as -> ->. exfalso. eapply Hno. eassumption.
  - injection Heq' as -> ->. exfalso. eapply Hno. eassumption.
  - apply IH; assumption.
Qed.

Lemma table_of_lookup (added : list (nat * list Z)) (tab : state_ainsn_table)
    (state class : nat) (vect : list Z) :
  table_of added tab -> NoDup (map fst added) -> (state < A)%nat ->
  In (state, vect) added -> (class < C)%nat ->
  comb_lookup U tab state class = full_lookup C tab state class
  /\ full_lookup C tab state class
     = if (class <? length vect)%nat then nth class vect 0 else U.
Proof.
  intros [Hlen Hbase Hfull Howner Hrows Hothers] Hnodup Hstate Hin Hclass.
  destruct (Hrows state vect Hin) as (Hv & Hb0 & Hfit & Hset & Hfullrow).
  unfold full_lookup. rewrite (Hfullrow class Hclass). split; [|reflexivity].
  unfold comb_lookup.
  replace (Z.to_nat (nth state (base_vect tab) 0 + Z.of_nat class))
    with (base_of tab state + class)%nat by (unfold base_of; lia).
  destruct (Nat.ltb_spec class (length vect)) as [Hlt|Hge].
  - destruct (Z.eq_dec (nth class vect 0) U) as [Hu|Hdef].
    + rewrite Hu. destruct (Z.eqb_spec (nth (base_of tab state + class) (check_vect tab) 0)
                              (Z.of_nat state)) as [Hk|_]; [|reflexivity].
      cbn [negb].
      destruct (Howner (base_of tab state + class)%nat ltac:(lia))
        as [[Hc _] | (n & v & i & Hin' & Hp & Hi & Hdef & Hk')]; [exact Hc|].
      exfalso. assert (n = state) as -> by lia.
      rewrite (fst_unique added state v vect Hnodup Hin' Hin) in *.
      assert (i = class) as -> by lia. contradiction.
    + destruct (Hset class Hlt Hdef) as [-> ->]. rewrite Z.eqb_refl. reflexivity.
  - destruct (Z.eqb_spec (nth (base_of tab state + class) (check_vect tab) 0)
                (Z.of_nat state)) as [Hk|_]; [|reflexivity].
    exfalso.
    destruct (Howner (base_of tab state + class)%nat ltac:(lia))
      as [[_ Hk'] | (n & v & i & Hin' & Hp & Hi & Hdef & Hk')]; [lia|].
    assert (n = state) as -> by lia.
    rewrite (fst_unique added state v vect Hnodup Hin' Hin) in *. lia.
Qed.

(** C3: [add_vect] takes the vector of every state (one vector for
    each [order_state_num], as [add_vect_el] forms them) without
    [abort ()], and then, for every state and every insn class, what the
    generated code reads in the comb vector is the element of the full
    vector: the element of the state's vector for the class, the
    undefined value when the vector has none. *)
Theorem comb_vect_lookup_is_full_vect (vects : list (nat * list Z)) :
  Forall valid_vect vects ->
  NoDup (map fst vects) ->
  exists tab,
    add_vects C A U (create_state_ainsn_table C A U) vects = Some tab
    /\ forall state vect class,
         In (state, vect) vects -> (class < C)%nat ->
         comb_lookup U tab state class = full_lookup C tab state class
         /\ full_lookup C tab state class
            = if (class <? length vect)%nat then nth class vect 0 else U.
Proof.
  intros Hvalid Hnodup.
  destruct (add_vects_table_of vects [] (create_state_ainsn_table C A U)
              table_of_create Hvalid Hnodup) as (tab & E & Htab).
  { intros n _ []. }
  exists tab. split; [exact E|]. intros state vect class Hin Hclass.
  rewrite app_nil_r in Htab.
  apply (table_of_lookup (rev vects) tab state class vect Htab).
  - rewrite map_rev. apply NoDup_rev. exact Hnodup.
  - rewrite Forall_forall in Hvalid. apply (Hvalid (state, vect) Hin).
  - apply in_rev in Hin. exact Hin.
  - exact Hclass.
Qed.

End Soundness.


(** Three states and three classes; the undefined value of a
    transition table is the number of the states. *)
Definition three_states : list (nat * list Z) :=
  [(0%nat, [1; 3; 2]); (2%nat, [3; 0]); (1%nat, [2])].

Lemma comb_vect_lookup_is_full_vect_witness :
  exists tab,
    add_vects 3 3 3 (create_state_ainsn_table 3 3 3) three_states = Some tab
    /\ forall state vect class,
         In (state, vect) three_states -> (class < 3)%nat ->
         comb_lookup 3 tab state class = full_lookup 3 tab state class
         /\ full_lookup 3 tab state class
            = if (class <? length vect)%nat then nth class vect 0 else 3.
Proof.
  apply (comb_vect_lookup_is_full_vect 3 3 3 three_states).
  - unfold three_states, valid_vect.
    repeat constructor; cbn; try lia; intros; lia.
  - unfold three_states. cbn. repeat constructor; cbn; intuition lia.
Defined.

End Tables.

(** ** The minimization of a deterministic automaton *)

Module Minimize.
Import Bits Reservs IR Automata.
Import Transform(outcome, Done, Abort, NoFuel).

Local Open Scope heap_scope.

(** An assignment to a field that every state, or every insn, has. *)
Definition upd {A : Type} (f : nat -> A) (k : nat) (v : A) : nat -> A :=
  fun x => if (x =? k)%nat then v else f x.

Section Pass.

Variable st : store.

(** [pass_state_graph (start_state, applied_func)] with
    [add_achieved_state]: [passed] holds the states whose [pass_num] is
    [curr_state_graph_pass_num], in the order [applied_func] met them;
    [None] is the end of the fuel. *)
Fixpoint pass_state_graph (fuel : nat) (start_state : nat) (passed : list nat)
    : option (list nat) :=
  match fuel with
  | O => None
  | S fuel' =>
    if existsb (Nat.eqb start_state) passed then Some passed
    else
      (fix arcs_loop (arcs : list arc) (passed : list nat) : option (list nat) :=
         match arcs with
         | [] => Some passed
         | arc :: arcs' =>
           match pass_state_graph fuel' (to_state arc) passed with
           | Some passed' => arcs_loop arcs' passed'
           | None => None
           end
         end) (first_out_arc (the_state st start_state)) (passed ++ [start_state])
  end.

(** [pass_states (automaton, add_achieved_state)]:
    [all_achieved_states]. *)
Definition pass_states (fuel : nat) (automaton : automaton_t) : option (list nat) :=
  pass_state_graph fuel (start_state automaton) [].

End Pass.

(** The fields [equiv_class_num] and [state_alts] of the declaration
    of each insn. *)
Definition insn_marks : Type := nat -> nat * Z.

Definition no_marks : insn_marks := fun _ => (0%nat, 0).

(** [set_out_arc_insns_equiv_num (state, odd_iteration_flag)]: [num]
    is [equiv_class_num_1] on an odd iteration, [equiv_class_num_2] on
    an even one; the result is the marks with [state_out_arcs_num];
    [None] is [abort ()]. *)
Fixpoint set_out_arc_insns_equiv_num (arcs : list arc) (num : nat -> nat)
    (marks : insn_marks) (state_out_arcs_num : nat) : option (insn_marks * nat) :=
  match arcs with
  | [] => Some (marks, state_out_arcs_num)
  | arc :: arcs' =>
    if negb (fst (marks (insn arc)) =? 0)%nat || negb (snd (marks (insn arc)) =? 0)
    then None
    else if (num (to_state arc) =? 0)%nat || (state_alts arc <=? 0) then None
    else set_out_arc_insns_equiv_num arcs' num
           (upd marks (insn arc) (num (to_state arc), state_alts arc))
           (S state_out_arcs_num)
  end.

(** The first loop of [state_is_differed]: [None] is its [return 1],
    else [state_out_arcs_num]. *)
Fixpoint differed_arc (arcs : list arc) (num : nat -> nat) (marks : insn_marks)
    (state_out_arcs_num : nat) : option nat :=
  match arcs with
  | [] => Some state_out_arcs_num
  | arc :: arcs' =>
    if negb (num (to_state arc) =? fst (marks (insn arc)))%nat
       || negb (snd (marks (insn arc)) =? state_alts arc)
    then None
    else differed_arc arcs' num marks (S state_out_arcs_num)
  end.

Section Minimization.

Variable max_cycles_num : nat.
Variable units_array : list unit_decl.

(** The loop of [state_is_differed] over the query units, from unit [i]
    on. *)
Fixpoint differed_query_unit (st : store) (state another_state : nat)
    (units : list unit_decl) (i : nat) : outcome bool :=
  match units with
  | [] => Done false
  | unit :: units' =>
    if query_p unit then
      match first_cycle_unit_presence max_cycles_num st state i,
            first_cycle_unit_presence max_cycles_num st another_state i with
      | Some presence1_p, Some presence2_p =>
        if (presence1_p && negb presence2_p) || (negb presence1_p && presence2_p)
        then Done true
        else differed_query_unit st state another_state units' (S i)
      | _, _ => Abort
      end
    else differed_query_unit st state another_state units' (S i)
  end.

(** [state_is_differed (state, another_state,
    another_state_out_arcs_num, odd_iteration_flag)] *)
Definition state_is_differed (st : store) (state another_state : nat)
    (another_state_out_arcs_num : nat) (num : nat -> nat) (marks : insn_marks)
    : outcome bool :=
  match differed_arc (first_out_arc (the_state st state)) num marks 0 with
  | None => Done true
  | Some state_out_arcs_num =>
    if negb (state_out_arcs_num =? another_state_out_arcs_num)%nat then Done true
    else differed_query_unit st state another_state units_array 0
  end.

(** The inner loop of [partition_equiv_class] over the states after
    [first_state]: the states that stay, [new_equiv_class] (the list
    through [next_equiv_class_state], last state first),
    [*new_equiv_class_num_ptr] and the numbers written. *)
Fixpoint split_equiv_class (st : store) (first_state out_arcs_num : nat)
    (num : nat -> nat) (marks : insn_marks) (states : list nat)
    (new_equiv_class : list nat) (new_equiv_class_num : nat) (written : nat -> nat)
    : outcome (list nat * list nat * nat * (nat -> nat)) :=
  match states with
  | [] => Done ([], new_equiv_class, new_equiv_class_num, written)
  | curr_state :: states' =>
    match state_is_differed st curr_state first_state out_arcs_num num marks with
    | Done true =>
      let new_equiv_class_num' :=
        match new_equiv_class with
        | [] => S new_equiv_class_num
        | _ :: _ => new_equiv_class_num
        end in
      split_equiv_class st first_state out_arcs_num num marks states'
        (curr_state :: new_equiv_class) new_equiv_class_num'
        (upd written curr_state new_equiv_class_num')
    | Done false =>
      match split_equiv_class st first_state out_arcs_num num marks states'
              new_equiv_class new_equiv_class_num written with
      | Done (stay, new_equiv_class', n, written') =>
        Done (curr_state :: stay, new_equiv_class', n, written')
      | Abort => Abort
      | NoFuel => NoFuel
      end
    | Abort => Abort
    | NoFuel => NoFuel
    end
  end.

(** [partition_equiv_class (equiv_class_ptr, odd_iteration_flag,
    next_iteration_classes, new_equiv_class_num_ptr)]: the class that
    [*equiv_class_ptr] heads at the end, followed by the classes added
    to [next_iteration_classes], [*new_equiv_class_num_ptr] and the
    numbers written.  The result [partition_p] is that a class was
    added.  [num] holds the numbers read ([equiv_class_num_1] on an odd
    iteration), [written] the numbers written. *)
Fixpoint partition_equiv_class (fuel : nat) (st : store) (equiv_class : list nat)
    (num : nat -> nat) (new_equiv_class_num : nat) (written : nat -> nat)
    : outcome (list (list nat) * nat * (nat -> nat)) :=
  match fuel with
  | O => NoFuel
  | S fuel' =>
    match equiv_class with
    | [] => Abort
    | [first_state] => Done ([equiv_class], new_equiv_class_num, written)
    | first_state :: states =>
      match set_out_arc_insns_equiv_num (first_out_arc (the_state st first_state))
              num no_marks 0 with
      | None => Abort
      | Some (marks, out_arcs_num) =>
        match split_equiv_class st first_state out_arcs_num num marks states []
                new_equiv_class_num written with
        | Done (stay, new_equiv_class, n, written') =>
          match new_equiv_class with
          | [] => Done ([first_state :: stay], n, written')
          | _ :: _ =>
            match partition_equiv_class fuel' st new_equiv_class num n written' with
            | Done (classes, n', written'') =>
              Done ((first_state :: stay) :: classes, n', written'')
            | Abort => Abort
            | NoFuel => NoFuel
            end
          end
        | Abort => Abort
        | NoFuel => NoFuel
        end
      end
    end
  end.

(** The loop of [evaluate_equiv_classes] over [*equiv_classes]: the
    classes these pointers head at the end, the classes added to
    [next_iteration_classes], the number of the last class, the numbers
    written and [finish_flag]. *)
Fixpoint partition_equiv_classes (st : store) (equiv_classes : list (list nat))
    (num : nat -> nat) (new_equiv_class_num : nat) (written : nat -> nat)
    : outcome (list (list nat) * list (list nat) * nat * (nat -> nat) * bool) :=
  match equiv_classes with
  | [] => Done ([], [], new_equiv_class_num, written, true)
  | equiv_class :: equiv_classes' =>
    match partition_equiv_class (length equiv_class) st equiv_class num
            new_equiv_class_num written with
    | Done (classes, n, written') =>
      match partition_equiv_classes st equiv_classes' num n written' with
      | Done (heads, added, n', written'', finish_flag) =>
        Done (hd [] classes :: heads, tl classes ++ added, n', written'',
              match tl classes with [] => finish_flag | _ :: _ => false end)
      | Abort => Abort
      | NoFuel => NoFuel
      end
    | Abort => Abort
    | NoFuel => NoFuel
    end
  end.

(** [struct state], the fields [equiv_class_num_1] and
    [equiv_class_num_2]. *)
Record equiv_class_nums : Type := mk_nums {
  equiv_class_num_1 : nat -> nat;
  equiv_class_num_2 : nat -> nat
}.

(** The loop that transfers the numbers for the next iteration. *)
Fixpoint transfer (odd_iteration_flag : bool) (states : list nat) (nums : equiv_class_nums)
    : equiv_class_nums :=
  match states with
  | [] => nums
  | state :: states' =>
    transfer odd_iteration_flag states'
      (if odd_iteration_flag
       then mk_nums (equiv_class_num_1 nums)
              (upd (equiv_class_num_2 nums) state (equiv_class_num_1 nums state))
       else mk_nums (upd (equiv_class_num_1 nums) state (equiv_class_num_2 nums state))
              (equiv_class_num_2 nums))
  end.

(** The [do ... while (!finish_flag)] of [evaluate_equiv_classes];
    [odd_iteration_flag] is the flag of the iteration before. *)
Fixpoint equiv_classes_loop (fuel : nat) (st : store) (all_achieved_states : list nat)
    (next_iteration_classes : list (list nat)) (odd_iteration_flag : bool)
    (new_equiv_class_num : nat) (nums : equiv_class_nums) : outcome (list (list nat)) :=
  match fuel with
  | O => NoFuel
  | S fuel' =>
    let odd_iteration_flag := negb odd_iteration_flag in
    let nums := transfer odd_iteration_flag all_achieved_states nums in
    match partition_equiv_classes st next_iteration_classes
            (if odd_iteration_flag then equiv_class_num_1 nums else equiv_class_num_2 nums)
            new_equiv_class_num
            (if odd_iteration_flag then equiv_class_num_2 nums else equiv_class_num_1 nums)
    with
    | Done (heads, added, n, written, finish_flag) =>
      if finish_flag then Done heads
      else equiv_classes_loop fuel' st all_achieved_states (heads ++ added)
             odd_iteration_flag n
             (if odd_iteration_flag
              then mk_nums (equiv_class_num_1 nums) written
              else mk_nums written (equiv_class_num_2 nums))
    | Abort => Abort
    | NoFuel => NoFuel
    end
  end.

(** [init_equiv_class (states, states_num)]: the class and the numbers
    [equiv_class_num_1]. *)
Fixpoint init_equiv_class (states : list nat) (result_equiv_class : list nat)
    (num_1 : nat -> nat) : list nat * (nat -> nat) :=
  match states with
  | [] => (result_equiv_class, num_1)
  | state :: states' =>
    init_equiv_class states' (state :: result_equiv_class) (upd num_1 state 1%nat)
  end.

(** [evaluate_equiv_classes (automaton, equiv_classes)]; [fuel] bounds
    the depth of [pass_state_graph] and the iterations. *)
Definition evaluate_equiv_classes (fuel : nat) (st : store) (automaton : automaton_t)
    (nums : equiv_class_nums) : outcome (list (list nat)) :=
  match pass_states st fuel automaton with
  | None => NoFuel
  | Some all_achieved_states =>
    let (new_equiv_class, num_1) :=
      init_equiv_class all_achieved_states [] (equiv_class_num_1 nums) in
    equiv_classes_loop fuel st all_achieved_states [new_equiv_class] false 1
      (mk_nums num_1 (equiv_class_num_2 nums))
  end.

(** The loop of [merge_states] over the states of a class: the field
    [equiv_class_state] of each, and the alt states of the new state. *)
Fixpoint class_alt_states (st : store) (new_state : nat) (states : list nat)
    (equiv_class_state : nat -> nat) (alt_states : list nat)
    : (nat -> nat) * list nat :=
  match states with
  | [] => (equiv_class_state, alt_states)
  | curr_state :: states' =>
    class_alt_states st new_state states' (upd equiv_class_state curr_state new_state)
      (match component_states (the_state st curr_state) with
       | [] => curr_state :: alt_states
       | components => rev components ++ alt_states
       end)
  end.

(** The first loop of [merge_states]: a new state for each class of two
    states or more. *)
Fixpoint create_class_states (classes : list (list nat)) (automaton : automaton_t)
    (equiv_class_state : nat -> nat) : M (nat -> nat) :=
  match classes with
  | [] => ret equiv_class_state
  | [] :: _ => abort
  | [state] :: classes' =>
    create_class_states classes' automaton (upd equiv_class_state state state)
  | (first_class_state :: states) :: classes' =>
    new_state <- get_free_state max_cycles_num false (automaton_order_num automaton) ;;
    fun st =>
      let (equiv_class_state', alt_states) :=
        class_alt_states st new_state (first_class_state :: states) equiv_class_state [] in
      (set_component_states new_state (uniq_sort_alt_states alt_states) ;;;
       create_class_states classes' automaton equiv_class_state') st
  end.

(** The arcs of the state of a class: those of its first state. *)
Fixpoint add_class_arcs (equiv_class_state : nat -> nat) (new_state : nat)
    (arcs : list arc) : M unit :=
  match arcs with
  | [] => ret tt
  | curr_arc :: arcs' =>
    add_arc new_state (equiv_class_state (to_state curr_arc)) (insn curr_arc)
      (state_alts curr_arc) ;;;
    add_class_arcs equiv_class_state new_state arcs'
  end.

(** The loop of [merge_states] over the states of a class that have
    their arcs freed: [automaton->start_state]. *)
Fixpoint class_start_state (equiv_class_state : nat -> nat) (states : list nat)
    (start_state' : nat) : nat :=
  match states with
  | [] => start_state'
  | curr_state :: states' =>
    class_start_state equiv_class_state states'
      (if (start_state' =? curr_state)%nat then equiv_class_state curr_state
       else start_state')
  end.

(** The second loop of [merge_states]; the result is
    [automaton->start_state].  The states of a class of two states or
    more are left behind with the arcs they had. *)
Fixpoint merge_class_arcs (classes : list (list nat)) (equiv_class_state : nat -> nat)
    (start_state' : nat) : M nat :=
  match classes with
  | [] => ret start_state'
  | [] :: _ => abort
  | [state] :: classes' =>
    node <- read state ;;
    set_first_out_arc state
      (map (fun a => mk_arc (arc_id a) (equiv_class_state (to_state a)) (insn a)
                       (state_alts a))
           (first_out_arc node)) ;;;
    merge_class_arcs classes' equiv_class_state start_state'
  | (first_class_state :: states) :: classes' =>
    node <- read first_class_state ;;
    add_class_arcs equiv_class_state (equiv_class_state first_class_state)
      (first_out_arc node) ;;;
    merge_class_arcs classes' equiv_class_state
      (class_start_state equiv_class_state (first_class_state :: states) start_state')
  end.

(** [merge_states (automaton, equiv_classes)] *)
Definition merge_states (automaton : automaton_t) (classes : list (list nat))
    (equiv_class_state : nat -> nat) : M automaton_t :=
  equiv_class_state' <- create_class_states classes automaton equiv_class_state ;;
  start_state' <- merge_class_arcs classes equiv_class_state' (start_state automaton) ;;
  ret (mk_automaton (ainsn_list automaton) (corresponding_automaton_decl automaton)
         (automaton_order_num automaton) start_state').

(** [minimize_DFA (automaton)] *)
Definition minimize_DFA (fuel : nat) (automaton : automaton_t) (nums : equiv_class_nums)
    (equiv_class_state : nat -> nat) : M automaton_t :=
  fun st =>
    match evaluate_equiv_classes fuel st automaton nums with
    | Done equiv_classes => merge_states automaton equiv_classes equiv_class_state st
    | Abort => Abort
    | NoFuel => NoFuel
    end.

End Minimization.


(** *** The states [pass_states] achieves *)

(** The states of [us] not passed yet. *)
Definition unpassed (us passed : list nat) : nat :=
  length (filter (fun s => negb (existsb (Nat.eqb s) passed)) us).

Lemma existsb_eqb_In (s : nat) (l : list nat) : existsb (Nat.eqb s) l = true <-> In s l.
Proof.
  rewrite existsb_exists. split.
  - intros (x & Hx & Heq). apply Nat.eqb_eq in Heq. subst. exact Hx.
  - intros H. exists s. split; [exact H | apply Nat.eqb_refl].
Qed.

Lemma unpassed_incl (us passed passed' : list nat) :
  incl passed passed' -> (unpassed us passed' <= unpassed us passed)%nat.
Proof.
  intros Hincl. unfold unpassed. induction us as [|u us IH]; cbn [filter]; [lia|].
  destruct (existsb (Nat.eqb u) passed') eqn:E'; destruct (existsb (Nat.eqb u) passed) eqn:E;
    cbn [negb length]; try lia.
  apply existsb_eqb_In in E. apply Hincl in E. apply existsb_eqb_In in E. congruence.
Qed.

Lemma unpassed_new (us passed : list nat) (s : nat) :
  In s us -> ~ In s passed -> (unpassed us (passed ++ [s]) < unpassed us passed)%nat.
Proof.
  intros Hs Hnew.
  pose proof (fun us' => unpassed_incl us' passed (passed ++ [s])
                           (fun x Hx => in_or_app _ _ _ (or_introl Hx))) as Hle.
  unfold unpassed in *. induction us as [|u us IH]; [contradiction|].
  cbn [filter]. specialize (Hle us) as Hle'.
  destruct Hs as [->|Hs].
  - rewrite existsb_app. cbn [existsb]. rewrite Nat.eqb_refl, orb_true_r. cbn [negb].
    destruct (existsb (Nat.eqb s) passed) eqn:E;
      [apply existsb_eqb_In in E; contradiction|].
    cbn [negb length]. lia.
  - specialize (IH Hs). rewrite existsb_app.
    destruct (existsb (Nat.eqb u) passed); cbn [orb negb length]; [exact IH|].
    cbn [existsb]. destruct (u =? s)%nat; cbn [orb negb length]; lia.
Qed.


Section Achieved.

Variable st : store.

(** The arcs of a state. *)
Definition out_arcs (s : nat) : list arc := first_out_arc (the_state st s).

(** Every arc from [states], but for the states of [stack], enters
    [states]. *)
Definition closed_except (stack states : list nat) : Prop :=
  forall s, In s states -> ~ In s stack ->
  forall arc, In arc (out_arcs s) -> In (to_state arc) states.

(** A set of states that holds the start state and is closed under the
    arcs. *)
Variable universe : list nat.
Hypothesis universe_closed : closed_except [] universe.

Lemma pass_state_graph_spec (fuel : nat) :
  forall s passed passed' stack,
  pass_state_graph st fuel s passed = Some passed' ->
  In s universe -> incl passed universe -> NoDup passed ->
  closed_except stack passed ->
  closed_except stack passed' /\ In s passed' /\ incl passed passed'
  /\ incl passed' universe /\ NoDup passed'.
Proof.
  induction fuel as [|fuel IH]; intros s passed passed' stack E Hs Hincl Hnodup Hclosed;
    cbn [pass_state_graph] in E; [discriminate|].
  destruct (existsb (Nat.eqb s) passed) eqn:Epassed.
  - injection E as <-. apply existsb_eqb_In in Epassed.
    split; [exact Hclosed|]. split; [exact Epassed|]. split; [apply incl_refl|]. auto.
  - assert (~ In s passed) as Hnew.
    { intros H. apply existsb_eqb_In in H. congruence. }
    fold (out_arcs s) in E.
    assert (forall arcs p p',
              (fix arcs_loop (arcs : list arc) (passed : list nat) : option (list nat) :=
                 match arcs with
                 | [] => Some passed
                 | arc :: arcs' =>
                   match pass_state_graph st fuel (to_state arc) passed with
                   | Some passed' => arcs_loop arcs' passed'
                   | None => None
                   end
                 end) arcs p = Some p' ->
              (forall arc, In arc arcs -> In (to_state arc) universe) ->
              incl p universe -> NoDup p -> closed_except (s :: stack) p ->
              closed_except (s :: stack) p' /\ incl p p' /\ incl p' universe /\ NoDup p'
              /\ forall arc, In arc arcs -> In (to_state arc) p') as Hloop.
    { induction arcs as [|arc arcs IHarcs]; intros p p' Ep Htargets Hp Hnd Hcl.
      - injection Ep as <-. split; [exact Hcl|]. split; [apply incl_refl|].
        split; [exact Hp|]. split; [exact Hnd|]. intros arc [].
      - destruct (pass_state_graph st fuel (to_state arc) p) as [p1|] eqn:E1;
          [|discriminate].
        destruct (IH _ _ _ _ E1 (Htargets arc (or_introl eq_refl)) Hp Hnd Hcl)
          as (Hcl1 & Hin1 & Hincl1 & Huni1 & Hnd1).
        destruct (IHarcs p1 p' Ep (fun a Ha => Htargets a (or_intror Ha)) Huni1 Hnd1 Hcl1)
          as (Hcl' & Hincl' & Huni' & Hnd' & Hin').
        split; [exact Hcl'|]. split; [eapply incl_tran; eassumption|].
        split; [exact Huni'|]. split; [exact Hnd'|].
        intros a [<- | Ha]; [apply Hincl'; exact Hin1 | apply Hin'; exact Ha]. }
    destruct (Hloop _ _ _ E) as (Hcl' & Hincl' & Huni' & Hnd' & Hin').
    + intros arc Harc. eapply universe_closed; [exact Hs | intros [] | exact Harc].
    + intros x Hx. apply in_app_or in Hx. destruct Hx as [Hx | [<- | []]]; auto.
    + apply NoDup_app; [exact Hnodup | repeat constructor; intros [] |].
      intros x Hx [<- | []]. contradiction.
    + intros x Hx Hstack arc Harc. apply in_or_app. left.
      apply in_app_or in Hx. destruct Hx as [Hx | [<- | []]].
      * eapply Hclosed; [exact Hx | | exact Harc]. intros H. apply Hstack. right. exact H.
      * exfalso. apply Hstack. left. reflexivity.
    + assert (In s passed') as Hs' by (apply Hincl'; apply in_or_app; right; left; reflexivity).
      split; [|split; [exact Hs'|split; [|split; assumption]]].
      * intros x Hx Hstack arc Harc.
        destruct (Nat.eq_dec x s) as [->|Hne]; [apply Hin'; exact Harc|].
        eapply Hcl'; [exact Hx | | exact Harc]. intros [Heq | H]; [congruence | contradiction].
      * intros x Hx. apply Hincl'. apply in_or_app. left. exact Hx.
Qed.

Lemma pass_state_graph_ends (fuel : nat) :
  forall s passed,
  In s universe -> incl passed universe -> NoDup passed ->
  (unpassed universe passed < fuel)%nat ->
  exists passed', pass_state_graph st fuel s passed = Some passed'.
Proof.
  induction fuel as [|fuel IH]; intros s passed Hs Hincl Hnodup Hfuel; [lia|].
  cbn [pass_state_graph].
  destruct (existsb (Nat.eqb s) passed) eqn:Epassed; [eexists; reflexivity|].
  assert (~ In s passed) as Hnew.
  { intros H. apply existsb_eqb_In in H. congruence. }
  fold (out_arcs s).
  assert (forall arcs p,
            (forall arc, In arc arcs -> In (to_state arc) universe) ->
            incl p universe -> NoDup p -> (unpassed universe p < fuel)%nat ->
            exists p',
              (fix arcs_loop (arcs : list arc) (passed : list nat) : option (list nat) :=
                 match arcs with
                 | [] => Some passed
                 | arc :: arcs' =>
                   match pass_state_graph st fuel (to_state arc) passed with
                   | Some passed' => arcs_loop arcs' passed'
                   | None => None
                   end
                 end) arcs p = Some p') as Hloop.
  { induction arcs as [|arc arcs IHarcs]; intros p Htargets Hp Hnd Hf.
    - eexists. reflexivity.
    - destruct (IH (to_state arc) p (Htargets arc (or_introl eq_refl)) Hp Hnd Hf)
        as (p1 & E1).
      rewrite E1.
      destruct (pass_state_graph_spec fuel _ _ _ universe E1
                  (Htargets arc (or_introl eq_refl)) Hp Hnd)
        as (_ & _ & Hincl1 & Huni1 & Hnd1).
      { intros x Hx Hstack. exfalso. apply Hstack. apply Hp. exact Hx. }
      apply IHarcs; try assumption.
      + intros a Ha. apply Htargets. right. exact Ha.
      + pose proof (unpassed_incl universe p p1 Hincl1). lia. }
  apply Hloop.
  - intros arc Harc. eapply universe_closed; [exact Hs | intros [] | exact Harc].
  - intros x Hx. apply in_app_or in Hx. destruct Hx as [Hx | [<- | []]]; auto.
  - apply NoDup_app; [exact Hnodup | repeat constructor; intros [] |].
    intros x Hx [<- | []]. contradiction.
  - pose proof (unpassed_new universe passed s Hs Hnew). lia.
Qed.

(** [pass_states] ends, with the states achieved from the start state:
    a set closed under the arcs. *)
Lemma pass_states_spec (fuel : nat) (automaton : automaton_t) :
  In (start_state automaton) universe ->
  (length universe < fuel)%nat ->
  exists all_achieved_states,
    pass_states st fuel automaton = Some all_achieved_states
    /\ closed_except [] all_achieved_states
    /\ In (start_state automaton) all_achieved_states
    /\ incl all_achieved_states universe
    /\ NoDup all_achieved_states.
Proof.
  intros Hstart Hfuel. unfold pass_states.
  destruct (pass_state_graph_ends fuel (start_state automaton) []) as (all & E).
  - exact Hstart.
  - intros x [].
  - constructor.
  - unfold unpassed. pose proof (filter_length_le
                                   (fun s => negb (existsb (Nat.eqb s) [])) universe). lia.
  - exists all. split; [exact E|].
    destruct (pass_state_graph_spec fuel _ _ _ [] E Hstart) as (Hcl & Hin & _ & Huni & Hnd).
    + intros x [].
    + constructor.
    + intros x [].
    + auto.
Qed.

End Achieved.


(** *** The classes [evaluate_equiv_classes] finds *)

Lemma NoDup_app_disjoint {A : Type} (l l' : list A) (x : A) :
  NoDup (l ++ l') -> In x l -> In x l' -> False.
Proof.
  induction l as [|y l IH]; intros Hnd Hl Hl'; [contradiction|].
  cbn [app] in Hnd. inversion Hnd as [|? ? Hnotin Hnd']; subst.
  destruct Hl as [->|Hl].
  - apply Hnotin. apply in_or_app. right. exact Hl'.
  - apply IH; assumption.
Qed.


(** The arc that [arcs] holds for the insn [i]: the state it enters
    and its [state_alts]. *)
Definition transition (arcs : list arc) (i : nat) : option (nat * Z) :=
  match find (fun a => (insn a =? i)%nat) arcs with
  | Some a => Some (to_state a, state_alts a)
  | None => None
  end.

Lemma find_insn_none (arcs : list arc) (i : nat) :
  find (fun a => (insn a =? i)%nat) arcs = None <-> ~ In i (map insn arcs).
Proof.
  split.
  - intros H Hin. apply in_map_iff in Hin. destruct Hin as (a & <- & Ha).
    pose proof (find_none _ _ H a Ha) as Hf. cbn beta in Hf.
    rewrite Nat.eqb_refl in Hf. discriminate.
  - intros H. destruct (find (fun a => (insn a =? i)%nat) arcs) as [a|] eqn:E; [|reflexivity].
    apply find_some in E. destruct E as [Ha Hi]. apply Nat.eqb_eq in Hi.
    exfalso. apply H. apply in_map_iff. exists a. auto.
Qed.

Lemma find_insn_unique (arcs : list arc) (a : arc) :
  NoDup (map insn arcs) -> In a arcs ->
  find (fun a' => (insn a' =? insn a)%nat) arcs = Some a.
Proof.
  induction arcs as [|b arcs IH]; intros Hnodup Hin; [contradiction|].
  cbn [map] in Hnodup. inversion Hnodup as [|? ? Hnotin Hnodup']; subst.
  cbn [find]. destruct Hin as [->|Hin].
  - rewrite Nat.eqb_refl. reflexivity.
  - destruct (Nat.eqb_spec (insn b) (insn a)) as [Heq|_]; [|auto].
    exfalso. apply Hnotin. rewrite Heq. apply in_map. exact Hin.
Qed.

Lemma set_out_arc_insns_equiv_num_spec (num : nat -> nat) (arcs : list arc) :
  forall (marks : insn_marks) (k : nat),
  NoDup (map insn arcs) ->
  (forall a, In a arcs -> marks (insn a) = (0%nat, 0)) ->
  (forall a, In a arcs -> num (to_state a) <> 0%nat /\ 0 < state_alts a) ->
  exists marks',
    set_out_arc_insns_equiv_num arcs num marks k = Some (marks', (k + length arcs)%nat)
    /\ forall i, marks' i
                 = match find (fun a => (insn a =? i)%nat) arcs with
                   | Some a => (num (to_state a), state_alts a)
                   | None => marks i
                   end.
Proof.
  induction arcs as [|a arcs IH]; intros marks k Hnodup Hclear Hgood.
  - exists marks. split; [cbn; f_equal; f_equal; lia | reflexivity].
  - cbn [map] in Hnodup. inversion Hnodup as [|? ? Hnotin Hnodup']; subst.
    cbn [set_out_arc_insns_equiv_num].
    rewrite (Hclear a (or_introl eq_refl)). cbn [fst snd].
    rewrite Nat.eqb_refl, Z.eqb_refl. cbn [negb orb].
    destruct (Hgood a (or_introl eq_refl)) as [Hnum Halts].
    destruct (Nat.eqb_spec (num (to_state a)) 0) as [|_]; [contradiction|].
    destruct (Z.leb_spec (state_alts a) 0) as [|_]; [lia|]. cbn [orb].
    destruct (IH (upd marks (insn a) (num (to_state a), state_alts a)) (S k) Hnodup')
      as (marks' & E & Hmarks').
    + intros b Hb. unfold upd.
      destruct (Nat.eqb_spec (insn b) (insn a)) as [Heq|_].
      * exfalso. apply Hnotin. rewrite <- Heq. apply in_map. exact Hb.
      * apply Hclear. right. exact Hb.
    + intros b Hb. apply Hgood. right. exact Hb.
    + exists marks'. split; [rewrite E; cbn [length]; f_equal; f_equal; lia|].
      intros i. rewrite Hmarks'. cbn [find].
      destruct (Nat.eqb_spec (insn a) i) as [<-|Hne].
      * assert (find (fun a0 => (insn a0 =? insn a)%nat) arcs = None) as ->
          by (apply find_insn_none; exact Hnotin).
        unfold upd. rewrite Nat.eqb_refl. reflexivity.
      * destruct (find (fun a0 => (insn a0 =? i)%nat) arcs); [reflexivity|].
        unfold upd. destruct (Nat.eqb_spec i (insn a)); [congruence | reflexivity].
Qed.

Lemma differed_arc_spec (num : nat -> nat) (marks : insn_marks) (arcs : list arc) :
  forall k n, differed_arc arcs num marks k = Some n ->
  n = (k + length arcs)%nat
  /\ forall a, In a arcs ->
       num (to_state a) = fst (marks (insn a)) /\ snd (marks (insn a)) = state_alts a.
Proof.
  induction arcs as [|a arcs IH]; intros k n E; cbn [differed_arc] in E.
  - injection E as <-. split; [cbn; lia | intros a []].
  - destruct (Nat.eqb_spec (num (to_state a)) (fst (marks (insn a)))) as [Hn|_];
      [|discriminate].
    destruct (Z.eqb_spec (snd (marks (insn a))) (state_alts a)) as [Ha|_]; [|discriminate].
    cbn [negb orb] in E. destruct (IH _ _ E) as [-> Hrest].
    split; [cbn [length]; lia|]. intros b [<-|Hb]; auto.
Qed.

Section Refinement.

Variable max_cycles_num : nat.
Variable units_array : list unit_decl.
Variable st : store.

Hypothesis cycles : (0 < max_cycles_num)%nat.

(** The query units answer the same for [s] and [h] on the first
    cycle. *)
Definition same_queries (s h : nat) : Prop :=
  forall i unit,
    nth_error units_array i = Some unit -> query_p unit = true ->
    first_cycle_unit_presence max_cycles_num st s i
    = first_cycle_unit_presence max_cycles_num st h i.

(** [s] and [h] make the same transitions, to states with the same
    number, and their query units answer the same. *)
Definition agree (num : nat -> nat) (s h : nat) : Prop :=
  (forall i,
     match transition (out_arcs st s) i, transition (out_arcs st h) i with
     | Some (t, a), Some (t', a') => num t = num t' /\ a = a'
     | None, None => True
     | _, _ => False
     end)
  /\ same_queries s h.

(** A state of a deterministic automaton whose arcs count their
    alternatives. *)
Definition deterministic (s : nat) : Prop :=
  NoDup (map insn (out_arcs st s))
  /\ Forall (fun a => 0 < state_alts a) (out_arcs st s).

Lemma differed_query_unit_done (state another_state : nat) (units : list unit_decl) :
  forall i, exists b,
    differed_query_unit max_cycles_num st state another_state units i = Done b.
Proof.
  induction units as [|unit units IH]; intros i; cbn [differed_query_unit].
  - eexists. reflexivity.
  - destruct (query_p unit); [|apply IH].
    unfold first_cycle_unit_presence, test_unit_reserv.
    destruct (Nat.leb_spec max_cycles_num 0) as [|_]; [lia|].
    destruct (component_states (the_state st state)),
      (component_states (the_state st another_state));
      match goal with
      | |- context [if ?c then _ else _] => destruct c; [eexists; reflexivity | apply IH]
      end.
Qed.

Lemma first_cycle_unit_presence_done (state unit_num : nat) :
  exists presence_p,
    first_cycle_unit_presence max_cycles_num st state unit_num = Some presence_p.
Proof.
  unfold first_cycle_unit_presence, test_unit_reserv.
  destruct (Nat.leb_spec max_cycles_num 0) as [|_]; [lia|].
  destruct (component_states (the_state st state)); eexists; reflexivity.
Qed.

(** The loop over the query units finds a difference if and only if
    there is a query unit that one of the states has on its first cycle
    and the other has not. *)
Lemma differed_query_unit_spec (state another_state : nat) (units : list unit_decl) :
  forall i, exists b,
    differed_query_unit max_cycles_num st state another_state units i = Done b
    /\ (b = true
        <-> exists j unit,
              nth_error units j = Some unit /\ query_p unit = true
              /\ first_cycle_unit_presence max_cycles_num st state (i + j)
                 <> first_cycle_unit_presence max_cycles_num st another_state (i + j)).
Proof.
  induction units as [|unit units IH]; intros i; cbn [differed_query_unit].
  - exists false. split; [reflexivity|]. split; [discriminate|].
    intros ([|j] & u & H & _); discriminate H.
  - assert (forall b,
              (b = true
               <-> exists j unit',
                     nth_error units j = Some unit' /\ query_p unit' = true
                     /\ first_cycle_unit_presence max_cycles_num st state (S i + j)
                        <> first_cycle_unit_presence max_cycles_num st another_state
                             (S i + j)) ->
              first_cycle_unit_presence max_cycles_num st state i
              = first_cycle_unit_presence max_cycles_num st another_state i
              \/ query_p unit = false ->
              (b = true
               <-> exists j unit',
                     nth_error (unit :: units) j = Some unit' /\ query_p unit' = true
                     /\ first_cycle_unit_presence max_cycles_num st state (i + j)
                        <> first_cycle_unit_presence max_cycles_num st another_state
                             (i + j))) as Hnext.
    { intros b Hb Hsame. rewrite Hb. split.
      - intros (j & u & Hj & Hq & Hd). exists (S j), u. cbn [nth_error].
        replace (i + S j)%nat with (S i + j)%nat by lia. auto.
      - intros ([|j] & u & Hj & Hq & Hd); cbn [nth_error] in Hj.
        + injection Hj as <-. rewrite Nat.add_0_r in Hd.
          destruct Hsame as [Hsame|Hsame]; [contradiction | congruence].
        + exists j, u. replace (S i + j)%nat with (i + S j)%nat by lia. auto. }
    destruct (IH (S i)) as (b & E & Hb).
    destruct (query_p unit) eqn:Equery.
    + destruct (first_cycle_unit_presence_done state i) as (p1 & E1).
      destruct (first_cycle_unit_presence_done another_state i) as (p2 & E2).
      rewrite E1, E2.
      destruct p1, p2; cbn [andb orb negb];
        try (exists b; split; [exact E|]; apply Hnext; [exact Hb|];
             left; congruence);
        (exists true; split; [reflexivity|]; split; [|reflexivity]; intros _;
         exists 0%nat, unit; cbn [nth_error]; rewrite Nat.add_0_r;
         split; [reflexivity|]; split; [exact Equery|]; congruence).
    + exists b. split; [exact E|]. apply Hnext; [exact Hb|]. right. reflexivity.
Qed.

Lemma state_is_differed_done (state another_state n : nat) (num : nat -> nat)
    (marks : insn_marks) :
  exists b, state_is_differed max_cycles_num units_array st state another_state n num marks
            = Done b.
Proof.
  unfold state_is_differed.
  destruct (differed_arc _ _ _ _); [|eexists; reflexivity].
  destruct (negb _); [eexists; reflexivity|]. apply differed_query_unit_done.
Qed.

Lemma not_differed_agree (num : nat -> nat) (marks : insn_marks) (s h : nat) :
  deterministic s -> deterministic h ->
  (forall i, marks i
             = match find (fun a => (insn a =? i)%nat) (out_arcs st h) with
               | Some a => (num (to_state a), state_alts a)
               | None => (0%nat, 0)
               end) ->
  state_is_differed max_cycles_num units_array st s h (length (out_arcs st h)) num marks
  = Done false ->
  agree num s h.
Proof.
  intros [Hnds Hposs] [Hndh Hposh] Hmarks E. unfold state_is_differed in E.
  fold (out_arcs st s) in E.
  destruct (differed_arc (out_arcs st s) num marks 0) as [n|] eqn:Earcs; [|discriminate].
  destruct (differed_arc_spec _ _ _ _ _ Earcs) as [-> Hsame].
  destruct (Nat.eqb_spec (0 + length (out_arcs st s)) (length (out_arcs st h)))
    as [Hlen|_]; [|discriminate].
  cbn [negb] in E.
  assert (same_queries s h) as Hqueries.
  { intros i unit Hi Hq.
    destruct (differed_query_unit_spec s h units_array 0) as (b & Eb & Hb).
    rewrite E in Eb. injection Eb as <-.
    destruct (first_cycle_unit_presence_done s i) as (p1 & E1).
    destruct (first_cycle_unit_presence_done h i) as (p2 & E2).
    rewrite E1, E2. destruct p1, p2; try reflexivity;
      (assert (false = true) as H; [|discriminate H]; apply Hb; exists i, unit;
       cbn [Nat.add]; rewrite E1, E2; split; [exact Hi|]; split; [exact Hq|];
       discriminate). }
  clear E Earcs. split; [|exact Hqueries].
  assert (forall a, In a (out_arcs st s) ->
            exists a', find (fun a0 => (insn a0 =? insn a)%nat) (out_arcs st h) = Some a'
                       /\ num (to_state a) = num (to_state a')
                       /\ state_alts a = state_alts a') as Hfound.
  { intros a Ha. destruct (Hsame a Ha) as [Hn Hal]. rewrite Hmarks in Hn, Hal.
    destruct (find (fun a0 => (insn a0 =? insn a)%nat) (out_arcs st h)) as [a'|].
    - exists a'. cbn [fst snd] in Hn, Hal. auto.
    - cbn [snd] in Hal. rewrite Forall_forall in Hposs. specialize (Hposs a Ha). lia. }
  assert (incl (map insn (out_arcs st s)) (map insn (out_arcs st h))) as Hincl.
  { intros i Hi. apply in_map_iff in Hi. destruct Hi as (a & <- & Ha).
    destruct (Hfound a Ha) as (a' & Ef & _). apply find_some in Ef.
    destruct Ef as [Ha' Heq]. apply Nat.eqb_eq in Heq. rewrite <- Heq.
    apply in_map. exact Ha'. }
  assert (incl (map insn (out_arcs st h)) (map insn (out_arcs st s))) as Hincl'.
  { apply NoDup_length_incl; [exact Hnds | rewrite !length_map; lia | exact Hincl]. }
  intros i. unfold transition.
  destruct (find (fun a => (insn a =? i)%nat) (out_arcs st s)) as [a|] eqn:Es.
  - apply find_some in Es. destruct Es as [Ha Hi]. apply Nat.eqb_eq in Hi. subst i.
    destruct (Hfound a Ha) as (a' & -> & Hn & Hal). auto.
  - destruct (find (fun a => (insn a =? i)%nat) (out_arcs st h)) as [a'|] eqn:Eh; [|exact I].
    apply find_some in Eh. destruct Eh as [Ha' Hi]. apply Nat.eqb_eq in Hi. subst i.
    apply find_insn_none in Es. apply Es. apply Hincl'. apply in_map. exact Ha'.
Qed.

Lemma agree_refl (num : nat -> nat) (s : nat) : agree num s s.
Proof.
  split; [|intros i unit _ _; reflexivity].
  intros i. destruct (transition (out_arcs st s) i) as [[t a]|]; auto.
Qed.

Section Split.

Variable num : nat -> nat.
Variable h : nat.
Variable marks : insn_marks.

Hypothesis h_deterministic : deterministic h.
Hypothesis marks_of_h :
  forall i, marks i
            = match find (fun a => (insn a =? i)%nat) (out_arcs st h) with
              | Some a => (num (to_state a), state_alts a)
              | None => (0%nat, 0)
              end.

Lemma split_equiv_class_spec (states : list nat) :
  forall (acc : list nat) (c : nat) (W : nat -> nat),
  (forall s, In s states -> deterministic s) ->
  let c1 := match acc with [] => S c | _ :: _ => c end in
  exists stay moved W',
    split_equiv_class max_cycles_num units_array st h (length (out_arcs st h)) num marks
      states acc c W
    = Done (stay, rev moved ++ acc, match moved with [] => c | _ :: _ => c1 end, W')
    /\ Permutation states (stay ++ moved)
    /\ (forall s, In s stay -> agree num s h)
    /\ (forall s, W' s = if existsb (Nat.eqb s) moved then c1 else W s).
Proof.
  induction states as [|curr states IH]; intros acc c W Hdet c1.
  - exists [], [], W. split; [reflexivity|]. split; [constructor|].
    split; [intros s []|]. reflexivity.
  - cbn [split_equiv_class].
    destruct (state_is_differed_done curr h (length (out_arcs st h)) num marks) as [b E].
    rewrite E. destruct b.
    + destruct (IH (curr :: acc) c1 (upd W curr c1)
                  (fun s Hs => Hdet s (or_intror Hs)))
        as (stay & moved & W' & E' & Hperm & Hagree & HW').
      cbn zeta in E'.
      exists stay, (curr :: moved), W'. split.
      * fold c1. rewrite E'. cbn [rev]. rewrite <- app_assoc. cbn [app].
        destruct moved; reflexivity.
      * split; [apply Permutation_cons_app; exact Hperm|]. split; [exact Hagree|].
        intros s. rewrite HW'. cbn [existsb]. unfold upd. rewrite (Nat.eqb_sym s curr).
        destruct (existsb (Nat.eqb s) moved), (curr =? s)%nat; reflexivity.
    + destruct (IH acc c W (fun s Hs => Hdet s (or_intror Hs)))
        as (stay & moved & W' & E' & Hperm & Hagree & HW').
      cbn zeta in E'. rewrite E'.
      exists (curr :: stay), moved, W'. split; [reflexivity|].
      split; [cbn [app]; constructor; exact Hperm|]. split; [|exact HW'].
      intros s [<-|Hs]; [|apply Hagree; exact Hs].
      apply (not_differed_agree num marks curr h); auto.
      apply Hdet. left. reflexivity.
Qed.

End Split.

(** The classes of [classes] have the numbers [c + 1], [c + 2], ... *)
Definition numbered_from (c : nat) (W : nat -> nat) (classes : list (list nat)) : Prop :=
  forall i K, nth_error classes i = Some K -> forall s, In s K -> W s = (c + 1 + i)%nat.

Lemma existsb_eqb_false (s : nat) (l : list nat) :
  ~ In s l -> existsb (Nat.eqb s) l = false.
Proof.
  intros H. destruct (existsb (Nat.eqb s) l) eqn:E; [|reflexivity].
  apply existsb_eqb_In in E. contradiction.
Qed.

Lemma partition_equiv_class_spec (num : nat -> nat) (fuel : nat) :
  forall (K : list nat) (c : nat) (W : nat -> nat),
  (length K <= fuel)%nat -> K <> [] -> NoDup K ->
  (forall s, In s K -> deterministic s) ->
  (forall s a, In s K -> In a (out_arcs st s) -> num (to_state a) <> 0%nat) ->
  exists K0 classes W',
    partition_equiv_class max_cycles_num units_array fuel st K num c W
    = Done (K0 :: classes, (c + length classes)%nat, W')
    /\ hd_error K0 = hd_error K
    /\ Permutation (concat (K0 :: classes)) K
    /\ Forall (fun K' => K' <> []) (K0 :: classes)
    /\ (forall K', In K' (K0 :: classes) -> forall s, In s K' -> agree num s (hd 0%nat K'))
    /\ (forall s, In s K0 -> W' s = W s)
    /\ (forall s, ~ In s K -> W' s = W s)
    /\ numbered_from c W' classes.
Proof.
  induction fuel as [|fuel IH]; intros K c W Hfuel Hne Hnodup Hdet Hnum.
  { destruct K; [contradiction | cbn in Hfuel; lia]. }
  destruct K as [|h states]; [contradiction|]. cbn [partition_equiv_class].
  destruct states as [|s1 states'].
  - exists [h], [], W. split; [cbn; do 3 f_equal; lia|]. split; [reflexivity|].
    split; [cbn; constructor; constructor|]. split; [repeat constructor; discriminate|].
    split; [intros K' [<-|[]] s [<-|[]]; apply agree_refl|].
    split; [reflexivity|]. split; [reflexivity|]. intros [|i] K' E; discriminate.
  - set (states := s1 :: states') in *.
    assert (deterministic h) as Hh by (apply Hdet; left; reflexivity).
    destruct Hh as [Hndh Hposh].
    fold (out_arcs st h).
    destruct (set_out_arc_insns_equiv_num_spec num (out_arcs st h) no_marks 0 Hndh)
      as (marks & Emarks & Hmarks).
    { reflexivity. }
    { intros a Ha. split; [apply (Hnum h a); [left; reflexivity | exact Ha]|].
      rewrite Forall_forall in Hposh. apply Hposh. exact Ha. }
    rewrite Emarks. cbn [Nat.add].
    inversion Hnodup as [|? ? Hnotin Hnodup']; subst.
    destruct (split_equiv_class_spec num h marks (conj Hndh Hposh) Hmarks states [] c W)
      as (stay & moved & W1 & Esplit & Hperm & Hagree & HW1).
    { intros s Hs. apply Hdet. right. exact Hs. }
    cbn zeta in Esplit. rewrite app_nil_r in Esplit. rewrite Esplit.
    destruct moved as [|m moved'].
    + cbn [rev]. rewrite app_nil_r in Hperm.
      exists (h :: stay), [], W1. split; [cbn; do 3 f_equal; lia|].
      split; [reflexivity|].
      split; [cbn [concat]; rewrite app_nil_r; constructor; symmetry; exact Hperm|].
      split; [repeat constructor; discriminate|].
      split.
      { intros K' [<-|[]] s [<-|Hs]; [apply agree_refl | apply Hagree; exact Hs]. }
      split; [intros s _; rewrite HW1; reflexivity|].
      split; [intros s _; rewrite HW1; reflexivity|].
      intros [|i] K' E; discriminate.
    + set (moved := m :: moved') in *.
      assert (Permutation (rev moved) moved) as Hrev by (symmetry; apply Permutation_rev).
      assert (incl (rev moved) states) as Hsub.
      { intros x Hx. apply (Permutation_in _ (Permutation_sym Hperm)).
        apply in_or_app. right. apply (Permutation_in _ Hrev). exact Hx. }
      assert (NoDup (stay ++ moved)) as Hnd_sm
        by (eapply Permutation_NoDup; [exact Hperm | exact Hnodup']).
      destruct (rev moved) as [|r0 rmoved] eqn:Erev.
      { apply (f_equal (@length nat)) in Erev. rewrite length_rev in Erev. discriminate. }
      rewrite <- Erev in *.
      destruct (IH (rev moved) (S c) W1) as (K0' & classes' & W2 & E2 & Hhd & Hperm2
                                             & Hne2 & Hagree2 & HK0 & Hout & Hnumd).
      { rewrite length_rev. apply Permutation_length in Hperm.
        rewrite length_app in Hperm. cbn [length] in Hfuel. unfold states in *.
        lia. }
      { rewrite Erev. discriminate. }
      { apply (Permutation_NoDup (Permutation_sym Hrev)).
        apply NoDup_app_remove_l in Hnd_sm. exact Hnd_sm. }
      { intros s Hs. apply Hdet. right. apply Hsub. exact Hs. }
      { intros s a Hs Ha. apply (Hnum s a); [right; apply Hsub; exact Hs | exact Ha]. }
      rewrite Erev in E2 |- *. rewrite E2. rewrite <- Erev in *.
      assert (forall s, In s (h :: stay) -> ~ In s (rev moved)) as Hdisj.
      { intros s [<-|Hs] Hin.
        - apply Hnotin. apply Hsub. exact Hin.
        - apply (Permutation_in _ Hrev) in Hin.
          exact (NoDup_app_disjoint _ _ _ Hnd_sm Hs Hin). }
      assert (forall s, ~ In s (rev moved) -> W1 s = W s) as HW1out.
      { intros s Hs. rewrite HW1. rewrite existsb_eqb_false; [reflexivity|].
        intros Hin. apply Hs. apply (Permutation_in _ (Permutation_sym Hrev)). exact Hin. }
      exists (h :: stay), (K0' :: classes'), W2.
      split; [cbn [length]; do 3 f_equal; lia|]. split; [reflexivity|].
      split.
      { cbn [concat] in *. apply Permutation_trans with ((h :: stay) ++ rev moved).
        - apply Permutation_app_head. exact Hperm2.
        - cbn [app]. constructor. apply Permutation_trans with (stay ++ moved).
          + apply Permutation_app_head. exact Hrev.
          + symmetry. exact Hperm. }
      split; [constructor; [discriminate | exact Hne2]|].
      split.
      { intros K' [<-|HK'] s Hs.
        - destruct Hs as [<-|Hs]; [apply agree_refl | apply Hagree; exact Hs].
        - apply Hagree2; assumption. }
      split.
      { intros s Hs. rewrite Hout by (apply Hdisj; exact Hs). apply HW1out.
        apply Hdisj. exact Hs. }
      split.
      { intros s Hs. rewrite Hout.
        - apply HW1out. intros Hin. apply Hs. right. apply Hsub. exact Hin.
        - intros Hin. apply Hs. right. apply Hsub. exact Hin. }
      intros [|i] K' EK' s Hs.
      * cbn [nth_error] in EK'. injection EK' as <-.
        rewrite HK0 by exact Hs. rewrite HW1.
        assert (In s moved) as Hm.
        { apply (Permutation_in _ Hrev). apply (Permutation_in _ Hperm2).
          cbn [concat]. apply in_or_app. left. exact Hs. }
        apply existsb_eqb_In in Hm. rewrite Hm. lia.
      * cbn [nth_error] in EK'. rewrite (Hnumd i K' EK' s Hs). lia.
Qed.

Lemma Permutation_app_4 {A : Type} (a b c d : list A) :
  Permutation (a ++ b ++ c ++ d) ((a ++ c) ++ (b ++ d)).
Proof.
  rewrite <- app_assoc. apply Permutation_app_head.
  rewrite !app_assoc. apply Permutation_app_tail. apply Permutation_app_comm.
Qed.

Lemma partition_equiv_classes_spec (num : nat -> nat) (P : list (list nat)) :
  forall (c : nat) (W : nat -> nat),
  Forall (fun K => K <> []) P -> NoDup (concat P) ->
  (forall s, In s (concat P) -> deterministic s) ->
  (forall s a, In s (concat P) -> In a (out_arcs st s) -> num (to_state a) <> 0%nat) ->
  exists heads added W',
    partition_equiv_classes max_cycles_num units_array st P num c W
    = Done (heads, added, (c + length added)%nat, W',
            match added with [] => true | _ :: _ => false end)
    /\ Forall2 (fun K H => incl H K) P heads
    /\ Permutation (concat (heads ++ added)) (concat P)
    /\ Forall (fun K => K <> []) (heads ++ added)
    /\ (forall K', In K' (heads ++ added) -> forall s, In s K' -> agree num s (hd 0%nat K'))
    /\ (forall s, In s (concat heads) -> W' s = W s)
    /\ (forall s, ~ In s (concat P) -> W' s = W s)
    /\ numbered_from c W' added.
Proof.
  induction P as [|K P IH]; intros c W Hne Hnodup Hdet Hnum.
  - exists [], [], W. split; [cbn; do 4 f_equal; lia|]. split; [constructor|].
    split; [constructor|]. split; [constructor|]. split; [intros K' []|].
    split; [reflexivity|]. split; [reflexivity|]. intros [|i] K' E; discriminate.
  - cbn [concat] in *. inversion Hne as [|? ? HK HP]; subst.
    pose proof (NoDup_app_remove_r _ _ Hnodup) as HndK.
    pose proof (NoDup_app_remove_l _ _ Hnodup) as HndP.
    cbn [partition_equiv_classes].
    destruct (partition_equiv_class_spec num (length K) K c W (le_n _) HK HndK)
      as (K0 & classes & W1 & E1 & _ & Hperm1 & Hne1 & Hagree1 & HK0 & Hout1 & Hnumd1).
    { intros s Hs. apply Hdet. apply in_or_app. left. exact Hs. }
    { intros s a Hs. apply Hnum. apply in_or_app. left. exact Hs. }
    rewrite E1.
    destruct (IH (c + length classes)%nat W1 HP HndP)
      as (heads & added & W2 & E2 & Hincl2 & Hperm2 & Hne2 & Hagree2 & Hheads2 & Hout2
          & Hnumd2).
    { intros s Hs. apply Hdet. apply in_or_app. right. exact Hs. }
    { intros s a Hs. apply Hnum. apply in_or_app. right. exact Hs. }
    rewrite E2. cbn [hd tl].
    assert (forall s, In s (concat (K0 :: classes)) -> In s K) as HinK
      by (intros s Hs; apply (Permutation_in _ Hperm1); exact Hs).
    assert (forall s, In s (concat (heads ++ added)) -> In s (concat P)) as HinP
      by (intros s Hs; apply (Permutation_in _ Hperm2); exact Hs).
    assert (forall s, In s K -> ~ In s (concat P)) as Hdisj
      by (intros s Hs Hs'; exact (NoDup_app_disjoint _ _ _ Hnodup Hs Hs')).
    exists (K0 :: heads), (classes ++ added), W2. split.
    { rewrite length_app. do 3 f_equal; [f_equal; lia|].
      destruct classes; [reflexivity|reflexivity]. }
    split.
    { constructor; [|exact Hincl2]. intros s Hs. apply HinK. cbn [concat].
      apply in_or_app. left. exact Hs. }
    split.
    { cbn [app concat]. rewrite !concat_app.
      apply Permutation_trans
        with ((K0 ++ concat classes) ++ (concat heads ++ concat added)).
      - apply (Permutation_app_4 K0 (concat heads) (concat classes) (concat added)).
      - apply Permutation_app; [exact Hperm1|]. rewrite <- concat_app. exact Hperm2. }
    split.
    { inversion Hne1; subst. cbn [app]. constructor; [assumption|].
      apply Forall_app in Hne2. destruct Hne2 as [Hh Ha].
      apply Forall_app. split; [exact Hh|]. apply Forall_app. split; assumption. }
    split.
    { intros K' HK'. cbn [app] in HK'. destruct HK' as [<-|HK'].
      - apply Hagree1. left. reflexivity.
      - apply in_app_or in HK'. destruct HK' as [Hh|HK'].
        + apply Hagree2. apply in_or_app. left. exact Hh.
        + apply in_app_or in HK'. destruct HK' as [Hc|Ha].
          * apply Hagree1. right. exact Hc.
          * apply Hagree2. apply in_or_app. right. exact Ha. }
    split.
    { intros s Hs. cbn [concat] in Hs. apply in_app_or in Hs. destruct Hs as [Hs|Hs].
      - rewrite Hout2; [apply HK0; exact Hs|]. apply Hdisj. apply HinK.
        cbn [concat]. apply in_or_app. left. exact Hs.
      - rewrite Hheads2 by exact Hs. apply Hout1. intros HsK.
        apply (Hdisj s HsK). apply HinP. rewrite concat_app. apply in_or_app.
        left. exact Hs. }
    split.
    { intros s Hs. rewrite Hout2.
      - apply Hout1. intros HsK. apply Hs. apply in_or_app. left. exact HsK.
      - intros HsP. apply Hs. apply in_or_app. right. exact HsP. }
    intros i K' EK' s Hs.
    destruct (Nat.lt_ge_cases i (length classes)) as [Hlt|Hge].
    + rewrite nth_error_app1 in EK' by exact Hlt.
      rewrite Hout2; [apply (Hnumd1 i K' EK' s Hs)|].
      apply Hdisj. apply HinK. cbn [concat]. apply in_or_app. right.
      apply in_concat. exists K'. split; [eapply nth_error_In; eassumption | exact Hs].
    + rewrite nth_error_app2 in EK' by exact Hge.
      rewrite (Hnumd2 _ K' EK' s Hs). lia.
Qed.

(** Every class of [P] has a number of its own, from 1 to [c]. *)
Definition numbered (P : list (list nat)) (N : nat -> nat) (c : nat) : Prop :=
  exists ns,
    Forall2 (fun K n => forall s, In s K -> N s = n) P ns
    /\ NoDup ns /\ Forall (fun n => 1 <= n <= c)%nat ns.

Lemma numbered_from_Forall2 (W : nat -> nat) (added : list (list nat)) :
  forall c, numbered_from c W added ->
  Forall2 (fun K n => forall s, In s K -> W s = n) added (seq (c + 1) (length added)).
Proof.
  induction added as [|K added IH]; intros c H; cbn [length seq]; constructor.
  - intros s Hs. rewrite (H 0%nat K eq_refl s Hs). lia.
  - replace (S (c + 1)) with (S c + 1)%nat by lia. apply IH.
    intros i K' E s Hs. rewrite (H (S i) K' E s Hs). lia.
Qed.

Lemma numbered_number (P : list (list nat)) (N : nat -> nat) (c : nat) (s : nat) :
  numbered P N c -> In s (concat P) -> (1 <= N s <= c)%nat.
Proof.
  intros (ns & Hall & _ & Hrange) Hs. apply in_concat in Hs.
  destruct Hs as (K & HK & Hs).
  induction Hall as [|K' n P' ns' Hn _ IH]; [contradiction|].
  inversion Hrange; subst. destruct HK as [->|HK].
  - rewrite (Hn s Hs). assumption.
  - apply IH; assumption.
Qed.

(** Two states of the classes [P] with the same number are in the same
    class. *)
Lemma numbered_same_class (P : list (list nat)) (N : nat -> nat) (c : nat) (s t : nat) :
  numbered P N c -> In s (concat P) -> In t (concat P) -> N s = N t ->
  exists K, In K P /\ In s K /\ In t K.
Proof.
  intros (ns & Hall & Hnd & _) Hs Ht Heq.
  induction Hall as [|K n P' ns' Hn Hrest IH]; [contradiction|].
  inversion Hnd as [|? ? Hnotin Hnd']; subst. cbn [concat] in Hs, Ht.
  assert (forall x, In x (concat P') -> In (N x) ns') as Hin.
  { clear -Hrest. induction Hrest as [|K' n' P'' ns'' Hn' _ IH']; [intros x []|].
    intros x Hx. cbn [concat] in Hx. apply in_app_or in Hx. destruct Hx as [Hx|Hx].
    - left. symmetry. apply Hn'. exact Hx.
    - right. apply IH'. exact Hx. }
  apply in_app_or in Hs. apply in_app_or in Ht.
  destruct Hs as [Hs|Hs], Ht as [Ht|Ht].
  - exists K. split; [left; reflexivity | auto].
  - exfalso. apply Hnotin. rewrite <- (Hn s Hs), Heq. apply Hin. exact Ht.
  - exfalso. apply Hnotin. rewrite <- (Hn t Ht), <- Heq. apply Hin. exact Hs.
  - destruct (IH Hnd' Hs Ht) as (K' & HK' & Hs' & Ht').
    exists K'. split; [right; exact HK' | auto].
Qed.

Lemma numbered_heads (P heads : list (list nat)) (N : nat -> nat) (c : nat) :
  numbered P N c -> Forall2 (fun K H => incl H K) P heads -> numbered heads N c.
Proof.
  intros (ns & Hall & Hnd & Hrange) Hincl. exists ns. split; [|auto].
  clear Hnd Hrange. revert heads Hincl.
  induction Hall as [|K n P' ns' Hn _ IH]; intros heads Hincl;
    inversion Hincl; subst; constructor.
  - intros s Hs. apply Hn. auto.
  - apply IH. assumption.
Qed.

Lemma numbered_step (P heads added : list (list nat)) (N W : nat -> nat) (c : nat) :
  numbered P N c -> Forall2 (fun K H => incl H K) P heads ->
  (forall s, In s (concat heads) -> W s = N s) ->
  numbered_from c W added ->
  numbered (heads ++ added) W (c + length added).
Proof.
  intros HP Hincl Hheads Hadded.
  destruct (numbered_heads P heads N c HP Hincl) as (ns & Hall & Hnd & Hrange).
  exists (ns ++ seq (c + 1) (length added)). split; [|split].
  - apply Forall2_app; [|apply numbered_from_Forall2; exact Hadded].
    clear -Hall Hheads. induction Hall as [|H n heads' ns' Hn _ IH]; constructor.
    + intros s Hs. rewrite Hheads; [apply Hn; exact Hs|].
      cbn [concat]. apply in_or_app. left. exact Hs.
    + apply IH. intros s Hs. apply Hheads. cbn [concat]. apply in_or_app. right. exact Hs.
  - apply NoDup_app; [exact Hnd | apply seq_NoDup|].
    intros n Hn Hseq. apply in_seq in Hseq. rewrite Forall_forall in Hrange.
    specialize (Hrange n Hn). lia.
  - apply Forall_app. split.
    + eapply Forall_impl; [|exact Hrange]. cbn beta. intros n Hn. lia.
    + apply Forall_forall. intros n Hn. apply in_seq in Hn. lia.
Qed.

Lemma classes_length (P : list (list nat)) :
  Forall (fun K => K <> []) P -> (length P <= length (concat P))%nat.
Proof.
  induction 1 as [|K P HK _ IH]; [cbn; lia|].
  cbn [concat length]. rewrite length_app. destruct K; [contradiction|]. cbn [length]. lia.
Qed.

Lemma transfer_spec (odd_iteration_flag : bool) (states : list nat) :
  forall nums,
  let nums' := transfer odd_iteration_flag states nums in
  let read n := if odd_iteration_flag then equiv_class_num_1 n else equiv_class_num_2 n in
  let written n := if odd_iteration_flag then equiv_class_num_2 n else equiv_class_num_1 n in
  read nums' = read nums
  /\ (forall s, In s states -> written nums' s = read nums s)
  /\ (forall s, ~ In s states -> written nums' s = written nums s).
Proof.
  induction states as [|x states IH]; intros nums; cbn [transfer]; cbn zeta.
  - split; [reflexivity|]. split; [intros s []|reflexivity].
  - destruct odd_iteration_flag.
    + destruct (IH (mk_nums (equiv_class_num_1 nums)
                      (upd (equiv_class_num_2 nums) x (equiv_class_num_1 nums x))))
        as (Hr & Hin & Hout).
      cbn zeta in Hr, Hin, Hout. cbn [equiv_class_num_1 equiv_class_num_2] in *.
      split; [exact Hr|]. split.
      * intros s Hs. destruct (in_dec Nat.eq_dec s states) as [Hs'|Hs'];
          [apply Hin; exact Hs'|].
        rewrite Hout by exact Hs'. destruct Hs as [->|Hs]; [|contradiction].
        unfold upd. rewrite Nat.eqb_refl. reflexivity.
      * intros s Hs. rewrite Hout by (intros H; apply Hs; right; exact H).
        unfold upd. destruct (Nat.eqb_spec s x) as [->|_]; [|reflexivity].
        exfalso. apply Hs. left. reflexivity.
    + destruct (IH (mk_nums (upd (equiv_class_num_1 nums) x (equiv_class_num_2 nums x))
                      (equiv_class_num_2 nums)))
        as (Hr & Hin & Hout).
      cbn zeta in Hr, Hin, Hout. cbn [equiv_class_num_1 equiv_class_num_2] in *.
      split; [exact Hr|]. split.
      * intros s Hs. destruct (in_dec Nat.eq_dec s states) as [Hs'|Hs'];
          [apply Hin; exact Hs'|].
        rewrite Hout by exact Hs'. destruct Hs as [->|Hs]; [|contradiction].
        unfold upd. rewrite Nat.eqb_refl. reflexivity.
      * intros s Hs. rewrite Hout by (intros H; apply Hs; right; exact H).
        unfold upd. destruct (Nat.eqb_spec s x) as [->|_]; [|reflexivity].
        exfalso. apply Hs. left. reflexivity.
Qed.

(** The classes are those of a partition of [all] that the arcs
    respect: the states of a class make the same transitions as its
    first state, to states of the same classes. *)
Definition stable (all : list nat) (classes : list (list nat)) : Prop :=
  Permutation (concat classes) all
  /\ Forall (fun K => K <> []) classes
  /\ exists num c,
       numbered classes num c
       /\ forall K, In K classes -> forall s, In s K -> agree num s (hd 0%nat K).

Section Loop.

Variable all : list nat.
Hypothesis all_NoDup : NoDup all.
Hypothesis all_deterministic : forall s, In s all -> deterministic s.
Hypothesis all_closed : closed_except st [] all.

Lemma equiv_classes_loop_spec (fuel : nat) :
  forall (P : list (list nat)) (f : bool) (c : nat) (nums : equiv_class_nums),
  Permutation (concat P) all -> Forall (fun K => K <> []) P ->
  numbered P (if f then equiv_class_num_2 nums else equiv_class_num_1 nums) c ->
  (length all < fuel + length P)%nat ->
  exists classes,
    equiv_classes_loop max_cycles_num units_array fuel st all P f c nums = Done classes
    /\ stable all classes.
Proof.
  induction fuel as [|fuel IH]; intros P f c nums Hperm Hne Hnumbered Hfuel.
  { pose proof (classes_length P Hne) as Hlen.
    rewrite (Permutation_length Hperm) in Hlen. lia. }
  cbn [equiv_classes_loop].
  destruct (transfer_spec (negb f) all nums) as (Hread & Hwritten & _).
  cbn zeta in Hread, Hwritten.
  set (nums' := transfer (negb f) all nums) in *.
  set (num := if negb f then equiv_class_num_1 nums' else equiv_class_num_2 nums') in *.
  set (W := if negb f then equiv_class_num_2 nums' else equiv_class_num_1 nums') in *.
  assert (num = if f then equiv_class_num_2 nums else equiv_class_num_1 nums) as Hnum.
  { rewrite Hread. destruct f; reflexivity. }
  rewrite <- Hnum in Hnumbered.
  assert (forall s, In s (concat P) -> In s all) as Hall
    by (intros s Hs; apply (Permutation_in _ Hperm); exact Hs).
  destruct (partition_equiv_classes_spec num P c W Hne)
    as (heads & added & W' & E & Hincl & Hperm' & Hne' & Hagree & Hheads & _ & Hnumd).
  { apply (Permutation_NoDup (Permutation_sym Hperm)). exact all_NoDup. }
  { intros s Hs. apply all_deterministic. apply Hall. exact Hs. }
  { intros s a Hs Ha.
    assert (In (to_state a) (concat P)) as Ht.
    { apply (Permutation_in _ (Permutation_sym Hperm)).
      eapply all_closed; [apply Hall; exact Hs | intros [] | exact Ha]. }
    pose proof (numbered_number P num c _ Hnumbered Ht). lia. }
  rewrite E.
  assert (forall s, In s (concat heads) -> W' s = num s) as HW'.
  { intros s Hs. rewrite Hheads by exact Hs.
    assert (In s all) as Hs'.
    { apply Hall. apply (Permutation_in _ Hperm'). rewrite concat_app.
      apply in_or_app. left. exact Hs. }
    rewrite (Hwritten s Hs'), Hread. reflexivity. }
  destruct added as [|K1 added].
  - exists heads. split; [reflexivity|]. rewrite app_nil_r in *.
    split; [eapply Permutation_trans; eassumption|]. split; [exact Hne'|].
    exists num, c. split; [eapply numbered_heads; eassumption | exact Hagree].
  - pose proof (numbered_step P heads (K1 :: added) num W' c Hnumbered Hincl HW' Hnumd)
      as Hnumbered'.
    apply IH.
    + eapply Permutation_trans; eassumption.
    + exact Hne'.
    + destruct f; cbn [negb equiv_class_num_1 equiv_class_num_2]; exact Hnumbered'.
    + rewrite length_app. cbn [length].
      rewrite <- (Forall2_length Hincl). lia.
Qed.

End Loop.

End Refinement.


Lemma init_equiv_class_spec (states : list nat) :
  forall (acc : list nat) (num_1 : nat -> nat),
  fst (init_equiv_class states acc num_1) = rev states ++ acc
  /\ forall s, snd (init_equiv_class states acc num_1) s
               = if existsb (Nat.eqb s) states then 1%nat else num_1 s.
Proof.
  induction states as [|x states IH]; intros acc num_1; cbn [init_equiv_class].
  - split; reflexivity.
  - destruct (IH (x :: acc) (upd num_1 x 1%nat)) as [Hfst Hsnd]. split.
    + rewrite Hfst. cbn [rev]. rewrite <- app_assoc. reflexivity.
    + intros s. rewrite Hsnd. cbn [existsb]. unfold upd.
      destruct (existsb (Nat.eqb s) states), (Nat.eqb_spec s x); reflexivity.
Qed.

(** [evaluate_equiv_classes] ends with the classes of a partition of
    the achieved states that the arcs respect. *)
Lemma evaluate_equiv_classes_spec (max_cycles_num : nat) (units_array : list unit_decl)
    (st : store) (universe : list nat) (fuel : nat) (automaton : automaton_t)
    (nums : equiv_class_nums) :
  (0 < max_cycles_num)%nat ->
  closed_except st [] universe ->
  (forall s, In s universe -> deterministic st s) ->
  In (start_state automaton) universe ->
  (length universe < fuel)%nat ->
  exists all classes,
    evaluate_equiv_classes max_cycles_num units_array fuel st automaton nums = Done classes
    /\ stable max_cycles_num units_array st all classes
    /\ closed_except st [] all
    /\ In (start_state automaton) all
    /\ incl all universe
    /\ NoDup all.
Proof.
  intros Hcycles Hclosed Hdet Hstart Hfuel.
  destruct (pass_states_spec st universe Hclosed fuel automaton Hstart Hfuel)
    as (all & Epass & Hcl & Hin & Hincl & Hnd).
  unfold evaluate_equiv_classes. rewrite Epass.
  destruct (init_equiv_class_spec all [] (equiv_class_num_1 nums)) as [Hfst Hsnd].
  destruct (init_equiv_class all [] (equiv_class_num_1 nums)) as [cl num_1] eqn:Einit.
  cbn [fst snd] in Hfst, Hsnd. rewrite app_nil_r in Hfst. subst cl.
  destruct (equiv_classes_loop_spec max_cycles_num units_array st Hcycles all Hnd
              (fun s Hs => Hdet s (Hincl s Hs)) Hcl fuel [rev all] false 1
              (mk_nums num_1 (equiv_class_num_2 nums)))
    as (classes & E & Hstable).
  - cbn [concat]. rewrite app_nil_r. symmetry. apply Permutation_rev.
  - constructor; [|constructor]. intros Hrev.
    apply (f_equal (@length nat)) in Hrev. rewrite length_rev in Hrev.
    destruct all; [contradiction | discriminate].
  - cbn [equiv_class_num_1]. exists [1%nat]. split; [|split].
    + constructor; [|constructor]. intros s Hs. rewrite Hsnd.
      apply in_rev in Hs. apply existsb_eqb_In in Hs. rewrite Hs. reflexivity.
    + repeat constructor. intros [].
    + repeat constructor.
  - cbn [length]. pose proof (NoDup_incl_length Hnd Hincl). lia.
  - exists all, classes. split; [exact E|]. split; [exact Hstable|]. auto.
Qed.

(** *** The states [merge_states] makes *)

Lemma the_state_write (st : store) (s y : nat) (x : state) :
  (s < length (states st))%nat ->
  the_state (mk_store (set_nth s x (states st)) (free_states st) (state_table st)
               (allocated_arcs_num st)) y
  = if (y =? s)%nat then x else the_state st y.
Proof. intros H. unfold the_state. cbn [states]. apply nth_set_nth. exact H. Qed.

(** What a step leaves as it is: the states but [s], and the free
    states. *)
Definition frame (s : nat) (st st' : store) : Prop :=
  (forall y, y <> s -> the_state st' y = the_state st y)
  /\ length (states st') = length (states st)
  /\ free_states st' = free_states st.

Lemma frame_refl (s : nat) (st : store) : frame s st st.
Proof. repeat split. Qed.

Lemma frame_trans (s : nat) (st st' st'' : store) :
  frame s st st' -> frame s st' st'' -> frame s st st''.
Proof.
  intros (H1 & H2 & H3) (H1' & H2' & H3'). split; [|split; congruence].
  intros y Hy. rewrite H1', H1 by exact Hy. reflexivity.
Qed.

Lemma set_first_out_arc_spec (s : nat) (arcs : list arc) (st : store) :
  (s < length (states st))%nat ->
  exists st', set_first_out_arc s arcs st = Done (tt, st')
              /\ out_arcs st' s = arcs /\ frame s st st'.
Proof.
  intros Hs. unfold set_first_out_arc, bind, read, write. eexists.
  split; [reflexivity|]. unfold out_arcs. split.
  - rewrite the_state_write by exact Hs. rewrite Nat.eqb_refl. reflexivity.
  - split; [|split; [cbn [states]; apply set_nth_length; exact Hs | reflexivity]].
    intros y Hy. rewrite the_state_write by exact Hs.
    destruct (Nat.eqb_spec y s); [contradiction | reflexivity].
Qed.

Lemma set_component_states_spec (s : nat) (components : list nat) (st : store) :
  (s < length (states st))%nat ->
  exists st', set_component_states s components st = Done (tt, st')
              /\ out_arcs st' s = out_arcs st s /\ frame s st st'.
Proof.
  intros Hs. unfold set_component_states, bind, read, write. eexists.
  split; [reflexivity|]. unfold out_arcs. split.
  - rewrite the_state_write by exact Hs. rewrite Nat.eqb_refl. reflexivity.
  - split; [|split; [cbn [states]; apply set_nth_length; exact Hs | reflexivity]].
    intros y Hy. rewrite the_state_write by exact Hs.
    destruct (Nat.eqb_spec y s); [contradiction | reflexivity].
Qed.

Lemma add_arc_spec (from to i : nat) (alts : Z) (st : store) :
  (from < length (states st))%nat ->
  ~ In i (map insn (out_arcs st from)) ->
  exists st' id,
    add_arc from to i alts st = Done (id, st')
    /\ out_arcs st' from = mk_arc id to i alts :: out_arcs st from
    /\ frame from st st'.
Proof.
  intros Hfrom Hnew. unfold add_arc, bind, read. unfold find_arc.
  fold (out_arcs st from).
  destruct (find (fun arc => (to_state arc =? to)%nat && (insn arc =? i)%nat)
              (out_arcs st from)) as [a|] eqn:E.
  - exfalso. apply find_some in E. destruct E as [Ha Heq].
    apply andb_true_iff in Heq. destruct Heq as [_ Hi]. apply Nat.eqb_eq in Hi.
    apply Hnew. rewrite <- Hi. apply in_map. exact Ha.
  - unfold set_first_out_arc, bind, read, write, ret. cbn [states free_states state_table
                                                        allocated_arcs_num arc_id].
    eexists. eexists. split; [reflexivity|]. unfold out_arcs. split.
    + unfold the_state at 1. cbn [states]. rewrite nth_set_nth by exact Hfrom.
      rewrite Nat.eqb_refl. reflexivity.
    + split; [|split; [cbn [states]; apply set_nth_length; exact Hfrom | reflexivity]].
      intros y Hy. unfold the_state. cbn [states]. rewrite nth_set_nth by exact Hfrom.
      destruct (Nat.eqb_spec y from); [contradiction | reflexivity].
Qed.

(** The transitions with the states they enter replaced by the states
    of their classes. *)
Definition merged (equiv_class_state : nat -> nat) (move : option (nat * Z))
    : option (nat * Z) :=
  match move with
  | Some (t, alts) => Some (equiv_class_state t, alts)
  | None => None
  end.

Lemma add_class_arcs_spec (equiv_class_state : nat -> nat) (new_state : nat)
    (arcs : list arc) :
  forall st,
  (new_state < length (states st))%nat ->
  NoDup (map insn arcs) ->
  (forall a, In a arcs -> ~ In (insn a) (map insn (out_arcs st new_state))) ->
  exists st',
    add_class_arcs equiv_class_state new_state arcs st = Done (tt, st')
    /\ (forall i, transition (out_arcs st' new_state) i
                  = match transition arcs i with
                    | Some move => merged equiv_class_state (Some move)
                    | None => transition (out_arcs st new_state) i
                    end)
    /\ frame new_state st st'.
Proof.
  induction arcs as [|a arcs IH]; intros st Hnew Hnodup Hfresh.
  - exists st. split; [reflexivity|]. split; [reflexivity | apply frame_refl].
  - cbn [map] in Hnodup. inversion Hnodup as [|? ? Hnotin Hnodup']; subst.
    cbn [add_class_arcs]. unfold bind at 1.
    destruct (add_arc_spec new_state (equiv_class_state (to_state a)) (insn a)
                (state_alts a) st Hnew (Hfresh a (or_introl eq_refl)))
      as (st1 & id & -> & Harcs1 & Hframe1).
    destruct (IH st1) as (st' & E & Htrans & Hframe').
    + destruct Hframe1 as (_ & -> & _). exact Hnew.
    + exact Hnodup'.
    + intros b Hb. rewrite Harcs1. cbn [map insn]. intros [Heq|Hin].
      * apply Hnotin. rewrite Heq. apply in_map. exact Hb.
      * apply (Hfresh b (or_intror Hb)). exact Hin.
    + exists st'. split; [exact E|]. split; [|eapply frame_trans; eassumption].
      intros i. rewrite Htrans, Harcs1. unfold transition. cbn [find insn].
      destruct (Nat.eqb_spec (insn a) i) as [<-|Hne].
      * assert (find (fun a0 => (insn a0 =? insn a)%nat) arcs = None) as ->
          by (apply find_insn_none; exact Hnotin).
        reflexivity.
      * reflexivity.
Qed.

Lemma transition_map (equiv_class_state : nat -> nat) (arcs : list arc) (i : nat) :
  transition (map (fun a => mk_arc (arc_id a) (equiv_class_state (to_state a)) (insn a)
                               (state_alts a)) arcs) i
  = merged equiv_class_state (transition arcs i).
Proof.
  unfold transition. induction arcs as [|a arcs IH]; [reflexivity|].
  cbn [map find insn]. destruct (insn a =? i)%nat; [reflexivity | exact IH].
Qed.

(** The states of [used] are nodes, none of them free. *)
Definition in_use (st : store) (used : list nat) : Prop :=
  free_states_allocated st /\ NoDup (free_states st)
  /\ forall u, In u used -> (u < length (states st))%nat /\ ~ In u (free_states st).

Lemma get_free_state_fresh (max_cycles_num : nat) (with_reservs : bool) (a : nat)
    (st : store) (used : list nat) :
  (0 < max_cycles_num)%nat -> in_use st used ->
  exists r st1,
    get_free_state max_cycles_num with_reservs a st = Done (r, st1)
    /\ ~ In r used /\ in_use st1 (r :: used)
    /\ out_arcs st1 r = []
    /\ (length (states st) <= length (states st1))%nat
    /\ forall u, In u used -> the_state st1 u = the_state st u.
Proof.
  intros Hcycles (Hfree & Hnodup & Hused).
  destruct (get_free_state max_cycles_num with_reservs a st) as [[r st1]| |] eqn:E;
    try (unfold get_free_state in E; destruct (Nat.leb_spec max_cycles_num 0); [lia|];
         destruct (free_states st); discriminate).
  exists r, st1. split; [reflexivity|].
  destruct (get_free_state_spec _ _ _ _ _ _ Hfree E)
    as (Hr & Hlen & _ & _ & Harcs & _ & _ & _ & Hsame & Hfree1).
  unfold get_free_state in E. destruct (Nat.leb_spec max_cycles_num 0); [lia|].
  assert (~ In r used /\ NoDup (free_states st1)
          /\ forall u, In u (r :: used) -> ~ In u (free_states st1)) as (Hnew & Hnd1 & Hnf).
  { destruct (free_states st) as [|f rest] eqn:Ef.
    - injection E as <- <-. cbn [free_states]. split; [|split; [constructor | auto]].
      intros Hin. destruct (Hused _ Hin) as [Hlt _]. lia.
    - injection E as <- <-. cbn [free_states].
      inversion Hnodup as [|? ? Hnotin Hnodup']; subst.
      split; [|split; [exact Hnodup'|]].
      + intros Hin. destruct (Hused _ Hin) as [_ Hnf]. apply Hnf. left. reflexivity.
      + intros u [<-|Hu]; [exact Hnotin|].
        destruct (Hused _ Hu) as [_ Hnf]. intros Hin. apply Hnf. right. exact Hin. }
  split; [exact Hnew|]. split; [|split; [exact Harcs|split; [exact Hlen|]]].
  - split; [exact Hfree1|]. split; [exact Hnd1|]. intros u Hu. split; [|apply Hnf; exact Hu].
    destruct Hu as [<-|Hu]; [exact Hr|]. destruct (Hused _ Hu) as [Hlt _]. lia.
  - intros u Hu. destruct (Hused _ Hu) as [Hlt _]. apply Hsame; [|exact Hlt].
    intros ->. contradiction.
Qed.

Lemma class_alt_states_spec (st : store) (new_state : nat) (states : list nat) :
  forall (equiv_class_state : nat -> nat) (alt_states : list nat) (x : nat),
  fst (class_alt_states st new_state states equiv_class_state alt_states) x
  = if existsb (Nat.eqb x) states then new_state else equiv_class_state x.
Proof.
  induction states as [|s states IH]; intros ecs alts x; cbn [class_alt_states];
    [reflexivity|].
  rewrite IH. cbn [existsb]. unfold upd.
  destruct (existsb (Nat.eqb x) states), (Nat.eqb_spec x s); reflexivity.
Qed.

(** [r] is the state of the class [K]: [K]'s only state, or a state
    not in [used]. *)
Definition class_state (equiv_class_state : nat -> nat) (used : list nat)
    (K : list nat) (r : nat) : Prop :=
  (forall s, In s K -> equiv_class_state s = r)
  /\ (K = [r] \/ ((2 <= length K)%nat /\ ~ In r used)).

Lemma class_state_cases (equiv_class_state : nat -> nat) (used : list nat)
    (classes : list (list nat)) (reps : list nat) (r : nat) :
  Forall2 (class_state equiv_class_state used) classes reps -> In r reps ->
  In r (concat classes) \/ ~ In r used.
Proof.
  intros Hreps. induction Hreps as [|K r' cl rs Hr _ IH]; intros Hin; [contradiction|].
  cbn [concat]. destruct Hin as [->|Hin].
  - destruct Hr as [_ [-> | [_ Hnew]]]; [left; left; reflexivity | right; exact Hnew].
  - destruct (IH Hin) as [H|H]; [left; apply in_or_app; right; exact H | right; exact H].
Qed.

Lemma in_use_frame (r : nat) (st st' : store) (used : list nat) :
  frame r st st' -> in_use st used -> in_use st' used.
Proof.
  intros (_ & Hlen & Hfree) (Ha & Hnd & Hused). unfold in_use, free_states_allocated.
  rewrite Hfree, Hlen. auto.
Qed.

Section Merge.

Variable max_cycles_num : nat.
Variable automaton : automaton_t.
Hypothesis cycles : (0 < max_cycles_num)%nat.

Lemma create_class_states_spec (classes : list (list nat)) :
  forall (equiv_class_state : nat -> nat) (st : store) (used : list nat),
  in_use st used -> Forall (fun K => K <> []) classes ->
  NoDup (concat classes) -> incl (concat classes) used ->
  exists equiv_class_state' st1 reps,
    create_class_states max_cycles_num classes automaton equiv_class_state st
    = Done (equiv_class_state', st1)
    /\ Forall2 (class_state equiv_class_state' used) classes reps
    /\ Forall2 (fun K r => (2 <= length K)%nat -> out_arcs st1 r = []) classes reps
    /\ NoDup reps
    /\ (forall r, In r reps -> (r < length (states st1))%nat)
    /\ (length (states st) <= length (states st1))%nat
    /\ (forall u, In u used -> the_state st1 u = the_state st u)
    /\ (forall x, ~ In x (concat classes) -> equiv_class_state' x = equiv_class_state x).
Proof.
  induction classes as [|K classes IH]; intros ecs st used Huse Hne Hnodup Hincl.
  - exists ecs, st, []. split; [reflexivity|]. repeat split; try constructor.
    intros r [].
  - inversion Hne as [|? ? HK Hne']; subst. cbn [concat] in Hnodup, Hincl.
    pose proof (NoDup_app_remove_l _ _ Hnodup) as Hnd'.
    assert (forall x, In x K -> ~ In x (concat classes)) as Hdisj
      by (intros x Hx Hx'; exact (NoDup_app_disjoint _ _ _ Hnodup Hx Hx')).
    assert (incl (concat classes) used) as Hincl'
      by (intros x Hx; apply Hincl, in_or_app; right; exact Hx).
    destruct K as [|s K']; [contradiction|]. destruct K' as [|s' K''].
    + (* a class of one state *)
      cbn [create_class_states].
      destruct (IH (upd ecs s s) st used Huse Hne' Hnd' Hincl')
        as (ecs' & st1 & reps & E & Hreps & Harcs & Hndr & Hlt & Hlen & Hsame & Hout).
      exists ecs', st1, (s :: reps). split; [exact E|].
      assert (In s used) as Hs by (apply Hincl; left; reflexivity).
      split; [|split; [|split; [|split; [|split; [|split]]]]].
      * constructor; [|exact Hreps]. split; [|left; reflexivity].
        intros x [<-|[]]. rewrite Hout by (apply Hdisj; left; reflexivity).
        unfold upd. rewrite Nat.eqb_refl. reflexivity.
      * constructor; [cbn [length]; lia | exact Harcs].
      * constructor; [|exact Hndr]. intros Hin.
        destruct (class_state_cases _ _ _ _ _ Hreps Hin) as [H|H].
        -- exact (Hdisj s (or_introl eq_refl) H).
        -- exact (H Hs).
      * intros r [<-|Hr]; [|apply Hlt; exact Hr].
        destruct Huse as (_ & _ & Hused). destruct (Hused s Hs) as [Hlts _]. lia.
      * exact Hlen.
      * exact Hsame.
      * intros x Hx. rewrite Hout by (intros H; apply Hx; right; exact H).
        unfold upd. destruct (Nat.eqb_spec x s) as [->|_]; [|reflexivity].
        exfalso. apply Hx. left. reflexivity.
    + (* a class of two states or more: a new state *)
      cbn [create_class_states]. unfold bind at 1.
      destruct (get_free_state_fresh max_cycles_num false (automaton_order_num automaton)
                  st used cycles Huse)
        as (r & st0 & -> & Hnew & Huse0 & Harcs0 & Hlen0 & Hsame0).
      pose proof (class_alt_states_spec st0 r (s :: s' :: K'') ecs []) as Hecs1.
      destruct (class_alt_states st0 r (s :: s' :: K'') ecs []) as [ecs1 alts].
      cbn [fst] in Hecs1. unfold bind at 1.
      assert (r < length (states st0))%nat as Hr
        by (destruct Huse0 as (_ & _ & Hused0); apply (Hused0 r); left; reflexivity).
      destruct (set_component_states_spec r (uniq_sort_alt_states alts) st0 Hr)
        as (st0' & -> & Harcs0' & Hframe).
      destruct (IH ecs1 st0' (r :: used) (in_use_frame _ _ _ _ Hframe Huse0) Hne' Hnd')
        as (ecs' & st1 & reps & E & Hreps & Harcs & Hndr & Hlt & Hlen & Hsame & Hout).
      { intros x Hx. right. apply Hincl'. exact Hx. }
      exists ecs', st1, (r :: reps). split; [exact E|].
      destruct Hframe as (Hother & Hlen0' & _).
      split; [|split; [|split; [|split; [|split; [|split]]]]].
      * constructor.
        -- split; [|right; split; [cbn [length]; lia | exact Hnew]].
           intros x Hx. rewrite Hout by (apply Hdisj; exact Hx). rewrite Hecs1.
           apply existsb_eqb_In in Hx. rewrite Hx. reflexivity.
        -- clear -Hreps. induction Hreps as [|K r' cl rs Hr _ IH']; constructor; [|exact IH'].
           destruct Hr as [Hall Hcase]. split; [exact Hall|].
           destruct Hcase as [->|[H2 Hn]]; [left; reflexivity|].
           right. split; [exact H2|]. intros H. apply Hn. right. exact H.
      * constructor; [|exact Harcs]. intros _. unfold out_arcs in *.
        rewrite Hsame by (left; reflexivity). rewrite Harcs0'. exact Harcs0.
      * constructor; [|exact Hndr]. intros Hin.
        destruct (class_state_cases _ _ _ _ _ Hreps Hin) as [H|H].
        -- apply Hnew. apply Hincl'. exact H.
        -- apply H. left. reflexivity.
      * intros x [<-|Hx]; [|apply Hlt; exact Hx]. lia.
      * lia.
      * intros u Hu. rewrite Hsame by (right; exact Hu).
        rewrite Hother by (intros ->; contradiction). apply Hsame0. exact Hu.
      * intros x Hx. rewrite Hout by (intros H; apply Hx, in_or_app; right; exact H).
        rewrite Hecs1. destruct (existsb (Nat.eqb x) (s :: s' :: K'')) eqn:Ex; [|reflexivity].
        exfalso. apply Hx, in_or_app. left. apply existsb_eqb_In. exact Ex.
Qed.

End Merge.

Lemma Forall2_impl_in {A B : Type} (P Q : A -> B -> Prop) (l : list A) (l' : list B) :
  Forall2 P l l' -> (forall a b, In a l -> In b l' -> P a b -> Q a b) -> Forall2 Q l l'.
Proof.
  intros H. induction H as [|a b l l' Hab _ IH]; intros Himp; constructor.
  - apply Himp; [left; reflexivity | left; reflexivity | exact Hab].
  - apply IH. intros a' b' Ha Hb. apply Himp; right; assumption.
Qed.

Lemma hd_In (K : list nat) : K <> [] -> In (hd 0%nat K) K.
Proof. destruct K; [contradiction | left; reflexivity]. Qed.

(** What the second loop of [merge_states] needs of a class [K] and
    its state [r]: the first state of [K] has one arc an insn at most,
    and a new state has no arc yet. *)
Definition class_ready (equiv_class_state : nat -> nat) (st : store) (members : list nat)
    (K : list nat) (r : nat) : Prop :=
  K <> [] /\ (forall s, In s K -> equiv_class_state s = r)
  /\ (r < length (states st))%nat
  /\ NoDup (map insn (out_arcs st (hd 0%nat K)))
  /\ (K = [r] \/ ((2 <= length K)%nat /\ ~ In r members /\ out_arcs st r = [])).

Lemma class_ready_frame (equiv_class_state : nat -> nat) (st st1 : store)
    (members K : list nat) (r : nat) :
  class_ready equiv_class_state st members K r ->
  the_state st1 r = the_state st r ->
  the_state st1 (hd 0%nat K) = the_state st (hd 0%nat K) ->
  length (states st1) = length (states st) ->
  class_ready equiv_class_state st1 members K r.
Proof.
  intros (Hne & Hall & Hlt & Hnd & Hcase) Hr Hh Hlen. unfold class_ready, out_arcs in *.
  rewrite Hr, Hh, Hlen. auto.
Qed.

Lemma class_start_state_spec (equiv_class_state : nat -> nat) (K : list nat) (r : nat) :
  (forall s, In s K -> equiv_class_state s = r) -> ~ In r K ->
  forall start_state',
  class_start_state equiv_class_state K start_state'
  = if existsb (Nat.eqb start_state') K then r else start_state'.
Proof.
  induction K as [|curr K IH]; intros Hall Hr start; [reflexivity|].
  cbn [class_start_state existsb].
  rewrite IH; [|intros s Hs; apply Hall; right; exact Hs
               |intros H; apply Hr; right; exact H].
  destruct (Nat.eqb_spec start curr) as [->|Hne]; [|reflexivity].
  rewrite (Hall curr (or_introl eq_refl)).
  destruct (existsb (Nat.eqb r) K) eqn:E; reflexivity.
Qed.

Lemma merge_class_arcs_spec (equiv_class_state : nat -> nat) (members : list nat)
    (classes : list (list nat)) :
  forall (reps : list nat) (start_state' : nat) (st : store),
  Forall2 (class_ready equiv_class_state st members) classes reps ->
  NoDup reps -> NoDup (concat classes) -> incl (concat classes) members ->
  exists result st2,
    merge_class_arcs classes equiv_class_state start_state' st = Done (result, st2)
    /\ Forall2 (fun K r => forall i,
                  transition (out_arcs st2 r) i
                  = merged equiv_class_state (transition (out_arcs st (hd 0%nat K)) i))
         classes reps
    /\ (forall y, ~ In y reps -> the_state st2 y = the_state st y)
    /\ length (states st2) = length (states st)
    /\ (In start_state' (concat classes) -> result = equiv_class_state start_state')
    /\ (~ In start_state' (concat classes) -> result = start_state').
Proof.
  induction classes as [|K classes IH]; intros reps start st Hready Hndr Hnodup Hincl.
  - inversion Hready; subst. exists start, st. split; [reflexivity|].
    repeat split; [constructor | intros []].
  - inversion Hready as [|? r ? reps' Hr Hready']; subst.
    inversion Hndr as [|? ? Hrnew Hndr']; subst.
    cbn [concat] in Hnodup, Hincl.
    pose proof (NoDup_app_remove_l _ _ Hnodup) as Hnd'.
    assert (forall x, In x K -> ~ In x (concat classes)) as Hdisj
      by (intros x Hx Hx'; exact (NoDup_app_disjoint _ _ _ Hnodup Hx Hx')).
    assert (incl (concat classes) members) as Hincl'
      by (intros x Hx; apply Hincl, in_or_app; right; exact Hx).
    destruct Hr as (HK & Hall & Hlt & Hdet & Hcase).
    assert (~ In r (concat classes)) as Hrout.
    { destruct Hcase as [->|(_ & Hnew & _)].
      - apply Hdisj. left. reflexivity.
      - intros H. apply Hnew, Hincl'. exact H. }
    (* the rest of the classes after a step that changes [r] only *)
    assert (forall st1, frame r st st1 ->
            Forall2 (class_ready equiv_class_state st1 members) classes reps'
            /\ Forall2 (fun K' (r' : nat) => out_arcs st1 (hd 0%nat K') = out_arcs st (hd 0%nat K'))
                 classes reps') as Hrest.
    { intros st1 (Hother & Hlen & _). split.
      - apply (Forall2_impl_in _ _ _ _ Hready'). intros K' r' HK' Hr' Hrd.
        apply (class_ready_frame _ _ _ _ _ _ Hrd); [| |exact Hlen].
        + apply Hother. intros ->. contradiction.
        + apply Hother. intros Heq. apply Hrout. rewrite <- Heq. apply in_concat.
          exists K'. split; [exact HK'|]. apply hd_In. destruct Hrd as (H & _). exact H.
      - apply (Forall2_impl_in _ _ _ _ Hready'). intros K' r' HK' Hr' Hrd.
        unfold out_arcs. f_equal. apply Hother. intros Heq. apply Hrout. rewrite <- Heq.
        apply in_concat. exists K'. split; [exact HK'|]. apply hd_In.
        destruct Hrd as (H & _). exact H. }
    destruct K as [|s K']; [contradiction|]. destruct K' as [|s' K''].
    + (* a class of one state: its arcs go to the states of the classes *)
      destruct Hcase as [Hs|(Hlen2 & _)]; [|cbn [length] in Hlen2; lia].
      injection Hs as ->.
      cbn [merge_class_arcs]. unfold bind at 1, read at 1. unfold bind at 1.
      destruct (set_first_out_arc_spec r
                  (map (fun a => mk_arc (arc_id a) (equiv_class_state (to_state a)) (insn a)
                                   (state_alts a)) (first_out_arc (the_state st r))) st Hlt)
        as (st1 & -> & Harcs1 & Hframe).
      destruct (Hrest st1 Hframe) as [Hready1 Hheads].
      destruct (IH reps' start st1 Hready1 Hndr' Hnd' Hincl')
        as (result & st2 & E & Htrans & Hsame & Hlen & Hstart_in & Hstart_out).
      exists result, st2. split; [exact E|].
      destruct Hframe as (Hother & Hlen1 & _).
      split; [|split; [|split; [congruence|split]]].
      * constructor.
        -- intros i. cbn [hd]. unfold out_arcs at 1. rewrite Hsame by exact Hrnew.
           fold (out_arcs st1 r). rewrite Harcs1. apply transition_map.
        -- clear -Htrans Hheads. induction Htrans as [|K r' cl rs Hr _ IH'];
             inversion Hheads; subst; constructor; [|apply IH'; assumption].
           intros i. rewrite Hr. f_equal. f_equal. assumption.
      * intros y Hy. rewrite Hsame by (intros H; apply Hy; right; exact H).
        apply Hother. intros ->. apply Hy. left. reflexivity.
      * intros [<-|Hin].
        -- rewrite Hstart_out by exact Hrout. symmetry. apply Hall. left. reflexivity.
        -- apply Hstart_in. exact Hin.
      * intros Hout. apply Hstart_out. intros H. apply Hout. right. exact H.
    + (* a class of two states or more: the arcs of its first state *)
      destruct Hcase as [Hs|(_ & Hnew & Hempty)]; [discriminate|].
      cbn [merge_class_arcs]. unfold bind at 1, read at 1. unfold bind at 1.
      rewrite (class_start_state_spec equiv_class_state (s :: s' :: K'') r Hall)
        by (intros H; apply Hnew, Hincl, in_or_app; left; exact H).
      rewrite (Hall s (or_introl eq_refl)). cbn [hd] in Hdet. fold (out_arcs st s).
      destruct (add_class_arcs_spec equiv_class_state r (out_arcs st s) st Hlt Hdet)
        as (st1 & -> & Harcs1 & Hframe).
      { intros a _. rewrite Hempty. intros []. }
      destruct (Hrest st1 Hframe) as [Hready1 Hheads].
      destruct (IH reps'
                  (if existsb (Nat.eqb start) (s :: s' :: K'') then r else start)
                  st1 Hready1 Hndr' Hnd' Hincl')
        as (result & st2 & E & Htrans & Hsame & Hlen & Hstart_in & Hstart_out).
      exists result, st2. split; [exact E|].
      destruct Hframe as (Hother & Hlen1 & _).
      split; [|split; [|split; [congruence|split]]].
      * constructor.
        -- intros i. cbn [hd]. unfold out_arcs at 1. rewrite Hsame by exact Hrnew.
           fold (out_arcs st1 r). rewrite Harcs1, Hempty.
           destruct (transition (out_arcs st s) i) as [[t alts]|]; reflexivity.
        -- clear -Htrans Hheads. induction Htrans as [|K r' cl rs Hr _ IH'];
             inversion Hheads; subst; constructor; [|apply IH'; assumption].
           intros i. rewrite Hr. f_equal. f_equal. assumption.
      * intros y Hy. rewrite Hsame by (intros H; apply Hy; right; exact H).
        apply Hother. intros ->. apply Hy. left. reflexivity.
      * intros Hin. destruct (existsb (Nat.eqb start) (s :: s' :: K'')) eqn:Ex.
        -- apply existsb_eqb_In in Ex. rewrite (Hall start Ex). apply Hstart_out. exact Hrout.
        -- apply Hstart_in. apply in_app_or in Hin. destruct Hin as [Hin|Hin]; [|exact Hin].
           apply existsb_eqb_In in Hin. congruence.
      * intros Hout. destruct (existsb (Nat.eqb start) (s :: s' :: K'')) eqn:Ex.
        -- exfalso. apply Hout, in_or_app. left. apply existsb_eqb_In. exact Ex.
        -- apply Hstart_out. intros H. apply Hout, in_or_app. right. exact H.
Qed.

(** *** What [merge_states] keeps of the states *)

(** The alt states that the loop of [merge_states] over the states of
    a class collects: the state itself if it has no component states,
    else its component states. *)
Fixpoint class_components (st : store) (states alt_states : list nat) : list nat :=
  match states with
  | [] => alt_states
  | curr_state :: states' =>
    class_components st states'
      (match component_states (the_state st curr_state) with
       | [] => curr_state :: alt_states
       | components => rev components ++ alt_states
       end)
  end.

Lemma class_alt_states_components (st : store) (new_state : nat) (states : list nat) :
  forall (equiv_class_state : nat -> nat) (alt_states : list nat),
  snd (class_alt_states st new_state states equiv_class_state alt_states)
  = class_components st states alt_states.
Proof.
  induction states as [|s states IH]; intros ecs alts;
    cbn [class_alt_states class_components]; [reflexivity | apply IH].
Qed.

Lemma class_components_same (st st' : store) (states : list nat) :
  (forall s, In s states -> the_state st' s = the_state st s) ->
  forall alt_states, class_components st' states alt_states
                     = class_components st states alt_states.
Proof.
  induction states as [|s states IH]; intros Hsame alts; cbn [class_components];
    [reflexivity|].
  rewrite (Hsame s (or_introl eq_refl)).
  apply IH. intros x Hx. apply Hsame. right. exact Hx.
Qed.

Lemma class_components_In (st : store) (states : list nat) :
  forall (alt_states : list nat) (x : nat),
  In x (class_components st states alt_states)
  <-> In x alt_states
      \/ exists s, In s states
                   /\ ((component_states (the_state st s) = [] /\ x = s)
                       \/ In x (component_states (the_state st s))).
Proof.
  induction states as [|s states IH]; intros alts x; cbn [class_components].
  - split; [auto|]. intros [H|(s & [] & _)]. exact H.
  - rewrite IH. destruct (component_states (the_state st s)) as [|c cs] eqn:Ec.
    + cbn [In]. split.
      * intros [[Hx|H]|(s' & Hs' & H)].
        -- right. exists s. split; [left; reflexivity|]. left.
           split; [exact Ec | symmetry; exact Hx].
        -- left. exact H.
        -- right. exists s'. split; [right; exact Hs' | exact H].
      * intros [H|(s' & [Heq|Hs'] & H)].
        -- left. right. exact H.
        -- subst s'. destruct H as [[_ ->]|H]; [left; left; reflexivity|].
           rewrite Ec in H. contradiction.
        -- right. exists s'. auto.
    + rewrite in_app_iff, <- in_rev. split.
      * intros [[H|H]|(s' & Hs' & H)].
        -- right. exists s. split; [left; reflexivity|]. right. rewrite Ec. exact H.
        -- left. exact H.
        -- right. exists s'. split; [right; exact Hs' | exact H].
      * intros [H|(s' & [Heq|Hs'] & H)].
        -- left. right. exact H.
        -- subst s'. destruct H as [[H _]|H]; [rewrite Ec in H; discriminate|].
           rewrite Ec in H. auto.
        -- right. exists s'. auto.
Qed.

(** The reservations and the component states of the states are the
    same in the two stores. *)
Definition same_data (st st' : store) : Prop :=
  length (states st') = length (states st)
  /\ forall y, reservs (the_state st' y) = reservs (the_state st y)
               /\ component_states (the_state st' y) = component_states (the_state st y).

Lemma same_data_refl (st : store) : same_data st st.
Proof. split; [reflexivity|]. intros y. split; reflexivity. Qed.

Lemma same_data_trans (st st' st'' : store) :
  same_data st st' -> same_data st' st'' -> same_data st st''.
Proof.
  intros [Hlen H] [Hlen' H']. split; [congruence|]. intros y.
  destruct (H y) as [<- <-]. apply H'.
Qed.

Lemma set_first_out_arc_data (s : nat) (arcs : list arc) (st st' : store) :
  (s < length (states st))%nat ->
  set_first_out_arc s arcs st = Done (tt, st') -> same_data st st'.
Proof.
  intros Hs E. unfold set_first_out_arc, bind, read, write in E. injection E as <-.
  split; [cbn [states]; apply set_nth_length; exact Hs|].
  intros y. rewrite the_state_write by exact Hs.
  destruct (Nat.eqb_spec y s) as [->|_]; split; reflexivity.
Qed.

Lemma add_arc_data (from to i : nat) (alts : Z) (st st' : store) (id : nat) :
  (from < length (states st))%nat ->
  add_arc from to i alts st = Done (id, st') -> same_data st st'.
Proof.
  intros Hfrom E. unfold add_arc, bind at 1, read at 1 in E.
  destruct (find_arc (the_state st from) to i).
  - unfold ret in E. injection E as _ <-. apply same_data_refl.
  - unfold bind in E.
    destruct (set_first_out_arc from _ _) as [[[] st1]| |] eqn:E1; try discriminate.
    unfold ret in E. injection E as _ <-.
    apply set_first_out_arc_data in E1; [|exact Hfrom].
    destruct E1 as [Hlen H]. split; [exact Hlen | exact H].
Qed.

Lemma add_class_arcs_data (equiv_class_state : nat -> nat) (new_state : nat)
    (arcs : list arc) :
  forall st st',
  (new_state < length (states st))%nat ->
  add_class_arcs equiv_class_state new_state arcs st = Done (tt, st') ->
  same_data st st'.
Proof.
  induction arcs as [|a arcs IH]; intros st st' Hnew E; cbn [add_class_arcs] in E.
  - unfold ret in E. injection E as <-. apply same_data_refl.
  - unfold bind in E.
    destruct (add_arc new_state _ _ _ st) as [[id st1]| |] eqn:E1; try discriminate.
    apply add_arc_data in E1; [|exact Hnew].
    apply (same_data_trans _ _ _ E1). apply IH; [|exact E].
    destruct E1 as [-> _]. exact Hnew.
Qed.

Lemma merge_class_arcs_data (equiv_class_state : nat -> nat) (classes : list (list nat)) :
  forall (start_state' : nat) (st st2 : store) (result : nat),
  (forall K s, In K classes -> In s K ->
               (s < length (states st))%nat
               /\ (equiv_class_state s < length (states st))%nat) ->
  merge_class_arcs classes equiv_class_state start_state' st = Done (result, st2) ->
  same_data st st2.
Proof.
  induction classes as [|K classes IH]; intros start st st2 result Hlt E;
    cbn [merge_class_arcs] in E.
  - unfold ret in E. injection E as _ <-. apply same_data_refl.
  - assert (forall st1, same_data st st1 ->
              forall K s, In K classes -> In s K ->
                          (s < length (states st1))%nat
                          /\ (equiv_class_state s < length (states st1))%nat) as Hrest.
    { intros st1 [-> _] K' s HK' Hs. apply (Hlt K' s); [right; exact HK' | exact Hs]. }
    destruct K as [|s K']; [discriminate|]. destruct K' as [|s' K''].
    + unfold bind at 1, read at 1 in E. unfold bind in E.
      destruct (set_first_out_arc s _ st) as [[[] st1]| |] eqn:E1; try discriminate.
      apply set_first_out_arc_data in E1;
        [|apply (Hlt [s] s); left; reflexivity].
      apply (same_data_trans _ _ _ E1). eapply IH; [apply Hrest; exact E1 | exact E].
    + unfold bind at 1, read at 1 in E. unfold bind in E.
      destruct (add_class_arcs equiv_class_state _ _ st) as [[[] st1]| |] eqn:E1;
        try discriminate.
      apply add_class_arcs_data in E1;
        [|apply (Hlt (s :: s' :: K'') s); left; reflexivity].
      apply (same_data_trans _ _ _ E1). eapply IH; [apply Hrest; exact E1 | exact E].
Qed.

(** The component states of the state that [create_class_states] makes
    for a class of two states or more. *)
Lemma create_class_states_components (max_cycles_num : nat) (automaton : automaton_t)
    (classes : list (list nat)) :
  (0 < max_cycles_num)%nat ->
  forall (equiv_class_state : nat -> nat) (st : store) (used : list nat)
         (equiv_class_state' : nat -> nat) (st1 : store),
  in_use st used -> Forall (fun K => K <> []) classes ->
  NoDup (concat classes) -> incl (concat classes) used ->
  create_class_states max_cycles_num classes automaton equiv_class_state st
  = Done (equiv_class_state', st1) ->
  forall K s, In K classes -> (2 <= length K)%nat -> In s K ->
    component_states (the_state st1 (equiv_class_state' s))
    = uniq_sort_alt_states (class_components st K []).
Proof.
  intros Hcycles.
  induction classes as [|K0 classes IH]; intros ecs st used ecs' st1 Huse Hne Hnodup Hincl E
                                               K s HK H2 Hs; [contradiction|].
  inversion Hne as [|? ? HK0 Hne']; subst. cbn [concat] in Hnodup, Hincl.
  pose proof (NoDup_app_remove_l _ _ Hnodup) as Hnd'.
  assert (forall x, In x K0 -> ~ In x (concat classes)) as Hdisj
    by (intros x Hx Hx'; exact (NoDup_app_disjoint _ _ _ Hnodup Hx Hx')).
  assert (incl (concat classes) used) as Hincl'
    by (intros x Hx; apply Hincl, in_or_app; right; exact Hx).
  destruct K0 as [|s0 K0']; [contradiction|]. destruct K0' as [|s0' K0''].
  - cbn [create_class_states] in E. destruct HK as [<-|HK]; [cbn [length] in H2; lia|].
    exact (IH _ _ _ _ _ Huse Hne' Hnd' Hincl' E K s HK H2 Hs).
  - cbn [create_class_states] in E. unfold bind at 1 in E.
    destruct (get_free_state_fresh max_cycles_num false (automaton_order_num automaton)
                st used Hcycles Huse)
      as (r & st0 & E0 & Hnew & Huse0 & Harcs0 & Hlen0 & Hsame0).
    rewrite E0 in E.
    pose proof (class_alt_states_spec st0 r (s0 :: s0' :: K0'') ecs []) as Hecs1.
    pose proof (class_alt_states_components st0 r (s0 :: s0' :: K0'') ecs []) as Halts.
    destruct (class_alt_states st0 r (s0 :: s0' :: K0'') ecs []) as [ecs1 alts].
    cbn [fst] in Hecs1. cbn [snd] in Halts. unfold bind at 1 in E.
    assert (r < length (states st0))%nat as Hr
      by (destruct Huse0 as (_ & _ & Hused0); apply (Hused0 r); left; reflexivity).
    destruct (set_component_states_spec r (uniq_sort_alt_states alts) st0 Hr)
      as (st0' & E0' & _ & Hframe).
    rewrite E0' in E.
    assert (component_states (the_state st0' r) = uniq_sort_alt_states alts) as Hcomp.
    { unfold set_component_states, bind, read, write in E0'. injection E0' as <-.
      rewrite the_state_write by exact Hr. rewrite Nat.eqb_refl. reflexivity. }
    assert (in_use st0' (r :: used)) as Huse0' by (exact (in_use_frame _ _ _ _ Hframe Huse0)).
    assert (incl (concat classes) (r :: used)) as Hincl0
      by (intros x Hx; right; apply Hincl'; exact Hx).
    assert (forall u, In u used -> the_state st0' u = the_state st u) as Hsame0'.
    { intros u Hu. destruct Hframe as (Hother & _ & _).
      rewrite Hother by (intros ->; contradiction). apply Hsame0. exact Hu. }
    destruct HK as [<-|HK].
    + destruct (create_class_states_spec max_cycles_num automaton Hcycles classes ecs1 st0'
                  (r :: used) Huse0' Hne' Hnd' Hincl0)
        as (ecs'' & st1' & reps & E' & _ & _ & _ & _ & _ & Hsame & Hout).
      rewrite E in E'. injection E' as <- <-.
      rewrite Hout by (apply Hdisj; exact Hs). rewrite Hecs1.
      apply existsb_eqb_In in Hs. rewrite Hs.
      rewrite Hsame by (left; reflexivity). rewrite Hcomp, Halts. f_equal.
      apply class_components_same. intros x Hx. apply Hsame0.
      apply Hincl, in_or_app. left. exact Hx.
    + rewrite (IH _ _ _ _ _ Huse0' Hne' Hnd' Hincl0 E K s HK H2 Hs). f_equal.
      apply class_components_same. intros x Hx. apply Hsame0'.
      apply Hincl', in_concat. exists K. auto.
Qed.

(** *** The insns an automaton takes *)

(** The [state_alts] of the arcs that the insns [insns] take from the
    state [s], if each of them has an arc. *)
Fixpoint trace (st : store) (s : nat) (insns : list nat) : option (list Z) :=
  match insns with
  | [] => Some []
  | i :: insns' =>
    match transition (out_arcs st s) i with
    | Some (t, alts) =>
      match trace st t insns' with
      | Some l => Some (alts :: l)
      | None => None
      end
    | None => None
    end
  end.

(** The state that the insns [insns] lead to from the state [s]. *)
Fixpoint final_state (st : store) (s : nat) (insns : list nat) : option nat :=
  match insns with
  | [] => Some s
  | i :: insns' =>
    match transition (out_arcs st s) i with
    | Some (t, _) => final_state st t insns'
    | None => None
    end
  end.

Lemma transition_In (arcs : list arc) (i t : nat) (alts : Z) :
  transition arcs i = Some (t, alts) -> exists a, In a arcs /\ to_state a = t.
Proof.
  unfold transition. destruct (find (fun a => (insn a =? i)%nat) arcs) as [a|] eqn:E;
    [|discriminate].
  intros H. injection H as <- _. apply find_some in E. exists a. tauto.
Qed.

Lemma Forall2_and {A B : Type} (P Q : A -> B -> Prop) (l : list A) (l' : list B) :
  Forall2 P l l' -> Forall2 Q l l' -> Forall2 (fun a b => P a b /\ Q a b) l l'.
Proof.
  intros H. induction H as [|a b l l' Hab _ IH]; intros HQ; inversion HQ; subst;
    constructor; auto.
Qed.

Lemma Forall2_In_l {A B : Type} (P : A -> B -> Prop) (l : list A) (l' : list B) (a : A) :
  Forall2 P l l' -> In a l -> exists b, In b l' /\ P a b.
Proof.
  intros H. induction H as [|a' b l l' Hab _ IH]; intros Hin; [contradiction|].
  destruct Hin as [->|Hin].
  - exists b. split; [left; reflexivity | exact Hab].
  - destruct (IH Hin) as (b' & Hb' & HP). exists b'. split; [right|]; assumption.
Qed.

Lemma in_use_incl (st : store) (used used' : list nat) :
  incl used' used -> in_use st used -> in_use st used'.
Proof. intros Hincl (Ha & Hnd & Hused). repeat split; auto; apply Hused; auto. Qed.

(** [minimize_DFA] ends.  Each class of the achieved states has its
    state in the automaton left: the only state of the class, or a new
    state whose component states are the alt states collected from the
    class.  The state of a class takes the insns of the first state of
    the class, to the states of the classes, and the states in use keep
    their reservations and component states. *)
Lemma minimize_DFA_classes (max_cycles_num : nat) (units_array : list unit_decl)
    (fuel : nat) (automaton : automaton_t) (nums : equiv_class_nums)
    (equiv_class_state : nat -> nat) (st : store) (universe used : list nat) :
  (0 < max_cycles_num)%nat ->
  closed_except st [] universe ->
  (forall s, In s universe -> deterministic st s) ->
  In (start_state automaton) universe ->
  (length universe < fuel)%nat ->
  in_use st used -> incl universe used ->
  exists automaton' st' all classes equiv_class_state',
    minimize_DFA max_cycles_num units_array fuel automaton nums equiv_class_state st
    = Done (automaton', st')
    /\ start_state automaton' = equiv_class_state' (start_state automaton)
    /\ In (start_state automaton) all
    /\ incl all universe
    /\ closed_except st [] all
    /\ stable max_cycles_num units_array st all classes
    /\ (forall K, In K classes ->
          exists r,
            (forall s, In s K -> equiv_class_state' s = r)
            /\ (forall i, transition (out_arcs st' r) i
                          = merged equiv_class_state'
                              (transition (out_arcs st (hd 0%nat K)) i))
            /\ (K = [r]
                \/ ((2 <= length K)%nat /\ ~ In r used
                    /\ component_states (the_state st' r)
                       = uniq_sort_alt_states (class_components st K []))))
    /\ forall u, In u used ->
         reservs (the_state st' u) = reservs (the_state st u)
         /\ component_states (the_state st' u) = component_states (the_state st u).
Proof.
  intros Hcycles Hclosed Hdet Hstart Hfuel Huse Hused.
  destruct (evaluate_equiv_classes_spec max_cycles_num units_array st universe fuel
              automaton nums Hcycles Hclosed Hdet Hstart Hfuel)
    as (all & classes & E & Hstable & Hcl & Hin & Hincl & Hnd).
  unfold minimize_DFA. rewrite E. unfold merge_states. unfold bind at 1.
  pose proof Hstable as (Hperm & Hne & num & c & Hnum & Hagree).
  assert (NoDup (concat classes)) as Hndc
    by (apply (Permutation_NoDup (Permutation_sym Hperm)); exact Hnd).
  assert (incl (concat classes) all) as Hinc
    by (intros x Hx; exact (Permutation_in _ Hperm Hx)).
  assert (incl all used) as Hall_used by (intros x Hx; apply Hused, Hincl; exact Hx).
  assert (incl (concat classes) used) as Hinc_used
    by (intros x Hx; apply Hall_used, Hinc; exact Hx).
  destruct (create_class_states_spec max_cycles_num automaton Hcycles classes
              equiv_class_state st used Huse Hne Hndc Hinc_used)
    as (ecs & st1 & reps & E1 & Hreps & Harcs & Hndr & Hlt & Hlen & Hsame & Hout).
  pose proof (create_class_states_components max_cycles_num automaton classes Hcycles
                equiv_class_state st used ecs st1 Huse Hne Hndc Hinc_used E1) as Hcomps.
  rewrite E1.
  assert (forall K, In K classes -> In (hd 0%nat K) all) as Hhead.
  { intros K HK. apply Hinc, in_concat. exists K. split; [exact HK|]. apply hd_In.
    rewrite Forall_forall in Hne. apply Hne. exact HK. }
  assert (Forall2 (class_ready ecs st1 all) classes reps) as Hready.
  { apply (Forall2_impl_in _ _ _ _ (Forall2_and _ _ _ _ Hreps Harcs)).
    intros K r HK Hr [[Hall Hcase] Hempty]. split; [|split; [|split; [|split]]].
    - rewrite Forall_forall in Hne. apply Hne. exact HK.
    - exact Hall.
    - apply Hlt. exact Hr.
    - unfold out_arcs. rewrite Hsame by (apply Hall_used, Hhead; exact HK).
      apply Hdet, Hincl, Hhead. exact HK.
    - destruct Hcase as [->|[H2 Hnew]]; [left; reflexivity|]. right.
      split; [exact H2|]. split; [|apply Hempty; exact H2].
      intros H. apply Hnew, Hall_used. exact H. }
  destruct (merge_class_arcs_spec ecs all classes reps (start_state automaton) st1
              Hready Hndr Hndc Hinc)
    as (result & st2 & E2 & Htrans & Hsame2 & Hlen2 & Hstart_in & _).
  assert (same_data st1 st2) as Hdata.
  { apply (merge_class_arcs_data ecs classes (start_state automaton) st1 st2 result);
      [|exact E2].
    intros K s HK Hs. split.
    - destruct Huse as (_ & _ & Hu).
      destruct (Hu s) as [Hs' _]; [|lia].
      apply Hinc_used, in_concat. exists K. auto.
    - destruct (Forall2_In_l _ _ _ K Hreps HK) as (r & Hr & Hall & _).
      rewrite (Hall s Hs). apply Hlt. exact Hr. }
  unfold bind. rewrite E2. unfold ret. eexists. eexists. exists all, classes, ecs.
  split; [reflexivity|]. cbn [start_state].
  split; [apply Hstart_in, (Permutation_in _ (Permutation_sym Hperm)); exact Hin|].
  split; [exact Hin|]. split; [exact Hincl|]. split; [exact Hcl|].
  split; [exact Hstable|]. split.
  - intros K HK.
    destruct (Forall2_In_l _ _ _ K
                (Forall2_and _ _ _ _ (Forall2_and _ _ _ _ Hready Htrans) Hreps) HK)
      as (r & _ & ((_ & Hall & _) & Ht) & (_ & Hcase)).
    exists r. split; [exact Hall|]. split.
    + intros i. rewrite Ht. unfold out_arcs.
      rewrite Hsame by (apply Hall_used, Hhead; exact HK). reflexivity.
    + destruct Hcase as [->|[H2 Hnew]]; [left; reflexivity|]. right.
      split; [exact H2|]. split; [exact Hnew|].
      destruct Hdata as [_ Hdata]. rewrite (proj2 (Hdata r)).
      assert (In (hd 0%nat K) K) as Hh
        by (apply hd_In; rewrite Forall_forall in Hne; apply Hne; exact HK).
      rewrite <- (Hall _ Hh). apply (Hcomps K (hd 0%nat K) HK H2 Hh).
  - intros u Hu. destruct Hdata as [_ Hdata]. destruct (Hdata u) as [-> ->].
    rewrite (Hsame u Hu). split; reflexivity.
Qed.

(** [minimize_DFA] ends, and each state of the automaton it leaves is
    the state of a class of the achieved states: it takes the insns
    the states of the class took. *)
Lemma minimize_DFA_spec (max_cycles_num : nat) (units_array : list unit_decl)
    (fuel : nat) (automaton : automaton_t) (nums : equiv_class_nums)
    (equiv_class_state : nat -> nat) (st : store) (universe : list nat) :
  (0 < max_cycles_num)%nat ->
  closed_except st [] universe ->
  (forall s, In s universe -> deterministic st s) ->
  In (start_state automaton) universe ->
  (length universe < fuel)%nat ->
  in_use st universe ->
  exists automaton' st' all equiv_class_state',
    minimize_DFA max_cycles_num units_array fuel automaton nums equiv_class_state st
    = Done (automaton', st')
    /\ start_state automaton' = equiv_class_state' (start_state automaton)
    /\ In (start_state automaton) all
    /\ incl all universe
    /\ forall insns s, In s all ->
         trace st' (equiv_class_state' s) insns = trace st s insns.
Proof.
  intros Hcycles Hclosed Hdet Hstart Hfuel Huse.
  destruct (minimize_DFA_classes max_cycles_num units_array fuel automaton nums
              equiv_class_state st universe universe Hcycles Hclosed Hdet Hstart Hfuel
              Huse (incl_refl _))
    as (automaton' & st2 & all & classes & ecs & E & Hstart' & Hin & Hincl & Hcl
        & (Hperm & Hne & num & c & Hnum & Hagree) & Hclass & _).
  exists automaton', st2, all, ecs.
  split; [exact E|]. split; [exact Hstart'|]. split; [exact Hin|]. split; [exact Hincl|].
  assert (forall K, In K classes -> In (hd 0%nat K) all) as Hhead.
  { intros K HK. apply (Permutation_in _ Hperm), in_concat. exists K.
    split; [exact HK|]. apply hd_In. rewrite Forall_forall in Hne. apply Hne. exact HK. }
  assert (forall s, In s all -> exists K, In K classes /\ In s K) as Hmember.
  { intros s Hs. apply (Permutation_in _ (Permutation_sym Hperm)) in Hs.
    apply in_concat in Hs. exact Hs. }
  induction insns as [|i insns IH]; intros s Hs; [reflexivity|].
  destruct (Hmember s Hs) as (K & HK & HsK).
  destruct (Hclass K HK) as (r & Hall & Ht & _).
  cbn [trace]. rewrite (Hall s HsK), Ht.
  pose proof (proj1 (Hagree K HK s HsK) i) as Hag.
  destruct (transition (out_arcs st s) i) as [[t a]|] eqn:Es;
    destruct (transition (out_arcs st (hd 0%nat K)) i) as [[t' a']|] eqn:Eh;
    try contradiction; cbn [merged]; [|reflexivity].
  destruct Hag as [Hn <-].
  assert (In t all) as Ht_all.
  { destruct (transition_In _ _ _ _ Es) as (arc & Harc & <-).
    apply (Hcl s Hs (fun H => H) arc Harc). }
  assert (In t' all) as Ht'_all.
  { destruct (transition_In _ _ _ _ Eh) as (arc & Harc & <-).
    apply (Hcl (hd 0%nat K) (Hhead K HK) (fun H => H) arc Harc). }
  destruct (numbered_same_class classes num c t t' Hnum) as (K' & HK' & HtK' & Ht'K');
    [apply (Permutation_in _ (Permutation_sym Hperm)); exact Ht_all
    |apply (Permutation_in _ (Permutation_sym Hperm)); exact Ht'_all
    |exact Hn|].
  destruct (Hclass K' HK') as (r' & Hall' & _).
  rewrite (Hall' t' Ht'K'), <- (Hall' t HtK'), (IH t Ht_all). reflexivity.
Qed.

(** *** Two units that exclude each other *)

(** The checks of the conditions above on a given store. *)
Definition closed_b (st : store) (universe : list nat) : bool :=
  forallb (fun s => forallb (fun a => existsb (Nat.eqb (to_state a)) universe)
                      (out_arcs st s)) universe.

Fixpoint NoDup_b (l : list nat) : bool :=
  match l with
  | [] => true
  | x :: l' => negb (existsb (Nat.eqb x) l') && NoDup_b l'
  end.

Definition deterministic_b (st : store) (s : nat) : bool :=
  NoDup_b (map insn (out_arcs st s)) && forallb (fun a => 0 <? state_alts a) (out_arcs st s).

Definition in_use_b (st : store) (used : list nat) : bool :=
  forallb (fun s => (s <? length (states st))%nat) (free_states st)
  && NoDup_b (free_states st)
  && forallb (fun u => (u <? length (states st))%nat
                       && negb (existsb (Nat.eqb u) (free_states st))) used.

Lemma closed_b_spec (st : store) (universe : list nat) :
  closed_b st universe = true -> closed_except st [] universe.
Proof.
  unfold closed_b. rewrite forallb_forall. intros H s Hs _ arc Harc.
  specialize (H s Hs). rewrite forallb_forall in H. apply existsb_eqb_In, H. exact Harc.
Qed.

Lemma NoDup_b_spec (l : list nat) : NoDup_b l = true -> NoDup l.
Proof.
  induction l as [|x l IH]; cbn [NoDup_b]; intros H; constructor;
    apply andb_true_iff in H; destruct H as [Hx Hl].
  - intros Hin. apply existsb_eqb_In in Hin. rewrite Hin in Hx. discriminate.
  - apply IH. exact Hl.
Qed.

Lemma deterministic_b_spec (st : store) (universe : list nat) :
  forallb (deterministic_b st) universe = true ->
  forall s, In s universe -> deterministic st s.
Proof.
  rewrite forallb_forall. intros H s Hs. specialize (H s Hs).
  apply andb_true_iff in H. destruct H as [Hnd Halts]. split.
  - apply NoDup_b_spec. exact Hnd.
  - apply Forall_forall. intros a Ha. rewrite forallb_forall in Halts.
    apply Z.ltb_lt, Halts. exact Ha.
Qed.

Lemma in_use_b_spec (st : store) (used : list nat) :
  in_use_b st used = true -> in_use st used.
Proof.
  unfold in_use_b. intros H. apply andb_true_iff in H. destruct H as [H Hused].
  apply andb_true_iff in H. destruct H as [Hfree Hnd]. split; [|split].
  - apply Forall_forall. intros s Hs. rewrite forallb_forall in Hfree.
    apply Nat.ltb_lt, Hfree. exact Hs.
  - apply NoDup_b_spec. exact Hnd.
  - intros u Hu. rewrite forallb_forall in Hused. specialize (Hused u Hu).
    apply andb_true_iff in Hused. destruct Hused as [Hlt Hnf]. split.
    + apply Nat.ltb_lt. exact Hlt.
    + intros Hin. apply existsb_eqb_In in Hin. rewrite Hin in Hnf. discriminate.
Qed.

(** The units [u1] and [u2] exclude each other; the insn [a] reserves
    [u1], the insn [b] reserves [u2]. *)
Definition exclusive_decls : list decl :=
  fst (Cycles.add_advance_cycle_insn_decl
         [dm_unit 0; dm_unit 1; dm_insn_reserv 1 (Some (rm_unit 0));
          dm_insn_reserv 1 (Some (rm_unit 1))]).

Definition exclusive_units : list unit_decl :=
  [mk_unit_decl None false None 0 0 [1%nat] [] [] [] [] false;
   mk_unit_decl None false None 0 0 [0%nat] [] [] [] [] false].

(** [create_automata] on this description, without [-ndfa], up to
    [NDFA_to_DFA]: the automaton and the states. *)
Definition exclusive_DFA : M automaton_t :=
  automaton1 <- create_alt_states 1 (fun _ => 0%nat) 4
                  (fun d => match nth d exclusive_decls dm_automaton with
                            | dm_insn_reserv _ (Some r) => r
                            | _ => rm_nothing
                            end)
                  (mk_automaton (create_ainsns exclusive_decls 0) None 0 0) ;;
  automaton2 <- make_automaton 2 8 [2; 1] [[]; []] [[]; []] [[]; []] [[]; []] 1
                  exclusive_units false 4 20
                  (form_ainsn_with_same_reservs 4 automaton1) ;;
  NDFA_to_DFA 1 false exclusive_decls 20 automaton2 ;;;
  ret automaton2.

(** What [NDFA_to_DFA] leaves: the start state 2 enters the state 0,
    that reserves [u1], by [a] (the insn 0), and the state 1, that
    reserves [u2], by [b]; both have the arc of a new cycle to the
    start state and no other. *)
Definition exclusive_automaton : automaton_t :=
  mk_automaton
    [mk_ainsn 2 [0%nat] [0%nat] true; mk_ainsn 3 [1%nat] [1%nat] true;
     mk_ainsn 4 [] [] true] None 0 2.

Definition exclusive_states : store :=
  mk_store
    [mk_state [1] 0 [mk_arc 4 2 2 1] true true [];
     mk_state [2] 0 [mk_arc 3 2 2 1] true true [];
     mk_state [0] 0 [mk_arc 2 2 2 1; mk_arc 1 1 1 1; mk_arc 0 0 0 1] true true [];
     mk_state [0] 0 [] false false []]
    [3%nat] [2%nat; 1%nat; 0%nat] 5.

(** The reservations of the state that the insns [insns] lead to. *)
Definition final_reservs (st : store) (s : nat) (insns : list nat) : option reserv_sets_t :=
  option_map (fun s' => reservs (the_state st s')) (final_state st s insns).

(** The automaton of the two units: [minimize_DFA] puts the states 0
    and 1 in one class, and the state 3 of this class is what [a] and
    [b] lead to; the reservations [u1] of the state 0 and [u2] of the
    state 1 are the reservations of no state of the minimized automaton.
    The state 3 has the reservations it had as a free state, and the
    states 0 and 1 as its [component_states]. *)
Lemma minimize_DFA_merges_reservations :
  exclusive_DFA initiate_states = Done (exclusive_automaton, exclusive_states)
  /\ final_reservs exclusive_states 2 [0%nat] = Some [1]
  /\ final_reservs exclusive_states 2 [1%nat] = Some [2]
  /\ exists automaton' st',
       minimize_DFA 1 exclusive_units 20 exclusive_automaton
         (mk_nums (fun _ => 0%nat) (fun _ => 0%nat)) (fun s => s) exclusive_states
       = Done (automaton', st')
       /\ start_state automaton' = 2%nat
       /\ final_state st' 2 [0%nat] = Some 3%nat
       /\ final_state st' 2 [1%nat] = Some 3%nat
       /\ final_reservs st' 2 [0%nat] = Some [0]
       /\ final_reservs st' 2 [1%nat] = Some [0]
       /\ component_states (the_state st' 3) = [0%nat; 1%nat].
Proof.
  split; [vm_compute; reflexivity|]. split; [reflexivity|]. split; [reflexivity|].
  eexists. eexists. split; [vm_compute; reflexivity|]. repeat split.
Qed.

End Minimize.
(** ** The units a state reserves on its first cycle *)

Module ReservedUnits.
Import Bits Reservs IR Automata.
Import Transform(outcome, Done, Abort, NoFuel).

Local Open Scope heap_scope.

(** The loop of [expand_automata] over the declarations: the field
    [query_num] of the query units and [description->query_units_num]. *)
Fixpoint set_query_nums (decls : list decl) (units_array : list unit_decl)
    (query_num : nat -> nat) (query_units_num : nat) : (nat -> nat) * nat :=
  match decls with
  | [] => (query_num, query_units_num)
  | dm_unit unit_num :: decls' =>
    if query_p (nth unit_num units_array (gen_cpu_unit None))
    then set_query_nums decls' units_array
           (Minimize.upd query_num unit_num query_units_num) (S query_units_num)
    else set_query_nums decls' units_array query_num query_units_num
  | _ :: decls' => set_query_nums decls' units_array query_num query_units_num
  end.

(** [set_order_state_num] on the states that [pass_states] meets. *)
Fixpoint set_order_state_nums (states : list nat) (curr_state_order_num : nat)
    (order_state_num : nat -> nat) : nat -> nat :=
  match states with
  | [] => order_state_num
  | state :: states' =>
    set_order_state_nums states' (S curr_state_order_num)
      (Minimize.upd order_state_num state curr_state_order_num)
  end.

(** [enumerate_states (automaton)]: the field [order_state_num] of the
    states. *)
Definition enumerate_states (fuel : nat) (st : store) (automaton : automaton_t)
    (order_state_num : nat -> nat) : option (nat -> nat) :=
  match Minimize.pass_states st fuel automaton with
  | None => None
  | Some states => Some (set_order_state_nums states 0 order_state_num)
  end.

Section Table.

Variable max_cycles_num : nat.
Variable units_array : list unit_decl.
(** The field [query_num] of each unit, the field [order_state_num] of
    each state, and [description->query_units_num]. *)
Variable query_num : nat -> nat.
Variable order_state_num : nat -> nat.
Variable query_units_num : nat.

Definition state_byte_size : nat := (query_units_num + 7) / 8.

(** [VLA_HWINT (reserved_units_table, index) += value]; [Abort] stands
    for an index outside the vector. *)
Definition add_to (reserved_units_table : list Z) (index : nat) (value : Z)
    : outcome (list Z) :=
  if (index <? length reserved_units_table)%nat
  then Done (set_nth index (nth index reserved_units_table 0 + value) reserved_units_table)
  else Abort.

(** The loop of [output_reserved_units_table] over the units, from the
    unit [i] on, for the state [curr_state]. *)
Fixpoint reserved_units_loop (st : store) (curr_state : nat) (units : list unit_decl)
    (i : nat) (reserved_units_table : list Z) : outcome (list Z) :=
  match units with
  | [] => Done reserved_units_table
  | unit :: units' =>
    if query_p unit then
      match first_cycle_unit_presence max_cycles_num st curr_state i with
      | Some true =>
        match add_to reserved_units_table
                (order_state_num curr_state * state_byte_size + query_num i / 8)
                (Z.shiftl 1 (Z.of_nat (query_num i mod 8))) with
        | Done table' => reserved_units_loop st curr_state units' (S i) table'
        | Abort => Abort
        | NoFuel => NoFuel
        end
      | Some false => reserved_units_loop st curr_state units' (S i) reserved_units_table
      | None => Abort
      end
    else reserved_units_loop st curr_state units' (S i) reserved_units_table
  end.

(** The loop over [output_states_vect]. *)
Fixpoint reserved_states_loop (st : store) (output_states_vect : list nat)
    (reserved_units_table : list Z) : outcome (list Z) :=
  match output_states_vect with
  | [] => Done reserved_units_table
  | curr_state :: states' =>
    match reserved_units_loop st curr_state units_array 0 reserved_units_table with
    | Done table' => reserved_states_loop st states' table'
    | Abort => Abort
    | NoFuel => NoFuel
    end
  end.

(** [output_reserved_units_table (automaton)]: the vector it prints. *)
Definition output_reserved_units_table (fuel : nat) (st : store) (automaton : automaton_t)
    : outcome (list Z) :=
  match Minimize.pass_states st fuel automaton with
  | None => NoFuel
  | Some output_states_vect =>
    reserved_states_loop st output_states_vect
      (repeat 0 (length output_states_vect * state_byte_size))
  end.

End Table.

(** The state whose reservations stand for those of [state]: the first
    of its component states, or [state] if it has none. *)
Definition first_component (st : store) (state : nat) : nat :=
  hd state (component_states (the_state st state)).

(** The reservations of the state [s] on its first cycle. *)
Definition first_cycle_reservs (st : store) (s : nat) : Z :=
  nth 0 (reservs (the_state st s)) 0.

Lemma first_cycle_unit_presence_spec (max_cycles_num : nat) (st : store)
    (state unit_num : nat) :
  (0 < max_cycles_num)%nat ->
  first_cycle_unit_presence max_cycles_num st state unit_num
  = Some (TEST_BIT (first_cycle_reservs st (first_component st state)) unit_num).
Proof.
  intros Hcycles. unfold first_cycle_unit_presence, first_component, first_cycle_reservs.
  destruct (component_states (the_state st state)) as [|c cs]; cbn [hd];
    unfold test_unit_reserv; destruct (Nat.leb_spec max_cycles_num 0); try lia; reflexivity.
Qed.

(** *** The first of the sorted alt states *)

Lemma insert_sorted_head (x : nat) (l : list nat) :
  exists rest, insert_sorted x l = Nat.min x (hd x l) :: rest.
Proof.
  destruct l as [|y l]; cbn [insert_sorted hd].
  - exists []. rewrite Nat.min_id. reflexivity.
  - destruct (Nat.leb_spec x y).
    + exists (y :: l). rewrite Nat.min_l by lia. reflexivity.
    + exists (insert_sorted x l). rewrite Nat.min_r by lia. reflexivity.
Qed.

Lemma qsort_head (x : nat) (l : list nat) :
  exists first rest,
    qsort (x :: l) = first :: rest
    /\ In first (x :: l) /\ forall c, In c (x :: l) -> (first <= c)%nat.
Proof.
  revert x. induction l as [|y l IH]; intros x.
  - exists x, []. split; [reflexivity|]. split; [left; reflexivity|].
    intros c [<-|[]]. lia.
  - destruct (IH y) as (first & rest & E & Hin & Hmin).
    change (qsort (x :: y :: l)) with (insert_sorted x (qsort (y :: l))). rewrite E.
    destruct (insert_sorted_head x (first :: rest)) as (rest' & ->). cbn [hd].
    exists (Nat.min x first), rest'. split; [reflexivity|]. split.
    + destruct (Nat.min_spec x first) as [[_ ->]|[_ ->]]; [left; reflexivity | right; exact Hin].
    + intros c [<-|Hc]; [lia|]. specialize (Hmin c Hc). lia.
Qed.

Lemma uniq_sort_alt_states_head (x : nat) (l : list nat) :
  exists first rest,
    uniq_sort_alt_states (x :: l) = first :: rest
    /\ In first (x :: l) /\ forall c, In c (x :: l) -> (first <= c)%nat.
Proof.
  destruct (qsort_head x l) as (first & rest & E & Hin & Hmin).
  unfold uniq_sort_alt_states. rewrite E. exists first, (uniq_loop first rest). auto.
Qed.

(** *** An insn with two alternatives *)

(** The query units [u1] and [u2], and the insn [i] with the
    reservation [u1 | u2]. *)
Definition alternative_decls : list decl :=
  fst (Cycles.add_advance_cycle_insn_decl
         [dm_unit 0; dm_unit 1;
          dm_insn_reserv 1 (Some (rm_oneof [rm_unit 0; rm_unit 1]))]).

Definition alternative_units : list unit_decl :=
  [gen_query_cpu_unit None; gen_query_cpu_unit None].

(** [create_automata] on this description, with [-ndfa], up to
    [NDFA_to_DFA]. *)
Definition alternative_DFA : M automaton_t :=
  automaton1 <- create_alt_states 1 (fun _ => 0%nat) 3
                  (fun d => match nth d alternative_decls dm_automaton with
                            | dm_insn_reserv _ (Some r) => r
                            | _ => rm_nothing
                            end)
                  (mk_automaton (create_ainsns alternative_decls 0) None 0 0) ;;
  automaton2 <- make_automaton 2 8 [0; 0] [[]; []] [[]; []] [[]; []] [[]; []] 1
                  alternative_units true 3 20
                  (form_ainsn_with_same_reservs 3 automaton1) ;;
  NDFA_to_DFA 1 true alternative_decls 20 automaton2 ;;;
  ret automaton2.

(** What [NDFA_to_DFA] leaves: the state 0 reserves [u2], the state 1
    reserves [u1], and the start state 2 enters by [i] the state 4
    composed of the two. *)
Definition alternative_automaton : automaton_t :=
  mk_automaton [mk_ainsn 2 [1%nat; 0%nat] [0%nat; 1%nat] true; mk_ainsn 3 [] [] true]
    None 0 2.

Definition alternative_states : store :=
  mk_store
    [mk_state [2] 0 [mk_arc 4 2 1 1; mk_arc 3 3 0 1] true false [];
     mk_state [1] 0 [mk_arc 7 2 1 1; mk_arc 6 3 0 1] true false [];
     mk_state [0] 0 [mk_arc 2 2 1 1; mk_arc 0 4 0 1] true true [];
     mk_state [3] 0 [mk_arc 5 2 1 1] true true [];
     mk_state [0] 0 [mk_arc 9 3 0 1; mk_arc 8 2 1 1] false true [0%nat; 1%nat]]
    [] [4%nat; 3%nat; 2%nat; 1%nat; 0%nat] 10.

Definition alternative_query_num : nat -> nat :=
  fst (set_query_nums alternative_decls alternative_units (fun _ => 0%nat) 0).

Definition alternative_order_state_num : nat -> nat :=
  match enumerate_states 20 alternative_states alternative_automaton (fun _ => 0%nat) with
  | Some order_state_num => order_state_num
  | None => fun _ => 0%nat
  end.

(** The state 4 that [i] leads to has the component states 0, that
    reserves [u2], and 1, that reserves [u1]: the test finds [u2]
    reserved and [u1] not, and the byte of the state 4 in the vector
    of [output_reserved_units_table] (the second one) has the bit of
    [u2] and not the bit of [u1]. *)
Lemma composed_state_reserves_first_alternative :
  alternative_DFA initiate_states = Done (alternative_automaton, alternative_states)
  /\ component_states (the_state alternative_states 4) = [0%nat; 1%nat]
  /\ reservs (the_state alternative_states 0) = [2]
  /\ reservs (the_state alternative_states 1) = [1]
  /\ test_unit_reserv 1 (reservs (the_state alternative_states 1)) 0 0 = Some true
  /\ first_cycle_unit_presence 1 alternative_states 4 0 = Some false
  /\ first_cycle_unit_presence 1 alternative_states 4 1 = Some true
  /\ map alternative_order_state_num [2%nat; 4%nat; 3%nat] = [0%nat; 1%nat; 2%nat]
  /\ output_reserved_units_table 1 alternative_units alternative_query_num
       alternative_order_state_num 2 20 alternative_states alternative_automaton
     = Done [0; 2; 3].
Proof. repeat split; vm_compute; reflexivity. Qed.

End ReservedUnits.

From Stdlib Require Import Sorted.

(** ** Lists of alternative states *)

Module AltStates.
Import Automata.

Local Open Scope nat_scope.

Lemma insert_sorted_In (x : nat) (l : list nat) (y : nat) :
  In y (insert_sorted x l) <-> y = x \/ In y l.
Proof.
  induction l as [|z l IH]; cbn [insert_sorted].
  - cbn. intuition.
  - destruct (x <=? z); cbn [In]; [intuition|]. rewrite IH. intuition.
Qed.

Lemma insert_sorted_sorted (x : nat) (l : list nat) :
  StronglySorted le l -> StronglySorted le (insert_sorted x l).
Proof.
  induction 1 as [|z l Hl IH Hz]; cbn [insert_sorted].
  - repeat constructor.
  - destruct (Nat.leb_spec x z).
    + constructor; [constructor; assumption|].
      constructor; [assumption|]. rewrite Forall_forall in *. intros y Hy.
      specialize (Hz y Hy). lia.
    + constructor; [exact IH|]. apply Forall_forall. intros y Hy.
      apply insert_sorted_In in Hy. destruct Hy as [->|Hy]; [lia|].
      rewrite Forall_forall in Hz. auto.
Qed.

Lemma qsort_In (l : list nat) (y : nat) : In y (qsort l) <-> In y l.
Proof.
  induction l as [|x l IH]; [reflexivity|].
  change (qsort (x :: l)) with (insert_sorted x (qsort l)).
  rewrite insert_sorted_In, IH. cbn. intuition.
Qed.

Lemma qsort_sorted (l : list nat) : StronglySorted le (qsort l).
Proof.
  induction l as [|x l IH]; [constructor|].
  change (qsort (x :: l)) with (insert_sorted x (qsort l)).
  apply insert_sorted_sorted. exact IH.
Qed.

Lemma uniq_loop_spec (rest : list nat) :
  forall prev, StronglySorted le (prev :: rest) ->
  StronglySorted lt (prev :: uniq_loop prev rest)
  /\ forall y, In y (prev :: uniq_loop prev rest) <-> In y (prev :: rest).
Proof.
  induction rest as [|x rest IH]; intros prev Hs; cbn [uniq_loop].
  - split; [repeat constructor | reflexivity].
  - inversion Hs as [|? ? Hs' Hprev]; subst.
    inversion Hprev as [|? ? Hpx Hprev']; subst.
    destruct (Nat.eqb_spec x prev) as [->|Hne].
    + destruct (IH prev) as [Hsorted Hin].
      { constructor; [|exact Hprev']. inversion Hs'; assumption. }
      split; [exact Hsorted|]. intros y. rewrite Hin. cbn. intuition.
    + destruct (IH x Hs') as [Hsorted Hin]. split.
      * constructor; [exact Hsorted|]. apply Forall_forall. intros y Hy.
        apply Hin in Hy. inversion Hs' as [|? ? _ Hx]; subst.
        rewrite Forall_forall in Hx.
        destruct Hy as [<-|Hy]; [lia|]. specialize (Hx y Hy). lia.
      * intros y. cbn [In]. cbn [In] in Hin. rewrite Hin. intuition.
Qed.

Lemma uniq_sort_alt_states_spec (alt_states_list : list nat) :
  StronglySorted lt (uniq_sort_alt_states alt_states_list)
  /\ forall state, In state (uniq_sort_alt_states alt_states_list)
                   <-> In state alt_states_list.
Proof.
  unfold uniq_sort_alt_states.
  pose proof (qsort_sorted alt_states_list) as Hs.
  pose proof (qsort_In alt_states_list) as Hin.
  destruct (qsort alt_states_list) as [|x rest].
  - split; [constructor | exact Hin].
  - destruct (uniq_loop_spec rest x Hs) as [Hsorted Hsame].
    split; [exact Hsorted|]. intros y. rewrite Hsame. apply Hin.
Qed.

(** [uniq_sort_alt_states] returns the states of the list it is given,
    each once, in the order of their [unique_num]. *)
Theorem uniq_sort_alt_states_sorted (alt_states_list : list nat) :
  StronglySorted lt (uniq_sort_alt_states alt_states_list)
  /\ forall state, In state (uniq_sort_alt_states alt_states_list)
                   <-> In state alt_states_list.
Proof. exact (uniq_sort_alt_states_spec alt_states_list). Qed.

Lemma alt_states_eq_eq (l1 l2 : list nat) : alt_states_eq l1 l2 = true <-> l1 = l2.
Proof.
  revert l2. induction l1 as [|x l1 IH]; intros [|y l2]; cbn [alt_states_eq];
    try (split; [discriminate | discriminate]); [tauto|].
  rewrite andb_true_iff, Nat.eqb_eq, IH. split; [intros [-> ->]; reflexivity|].
  intros H. injection H as -> ->. auto.
Qed.

Lemma sorted_same_elements (l1 : list nat) :
  forall l2, StronglySorted lt l1 -> StronglySorted lt l2 ->
  (forall y, In y l1 <-> In y l2) -> l1 = l2.
Proof.
  induction l1 as [|x l1 IH]; intros [|y l2] H1 H2 Hsame.
  - reflexivity.
  - exfalso. apply (proj2 (Hsame y)). left. reflexivity.
  - exfalso. apply (proj1 (Hsame x)). left. reflexivity.
  - inversion H1 as [|? ? H1' Hx]; subst. inversion H2 as [|? ? H2' Hy]; subst.
    rewrite Forall_forall in Hx, Hy.
    assert (x = y) as ->.
    { destruct (proj1 (Hsame x) (or_introl eq_refl)) as [->|Hxin]; [reflexivity|].
      destruct (proj2 (Hsame y) (or_introl eq_refl)) as [->|Hyin]; [reflexivity|].
      specialize (Hx y Hyin). specialize (Hy x Hxin). lia. }
    f_equal. apply IH; [assumption | assumption|].
    intros z. split; intros Hz.
    + destruct (proj1 (Hsame z) (or_intror Hz)) as [<-|H]; [|exact H].
      specialize (Hx y Hz). lia.
    + destruct (proj2 (Hsame z) (or_intror Hz)) as [<-|H]; [|exact H].
      specialize (Hy y Hz). lia.
Qed.

(** On the lists that [uniq_sort_alt_states] returns, [alt_states_eq]
    tells whether the two lists it was given hold the same states,
    whatever their order and their repetitions. *)
Theorem alt_states_eq_same_states (alt_states_1 alt_states_2 : list nat) :
  alt_states_eq (uniq_sort_alt_states alt_states_1) (uniq_sort_alt_states alt_states_2)
  = true
  <-> forall state, In state alt_states_1 <-> In state alt_states_2.
Proof.
  destruct (uniq_sort_alt_states_spec alt_states_1) as [Hs1 Hin1].
  destruct (uniq_sort_alt_states_spec alt_states_2) as [Hs2 Hin2].
  rewrite alt_states_eq_eq. split.
  - intros Heq y. rewrite <- Hin1, <- Hin2, Heq. reflexivity.
  - intros Hsame. apply sorted_same_elements; [assumption | assumption|].
    intros y. rewrite Hin1, Hin2. apply Hsame.
Qed.

End AltStates.

(** ** The abstract data [state] and [arcs] *)

Module StateData.
Import Bits Reservs IR Automata.
Import Transform(outcome, Done, Abort, NoFuel).

Local Open Scope nat_scope.

(** *** Reservations of a unit *)

(** The reservation set as the source keeps it: one bit string, the
    [chars_num] bytes of the cycles one after another
    ([chars_num = els_in_cycle_reserv * sizeof (set_el_t)]).  Bit
    [bitno] of the string is bit [bitno mod (chars_num * CHAR_BIT)] of
    the cycle [bitno / (chars_num * CHAR_BIT)]. *)
Fixpoint bit_string (chars_num : nat) (reservs : reserv_sets_t) : Z :=
  match reservs with
  | [] => 0%Z
  | el :: rest =>
      Z.lor el (Z.shiftl (bit_string chars_num rest) (Z.of_nat (chars_num * CHAR_BIT)))
  end.

Lemma TEST_BIT_bit_string (chars_num : nat) (reservs : reserv_sets_t) (bitno : nat) :
  0 < chars_num * CHAR_BIT ->
  Forall (units_only (chars_num * CHAR_BIT)) reservs ->
  TEST_BIT (bit_string chars_num reservs) bitno
  = TEST_BIT (nth (bitno / (chars_num * CHAR_BIT)) reservs 0%Z)
      (bitno mod (chars_num * CHAR_BIT)).
Proof.
  set (W := chars_num * CHAR_BIT). intros HW Hwf. revert bitno.
  induction Hwf as [|el rest Hel _ IH]; intros bitno.
  - cbn [bit_string]. rewrite TEST_BIT_0. destruct (bitno / W); cbn [nth]; now rewrite TEST_BIT_0.
  - cbn [bit_string]. fold W. rewrite TEST_BIT_lor.
    destruct (Nat.lt_ge_cases bitno W) as [Hlt|Hge].
    + rewrite Nat.div_small, Nat.mod_small by exact Hlt. cbn [nth].
      unfold TEST_BIT at 2. rewrite Z.shiftl_spec by lia.
      rewrite Z.testbit_neg_r by lia. apply orb_false_r.
    + rewrite (Hel bitno Hge). cbn [orb].
      unfold TEST_BIT at 1. rewrite Z.shiftl_spec by lia.
      replace (Z.of_nat bitno - Z.of_nat W)%Z with (Z.of_nat (bitno - W)) by lia.
      change (Z.testbit (bit_string chars_num rest) (Z.of_nat (bitno - W)))
        with (TEST_BIT (bit_string chars_num rest) (bitno - W)).
      rewrite IH.
      replace bitno with ((bitno - W) + 1 * W) at 3 4 by lia.
      rewrite Nat.div_add, Nat.Div0.mod_add by lia.
      replace ((bitno - W) / W + 1) with (S ((bitno - W) / W)) by lia.
      reflexivity.
Qed.

Lemma bitno_split (W cycle_num unit_num bitno : nat) :
  unit_num < W ->
  (cycle_num * W + unit_num =? bitno)
  = (bitno / W =? cycle_num) && (unit_num =? bitno mod W).
Proof.
  intros Hu.
  destruct (Nat.eqb_spec (cycle_num * W + unit_num) bitno) as [<-|Hne].
  - rewrite Nat.div_add_l, Nat.div_small, Nat.add_0_r by lia.
    rewrite Nat.add_comm, Nat.Div0.mod_add, Nat.mod_small by lia.
    rewrite !Nat.eqb_refl. reflexivity.
  - destruct (Nat.eqb_spec (bitno / W) cycle_num) as [Hc|]; [|reflexivity].
    destruct (Nat.eqb_spec unit_num (bitno mod W)) as [Hm|]; [|reflexivity].
    exfalso. apply Hne. rewrite (Nat.div_mod_eq bitno W) at 1. rewrite Hc, Hm. lia.
Qed.

Lemma set_unit_reserv_bit_string (max_cycles_num chars_num : nat) (reservs : reserv_sets_t)
    (cycle_num unit_num : nat) :
  length reservs = max_cycles_num ->
  Forall (units_only (chars_num * CHAR_BIT)) reservs ->
  unit_num < chars_num * CHAR_BIT ->
  cycle_num < max_cycles_num ->
  exists reservs',
    set_unit_reserv max_cycles_num reservs cycle_num unit_num = Some reservs'
    /\ length reservs' = max_cycles_num
    /\ Forall (units_only (chars_num * CHAR_BIT)) reservs'
    /\ bit_string chars_num reservs'
       = SET_BIT (bit_string chars_num reservs)
           (cycle_num * chars_num * CHAR_BIT + unit_num)
    /\ forall c' u', TEST_BIT (nth c' reservs' 0%Z) u'
                     = TEST_BIT (nth c' reservs 0%Z) u'
                       || ((c' =? cycle_num) && (unit_num =? u')).
Proof.
  set (W := chars_num * CHAR_BIT). intros Hlen Hwf Hunit Hcycle.
  destruct (set_unit_reserv_spec max_cycles_num reservs cycle_num unit_num Hcycle Hlen)
    as (reservs' & E & Hlen' & Hbits).
  assert (Forall (units_only W) reservs') as Hwf'.
  { apply Forall_forall. intros el Hel k Hk.
    destruct (In_nth _ _ 0%Z Hel) as (c & Hc & <-). rewrite Hbits.
    rewrite Forall_forall in Hwf.
    rewrite (Hwf (nth c reservs 0%Z) ltac:(apply nth_In; lia) k Hk).
    destruct (Nat.eqb_spec unit_num k); [lia|]. rewrite andb_false_r. reflexivity. }
  exists reservs'. repeat split; try assumption.
  apply Z.bits_inj'. intros n Hn.
  rewrite <- (Z2Nat.id n Hn).
  change (TEST_BIT (bit_string chars_num reservs') (Z.to_nat n)
          = TEST_BIT (SET_BIT (bit_string chars_num reservs)
                        (cycle_num * chars_num * CHAR_BIT + unit_num)) (Z.to_nat n)).
  rewrite TEST_BIT_SET_BIT, !TEST_BIT_bit_string by (assumption || (fold W; lia)).
  fold W. rewrite Hbits. f_equal.
  rewrite <- Nat.mul_assoc. fold W. symmetry. apply bitno_split. exact Hunit.
Qed.

(** [set_unit_reserv] aborts from cycle [max_cycles_num] on.  Below it,
    for a unit within the [chars_num * CHAR_BIT] bits of a cycle, it
    sets the bit [cycle_num * chars_num * CHAR_BIT + unit_num] of the
    bit string, the bit that [test_unit_reserv] reads for the cycle and
    the unit; the test then finds the unit, and every other unit of a
    cycle answers as before.  The reservations keep to the bits of
    their cycles. *)
Theorem set_unit_reserv_then_test (max_cycles_num chars_num : nat) (reservs : reserv_sets_t)
    (cycle_num unit_num : nat) :
  length reservs = max_cycles_num ->
  Forall (units_only (chars_num * CHAR_BIT)) reservs ->
  unit_num < chars_num * CHAR_BIT ->
  (max_cycles_num <= cycle_num ->
   set_unit_reserv max_cycles_num reservs cycle_num unit_num = None
   /\ test_unit_reserv max_cycles_num reservs cycle_num unit_num = None)
  /\ (cycle_num < max_cycles_num ->
      test_unit_reserv max_cycles_num reservs cycle_num unit_num
      = Some (TEST_BIT (bit_string chars_num reservs)
                (cycle_num * chars_num * CHAR_BIT + unit_num))
      /\ exists reservs',
        set_unit_reserv max_cycles_num reservs cycle_num unit_num = Some reservs'
        /\ length reservs' = max_cycles_num
        /\ Forall (units_only (chars_num * CHAR_BIT)) reservs'
        /\ bit_string chars_num reservs'
           = SET_BIT (bit_string chars_num reservs)
               (cycle_num * chars_num * CHAR_BIT + unit_num)
        /\ test_unit_reserv max_cycles_num reservs' cycle_num unit_num = Some true
        /\ forall cycle unit,
             cycle < max_cycles_num -> unit < chars_num * CHAR_BIT ->
             cycle <> cycle_num \/ unit <> unit_num ->
             test_unit_reserv max_cycles_num reservs' cycle unit
             = test_unit_reserv max_cycles_num reservs cycle unit).
Proof.
  intros Hlen Hwf Hunit. split.
  - intros Hge. unfold set_unit_reserv, test_unit_reserv.
    destruct (Nat.leb_spec max_cycles_num cycle_num); [split; reflexivity | lia].
  - intros Hlt. split.
    + unfold test_unit_reserv.
      destruct (Nat.leb_spec max_cycles_num cycle_num); [lia|]. f_equal.
      rewrite TEST_BIT_bit_string by (assumption || lia).
      rewrite <- Nat.mul_assoc.
      rewrite Nat.div_add_l, Nat.div_small, Nat.add_0_r by lia.
      rewrite Nat.add_comm, Nat.Div0.mod_add, Nat.mod_small by lia.
      reflexivity.
    + destruct (set_unit_reserv_bit_string max_cycles_num chars_num reservs cycle_num
                  unit_num Hlen Hwf Hunit Hlt)
        as (reservs' & E & Hlen' & Hwf' & Hstring & Hbits).
      exists reservs'. split; [exact E|]. split; [exact Hlen'|].
      split; [exact Hwf'|]. split; [exact Hstring|].
      unfold test_unit_reserv. split.
      * destruct (Nat.leb_spec max_cycles_num cycle_num); [lia|].
        rewrite Hbits, !Nat.eqb_refl, orb_true_r. reflexivity.
      * intros cycle unit Hcycle _ Hother.
        destruct (Nat.leb_spec max_cycles_num cycle); [lia|]. rewrite Hbits.
        destruct (Nat.eqb_spec cycle cycle_num), (Nat.eqb_spec unit_num unit);
          cbn [andb]; rewrite ?orb_false_r; try reflexivity.
        exfalso. destruct Hother; congruence.
Qed.

Lemma four_units_only : Forall (units_only (1 * CHAR_BIT)) [0; 4]%Z.
Proof.
  apply Forall_cons; [|apply Forall_cons; [|apply Forall_nil]]; intros k Hk.
  - apply TEST_BIT_0.
  - unfold TEST_BIT. change 4%Z with (2 ^ 2)%Z. rewrite Z.pow2_bits_eqb by lia.
    apply Z.eqb_neq. unfold CHAR_BIT in Hk. lia.
Qed.

Lemma set_unit_reserv_then_test_witness :
  (2 <= 1 ->
   set_unit_reserv 2 [0; 4]%Z 1 0 = None /\ test_unit_reserv 2 [0; 4]%Z 1 0 = None)
  /\ (1 < 2 ->
      test_unit_reserv 2 [0; 4]%Z 1 0
      = Some (TEST_BIT (bit_string 1 [0; 4]%Z) (1 * 1 * CHAR_BIT + 0))
      /\ exists reservs',
        set_unit_reserv 2 [0; 4]%Z 1 0 = Some reservs'
        /\ length reservs' = 2
        /\ Forall (units_only (1 * CHAR_BIT)) reservs'
        /\ bit_string 1 reservs'
           = SET_BIT (bit_string 1 [0; 4]%Z) (1 * 1 * CHAR_BIT + 0)
        /\ test_unit_reserv 2 reservs' 1 0 = Some true
        /\ forall cycle unit,
             cycle < 2 -> unit < 1 * CHAR_BIT ->
             cycle <> 1 \/ unit <> 0 ->
             test_unit_reserv 2 reservs' cycle unit
             = test_unit_reserv 2 [0; 4]%Z cycle unit).
Proof.
  apply (set_unit_reserv_then_test 2 1 [0; 4]%Z 1 0);
    [reflexivity | exact four_units_only | unfold CHAR_BIT; lia].
Defined.

(** *** Free states *)

(** A state that [free_state] has put aside is the state the next
    [get_free_state] returns: for the automaton asked for, without
    arcs, component states and marks.  Its reservations are cleared
    only when [with_reservs] is set; the other states stay as they
    are. *)
Theorem get_free_state_after_free_state (max_cycles_num : nat) (with_reservs : bool)
    (automaton' : nat) (st : store) (state : nat) :
  0 < max_cycles_num -> state < length (states st) ->
  exists st1 st2,
    free_state state st = Done (tt, st1)
    /\ get_free_state max_cycles_num with_reservs automaton' st1 = Done (state, st2)
    /\ the_state st2 state
       = mk_state (if with_reservs then alloc_empty_reserv_sets max_cycles_num
                   else reservs (the_state st state))
           automaton' [] false false []
    /\ free_states st2 = free_states st
    /\ state_table st2 = state_table st
    /\ length (states st2) = length (states st)
    /\ forall other, other <> state -> the_state st2 other = the_state st other.
Proof.
  intros Hcycles Hstate. unfold free_state, get_free_state. eexists. eexists.
  split; [reflexivity|]. cbn [free_states states state_table allocated_arcs_num].
  destruct (Nat.leb_spec max_cycles_num 0); [lia|]. split; [reflexivity|].
  unfold the_state. cbn [states free_states state_table].
  split; [rewrite nth_set_nth, Nat.eqb_refl by exact Hstate; reflexivity|].
  split; [reflexivity|]. split; [reflexivity|].
  split; [apply set_nth_length; exact Hstate|].
  intros other Hother. rewrite nth_set_nth by exact Hstate.
  destruct (Nat.eqb_spec other state); [contradiction | reflexivity].
Qed.

Lemma get_free_state_after_free_state_witness :
  exists st1 st2,
    free_state 0 two_states = Done (tt, st1)
    /\ get_free_state 2 false 7 st1 = Done (0, st2)
    /\ the_state st2 0
       = mk_state (if false then alloc_empty_reserv_sets 2
                   else reservs (the_state two_states 0))
           7 [] false false []
    /\ free_states st2 = free_states two_states
    /\ state_table st2 = state_table two_states
    /\ length (states st2) = length (states two_states)
    /\ forall other, other <> 0 -> the_state st2 other = the_state two_states other.
Proof.
  apply (get_free_state_after_free_state 2 false 7 two_states 0); cbn; lia.
Defined.

(** *** The table of states *)

Lemma reserv_sets_eq_iff (a b : reserv_sets_t) : reserv_sets_eq a b = true <-> a = b.
Proof.
  split; [apply reserv_sets_eq_eq|]. intros <-.
  induction a as [|x a IH]; [reflexivity|]. cbn [reserv_sets_eq].
  rewrite Z.eqb_refl, IH. reflexivity.
Qed.

Lemma state_eq_p_iff (a b : state) :
  state_eq_p a b = true
  <-> automaton a = automaton b
      /\ ((component_states a = [] /\ component_states b = [] /\ reservs a = reservs b)
          \/ (component_states a <> [] /\ component_states a = component_states b)).
Proof.
  unfold state_eq_p. destruct (Nat.eqb_spec (automaton a) (automaton b)) as [Ha|Ha];
    cbn [negb]; [|split; [discriminate | tauto]].
  destruct (component_states a) as [|x l] eqn:Ea, (component_states b) as [|y l'] eqn:Eb.
  - rewrite reserv_sets_eq_iff. split; [intros H; split; [exact Ha|]; left; auto|].
    intros [_ [(_ & _ & H)|(H & _)]]; [exact H | contradiction].
  - split; [discriminate|]. intros [_ [(_ & H & _)|(_ & H)]]; discriminate.
  - split; [discriminate|]. intros [_ [(H & _)|(_ & H)]]; discriminate.
  - rewrite AltStates.alt_states_eq_eq. split.
    + intros H. split; [exact Ha|]. right. split; [discriminate | exact H].
    + intros [_ [(H & _)|(_ & H)]]; [discriminate | exact H].
Qed.

Lemma state_eq_p_refl (a : state) : state_eq_p a a = true.
Proof.
  apply state_eq_p_iff. split; [reflexivity|].
  destruct (component_states a) eqn:E; [left; auto | right; split; [discriminate | reflexivity]].
Qed.

Lemma state_eq_p_sym (a b : state) : state_eq_p a b = true -> state_eq_p b a = true.
Proof.
  rewrite !state_eq_p_iff. intros [Ha [(H1 & H2 & H3)|(H1 & H2)]].
  - split; [auto|]. left. auto.
  - split; [auto|]. right. split; [congruence | auto].
Qed.

Lemma state_eq_p_trans (a b c : state) :
  state_eq_p a b = true -> state_eq_p b c = true -> state_eq_p a c = true.
Proof.
  rewrite !state_eq_p_iff.
  intros [Ha [(H1 & H2 & H3)|(H1 & H2)]] [Hb [(H4 & H5 & H6)|(H4 & H5)]];
    (split; [congruence|]).
  - left. split; [|split]; congruence.
  - contradiction.
  - rewrite H2 in H1. contradiction.
  - right. split; congruence.
Qed.

(** No two entries of [state_table] are the same for [state_eq_p]. *)
Definition table_unique (st : store) : Prop :=
  NoDup (state_table st)
  /\ forall entry_1 entry_2,
       In entry_1 (state_table st) -> In entry_2 (state_table st) ->
       state_eq_p (the_state st entry_1) (the_state st entry_2) = true ->
       entry_1 = entry_2.

Lemma insert_state_spec (st : store) (state : nat) :
  table_unique st ->
  exists entry st',
    insert_state state st = Done (entry, st')
    /\ states st' = states st
    /\ free_states st' = free_states st
    /\ In entry (state_table st')
    /\ state_eq_p (the_state st' entry) (the_state st' state) = true
    /\ table_unique st'
    /\ (forall e, In e (state_table st) -> In e (state_table st'))
    /\ forall other,
         state_eq_p (the_state st' other) (the_state st' state) = true ->
         insert_state other st' = Done (entry, st').
Proof.
  intros [Hnd Huniq]. unfold insert_state.
  assert (forall (tab : list nat) (sts : store) (entry other : nat),
            states sts = states st -> state_table sts = tab ->
            NoDup tab ->
            (forall e1 e2, In e1 tab -> In e2 tab ->
                           state_eq_p (the_state st e1) (the_state st e2) = true -> e1 = e2) ->
            In entry tab ->
            state_eq_p (the_state st entry) (the_state st state) = true ->
            state_eq_p (the_state st other) (the_state st state) = true ->
            find (fun e => state_eq_p (the_state sts e) (the_state sts other)) tab
            = Some entry) as Hlookup.
  { intros tab sts entry other Hsts Htab Hndt Hu Hentry Heq Hother.
    assert (forall s, the_state sts s = the_state st s) as Hsame
      by (intros s; unfold the_state; rewrite Hsts; reflexivity).
    destruct (find (fun e => state_eq_p (the_state sts e) (the_state sts other)) tab)
      as [e|] eqn:Ef.
    - apply find_some in Ef. destruct Ef as [He Hee]. rewrite !Hsame in Hee.
      f_equal. apply Hu; [exact He | exact Hentry|].
      apply (state_eq_p_trans _ _ _ Hee). apply state_eq_p_sym.
      apply (state_eq_p_trans _ _ _ Heq). apply state_eq_p_sym. exact Hother.
    - pose proof (find_none _ _ Ef entry Hentry) as Hno. cbn beta in Hno.
      rewrite !Hsame in Hno. rewrite (state_eq_p_trans _ _ _ Heq) in Hno; [discriminate|].
      apply state_eq_p_sym. exact Hother. }
  destruct (find (fun entry => state_eq_p (the_state st entry) (the_state st state))
              (state_table st)) as [entry|] eqn:Ef.
  - apply find_some in Ef. destruct Ef as [Hentry Heq].
    exists entry, st. split; [reflexivity|]. split; [reflexivity|]. split; [reflexivity|].
    split; [exact Hentry|]. split; [exact Heq|]. split; [split; assumption|].
    split; [auto|]. intros other Hother.
    rewrite (Hlookup (state_table st) st entry other eq_refl eq_refl Hnd Huniq Hentry Heq
               Hother).
    reflexivity.
  - eexists. eexists. split; [reflexivity|].
    set (st' := mk_store _ _ _ _).
    assert (forall s, the_state st' s = the_state st s) as Hsame by reflexivity.
    assert (~ In state (state_table st)) as Hnew.
    { intros Hin. pose proof (find_none _ _ Ef state Hin) as Hno. cbn beta in Hno.
      rewrite state_eq_p_refl in Hno. discriminate. }
    assert (forall e1 e2, In e1 (state :: state_table st) -> In e2 (state :: state_table st) ->
              state_eq_p (the_state st e1) (the_state st e2) = true -> e1 = e2) as Huniq'.
    { intros e1 e2 [<-|H1] [<-|H2] Heq; [reflexivity| | |auto].
      - apply state_eq_p_sym in Heq.
        pose proof (find_none _ _ Ef e2 H2) as Hno. cbn beta in Hno. congruence.
      - pose proof (find_none _ _ Ef e1 H1) as Hno. cbn beta in Hno. congruence. }
    split; [reflexivity|]. split; [reflexivity|]. split; [left; reflexivity|].
    split; [rewrite !Hsame; apply state_eq_p_refl|].
    split; [split; [constructor; assumption|]|].
    { intros e1 e2 H1 H2 Heq. rewrite !Hsame in Heq. apply Huniq'; assumption. }
    split; [intros e He; right; exact He|].
    intros other Hother. rewrite !Hsame in Hother.
    change (state_table st') with (state :: state_table st).
    rewrite (Hlookup (state :: state_table st) st' state other eq_refl eq_refl
               ltac:(constructor; assumption) Huniq' (or_introl eq_refl)
               (state_eq_p_refl _) Hother).
    reflexivity.
Qed.

(** [insert_state] returns an entry of the table that is the same
    state for [state_eq_p], the state itself when there was none.  It
    keeps the table without two entries for the same state and drops no
    entry, and from then on the same entry is returned for every state
    that is the same as the one inserted. *)
Theorem insert_state_entry (st : store) (state : nat) :
  table_unique st ->
  exists entry st',
    insert_state state st = Done (entry, st')
    /\ states st' = states st
    /\ free_states st' = free_states st
    /\ In entry (state_table st')
    /\ state_eq_p (the_state st' entry) (the_state st' state) = true
    /\ table_unique st'
    /\ (forall e, In e (state_table st) -> In e (state_table st'))
    /\ forall other,
         state_eq_p (the_state st' other) (the_state st' state) = true ->
         insert_state other st' = Done (entry, st').
Proof. exact (insert_state_spec st state). Qed.

Lemma two_states_unique : table_unique two_states.
Proof.
  split; [repeat constructor; cbn; intuition discriminate|].
  intros e1 e2 [<-|[<-|[]]] [<-|[<-|[]]] H; try reflexivity; discriminate H.
Qed.

Lemma insert_state_entry_witness :
  exists entry st',
    insert_state 1 two_states = Done (entry, st')
    /\ states st' = states two_states
    /\ free_states st' = free_states two_states
    /\ In entry (state_table st')
    /\ state_eq_p (the_state st' entry) (the_state st' 1) = true
    /\ table_unique st'
    /\ (forall e, In e (state_table two_states) -> In e (state_table st'))
    /\ forall other,
         state_eq_p (the_state st' other) (the_state st' 1) = true ->
         insert_state other st' = Done (entry, st').
Proof. apply (insert_state_entry two_states 1). exact two_states_unique. Defined.

(** *** The next cycle of a state *)

Lemma state_in_table_for_reservs (st : store) (result : nat) (entry : nat) (st' : store) :
  component_states (the_state st result) = [] ->
  state_in_table_for result st = Done (entry, st') ->
  reservs (the_state st' entry) = reservs (the_state st result)
  /\ automaton (the_state st' entry) = automaton (the_state st result)
  /\ In entry (state_table st')
  /\ states st' = states st.
Proof.
  intros Hcomp E. unfold state_in_table_for, bind, insert_state in E.
  destruct (find _ (state_table st)) as [e|] eqn:Efind.
  - apply find_some in Efind. destruct Efind as [Hin Heq].
    apply state_eq_p_iff in Heq. destruct Heq as [Ha [(_ & _ & Hr)|(Hne & Hc)]];
      [|rewrite Hcomp in Hc; contradiction].
    destruct (Nat.eqb_spec result e) as [->|Hne]; cbn in E; unfold ret in E;
      injection E as <- <-; auto.
  - rewrite Nat.eqb_refl in E. cbn in E. unfold ret in E. injection E as <- <-.
    repeat split. left. reflexivity.
Qed.

Lemma state_in_table_for_done (result : nat) (st : store) :
  exists entry st', state_in_table_for result st = Done (entry, st').
Proof.
  unfold state_in_table_for, bind, insert_state.
  destruct (find _ (state_table st)) as [e|].
  - destruct (negb (result =? e)); cbn; unfold ret; eauto.
  - rewrite Nat.eqb_refl. cbn. unfold ret. eauto.
Qed.

(** [state_shift], given a state in use, returns a state of the table,
    of the automaton of the given state, whose reservations on a cycle
    are those of the given state on the next cycle that the mask keeps,
    and none on the last cycle.  The units are those within the
    [chars_num * CHAR_BIT] bits of a cycle: past them the bit string of
    the source reaches the next cycle. *)
Theorem state_shift_next_cycle (max_cycles_num chars_num : nat) (st : store) (state : nat)
    (reservs_matter : reserv_sets_t) :
  0 < max_cycles_num ->
  free_states_allocated st ->
  ~ In state (free_states st) ->
  length (reservs (the_state st state)) = max_cycles_num ->
  length reservs_matter = max_cycles_num ->
  exists result st',
    state_shift max_cycles_num state reservs_matter st = Done (result, st')
    /\ In result (state_table st')
    /\ automaton (the_state st' result) = automaton (the_state st state)
    /\ forall cycle unit,
         cycle < max_cycles_num -> unit < chars_num * CHAR_BIT ->
         test_unit_reserv max_cycles_num (reservs (the_state st' result)) cycle unit
         = Some (if S cycle <? max_cycles_num
                 then TEST_BIT (nth (S cycle) (reservs (the_state st state)) 0%Z) unit
                      && TEST_BIT (nth cycle reservs_matter 0%Z) unit
                 else false).
Proof.
  intros Hcycles Hfree _ Hlen Hmask. unfold state_shift, bind at 1, read at 1.
  unfold bind at 1.
  destruct (get_free_state max_cycles_num true (automaton (the_state st state)) st)
    as [[r st1]| |] eqn:Eg;
    try (unfold get_free_state in Eg; destruct (Nat.leb_spec max_cycles_num 0); [lia|];
         destruct (free_states st); discriminate).
  destruct (get_free_state_spec _ _ _ _ _ _ Hfree Eg)
    as (Hr & _ & Hcomp & Haut & _ & Hres & _ & _ & _ & _).
  specialize (Hres eq_refl).
  unfold bind at 1, read at 1. unfold set_reservs, bind at 1, bind at 1, read, write.
  set (R := reserv_sets_and _ _).
  set (st2 := mk_store _ _ _ _).
  assert (the_state st2 r
          = mk_state R (automaton (the_state st1 r)) (first_out_arc (the_state st1 r))
              (it_was_placed_in_stack_for_NDFA_forming (the_state st1 r))
              (it_was_placed_in_stack_for_DFA_forming (the_state st1 r))
              (component_states (the_state st1 r))) as Hnode.
  { unfold the_state at 1, st2. cbn [states]. rewrite nth_set_nth by exact Hr.
    rewrite Nat.eqb_refl. reflexivity. }
  destruct (state_in_table_for_done r st2) as (entry & st' & Et). rewrite Et.
  destruct (state_in_table_for_reservs st2 r entry st') as (Hreservs & Hautomaton & Hin & _);
    [rewrite Hnode; exact Hcomp | exact Et|].
  exists entry, st'. split; [reflexivity|]. split; [exact Hin|].
  split; [rewrite Hautomaton, Hnode; exact Haut|].
  intros cycle unit Hcycle _. unfold test_unit_reserv.
  destruct (Nat.leb_spec max_cycles_num cycle); [lia|]. f_equal.
  rewrite Hreservs, Hnode. cbn [reservs]. subst R. rewrite Hres.
  assert (reserv_sets_shift (alloc_empty_reserv_sets max_cycles_num)
            (reservs (the_state st state))
          = tl (reservs (the_state st state)) ++ [0%Z]) as Hshift.
  { unfold reserv_sets_shift, alloc_empty_reserv_sets. rewrite Hlen. f_equal.
    destruct max_cycles_num as [|n]; [lia|].
    replace (S n - 1) with n by lia.
    replace (S n) with (n + 1) by lia. rewrite repeat_app, skipn_app, repeat_length.
    rewrite Nat.sub_diag. rewrite skipn_all2 by (rewrite repeat_length; lia).
    reflexivity. }
  rewrite Hshift.
  destruct (reserv_sets_and_nth (tl (reservs (the_state st state)) ++ [0%Z])
              reservs_matter) as [_ Hand].
  { rewrite length_app. cbn [length].
    destruct (reservs (the_state st state)); cbn [length tl] in *; lia. }
  rewrite Hand, TEST_BIT_land.
  assert (nth cycle (tl (reservs (the_state st state)) ++ [0%Z]) 0%Z
          = if S cycle <? max_cycles_num
            then nth (S cycle) (reservs (the_state st state)) 0%Z else 0%Z) as ->.
  { destruct (reservs (the_state st state)) as [|x rs] eqn:Ers;
      cbn [length tl nth] in *; [lia|].
    destruct (Nat.ltb_spec (S cycle) max_cycles_num).
    - apply app_nth1. lia.
    - rewrite app_nth2 by lia. replace (cycle - length rs) with 0 by lia. reflexivity. }
  destruct (S cycle <? max_cycles_num); [reflexivity|]. rewrite TEST_BIT_0. reflexivity.
Qed.

Lemma state_shift_next_cycle_witness :
  exists result st',
    state_shift 2 0 [3; 3]%Z two_states = Done (result, st')
    /\ In result (state_table st')
    /\ automaton (the_state st' result) = automaton (the_state two_states 0)
    /\ forall cycle unit,
         cycle < 2 -> unit < 1 * CHAR_BIT ->
         test_unit_reserv 2 (reservs (the_state st' result)) cycle unit
         = Some (if S cycle <? 2
                 then TEST_BIT (nth (S cycle) (reservs (the_state two_states 0)) 0%Z) unit
                      && TEST_BIT (nth cycle [3; 3]%Z 0%Z) unit
                 else false).
Proof.
  apply (state_shift_next_cycle 2 1 two_states 0 [3; 3]%Z);
    [lia | constructor | intros [] | reflexivity | reflexivity].
Defined.

(** *** Arcs *)

(** [add_arc] leaves the state with an arc to [to_state] marked by the
    insn.  When the state had such an arc, it is the arc returned and
    nothing changes: the [state_alts] given is not stored.  The arcs to
    other states or by other insns, and the other states, stay as they
    are. *)
Theorem add_arc_then_find_arc (from_state to_state' ainsn' : nat) (state_alts' : Z)
    (st : store) :
  from_state < length (states st) ->
  exists arc' st',
    add_arc from_state to_state' ainsn' state_alts' st = Done (arc_id arc', st')
    /\ find_arc (the_state st' from_state) to_state' ainsn' = Some arc'
    /\ to_state arc' = to_state' /\ insn arc' = ainsn'
    /\ match find_arc (the_state st from_state) to_state' ainsn' with
       | Some old => arc' = old /\ st' = st
       | None =>
         state_alts arc' = state_alts'
         /\ first_out_arc (the_state st' from_state)
            = arc' :: first_out_arc (the_state st from_state)
       end
    /\ (forall to_state'' ainsn'',
          to_state'' <> to_state' \/ ainsn'' <> ainsn' ->
          find_arc (the_state st' from_state) to_state'' ainsn''
          = find_arc (the_state st from_state) to_state'' ainsn'')
    /\ forall other, other <> from_state -> the_state st' other = the_state st other.
Proof.
  intros Hfrom. unfold add_arc, bind at 1, read at 1.
  destruct (find_arc (the_state st from_state) to_state' ainsn') as [old|] eqn:Ef.
  - exists old, st. split; [reflexivity|]. split; [exact Ef|].
    unfold find_arc in Ef. apply find_some in Ef. destruct Ef as [_ Heq].
    apply andb_true_iff in Heq. destruct Heq as [Hto Hinsn].
    apply Nat.eqb_eq in Hto. apply Nat.eqb_eq in Hinsn. auto.
  - set (new_arc := mk_arc (allocated_arcs_num st) to_state' ainsn' state_alts').
    unfold set_first_out_arc, bind, read, write, ret.
    cbn [states free_states state_table allocated_arcs_num arc_id].
    eexists new_arc. eexists. split; [reflexivity|].
    set (st' := mk_store _ _ _ _).
    assert (first_out_arc (the_state st' from_state)
            = new_arc :: first_out_arc (the_state st from_state)) as Harcs.
    { unfold the_state at 1, st'. cbn [states]. rewrite nth_set_nth by exact Hfrom.
      rewrite Nat.eqb_refl. reflexivity. }
    split; [|split; [reflexivity|split; [reflexivity|split; [split; [reflexivity|exact Harcs]|split]]]].
    + unfold find_arc. rewrite Harcs. cbn [find to_state insn new_arc].
      rewrite !Nat.eqb_refl. reflexivity.
    + intros to'' i'' Hother. unfold find_arc. rewrite Harcs.
      cbn [find to_state insn new_arc].
      destruct (Nat.eqb_spec to_state' to''), (Nat.eqb_spec ainsn' i''); cbn [andb];
        try reflexivity.
      exfalso. destruct Hother; congruence.
    + intros other Hother. unfold the_state, st'. cbn [states].
      rewrite nth_set_nth by exact Hfrom.
      destruct (Nat.eqb_spec other from_state); [contradiction | reflexivity].
Qed.

Lemma add_arc_then_find_arc_witness :
  exists arc' st',
    add_arc 0 1 5 2%Z two_states = Done (arc_id arc', st')
    /\ find_arc (the_state st' 0) 1 5 = Some arc'
    /\ to_state arc' = 1 /\ insn arc' = 5
    /\ match find_arc (the_state two_states 0) 1 5 with
       | Some old => arc' = old /\ st' = two_states
       | None =>
         state_alts arc' = 2%Z
         /\ first_out_arc (the_state st' 0) = arc' :: first_out_arc (the_state two_states 0)
       end
    /\ (forall to_state'' ainsn'',
          to_state'' <> 1 \/ ainsn'' <> 5 ->
          find_arc (the_state st' 0) to_state'' ainsn''
          = find_arc (the_state two_states 0) to_state'' ainsn'')
    /\ forall other, other <> 0 -> the_state st' other = the_state two_states other.
Proof. apply (add_arc_then_find_arc 0 1 5 2%Z two_states). cbn. lia. Defined.

Lemma unlink_arc_spec (arc' : nat) (arcs : list arc) :
  match unlink_arc arcs arc' with
  | Some rest =>
    exists before a after,
      arcs = before ++ a :: after /\ rest = before ++ after /\ arc_id a = arc'
      /\ ~ In arc' (map arc_id before)
  | None => ~ In arc' (map arc_id arcs)
  end.
Proof.
  induction arcs as [|a arcs IH]; cbn [unlink_arc]; [intros []|].
  destruct (Nat.eqb_spec (arc_id a) arc') as [Heq|Hne].
  - exists [], a, arcs. repeat split; [exact Heq | intros []].
  - destruct (unlink_arc arcs arc') as [rest|].
    + destruct IH as (before & b & after & -> & -> & Hb & Hnot).
      exists (a :: before), b, after. repeat split; [exact Hb|].
      intros [H|H]; [contradiction | exact (Hnot H)].
    + intros [H|H]; [contradiction | exact (IH H)].
Qed.

(** [remove_arc] aborts when the arc is not an arc of the state;
    else it takes this one arc out of the list of the state and leaves
    the other arcs in their order. *)
Theorem remove_arc_unlinks (from_state arc' : nat) (st : store) :
  from_state < length (states st) ->
  NoDup (map arc_id (first_out_arc (the_state st from_state))) ->
  (~ In arc' (map arc_id (first_out_arc (the_state st from_state))) ->
   remove_arc from_state arc' st = Abort)
  /\ (In arc' (map arc_id (first_out_arc (the_state st from_state))) ->
      exists st',
        remove_arc from_state arc' st = Done (tt, st')
        /\ first_out_arc (the_state st' from_state)
           = filter (fun a => negb (arc_id a =? arc'))
               (first_out_arc (the_state st from_state))
        /\ forall other, other <> from_state -> the_state st' other = the_state st other).
Proof.
  intros Hfrom Hnd. unfold remove_arc, bind, read.
  pose proof (unlink_arc_spec arc' (first_out_arc (the_state st from_state))) as Hu.
  destruct (unlink_arc (first_out_arc (the_state st from_state)) arc') as [rest|].
  - destruct Hu as (before & a & after & Harcs & -> & Ha & Hnot).
    split; [intros Hno; exfalso; apply Hno; rewrite Harcs, map_app; apply in_or_app;
            right; left; exact Ha|].
    intros _. unfold set_first_out_arc, bind, read, write. eexists. split; [reflexivity|].
    set (st' := mk_store _ _ _ _). split.
    + unfold the_state at 1, st'. cbn [states]. rewrite nth_set_nth by exact Hfrom.
      rewrite Nat.eqb_refl. cbn [first_out_arc]. rewrite Harcs in *.
      rewrite map_app in Hnd. cbn [map] in Hnd. apply NoDup_remove_2 in Hnd.
      rewrite filter_app. cbn [filter]. rewrite Ha, Nat.eqb_refl. cbn [negb].
      assert (forall l, ~ In arc' (map arc_id l) ->
                        filter (fun a0 => negb (arc_id a0 =? arc')) l = l) as Hkeep.
      { induction l as [|x l IHl]; intros Hl; [reflexivity|]. cbn [filter].
        destruct (Nat.eqb_spec (arc_id x) arc') as [Hx|Hx]; cbn [negb].
        - exfalso. apply Hl. left. exact Hx.
        - f_equal. apply IHl. intros H. apply Hl. right. exact H. }
      rewrite !Hkeep; [reflexivity| |exact Hnot].
      intros H. apply Hnd. rewrite Ha. apply in_or_app. right. exact H.
    + intros other Hother. unfold the_state, st'. cbn [states].
      rewrite nth_set_nth by exact Hfrom.
      destruct (Nat.eqb_spec other from_state); [contradiction | reflexivity].
  - split; [reflexivity | contradiction].
Qed.

Definition three_arcs : store :=
  mk_store [mk_state [0]%Z 0 [mk_arc 2 0 2 1; mk_arc 1 0 1 1; mk_arc 0 0 0 1] false false []]
    [] [0] 3.

Lemma remove_arc_unlinks_witness :
  (~ In 1 (map arc_id (first_out_arc (the_state three_arcs 0))) ->
   remove_arc 0 1 three_arcs = Abort)
  /\ (In 1 (map arc_id (first_out_arc (the_state three_arcs 0))) ->
      exists st',
        remove_arc 0 1 three_arcs = Done (tt, st')
        /\ first_out_arc (the_state st' 0)
           = filter (fun a => negb (arc_id a =? 1)) (first_out_arc (the_state three_arcs 0))
        /\ forall other, other <> 0 -> the_state st' other = the_state three_arcs other).
Proof.
  apply (remove_arc_unlinks 0 1 three_arcs).
  - cbn. lia.
  - cbn. repeat constructor; cbn; intuition discriminate.
Defined.

End StateData.

(** ** The states of an automaton and their classes *)

Module StateGraph.
Import Bits Reservs IR Automata Minimize.
Import Transform(outcome, Done, Abort, NoFuel).

Local Open Scope nat_scope.

(** The states that the arcs lead to from [start]. *)
Inductive achieved (st : store) (start : nat) : nat -> Prop :=
| achieved_start : achieved st start start
| achieved_arc (s : nat) (arc' : arc) :
    achieved st start s -> In arc' (out_arcs st s) -> achieved st start (to_state arc').

Section Pass.

Variable st : store.

Lemma pass_state_graph_Forall (P : nat -> Prop) :
  (forall s arc', P s -> In arc' (out_arcs st s) -> P (to_state arc')) ->
  forall fuel s passed passed',
    pass_state_graph st fuel s passed = Some passed' ->
    P s -> Forall P passed -> Forall P passed'.
Proof.
  intros Hstep. induction fuel as [|fuel IH]; intros s passed passed' E Hs Hpassed;
    cbn [pass_state_graph] in E; [discriminate|].
  destruct (existsb (Nat.eqb s) passed); [injection E as <-; exact Hpassed|].
  fold (out_arcs st s) in E.
  assert (forall arc', In arc' (out_arcs st s) -> P (to_state arc')) as Htargets
    by (intros arc' Harc; exact (Hstep s arc' Hs Harc)).
  assert (Forall P (passed ++ [s])) as Hp
    by (apply Forall_app; split; [exact Hpassed | repeat constructor; exact Hs]).
  revert E Htargets Hp. generalize (passed ++ [s]). generalize (out_arcs st s).
  induction l as [|arc' arcs IHarcs]; intros p E Htargets Hp.
  - injection E as <-. exact Hp.
  - destruct (pass_state_graph st fuel (to_state arc') p) as [p1|] eqn:E1; [|discriminate].
    apply (IHarcs p1 E); [intros a Ha; apply Htargets; right; exact Ha|].
    apply (IH _ _ _ E1); [apply Htargets; left; reflexivity | exact Hp].
Qed.

Lemma pass_state_graph_prefix :
  forall fuel s passed passed',
    pass_state_graph st fuel s passed = Some passed' ->
    exists l, passed' = passed ++ l /\ (~ In s passed -> hd_error l = Some s).
Proof.
  induction fuel as [|fuel IH]; intros s passed passed' E;
    cbn [pass_state_graph] in E; [discriminate|].
  destruct (existsb (Nat.eqb s) passed) eqn:Epassed.
  - injection E as <-. exists []. rewrite app_nil_r. split; [reflexivity|].
    intros Hnew. exfalso. apply Hnew. apply existsb_eqb_In. exact Epassed.
  - assert (exists l, passed' = (passed ++ [s]) ++ l) as (l & ->).
    { revert E. generalize (passed ++ [s]). generalize (first_out_arc (the_state st s)).
      induction l as [|arc' arcs IHarcs]; intros p E.
      - injection E as <-. exists []. rewrite app_nil_r. reflexivity.
      - destruct (pass_state_graph st fuel (to_state arc') p) as [p1|] eqn:E1;
          [|discriminate].
        destruct (IH _ _ _ E1) as (l1 & -> & _). destruct (IHarcs _ E) as (l2 & ->).
        exists (l1 ++ l2). rewrite app_assoc. reflexivity. }
    exists (s :: l). rewrite <- app_assoc. split; reflexivity.
Qed.

Lemma achieved_closed (start : nat) (states : list nat) :
  closed_except st [] states -> In start states ->
  forall s, achieved st start s -> In s states.
Proof.
  intros Hclosed Hstart s Hs. induction Hs as [|s arc' _ IH Harc]; [exact Hstart|].
  exact (Hclosed s IH (fun H => H) arc' Harc).
Qed.

Lemma pass_states_achieved_spec (universe : list nat) (fuel : nat) (automaton : automaton_t) :
  closed_except st [] universe ->
  In (start_state automaton) universe ->
  length universe < fuel ->
  exists all_achieved_states,
    pass_states st fuel automaton = Some all_achieved_states
    /\ NoDup all_achieved_states
    /\ hd_error all_achieved_states = Some (start_state automaton)
    /\ forall s, In s all_achieved_states <-> achieved st (start_state automaton) s.
Proof.
  intros Hclosed Hstart Hfuel.
  destruct (pass_states_spec st universe Hclosed fuel automaton Hstart Hfuel)
    as (all & E & Hcl & Hin & _ & Hnd).
  exists all. split; [exact E|]. split; [exact Hnd|]. unfold pass_states in E. split.
  - destruct (pass_state_graph_prefix _ _ _ _ E) as (l & -> & Hhd). apply Hhd. intros [].
  - intros s. split.
    + revert s. apply Forall_forall.
      apply (pass_state_graph_Forall (achieved st (start_state automaton))
               (achieved_arc st (start_state automaton)) _ _ _ _ E);
        constructor.
    + apply achieved_closed; assumption.
Qed.

End Pass.

(** [pass_states] applies the function to the start state first, and
    then once to each state that the arcs lead to from the start state,
    and to no other state. *)
Theorem pass_states_achieved (st : store) (universe : list nat) (fuel : nat)
    (automaton : automaton_t) :
  closed_except st [] universe ->
  In (start_state automaton) universe ->
  length universe < fuel ->
  exists all_achieved_states,
    pass_states st fuel automaton = Some all_achieved_states
    /\ NoDup all_achieved_states
    /\ hd_error all_achieved_states = Some (start_state automaton)
    /\ forall s, In s all_achieved_states <-> achieved st (start_state automaton) s.
Proof. exact (pass_states_achieved_spec st universe fuel automaton). Qed.

Lemma pass_states_achieved_witness :
  exists all_achieved_states,
    pass_states exclusive_states 20 exclusive_automaton = Some all_achieved_states
    /\ NoDup all_achieved_states
    /\ hd_error all_achieved_states = Some (start_state exclusive_automaton)
    /\ forall s, In s all_achieved_states
                 <-> achieved exclusive_states (start_state exclusive_automaton) s.
Proof.
  apply (pass_states_achieved exclusive_states [0; 1; 2] 20 exclusive_automaton).
  - apply closed_b_spec. vm_compute. reflexivity.
  - right. right. left. reflexivity.
  - cbn [length]. lia.
Defined.

(** *** The numbers of the states *)

Lemma set_order_state_nums_spec (states : list nat) :
  forall curr_state_order_num order_state_num,
    NoDup states ->
    (forall i s, nth_error states i = Some s ->
                 ReservedUnits.set_order_state_nums states curr_state_order_num
                   order_state_num s = curr_state_order_num + i)
    /\ forall s, ~ In s states ->
                 ReservedUnits.set_order_state_nums states curr_state_order_num
                   order_state_num s = order_state_num s.
Proof.
  induction states as [|state states IH]; intros c num Hnd;
    cbn [ReservedUnits.set_order_state_nums].
  - split; [intros [|i] s H; discriminate | reflexivity].
  - inversion Hnd as [|? ? Hnew Hnd']; subst.
    destruct (IH (S c) (upd num state c) Hnd') as [Hin Hout]. split.
    + intros [|i] s H; cbn [nth_error] in H.
      * injection H as <-. rewrite (Hout state Hnew). unfold upd.
        rewrite Nat.eqb_refl. lia.
      * rewrite (Hin i s H). lia.
    + intros s Hs. rewrite Hout by (intros H; apply Hs; right; exact H).
      unfold upd. destruct (Nat.eqb_spec s state) as [->|_]; [|reflexivity].
      exfalso. apply Hs. left. reflexivity.
Qed.

(** [enumerate_states] gives the start state the number 0 and the
    states achieved from it the numbers below their count, each number
    to one state; the number of any other state stays. *)
Theorem enumerate_states_numbers (st : store) (universe : list nat) (fuel : nat)
    (automaton : automaton_t) (order_state_num : nat -> nat) :
  closed_except st [] universe ->
  In (start_state automaton) universe ->
  length universe < fuel ->
  exists order_state_num' achieved_states_num,
    ReservedUnits.enumerate_states fuel st automaton order_state_num = Some order_state_num'
    /\ order_state_num' (start_state automaton) = 0
    /\ (forall s, achieved st (start_state automaton) s ->
                  order_state_num' s < achieved_states_num)
    /\ (forall s s', achieved st (start_state automaton) s ->
                     achieved st (start_state automaton) s' ->
                     order_state_num' s = order_state_num' s' -> s = s')
    /\ (forall n, n < achieved_states_num ->
                  exists s, achieved st (start_state automaton) s /\ order_state_num' s = n)
    /\ forall s, ~ achieved st (start_state automaton) s ->
                 order_state_num' s = order_state_num s.
Proof.
  intros Hclosed Hstart Hfuel.
  destruct (pass_states_achieved_spec st universe fuel automaton Hclosed Hstart Hfuel)
    as (all & E & Hnd & Hhd & Hall).
  unfold ReservedUnits.enumerate_states. rewrite E.
  destruct (set_order_state_nums_spec all 0 order_state_num Hnd) as [Hin Hout].
  eexists. exists (length all). split; [reflexivity|].
  split; [|split; [|split; [|split]]].
  - destruct all as [|s0 all']; [discriminate|]. injection Hhd as ->.
    exact (Hin 0 _ eq_refl).
  - intros s Hs. apply Hall in Hs. apply In_nth_error in Hs. destruct Hs as (i & Hi).
    rewrite (Hin i s Hi). apply nth_error_Some. cbn [Nat.add]. congruence.
  - intros s s' Hs Hs' Heq. apply Hall, In_nth_error in Hs. apply Hall, In_nth_error in Hs'.
    destruct Hs as (i & Hi), Hs' as (i' & Hi').
    rewrite (Hin i s Hi), (Hin i' s' Hi') in Heq. cbn [Nat.add] in Heq. subst i'.
    congruence.
  - intros n Hn. destruct (nth_error all n) as [s|] eqn:En.
    + exists s. split; [apply Hall; eapply nth_error_In; exact En | exact (Hin n s En)].
    + apply nth_error_None in En. lia.
  - intros s Hs. apply Hout. intros H. apply Hs, Hall. exact H.
Qed.

Lemma enumerate_states_numbers_witness :
  exists order_state_num' achieved_states_num,
    ReservedUnits.enumerate_states 20 exclusive_states exclusive_automaton (fun _ => 7)
    = Some order_state_num'
    /\ order_state_num' (start_state exclusive_automaton) = 0
    /\ (forall s, achieved exclusive_states (start_state exclusive_automaton) s ->
                  order_state_num' s < achieved_states_num)
    /\ (forall s s', achieved exclusive_states (start_state exclusive_automaton) s ->
                     achieved exclusive_states (start_state exclusive_automaton) s' ->
                     order_state_num' s = order_state_num' s' -> s = s')
    /\ (forall n, n < achieved_states_num ->
                  exists s, achieved exclusive_states (start_state exclusive_automaton) s
                            /\ order_state_num' s = n)
    /\ forall s, ~ achieved exclusive_states (start_state exclusive_automaton) s ->
                 order_state_num' s = 7.
Proof.
  apply (enumerate_states_numbers exclusive_states [0; 1; 2] 20 exclusive_automaton
           (fun _ => 7)).
  - apply closed_b_spec. vm_compute. reflexivity.
  - right. right. left. reflexivity.
  - cbn [length]. lia.
Defined.

(** *** The classes of equivalent states *)

(** Two states take the same insns, with the same number of
    alternatives, to states that [same_class] relates. *)
Definition same_arcs (st : store) (same_class : nat -> nat -> Prop) (s s' : nat) : Prop :=
  forall i,
    match transition (out_arcs st s) i, transition (out_arcs st s') i with
    | Some (t, alts), Some (t', alts') => alts = alts' /\ same_class t t'
    | None, None => True
    | _, _ => False
    end.

Definition in_one_class (classes : list (list nat)) (s s' : nat) : Prop :=
  exists K, In K classes /\ In s K /\ In s' K.

(** On a deterministic automaton [evaluate_equiv_classes] ends with
    classes that are not empty and hold each state achieved from the
    start state once, and no other state; two states of a class take the
    same insns, with the same number of alternatives, to states of one
    class. *)
Theorem evaluate_equiv_classes_partition (max_cycles_num : nat)
    (units_array : list unit_decl) (st : store) (universe : list nat) (fuel : nat)
    (automaton : automaton_t) (nums : equiv_class_nums) :
  0 < max_cycles_num ->
  closed_except st [] universe ->
  (forall s, In s universe -> deterministic st s) ->
  In (start_state automaton) universe ->
  length universe < fuel ->
  exists equiv_classes,
    evaluate_equiv_classes max_cycles_num units_array fuel st automaton nums
    = Done equiv_classes
    /\ Forall (fun K => K <> []) equiv_classes
    /\ NoDup (concat equiv_classes)
    /\ (forall s, In s (concat equiv_classes) <-> achieved st (start_state automaton) s)
    /\ forall s s', in_one_class equiv_classes s s' ->
                    same_arcs st (in_one_class equiv_classes) s s'.
Proof.
  intros Hcycles Hclosed Hdet Hstart Hfuel.
  destruct (pass_states_spec st universe Hclosed fuel automaton Hstart Hfuel)
    as (achieved_states & Epass & Hcl' & Hin' & Hincl' & Hnd').
  destruct (pass_states_achieved_spec st universe fuel automaton Hclosed Hstart Hfuel)
    as (states' & Epass' & _ & _ & Hachieved).
  rewrite Epass in Epass'. injection Epass' as <-.
  destruct (evaluate_equiv_classes_spec max_cycles_num units_array st achieved_states fuel
              automaton nums Hcycles Hcl' (fun s Hs => Hdet s (Hincl' s Hs)) Hin')
    as (all & classes & E & (Hperm & Hne & num & c & Hnum & Hagree) & Hcl & Hin & Hincl & Hnd).
  { pose proof (NoDup_incl_length Hnd' Hincl'). lia. }
  exists classes. split; [exact E|]. split; [exact Hne|].
  split; [eapply Permutation_NoDup; [symmetry; exact Hperm | exact Hnd]|].
  assert (forall s, In s all <-> achieved st (start_state automaton) s) as Hall.
  { intros s. split.
    - intros Hs. apply Hachieved, Hincl. exact Hs.
    - apply achieved_closed; assumption. }
  split.
  - intros s. rewrite <- Hall. split; apply Permutation_in; [|symmetry]; exact Hperm.
  - intros s s' (K & HK & Hs & Hs') i.
    pose proof (proj1 (Hagree K HK s Hs) i) as H.
    pose proof (proj1 (Hagree K HK s' Hs') i) as H'.
    assert (In s all /\ In s' all) as [Hsa Hsa'].
    { split; apply (Permutation_in _ Hperm), in_concat; exists K; auto. }
    destruct (transition (out_arcs st s) i) as [[t alts]|] eqn:Et,
             (transition (out_arcs st s') i) as [[t' alts']|] eqn:Et',
             (transition (out_arcs st (hd 0 K)) i) as [[th altsh]|];
      try contradiction; try exact I.
    destruct H as [Hn ->], H' as [Hn' ->]. split; [reflexivity|].
    apply transition_In in Et, Et'.
    destruct Et as (a & Ha & <-), Et' as (a' & Ha' & <-).
    apply (numbered_same_class classes num c); [exact Hnum | | | congruence].
    + apply (Permutation_in _ (Permutation_sym Hperm)).
      exact (Hcl s Hsa (fun H => H) a Ha).
    + apply (Permutation_in _ (Permutation_sym Hperm)).
      exact (Hcl s' Hsa' (fun H => H) a' Ha').
Qed.

Lemma evaluate_equiv_classes_partition_witness :
  exists equiv_classes,
    evaluate_equiv_classes 1 exclusive_units 20 exclusive_states exclusive_automaton
      (mk_nums (fun _ => 0) (fun _ => 0))
    = Done equiv_classes
    /\ Forall (fun K => K <> []) equiv_classes
    /\ NoDup (concat equiv_classes)
    /\ (forall s, In s (concat equiv_classes)
                  <-> achieved exclusive_states (start_state exclusive_automaton) s)
    /\ forall s s', in_one_class equiv_classes s s' ->
                    same_arcs exclusive_states (in_one_class equiv_classes) s s'.
Proof.
  apply (evaluate_equiv_classes_partition 1 exclusive_units exclusive_states [0; 1; 2] 20
           exclusive_automaton (mk_nums (fun _ => 0) (fun _ => 0))).
  - lia.
  - apply closed_b_spec. vm_compute. reflexivity.
  - apply deterministic_b_spec. vm_compute. reflexivity.
  - right. right. left. reflexivity.
  - cbn [length]. lia.
Defined.

End StateGraph.

(** ** The table of the units reserved and how it is read *)

Module QueryTable.
Import Bits Reservs IR Automata Minimize.
Import Transform(outcome, Done, Abort, NoFuel).
Import StateGraph.

Local Open Scope nat_scope.

(** The test that [output_cpu_unit_reservation_p] prints for an
    automaton, [(table [state * ((query_units_num + 7) / 8) + code / 8]
    >> (code % 8)) & 1], on the vector of
    [output_reserved_units_table]. *)
Definition cpu_unit_reservation_bit (query_units_num : nat) (table : list Z)
    (state code : nat) : Z :=
  Z.land (Z.shiftr (nth (state * ((query_units_num + 7) / 8) + code / 8) table 0%Z)
            (Z.of_nat (code mod 8))) 1.

Lemma cpu_unit_reservation_bit_testbit (query_units_num : nat) (table : list Z)
    (state code : nat) :
  cpu_unit_reservation_bit query_units_num table state code
  = Z.b2z (Z.testbit
             (nth (state * ReservedUnits.state_byte_size query_units_num + code / 8) table 0%Z)
             (Z.of_nat (code mod 8))).
Proof.
  unfold cpu_unit_reservation_bit, ReservedUnits.state_byte_size.
  change 1%Z with (Z.ones 1). rewrite Z.land_ones by lia.
  change (2 ^ 1)%Z with 2%Z. rewrite <- Z.bit0_mod, Z.shiftr_spec by lia.
  reflexivity.
Qed.

Lemma add_bit (x b : Z) :
  (0 <= b)%Z -> Z.testbit x b = false ->
  forall n, Z.testbit (x + Z.shiftl 1 b) n = Z.testbit x n || (n =? b)%Z.
Proof.
  intros Hb Hx n. rewrite Z.shiftl_1_l.
  assert (Z.land x (2 ^ b) = 0%Z) as Hland.
  { apply Z.bits_inj'. intros m Hm. rewrite Z.land_spec, Z.bits_0, Z.pow2_bits_eqb by lia.
    destruct (Z.eqb_spec b m) as [<-|_]; [rewrite Hx|rewrite andb_false_r]; reflexivity. }
  rewrite (Z.add_nocarry_lxor _ _ Hland), Z.lxor_spec.
  destruct (Z.ltb_spec n 0) as [Hneg|Hpos].
  - rewrite !Z.testbit_neg_r by lia. destruct (Z.eqb_spec n b); [lia | reflexivity].
  - rewrite Z.pow2_bits_eqb by lia. rewrite (Z.eqb_sym b n).
    destruct (Z.eqb_spec n b) as [->|_];
      [rewrite Hx; reflexivity | destruct (Z.testbit x n); reflexivity].
Qed.

Section Table.

Variable max_cycles_num : nat.
Hypothesis cycles : 0 < max_cycles_num.
Variable units_array : list unit_decl.
Variable query_num : nat -> nat.
Variable order_state_num : nat -> nat.
Variable query_units_num : nat.
Variable st : store.

(** The unit [i] is a query unit. *)
Definition query_unit (i : nat) : Prop :=
  query_p (nth i units_array (gen_cpu_unit None)) = true.

Hypothesis query_num_bound : forall i, query_unit i -> query_num i < query_units_num.
Hypothesis query_num_one : forall i j,
  query_unit i -> query_unit j -> query_num i = query_num j -> i = j.

(** The number of the states. *)
Variable states_num : nat.

Let state_byte_size : nat := ReservedUnits.state_byte_size query_units_num.

Definition present (s i : nat) : bool :=
  TEST_BIT (ReservedUnits.first_cycle_reservs st (ReservedUnits.first_component st s)) i.

Definition byte_index (s i : nat) : nat :=
  order_state_num s * state_byte_size + query_num i / 8.

Lemma query_byte (i : nat) : query_unit i -> query_num i / 8 < state_byte_size.
Proof.
  intros Hi. apply query_num_bound in Hi. unfold state_byte_size.
  unfold ReservedUnits.state_byte_size. apply Nat.Div0.div_lt_upper_bound.
  pose proof (Nat.div_mod_eq (query_units_num + 7) 8).
  pose proof (Nat.mod_upper_bound (query_units_num + 7) 8). lia.
Qed.

Lemma byte_index_one (s s' i j : nat) :
  query_unit i -> query_unit j ->
  byte_index s i = byte_index s' j -> query_num i mod 8 = query_num j mod 8 ->
  order_state_num s = order_state_num s' /\ i = j.
Proof.
  intros Hi Hj Hindex Hbit. unfold byte_index in Hindex.
  pose proof (query_byte i Hi) as Bi. pose proof (query_byte j Hj) as Bj.
  assert (order_state_num s = order_state_num s') as Hs.
  { destruct (Nat.lt_trichotomy (order_state_num s) (order_state_num s')) as [H|[H|H]];
      [exfalso | exact H | exfalso].
    - pose proof (Nat.mul_le_mono_r _ _ state_byte_size H). lia.
    - pose proof (Nat.mul_le_mono_r _ _ state_byte_size H). lia. }
  assert (query_num i / 8 = query_num j / 8) as Hq by (rewrite Hs in Hindex; lia).
  split; [exact Hs|]. apply query_num_one; [exact Hi | exact Hj|].
  rewrite (Nat.div_mod_eq (query_num i) 8), (Nat.div_mod_eq (query_num j) 8). lia.
Qed.

Lemma nth_set_nth_Z (k index : nat) (x : Z) (table : list Z) :
  index < length table ->
  nth k (set_nth index x table) 0%Z = if k =? index then x else nth k table 0%Z.
Proof. intros H. apply nth_set_nth. exact H. Qed.

(** The bits that the loop over the units, from the unit [i] on, adds
    for the state [s]. *)
Lemma reserved_units_loop_bits (s : nat) :
  order_state_num s < states_num ->
  forall (units : list unit_decl) (i : nat) (table : list Z),
    (forall j, j < length units ->
               nth j units (gen_cpu_unit None) = nth (i + j) units_array (gen_cpu_unit None)) ->
    length table = states_num * state_byte_size ->
    (forall j, i <= j -> query_unit j -> present s j = true ->
               Z.testbit (nth (byte_index s j) table 0%Z) (Z.of_nat (query_num j mod 8))
               = false) ->
    exists table',
      ReservedUnits.reserved_units_loop max_cycles_num query_num order_state_num
        query_units_num st s units i table = Done table'
      /\ length table' = states_num * state_byte_size
      /\ forall k n,
           Z.testbit (nth k table' 0%Z) n = true
           <-> Z.testbit (nth k table 0%Z) n = true
               \/ exists j, i <= j < i + length units /\ query_unit j /\ present s j = true
                            /\ k = byte_index s j /\ n = Z.of_nat (query_num j mod 8).
Proof.
  intros Hs. induction units as [|unit units IH]; intros i table Hunits Hlen Hfresh;
    cbn [ReservedUnits.reserved_units_loop].
  - exists table. split; [reflexivity|]. split; [exact Hlen|]. intros k n.
    split; [auto|]. intros [H|(j & Hj & _)]; [exact H | cbn [length] in Hj; lia].
  - assert (forall j, j < length units ->
                      nth j units (gen_cpu_unit None)
                      = nth (S i + j) units_array (gen_cpu_unit None)) as Hunits'.
    { intros j Hj. replace (S i + j) with (i + S j) by lia.
      rewrite <- (Hunits (S j)) by (cbn [length]; lia). reflexivity. }
    assert (unit = nth i units_array (gen_cpu_unit None)) as Hunit.
    { rewrite <- (Nat.add_0_r i) at 1. rewrite <- Hunits by (cbn [length]; lia).
      reflexivity. }
    assert (forall table1,
              length table1 = states_num * state_byte_size ->
              (forall j, S i <= j -> query_unit j -> present s j = true ->
                         Z.testbit (nth (byte_index s j) table1 0%Z)
                           (Z.of_nat (query_num j mod 8)) = false) ->
              (forall k n,
                 Z.testbit (nth k table1 0%Z) n = true
                 <-> Z.testbit (nth k table 0%Z) n = true
                     \/ (query_unit i /\ present s i = true
                         /\ k = byte_index s i /\ n = Z.of_nat (query_num i mod 8))) ->
              exists table',
                ReservedUnits.reserved_units_loop max_cycles_num query_num order_state_num
                  query_units_num st s units (S i) table1 = Done table'
                /\ length table' = states_num * state_byte_size
                /\ forall k n,
                     Z.testbit (nth k table' 0%Z) n = true
                     <-> Z.testbit (nth k table 0%Z) n = true
                         \/ exists j, i <= j < i + length (unit :: units) /\ query_unit j
                                      /\ present s j = true
                                      /\ k = byte_index s j
                                      /\ n = Z.of_nat (query_num j mod 8)) as Hnext.
    { intros table1 Hlen1 Hfresh1 Hbits1.
      destruct (IH (S i) table1 Hunits' Hlen1 Hfresh1) as (table' & E & Hlen' & Hbits').
      exists table'. split; [exact E|]. split; [exact Hlen'|]. intros k n.
      rewrite Hbits', Hbits1. cbn [length]. split.
      - intros [[H|(Hq & Hp & Hk & Hn)]|(j & Hj & H)]; [left; exact H | |].
        + right. exists i. split; [lia|]. auto.
        + right. exists j. split; [lia | exact H].
      - intros [H|(j & Hj & Hq & Hp & Hk & Hn)]; [left; left; exact H|].
        destruct (Nat.eq_dec j i) as [->|Hne]; [left; right; auto|].
        right. exists j. split; [lia|]. auto. }
    destruct (query_p unit) eqn:Equery.
    + rewrite (ReservedUnits.first_cycle_unit_presence_spec max_cycles_num st s i cycles).
      fold (present s i).
      assert (query_unit i) as Hq by (unfold query_unit; rewrite <- Hunit; exact Equery).
      destruct (present s i) eqn:Epresent.
      * unfold ReservedUnits.add_to. fold state_byte_size. fold (byte_index s i).
        pose proof (query_byte i Hq) as Hbyte.
        assert (byte_index s i < length table) as Hindex
          by (rewrite Hlen; unfold byte_index; nia).
        destruct (Nat.ltb_spec (byte_index s i) (length table)) as [_|]; [|lia].
        pose proof (Hfresh i (Nat.le_refl i) Hq Epresent) as Hbit.
        apply Hnext.
        -- rewrite set_nth_length by exact Hindex. exact Hlen.
        -- intros j Hj Hqj Hpj. rewrite nth_set_nth_Z by exact Hindex.
           destruct (Nat.eqb_spec (byte_index s j) (byte_index s i)) as [Heq|_];
             [|apply Hfresh; [lia | exact Hqj | exact Hpj]].
           rewrite add_bit; [|lia | exact Hbit]. rewrite <- Heq.
           rewrite (Hfresh j) by (try lia; assumption). cbn [orb].
           apply Z.eqb_neq. intros Hmod. apply Nat2Z.inj in Hmod.
           destruct (byte_index_one s s j i Hqj Hq Heq Hmod) as [_ ->]. lia.
        -- intros k n. rewrite nth_set_nth_Z by exact Hindex.
           destruct (Nat.eqb_spec k (byte_index s i)) as [->|Hk].
           ++ rewrite add_bit; [|lia | exact Hbit]. rewrite orb_true_iff, Z.eqb_eq.
              split; [intros [H|H]; [left; exact H | right; auto]|].
              intros [H|(_ & _ & _ & H)]; auto.
           ++ split; [auto|]. intros [H|(_ & _ & H & _)]; [exact H | contradiction].
      * apply Hnext; [exact Hlen | intros j Hj; apply Hfresh; lia|].
        intros k n. split; [auto|]. intros [H|(_ & H & _)]; [exact H | discriminate].
    + apply Hnext; [exact Hlen | intros j Hj; apply Hfresh; lia|].
      intros k n. split; [auto|]. intros [H|(H & _)]; [exact H|].
      unfold query_unit in H. rewrite <- Hunit in H. congruence.
Qed.

(** The bits of the states [states]. *)
Definition bits_of (states : list nat) (table : list Z) : Prop :=
  length table = states_num * state_byte_size
  /\ forall k n,
       Z.testbit (nth k table 0%Z) n = true
       <-> exists s j, In s states /\ query_unit j /\ present s j = true
                       /\ k = byte_index s j /\ n = Z.of_nat (query_num j mod 8).

Lemma query_unit_lt (j : nat) : query_unit j -> j < length units_array.
Proof.
  intros Hj. destruct (Nat.ltb_spec j (length units_array)) as [H|H]; [exact H|].
  unfold query_unit in Hj. rewrite nth_overflow in Hj by exact H. discriminate.
Qed.

Lemma reserved_states_loop_bits :
  forall (output_states_vect passed : list nat) (table : list Z),
    NoDup (passed ++ output_states_vect) ->
    (forall s, In s (passed ++ output_states_vect) -> order_state_num s < states_num) ->
    (forall s s', In s (passed ++ output_states_vect) ->
                  In s' (passed ++ output_states_vect) ->
                  order_state_num s = order_state_num s' -> s = s') ->
    bits_of passed table ->
    exists table',
      ReservedUnits.reserved_states_loop max_cycles_num units_array query_num
        order_state_num query_units_num st output_states_vect table = Done table'
      /\ bits_of (passed ++ output_states_vect) table'.
Proof.
  induction output_states_vect as [|s states IH]; intros passed table Hnd Hbound Hone Hbits;
    cbn [ReservedUnits.reserved_states_loop].
  - exists table. rewrite app_nil_r. auto.
  - destruct Hbits as [Hlen Hbits].
    assert (In s (passed ++ s :: states)) as Hs by (apply in_or_app; right; left; reflexivity).
    assert (~ In s passed) as Hnew.
    { intros H. apply NoDup_remove_2 in Hnd. apply Hnd. apply in_or_app. left. exact H. }
    destruct (reserved_units_loop_bits s (Hbound s Hs) units_array 0 table)
      as (table1 & E1 & Hlen1 & Hbits1).
    + intros j _. reflexivity.
    + exact Hlen.
    + intros j _ Hq Hp. destruct (Z.testbit _ _) eqn:Ebit; [|reflexivity].
      apply Hbits in Ebit. destruct Ebit as (s' & j' & Hs' & Hq' & _ & Hk & Hn).
      apply Nat2Z.inj in Hn.
      destruct (byte_index_one s s' j j' Hq Hq' Hk Hn) as [Ho _].
      apply Hone in Ho; [|exact Hs | apply in_or_app; left; exact Hs'].
      subst s'. contradiction.
    + rewrite E1.
      replace (passed ++ s :: states) with ((passed ++ [s]) ++ states) in *
        by (rewrite <- app_assoc; reflexivity).
      apply IH; try assumption. split; [exact Hlen1|]. intros k n.
      rewrite Hbits1, Hbits. split.
      * intros [(s' & j & Hs' & H)|(j & _ & H)].
        -- exists s', j. split; [apply in_or_app; left; exact Hs' | exact H].
        -- exists s, j. split; [apply in_or_app; right; left; reflexivity | exact H].
      * intros (s' & j & Hs' & Hq & H). apply in_app_or in Hs'.
        destruct Hs' as [Hs'|[<-|[]]].
        -- left. exists s', j. auto.
        -- right. exists j. split; [|auto]. pose proof (query_unit_lt j Hq). cbn. lia.
Qed.

Lemma bits_of_lookup (states : list nat) (table : list Z) :
  (forall s s', In s states -> In s' states ->
                order_state_num s = order_state_num s' -> s = s') ->
  bits_of states table ->
  Forall (fun x => 0 <= x <= 255)%Z table
  /\ forall s i, In s states -> query_unit i ->
                 cpu_unit_reservation_bit query_units_num table (order_state_num s)
                   (query_num i)
                 = Z.b2z (present s i).
Proof.
  intros Hone [Hlen Hbits]. split.
  - apply Forall_forall. intros x Hx. apply In_nth with (d := 0%Z) in Hx.
    destruct Hx as (k & _ & <-).
    assert (nth k table 0%Z = Z.land (nth k table 0%Z) (Z.ones 8)) as Hbyte.
    { apply Z.bits_inj'. intros n Hn. rewrite Z.land_spec.
      destruct (Z.ltb_spec n 8) as [Hlow|Hhigh].
      - rewrite Z.ones_spec_low by lia. rewrite andb_true_r. reflexivity.
      - rewrite Z.ones_spec_high by lia. rewrite andb_false_r.
        destruct (Z.testbit (nth k table 0%Z) n) eqn:Ebit; [|reflexivity].
        apply Hbits in Ebit. destruct Ebit as (s & j & _ & _ & _ & _ & ->).
        pose proof (Nat.mod_upper_bound (query_num j) 8). lia. }
    rewrite Z.land_ones in Hbyte by lia.
    pose proof (Z.mod_pos_bound (nth k table 0%Z) (2 ^ 8)) as Hrange.
    change (2 ^ 8)%Z with 256%Z in *. lia.
  - intros s i Hs Hq. rewrite cpu_unit_reservation_bit_testbit.
    fold state_byte_size. fold (byte_index s i). f_equal.
    destruct (present s i) eqn:Epresent.
    + apply Hbits. exists s, i. auto.
    + destruct (Z.testbit _ _) eqn:Ebit; [|reflexivity].
      apply Hbits in Ebit. destruct Ebit as (s' & j & Hs' & Hq' & Hp & Hk & Hn).
      apply Nat2Z.inj in Hn.
      destruct (byte_index_one s s' i j Hq Hq' Hk Hn) as [Ho <-].
      apply Hone in Ho; [|exact Hs | exact Hs']. subst s'. congruence.
Qed.

End Table.

Lemma reserved_units_table_spec (max_cycles_num : nat) (units_array : list unit_decl)
    (query_num : nat -> nat) (query_units_num : nat) (st : store) (universe : list nat)
    (fuel : nat) (automaton : automaton_t) (order_state_num : nat -> nat) :
  0 < max_cycles_num ->
  (forall i, query_unit units_array i -> query_num i < query_units_num) ->
  (forall i j, query_unit units_array i -> query_unit units_array j ->
               query_num i = query_num j -> i = j) ->
  closed_except st [] universe ->
  In (start_state automaton) universe ->
  length universe < fuel ->
  exists order_state_num' reserved_units_table,
    ReservedUnits.enumerate_states fuel st automaton order_state_num = Some order_state_num'
    /\ ReservedUnits.output_reserved_units_table max_cycles_num units_array query_num
         order_state_num' query_units_num fuel st automaton
       = Done reserved_units_table
    /\ Forall (fun x => 0 <= x <= 255)%Z reserved_units_table
    /\ forall s i,
         achieved st (start_state automaton) s -> query_unit units_array i ->
         cpu_unit_reservation_bit query_units_num reserved_units_table
           (order_state_num' s) (query_num i)
         = Z.b2z (TEST_BIT (ReservedUnits.first_cycle_reservs st
                              (ReservedUnits.first_component st s)) i).
Proof.
  intros Hcycles Hbound Hone Hclosed Hstart Hfuel.
  destruct (pass_states_achieved_spec st universe fuel automaton Hclosed Hstart Hfuel)
    as (all & E & Hnd & _ & Hall).
  unfold ReservedUnits.enumerate_states, ReservedUnits.output_reserved_units_table.
  rewrite E. destruct (set_order_state_nums_spec all 0 order_state_num Hnd) as [Hin _].
  set (order_state_num' := ReservedUnits.set_order_state_nums all 0 order_state_num) in *.
  assert (forall s, In s all -> order_state_num' s < length all) as Horder.
  { intros s Hs. apply In_nth_error in Hs. destruct Hs as (i & Hi). rewrite (Hin i s Hi).
    cbn [Nat.add]. apply nth_error_Some. congruence. }
  assert (forall s s', In s all -> In s' all ->
                       order_state_num' s = order_state_num' s' -> s = s') as Horder_one.
  { intros s s' Hs Hs' Heq. apply In_nth_error in Hs, Hs'.
    destruct Hs as (i & Hi), Hs' as (i' & Hi').
    rewrite (Hin i s Hi), (Hin i' s' Hi') in Heq. cbn [Nat.add] in Heq. subst i'.
    congruence. }
  destruct (reserved_states_loop_bits max_cycles_num Hcycles units_array query_num
              order_state_num' query_units_num st Hbound Hone (length all) all []
              (repeat 0%Z (length all * ReservedUnits.state_byte_size query_units_num)))
    as (table & Etable & Hbits); cbn [app]; try assumption.
  - split; [apply repeat_length|]. intros k n. split.
    + intros H. exfalso. revert H.
      assert (nth k (repeat 0%Z (length all * ReservedUnits.state_byte_size query_units_num))
                0%Z = 0%Z) as ->.
      { destruct (Nat.ltb_spec k (length all * ReservedUnits.state_byte_size query_units_num)).
        - apply nth_repeat_lt. exact H.
        - apply nth_overflow. rewrite repeat_length. exact H. }
      rewrite Z.bits_0. discriminate.
    + intros (s & _ & [] & _).
  - exists order_state_num', table. split; [reflexivity|]. split; [exact Etable|].
    destruct (bits_of_lookup max_cycles_num Hcycles units_array query_num order_state_num'
                query_units_num st Hbound Hone (length all) all table Horder_one Hbits)
      as [Hrange Hlookup].
    split; [exact Hrange|]. intros s i Hs Hi. apply Hlookup; [apply Hall; exact Hs | exact Hi].
Qed.

(** [output_reserved_units_table] fills a vector of bytes in which the
    test that [output_cpu_unit_reservation_p] prints, at the number
    [enumerate_states] gives a state achieved from the start state and
    the [query_num] of a query unit, finds whether the first of the
    component states of the state, or the state itself if it has none,
    reserves the unit on its first cycle.  The query units have
    different numbers, below [query_units_num]. *)
Theorem reserved_units_table_lookup (max_cycles_num : nat) (units_array : list unit_decl)
    (query_num : nat -> nat) (query_units_num : nat) (st : store) (universe : list nat)
    (fuel : nat) (automaton : automaton_t) (order_state_num : nat -> nat) :
  0 < max_cycles_num ->
  (forall i, query_unit units_array i -> query_num i < query_units_num) ->
  (forall i j, query_unit units_array i -> query_unit units_array j ->
               query_num i = query_num j -> i = j) ->
  closed_except st [] universe ->
  In (start_state automaton) universe ->
  length universe < fuel ->
  exists order_state_num' reserved_units_table,
    ReservedUnits.enumerate_states fuel st automaton order_state_num = Some order_state_num'
    /\ ReservedUnits.output_reserved_units_table max_cycles_num units_array query_num
         order_state_num' query_units_num fuel st automaton
       = Done reserved_units_table
    /\ Forall (fun x => 0 <= x <= 255)%Z reserved_units_table
    /\ forall s i,
         achieved st (start_state automaton) s -> query_unit units_array i ->
         cpu_unit_reservation_bit query_units_num reserved_units_table
           (order_state_num' s) (query_num i)
         = Z.b2z (TEST_BIT (ReservedUnits.first_cycle_reservs st
                              (ReservedUnits.first_component st s)) i).
Proof.
  exact (reserved_units_table_spec max_cycles_num units_array query_num query_units_num st
           universe fuel automaton order_state_num).
Qed.

(** The two units of [exclusive_units], the first as a query unit. *)
Definition one_query_unit : list unit_decl :=
  [mk_unit_decl None true None 0 0 [1] [] [] [] [] false;
   mk_unit_decl None false None 0 0 [0] [] [] [] [] false].

Lemma one_query_unit_first (i : nat) : query_unit one_query_unit i -> i = 0.
Proof.
  unfold query_unit. destruct i as [|[|[|i]]]; cbn; intros H; try discriminate; reflexivity.
Qed.

Lemma reserved_units_table_lookup_witness :
  exists order_state_num' reserved_units_table,
    ReservedUnits.enumerate_states 20 exclusive_states exclusive_automaton (fun _ => 0)
    = Some order_state_num'
    /\ ReservedUnits.output_reserved_units_table 1 one_query_unit (fun _ => 0)
         order_state_num' 1 20 exclusive_states exclusive_automaton
       = Done reserved_units_table
    /\ Forall (fun x => 0 <= x <= 255)%Z reserved_units_table
    /\ forall s i,
         achieved exclusive_states (start_state exclusive_automaton) s ->
         query_unit one_query_unit i ->
         cpu_unit_reservation_bit 1 reserved_units_table (order_state_num' s) 0
         = Z.b2z (TEST_BIT (ReservedUnits.first_cycle_reservs exclusive_states
                              (ReservedUnits.first_component exclusive_states s)) i).
Proof.
  apply (reserved_units_table_lookup 1 one_query_unit (fun _ => 0) 1 exclusive_states
           [0; 1; 2] 20 exclusive_automaton (fun _ => 0)).
  - lia.
  - intros i _. lia.
  - intros i j Hi Hj _. rewrite (one_query_unit_first i Hi), (one_query_unit_first j Hj).
    reflexivity.
  - apply closed_b_spec. vm_compute. reflexivity.
  - right. right. left. reflexivity.
  - cbn [length]. lia.
Defined.

(** *** The numbers of the query units *)

(** The units of the declarations, in their order. *)
Fixpoint decl_units (decls : list decl) : list nat :=
  match decls with
  | [] => []
  | dm_unit unit_num :: decls' => unit_num :: decl_units decls'
  | _ :: decls' => decl_units decls'
  end.

Definition query_units (decls : list decl) (units_array : list unit_decl) : list nat :=
  filter (fun unit_num => query_p (nth unit_num units_array (gen_cpu_unit None)))
    (decl_units decls).

Lemma set_query_nums_spec (units_array : list unit_decl) (decls : list decl) :
  forall (query_num : nat -> nat) (query_units_num : nat),
    NoDup (decl_units decls) ->
    exists query_num',
      ReservedUnits.set_query_nums decls units_array query_num query_units_num
      = (query_num', query_units_num + length (query_units decls units_array))
      /\ (forall k unit_num,
            nth_error (query_units decls units_array) k = Some unit_num ->
            query_num' unit_num = query_units_num + k)
      /\ forall unit_num, ~ In unit_num (query_units decls units_array) ->
                          query_num' unit_num = query_num unit_num.
Proof.
  unfold query_units.
  induction decls as [|d decls IH]; intros q n Hnd; cbn [ReservedUnits.set_query_nums].
  - exists q. cbn. rewrite Nat.add_0_r. split; [reflexivity|].
    split; [intros [|k] u H; discriminate | reflexivity].
  - destruct d as [u| | | | | | |]; cbn [decl_units] in *; try (apply IH; exact Hnd).
    inversion Hnd as [|? ? Hnew Hnd']; subst. cbn [filter].
    destruct (query_p (nth u units_array (gen_cpu_unit None))); [|apply IH; exact Hnd'].
    destruct (IH (upd q u n) (S n) Hnd') as (q' & E & Hin & Hout).
    exists q'. cbn [length]. rewrite E. split; [f_equal; lia|]. split.
    + intros [|k] v H; cbn [nth_error] in H.
      * injection H as <-. rewrite Hout.
        -- unfold upd. rewrite Nat.eqb_refl. lia.
        -- intros H. apply filter_In in H. apply Hnew, H.
      * rewrite (Hin k v H). lia.
    + intros v Hv. rewrite Hout by (intros H; apply Hv; right; exact H).
      unfold upd. destruct (Nat.eqb_spec v u) as [->|_]; [|reflexivity].
      exfalso. apply Hv. left. reflexivity.
Qed.

(** The loop of [expand_automata] numbers the query units from 0 in
    the order of their declarations, and [query_units_num] is their
    count; the [query_num] of the other units stays. *)
Theorem set_query_nums_order (units_array : list unit_decl) (decls : list decl)
    (query_num : nat -> nat) :
  NoDup (decl_units decls) ->
  exists query_num',
    ReservedUnits.set_query_nums decls units_array query_num 0
    = (query_num', length (query_units decls units_array))
    /\ (forall k unit_num,
          nth_error (query_units decls units_array) k = Some unit_num ->
          query_num' unit_num = k)
    /\ forall unit_num, ~ In unit_num (query_units decls units_array) ->
                        query_num' unit_num = query_num unit_num.
Proof. exact (set_query_nums_spec units_array decls query_num 0). Qed.

Lemma set_query_nums_order_witness :
  exists query_num',
    ReservedUnits.set_query_nums [dm_unit 1; dm_automaton; dm_unit 0] one_query_unit
      (fun _ => 7) 0
    = (query_num',
       length (query_units [dm_unit 1; dm_automaton; dm_unit 0] one_query_unit))
    /\ (forall k unit_num,
          nth_error (query_units [dm_unit 1; dm_automaton; dm_unit 0] one_query_unit) k
          = Some unit_num ->
          query_num' unit_num = k)
    /\ forall unit_num,
         ~ In unit_num (query_units [dm_unit 1; dm_automaton; dm_unit 0] one_query_unit) ->
         query_num' unit_num = 7.
Proof.
  apply (set_query_nums_order one_query_unit [dm_unit 1; dm_automaton; dm_unit 0]
           (fun _ => 7)).
  cbn. repeat constructor; cbn; intuition discriminate.
Defined.

End QueryTable.

(** ** The name of the description file *)

Module FileNames.
Import Ascii.

Local Set Warnings "-register-all".
Local Open Scope nat_scope.
Local Open Scope char_scope.
Local Open Scope string_scope.

(** [s [i]]: the null character ends the string. *)
Definition char_at (s : string) (i : nat) : ascii :=
  match String.get i s with
  | Some c => c
  | None => zero
  end.

(** [s + n] *)
Fixpoint advance (s : string) (n : nat) : string :=
  match n, s with
  | S n', String _ s' => advance s' n'
  | _, _ => s
  end.

(** The loop of [file_name_suffix]. *)
Fixpoint file_name_suffix_loop (file_name : string) (last_period : option string) : string :=
  match file_name with
  | EmptyString =>
    match last_period with
    | None => file_name
    | Some period => period
    end
  | String c rest =>
    file_name_suffix_loop rest
      (if Ascii.eqb c "." then Some file_name else last_period)
  end.

(** [file_name_suffix (file_name)] *)
Definition file_name_suffix (file_name : string) : string :=
  file_name_suffix_loop file_name None.

(** The loop of [base_file_name], without [WIN32]; [n] is
    [directory_name_length + 1]. *)
Fixpoint base_file_name_loop (file_name : string) (n : nat) : nat :=
  match n with
  | O => O
  | S directory_name_length =>
    if negb (Ascii.eqb (char_at file_name directory_name_length) "/")
    then base_file_name_loop file_name directory_name_length
    else n
  end.

(** [base_file_name (file_name)] *)
Definition base_file_name (file_name : string) : string :=
  advance file_name (base_file_name_loop file_name (S (String.length file_name))).

(** [output_description_file_name] as [initiate_automaton_gen] forms it
    from [argv [1]]. *)
Definition output_description_file_name (argv_1 : string) : string :=
  let base_name := base_file_name argv_1 in
  String.substring 0
    (String.length base_name - String.length (file_name_suffix base_name)) base_name
  ++ ".dfa".

(** The character [c] is in [s]. *)
Fixpoint occurs (c : ascii) (s : string) : bool :=
  match s with
  | EmptyString => false
  | String c' s' => Ascii.eqb c' c || occurs c s'
  end.

Lemma string_length_append (a b : string) :
  String.length (a ++ b) = String.length a + String.length b.
Proof. induction a as [|c a IH]; cbn; [reflexivity | rewrite IH; reflexivity]. Qed.

Lemma substring_append (a b : string) : String.substring 0 (String.length a) (a ++ b) = a.
Proof.
  induction a as [|c a IH]; cbn; [destruct b; reflexivity | rewrite IH; reflexivity].
Qed.

Lemma advance_append (a b : string) : advance (a ++ b) (String.length a) = b.
Proof. induction a as [|c a IH]; cbn; [destruct b; reflexivity | exact IH]. Qed.

Lemma occurs_append (c : ascii) (a b : string) :
  occurs c (a ++ b) = occurs c a || occurs c b.
Proof.
  induction a as [|c' a IH]; cbn; [reflexivity | rewrite IH, orb_assoc; reflexivity].
Qed.

Lemma char_at_append (a b : string) (i : nat) :
  char_at (a ++ b) (String.length a + i) = char_at b i.
Proof.
  unfold char_at. rewrite (append_correct2 a b i), (Nat.add_comm i). reflexivity.
Qed.

Lemma char_at_occurs (c : ascii) (s : string) (i : nat) :
  occurs c s = false -> c <> zero -> char_at s i <> c.
Proof.
  unfold char_at. revert i. induction s as [|c' s IH]; intros i Hs Hc; cbn in *.
  - congruence.
  - apply orb_false_iff in Hs. destruct Hs as [Hc' Hs]. destruct i as [|i].
    + apply Ascii.eqb_neq. exact Hc'.
    + apply IH; assumption.
Qed.

Lemma file_name_suffix_loop_none (s : string) (last_period : option string) :
  occurs "." s = false ->
  file_name_suffix_loop s last_period
  = match last_period with
    | None => ""
    | Some period => period
    end.
Proof.
  revert last_period. induction s as [|c s IH]; intros lp Hs; cbn in *; [reflexivity|].
  apply orb_false_iff in Hs. destruct Hs as [Hc Hs]. rewrite Hc. apply IH. exact Hs.
Qed.

Lemma file_name_suffix_loop_last (stem e : string) :
  occurs "." e = false ->
  forall last_period,
    file_name_suffix_loop (stem ++ String "." e) last_period = String "." e.
Proof.
  intros He. induction stem as [|c stem IH]; intros lp; cbn.
  - rewrite file_name_suffix_loop_none by exact He. reflexivity.
  - apply IH.
Qed.

Lemma base_file_name_loop_stops (dir base : string) :
  dir = "" \/ (exists d, dir = d ++ "/") ->
  occurs "/" base = false ->
  forall n,
    base_file_name_loop (dir ++ base) (String.length dir + n) = String.length dir.
Proof.
  intros Hdir Hbase. induction n as [|n IH].
  - rewrite Nat.add_0_r. destruct Hdir as [->|(d & ->)]; [reflexivity|].
    rewrite string_length_append. cbn [String.length]. rewrite Nat.add_1_r.
    cbn [base_file_name_loop].
    replace (char_at ((d ++ "/") ++ base) (String.length d)) with "/"%char; [reflexivity|].
    unfold char_at. rewrite <- (append_correct1 (d ++ "/") base)
      by (rewrite string_length_append; cbn; lia).
    rewrite <- (Nat.add_0_l (String.length d)), <- (append_correct2 d "/" 0). reflexivity.
  - rewrite Nat.add_succ_r. cbn [base_file_name_loop]. rewrite char_at_append.
    destruct (Ascii.eqb_spec (char_at base n) "/") as [H|_]; [|exact IH].
    exfalso. revert H. apply char_at_occurs; [exact Hbase | discriminate].
Qed.

Lemma base_file_name_spec (dir base : string) :
  dir = "" \/ (exists d, dir = d ++ "/") ->
  occurs "/" base = false ->
  base_file_name (dir ++ base) = base.
Proof.
  intros Hdir Hbase. unfold base_file_name.
  replace (S (String.length (dir ++ base)))
    with (String.length dir + S (String.length base))
    by (rewrite string_length_append; lia).
  rewrite (base_file_name_loop_stops dir base Hdir Hbase). apply advance_append.
Qed.

(** The description file gets the name of the file of [argv [1]]
    without its directories, with [.dfa] in place of what its last
    period starts, or after the name when it has no period: a period in
    a directory name does not count. *)
Theorem output_description_file_name_stem (dir stem ext : string) :
  dir = "" \/ (exists d, dir = d ++ "/") ->
  occurs "/" (stem ++ ext) = false ->
  (ext = "" /\ occurs "." stem = false)
  \/ (exists e, ext = String "." e /\ occurs "." e = false) ->
  output_description_file_name (dir ++ stem ++ ext) = stem ++ ".dfa".
Proof.
  intros Hdir Hbase Hext. unfold output_description_file_name. cbn zeta.
  rewrite (base_file_name_spec dir (stem ++ ext) Hdir Hbase). f_equal.
  assert (file_name_suffix (stem ++ ext) = ext) as ->.
  { unfold file_name_suffix. destruct Hext as [[-> Hstem]|(e & -> & He)].
    - rewrite file_name_suffix_loop_none; [reflexivity|].
      rewrite occurs_append, Hstem. reflexivity.
    - apply file_name_suffix_loop_last. exact He. }
  rewrite string_length_append, Nat.add_sub. apply substring_append.
Qed.

Lemma output_description_file_name_stem_witness :
  output_description_file_name ("config.d/rs6000/" ++ "rs6000.tmp" ++ ".md")
  = "rs6000.tmp" ++ ".dfa".
Proof.
  apply (output_description_file_name_stem "config.d/rs6000/" "rs6000.tmp" ".md").
  - right. exists "config.d/rs6000". reflexivity.
  - reflexivity.
  - right. exists "md". split; reflexivity.
Defined.

End FileNames.

(** ** The elements of a string *)

Module StrVect.
Import Transform(outcome, Done, Abort, NoFuel).
Import Ascii Parse.

Local Set Warnings "-register-all".
Local Open Scope nat_scope.
Local Open Scope char_scope.
Local Open Scope string_scope.

(** The parentheses open after [s], from [pars_num] open ones, as
    [next_sep_el] and [n_sep_els] count them; [None] when [s] has the
    separator outside parentheses. *)
Fixpoint pars_after (sep : ascii) (par_flag : bool) (s : string) (pars_num : Z)
    : option Z :=
  match s with
  | EmptyString => Some pars_num
  | String c s' =>
    if par_flag && Ascii.eqb c "(" then pars_after sep par_flag s' (pars_num + 1)
    else if par_flag && Ascii.eqb c ")" then pars_after sep par_flag s' (pars_num - 1)
    else if (pars_num =? 0)%Z && Ascii.eqb c sep then None
    else pars_after sep par_flag s' pars_num
  end.

Fixpoint spaces (s : string) : bool :=
  match s with
  | EmptyString => true
  | String c s' => ISSPACE c && spaces s'
  end.

(** The first and the last character of [s] are no spaces. *)
Definition trimmed (s : string) : bool :=
  match s with
  | EmptyString => false
  | String c _ =>
    negb (ISSPACE c)
    && match last_char s with
       | Some c' => negb (ISSPACE c')
       | None => false
       end
  end.

(** A part of a string between two separators: what stands for the
    element [el], with spaces before and after it. *)
Definition part_of (sep : ascii) (par_flag : bool) (part el : string) : Prop :=
  pars_after sep par_flag part 0 = Some 0%Z
  /\ trimmed el = true
  /\ exists before after,
       part = before ++ el ++ after /\ spaces before = true /\ spaces after = true.

(** The parts with the separator between them. *)
Fixpoint separated (sep : ascii) (parts : list string) : string :=
  match parts with
  | [] => ""
  | [part] => part
  | part :: parts' => part ++ String sep (separated sep parts')
  end.

Lemma append_assoc' (a b c : string) : (a ++ b) ++ c = a ++ b ++ c.
Proof. induction a as [|x a IH]; cbn; [reflexivity | rewrite IH; reflexivity]. Qed.

Lemma append_nil_r' (a : string) : a ++ "" = a.
Proof. induction a as [|x a IH]; cbn; [reflexivity | rewrite IH; reflexivity]. Qed.

Lemma space_no_paren (c : ascii) :
  ISSPACE c = true -> Ascii.eqb c "(" = false /\ Ascii.eqb c ")" = false.
Proof.
  intros H. split.
  - destruct (Ascii.eqb_spec c "(") as [->|_]; [discriminate | reflexivity].
  - destruct (Ascii.eqb_spec c ")") as [->|_]; [discriminate | reflexivity].
Qed.

Lemma skip_spaces_before (before rest : string) :
  spaces before = true -> skip_spaces (before ++ rest) = skip_spaces rest.
Proof.
  induction before as [|c before IH]; cbn; intros H; [reflexivity|].
  apply andb_true_iff in H. destruct H as [Hc H]. rewrite Hc. apply IH. exact H.
Qed.

Lemma last_char_cons (c : ascii) (s : string) :
  last_char (String c s) = match s with
                           | EmptyString => Some c
                           | _ => last_char s
                           end.
Proof.
  unfold last_char. cbn [String.length]. destruct s as [|c' s]; [reflexivity|].
  cbn [String.length String.get]. reflexivity.
Qed.

Section Elements.

Variable sep : ascii.
Variable par_flag : bool.
Hypothesis sep_no_paren :
  par_flag = true -> Ascii.eqb sep "(" = false /\ Ascii.eqb sep ")" = false.

(** The loop of [next_sep_el] over [x], that has no separator outside
    parentheses. *)
Lemma next_sep_el_loop_over (rest : string) (x : string) :
  forall pars_num pars_num' sp out_str,
    pars_after sep par_flag x pars_num = Some pars_num' ->
    exists sp' out_str',
      next_sep_el_loop sep par_flag (x ++ rest) pars_num sp out_str
      = next_sep_el_loop sep par_flag rest pars_num' sp' out_str'
      /\ out_str' ++ sp' = out_str ++ sp ++ x
      /\ (x = "" -> sp' = sp)
      /\ forall c, last_char x = Some c -> ISSPACE c = false -> sp' = "".
Proof.
  induction x as [|c x IH]; intros d d' sp out Hd; cbn [pars_after] in Hd.
  - injection Hd as <-. exists sp, out. cbn. rewrite append_nil_r'.
    split; [reflexivity|]. split; [reflexivity|]. split; [reflexivity|].
    intros c H. discriminate.
  - cbn [append next_sep_el_loop].
    assert (forall d1 sp1 out1,
              pars_after sep par_flag x d1 = Some d' ->
              out1 ++ sp1 = out ++ sp ++ String c "" ->
              (ISSPACE c = false -> sp1 = "") ->
              exists sp' out_str',
                next_sep_el_loop sep par_flag (x ++ rest) d1 sp1 out1
                = next_sep_el_loop sep par_flag rest d' sp' out_str'
                /\ out_str' ++ sp' = out ++ sp ++ String c x
                /\ (String c x = "" -> sp' = sp)
                /\ forall c', last_char (String c x) = Some c' ->
                              ISSPACE c' = false -> sp' = "") as Hnext.
    { intros d1 sp1 out1 Hd1 Hout1 Hsp1.
      destruct (IH d1 d' sp1 out1 Hd1) as (sp' & out' & E & Hout & Hnil & Hlast).
      exists sp', out'. split; [exact E|]. split; [|split; [discriminate|]].
      - rewrite Hout, <- append_assoc', Hout1, !append_assoc'. reflexivity.
      - intros c' Hc' Hspace. rewrite last_char_cons in Hc'. destruct x as [|c'' x].
        + injection Hc' as <-. rewrite (Hnil eq_refl). exact (Hsp1 Hspace).
        + exact (Hlast c' Hc' Hspace). }
    destruct (par_flag && Ascii.eqb c "(") eqn:Eopen;
      [apply Hnext; [exact Hd | rewrite append_nil_r'; reflexivity | reflexivity]|].
    destruct (par_flag && Ascii.eqb c ")") eqn:Eclose;
      [apply Hnext; [exact Hd | rewrite append_nil_r'; reflexivity | reflexivity]|].
    destruct ((d =? 0)%Z && Ascii.eqb c sep) eqn:Esep; [discriminate|].
    destruct ((d =? 0)%Z && ISSPACE c) eqn:Espace.
    + apply Hnext; [exact Hd | reflexivity|].
      apply andb_true_iff in Espace. destruct Espace as [_ Hc]. congruence.
    + apply Hnext; [exact Hd | rewrite append_nil_r'; reflexivity | reflexivity].
Qed.

(** The loop of [next_sep_el] over spaces outside parentheses. *)
Lemma next_sep_el_loop_spaces (rest : string) (after : string) :
  forall sp out_str,
    spaces after = true ->
    pars_after sep par_flag after 0 = Some 0%Z ->
    next_sep_el_loop sep par_flag (after ++ rest) 0 sp out_str
    = next_sep_el_loop sep par_flag rest 0 (sp ++ after) out_str.
Proof.
  induction after as [|c after IH]; intros sp out Hspaces Hd.
  - cbn. rewrite append_nil_r'. reflexivity.
  - cbn [spaces] in Hspaces. apply andb_true_iff in Hspaces. destruct Hspaces as [Hc Hs].
    destruct (space_no_paren c Hc) as [Hopen Hclose].
    cbn [pars_after append next_sep_el_loop] in *. rewrite Hopen, Hclose, !andb_false_r in *.
    cbn [Z.eqb andb] in *. destruct (Ascii.eqb c sep); [discriminate|]. rewrite Hc.
    rewrite (IH _ _ Hs Hd), append_assoc'. reflexivity.
Qed.

Lemma pars_after_append (a b : string) :
  forall d,
    pars_after sep par_flag (a ++ b) d
    = match pars_after sep par_flag a d with
      | Some d' => pars_after sep par_flag b d'
      | None => None
      end.
Proof.
  induction a as [|c a IH]; intros d; cbn [append pars_after]; [reflexivity|].
  destruct (par_flag && Ascii.eqb c "("); [apply IH|].
  destruct (par_flag && Ascii.eqb c ")"); [apply IH|].
  destruct ((d =? 0)%Z && Ascii.eqb c sep); [reflexivity | apply IH].
Qed.

Lemma pars_after_spaces (s : string) :
  spaces s = true ->
  forall d, pars_after sep par_flag s d = None \/ pars_after sep par_flag s d = Some d.
Proof.
  induction s as [|c s IH]; intros Hs d; cbn [pars_after]; [right; reflexivity|].
  cbn [spaces] in Hs. apply andb_true_iff in Hs. destruct Hs as [Hc Hs].
  destruct (space_no_paren c Hc) as [-> ->]. rewrite !andb_false_r.
  destruct ((d =? 0)%Z && Ascii.eqb c sep); [left; reflexivity | apply IH; exact Hs].
Qed.

(** [next_sep_el] at a part that the end of the string or the
    separator follows. *)
Lemma next_sep_el_part (part el : string) (tail : string) :
  part_of sep par_flag part el ->
  (tail = "" \/ exists rest, tail = String sep rest) ->
  next_sep_el (part ++ tail) sep par_flag
  = (Some el, match tail with
              | String _ rest => rest
              | EmptyString => ""
              end).
Proof.
  intros (Hpars & Htrim & before & after & -> & Hbefore & Hafter) Htail.
  rewrite pars_after_append in Hpars.
  destruct (pars_after_spaces before Hbefore 0%Z) as [H|H]; rewrite H in Hpars;
    [discriminate|]. clear H. rewrite pars_after_append in Hpars.
  destruct (pars_after sep par_flag el 0) as [d|] eqn:Hel; [|discriminate].
  destruct (pars_after_spaces after Hafter d) as [H|H]; rewrite H in Hpars;
    [discriminate|]. injection Hpars as ->.
  unfold next_sep_el. rewrite !append_assoc', skip_spaces_before by exact Hbefore.
  destruct el as [|c el]; [discriminate|]. unfold trimmed in Htrim.
  apply andb_true_iff in Htrim. destruct Htrim as [Hfirst Hlast].
  cbn [append skip_spaces]. apply negb_true_iff in Hfirst. rewrite Hfirst.
  cbv beta iota zeta.
  change (String c (el ++ after ++ tail)) with (String c el ++ after ++ tail).
  destruct (next_sep_el_loop_over (after ++ tail) (String c el) 0 0 "" "" Hel)
    as (sp' & out' & E & Hout & _ & Hsp).
  destruct (last_char (String c el)) as [c'|] eqn:Elast; [|discriminate].
  apply negb_true_iff in Hlast. specialize (Hsp c' eq_refl Hlast). subst sp'.
  rewrite append_nil_r' in Hout. cbn [append] in Hout. subst out'.
  rewrite E, (next_sep_el_loop_spaces tail after "" (String c el) Hafter H).
  destruct Htail as [->|(rest & ->)]; cbn [next_sep_el_loop]; [reflexivity|].
  assert (par_flag && Ascii.eqb sep "(" = false) as ->.
  { destruct par_flag; [|reflexivity]. destruct (sep_no_paren eq_refl) as [-> _].
    reflexivity. }
  assert (par_flag && Ascii.eqb sep ")" = false) as ->.
  { destruct par_flag; [|reflexivity]. destruct (sep_no_paren eq_refl) as [_ ->].
    reflexivity. }
  rewrite Ascii.eqb_refl. cbn [Z.eqb andb]. rewrite Ascii.eqb_refl. reflexivity.
Qed.

Lemma part_not_empty (part el : string) : part_of sep par_flag part el -> part <> "".
Proof.
  intros (_ & Htrim & before & after & -> & _ & _).
  destruct el as [|c el]; [discriminate|]. destruct before; discriminate.
Qed.

Lemma get_str_vect_loop_parts (parts : list string) :
  forall els,
    Forall2 (part_of sep par_flag) parts els ->
    get_str_vect_loop (length parts) (separated sep parts) sep par_flag
    = (map Some els, "").
Proof.
  induction parts as [|part parts IH]; intros els Hparts; inversion Hparts as [|? el ? els' Hpart Hrest];
    subst; [reflexivity|].
  cbn [length get_str_vect_loop separated map]. destruct parts as [|part' parts].
  - inversion Hrest; subst.
    rewrite <- (append_nil_r' part) at 1.
    rewrite (next_sep_el_part part el "" Hpart) by (left; reflexivity). reflexivity.
  - rewrite (next_sep_el_part part el _ Hpart) by (right; eauto).
    rewrite (IH els' Hrest). reflexivity.
Qed.

Lemma n_sep_els_loop_over (rest : string) (x : string) :
  forall pars_num pars_num' n,
    pars_after sep par_flag x pars_num = Some pars_num' ->
    n_sep_els_loop (x ++ rest) sep par_flag pars_num n
    = n_sep_els_loop rest sep par_flag pars_num' n.
Proof.
  induction x as [|c x IH]; intros d d' n Hd; cbn [pars_after append n_sep_els_loop] in *.
  - injection Hd as <-. reflexivity.
  - destruct (par_flag && Ascii.eqb c "("); [apply IH; exact Hd|].
    destruct (par_flag && Ascii.eqb c ")"); [apply IH; exact Hd|].
    destruct ((d =? 0)%Z && Ascii.eqb c sep); [discriminate | apply IH; exact Hd].
Qed.

Lemma n_sep_els_loop_parts (parts : list string) :
  forall els n,
    Forall2 (part_of sep par_flag) parts els ->
    parts <> [] ->
    n_sep_els_loop (separated sep parts) sep par_flag 0 n
    = (n + Z.of_nat (length parts) - 1)%Z.
Proof.
  induction parts as [|part parts IH]; intros els n Hparts Hne; [contradiction|].
  inversion Hparts as [|? el ? els' Hpart Hrest]; subst.
  pose proof Hpart as (Hpars & _). cbn [separated]. destruct parts as [|part' parts].
  - rewrite <- (append_nil_r' part).
    rewrite (n_sep_els_loop_over "" part 0 0 n Hpars). cbn. lia.
  - rewrite (n_sep_els_loop_over _ part 0 0 n Hpars). cbn [n_sep_els_loop].
    assert (par_flag && Ascii.eqb sep "(" = false) as ->.
    { destruct par_flag; [|reflexivity]. destruct (sep_no_paren eq_refl) as [-> _].
      reflexivity. }
    assert (par_flag && Ascii.eqb sep ")" = false) as ->.
    { destruct par_flag; [|reflexivity]. destruct (sep_no_paren eq_refl) as [_ ->].
      reflexivity. }
    rewrite Ascii.eqb_refl. cbn [Z.eqb andb].
    rewrite (IH els' (n + 1)%Z Hrest) by discriminate. cbn [length]. lia.
Qed.

Lemma get_str_vect_spec (parts els : list string) :
  Forall2 (part_of sep par_flag) parts els ->
  parts <> [] ->
  get_str_vect (separated sep parts) sep par_flag = Done (Some (map Some els)).
Proof.
  intros Hparts Hne. unfold get_str_vect, n_sep_els.
  destruct (separated sep parts) as [|c s] eqn:Es.
  { exfalso. destruct parts as [|part parts]; [contradiction|].
    inversion Hparts as [|? el ? els' Hpart Hrest]; subst.
    apply (part_not_empty part el Hpart). cbn [separated] in Es.
    destruct parts; [exact Es|]. destruct part; [reflexivity | discriminate]. }
  rewrite <- Es. rewrite (n_sep_els_loop_parts parts els 1 Hparts Hne).
  replace (1 + Z.of_nat (length parts) - 1)%Z with (Z.of_nat (length parts)) by lia.
  destruct (Z.leb_spec (Z.of_nat (length parts)) 0) as [H|_].
  { destruct parts; [contradiction | cbn [length] in H; lia]. }
  rewrite Nat2Z.id, (get_str_vect_loop_parts parts els Hparts). reflexivity.
Qed.

End Elements.

(** [get_str_vect] gives the elements of a string in their order: what
    stands between two separators outside parentheses, without the
    spaces before and after it.  Each part has its parentheses balanced
    when [paren_p] is set, and no element is empty; the separator is no
    parenthesis then. *)
Theorem get_str_vect_elements (sep : ascii) (paren_p : bool) (parts els : list string) :
  (paren_p = true -> Ascii.eqb sep "(" = false /\ Ascii.eqb sep ")" = false) ->
  Forall2 (part_of sep paren_p) parts els ->
  parts <> [] ->
  get_str_vect (separated sep parts) sep paren_p = Done (Some (map Some els)).
Proof. intros Hsep. exact (get_str_vect_spec sep paren_p Hsep parts els). Qed.

Lemma get_str_vect_elements_witness :
  get_str_vect (separated "," [" a "; "(b, c) + d"; "e f"]) "," true
  = Done (Some (map Some ["a"; "(b, c) + d"; "e f"])).
Proof.
  apply (get_str_vect_elements "," true [" a "; "(b, c) + d"; "e f"]
           ["a"; "(b, c) + d"; "e f"]).
  - intros _. split; reflexivity.
  - repeat constructor.
    + exists " ", " ". repeat split.
    + exists "", "". repeat split.
    + exists "", "". repeat split.
  - discriminate.
Defined.

(** *** The end of the string *)

(** The parentheses open after [s], as [n_sep_els] counts them. *)
Fixpoint open_pars (par_flag : bool) (s : string) (pars_num : Z) : Z :=
  match s with
  | EmptyString => pars_num
  | String c s' =>
    if par_flag && Ascii.eqb c "(" then open_pars par_flag s' (pars_num + 1)
    else if par_flag && Ascii.eqb c ")" then open_pars par_flag s' (pars_num - 1)
    else open_pars par_flag s' pars_num
  end.

(** The separators of [s] outside parentheses. *)
Fixpoint seps (sep : ascii) (par_flag : bool) (s : string) (pars_num : Z) : nat :=
  match s with
  | EmptyString => 0
  | String c s' =>
    if par_flag && Ascii.eqb c "(" then seps sep par_flag s' (pars_num + 1)
    else if par_flag && Ascii.eqb c ")" then seps sep par_flag s' (pars_num - 1)
    else if (pars_num =? 0)%Z && Ascii.eqb c sep then S (seps sep par_flag s' pars_num)
    else seps sep par_flag s' pars_num
  end.

Section Ends.

Variable sep : ascii.
Variable par_flag : bool.

Lemma n_sep_els_loop_seps (s : string) :
  forall pars_num n,
    n_sep_els_loop s sep par_flag pars_num n
    = if (open_pars par_flag s pars_num =? 0)%Z
      then (n + Z.of_nat (seps sep par_flag s pars_num))%Z
      else (-1)%Z.
Proof.
  induction s as [|c s IH]; intros d n; cbn [n_sep_els_loop open_pars seps].
  - destruct (d =? 0)%Z; cbn [negb]; [lia | reflexivity].
  - destruct (par_flag && Ascii.eqb c "("); [apply IH|].
    destruct (par_flag && Ascii.eqb c ")"); [apply IH|].
    destruct ((d =? 0)%Z && Ascii.eqb c sep); [|apply IH].
    rewrite IH. destruct (open_pars par_flag s d =? 0)%Z; lia.
Qed.

Lemma next_sep_el_loop_stops (s : string) :
  forall pars_num sp out_str,
    snd (next_sep_el_loop sep par_flag s pars_num sp out_str) = ""
    \/ exists rest,
         snd (next_sep_el_loop sep par_flag s pars_num sp out_str) = String sep rest
         /\ seps sep par_flag s pars_num = S (seps sep par_flag rest 0).
Proof.
  induction s as [|c s IH]; intros d sp out; cbn [next_sep_el_loop seps].
  - left. reflexivity.
  - destruct (par_flag && Ascii.eqb c "("); [apply IH|].
    destruct (par_flag && Ascii.eqb c ")"); [apply IH|].
    destruct ((d =? 0)%Z && Ascii.eqb c sep) eqn:Esep.
    + right. apply andb_true_iff in Esep. destruct Esep as [Hd Hc].
      apply Z.eqb_eq in Hd. apply Ascii.eqb_eq in Hc. subst. exists s. split; reflexivity.
    + destruct ((d =? 0)%Z && ISSPACE c); apply IH.
Qed.

Lemma skip_spaces_seps (s : string) :
  seps sep par_flag (skip_spaces s) 0 <= seps sep par_flag s 0.
Proof.
  induction s as [|c s IH]; cbn [skip_spaces]; [lia|].
  destruct (ISSPACE c) eqn:Hc; [|lia]. cbn [seps].
  destruct (space_no_paren c Hc) as [-> ->]. rewrite !andb_false_r.
  destruct ((0 =? 0)%Z && Ascii.eqb c sep); lia.
Qed.

Lemma skip_spaces_twice (s : string) : skip_spaces (skip_spaces s) = skip_spaces s.
Proof.
  induction s as [|c s IH]; cbn [skip_spaces]; [reflexivity|].
  destruct (ISSPACE c) eqn:Hc; [exact IH|]. cbn [skip_spaces]. rewrite Hc. reflexivity.
Qed.

Lemma next_sep_el_end (pstr : string) :
  skip_spaces pstr = "" -> next_sep_el pstr sep par_flag = (None, "").
Proof. intros H. unfold next_sep_el. rewrite H. reflexivity. Qed.

Lemma next_sep_el_rest (pstr : string) :
  skip_spaces (snd (next_sep_el pstr sep par_flag)) = ""
  \/ seps sep par_flag pstr 0 = S (seps sep par_flag (snd (next_sep_el pstr sep par_flag)) 0)
  \/ seps sep par_flag (snd (next_sep_el pstr sep par_flag)) 0 < seps sep par_flag pstr 0.
Proof.
  unfold next_sep_el. pose proof (skip_spaces_seps pstr) as Hskip.
  destruct (skip_spaces pstr) as [|c s] eqn:Es; [left; reflexivity|].
  pose proof (next_sep_el_loop_stops (String c s) 0 "" "") as Hstop.
  destruct (next_sep_el_loop sep par_flag (String c s) 0 "" "") as [out p].
  cbn [snd] in *. destruct Hstop as [->|(rest & -> & Hseps)]; [left; reflexivity|].
  rewrite Ascii.eqb_refl. right. right. lia.
Qed.

Lemma get_str_vect_loop_ends (els_num : nat) :
  forall pstr,
    skip_spaces pstr = "" \/ seps sep par_flag pstr 0 < els_num ->
    length (fst (get_str_vect_loop els_num pstr sep par_flag)) = els_num
    /\ skip_spaces (snd (get_str_vect_loop els_num pstr sep par_flag)) = "".
Proof.
  induction els_num as [|j IH]; intros pstr Hpstr; cbn [get_str_vect_loop].
  - cbn [fst snd length]. split; [reflexivity|]. destruct Hpstr as [H|H]; [exact H | lia].
  - pose proof (next_sep_el_rest pstr) as Hrest.
    destruct (next_sep_el pstr sep par_flag) as [el pstr'] eqn:E. cbn [snd] in Hrest.
    assert (skip_spaces pstr' = "" \/ seps sep par_flag pstr' 0 < j) as Hnext.
    { destruct Hpstr as [Hend|Hlt].
      - left. rewrite (next_sep_el_end pstr Hend) in E. injection E as _ <-. reflexivity.
      - destruct Hrest as [H|[H|H]]; [left; exact H | right; lia | right; lia]. }
    specialize (IH pstr' Hnext).
    destruct (get_str_vect_loop j pstr' sep par_flag) as [vect pstr''].
    cbn [fst snd length] in *. destruct IH as [-> ->]. split; reflexivity.
Qed.

Lemma get_str_vect_ends (str : string) :
  exists result,
    get_str_vect str sep par_flag = Done result
    /\ (result = None <-> str = "" \/ open_pars par_flag str 0 <> 0%Z)
    /\ forall vect, result = Some vect ->
                    length vect = S (seps sep par_flag str 0).
Proof.
  unfold get_str_vect, n_sep_els. destruct str as [|c s].
  - exists None. cbn. split; [reflexivity|]. split; [tauto | discriminate].
  - rewrite n_sep_els_loop_seps.
    destruct (Z.eqb_spec (open_pars par_flag (String c s) 0) 0) as [Hbal|Hbal].
    + destruct (Z.leb_spec (1 + Z.of_nat (seps sep par_flag (String c s) 0)) 0); [lia|].
      replace (Z.to_nat (1 + Z.of_nat (seps sep par_flag (String c s) 0)))
        with (S (seps sep par_flag (String c s) 0)) by lia.
      destruct (get_str_vect_loop_ends (S (seps sep par_flag (String c s) 0)) (String c s))
        as [Hlen Hend]; [right; lia|].
      destruct (get_str_vect_loop _ _ sep par_flag) as [vect pstr]. cbn [fst snd] in *.
      rewrite (next_sep_el_end pstr Hend). cbn [fst]. exists (Some vect).
      split; [reflexivity|]. split.
      * split; [discriminate|]. intros [Hs|Hs]; [discriminate | contradiction].
      * intros v Hv. injection Hv as <-. exact Hlen.
    + cbn. exists None. split; [reflexivity|]. split; [tauto | discriminate].
Qed.

End Ends.

(** [get_str_vect] never aborts: the element after the last is always
    [NULL].  Its result is [NULL] for the empty string and for a string
    whose parentheses are not balanced, and for no other; else the
    vector has one element more than the string has separators outside
    parentheses. *)
Theorem get_str_vect_never_aborts (str : string) (sep : ascii) (paren_p : bool) :
  exists result,
    get_str_vect str sep paren_p = Done result
    /\ (result = None <-> str = "" \/ open_pars paren_p str 0 <> 0%Z)
    /\ forall vect, result = Some vect -> length vect = S (seps sep paren_p str 0).
Proof. exact (get_str_vect_ends sep paren_p str). Qed.

End StrVect.

(** ** The insns with the same reservations *)

Module SameReservs.
Import Automata.

Local Open Scope nat_scope.

Section Groups.

Variable advance_cycle_insn_decl : nat.

(** The insn of [a] is the insn of the advancing of a cycle. *)
Definition advance_cycle (a : ainsn) : bool :=
  insn_reserv_decl a =? advance_cycle_insn_decl.

(** The sorted alt states [s] are those of [first_insns] or of an insn
    of [earlier]. *)
Definition seen (first_insns : list (list nat)) (earlier : list ainsn) (s : list nat) : bool :=
  existsb (alt_states_eq s)
    (first_insns ++ map sorted_alt_states (filter (fun a => negb (advance_cycle a)) earlier)).

Lemma existsb_alt_states_eq (s : list nat) (l : list (list nat)) :
  existsb (alt_states_eq s) l = true <-> In s l.
Proof.
  rewrite existsb_exists. split.
  - intros (x & Hx & Heq). apply AltStates.alt_states_eq_eq in Heq. subst. exact Hx.
  - intros H. exists s. split; [exact H | apply AltStates.alt_states_eq_eq; reflexivity].
Qed.

Lemma form_ainsn_with_same_reservs_loop_spec (ainsns : list ainsn) :
  forall first_insns i a,
    nth_error ainsns i = Some a ->
    nth_error (form_ainsn_with_same_reservs_loop advance_cycle_insn_decl ainsns first_insns) i
    = Some (mk_ainsn (insn_reserv_decl a) (alt_states a) (sorted_alt_states a)
              (advance_cycle a
               || negb (seen first_insns (firstn i ainsns) (sorted_alt_states a)))).
Proof.
  induction ainsns as [|a0 ainsns IH]; intros F i a Hi; [destruct i; discriminate|].
  cbn [form_ainsn_with_same_reservs_loop]. fold (advance_cycle a0). destruct i as [|i].
  - injection Hi as <-. unfold seen. cbn [firstn filter map]. rewrite app_nil_r.
    destruct (advance_cycle a0); [reflexivity|].
    destruct (existsb (alt_states_eq (sorted_alt_states a0)) F); reflexivity.
  - cbn [nth_error] in Hi.
    assert (forall F',
              (forall s, existsb (alt_states_eq s) F'
                         = seen F [a0] s) ->
              nth_error (form_ainsn_with_same_reservs_loop advance_cycle_insn_decl ainsns F') i
              = Some (mk_ainsn (insn_reserv_decl a) (alt_states a) (sorted_alt_states a)
                        (advance_cycle a
                         || negb (seen F (firstn (S i) (a0 :: ainsns))
                                    (sorted_alt_states a))))) as Hnext.
    { intros F' HF'. rewrite (IH F' i a Hi). do 3 f_equal. unfold seen in *.
      cbn [firstn filter]. rewrite !existsb_app, HF'. cbn [filter].
      destruct (negb (advance_cycle a0)); cbn [map app]; rewrite !existsb_app;
        cbn [existsb]; rewrite ?orb_false_r, ?orb_assoc; reflexivity. }
    destruct (advance_cycle a0) eqn:Eadv; cbn [nth_error].
    + apply Hnext. intros s. unfold seen. cbn [filter]. rewrite Eadv. cbn [negb map].
      rewrite app_nil_r. reflexivity.
    + destruct (existsb (alt_states_eq (sorted_alt_states a0)) F) eqn:Eseen;
        cbn [nth_error]; apply Hnext; intros s; unfold seen; cbn [filter]; rewrite Eadv;
        cbn [negb map]; rewrite existsb_app; cbn [existsb]; rewrite orb_false_r;
        [|reflexivity].
      destruct (alt_states_eq s (sorted_alt_states a0)) eqn:Eeq; [|rewrite orb_false_r; reflexivity].
      apply AltStates.alt_states_eq_eq in Eeq. subst s. rewrite Eseen. reflexivity.
Qed.

End Groups.

(** [form_ainsn_with_same_reservs] keeps the insns of the automaton,
    their order and their alt states.  It marks as the first insn with
    the same reservations the insn of the advancing of a cycle and every
    insn whose sorted alt states are those of no insn before it in the
    list, but for the insn of the advancing of a cycle; no other insn is
    marked. *)
Theorem form_ainsn_with_same_reservs_first (advance_cycle_insn_decl : nat)
    (automaton : automaton_t) (i : nat) (a : ainsn) :
  nth_error (ainsn_list automaton) i = Some a ->
  exists a',
    nth_error (ainsn_list (form_ainsn_with_same_reservs advance_cycle_insn_decl automaton)) i
    = Some a'
    /\ insn_reserv_decl a' = insn_reserv_decl a
    /\ alt_states a' = alt_states a
    /\ sorted_alt_states a' = sorted_alt_states a
    /\ (first_insn_with_same_reservs a' = true
        <-> insn_reserv_decl a = advance_cycle_insn_decl
            \/ forall j b,
                 j < i -> nth_error (ainsn_list automaton) j = Some b ->
                 insn_reserv_decl b <> advance_cycle_insn_decl ->
                 sorted_alt_states b <> sorted_alt_states a).
Proof.
  intros Hi. unfold form_ainsn_with_same_reservs, set_ainsn_list. cbn [ainsn_list].
  rewrite (form_ainsn_with_same_reservs_loop_spec advance_cycle_insn_decl _ [] i a Hi).
  eexists. split; [reflexivity|]. cbn [insn_reserv_decl alt_states sorted_alt_states
                                       first_insn_with_same_reservs].
  repeat split; try reflexivity.
  - intros H. apply orb_true_iff in H. destruct H as [H|H].
    + left. apply Nat.eqb_eq. exact H.
    + right. intros j b Hj Hb Hadv Heq. apply negb_true_iff in H.
      assert (seen advance_cycle_insn_decl [] (firstn i (ainsn_list automaton))
                (sorted_alt_states a) = true) as Hseen; [|congruence].
      unfold seen. cbn [app]. apply existsb_alt_states_eq. rewrite <- Heq.
      apply in_map. apply filter_In. split.
      * apply nth_error_In with (n := j). rewrite nth_error_firstn.
        destruct (Nat.ltb_spec j i); [exact Hb | lia].
      * apply negb_true_iff. apply Nat.eqb_neq. exact Hadv.
  - intros [H|H]; apply orb_true_iff; [left; apply Nat.eqb_eq; exact H|].
    right. apply negb_true_iff.
    destruct (seen advance_cycle_insn_decl [] (firstn i (ainsn_list automaton))
                (sorted_alt_states a)) eqn:Hseen; [|reflexivity].
    exfalso. unfold seen in Hseen. cbn [app] in Hseen.
    apply existsb_alt_states_eq, in_map_iff in Hseen.
    destruct Hseen as (b & Heq & Hb). apply filter_In in Hb. destruct Hb as [Hb Hadv].
    apply In_nth_error in Hb. destruct Hb as (j & Hj).
    assert (j < i) as Hlt.
    { assert (j < length (firstn i (ainsn_list automaton))) as Hlen
        by (apply nth_error_Some; congruence).
      rewrite length_firstn in Hlen. lia. }
    rewrite nth_error_firstn in Hj. destruct (Nat.ltb_spec j i); [|lia].
    apply (H j b Hlt Hj); [|exact Heq].
    apply Nat.eqb_neq. apply negb_true_iff. exact Hadv.
Qed.

Lemma form_ainsn_with_same_reservs_first_witness :
  exists a',
    nth_error (ainsn_list (form_ainsn_with_same_reservs 4
                             (mk_automaton [mk_ainsn 2 [0] [0] false; mk_ainsn 3 [0] [0] false;
                                            mk_ainsn 4 [] [] false] None 0 0))) 1
    = Some a'
    /\ insn_reserv_decl a' = 3
    /\ alt_states a' = [0]
    /\ sorted_alt_states a' = [0]
    /\ (first_insn_with_same_reservs a' = true
        <-> 3 = 4
            \/ forall j b,
                 j < 1 ->
                 nth_error [mk_ainsn 2 [0] [0] false; mk_ainsn 3 [0] [0] false;
                            mk_ainsn 4 [] [] false] j = Some b ->
                 insn_reserv_decl b <> 4 ->
                 sorted_alt_states b <> [0]).
Proof.
  apply (form_ainsn_with_same_reservs_first 4
           (mk_automaton [mk_ainsn 2 [0] [0] false; mk_ainsn 3 [0] [0] false;
                          mk_ainsn 4 [] [] false] None 0 0) 1 (mk_ainsn 3 [0] [0] false)).
  reflexivity.
Defined.

End SameReservs.

(** ** The checker: exclusion sets *)

Module Exclusion.
Import IR.

Local Open Scope nat_scope.

(** The errors of [add_excls]. *)
Inductive message : Type :=
| excludes_itself (unit : nat)
| different_automata (src dst : nat).

Definition add_to_excl_list (src : nat) (d : unit_decl) : unit_decl :=
  mk_unit_decl (automaton_name d) (query_p d) (automaton_decl d)
    (max_occ_cycle_num d) (min_occ_cycle_num d) (excl_list d ++ [src])
    (presence_list d) (final_presence_list d) (absence_list d) (final_absence_list d)
    (in_set_p d).

(** The body of the loops of [add_excls], for the units [dst] and
    [src]. *)
Definition add_excl (dst src : nat) (st : list unit_decl * list message)
    : list unit_decl * list message :=
  let (units, errors) := st in
  match nth_error units dst, nth_error units src with
  | Some dst_decl, Some src_decl =>
    if dst =? src then (units, errors ++ [excludes_itself src])
    else if PresenceAbsence.automata_differ dst_decl src_decl
    then (units, errors ++ [different_automata src dst])
    else if existsb (Nat.eqb src) (excl_list dst_decl) then st
    else (update_unit units dst (add_to_excl_list src), errors)
  | _, _ => st
  end.

(** [add_excls (dest_list, source_list, excl_pos)] *)
Definition add_excls (dest_list source_list : list nat)
    (st : list unit_decl * list message) : list unit_decl * list message :=
  fold_left (fun st dst => fold_left (fun st src => add_excl dst src st) source_list st)
    dest_list st.

(** The body of the loop of [process_decls] over the exclusion
    declarations, on the two lists of [process_excls]. *)
Definition add_exclusion (unit_set_el_list unit_set_el_list_2 : list nat)
    (st : list unit_decl * list message) : list unit_decl * list message :=
  add_excls unit_set_el_list_2 unit_set_el_list
    (add_excls unit_set_el_list unit_set_el_list_2 st).

(** The unit [u] excludes the unit [v]. *)
Definition excludes (units : list unit_decl) (u v : nat) : Prop :=
  exists d, nth_error units u = Some d /\ In v (excl_list d).

(** The units [u] and [v] may stand in one exclusion. *)
Definition compatible (units : list unit_decl) (u v : nat) : Prop :=
  u <> v
  /\ exists du dv,
       nth_error units u = Some du /\ nth_error units v = Some dv
       /\ PresenceAbsence.automata_differ du dv = false.

(** The names of the automata stay. *)
Definition same_automata (units units' : list unit_decl) : Prop :=
  forall u, option_map automaton_name (nth_error units' u)
            = option_map automaton_name (nth_error units u).

Lemma automata_differ_names (d1 d2 d1' d2' : unit_decl) :
  automaton_name d1 = automaton_name d1' -> automaton_name d2 = automaton_name d2' ->
  PresenceAbsence.automata_differ d1 d2 = PresenceAbsence.automata_differ d1' d2'.
Proof. unfold PresenceAbsence.automata_differ. intros -> ->. reflexivity. Qed.

Lemma automata_differ_sym (d1 d2 : unit_decl) :
  PresenceAbsence.automata_differ d1 d2 = PresenceAbsence.automata_differ d2 d1.
Proof.
  unfold PresenceAbsence.automata_differ.
  destruct (automaton_name d1), (automaton_name d2); try reflexivity.
  rewrite String.eqb_sym. reflexivity.
Qed.

Lemma compatible_same_automata (units units' : list unit_decl) (u v : nat) :
  same_automata units units' -> compatible units u v -> compatible units' u v.
Proof.
  intros Hsame (Hne & du & dv & Hu & Hv & Hdiffer). split; [exact Hne|].
  pose proof (Hsame u) as Su. pose proof (Hsame v) as Sv. rewrite Hu in Su. rewrite Hv in Sv.
  destruct (nth_error units' u) as [du'|]; [|discriminate].
  destruct (nth_error units' v) as [dv'|]; [|discriminate].
  cbn in Su, Sv. injection Su as Su. injection Sv as Sv.
  exists du', dv'. split; [reflexivity|]. split; [reflexivity|].
  rewrite (automata_differ_names du' dv' du dv Su Sv). exact Hdiffer.
Qed.

Lemma compatible_sym (units : list unit_decl) (u v : nat) :
  compatible units u v -> compatible units v u.
Proof.
  intros (Hne & du & dv & Hu & Hv & Hdiffer). split; [auto|].
  exists dv, du. split; [exact Hv|]. split; [exact Hu|].
  rewrite automata_differ_sym. exact Hdiffer.
Qed.

Lemma existsb_eqb (x : nat) (l : list nat) : existsb (Nat.eqb x) l = true <-> In x l.
Proof.
  rewrite existsb_exists. split.
  - intros (y & Hy & Heq). apply Nat.eqb_eq in Heq. subst. exact Hy.
  - intros H. exists x. split; [exact H | apply Nat.eqb_refl].
Qed.

(** What one step adds. *)
Lemma add_excl_spec (dst src : nat) (units : list unit_decl) (errors : list message) :
  same_automata units (fst (add_excl dst src (units, errors)))
  /\ forall u v,
       excludes (fst (add_excl dst src (units, errors))) u v
       <-> excludes units u v \/ (u = dst /\ v = src /\ compatible units dst src).
Proof.
  unfold add_excl.
  destruct (nth_error units dst) as [dst_decl|] eqn:Edst;
    [|split; [intros u; reflexivity|];
      intros u v; split; [auto|];
      intros [H|(-> & -> & _ & du & _ & Hu & _)]; [exact H | congruence]].
  destruct (nth_error units src) as [src_decl|] eqn:Esrc;
    [|split; [intros u; reflexivity|];
      intros u v; split; [auto|];
      intros [H|(-> & -> & _ & _ & dv & _ & Hv & _)]; [exact H | congruence]].
  destruct (Nat.eqb_spec dst src) as [Heq|Hne].
  { split; [intros u; reflexivity|]. intros u v. split; [auto|].
    intros [H|(_ & _ & Hc & _)]; [exact H | contradiction]. }
  destruct (PresenceAbsence.automata_differ dst_decl src_decl) eqn:Edif.
  { split; [intros u; reflexivity|]. intros u v. split; [auto|].
    intros [H|(_ & _ & _ & du & dv & Hu & Hv & Hd)]; [exact H | congruence]. }
  assert (compatible units dst src) as Hc.
  { split; [exact Hne|]. exists dst_decl, src_decl. auto. }
  destruct (existsb (Nat.eqb src) (excl_list dst_decl)) eqn:Ein; cbn [fst].
  { split; [intros u; reflexivity|]. intros u v. split; [auto|].
    intros [H|(-> & -> & _)]; [exact H|]. exists dst_decl. split; [exact Edst|].
    apply existsb_eqb. exact Ein. }
  split.
  - intros u. rewrite update_unit_nth_error. destruct (Nat.eqb_spec dst u) as [<-|_];
      [|reflexivity]. rewrite Edst. reflexivity.
  - intros u v. unfold excludes. rewrite update_unit_nth_error.
    destruct (Nat.eqb_spec dst u) as [<-|Hu].
    + rewrite Edst. cbn [option_map]. split.
      * intros (d & Hd & Hv). injection Hd as <-. cbn [add_to_excl_list excl_list] in Hv.
        apply in_app_or in Hv. destruct Hv as [Hv|[<-|[]]]; [left; eauto | right; auto].
      * intros [(d & Hd & Hv)|(_ & -> & _)]; eexists; (split; [reflexivity|]);
          cbn [add_to_excl_list excl_list]; apply in_or_app.
        -- left. congruence.
        -- right. left. reflexivity.
    + split; [auto|]. intros [H|(-> & _)]; [exact H | contradiction].
Qed.

Lemma same_automata_trans (a b c : list unit_decl) :
  same_automata a b -> same_automata b c -> same_automata a c.
Proof. intros H1 H2 u. rewrite H2. apply H1. Qed.

(** What the steps for the pairs [pairs] add. *)
Lemma add_excl_pairs (pairs : list (nat * nat)) :
  forall st,
    same_automata (fst st)
      (fst (fold_left (fun st p => add_excl (fst p) (snd p) st) pairs st))
    /\ forall u v,
         excludes (fst (fold_left (fun st p => add_excl (fst p) (snd p) st) pairs st)) u v
         <-> excludes (fst st) u v \/ (In (u, v) pairs /\ compatible (fst st) u v).
Proof.
  induction pairs as [|[dst src] pairs IH]; intros [units errors]; cbn [fold_left fst snd].
  - split; [intros u; reflexivity|]. intros u v. split; [auto|]. intros [H|[[] _]]. exact H.
  - destruct (add_excl_spec dst src units errors) as [Hsame Hstep].
    destruct (add_excl dst src (units, errors)) as [units1 errors1] eqn:E1.
    cbn [fst] in Hsame, Hstep. destruct (IH (units1, errors1)) as [Hsame' Hrest].
    cbn [fst] in Hsame', Hrest. split; [eapply same_automata_trans; eassumption|].
    intros u v. rewrite Hrest, Hstep. split.
    + intros [[H|(-> & -> & Hc)]|[Hin Hc]]; [left; exact H | right | right].
      * split; [left; reflexivity | exact Hc].
      * split; [right; exact Hin|].
        apply (compatible_same_automata units1 units); [|exact Hc].
        intros x. symmetry. apply Hsame.
    + intros [H|[[Heq|Hin] Hc]]; [left; left; exact H | |].
      * injection Heq as -> ->. left. right. auto.
      * right. split; [exact Hin|]. apply (compatible_same_automata units units1); assumption.
Qed.

Lemma add_excls_pairs (dest_list source_list : list nat) :
  forall st,
    add_excls dest_list source_list st
    = fold_left (fun st p => add_excl (fst p) (snd p) st)
        (list_prod dest_list source_list) st.
Proof.
  unfold add_excls. induction dest_list as [|dst dest_list IH]; intros st; [reflexivity|].
  cbn [fold_left list_prod]. rewrite fold_left_app, IH. f_equal.
  clear IH. revert st. induction source_list as [|src source_list IH]; intros st;
    [reflexivity|].
  cbn [map fold_left fst snd]. apply IH.
Qed.

Lemma add_excls_spec (dest_list source_list : list nat) (st : list unit_decl * list message) :
  same_automata (fst st) (fst (add_excls dest_list source_list st))
  /\ forall u v,
       excludes (fst (add_excls dest_list source_list st)) u v
       <-> excludes (fst st) u v
           \/ (In u dest_list /\ In v source_list /\ compatible (fst st) u v).
Proof.
  rewrite add_excls_pairs. destruct (add_excl_pairs (list_prod dest_list source_list) st)
    as [Hsame Hpairs].
  split; [exact Hsame|]. intros u v. rewrite Hpairs, in_prod_iff. tauto.
Qed.

(** An exclusion declaration makes each unit of its first list exclude
    each unit of its second list and the other way round, but for a unit
    and itself and for two units whose automata have different names,
    and changes no other exclusion; exclusions that went both ways
    before go both ways after it. *)
Theorem add_exclusion_both_ways (unit_set_el_list unit_set_el_list_2 : list nat)
    (units : list unit_decl) (errors : list message) :
  (forall u v, excludes units u v -> excludes units v u) ->
  let units' := fst (add_exclusion unit_set_el_list unit_set_el_list_2 (units, errors)) in
  (forall u v,
     excludes units' u v
     <-> excludes units u v
         \/ (compatible units u v
             /\ (In u unit_set_el_list /\ In v unit_set_el_list_2
                 \/ In u unit_set_el_list_2 /\ In v unit_set_el_list)))
  /\ forall u v, excludes units' u v -> excludes units' v u.
Proof.
  intros Hsym units'.
  assert (forall u v,
            excludes units' u v
            <-> excludes units u v
                \/ (compatible units u v
                    /\ (In u unit_set_el_list /\ In v unit_set_el_list_2
                        \/ In u unit_set_el_list_2 /\ In v unit_set_el_list))) as Hall.
  { intros u v. unfold units', add_exclusion.
    destruct (add_excls_spec unit_set_el_list unit_set_el_list_2 (units, errors))
      as [Hsame1 H1].
    destruct (add_excls_spec unit_set_el_list_2 unit_set_el_list
                (add_excls unit_set_el_list unit_set_el_list_2 (units, errors)))
      as [_ H2].
    cbn [fst] in *. rewrite H2, H1. split.
    - intros [[H|(Hu & Hv & Hc)]|(Hu & Hv & Hc)]; [left; exact H | right; tauto|].
      right. split; [|tauto].
      apply (compatible_same_automata
               (fst (add_excls unit_set_el_list unit_set_el_list_2 (units, errors))) units);
        [|exact Hc].
      intros x. symmetry. apply Hsame1.
    - intros [H|[Hc [[Hu Hv]|[Hu Hv]]]]; [left; left; exact H | left; right; tauto|].
      right. split; [exact Hu|]. split; [exact Hv|].
      apply (compatible_same_automata units); assumption. }
  split; [exact Hall|]. intros u v Huv. apply Hall. apply Hall in Huv.
  destruct Huv as [H|[Hc H]]; [left; apply Hsym; exact H|].
  right. split; [apply compatible_sym; exact Hc | tauto].
Qed.

Lemma add_exclusion_both_ways_witness :
  let units' := fst (add_exclusion [0; 1] [1; 2]
                       ([gen_cpu_unit None; gen_cpu_unit None; gen_cpu_unit None], [])) in
  (forall u v,
     excludes units' u v
     <-> excludes [gen_cpu_unit None; gen_cpu_unit None; gen_cpu_unit None] u v
         \/ (compatible [gen_cpu_unit None; gen_cpu_unit None; gen_cpu_unit None] u v
             /\ (In u [0; 1] /\ In v [1; 2] \/ In u [1; 2] /\ In v [0; 1])))
  /\ forall u v, excludes units' u v -> excludes units' v u.
Proof.
  apply (add_exclusion_both_ways [0; 1] [1; 2]
           [gen_cpu_unit None; gen_cpu_unit None; gen_cpu_unit None] []).
  intros u v (d & Hd & Hv). exfalso.
  destruct u as [|[|[|u]]]; cbn in Hd; [| | |destruct u; discriminate];
    injection Hd as <-; exact Hv.
Defined.

End Exclusion.

(** ** The automaton that [make_automaton] builds *)

Module BuildDFA.
Import Bits Reservs IR Automata Minimize.
Import Transform(outcome, Done, Abort, NoFuel).
Import StateGraph.

Local Open Scope nat_scope.
Local Open Scope heap_scope.

(** [state->it_was_placed_in_stack_for_NDFA_forming] *)
Definition placed (st : store) (s : nat) : bool :=
  it_was_placed_in_stack_for_NDFA_forming (the_state st s).

(** What [intersected_state_reservs_p] reads of a state. *)
Definition core (st : store) (s : nat) : reserv_sets_t * nat :=
  (reservs (the_state st s), automaton (the_state st s)).

(** The states of the table are nodes, none of them free. *)
Definition table_ok (st : store) : Prop := in_use st (state_table st).

(** A step that changes the state [s] only. *)
Definition only (s : nat) (st st' : store) : Prop :=
  frame s st st' /\ state_table st' = state_table st.

Lemma only_table_ok (s : nat) (st st' : store) :
  only s st st' -> table_ok st -> table_ok st'.
Proof.
  intros [Hframe Htable] Hok. unfold table_ok. rewrite Htable.
  exact (in_use_frame s st st' _ Hframe Hok).
Qed.

Lemma write_only (s : nat) (x : state) (st : store) :
  s < length (states st) ->
  only s st (mk_store (set_nth s x (states st)) (free_states st) (state_table st)
               (allocated_arcs_num st))
  /\ the_state (mk_store (set_nth s x (states st)) (free_states st) (state_table st)
                  (allocated_arcs_num st)) s = x.
Proof.
  intros Hs. split; [split; [split; [|split]|]|].
  - intros y Hy. rewrite the_state_write by exact Hs.
    destruct (Nat.eqb_spec y s); [contradiction | reflexivity].
  - cbn [states]. apply set_nth_length. exact Hs.
  - reflexivity.
  - reflexivity.
  - rewrite the_state_write by exact Hs. rewrite Nat.eqb_refl. reflexivity.
Qed.

Section Build.

Variable units_num : nat.
Variable chars_num : nat.
Variable unit_excl_set_table : list Z.
Variable unit_presence_set_table : list (list Z).
Variable unit_final_presence_set_table : list (list Z).
Variable unit_absence_set_table : list (list Z).
Variable unit_final_absence_set_table : list (list Z).
Variable max_cycles_num : nat.
Variable advance_cycle_insn_decl : nat.

Local Abbreviation intersected :=
  (intersected_state_reservs_p units_num chars_num unit_excl_set_table
     unit_presence_set_table unit_final_presence_set_table unit_absence_set_table
     unit_final_absence_set_table).

(** *** The new states *)

Lemma get_free_state_unplaced (with_reservs : bool) (a : nat) (st : store) r st1 :
  free_states_allocated st ->
  get_free_state max_cycles_num with_reservs a st = Done (r, st1) ->
  placed st1 r = false.
Proof.
  intros Hfree E. unfold get_free_state in E.
  destruct (max_cycles_num <=? 0); [discriminate|].
  destruct (free_states st) as [|f rest] eqn:Ef; injection E as <- <-; unfold placed.
  - unfold the_state. cbn [states]. rewrite nth_set_nth_end. reflexivity.
  - assert (f < length (states st)) as Hf.
    { unfold free_states_allocated in Hfree. rewrite Ef in Hfree.
      inversion Hfree; assumption. }
    unfold the_state. cbn [states]. rewrite nth_set_nth by exact Hf.
    rewrite Nat.eqb_refl. reflexivity.
Qed.

Lemma state_in_table_for_frame (r : nat) (st : store) e st' :
  in_use st (r :: state_table st) ->
  ~ In r (state_table st) ->
  state_in_table_for r st = Done (e, st') ->
  states st' = states st
  /\ table_ok st'
  /\ ((e = r /\ state_table st' = r :: state_table st)
      \/ (In e (state_table st) /\ state_table st' = state_table st)).
Proof.
  intros (Hfree & Hnd & Hused) Hnew E. unfold state_in_table_for, bind, insert_state in E.
  destruct (find _ (state_table st)) as [entry|] eqn:Efind.
  - apply find_some in Efind. destruct Efind as [Hentry _].
    destruct (Nat.eqb_spec r entry) as [->|Hne]; [contradiction|].
    cbn in E. unfold ret in E. injection E as <- <-. cbn [states state_table].
    split; [reflexivity|]. split; [|right; auto].
    destruct (Hused r (or_introl eq_refl)) as [Hr Hrf].
    split; [|split].
    + constructor; [exact Hr | exact Hfree].
    + cbn [free_states]. constructor; assumption.
    + cbn [free_states state_table states]. intros u Hu.
      destruct (Hused u (or_intror Hu)) as [Hlt Hnf]. split; [exact Hlt|].
      intros [<-|H]; [contradiction | exact (Hnf H)].
  - rewrite Nat.eqb_refl in E. cbn in E. unfold ret in E. injection E as <- <-.
    cbn [states state_table]. split; [reflexivity|]. split; [|left; auto].
    split; [exact Hfree|]. split; [exact Hnd|]. exact Hused.
Qed.

(** What [states_union] and [state_shift] leave: the states of the
    table as they are, and their result in the table, a state without
    arcs that was on no stack if it is new there. *)
Definition new_state (st st' : store) (e : nat) : Prop :=
  table_ok st'
  /\ (forall s, In s (state_table st) -> the_state st' s = the_state st s)
  /\ incl (state_table st) (state_table st')
  /\ In e (state_table st')
  /\ forall s, In s (state_table st') ->
               In s (state_table st)
               \/ (s = e /\ out_arcs st' e = [] /\ placed st' e = false).

Lemma fresh_state_in_table (a : nat) (R : reserv_sets_t) (st : store) r st1 st2 e st' :
  table_ok st ->
  get_free_state max_cycles_num true a st = Done (r, st1) ->
  set_reservs r R st1 = Done (tt, st2) ->
  state_in_table_for r st2 = Done (e, st') ->
  new_state st st' e.
Proof.
  intros Hok Eg Es Et.
  assert (0 < max_cycles_num) as Hcycles.
  { unfold get_free_state in Eg. destruct (Nat.leb_spec max_cycles_num 0); [discriminate|].
    lia. }
  pose proof (get_free_state_unplaced true a st r st1 (proj1 Hok) Eg) as Hunplaced.
  destruct (get_free_state_spec _ _ _ _ _ _ (proj1 Hok) Eg)
    as (Hr & _ & _ & _ & _ & _ & Htable1 & _ & _ & _).
  destruct (get_free_state_fresh max_cycles_num true a st (state_table st) Hcycles Hok)
    as (r' & st1' & Eg' & Hnew & Huse1 & Harcs1 & _ & Hsame1).
  rewrite Eg in Eg'. injection Eg' as <- <-.
  unfold set_reservs, bind, read, write in Es. injection Es as <-.
  set (x := mk_state R _ _ _ _ _) in *.
  destruct (write_only r x st1 Hr) as [Honly Hx].
  set (st2 := mk_store _ _ _ _) in *.
  assert (state_table st2 = state_table st) as Htable2 by exact Htable1.
  destruct (state_in_table_for_frame r st2 e st') as (Hstates & Hok' & Hcases).
  - rewrite Htable2. exact (in_use_frame r st1 st2 _ (proj1 Honly) Huse1).
  - rewrite Htable2. exact Hnew.
  - exact Et.
  - assert (forall s, the_state st' s = the_state st2 s) as Hsame'
      by (intros s; unfold the_state; rewrite Hstates; reflexivity).
    assert (forall s, In s (state_table st) -> the_state st' s = the_state st s) as Hsame.
    { intros s Hs. rewrite Hsame'. destruct Honly as [(Hothers & _) _].
      rewrite Hothers by (intros ->; contradiction). apply Hsame1. exact Hs. }
    split; [exact Hok'|]. split; [exact Hsame|].
    rewrite Htable2 in Hcases. destruct Hcases as [[-> Htable']|[He Htable']];
      rewrite Htable'.
    + split; [intros s Hs; right; exact Hs|]. split; [left; reflexivity|].
      intros s [<-|Hs]; [right | left; exact Hs]. split; [reflexivity|].
      unfold out_arcs, placed. rewrite !Hsame', Hx. unfold x. cbn.
      split; [exact Harcs1 | exact Hunplaced].
    + split; [apply incl_refl|]. split; [exact He|]. intros s Hs. left. exact Hs.
Qed.

Lemma states_union_new_state (state1 state2 : nat) (reservs_matter : reserv_sets_t)
    (st : store) e st' :
  table_ok st ->
  states_union max_cycles_num state1 state2 reservs_matter st = Done (e, st') ->
  new_state st st' e.
Proof.
  intros Hok E. unfold states_union in E. unfold bind at 1, read at 1 in E.
  unfold bind at 1, read at 1 in E.
  destruct (negb _); [discriminate|]. unfold bind at 1 in E.
  destruct (get_free_state max_cycles_num true _ st) as [[r st1]| |] eqn:Eg;
    try discriminate.
  unfold bind at 1 in E.
  destruct (set_reservs r _ st1) as [[[] st2]| |] eqn:Es; try discriminate.
  exact (fresh_state_in_table _ _ st r st1 st2 e st' Hok Eg Es E).
Qed.

Lemma state_shift_new_state (state : nat) (reservs_matter : reserv_sets_t)
    (st : store) e st' :
  table_ok st ->
  state_shift max_cycles_num state reservs_matter st = Done (e, st') ->
  new_state st st' e.
Proof.
  intros Hok E. unfold state_shift in E. unfold bind at 1, read at 1 in E.
  unfold bind at 1 in E.
  destruct (get_free_state max_cycles_num true _ st) as [[r st1]| |] eqn:Eg;
    try discriminate.
  unfold bind at 1, read at 1 in E. unfold bind at 1 in E.
  destruct (set_reservs r _ st1) as [[[] st2]| |] eqn:Es; try discriminate.
  exact (fresh_state_in_table _ _ st r st1 st2 e st' Hok Eg Es E).
Qed.

(** *** The steps on one state *)

(** A step that changes the arcs of [s] and nothing else. *)
Definition touch (s : nat) (st st' : store) : Prop :=
  only s st st' /\ placed st' s = placed st s /\ core st' s = core st s.

Lemma touch_refl (s : nat) (st : store) : touch s st st.
Proof. split; [split; [apply frame_refl | reflexivity] | split; reflexivity]. Qed.

Lemma touch_trans (s : nat) (st st' st'' : store) :
  touch s st st' -> touch s st' st'' -> touch s st st''.
Proof.
  intros ((Hf & Ht) & Hp & Hc) ((Hf' & Ht') & Hp' & Hc').
  split; [split; [eapply frame_trans; eassumption | congruence]|].
  split; congruence.
Qed.

Lemma touch_core (s : nat) (st st' : store) :
  touch s st st' -> forall y, core st' y = core st y.
Proof.
  intros (((Hothers & _) & _) & _ & Hc) y. destruct (Nat.eq_dec y s) as [->|Hy];
    [exact Hc|]. unfold core. rewrite Hothers by exact Hy. reflexivity.
Qed.

Lemma touch_placed (s : nat) (st st' : store) :
  touch s st st' -> forall y, placed st' y = placed st y.
Proof.
  intros (((Hothers & _) & _) & Hp & _) y. destruct (Nat.eq_dec y s) as [->|Hy];
    [exact Hp|]. unfold placed. rewrite Hothers by exact Hy. reflexivity.
Qed.

Lemma touch_arcs (s : nat) (st st' : store) :
  touch s st st' -> forall y, y <> s -> out_arcs st' y = out_arcs st y.
Proof.
  intros (((Hothers & _) & _) & _) y Hy. unfold out_arcs. rewrite Hothers by exact Hy.
  reflexivity.
Qed.

Lemma touch_length (s : nat) (st st' : store) :
  touch s st st' -> length (states st') = length (states st).
Proof. intros (((_ & Hlen & _) & _) & _). exact Hlen. Qed.

Lemma set_first_out_arc_touch (s : nat) (arcs : list arc) (st : store) r st' :
  s < length (states st) ->
  set_first_out_arc s arcs st = Done (r, st') ->
  touch s st st' /\ out_arcs st' s = arcs.
Proof.
  intros Hs E. unfold set_first_out_arc, bind, read, write in E. injection E as _ <-.
  destruct (write_only s (mk_state (reservs (the_state st s)) (automaton (the_state st s))
                            arcs (it_was_placed_in_stack_for_NDFA_forming (the_state st s))
                            (it_was_placed_in_stack_for_DFA_forming (the_state st s))
                            (component_states (the_state st s))) st Hs) as [Honly Hx].
  unfold touch, placed, core, out_arcs. rewrite Hx. cbn. auto.
Qed.

Lemma add_arc_new (from to i : nat) (alts : Z) (st : store) id st' :
  from < length (states st) ->
  (forall a, In a (out_arcs st from) -> insn a <> i) ->
  add_arc from to i alts st = Done (id, st') ->
  touch from st st' /\ out_arcs st' from = mk_arc id to i alts :: out_arcs st from.
Proof.
  intros Hfrom Hnew E. unfold add_arc, bind at 1, read at 1 in E. unfold find_arc in E.
  fold (out_arcs st from) in E.
  destruct (find _ (out_arcs st from)) as [a|] eqn:Efind.
  - exfalso. apply find_some in Efind. destruct Efind as [Ha Heq].
    apply andb_true_iff in Heq. destruct Heq as [_ Hi]. apply Nat.eqb_eq in Hi.
    exact (Hnew a Ha Hi).
  - unfold bind at 1 in E.
    set (st0 := mk_store (states st) (free_states st) (state_table st)
                  (S (allocated_arcs_num st))) in E.
    destruct (set_first_out_arc from _ st0) as [[[] st1]| |] eqn:Es; try discriminate.
    unfold ret in E. injection E as <- <-.
    destruct (set_first_out_arc_touch from _ st0 tt st1 Hfrom Es) as [Htouch Harcs].
    split; [|exact Harcs].
    destruct Htouch as (((Hothers & Hlen & Hfree) & Htable) & Hp & Hc).
    split; [split; [split; [|split]|]|split]; assumption.
Qed.

Lemma update_arc_touch (from id : nat) (f : arc -> arc) (st : store) r st' :
  from < length (states st) ->
  update_arc from id f st = Done (r, st') ->
  touch from st st'
  /\ out_arcs st' from
     = map (fun a => if arc_id a =? id then f a else a) (out_arcs st from).
Proof.
  intros Hfrom E. unfold update_arc, bind at 1, read at 1 in E.
  exact (set_first_out_arc_touch from _ st r st' Hfrom E).
Qed.

Lemma intersected_pure (s1 s2 : nat) (st : store) b st' :
  intersected s1 s2 st = Done (b, st') -> st' = st.
Proof.
  unfold intersected_state_reservs_p, bind, read. destruct (negb _); [discriminate|].
  unfold ret. intros E. injection E as _ <-. reflexivity.
Qed.

(** The state [state] and the alternative [alt] are not intersected. *)
Definition free_alt (st : store) (state alt : nat) : bool :=
  match intersected state alt st with
  | Done (false, _) => true
  | _ => false
  end.

Lemma free_alt_core (st st' : store) (state alt : nat) :
  core st' state = core st state -> core st' alt = core st alt ->
  free_alt st' state alt = free_alt st state alt.
Proof.
  intros H1 H2. unfold free_alt, intersected_state_reservs_p, bind, read.
  unfold core in H1, H2. injection H1 as -> ->. injection H2 as -> ->.
  destruct (negb _); reflexivity.
Qed.

Definition set_state_alts (id : nat) (alts : Z) (a : arc) : arc :=
  if arc_id a =? id then mk_arc (arc_id a) (to_state a) (insn a) alts else a.

Lemma count_state_alts_touch (state id : nat) (alts : list nat) :
  forall st r st',
    state < length (states st) ->
    count_state_alts units_num chars_num unit_excl_set_table unit_presence_set_table
      unit_final_presence_set_table unit_absence_set_table unit_final_absence_set_table
      state id alts st = Done (r, st') ->
    touch state st st'
    /\ out_arcs st' state
       = map (fun a => set_state_alts id
                         (state_alts a
                          + Z.of_nat (length (filter (free_alt st state) alts)))%Z a)
           (out_arcs st state).
Proof.
  induction alts as [|alt alts IH]; intros st r st' Hstate E; cbn [count_state_alts] in E.
  - unfold ret in E. injection E as _ <-. split; [apply touch_refl|].
    cbn [filter length]. rewrite <- (map_id (out_arcs st state)) at 1.
    apply map_ext. intros a. unfold set_state_alts.
    destruct (arc_id a =? id); [|reflexivity]. destruct a; cbn.
    f_equal. lia.
  - unfold bind at 1 in E.
    destruct (intersected state alt st) as [[b st0]| |] eqn:Ei; try discriminate.
    pose proof (intersected_pure _ _ _ _ _ Ei) as ->. unfold bind at 1 in E.
    cbn [filter]. unfold free_alt at 1. rewrite Ei. destruct b; cbn [negb] in E.
    + unfold ret at 1 in E. exact (IH st r st' Hstate E).
    + destruct (update_arc state id _ st) as [[[] st1]| |] eqn:Eu; try discriminate.
      destruct (update_arc_touch state id _ st tt st1 Hstate Eu) as [Htouch1 Harcs1].
      destruct (IH st1 r st') as [Htouch' Harcs']; [|exact E|].
      { rewrite (touch_length _ _ _ Htouch1). exact Hstate. }
      split; [eapply touch_trans; eassumption|].
      rewrite Harcs', Harcs1, map_map.
      rewrite (filter_ext (free_alt st1 state) (free_alt st state))
        by (intros x; apply free_alt_core; apply (touch_core state); exact Htouch1).
      apply map_ext. intros a. unfold set_state_alts. cbn [length].
      destruct (arc_id a =? id) eqn:Eid; cbn [arc_id state_alts to_state insn];
        rewrite Eid; [|reflexivity].
      f_equal. lia.
Qed.

Lemma place_in_stack_cases (e : nat) (stack : list nat) (st : store) stack' st' :
  e < length (states st) ->
  place_in_stack_for_NDFA e stack st = Done (stack', st') ->
  (placed st e = true /\ st' = st /\ stack' = stack)
  \/ (placed st e = false /\ stack' = e :: stack /\ only e st st'
      /\ placed st' e = true /\ out_arcs st' e = out_arcs st e
      /\ core st' e = core st e).
Proof.
  intros He E. unfold place_in_stack_for_NDFA, bind at 1, read at 1 in E.
  fold (placed st e) in E. destruct (placed st e) eqn:Ep; cbn [negb] in E.
  - unfold ret in E. injection E as <- <-. left. auto.
  - right. unfold set_placed_NDFA, bind, read, write, ret in E. injection E as <- <-.
    destruct (write_only e (mk_state (reservs (the_state st e)) (automaton (the_state st e))
                              (first_out_arc (the_state st e)) true
                              (it_was_placed_in_stack_for_DFA_forming (the_state st e))
                              (component_states (the_state st e))) st He) as [Honly Hx].
    unfold placed, out_arcs, core. rewrite Hx. cbn. auto 10.
Qed.

(** *** The states whose arcs are made *)

Section Automaton.

(** [automaton->ainsn_list] and [automaton->start_state] *)
Variable ainsns : list ainsn.
Variable start : nat.

(** The insn [i] of the automaton is the advancing of a cycle. *)
Definition advance (i : nat) : bool :=
  match nth_error ainsns i with
  | Some a => insn_reserv_decl a =? advance_cycle_insn_decl
  | None => false
  end.

(** The state has at most one arc by an insn, each with alternatives,
    to a state of the table that is or was on the stack, and one of them
    by the advancing of a cycle; the arcs are by insns of the automaton. *)
Definition finished (st : store) (s : nat) : Prop :=
  deterministic st s
  /\ (forall a, In a (out_arcs st s) ->
                In (to_state a) (state_table st) /\ placed st (to_state a) = true)
  /\ (exists a, In a (out_arcs st s) /\ advance (insn a) = true)
  /\ forall a, In a (out_arcs st s) -> insn a < length ainsns.

Definition alts_in_table (st : store) : Prop :=
  forall a s, In a ainsns -> In s (alt_states a) -> In s (state_table st).

(** The states but [state]: those of the stack wait without arcs,
    those that left it are finished, the other ones have no arcs. *)
Definition base (state : option nat) (st : store) (stack : list nat) : Prop :=
  table_ok st
  /\ alts_in_table st
  /\ NoDup stack
  /\ (forall s, In s stack ->
                In s (state_table st) /\ placed st s = true /\ out_arcs st s = []
                /\ state <> Some s)
  /\ (forall s, In s (state_table st) -> placed st s = false -> out_arcs st s = [])
  /\ (forall s, In s (state_table st) -> placed st s = true -> ~ In s stack ->
                state <> Some s -> finished st s)
  /\ (forall s, state = Some s -> In s (state_table st) /\ placed st s = true)
  /\ In start (state_table st) /\ placed st start = true.

(** The arcs of the state in work, before the insn [n]. *)
Definition state_arcs (state n : nat) (st : store) : Prop :=
  NoDup (map insn (out_arcs st state))
  /\ forall a, In a (out_arcs st state) ->
               insn a < n /\ advance (insn a) = false /\ (0 < state_alts a)%Z
               /\ In (to_state a) (state_table st) /\ placed st (to_state a) = true.

Lemma table_state_lt (st : store) (s : nat) :
  table_ok st -> In s (state_table st) -> s < length (states st).
Proof. intros (_ & _ & Hused) Hs. exact (proj1 (Hused s Hs)). Qed.

Lemma finished_keep (st st' : store) (s : nat) :
  finished st s ->
  out_arcs st' s = out_arcs st s ->
  incl (state_table st) (state_table st') ->
  (forall t, In t (state_table st) -> placed st t = true -> placed st' t = true) ->
  finished st' s.
Proof.
  intros (Hdet & Htargets & Hadv & Hinsns) Harcs Hincl Hplaced. split; [|split; [|split]].
  - unfold deterministic. rewrite Harcs. exact Hdet.
  - intros a Ha. rewrite Harcs in Ha. destruct (Htargets a Ha) as [Hin Hp].
    split; [apply Hincl; exact Hin | apply Hplaced; assumption].
  - rewrite Harcs. exact Hadv.
  - rewrite Harcs. exact Hinsns.
Qed.

Lemma base_new_state (state : option nat) (st st' : store) (stack : list nat) (e : nat) :
  base state st stack -> new_state st st' e -> base state st' stack.
Proof.
  intros (Hok & Halts & Hnd & Hstack & Hunplaced & Hfinished & Hstate & Hstart & Hstartp)
         (Hok' & Hsame & Hincl & He & Hnew).
  assert (forall s, In s (state_table st) -> placed st' s = placed st s) as Hp
    by (intros s Hs; unfold placed; rewrite (Hsame s Hs); reflexivity).
  assert (forall s, In s (state_table st) -> out_arcs st' s = out_arcs st s) as Ha
    by (intros s Hs; unfold out_arcs; rewrite (Hsame s Hs); reflexivity).
  split; [exact Hok'|]. split; [intros a s Hin Hs; apply Hincl; eapply Halts; eassumption|].
  split; [exact Hnd|]. split; [|split; [|split; [|split]]].
  - intros s Hs. destruct (Hstack s Hs) as (Hin & Hpl & Harcs & Hne).
    rewrite (Hp s Hin), (Ha s Hin). auto.
  - intros s Hs Hpl. destruct (Hnew s Hs) as [Hold|(-> & Harcs & _)]; [|exact Harcs].
    rewrite (Ha s Hold). apply Hunplaced; [exact Hold|]. rewrite <- (Hp s Hold). exact Hpl.
  - intros s Hs Hpl Hns Hne. destruct (Hnew s Hs) as [Hold|(-> & _ & Hpe)]; [|congruence].
    apply (finished_keep st); [|apply Ha; exact Hold | exact Hincl|].
    + apply Hfinished; try assumption. rewrite <- (Hp s Hold). exact Hpl.
    + intros t Ht Hpt. rewrite (Hp t Ht). exact Hpt.
  - intros s Hs. destruct (Hstate s Hs) as [Hin Hpl]. split; [apply Hincl; exact Hin|].
    rewrite (Hp s Hin). exact Hpl.
  - split; [apply Hincl; exact Hstart | rewrite (Hp start Hstart); exact Hstartp].
Qed.

Lemma state_arcs_new_state (state n : nat) (st st' : store) (e : nat) :
  In state (state_table st) -> state_arcs state n st -> new_state st st' e ->
  state_arcs state n st'.
Proof.
  intros Hstate [Hnd Harcs] (_ & Hsame & Hincl & _).
  unfold state_arcs, out_arcs. rewrite (Hsame state Hstate). split; [exact Hnd|].
  intros a Ha. destruct (Harcs a Ha) as (H1 & H2 & H3 & H4 & H5).
  repeat split; try assumption; [apply Hincl; exact H4|].
  unfold placed. rewrite (Hsame _ H4). exact H5.
Qed.

Lemma base_place (state : nat) (st st' : store) (stack stack' : list nat) (e : nat) :
  base (Some state) st stack -> In e (state_table st) ->
  place_in_stack_for_NDFA e stack st = Done (stack', st') ->
  base (Some state) st' stack'
  /\ placed st' e = true
  /\ state_table st' = state_table st
  /\ out_arcs st' state = out_arcs st state
  /\ forall t, placed st t = true -> placed st' t = true.
Proof.
  intros Hbase He E.
  pose proof Hbase
    as (Hok & Halts & Hnd & Hstack & Hunplaced & Hfinished & Hstate & Hstart & Hstartp).
  destruct (place_in_stack_cases e stack st stack' st' (table_state_lt st e Hok He) E)
    as [(Hp & -> & ->)|(Hp & -> & Honly & Hp' & Harcs & _)]; [auto 10|].
  destruct (Hstate state eq_refl) as [Hsin Hspl].
  assert (e <> state) as Hne by (intros ->; congruence).
  pose proof Honly as [(Hothers & _) Htable].
  assert (forall t, t <> e -> placed st' t = placed st t) as Hpo
    by (intros t Ht; unfold placed; rewrite (Hothers t Ht); reflexivity).
  assert (forall t, t <> e -> out_arcs st' t = out_arcs st t) as Hao
    by (intros t Ht; unfold out_arcs; rewrite (Hothers t Ht); reflexivity).
  assert (forall t, placed st t = true -> placed st' t = true) as Hmono.
  { intros t Ht. destruct (Nat.eq_dec t e) as [->|Hte]; [exact Hp'|].
    rewrite (Hpo t Hte). exact Ht. }
  split; [|split; [exact Hp'|split; [exact Htable|split; [apply Hao; auto | exact Hmono]]]].
  split; [exact (only_table_ok e st st' Honly Hok)|]. unfold alts_in_table.
  rewrite Htable. split; [exact Halts|]. split; [|split; [|split; [|split; [|split]]]].
  - constructor; [|exact Hnd]. intros Hin. destruct (Hstack e Hin) as (_ & Hpl & _).
    congruence.
  - intros s [<-|Hs].
    + split; [exact He|]. split; [exact Hp'|]. split; [|congruence].
      rewrite Harcs. apply Hunplaced; assumption.
    + destruct (Hstack s Hs) as (Hin & Hpl & Ha & Hns).
      assert (s <> e) as Hse by (intros ->; congruence).
      rewrite (Hpo s Hse), (Hao s Hse). auto.
  - intros s Hs Hpl. destruct (Nat.eq_dec s e) as [->|Hse]; [congruence|].
    rewrite (Hao s Hse). apply Hunplaced; [exact Hs|]. rewrite <- (Hpo s Hse). exact Hpl.
  - intros s Hs Hpl Hns Hst.
    assert (s <> e) as Hse by (intros ->; apply Hns; left; reflexivity).
    apply (finished_keep st); [|apply Hao; exact Hse | rewrite Htable; apply incl_refl|].
    + apply Hfinished; try assumption; [rewrite <- (Hpo s Hse); exact Hpl|].
      intros Hin. apply Hns. right. exact Hin.
    + intros t _. apply Hmono.
  - intros s Hs. injection Hs as <-. split; [exact Hsin|]. apply Hmono. exact Hspl.
  - split; [exact Hstart | apply Hmono; exact Hstartp].
Qed.

Lemma base_touch (state : nat) (st st' : store) (stack : list nat) :
  base (Some state) st stack -> touch state st st' -> base (Some state) st' stack.
Proof.
  intros (Hok & Halts & Hnd & Hstack & Hunplaced & Hfinished & Hstate & Hstart & Hstartp)
         Htouch.
  pose proof (touch_placed _ _ _ Htouch) as Hp.
  pose proof (touch_arcs _ _ _ Htouch) as Ha.
  pose proof Htouch as [Honly _]. pose proof Honly as [_ Htable].
  split; [exact (only_table_ok state st st' Honly Hok)|]. unfold alts_in_table.
  rewrite Htable. split; [exact Halts|]. split; [exact Hnd|].
  split; [|split; [|split; [|split]]].
  - intros s Hs. destruct (Hstack s Hs) as (Hin & Hpl & Harcs & Hne).
    rewrite Hp, Ha by congruence. auto.
  - intros s Hs Hpl. rewrite Hp in Hpl. destruct (Hstate state eq_refl) as [_ Hspl].
    rewrite Ha by (intros ->; congruence). apply Hunplaced; assumption.
  - intros s Hs Hpl Hns Hne. rewrite Hp in Hpl.
    apply (finished_keep st); [|apply Ha; congruence | rewrite Htable; apply incl_refl|].
    + apply Hfinished; assumption.
    + intros t _ Ht. rewrite Hp. exact Ht.
  - intros s Hs. rewrite Hp. apply Hstate. exact Hs.
  - rewrite Hp. auto.
Qed.

Lemma state_arcs_weaken (state n n' : nat) (st : store) :
  n <= n' -> state_arcs state n st -> state_arcs state n' st.
Proof.
  intros Hn [Hnd Harcs]. split; [exact Hnd|]. intros a Ha.
  destruct (Harcs a Ha) as (H1 & H2). split; [lia | exact H2].
Qed.

Lemma state_arcs_map (state n : nat) (st st' : store) (g : arc -> arc) :
  state_arcs state n st -> touch state st st' ->
  out_arcs st' state = map g (out_arcs st state) ->
  (forall a, insn (g a) = insn a /\ to_state (g a) = to_state a
             /\ ((0 < state_alts a)%Z -> (0 < state_alts (g a))%Z)) ->
  state_arcs state n st'.
Proof.
  intros [Hnd Harcs] Htouch Hmap Hg. pose proof Htouch as [[_ Htable] _].
  unfold state_arcs. rewrite Hmap, map_map, Htable. split.
  - rewrite (map_ext (fun a => insn (g a)) insn) by (intros a; apply Hg). exact Hnd.
  - intros a' Ha'. apply in_map_iff in Ha'. destruct Ha' as (a & <- & Ha).
    destruct (Hg a) as (-> & -> & Halts). destruct (Harcs a Ha) as (H1 & H2 & H3 & H4 & H5).
    rewrite (touch_placed _ _ _ Htouch). auto.
Qed.

(** The first loop over the alt states of an insn, without [-ndfa]. *)
Lemma add_alt_arcs_step (state n : nat) (reservs_matter : reserv_sets_t)
    (alts : list nat) :
  advance n = false ->
  forall stack st added stack' st',
    base (Some state) st stack -> state_arcs state n st ->
    (forall s, In s alts -> In s (state_table st)) ->
    add_alt_arcs units_num chars_num unit_excl_set_table unit_presence_set_table
      unit_final_presence_set_table unit_absence_set_table unit_final_absence_set_table
      max_cycles_num false state n reservs_matter alts None stack st
    = Done ((added, stack'), st') ->
    base (Some state) st' stack'
    /\ state_arcs state (S n) st'
    /\ match added with
       | None => True
       | Some _ => exists alt, In alt alts /\ free_alt st' state alt = true
       end.
Proof.
  intros Hadv. induction alts as [|alt alts IH];
    intros stack st added stack' st' Hbase Harcs Halts E; cbn [add_alt_arcs] in E.
  - unfold ret in E. injection E as <- <- <-. split; [exact Hbase|].
    split; [apply (state_arcs_weaken state n); [lia | exact Harcs] | exact I].
  - unfold bind at 1 in E.
    destruct (intersected state alt st) as [[b st0]| |] eqn:Ei; try discriminate.
    pose proof (intersected_pure _ _ _ _ _ Ei) as ->. destruct b; cbn [negb] in E.
    + destruct (IH stack st added stack' st' Hbase Harcs
                  (fun s Hs => Halts s (or_intror Hs)) E) as (H1 & H2 & H3).
      split; [exact H1|]. split; [exact H2|]. destruct added; [|exact I].
      destruct H3 as (alt' & Hin & Hfree). exists alt'. split; [right; exact Hin | exact Hfree].
    + pose proof Hbase as (Hok & _ & _ & _ & _ & _ & Hstate & _).
      destruct (Hstate state eq_refl) as [Hsin Hspl].
      assert (free_alt st state alt = true) as Hfree0
        by (unfold free_alt; rewrite Ei; reflexivity).
      unfold bind at 1 in E.
      destruct (states_union max_cycles_num state alt reservs_matter st)
        as [[e st1]| |] eqn:Eu; try discriminate.
      pose proof (states_union_new_state state alt reservs_matter st e st1 Hok Eu) as Hnew.
      pose proof (base_new_state _ _ _ _ e Hbase Hnew) as Hbase1.
      pose proof (state_arcs_new_state _ _ _ _ e Hsin Harcs Hnew) as Harcs1.
      destruct Hnew as (Hok1 & Hsame1 & Hincl1 & He1 & _).
      unfold bind at 1 in E.
      destruct (place_in_stack_for_NDFA e stack st1) as [[stack1 st2]| |] eqn:Ep;
        try discriminate.
      destruct (base_place state st1 st2 stack stack1 e Hbase1 He1 Ep)
        as (Hbase2 & Hpe & Htable2 & Hsame2 & Hmono2).
      unfold bind at 1 in E.
      destruct (add_arc state e n 1 st2) as [[id st3]| |] eqn:Ea; try discriminate.
      unfold ret in E. injection E as <- <- <-.
      pose proof Hbase2 as (Hok2 & _).
      assert (In state (state_table st2)) as Hsin2
        by (rewrite Htable2; apply Hincl1; exact Hsin).
      destruct Harcs1 as [Hnd1 Hall1].
      destruct (add_arc_new state e n 1 st2 id st3 (table_state_lt st2 state Hok2 Hsin2))
        as [Htouch Hnewarcs]; [|exact Ea|].
      { intros a Ha. rewrite Hsame2 in Ha. destruct (Hall1 a Ha) as [Hlt _]. lia. }
      pose proof Htouch as [[_ Htable3] _].
      split; [exact (base_touch state st2 st3 stack1 Hbase2 Htouch)|]. split; [split|].
      * rewrite Hnewarcs, Hsame2. cbn [map insn]. constructor; [|exact Hnd1].
        intros Hin. apply in_map_iff in Hin. destruct Hin as (a & Heq & Ha).
        destruct (Hall1 a Ha) as [Hlt _]. lia.
      * intros a Ha. rewrite Hnewarcs, Hsame2 in Ha. rewrite Htable3, Htable2.
        rewrite (touch_placed _ _ _ Htouch). destruct Ha as [<-|Ha]; cbn [insn state_alts to_state].
        -- split; [lia|]. split; [exact Hadv|]. split; [lia|]. auto.
        -- destruct (Hall1 a Ha) as (H1 & H2 & H3 & H4 & H5).
           split; [lia|]. auto.
      * exists alt. split; [left; reflexivity|]. rewrite <- Hfree0.
        assert (forall y, In y (state_table st) -> core st3 y = core st y) as Hcore.
        { intros y Hy. rewrite (touch_core _ _ _ Htouch).
          assert (core st2 y = core st1 y) as ->.
          { destruct (place_in_stack_cases e stack st1 stack1 st2
                        (table_state_lt st1 e Hok1 He1) Ep)
              as [(_ & -> & _)|(_ & _ & [(Hothers & _) _] & _ & _ & Hce)]; [reflexivity|].
            destruct (Nat.eq_dec y e) as [->|Hye]; [exact Hce|].
            unfold core. rewrite (Hothers y Hye). reflexivity. }
          unfold core. rewrite (Hsame1 y Hy). reflexivity. }
        apply free_alt_core; apply Hcore; [exact Hsin | apply Halts; left; reflexivity].
Qed.

(** The loop of [make_automaton] over the insns, without [-ndfa]. *)
Lemma ainsns_loop_arcs (state : nat) (reservs_matter : reserv_sets_t)
    (rest : list ainsn) :
  forall n advance_cycle_ainsn stack st advance_cycle_ainsn' stack' st',
    (forall k, nth_error rest k = nth_error ainsns (n + k)) ->
    base (Some state) st stack -> state_arcs state n st ->
    (forall a, advance_cycle_ainsn = Some a -> advance a = true) ->
    ainsns_loop units_num chars_num unit_excl_set_table unit_presence_set_table
      unit_final_presence_set_table unit_absence_set_table unit_final_absence_set_table
      max_cycles_num false advance_cycle_insn_decl state reservs_matter rest n
      advance_cycle_ainsn stack st
    = Done ((advance_cycle_ainsn', stack'), st') ->
    base (Some state) st' stack'
    /\ state_arcs state (n + length rest) st'
    /\ forall a, advance_cycle_ainsn' = Some a -> advance a = true.
Proof.
  induction rest as [|ainsn rest IH];
    intros n adv stack st adv' stack' st' Hrest Hbase Harcs Hadv E; cbn [ainsns_loop] in E.
  - unfold ret in E. injection E as <- <- <-. rewrite Nat.add_0_r. auto.
  - assert (forall k, nth_error rest k = nth_error ainsns (S n + k)) as Hrest'.
    { intros k. replace (S n + k) with (n + S k) by lia. rewrite <- (Hrest (S k)).
      reflexivity. }
    assert (nth_error ainsns n = Some ainsn) as Hn
      by (rewrite <- (Nat.add_0_r n), <- Hrest; reflexivity).
    replace (n + length (ainsn :: rest)) with (S n + length rest) by (cbn [length]; lia).
    pose proof (state_arcs_weaken state n (S n) st ltac:(lia) Harcs) as Harcs'.
    destruct (first_insn_with_same_reservs ainsn);
      [|exact (IH _ _ _ _ _ _ _ Hrest' Hbase Harcs' Hadv E)].
    destruct (insn_reserv_decl ainsn =? advance_cycle_insn_decl) eqn:Eadv; cbn [negb] in E.
    { refine (IH (S n) (Some n) stack st adv' stack' st' Hrest' Hbase Harcs' _ E).
      intros a Ha. injection Ha as <-. unfold advance. rewrite Hn. exact Eadv. }
    assert (advance n = false) as Hnadv by (unfold advance; rewrite Hn; exact Eadv).
    unfold bind at 1 in E.
    destruct (add_alt_arcs _ _ _ _ _ _ _ _ _ state n reservs_matter (alt_states ainsn)
                None stack st) as [[[added stack1] st1]| |] eqn:Ealt; try discriminate.
    destruct (add_alt_arcs_step state n reservs_matter (alt_states ainsn) Hnadv
                stack st added stack1 st1 Hbase Harcs) as (Hbase1 & Harcs1 & Hadded);
      [|exact Ealt|].
    { pose proof Hbase as (_ & Halts & _). intros s Hs. apply (Halts ainsn s); [|exact Hs].
      eapply nth_error_In. exact Hn. }
    cbn [fst snd] in E. unfold bind at 1 in E.
    destruct added as [id|].
    + cbn [negb] in E. unfold bind at 1 in E.
      pose proof Hbase1 as (Hok1 & _ & _ & _ & _ & _ & Hstate1 & _).
      destruct (Hstate1 state eq_refl) as [Hsin1 _].
      pose proof (table_state_lt st1 state Hok1 Hsin1) as Hlt1.
      destruct (update_arc state id _ st1) as [[[] st2]| |] eqn:Eu; try discriminate.
      destruct (update_arc_touch state id _ st1 tt st2 Hlt1 Eu) as [Htouch2 Hmap2].
      destruct (count_state_alts _ _ _ _ _ _ _ state id (alt_states ainsn) st2)
        as [[[] st3]| |] eqn:Ec; try discriminate.
      destruct (count_state_alts_touch state id (alt_states ainsn) st2 tt st3) as
        [Htouch3 Hmap3]; [rewrite (touch_length _ _ _ Htouch2); exact Hlt1 | exact Ec|].
      pose proof (touch_trans _ _ _ _ Htouch2 Htouch3) as Htouch.
      refine (IH (S n) adv stack1 st3 adv' stack' st' Hrest'
                (base_touch state st1 st3 stack1 Hbase1 Htouch) _ Hadv E).
      destruct Hadded as (alt & Halt & Hfree).
      set (k := Z.of_nat (length (filter (free_alt st2 state) (alt_states ainsn)))) in *.
      assert (0 < k)%Z as Hk.
      { assert (In alt (filter (free_alt st2 state) (alt_states ainsn))) as Hin.
        { apply filter_In. split; [exact Halt|]. rewrite <- Hfree.
          apply free_alt_core; apply (touch_core state); exact Htouch2. }
        unfold k. destruct (filter _ _); [contradiction | cbn [length]; lia]. }
      apply (state_arcs_map state (S n) st1 st3
               (fun a => set_state_alts id k a) Harcs1 Htouch).
      * rewrite Hmap3, Hmap2, map_map. apply map_ext. intros a. unfold set_state_alts.
        destruct (arc_id a =? id) eqn:Eid; cbn [arc_id state_alts to_state insn];
          rewrite Eid; [|reflexivity].
        f_equal.
      * intros a. unfold set_state_alts. destruct (arc_id a =? id); cbn; auto.
    + unfold ret at 1 in E.
      exact (IH _ _ _ _ _ _ _ Hrest' Hbase1 Harcs1 Hadv E).
Qed.

(** The [while] loop of [make_automaton], without [-ndfa]. *)
Lemma make_automaton_loop_finished (reservs_matter : reserv_sets_t)
    (automaton : automaton_t) (fuel : nat) :
  ainsn_list automaton = ainsns ->
  forall stack st r st',
    base None st stack ->
    make_automaton_loop units_num chars_num unit_excl_set_table unit_presence_set_table
      unit_final_presence_set_table unit_absence_set_table unit_final_absence_set_table
      max_cycles_num false advance_cycle_insn_decl fuel automaton reservs_matter stack st
    = Done (r, st') ->
    base None st' [].
Proof.
  intros Hainsns. induction fuel as [|fuel IH]; intros stack st r st' Hbase E;
    destruct stack as [|state stack]; cbn [make_automaton_loop] in E;
    try (unfold ret in E; injection E as _ <-; exact Hbase); try discriminate.
  rewrite Hainsns in E.
  destruct Hbase as (Hok & Halts & Hnd & Hstack & Hunplaced & Hfinished & _ & Hstart).
  inversion Hnd as [|? ? Hnotin Hnd']; subst.
  destruct (Hstack state (or_introl eq_refl)) as (Hsin & Hspl & Hsarcs & _).
  assert (base (Some state) st stack) as Hbase0.
  { split; [exact Hok|]. split; [exact Halts|]. split; [exact Hnd'|].
    split; [|split; [exact Hunplaced|split; [|split; [|exact Hstart]]]].
    - intros s Hs. destruct (Hstack s (or_intror Hs)) as (H1 & H2 & H3 & _).
      repeat split; try assumption. intros Heq. injection Heq as ->. contradiction.
    - intros s Hs Hpl Hns Hne. apply Hfinished; try assumption; [|discriminate].
      intros [->|Hin]; [congruence | contradiction].
    - intros s Heq. injection Heq as <-. auto. }
  assert (state_arcs state 0 st) as Harcs0.
  { unfold state_arcs. rewrite Hsarcs. split; [constructor | intros a []]. }
  unfold bind at 1 in E.
  destruct (ainsns_loop _ _ _ _ _ _ _ _ _ _ state reservs_matter ainsns 0 None stack st)
    as [[[adv stack1] st1]| |] eqn:El; try discriminate.
  destruct (ainsns_loop_arcs state reservs_matter ainsns 0 None stack st adv stack1 st1)
    as (Hbase1 & Harcs1 & Hadv1); try assumption;
    [intros k; reflexivity | intros a Ha; discriminate|].
  cbn [fst snd] in E. unfold bind at 1 in E.
  destruct (state_shift max_cycles_num state reservs_matter st1) as [[e st2]| |] eqn:Es;
    try discriminate.
  pose proof Hbase1 as (Hok1 & _ & _ & _ & _ & _ & Hstate1 & _).
  destruct (Hstate1 state eq_refl) as [Hsin1 _].
  pose proof (state_shift_new_state state reservs_matter st1 e st2 Hok1 Es) as Hnew.
  pose proof (base_new_state _ _ _ _ e Hbase1 Hnew) as Hbase2.
  pose proof (state_arcs_new_state _ _ _ _ e Hsin1 Harcs1 Hnew) as Harcs2.
  destruct Hnew as (Hok2 & _ & Hincl2 & He2 & _).
  unfold bind at 1 in E.
  destruct (place_in_stack_for_NDFA e stack1 st2) as [[stack2 st3]| |] eqn:Ep;
    try discriminate.
  destruct (base_place state st2 st3 stack1 stack2 e Hbase2 He2 Ep)
    as (Hbase3 & Hpe & Htable3 & Hsame3 & Hmono3).
  destruct adv as [a|]; [|discriminate]. unfold bind at 1 in E.
  destruct (add_arc state e a 1 st3) as [[id st4]| |] eqn:Ea; try discriminate.
  pose proof Hbase3 as (Hok3 & _ & _ & _ & _ & _ & Hstate3 & _).
  destruct (Hstate3 state eq_refl) as [Hsin3 Hspl3].
  destruct Harcs2 as [Hnd2 Hall2].
  destruct (add_arc_new state e a 1 st3 id st4 (table_state_lt st3 state Hok3 Hsin3))
    as [Htouch Hnewarcs]; [|exact Ea|].
  { intros x Hx Heq. rewrite Hsame3 in Hx. destruct (Hall2 x Hx) as (_ & Hna & _).
    rewrite Heq, (Hadv1 a eq_refl) in Hna. discriminate. }
  apply (IH stack2 st4 r st'); [|exact E].
  pose proof (base_touch state st3 st4 stack2 Hbase3 Htouch)
    as (Hok4 & Halts4 & Hnd4 & Hstack4 & Hunplaced4 & Hfinished4 & Hstate4 & Hstart4).
  pose proof Htouch as [[_ Htable4] _].
  split; [exact Hok4|]. split; [exact Halts4|]. split; [exact Hnd4|].
  split; [|split; [exact Hunplaced4|split; [|split; [discriminate | exact Hstart4]]]].
  - intros s Hs. destruct (Hstack4 s Hs) as (H1 & H2 & H3 & _).
    repeat split; try assumption. discriminate.
  - intros s Hs Hpl Hns _. destruct (Nat.eq_dec s state) as [->|Hne];
      [|apply Hfinished4; try assumption; congruence].
    split; [split|split; [|split]].
    + rewrite Hnewarcs, Hsame3. cbn [map insn]. constructor; [|exact Hnd2].
      intros Hin. apply in_map_iff in Hin. destruct Hin as (x & Heq & Hx).
      destruct (Hall2 x Hx) as (_ & Hna & _).
      rewrite Heq, (Hadv1 a eq_refl) in Hna. discriminate.
    + rewrite Hnewarcs, Hsame3. constructor; [cbn; lia|]. apply Forall_forall.
      intros x Hx. destruct (Hall2 x Hx) as (_ & _ & H & _). exact H.
    + intros x Hx. rewrite Hnewarcs, Hsame3 in Hx. rewrite Htable4, Htable3.
      rewrite (touch_placed _ _ _ Htouch). destruct Hx as [<-|Hx]; cbn [to_state]; [auto|].
      destruct (Hall2 x Hx) as (_ & _ & _ & H4 & H5). auto.
    + rewrite Hnewarcs. eexists. split; [left; reflexivity|]. cbn [insn].
      exact (Hadv1 a eq_refl).
    + intros x Hx. rewrite Hnewarcs, Hsame3 in Hx. destruct Hx as [<-|Hx]; cbn [insn].
      * pose proof (Hadv1 a eq_refl) as Ha'. unfold advance in Ha'.
        apply nth_error_Some. destruct (nth_error ainsns a); [discriminate|discriminate].
      * destruct (Hall2 x Hx) as (H & _). exact H.
Qed.

End Automaton.

(** *** The whole automaton *)

Variable units_array : list unit_decl.

Lemma make_automaton_finished (fuel : nat) (automaton : automaton_t) (st : store)
    automaton' st' :
  table_ok st ->
  (forall s, In s (state_table st) -> placed st s = false /\ out_arcs st s = []) ->
  (forall a s, In a (ainsn_list automaton) -> In s (alt_states a) ->
               In s (state_table st)) ->
  make_automaton units_num chars_num unit_excl_set_table unit_presence_set_table
    unit_final_presence_set_table unit_absence_set_table unit_final_absence_set_table
    max_cycles_num units_array false advance_cycle_insn_decl fuel automaton st
  = Done (automaton', st') ->
  ainsn_list automaton' = ainsn_list automaton
  /\ base (ainsn_list automaton) (start_state automaton') None st' [].
Proof.
  intros Hok Hfresh Halts E. unfold make_automaton in E.
  destruct (form_reservs_matter _ _ _ _) as [reservs_matter|]; [|discriminate].
  unfold bind at 1 in E. unfold bind at 1 in E.
  destruct (get_free_state max_cycles_num true _ st) as [[r st1]| |] eqn:Eg;
    try discriminate.
  assert (0 < max_cycles_num) as Hcycles.
  { unfold get_free_state in Eg. destruct (Nat.leb_spec max_cycles_num 0); [discriminate|].
    lia. }
  pose proof (get_free_state_unplaced true _ st r st1 (proj1 Hok) Eg) as Hunplaced.
  destruct (get_free_state_spec _ _ _ _ _ _ (proj1 Hok) Eg)
    as (Hr & _ & _ & _ & _ & _ & Htable1 & _ & _ & _).
  destruct (get_free_state_fresh max_cycles_num true (automaton_order_num automaton) st
              (state_table st) Hcycles Hok)
    as (r' & st1' & Eg' & Hnew & Huse1 & Harcs1 & _ & Hsame1).
  rewrite Eg in Eg'. injection Eg' as <- <-.
  destruct (insert_state r st1) as [[e st2]| |] eqn:Ei; try discriminate.
  assert (table_ok st2 /\ In e (state_table st2)
          /\ incl (state_table st) (state_table st2)
          /\ forall s, In s (state_table st2) ->
                       placed st2 s = false /\ out_arcs st2 s = []) as (Hok2 & He & Hincl & Hfresh2).
  { assert (forall s, In s (r :: state_table st) ->
                      placed st1 s = false /\ out_arcs st1 s = []) as Hfresh1.
    { intros s [<-|Hs]; [auto|]. unfold placed, out_arcs. rewrite (Hsame1 s Hs).
      apply Hfresh. exact Hs. }
    unfold insert_state in Ei. rewrite Htable1 in Ei.
    destruct (find _ (state_table st)) as [entry|] eqn:Efind; injection Ei as <- <-.
    - apply find_some in Efind. destruct Efind as [Hentry _].
      unfold table_ok. rewrite Htable1.
      split; [apply (in_use_incl st1 (r :: state_table st));
              [intros x Hx; right; exact Hx | exact Huse1]|].
      split; [exact Hentry|]. split; [apply incl_refl|].
      intros s Hs. apply Hfresh1. right. exact Hs.
    - unfold table_ok. cbn [state_table]. split; [exact Huse1|].
      split; [left; reflexivity|]. split; [intros x Hx; right; exact Hx|]. exact Hfresh1. }
  unfold bind at 1 in E.
  destruct (set_placed_NDFA e st2) as [[[] st3]| |] eqn:Es; try discriminate.
  unfold set_placed_NDFA, bind, read, write in Es. injection Es as <-.
  destruct (write_only e (mk_state (reservs (the_state st2 e))
                            (Automata.automaton (the_state st2 e))
                            (first_out_arc (the_state st2 e)) true
                            (it_was_placed_in_stack_for_DFA_forming (the_state st2 e))
                            (component_states (the_state st2 e))) st2
              (table_state_lt st2 e Hok2 He)) as [Honly Hx].
  set (st3 := mk_store _ _ _ _) in *.
  pose proof Honly as [(Hothers & _) Htable3].
  assert (base (ainsn_list automaton) e None st3 [e]) as Hbase.
  { split; [exact (only_table_ok e st2 st3 Honly Hok2)|]. unfold alts_in_table.
    rewrite Htable3.
    split; [intros a s Ha Hs; apply Hincl; exact (Halts a s Ha Hs)|].
    split; [repeat constructor; intros []|].
    assert (placed st3 e = true /\ out_arcs st3 e = []) as [Hpe Hae].
    { unfold placed, out_arcs. rewrite Hx. cbn. split; [reflexivity|].
      apply (Hfresh2 e He). }
    split; [|split; [|split; [|split; [discriminate | auto]]]].
    - intros s [<-|[]]. repeat split; try assumption. discriminate.
    - intros s Hs _. destruct (Nat.eq_dec s e) as [->|Hne]; [exact Hae|].
      unfold out_arcs. rewrite (Hothers s Hne). apply (Hfresh2 s Hs).
    - intros s Hs Hpl Hns _. exfalso.
      assert (s <> e) as Hne by (intros ->; apply Hns; left; reflexivity).
      unfold placed in Hpl. rewrite (Hothers s Hne) in Hpl.
      destruct (Hfresh2 s Hs) as [Hp _]. unfold placed in Hp. congruence. }
  unfold bind at 1 in E.
  destruct (make_automaton_loop _ _ _ _ _ _ _ _ _ _ fuel automaton reservs_matter [e] st3)
    as [[[] st4]| |] eqn:El; try discriminate.
  unfold ret in E. injection E as <- <-. cbn [ainsn_list start_state].
  split; [reflexivity|].
  exact (make_automaton_loop_finished (ainsn_list automaton) e reservs_matter automaton
           fuel eq_refl [e] st3 tt st4 Hbase El).
Qed.

End Build.

(** Without [-ndfa], whenever [make_automaton] ends, each state that
    the arcs lead to from the start state of the automaton is a state of
    the state table and has at most one arc for an insn, with a positive
    number of alternatives.  Before [make_automaton] the states of the
    table, among them the alt states of the insns, have no arcs and were
    on no stack. *)
Theorem make_automaton_deterministic (units_num chars_num : nat)
    (unit_excl_set_table : list Z)
    (unit_presence_set_table unit_final_presence_set_table : list (list Z))
    (unit_absence_set_table unit_final_absence_set_table : list (list Z))
    (max_cycles_num advance_cycle_insn_decl : nat) (units_array : list unit_decl)
    (fuel : nat) (automaton : automaton_t) (st : store) automaton' st' :
  table_ok st ->
  (forall s, In s (state_table st) -> placed st s = false /\ out_arcs st s = []) ->
  (forall a s, In a (ainsn_list automaton) -> In s (alt_states a) ->
               In s (state_table st)) ->
  make_automaton units_num chars_num unit_excl_set_table unit_presence_set_table
    unit_final_presence_set_table unit_absence_set_table unit_final_absence_set_table
    max_cycles_num units_array false advance_cycle_insn_decl fuel automaton st
  = Done (automaton', st') ->
  ainsn_list automaton' = ainsn_list automaton
  /\ forall s, achieved st' (start_state automaton') s ->
               In s (state_table st') /\ deterministic st' s.
Proof.
  intros Hok Hfresh Halts E.
  destruct (make_automaton_finished units_num chars_num unit_excl_set_table
              unit_presence_set_table unit_final_presence_set_table unit_absence_set_table
              unit_final_absence_set_table max_cycles_num advance_cycle_insn_decl
              units_array fuel automaton st automaton' st' Hok Hfresh Halts E)
    as [Hainsns (_ & _ & _ & _ & _ & Hfinished & _ & Hstart & Hstartp)].
  split; [exact Hainsns|].
  assert (forall s, achieved st' (start_state automaton') s ->
                    In s (state_table st') /\ placed st' s = true) as Hall.
  { intros s Hs. induction Hs as [|s a _ [Hin Hpl] Ha]; [auto|].
    destruct (Hfinished s Hin Hpl (fun H => H) ltac:(discriminate)) as (_ & Htargets & _).
    exact (Htargets a Ha). }
  intros s Hs. destruct (Hall s Hs) as [Hin Hpl]. split; [exact Hin|].
  exact (proj1 (Hfinished s Hin Hpl (fun H => H) ltac:(discriminate))).
Qed.

(** Whenever [make_automaton] ends without [-ndfa], each state that the
    arcs lead to from the start state has an arc by the insn of the
    advancing of a cycle: no state of the automaton is a dead end. *)
Theorem make_automaton_advances (units_num chars_num : nat)
    (unit_excl_set_table : list Z)
    (unit_presence_set_table unit_final_presence_set_table : list (list Z))
    (unit_absence_set_table unit_final_absence_set_table : list (list Z))
    (max_cycles_num advance_cycle_insn_decl : nat) (units_array : list unit_decl)
    (fuel : nat) (automaton : automaton_t) (st : store) automaton' st' :
  table_ok st ->
  (forall s, In s (state_table st) -> placed st s = false /\ out_arcs st s = []) ->
  (forall a s, In a (ainsn_list automaton) -> In s (alt_states a) ->
               In s (state_table st)) ->
  make_automaton units_num chars_num unit_excl_set_table unit_presence_set_table
    unit_final_presence_set_table unit_absence_set_table unit_final_absence_set_table
    max_cycles_num units_array false advance_cycle_insn_decl fuel automaton st
  = Done (automaton', st') ->
  forall s, achieved st' (start_state automaton') s ->
  exists a ainsn,
    In a (out_arcs st' s)
    /\ nth_error (ainsn_list automaton') (insn a) = Some ainsn
    /\ insn_reserv_decl ainsn = advance_cycle_insn_decl
    /\ achieved st' (start_state automaton') (to_state a).
Proof.
  intros Hok Hfresh Halts E.
  destruct (make_automaton_finished units_num chars_num unit_excl_set_table
              unit_presence_set_table unit_final_presence_set_table unit_absence_set_table
              unit_final_absence_set_table max_cycles_num advance_cycle_insn_decl
              units_array fuel automaton st automaton' st' Hok Hfresh Halts E)
    as [Hainsns (_ & _ & _ & _ & _ & Hfinished & _ & Hstart & Hstartp)].
  assert (forall s, achieved st' (start_state automaton') s ->
                    In s (state_table st') /\ placed st' s = true) as Hall.
  { intros s Hs. induction Hs as [|s a _ [Hin Hpl] Ha]; [auto|].
    destruct (Hfinished s Hin Hpl (fun H => H) ltac:(discriminate)) as (_ & Htargets & _).
    exact (Htargets a Ha). }
  intros s Hs. destruct (Hall s Hs) as [Hin Hpl].
  destruct (Hfinished s Hin Hpl (fun H => H) ltac:(discriminate))
    as (_ & _ & (a & Ha & Hadv) & _).
  unfold advance in Hadv. rewrite <- Hainsns in Hadv.
  destruct (nth_error (ainsn_list automaton') (insn a)) as [ainsn|] eqn:En;
    [|discriminate].
  exists a, ainsn. split; [exact Ha|]. split; [exact En|].
  split; [apply Nat.eqb_eq; exact Hadv|]. apply (achieved_arc st' _ s a Hs Ha).
Qed.


(** The alt states of the insns [a] and [b] of [exclusive_decls], as
    [create_alt_states] leaves them, the insns as
    [form_ainsn_with_same_reservs] marks them, and the states after
    [make_automaton]. *)
Definition exclusive_alt_states : store :=
  mk_store [mk_state [1%Z] 0 [] false false []; mk_state [2%Z] 0 [] false false []]
    [] [1; 0] 0.

Definition exclusive_insns : automaton_t :=
  mk_automaton [mk_ainsn 2 [0] [0] true; mk_ainsn 3 [1] [1] true; mk_ainsn 4 [] [] true]
    None 0 0.

Definition exclusive_NDFA_states : store :=
  mk_store
    [mk_state [1%Z] 0 [mk_arc 4 2 2 1] true false [];
     mk_state [2%Z] 0 [mk_arc 3 2 2 1] true false [];
     mk_state [0%Z] 0 [mk_arc 2 2 2 1; mk_arc 1 1 1 1; mk_arc 0 0 0 1] true false [];
     mk_state [0%Z] 0 [] false false []]
    [3] [2; 1; 0] 5.

Lemma make_automaton_advances_witness :
  exists a ainsn,
    In a (out_arcs exclusive_NDFA_states (start_state exclusive_automaton))
    /\ nth_error (ainsn_list exclusive_automaton) (insn a) = Some ainsn
    /\ insn_reserv_decl ainsn = 4
    /\ achieved exclusive_NDFA_states (start_state exclusive_automaton) (to_state a).
Proof.
  apply (make_automaton_advances 2 8 [2; 1]%Z [[]; []] [[]; []] [[]; []] [[]; []] 1 4
           exclusive_units 20 exclusive_insns exclusive_alt_states exclusive_automaton
           exclusive_NDFA_states).
  - apply in_use_b_spec. vm_compute. reflexivity.
  - intros s [<-|[<-|[]]]; split; reflexivity.
  - intros a s [<-|[<-|[<-|[]]]]; cbn; tauto.
  - vm_compute. reflexivity.
  - apply achieved_start.
Defined.

Lemma make_automaton_deterministic_witness :
  ainsn_list exclusive_automaton = ainsn_list exclusive_insns
  /\ forall s, achieved exclusive_NDFA_states (start_state exclusive_automaton) s ->
               In s (state_table exclusive_NDFA_states)
               /\ deterministic exclusive_NDFA_states s.
Proof.
  apply (make_automaton_deterministic 2 8 [2; 1]%Z [[]; []] [[]; []] [[]; []] [[]; []] 1 4
           exclusive_units 20 exclusive_insns exclusive_alt_states exclusive_automaton
           exclusive_NDFA_states).
  - apply in_use_b_spec. vm_compute. reflexivity.
  - intros s [<-|[<-|[]]]; split; reflexivity.
  - intros a s [<-|[<-|[<-|[]]]]; cbn; tauto.
  - vm_compute. reflexivity.
Defined.

End BuildDFA.

(** ** The exclusion set and the patterns of a reservation *)

Module PatternSets.
Import Bits Reservs.

Local Open Scope nat_scope.

(** [get_excl_set] returns the union of the exclusion sets of the units
    of the reservation it is given: a unit is in the result exactly when
    the table of a unit of the reservation has it. *)
Theorem get_excl_set_union (units_num chars_num : nat) (unit_excl_set_table : list Z)
    (in_set : Z) (v : nat) :
  units_num <= chars_num * CHAR_BIT ->
  units_only units_num in_set ->
  TEST_BIT (get_excl_set units_num chars_num unit_excl_set_table in_set) v = true
  <-> exists u, u < units_num /\ TEST_BIT in_set u = true
                /\ TEST_BIT (nth u unit_excl_set_table 0%Z) v = true.
Proof.
  intros Hfit Hunits.
  exact (get_excl_set_bit units_num chars_num unit_excl_set_table Hfit in_set v Hunits).
Qed.

Lemma units_only_small (units_num : nat) (set : Z) :
  (0 <= set < 2 ^ Z.of_nat units_num)%Z -> units_only units_num set.
Proof.
  intros Hset k Hk. unfold TEST_BIT.
  destruct (Z.eq_dec set 0) as [->|Hne]; [apply Z.testbit_0_l|].
  apply Z.bits_above_log2; [lia|].
  apply Z.lt_le_trans with (Z.of_nat units_num); [|lia].
  apply Z.log2_lt_pow2; lia.
Qed.

Lemma get_excl_set_union_witness :
  TEST_BIT (get_excl_set 3 8 [2; 5; 2]%Z 1%Z) 1 = true
  <-> exists u, u < 3 /\ TEST_BIT 1%Z u = true /\ TEST_BIT (nth u [2; 5; 2]%Z 0%Z) 1 = true.
Proof.
  apply (get_excl_set_union 3 8 [2; 5; 2]%Z 1%Z 1).
  - cbn. lia.
  - apply units_only_small. cbn. lia.
Defined.

(** [check_presence_pattern_sets] fails exactly when a unit of the
    reservation checked against has patterns of presence, none of them
    with all its units in the reservation checked; [final_p] chooses
    the table of the final presence. *)
Theorem check_presence_pattern_sets_fails (units_num chars_num : nat)
    (unit_presence_set_table unit_final_presence_set_table : list (list Z))
    (checked_reservs origin_reservs : Z) (final_p : bool) :
  units_num <= chars_num * CHAR_BIT ->
  units_only units_num origin_reservs ->
  check_presence_pattern_sets units_num chars_num unit_presence_set_table
    unit_final_presence_set_table checked_reservs origin_reservs final_p = false
  <-> exists u,
        u < units_num /\ TEST_BIT origin_reservs u = true
        /\ nth u (presence_table unit_presence_set_table unit_final_presence_set_table
                    final_p) [] <> []
        /\ forall pat,
             In pat (nth u (presence_table unit_presence_set_table
                              unit_final_presence_set_table final_p) []) ->
             ~ pattern_present pat checked_reservs.
Proof.
  intros Hfit Hunits.
  exact (check_presence_fails units_num chars_num unit_presence_set_table
           unit_final_presence_set_table Hfit checked_reservs origin_reservs final_p Hunits).
Qed.

Lemma check_presence_pattern_sets_fails_witness :
  check_presence_pattern_sets 3 8 [[6%Z]; []; []] [[]; []; []] 2%Z 1%Z false = false
  <-> exists u,
        u < 3 /\ TEST_BIT 1%Z u = true
        /\ nth u (presence_table [[6%Z]; []; []] [[]; []; []] false) [] <> []
        /\ forall pat,
             In pat (nth u (presence_table [[6%Z]; []; []] [[]; []; []] false) []) ->
             ~ pattern_present pat 2%Z.
Proof.
  apply (check_presence_pattern_sets_fails 3 8 [[6%Z]; []; []] [[]; []; []] 2%Z 1%Z false).
  - cbn. lia.
  - apply units_only_small. cbn. lia.
Defined.

(** [check_absence_pattern_sets] fails exactly when a unit of the
    reservation checked against has a pattern of absence with all its
    units in the reservation checked. *)
Theorem check_absence_pattern_sets_fails (units_num chars_num : nat)
    (unit_absence_set_table unit_final_absence_set_table : list (list Z))
    (checked_reservs origin_reservs : Z) (final_p : bool) :
  units_num <= chars_num * CHAR_BIT ->
  units_only units_num origin_reservs ->
  check_absence_pattern_sets units_num chars_num unit_absence_set_table
    unit_final_absence_set_table checked_reservs origin_reservs final_p = false
  <-> exists u pat,
        u < units_num /\ TEST_BIT origin_reservs u = true
        /\ In pat (nth u (absence_table unit_absence_set_table
                            unit_final_absence_set_table final_p) [])
        /\ pattern_present pat checked_reservs.
Proof.
  intros Hfit Hunits.
  exact (check_absence_fails units_num chars_num unit_absence_set_table
           unit_final_absence_set_table Hfit checked_reservs origin_reservs final_p Hunits).
Qed.

Lemma check_absence_pattern_sets_fails_witness :
  check_absence_pattern_sets 3 8 [[6%Z]; []; []] [[]; []; []] 6%Z 1%Z false = false
  <-> exists u pat,
        u < 3 /\ TEST_BIT 1%Z u = true
        /\ In pat (nth u (absence_table [[6%Z]; []; []] [[]; []; []] false) [])
        /\ pattern_present pat 6%Z.
Proof.
  apply (check_absence_pattern_sets_fails 3 8 [[6%Z]; []; []] [[]; []; []] 6%Z 1%Z false).
  - cbn. lia.
  - apply units_only_small. cbn. lia.
Defined.

End PatternSets.

(** ** From the automaton built to the minimal DFA *)

Module Pipeline.
Import Bits Reservs IR Automata Minimize.
Import Transform(outcome, Done, Abort, NoFuel).
Import StateGraph BuildDFA.

Local Open Scope nat_scope.
Local Open Scope heap_scope.

(** [state->it_was_placed_in_stack_for_DFA_forming] *)
Definition DFA_placed (st : store) (s : nat) : bool :=
  it_was_placed_in_stack_for_DFA_forming (the_state st s).

(** [arc->insn->insn_reserv_decl] *)
Definition decl_of (automaton : automaton_t) (a : arc) : nat :=
  insn_reserv_decl (nth (insn a) (ainsn_list automaton) (mk_ainsn 0 [] [] false)).

(** The stores differ in [it_was_placed_in_stack_for_DFA_forming] at
    most, which is set where it was set. *)
Definition same_but_DFA (st st' : store) : Prop :=
  length (states st') = length (states st)
  /\ free_states st' = free_states st
  /\ state_table st' = state_table st
  /\ allocated_arcs_num st' = allocated_arcs_num st
  /\ forall s,
       reservs (the_state st' s) = reservs (the_state st s)
       /\ Automata.automaton (the_state st' s) = Automata.automaton (the_state st s)
       /\ first_out_arc (the_state st' s) = first_out_arc (the_state st s)
       /\ it_was_placed_in_stack_for_NDFA_forming (the_state st' s)
          = it_was_placed_in_stack_for_NDFA_forming (the_state st s)
       /\ component_states (the_state st' s) = component_states (the_state st s)
       /\ (DFA_placed st s = true -> DFA_placed st' s = true).

Lemma same_but_DFA_refl (st : store) : same_but_DFA st st.
Proof. repeat split; auto. Qed.

Lemma same_but_DFA_trans (st st' st'' : store) :
  same_but_DFA st st' -> same_but_DFA st' st'' -> same_but_DFA st st''.
Proof.
  intros (H1 & H2 & H3 & H4 & H5) (H1' & H2' & H3' & H4' & H5').
  split; [congruence|]. split; [congruence|]. split; [congruence|]. split; [congruence|].
  intros s. destruct (H5 s) as (A1 & A2 & A3 & A4 & A5 & A6).
  destruct (H5' s) as (B1 & B2 & B3 & B4 & B5 & B6).
  repeat split; try congruence. auto.
Qed.

Lemma same_but_DFA_mono (st st' : store) (s : nat) :
  same_but_DFA st st' -> DFA_placed st s = true -> DFA_placed st' s = true.
Proof.
  intros (_ & _ & _ & _ & H). destruct (H s) as (_ & _ & _ & _ & _ & Hs). exact Hs.
Qed.

Lemma set_placed_DFA_same (s : nat) (st : store) :
  s < length (states st) ->
  exists st',
    set_placed_DFA s st = Done (tt, st')
    /\ same_but_DFA st st'
    /\ DFA_placed st' s = true
    /\ forall y, y <> s -> DFA_placed st' y = DFA_placed st y.
Proof.
  intros Hs. unfold set_placed_DFA, bind, read, write. eexists. split; [reflexivity|].
  destruct (write_only s (mk_state (reservs (the_state st s))
                            (Automata.automaton (the_state st s))
                            (first_out_arc (the_state st s))
                            (it_was_placed_in_stack_for_NDFA_forming (the_state st s)) true
                            (component_states (the_state st s))) st Hs)
    as [[(Hothers & Hlen & Hfree) Htable] Hx].
  set (st' := mk_store _ _ _ _) in *.
  split; [|split].
  - split; [exact Hlen|]. split; [exact Hfree|]. split; [exact Htable|].
    split; [reflexivity|]. intros y. unfold DFA_placed.
    destruct (Nat.eq_dec y s) as [->|Hy].
    + rewrite Hx. cbn. auto 10.
    + rewrite (Hothers y Hy). auto 10.
  - unfold DFA_placed. rewrite Hx. reflexivity.
  - intros y Hy. unfold DFA_placed. rewrite (Hothers y Hy). reflexivity.
Qed.

(** *** The arcs of an insn *)

Lemma form_arcs_marked_by_insn_nth (automaton : automaton_t) (arcs : list arc) :
  forall arcs_marked_by_insn i,
    i < length arcs_marked_by_insn ->
    i < length (form_arcs_marked_by_insn automaton arcs arcs_marked_by_insn)
    /\ nth i (form_arcs_marked_by_insn automaton arcs arcs_marked_by_insn) []
       = rev (filter (fun a => decl_of automaton a =? i) arcs)
         ++ nth i arcs_marked_by_insn [].
Proof.
  induction arcs as [|a arcs IH]; intros acc i Hi; cbn [form_arcs_marked_by_insn filter];
    [auto|].
  fold (decl_of automaton a). set (d := decl_of automaton a).
  assert (i < length (set_nth d (a :: nth d acc []) acc)
          /\ nth i (set_nth d (a :: nth d acc []) acc) []
             = if d =? i then a :: nth i acc [] else nth i acc []) as [Hlen Hnth].
  { destruct (Nat.ltb_spec d (length acc)) as [Hd|Hd].
    - rewrite set_nth_length by exact Hd. split; [exact Hi|].
      rewrite nth_set_nth by exact Hd. rewrite (Nat.eqb_sym d i).
      destruct (Nat.eqb_spec i d) as [->|_]; reflexivity.
    - unfold set_nth. rewrite firstn_all2 by exact Hd.
      rewrite skipn_all2 by lia. rewrite length_app. split; [lia|].
      rewrite app_nth1 by exact Hi. destruct (Nat.eqb_spec d i); [lia | reflexivity]. }
  destruct (IH _ i Hlen) as [Hlen' ->]. split; [exact Hlen'|]. rewrite Hnth.
  destruct (d =? i); [|reflexivity]. cbn [rev]. rewrite <- app_assoc. reflexivity.
Qed.

Lemma filter_NoDup_one {A : Type} (f : A -> nat) (l : list A) (i : nat) :
  NoDup (map f l) -> length (filter (fun a => f a =? i) l) <= 1.
Proof.
  induction l as [|a l IH]; intros Hnd; cbn [filter map] in *; [cbn; lia|].
  inversion Hnd as [|? ? Hnotin Hnd']; subst. specialize (IH Hnd').
  destruct (Nat.eqb_spec (f a) i) as [Heq|_]; [|exact IH]. cbn [length].
  destruct (filter (fun a0 => f a0 =? i) l) as [|b rest] eqn:Ef; [cbn; lia|]. exfalso.
  assert (In b (filter (fun a0 => f a0 =? i) l)) as Hb by (rewrite Ef; left; reflexivity).
  apply filter_In in Hb. destruct Hb as [Hb Hfb]. apply Nat.eqb_eq in Hfb.
  apply Hnotin. rewrite Heq, <- Hfb. apply in_map. exact Hb.
Qed.

(** *** The states still to place *)

Section Placing.

Variable max_cycles_num : nat.
Variable universe : list nat.

Definition unplaced (st : store) : nat :=
  length (filter (fun s => negb (DFA_placed st s)) universe).

Lemma unplaced_le (st st' : store) :
  (forall y, DFA_placed st y = true -> DFA_placed st' y = true) ->
  forall l, length (filter (fun s => negb (DFA_placed st' s)) l)
            <= length (filter (fun s => negb (DFA_placed st s)) l).
Proof.
  intros Hmono. induction l as [|u l IH]; cbn [filter]; [lia|].
  destruct (DFA_placed st u) eqn:Eu.
  - rewrite (Hmono u Eu). cbn [negb]. exact IH.
  - destruct (DFA_placed st' u); cbn [negb length]; lia.
Qed.

Lemma unplaced_flip (st st' : store) (s : nat) :
  (forall y, DFA_placed st y = true -> DFA_placed st' y = true) ->
  In s universe -> DFA_placed st s = false -> DFA_placed st' s = true ->
  unplaced st' + 1 <= unplaced st.
Proof.
  intros Hmono Hs Hbefore Hafter. unfold unplaced.
  pose proof (unplaced_le st st' Hmono) as Hle.
  induction universe as [|u l IH]; [contradiction|]. cbn [filter].
  destruct Hs as [->|Hs].
  - rewrite Hbefore, Hafter. cbn [negb length]. specialize (Hle l). lia.
  - specialize (IH Hs). destruct (DFA_placed st u) eqn:Eu.
    + rewrite (Hmono u Eu). cbn [negb]. exact IH.
    + destruct (DFA_placed st' u); cbn [negb length]; lia.
Qed.

(** [create_composed_state] on the arc of an insn that has one arc at
    most, without [-ndfa]. *)
Lemma create_composed_state_one (original_state : nat) (arcs : list arc)
    (stack : list nat) (st : store) :
  length arcs <= 1 ->
  (forall a, In a arcs -> In (to_state a) universe /\ to_state a < length (states st)) ->
  (forall s, In s stack -> In s universe) ->
  exists r stack' st',
    create_composed_state max_cycles_num false original_state arcs stack st
    = Done ((r, stack'), st')
    /\ same_but_DFA st st'
    /\ length stack' + unplaced st' <= length stack + unplaced st
    /\ forall s, In s stack' -> In s universe.
Proof.
  intros Hlen Harcs Hstack. unfold create_composed_state.
  destruct arcs as [|first_arc [|second rest]]; [| |cbn [length] in Hlen; lia].
  - exists false, stack, st. split; [reflexivity|]. split; [apply same_but_DFA_refl|].
    split; [lia | exact Hstack].
  - destruct (Harcs first_arc (or_introl eq_refl)) as [Hin Hlt].
    unfold bind at 1, ret at 1. cbn [fst snd]. unfold bind at 1, read at 1.
    fold (DFA_placed st (to_state first_arc)).
    destruct (DFA_placed st (to_state first_arc)) eqn:Ep; cbn [negb].
    + exists false, stack, st. split; [reflexivity|]. split; [apply same_but_DFA_refl|].
      split; [lia | exact Hstack].
    + destruct (set_placed_DFA_same (to_state first_arc) st Hlt)
        as (st' & E & Hsame & Hp' & Hothers).
      unfold bind. rewrite E. unfold ret.
      exists false, (to_state first_arc :: stack), st'. split; [reflexivity|].
      split; [exact Hsame|]. split.
      * cbn [length].
        pose proof (unplaced_flip st st' (to_state first_arc)
                      (fun y => same_but_DFA_mono st st' y Hsame) Hin Ep Hp').
        lia.
      * intros s [<-|Hs]; [exact Hin | exact (Hstack s Hs)].
Qed.

(** The loop of [NDFA_to_DFA] over the declarations. *)
Lemma decls_loop_places (state : nat) (arcs_marked_by_insn : list (list arc))
    (ds : list decl) :
  forall i stack st,
    (forall j, i <= j < i + length ds -> length (nth j arcs_marked_by_insn []) <= 1) ->
    (forall j a, i <= j < i + length ds -> In a (nth j arcs_marked_by_insn []) ->
                 In (to_state a) universe /\ to_state a < length (states st)) ->
    (forall s, In s stack -> In s universe) ->
    exists stack' st',
      decls_loop max_cycles_num false state arcs_marked_by_insn ds i stack st
      = Done (stack', st')
      /\ same_but_DFA st st'
      /\ length stack' + unplaced st' <= length stack + unplaced st
      /\ forall s, In s stack' -> In s universe.
Proof.
  induction ds as [|d ds IH]; intros i stack st Hone Harcs Hstack; cbn [decls_loop].
  - exists stack, st. split; [reflexivity|]. split; [apply same_but_DFA_refl|].
    split; [lia | exact Hstack].
  - cbn [length] in Hone, Harcs.
    assert (forall j, S i <= j < S i + length ds -> i <= j < i + S (length ds)) as Hj
      by (intros; lia).
    destruct d;
      try (apply IH; [intros j ?; apply Hone; auto
                     |intros j a ?; apply Harcs; auto | assumption]).
    destruct (create_composed_state_one state (nth i arcs_marked_by_insn []) stack st)
      as (r & stack1 & st1 & E1 & Hsame1 & Hle1 & Hstack1);
      [apply Hone; lia | intros a Ha; apply (Harcs i a); [lia | exact Ha] | exact Hstack |].
    unfold bind at 1. rewrite E1. cbn [snd].
    destruct (IH (S i) stack1 st1) as (stack' & st' & E & Hsame & Hle & Hstack').
    { intros j ?. apply Hone. auto. }
    { intros j a ? Ha. destruct (Harcs j a (Hj j ltac:(assumption)) Ha) as [Hin Hlt].
      split; [exact Hin|]. destruct Hsame1 as (-> & _). exact Hlt. }
    { exact Hstack1. }
    exists stack', st'. split; [exact E|].
    split; [eapply same_but_DFA_trans; eassumption|]. split; [lia | exact Hstack'].
Qed.

Lemma unplaced_length (st : store) : unplaced st <= length universe.
Proof. apply filter_length_le. Qed.

End Placing.

(** On an automaton whose states have one arc at most for an insn
    declaration, the loop of [NDFA_to_DFA] without [-ndfa] ends and
    changes nothing but [it_was_placed_in_stack_for_DFA_forming]. *)
Lemma NDFA_to_DFA_loop_same (max_cycles_num : nat) (decls : list decl)
    (automaton : automaton_t) (universe : list nat) (st0 : store) :
  closed_except st0 [] universe ->
  (forall s, In s universe -> s < length (states st0)) ->
  (forall s, In s universe -> NoDup (map (decl_of automaton) (out_arcs st0 s))) ->
  forall fuel stack st,
    same_but_DFA st0 st ->
    (forall s, In s stack -> In s universe) ->
    length stack + unplaced universe st <= fuel ->
    exists st',
      NDFA_to_DFA_loop max_cycles_num false decls fuel automaton stack st = Done (tt, st')
      /\ same_but_DFA st0 st'.
Proof.
  intros Hclosed Hlt Hnd. induction fuel as [|fuel IH]; intros stack st Hsame Hstack Hfuel;
    destruct stack as [|state stack]; cbn [NDFA_to_DFA_loop];
    try (exists st; split; [reflexivity | exact Hsame]);
    [cbn [length] in Hfuel; lia|].
  unfold bind at 1, read at 1.
  pose proof (Hstack state (or_introl eq_refl)) as Hstate.
  pose proof Hsame as (Hlen & Hfree & Htable & Hnum & Hfields).
  assert (first_out_arc (the_state st state) = out_arcs st0 state) as Harcs
    by (destruct (Hfields state) as (_ & _ & H & _); exact H).
  rewrite Harcs.
  set (arcs_marked := form_arcs_marked_by_insn automaton (out_arcs st0 state)
                        (repeat [] (length decls))).
  assert (forall j, j < length decls ->
                    nth j arcs_marked []
                    = rev (filter (fun a => decl_of automaton a =? j)
                             (out_arcs st0 state))) as Hmarked.
  { intros j Hj.
    destruct (form_arcs_marked_by_insn_nth automaton (out_arcs st0 state)
                (repeat [] (length decls)) j) as [_ E];
      [rewrite repeat_length; exact Hj|].
    fold arcs_marked in E. rewrite E.
    rewrite nth_repeat_lt by exact Hj. apply app_nil_r. }
  destruct (decls_loop_places max_cycles_num universe state arcs_marked decls 0 stack st)
    as (stack' & st' & E & Hsame' & Hle & Hstack').
  - intros j Hj. rewrite Hmarked by lia. rewrite length_rev.
    apply filter_NoDup_one. apply Hnd. exact Hstate.
  - intros j a Hj Ha. rewrite Hmarked in Ha by lia. apply in_rev in Ha.
    apply filter_In in Ha. destruct Ha as [Ha _].
    assert (In (to_state a) universe) as Hin
      by (apply (Hclosed state Hstate (fun H => H) a Ha)).
    split; [exact Hin|]. rewrite Hlen. apply Hlt. exact Hin.
  - intros s Hs. apply Hstack. right. exact Hs.
  - unfold bind. rewrite E. cbn [fst snd].
    apply IH.
    + eapply same_but_DFA_trans; eassumption.
    + exact Hstack'.
    + cbn [length] in Hfuel. lia.
Qed.

(** [NDFA_to_DFA] without [-ndfa] on such an automaton. *)
Lemma NDFA_to_DFA_same (max_cycles_num : nat) (decls : list decl) (fuel : nat)
    (automaton : automaton_t) (universe : list nat) (st : store) :
  In (start_state automaton) universe ->
  closed_except st [] universe ->
  (forall s, In s universe -> s < length (states st)) ->
  (forall s, In s universe -> NoDup (map (decl_of automaton) (out_arcs st s))) ->
  length universe < fuel ->
  exists st',
    NDFA_to_DFA max_cycles_num false decls fuel automaton st = Done (tt, st')
    /\ same_but_DFA st st'.
Proof.
  intros Hstart Hclosed Hlt Hnd Hfuel. unfold NDFA_to_DFA.
  destruct (set_placed_DFA_same (start_state automaton) st (Hlt _ Hstart))
    as (st1 & E1 & Hsame1 & _ & _).
  unfold bind. rewrite E1.
  apply (NDFA_to_DFA_loop_same max_cycles_num decls automaton universe st Hclosed Hlt Hnd).
  - exact Hsame1.
  - intros s [<-|[]]. exact Hstart.
  - pose proof (unplaced_length universe st1). cbn [length]. lia.
Qed.

(** *** After [make_automaton] *)

Lemma same_but_DFA_arcs (st st' : store) (s : nat) :
  same_but_DFA st st' -> out_arcs st' s = out_arcs st s.
Proof.
  intros (_ & _ & _ & _ & H). destruct (H s) as (_ & _ & Harcs & _). exact Harcs.
Qed.

Lemma trace_same_arcs (st st' : store) :
  (forall s, out_arcs st' s = out_arcs st s) ->
  forall insns s, trace st' s insns = trace st s insns.
Proof.
  intros Harcs. induction insns as [|i insns IH]; intros s; cbn [trace]; [reflexivity|].
  rewrite Harcs. destruct (transition (out_arcs st s) i) as [[t alts]|]; [|reflexivity].
  rewrite IH. reflexivity.
Qed.

(** The arcs by different insns of the automaton are the arcs of
    different insn declarations. *)
Lemma decl_of_NoDup (automaton : automaton_t) (arcs : list arc) :
  NoDup (map insn_reserv_decl (ainsn_list automaton)) ->
  NoDup (map insn arcs) ->
  (forall a, In a arcs -> insn a < length (ainsn_list automaton)) ->
  NoDup (map (decl_of automaton) arcs).
Proof.
  intros Hdecls Hnd Hlt. induction arcs as [|a arcs IH]; cbn [map] in *; [constructor|].
  inversion Hnd as [|? ? Hnotin Hnd']; subst. constructor.
  - intros Hin. apply in_map_iff in Hin. destruct Hin as (b & Heq & Hb).
    apply Hnotin. apply in_map_iff. exists b. split; [|exact Hb].
    unfold decl_of in Heq.
    rewrite <- !(map_nth insn_reserv_decl) in Heq.
    apply (proj1 (NoDup_nth _ _) Hdecls) in Heq; [exact Heq| |]; rewrite length_map;
      apply Hlt; cbn [In]; auto.
  - apply IH; [exact Hnd'|]. intros b Hb. apply Hlt. right. exact Hb.
Qed.

Lemma make_automaton_cycles (units_num chars_num : nat) (unit_excl_set_table : list Z)
    (unit_presence_set_table unit_final_presence_set_table : list (list Z))
    (unit_absence_set_table unit_final_absence_set_table : list (list Z))
    (max_cycles_num advance_cycle_insn_decl : nat) (units_array : list unit_decl)
    (ndfa_flag : bool) (fuel : nat) (automaton : automaton_t) (st : store) r :
  make_automaton units_num chars_num unit_excl_set_table unit_presence_set_table
    unit_final_presence_set_table unit_absence_set_table unit_final_absence_set_table
    max_cycles_num units_array ndfa_flag advance_cycle_insn_decl fuel automaton st
  = Done r ->
  0 < max_cycles_num.
Proof.
  intros E. unfold make_automaton in E.
  destruct (form_reservs_matter _ _ _ _) as [reservs_matter|]; [|discriminate].
  unfold bind at 1 in E. unfold bind at 1 in E.
  destruct (get_free_state max_cycles_num true _ st) as [[e st1]| |] eqn:Eg;
    try discriminate.
  unfold get_free_state in Eg. destruct (Nat.leb_spec max_cycles_num 0); [discriminate|].
  lia.
Qed.

(** What [make_automaton] without [-ndfa] leaves for [NDFA_to_DFA] and
    [minimize_DFA]: the state table is closed under the arcs, and no
    state of it has two arcs of an insn declaration. *)
Lemma make_automaton_table (units_num chars_num : nat) (unit_excl_set_table : list Z)
    (unit_presence_set_table unit_final_presence_set_table : list (list Z))
    (unit_absence_set_table unit_final_absence_set_table : list (list Z))
    (max_cycles_num advance_cycle_insn_decl : nat) (units_array : list unit_decl)
    (fuel : nat) (automaton : automaton_t) (st : store) automaton' st' :
  table_ok st ->
  (forall s, In s (state_table st) -> placed st s = false /\ out_arcs st s = []) ->
  (forall a s, In a (ainsn_list automaton) -> In s (alt_states a) ->
               In s (state_table st)) ->
  NoDup (map insn_reserv_decl (ainsn_list automaton)) ->
  make_automaton units_num chars_num unit_excl_set_table unit_presence_set_table
    unit_final_presence_set_table unit_absence_set_table unit_final_absence_set_table
    max_cycles_num units_array false advance_cycle_insn_decl fuel automaton st
  = Done (automaton', st') ->
  table_ok st'
  /\ In (start_state automaton') (state_table st')
  /\ closed_except st' [] (state_table st')
  /\ (forall s, In s (state_table st') -> deterministic st' s)
  /\ forall s, In s (state_table st') ->
               NoDup (map (decl_of automaton') (out_arcs st' s)).
Proof.
  intros Hok Hfresh Halts Hdecls E.
  destruct (make_automaton_finished units_num chars_num unit_excl_set_table
              unit_presence_set_table unit_final_presence_set_table unit_absence_set_table
              unit_final_absence_set_table max_cycles_num advance_cycle_insn_decl
              units_array fuel automaton st automaton' st' Hok Hfresh Halts E)
    as [Hainsns (Hok' & _ & _ & _ & Hunplaced & Hfinished & _ & Hstart & _)].
  assert (forall s, In s (state_table st') ->
                    out_arcs st' s = []
                    \/ finished advance_cycle_insn_decl (ainsn_list automaton) st' s)
    as Hcases.
  { intros s Hs. destruct (placed st' s) eqn:Ep;
      [right; apply Hfinished; try assumption; [tauto | discriminate]
      |left; apply Hunplaced; assumption]. }
  split; [exact Hok'|]. split; [exact Hstart|]. split; [|split].
  - intros s Hs _ a Ha. destruct (Hcases s Hs) as [Hnil|(_ & Htargets & _)].
    + rewrite Hnil in Ha. contradiction.
    + exact (proj1 (Htargets a Ha)).
  - intros s Hs. destruct (Hcases s Hs) as [Hnil|(Hdet & _)]; [|exact Hdet].
    unfold deterministic. rewrite Hnil. split; constructor.
  - intros s Hs. destruct (Hcases s Hs) as [Hnil|([Hnd _] & _ & _ & Hinsns)].
    + rewrite Hnil. constructor.
    + apply decl_of_NoDup;
        [rewrite Hainsns; exact Hdecls | exact Hnd | rewrite Hainsns; exact Hinsns].
Qed.

(** [NDFA_to_DFA] without [-ndfa], on an automaton none of whose states
    has two arcs of one insn declaration, ends without [abort ()] and
    changes nothing but [it_was_placed_in_stack_for_DFA_forming], which
    it sets: no state is made, and no arc is added, removed or changed.
    [universe] holds the start state and the states that its arcs lead
    to. *)
Theorem NDFA_to_DFA_keeps_automaton (max_cycles_num : nat) (decls : list decl)
    (fuel : nat) (automaton : automaton_t) (universe : list nat) (st : store) :
  In (start_state automaton) universe ->
  closed_except st [] universe ->
  (forall s, In s universe -> s < length (states st)) ->
  (forall s, In s universe -> NoDup (map (decl_of automaton) (out_arcs st s))) ->
  length universe < fuel ->
  exists st',
    NDFA_to_DFA max_cycles_num false decls fuel automaton st = Done (tt, st')
    /\ same_but_DFA st st'.
Proof.
  exact (NDFA_to_DFA_same max_cycles_num decls fuel automaton universe st).
Qed.

Lemma NDFA_to_DFA_keeps_automaton_witness :
  exists st',
    NDFA_to_DFA 1 false exclusive_decls 4 exclusive_automaton exclusive_NDFA_states
    = Done (tt, st')
    /\ same_but_DFA exclusive_NDFA_states st'.
Proof.
  apply (NDFA_to_DFA_keeps_automaton 1 exclusive_decls 4 exclusive_automaton [0; 1; 2]
           exclusive_NDFA_states).
  - right. right. left. reflexivity.
  - apply closed_b_spec. vm_compute. reflexivity.
  - intros s [<-|[<-|[<-|[]]]]; cbn; lia.
  - intros s [<-|[<-|[<-|[]]]]; apply NoDup_b_spec; vm_compute; reflexivity.
  - cbn [length]. lia.
Defined.

(** [NDFA_to_DFA] and [minimize_DFA] after [make_automaton]. *)
Lemma minimal_DFA_spec (units_num chars_num : nat)
    (unit_excl_set_table : list Z)
    (unit_presence_set_table unit_final_presence_set_table : list (list Z))
    (unit_absence_set_table unit_final_absence_set_table : list (list Z))
    (max_cycles_num advance_cycle_insn_decl : nat) (units_array : list unit_decl)
    (decls : list decl) (nums : equiv_class_nums) (equiv_class_state : nat -> nat)
    (fuel fuel' : nat) (automaton : automaton_t) (st : store) automaton1 st1 :
  table_ok st ->
  (forall s, In s (state_table st) -> placed st s = false /\ out_arcs st s = []) ->
  (forall a s, In a (ainsn_list automaton) -> In s (alt_states a) ->
               In s (state_table st)) ->
  NoDup (map insn_reserv_decl (ainsn_list automaton)) ->
  make_automaton units_num chars_num unit_excl_set_table unit_presence_set_table
    unit_final_presence_set_table unit_absence_set_table unit_final_absence_set_table
    max_cycles_num units_array false advance_cycle_insn_decl fuel automaton st
  = Done (automaton1, st1) ->
  length (state_table st1) < fuel' ->
  exists st2 automaton3 st3,
    NDFA_to_DFA max_cycles_num false decls fuel' automaton1 st1 = Done (tt, st2)
    /\ minimize_DFA max_cycles_num units_array fuel' automaton1 nums equiv_class_state st2
       = Done (automaton3, st3)
    /\ forall insns,
         trace st3 (start_state automaton3) insns
         = trace st1 (start_state automaton1) insns.
Proof.
  intros Hok Hfresh Halts Hdecls E Hfuel.
  pose proof (make_automaton_cycles _ _ _ _ _ _ _ _ _ _ _ _ _ _ _ E) as Hcycles.
  destruct (make_automaton_table units_num chars_num unit_excl_set_table
              unit_presence_set_table unit_final_presence_set_table unit_absence_set_table
              unit_final_absence_set_table max_cycles_num advance_cycle_insn_decl
              units_array fuel automaton st automaton1 st1 Hok Hfresh Halts Hdecls E)
    as (Hok1 & Hstart & Hclosed & Hdet & Hnd).
  pose proof Hok1 as (Hfree1 & Hndfree1 & Hused1).
  destruct (NDFA_to_DFA_same max_cycles_num decls fuel' automaton1 (state_table st1) st1
              Hstart Hclosed (fun s Hs => proj1 (Hused1 s Hs)) Hnd Hfuel)
    as (st2 & E2 & Hsame).
  pose proof (same_but_DFA_arcs st1 st2) as Harcs.
  pose proof Hsame as (Hlen & Hfree & _).
  destruct (minimize_DFA_spec max_cycles_num units_array fuel' automaton1 nums
              equiv_class_state st2 (state_table st1) Hcycles)
    as (automaton3 & st3 & all & ecs & E3 & Hstart3 & Hin & _ & Htrace).
  - intros s Hs Hns a Ha. unfold Minimize.out_arcs in Ha.
    change (first_out_arc (the_state st2 s)) with (out_arcs st2 s) in Ha.
    rewrite (Harcs s Hsame) in Ha. exact (Hclosed s Hs Hns a Ha).
  - intros s Hs. unfold deterministic. rewrite (Harcs s Hsame). exact (Hdet s Hs).
  - exact Hstart.
  - exact Hfuel.
  - unfold in_use, free_states_allocated. rewrite Hfree, Hlen.
    split; [exact Hfree1|]. split; [exact Hndfree1 | exact Hused1].
  - exists st2, automaton3, st3. split; [exact E2|]. split; [exact E3|].
    intros insns. rewrite Hstart3, (Htrace insns _ Hin).
    apply trace_same_arcs. intros s. exact (Harcs s Hsame).
Qed.

(** Whenever [make_automaton] ends without [-ndfa], on insns of
    different declarations, [NDFA_to_DFA] and [minimize_DFA] after it, as
    [build_automaton] calls them, end without [abort ()], and the
    minimized automaton takes from its start state the sequences of insns
    that the automaton of [make_automaton] takes from its start state,
    each insn with the same number of alternatives. *)
Theorem minimal_DFA_of_make_automaton (units_num chars_num : nat)
    (unit_excl_set_table : list Z)
    (unit_presence_set_table unit_final_presence_set_table : list (list Z))
    (unit_absence_set_table unit_final_absence_set_table : list (list Z))
    (max_cycles_num advance_cycle_insn_decl : nat) (units_array : list unit_decl)
    (decls : list decl) (nums : equiv_class_nums) (equiv_class_state : nat -> nat)
    (fuel fuel' : nat) (automaton : automaton_t) (st : store) automaton1 st1 :
  table_ok st ->
  (forall s, In s (state_table st) -> placed st s = false /\ out_arcs st s = []) ->
  (forall a s, In a (ainsn_list automaton) -> In s (alt_states a) ->
               In s (state_table st)) ->
  NoDup (map insn_reserv_decl (ainsn_list automaton)) ->
  make_automaton units_num chars_num unit_excl_set_table unit_presence_set_table
    unit_final_presence_set_table unit_absence_set_table unit_final_absence_set_table
    max_cycles_num units_array false advance_cycle_insn_decl fuel automaton st
  = Done (automaton1, st1) ->
  length (state_table st1) < fuel' ->
  exists st2 automaton3 st3,
    NDFA_to_DFA max_cycles_num false decls fuel' automaton1 st1 = Done (tt, st2)
    /\ minimize_DFA max_cycles_num units_array fuel' automaton1 nums equiv_class_state st2
       = Done (automaton3, st3)
    /\ forall insns,
         trace st3 (start_state automaton3) insns
         = trace st1 (start_state automaton1) insns.
Proof.
  exact (minimal_DFA_spec units_num chars_num unit_excl_set_table unit_presence_set_table
           unit_final_presence_set_table unit_absence_set_table
           unit_final_absence_set_table max_cycles_num advance_cycle_insn_decl units_array
           decls nums equiv_class_state fuel fuel' automaton st automaton1 st1).
Qed.

Lemma minimal_DFA_of_make_automaton_witness :
  exists st2 automaton3 st3,
    NDFA_to_DFA 1 false exclusive_decls 5 exclusive_automaton exclusive_NDFA_states
    = Done (tt, st2)
    /\ minimize_DFA 1 exclusive_units 5 exclusive_automaton
         (mk_nums (fun _ => 0) (fun _ => 0)) (fun s => s) st2
       = Done (automaton3, st3)
    /\ forall insns,
         trace st3 (start_state automaton3) insns
         = trace exclusive_NDFA_states (start_state exclusive_automaton) insns.
Proof.
  apply (minimal_DFA_of_make_automaton 2 8 [2; 1]%Z [[]; []] [[]; []] [[]; []] [[]; []] 1 4
           exclusive_units exclusive_decls (mk_nums (fun _ => 0) (fun _ => 0)) (fun s => s)
           20 5 exclusive_insns exclusive_alt_states exclusive_automaton
           exclusive_NDFA_states).
  - apply in_use_b_spec. vm_compute. reflexivity.
  - intros s [<-|[<-|[]]]; split; reflexivity.
  - intros a s [<-|[<-|[<-|[]]]]; cbn; tauto.
  - apply NoDup_b_spec. vm_compute. reflexivity.
  - vm_compute. reflexivity.
  - cbn. lia.
Defined.

(** *** The [abort ()] of [create_composed_state] *)

Lemma filter_one_NoDup {A : Type} (f : A -> nat) (l : list A) :
  (forall a, In a l -> length (filter (fun b => f b =? f a) l) <= 1) ->
  NoDup (map f l).
Proof.
  induction l as [|a l IH]; intros Hone; cbn [map]; [constructor|]. constructor.
  - intros Hin. apply in_map_iff in Hin. destruct Hin as (b & Heq & Hb).
    pose proof (Hone a (or_introl eq_refl)) as Ha. cbn [filter] in Ha.
    rewrite Nat.eqb_refl in Ha. cbn [length] in Ha.
    assert (In b (filter (fun b => f b =? f a) l)) as Hbf
      by (apply filter_In; split; [exact Hb | apply Nat.eqb_eq; exact Heq]).
    destruct (filter (fun b => f b =? f a) l); [destruct Hbf | cbn [length] in Ha; lia].
  - apply IH. intros b Hb. pose proof (Hone b (or_intror Hb)) as H. cbn [filter] in H.
    destruct (f a =? f b); cbn [length] in H; lia.
Qed.

(** The declaration [d] of [decls] is an insn declaration. *)
Definition insn_decl (decls : list decl) (d : nat) : Prop :=
  exists default_latency regexp0,
    nth_error decls d = Some (dm_insn_reserv default_latency regexp0).

Section Aborting.

Variable max_cycles_num : nat.
Variable universe : list nat.

(** [create_composed_state] without [-ndfa]: the arc of the insn leads
    to a state that is or was on the stack afterwards, and two arcs of
    the insn end in [abort ()]. *)
Lemma create_composed_state_cases (original_state : nat) (arcs : list arc)
    (stack : list nat) (st : store) :
  (forall a, In a arcs -> In (to_state a) universe /\ to_state a < length (states st)) ->
  (forall s, In s stack -> In s universe) ->
  (exists r stack' st',
     create_composed_state max_cycles_num false original_state arcs stack st
     = Done ((r, stack'), st')
     /\ same_but_DFA st st'
     /\ length stack' + unplaced universe st' <= length stack + unplaced universe st
     /\ (forall s, In s stack' -> In s universe)
     /\ incl stack stack'
     /\ (forall y, DFA_placed st' y = true -> DFA_placed st y = true \/ In y stack')
     /\ length arcs <= 1
     /\ forall a, In a arcs -> DFA_placed st' (to_state a) = true)
  \/ (create_composed_state max_cycles_num false original_state arcs stack st = Abort
      /\ 2 <= length arcs).
Proof.
  intros Harcs Hstack. unfold create_composed_state.
  destruct arcs as [|first_arc [|second rest]].
  - left. exists false, stack, st. split; [reflexivity|]. split; [apply same_but_DFA_refl|].
    split; [lia|]. split; [exact Hstack|]. split; [apply incl_refl|].
    split; [auto|]. split; [cbn; lia | intros a []].
  - left. destruct (Harcs first_arc (or_introl eq_refl)) as [Hin Hlt].
    unfold bind at 1, ret at 1. cbn [fst snd]. unfold bind at 1, read at 1.
    fold (DFA_placed st (to_state first_arc)).
    destruct (DFA_placed st (to_state first_arc)) eqn:Ep; cbn [negb].
    + exists false, stack, st. split; [reflexivity|]. split; [apply same_but_DFA_refl|].
      split; [lia|]. split; [exact Hstack|]. split; [apply incl_refl|].
      split; [auto|]. split; [cbn; lia|]. intros a [<-|[]]. exact Ep.
    + destruct (set_placed_DFA_same (to_state first_arc) st Hlt)
        as (st' & E & Hsame & Hp' & Hothers).
      unfold bind. rewrite E. unfold ret.
      exists false, (to_state first_arc :: stack), st'. split; [reflexivity|].
      split; [exact Hsame|]. split; [|split; [|split; [|split; [|split]]]].
      * cbn [length].
        pose proof (unplaced_flip universe st st' (to_state first_arc)
                      (fun y => same_but_DFA_mono st st' y Hsame) Hin Ep Hp').
        lia.
      * intros s [<-|Hs]; [exact Hin | exact (Hstack s Hs)].
      * intros s Hs. right. exact Hs.
      * intros y Hy. destruct (Nat.eq_dec y (to_state first_arc)) as [->|Hne].
        -- right. left. reflexivity.
        -- left. rewrite <- (Hothers y Hne). exact Hy.
      * cbn; lia.
      * intros a [<-|[]]. exact Hp'.
  - right. split; [reflexivity | cbn [length]; lia].
Qed.

(** The loop of [NDFA_to_DFA] over the declarations, when it ends: no
    insn declaration had two arcs. *)
Lemma decls_loop_cases (state : nat) (arcs_marked_by_insn : list (list arc))
    (ds : list decl) :
  forall i stack st,
    (forall j a, i <= j < i + length ds -> In a (nth j arcs_marked_by_insn []) ->
                 In (to_state a) universe /\ to_state a < length (states st)) ->
    (forall s, In s stack -> In s universe) ->
    (exists stack' st',
       decls_loop max_cycles_num false state arcs_marked_by_insn ds i stack st
       = Done (stack', st')
       /\ same_but_DFA st st'
       /\ length stack' + unplaced universe st' <= length stack + unplaced universe st
       /\ (forall s, In s stack' -> In s universe)
       /\ incl stack stack'
       /\ (forall y, DFA_placed st' y = true -> DFA_placed st y = true \/ In y stack')
       /\ forall k, insn_decl ds k ->
            length (nth (i + k) arcs_marked_by_insn []) <= 1
            /\ forall a, In a (nth (i + k) arcs_marked_by_insn []) ->
                         DFA_placed st' (to_state a) = true)
    \/ decls_loop max_cycles_num false state arcs_marked_by_insn ds i stack st = Abort.
Proof.
  induction ds as [|d ds IH]; intros i stack st Harcs Hstack.
  - left. exists stack, st. split; [reflexivity|]. split; [apply same_but_DFA_refl|].
    split; [lia|]. split; [exact Hstack|]. split; [apply incl_refl|]. split; [auto|].
    intros k (lat & r & Hk). destruct k; discriminate.
  - cbn [length] in Harcs.
    assert (forall j a, S i <= j < S i + length ds -> In a (nth j arcs_marked_by_insn []) ->
                        In (to_state a) universe /\ to_state a < length (states st))
      as Harcs' by (intros j a Hj; apply Harcs; lia).
    destruct d as [| | | | | | |lat r]; cbn [decls_loop].
    1-7: destruct (IH (S i) stack st Harcs' Hstack)
           as [(stack' & st' & E & Hsame & Hle & Hstack' & Hincl & Hplaced & Hone)|E];
         [left; exists stack', st'; do 6 (split; [assumption|]);
          intros [|k] (lat' & r' & Hk); cbn [nth_error] in Hk; [discriminate|];
          replace (i + S k) with (S i + k) by lia; apply Hone; exists lat', r'; exact Hk
         |right; exact E].
    destruct (create_composed_state_cases state (nth i arcs_marked_by_insn []) stack st)
      as [(b & stack1 & st1 & E1 & Hsame1 & Hle1 & Hstack1 & Hincl1 & Hplaced1 & Hlen1
           & Htargets1)|[E1 _]].
    { intros a Ha. apply (Harcs i a); [lia | exact Ha]. }
    { exact Hstack. }
    2:{ right. unfold bind. rewrite E1. reflexivity. }
    unfold bind. rewrite E1. cbn [snd].
    destruct (IH (S i) stack1 st1)
      as [(stack' & st' & E & Hsame & Hle & Hstack' & Hincl & Hplaced & Hone)|E].
    { intros j a Hj Ha. destruct (Harcs' j a Hj Ha) as [Hin Hlt]. split; [exact Hin|].
      destruct Hsame1 as (-> & _). exact Hlt. }
    { exact Hstack1. }
    2:{ right. exact E. }
    left. exists stack', st'. split; [exact E|].
    split; [eapply same_but_DFA_trans; eassumption|]. split; [lia|].
    split; [exact Hstack'|]. split; [intros s Hs; apply Hincl, Hincl1; exact Hs|].
    split.
    + intros y Hy. destruct (Hplaced y Hy) as [H1|H']; [|right; exact H'].
      destruct (Hplaced1 y H1) as [H0|H']; [left; exact H0 | right; apply Hincl; exact H'].
    + intros [|k] Hkd.
      * rewrite Nat.add_0_r. split; [exact Hlen1|]. intros a Ha.
        apply (same_but_DFA_mono st1 st' _ Hsame). exact (Htargets1 a Ha).
      * replace (i + S k) with (S i + k) by lia. apply Hone.
        destruct Hkd as (lat' & r' & Hk). exists lat', r'. exact Hk.
Qed.

Variable decls : list decl.
Variable automaton : automaton_t.
Variable st0 : store.

Hypothesis universe_closed : closed_except st0 [] universe.
Hypothesis universe_states : forall s, In s universe -> s < length (states st0).
Hypothesis arcs_by_insns :
  forall s a, In s universe -> In a (out_arcs st0 s) -> insn_decl decls (decl_of automaton a).

(** The state has no two arcs of an insn declaration, and its arcs
    lead to states that are or were on the stack. *)
Definition passed (st : store) (s : nat) : Prop :=
  NoDup (map (decl_of automaton) (out_arcs st0 s))
  /\ forall a, In a (out_arcs st0 s) -> DFA_placed st (to_state a) = true.

(** The loop of [NDFA_to_DFA] leaves no state that was on the stack
    with two arcs of an insn declaration, unless it ends in
    [abort ()]. *)
Lemma NDFA_to_DFA_loop_cases (fuel : nat) :
  forall stack st,
    same_but_DFA st0 st ->
    (forall s, In s stack -> In s universe) ->
    (forall s, In s universe -> DFA_placed st s = true -> In s stack \/ passed st s) ->
    length stack + unplaced universe st <= fuel ->
    (exists st',
       NDFA_to_DFA_loop max_cycles_num false decls fuel automaton stack st = Done (tt, st')
       /\ same_but_DFA st st'
       /\ forall s, In s universe -> DFA_placed st' s = true -> passed st' s)
    \/ NDFA_to_DFA_loop max_cycles_num false decls fuel automaton stack st = Abort.
Proof.
  induction fuel as [|fuel IH]; intros stack st Hsame Hstack Hinv Hfuel;
    destruct stack as [|state stack]; cbn [NDFA_to_DFA_loop];
    try (left; exists st; split; [reflexivity|]; split; [apply same_but_DFA_refl|];
         intros s Hs Hp; destruct (Hinv s Hs Hp) as [[]|H]; exact H);
    [cbn [length] in Hfuel; lia|].
  pose proof (Hstack state (or_introl eq_refl)) as Hstate.
  pose proof Hsame as (Hlen & Hfree & Htable & Hnum & Hfields).
  assert (first_out_arc (the_state st state) = out_arcs st0 state) as Harcs
    by (destruct (Hfields state) as (_ & _ & H & _); exact H).
  set (arcs_marked := form_arcs_marked_by_insn automaton (out_arcs st0 state)
                        (repeat [] (length decls))).
  assert (forall j, j < length decls ->
                    nth j arcs_marked []
                    = rev (filter (fun a => decl_of automaton a =? j)
                             (out_arcs st0 state))) as Hmarked.
  { intros j Hj.
    destruct (form_arcs_marked_by_insn_nth automaton (out_arcs st0 state)
                (repeat [] (length decls)) j) as [_ E];
      [rewrite repeat_length; exact Hj|].
    fold arcs_marked in E. rewrite E.
    rewrite nth_repeat_lt by exact Hj. apply app_nil_r. }
  assert (forall s, passed st s -> forall st', same_but_DFA st st' -> passed st' s) as Hmono.
  { intros s [Hnd Ht] st' Hs'. split; [exact Hnd|]. intros a Ha.
    apply (same_but_DFA_mono st st' _ Hs'). exact (Ht a Ha). }
  destruct (decls_loop_cases state arcs_marked decls 0 stack st)
    as [(stack' & st1 & E & Hsame1 & Hle & Hstack' & Hincl & Hplaced & Hone)|E].
  - intros j a Hj Ha. rewrite Hmarked in Ha by lia. apply in_rev in Ha.
    apply filter_In in Ha. destruct Ha as [Ha _].
    assert (In (to_state a) universe) as Hin
      by (apply (universe_closed state Hstate (fun H => H) a Ha)).
    split; [exact Hin|]. rewrite Hlen. apply universe_states. exact Hin.
  - intros s Hs. apply Hstack. right. exact Hs.
  - assert (passed st1 state) as Hpassed.
    { split.
      - apply filter_one_NoDup. intros a Ha.
        pose proof (arcs_by_insns state a Hstate Ha) as Hdecl.
        assert (decl_of automaton a < length decls) as Hlt.
        { destruct Hdecl as (lat & r & Hk). apply nth_error_Some. congruence. }
        destruct (Hone (decl_of automaton a) Hdecl) as [Hle1 _].
        cbn [Nat.add] in Hle1. rewrite Hmarked, length_rev in Hle1 by exact Hlt.
        exact Hle1.
      - intros a Ha. pose proof (arcs_by_insns state a Hstate Ha) as Hdecl.
        assert (decl_of automaton a < length decls) as Hlt.
        { destruct Hdecl as (lat & r & Hk). apply nth_error_Some. congruence. }
        destruct (Hone (decl_of automaton a) Hdecl) as [_ Htargets].
        apply Htargets. cbn [Nat.add]. rewrite Hmarked by exact Hlt. apply in_rev.
        rewrite rev_involutive. apply filter_In. split; [exact Ha | apply Nat.eqb_refl]. }
    unfold bind, read. rewrite Harcs. fold arcs_marked. rewrite E. cbn [fst snd].
    destruct (IH stack' st1) as [(st' & E' & Hsame' & Hall)|E'].
    + eapply same_but_DFA_trans; eassumption.
    + exact Hstack'.
    + intros s Hs Hp. destruct (Hplaced s Hp) as [Hbefore|Hin]; [|left; exact Hin].
      destruct (Hinv s Hs Hbefore) as [[<-|Hin]|Hdone].
      * right. exact Hpassed.
      * left. apply Hincl. exact Hin.
      * right. exact (Hmono s Hdone st1 Hsame1).
    + cbn [length] in Hfuel. lia.
    + left. exists st'. split; [exact E'|].
      split; [eapply same_but_DFA_trans; eassumption | exact Hall].
    + right. exact E'.
  - right. unfold bind, read. rewrite Harcs. fold arcs_marked. rewrite E. reflexivity.
Qed.

Lemma NDFA_to_DFA_cases (fuel : nat) :
  In (start_state automaton) universe ->
  (forall s, In s universe -> DFA_placed st0 s = false) ->
  length universe < fuel ->
  (exists st',
     NDFA_to_DFA max_cycles_num false decls fuel automaton st0 = Done (tt, st')
     /\ forall s, achieved st0 (start_state automaton) s ->
                  NoDup (map (decl_of automaton) (out_arcs st0 s)))
  \/ NDFA_to_DFA max_cycles_num false decls fuel automaton st0 = Abort.
Proof.
  intros Hstart Hunplaced Hfuel. unfold NDFA_to_DFA.
  destruct (set_placed_DFA_same (start_state automaton) st0 (universe_states _ Hstart))
    as (st1 & E1 & Hsame1 & Hp1 & Hothers1).
  unfold bind. rewrite E1.
  destruct (NDFA_to_DFA_loop_cases fuel [start_state automaton] st1)
    as [(st' & E & Hsame & Hall)|E].
  - exact Hsame1.
  - intros s [<-|[]]. exact Hstart.
  - intros s Hs Hp. left. left.
    destruct (Nat.eq_dec s (start_state automaton)) as [->|Hne]; [reflexivity|].
    rewrite (Hothers1 s Hne), (Hunplaced s Hs) in Hp. discriminate.
  - pose proof (unplaced_length universe st1). cbn [length]. lia.
  - left. exists st'. split; [exact E|].
    assert (forall s, achieved st0 (start_state automaton) s ->
                      In s universe /\ DFA_placed st' s = true) as Hach.
    { intros s Hs. induction Hs as [|s a _ [Hin Hp] Ha].
      - split; [exact Hstart|]. apply (same_but_DFA_mono st1 st' _ Hsame). exact Hp1.
      - split; [exact (universe_closed s Hin (fun H => H) a Ha)|].
        destruct (Hall s Hin Hp) as [_ Htargets]. exact (Htargets a Ha). }
    intros s Hs. destruct (Hach s Hs) as [Hin Hp]. exact (proj1 (Hall s Hin Hp)).
  - right. exact E.
Qed.

End Aborting.

(** Without [-ndfa], [NDFA_to_DFA] ends in the [abort ()] of
    [create_composed_state] when a state that the arcs lead to from the
    start state has two arcs of the same insn declaration.  [universe]
    holds the start state and the states that its arcs lead to, none of
    them placed in the stack before. *)
Theorem NDFA_to_DFA_aborts_on_two_arcs (max_cycles_num : nat) (decls : list decl)
    (fuel : nat) (automaton : automaton_t) (universe : list nat) (st : store) (s : nat) :
  In (start_state automaton) universe ->
  closed_except st [] universe ->
  (forall s, In s universe -> s < length (states st)) ->
  (forall s a, In s universe -> In a (out_arcs st s) ->
               insn_decl decls (decl_of automaton a)) ->
  (forall s, In s universe -> DFA_placed st s = false) ->
  length universe < fuel ->
  achieved st (start_state automaton) s ->
  ~ NoDup (map (decl_of automaton) (out_arcs st s)) ->
  NDFA_to_DFA max_cycles_num false decls fuel automaton st = Abort.
Proof.
  intros Hstart Hclosed Hlt Hdecls Hunplaced Hfuel Hs Hdup.
  destruct (NDFA_to_DFA_cases max_cycles_num universe decls automaton st Hclosed Hlt Hdecls
              fuel Hstart Hunplaced Hfuel) as [(st' & _ & Hall)|E]; [|exact E].
  destruct (Hdup (Hall s Hs)).
Qed.

(** An insn of two alternatives, and a start state with an arc of the
    insn to the state of each of them. *)
Definition two_arcs_decls : list decl :=
  [dm_insn_reserv 1 (Some (rm_oneof [rm_unit 0; rm_unit 1]))].

Definition two_arcs_automaton : automaton_t :=
  mk_automaton [mk_ainsn 0 [1; 2] [1; 2] true] None 0 0.

Definition two_arcs_states : store :=
  mk_store
    [mk_state [0%Z] 0 [mk_arc 1 2 0 1; mk_arc 0 1 0 1] true false [];
     mk_state [1%Z] 0 [] true false [];
     mk_state [2%Z] 0 [] true false []]
    [] [2; 1; 0] 2.

Lemma NDFA_to_DFA_aborts_on_two_arcs_witness :
  NDFA_to_DFA 1 false two_arcs_decls 4 two_arcs_automaton two_arcs_states = Abort.
Proof.
  apply (NDFA_to_DFA_aborts_on_two_arcs 1 two_arcs_decls 4 two_arcs_automaton [0; 1; 2]
           two_arcs_states 0).
  - left. reflexivity.
  - apply closed_b_spec. vm_compute. reflexivity.
  - intros s [<-|[<-|[<-|[]]]]; cbn; lia.
  - intros s a [<-|[<-|[<-|[]]]] Ha; cbn in Ha; try contradiction;
      destruct Ha as [<-|[<-|[]]]; eexists; eexists; reflexivity.
  - intros s [<-|[<-|[<-|[]]]]; reflexivity.
  - cbn [length]. lia.
  - apply achieved_start.
  - intros Hnd. apply NoDup_cons_iff in Hnd. destruct Hnd as [Hn _]. apply Hn.
    left. reflexivity.
Defined.

End Pipeline.

(** ** The alt states of the reservation of an insn *)

Module FormAltStates.
Import Bits Reservs IR Automata Minimize.
Import Transform(outcome, Done, Abort, NoFuel, leaf, flat_allof, flat_sequence, canonical).
Import StateGraph BuildDFA.

Local Open Scope nat_scope.
Local Open Scope heap_scope.

(** The alternatives of a transformed regexp, the cycles of an
    alternative, and the units of a cycle. *)
Definition alternatives (r : regexp) : list regexp :=
  match r with rm_oneof rs => rs | _ => [r] end.

Definition cycles_of (alt : regexp) : list regexp :=
  match alt with rm_sequence rs => rs | _ => [alt] end.

Definition units_of (e : regexp) : list regexp :=
  match e with rm_allof rs => rs | _ => [e] end.

(** The alternative reserves the unit on the cycle. *)
Definition on_cycle (alt : regexp) (cycle unit : nat) : Prop :=
  In (rm_unit unit) (units_of (nth cycle (cycles_of alt) rm_nothing)).

(** No cycle of the alternative is an allof without operands. *)
Definition filled (alt : regexp) : Prop :=
  Forall (fun e => e <> rm_allof []) (cycles_of alt).

(** The table after new states entered it: the states it had are as
    they were, and the new ones have no arcs and were on no stack. *)
Definition grown (st st' : store) : Prop :=
  table_ok st'
  /\ (forall s, In s (state_table st) -> the_state st' s = the_state st s)
  /\ incl (state_table st) (state_table st')
  /\ forall s, In s (state_table st') ->
               In s (state_table st) \/ (out_arcs st' s = [] /\ placed st' s = false).

Lemma grown_refl (st : store) : table_ok st -> grown st st.
Proof.
  intros Hok. split; [exact Hok|]. split; [reflexivity|]. split; [apply incl_refl|].
  intros s Hs. left. exact Hs.
Qed.

Lemma grown_trans (st st' st'' : store) : grown st st' -> grown st' st'' -> grown st st''.
Proof.
  intros (_ & Hsame & Hincl & Hnew) (Hok & Hsame' & Hincl' & Hnew').
  split; [exact Hok|]. split; [|split].
  - intros s Hs. rewrite (Hsame' s (Hincl s Hs)). apply Hsame. exact Hs.
  - intros s Hs. apply Hincl', Hincl. exact Hs.
  - intros s Hs. destruct (Hnew' s Hs) as [Hmid|Hfresh]; [|right; exact Hfresh].
    destruct (Hnew s Hmid) as [Hold|Hfresh]; [left; exact Hold|]. right.
    unfold out_arcs, placed in *. rewrite (Hsame' s Hmid). exact Hfresh.
Qed.

Lemma new_state_grown (st st' : store) (e : nat) : new_state st st' e -> grown st st'.
Proof.
  intros (Hok & Hsame & Hincl & _ & Hnew). split; [exact Hok|]. split; [exact Hsame|].
  split; [exact Hincl|]. intros s Hs. destruct (Hnew s Hs) as [Hold|(-> & H1 & H2)]; auto.
Qed.

Section Forming.

Variable max_cycles_num : nat.
(** The bytes of a cycle of a reservation set:
    [els_in_cycle_reserv * sizeof (set_el_t)]. *)
Variable chars_num : nat.
(** [unit_decl->corresponding_automaton_num] of a unit *)
Variable corresponding_automaton_num : nat -> nat.
Variable automaton : automaton_t.

(** The unit is of the automaton. *)
Definition own (unit : nat) : bool :=
  corresponding_automaton_num unit =? automaton_order_num automaton.

(** Every unit of the automaton lies on a cycle below
    [max_cycles_num]. *)
Definition fits (alt : regexp) : Prop :=
  forall cycle unit, on_cycle alt cycle unit -> own unit = true -> cycle < max_cycles_num.

(** The units of the automaton that the alternative reserves have
    their bits in the bytes of a cycle. *)
Definition within (alt : regexp) : Prop :=
  forall cycle unit, on_cycle alt cycle unit -> own unit = true ->
                     unit < chars_num * CHAR_BIT.

(** The alt state has the reservations of the alternative: the units
    of the automaton, each on its cycle.  The units are those with a
    bit in the bytes of a cycle. *)
Definition mirrors (st : store) (alt : regexp) (s : nat) : Prop :=
  In s (state_table st)
  /\ Automata.automaton (the_state st s) = automaton_order_num automaton
  /\ forall cycle unit,
       unit < chars_num * CHAR_BIT ->
       (test_unit_reserv max_cycles_num (reservs (the_state st s)) cycle unit = Some true
        <-> on_cycle alt cycle unit /\ own unit = true).

Lemma mirrors_grown (st st' : store) (alt : regexp) (s : nat) :
  grown st st' -> mirrors st alt s -> mirrors st' alt s.
Proof.
  intros (_ & Hsame & Hincl & _) (Hin & Ha & Hbits). unfold mirrors.
  rewrite (Hsame s Hin). split; [apply Hincl; exact Hin|]. auto.
Qed.

(** *** The reservations of the state being formed *)

(** A step that changes the reservations of [r] only. *)
Definition reserving (r : nat) (st st' : store) : Prop :=
  only r st st'
  /\ Automata.automaton (the_state st' r) = Automata.automaton (the_state st r)
  /\ out_arcs st' r = out_arcs st r
  /\ placed st' r = placed st r
  /\ component_states (the_state st' r) = component_states (the_state st r)
  /\ length (reservs (the_state st' r)) = length (reservs (the_state st r)).

(** After the step, [r] has the reservations it had and those of [P]. *)
Definition reserved_after (r : nat) (st : store) (P : nat -> nat -> Prop) (st' : store)
    : Prop :=
  reserving r st st'
  /\ forall c u, TEST_BIT (nth c (reservs (the_state st' r)) 0%Z) u = true
                 <-> TEST_BIT (nth c (reservs (the_state st r)) 0%Z) u = true \/ P c u.

Lemma reserved_after_refl (r : nat) (st : store) (P : nat -> nat -> Prop) :
  (forall c u, ~ P c u) -> reserved_after r st P st.
Proof.
  intros HP. split.
  - split; [split; [apply frame_refl | reflexivity]|]. auto 10.
  - intros c u. split; [auto|]. intros [H|H]; [exact H | destruct (HP c u H)].
Qed.

Lemma reserved_after_trans (r : nat) (st st1 st2 : store) (P Q R : nat -> nat -> Prop) :
  (forall c u, R c u <-> P c u \/ Q c u) ->
  reserved_after r st P st1 -> reserved_after r st1 Q st2 -> reserved_after r st R st2.
Proof.
  intros HR [([Hf1 Ht1] & A1 & B1 & C1 & D1 & E1) H1] [([Hf2 Ht2] & A2 & B2 & C2 & D2 & E2) H2].
  split.
  - split; [split; [eapply frame_trans; eassumption | congruence]|].
    repeat split; congruence.
  - intros c u. rewrite H2, H1, HR. tauto.
Qed.

Lemma reserving_length (r : nat) (st st' : store) :
  reserving r st st' -> length (states st') = length (states st).
Proof. intros ([(_ & H & _) _] & _). exact H. Qed.

(** [set_state_reserv] on the state being formed. *)
Lemma set_state_reserv_cases (r c u : nat) (st : store) :
  r < length (states st) ->
  length (reservs (the_state st r)) = max_cycles_num ->
  (c < max_cycles_num
   /\ exists st', set_state_reserv max_cycles_num r c u st = Done (tt, st')
                  /\ reserved_after r st (fun c' u' => c' = c /\ u' = u) st')
  \/ (max_cycles_num <= c /\ set_state_reserv max_cycles_num r c u st = Abort).
Proof.
  intros Hr Hlen. unfold set_state_reserv, bind, read.
  destruct (Nat.lt_ge_cases c max_cycles_num) as [Hc|Hc].
  - left. split; [exact Hc|].
    destruct (set_unit_reserv_spec max_cycles_num (reservs (the_state st r)) c u Hc Hlen)
      as (rm' & E & Hlen' & Hbits).
    rewrite E. unfold write. eexists. split; [reflexivity|].
    destruct (write_only r (mk_state rm' (Automata.automaton (the_state st r))
                              (first_out_arc (the_state st r))
                              (it_was_placed_in_stack_for_NDFA_forming (the_state st r))
                              (it_was_placed_in_stack_for_DFA_forming (the_state st r))
                              (component_states (the_state st r))) st Hr) as [Honly Hx].
    set (st' := mk_store _ _ _ _) in *. split.
    + split; [exact Honly|]. unfold out_arcs, placed. rewrite Hx. cbn.
      repeat split; congruence.
    + intros c' u'. rewrite Hx. cbn [reservs]. rewrite Hbits.
      rewrite orb_true_iff, andb_true_iff, !Nat.eqb_eq. intuition congruence.
  - right. split; [exact Hc|]. unfold set_unit_reserv.
    destruct (Nat.leb_spec max_cycles_num c) as [_|Hlt]; [reflexivity | lia].
Qed.

(** The loops of [process_seq_for_forming_states] over the operands of
    an allof and of a sequence. *)
Definition allof_loop (state_being_formed curr_cycle : nat) :=
  fix loop (regexps : list regexp) (finish_cycle : nat) : M nat :=
    match regexps with
    | [] => ret finish_cycle
    | r :: regexps' =>
      cycle <- process_seq_for_forming_states max_cycles_num corresponding_automaton_num
                 state_being_formed r automaton curr_cycle ;;
      loop regexps' (if finish_cycle <? cycle then cycle else finish_cycle)
    end.

Definition sequence_loop (state_being_formed : nat) :=
  fix loop (regexps : list regexp) (curr_cycle : nat) : M nat :=
    match regexps with
    | [] => ret curr_cycle
    | r :: regexps' =>
      cycle <- process_seq_for_forming_states max_cycles_num corresponding_automaton_num
                 state_being_formed r automaton curr_cycle ;;
      loop regexps' (cycle + 1)
    end.

(** A unit or [nothing] on the cycle [k]. *)
Lemma process_leaf (r : nat) (e : regexp) (k : nat) (st : store) :
  leaf e ->
  r < length (states st) ->
  length (reservs (the_state st r)) = max_cycles_num ->
  (exists st',
     process_seq_for_forming_states max_cycles_num corresponding_automaton_num r e
       automaton k st = Done (k, st')
     /\ reserved_after r st (fun c u => c = k /\ e = rm_unit u /\ own u = true) st'
     /\ forall u, e = rm_unit u -> own u = true -> k < max_cycles_num)
  \/ (process_seq_for_forming_states max_cycles_num corresponding_automaton_num r e
        automaton k st = Abort
      /\ exists u, e = rm_unit u /\ own u = true /\ max_cycles_num <= k).
Proof.
  intros Hleaf Hr Hlen. destruct e as [u| | | | | |]; try contradiction;
    cbn [process_seq_for_forming_states].
  - fold (own u). destruct (own u) eqn:Eown.
    + destruct (set_state_reserv_cases r k u st Hr Hlen) as [(Hk & st' & E & Hafter)|[Hk E]].
      * left. exists st'. unfold bind. rewrite E. split; [reflexivity|]. split.
        -- destruct Hafter as [Hres Hbits]. split; [exact Hres|]. intros c u'.
           rewrite Hbits. split; (intros [H|H]; [left; exact H | right]).
           ++ destruct H as [-> ->]. auto.
           ++ destruct H as (-> & Heq & _). injection Heq as ->. auto.
        -- intros _ _ _. exact Hk.
      * right. unfold bind. rewrite E. split; [reflexivity|]. exists u. auto.
    + left. exists st. split; [reflexivity|]. split.
      * apply reserved_after_refl. intros c u' (_ & Heq & Hown). injection Heq as ->.
        congruence.
      * intros u' Heq Hown. injection Heq as ->. congruence.
  - left. exists st. split; [reflexivity|]. split.
    + apply reserved_after_refl. intros c u' (_ & Heq & _). discriminate.
    + intros u' Heq. discriminate.
Qed.

(** The units of an allof, all on the cycle [k]. *)
Lemma allof_loop_cases (r k : nat) (rs : list regexp) :
  Forall leaf rs ->
  forall finish st,
    r < length (states st) ->
    length (reservs (the_state st r)) = max_cycles_num ->
    (exists st',
       allof_loop r k rs finish st
       = Done (match rs with [] => finish | _ => Nat.max finish k end, st')
       /\ reserved_after r st (fun c u => c = k /\ In (rm_unit u) rs /\ own u = true) st'
       /\ forall u, In (rm_unit u) rs -> own u = true -> k < max_cycles_num)
    \/ (allof_loop r k rs finish st = Abort
        /\ exists u, In (rm_unit u) rs /\ own u = true /\ max_cycles_num <= k).
Proof.
  induction 1 as [|e rs Hleaf Hrs IH]; intros finish st Hr Hlen; cbn [allof_loop].
  - left. exists st. split; [reflexivity|]. split.
    + apply reserved_after_refl. intros c u (_ & [] & _).
    + intros u [].
  - destruct (process_leaf r e k st Hleaf Hr Hlen)
      as [(st1 & E1 & Hafter1 & Hfit1)|(E1 & u & Heq & Hown & Hk)].
    + unfold bind. rewrite E1.
      destruct (IH (if finish <? k then k else finish) st1)
        as [(st' & E & Hafter & Hfit)|(E & u & Hin & Hown & Hk)].
      * rewrite (reserving_length r st st1 (proj1 Hafter1)). exact Hr.
      * destruct Hafter1 as [(_ & _ & _ & _ & _ & Hl) _]. congruence.
      * left. exists st'. split; [|split].
        -- rewrite E. f_equal. f_equal.
           destruct (Nat.ltb_spec finish k); destruct rs; lia.
        -- refine (reserved_after_trans r st st1 st' _ _ _ _ Hafter1 Hafter).
           intros c u. cbn [In]. tauto.
        -- intros u [Heq|Hin] Hown; [exact (Hfit1 u Heq Hown) | exact (Hfit u Hin Hown)].
      * right. split; [exact E|]. exists u. cbn [In]. auto.
    + right. unfold bind at 1. rewrite E1. split; [reflexivity|]. exists u.
      cbn [In]. auto.
Qed.

(** The units of one cycle of an alternative. *)
Lemma process_cycle (r : nat) (e : regexp) (k : nat) (st : store) :
  flat_allof e -> e <> rm_allof [] ->
  r < length (states st) ->
  length (reservs (the_state st r)) = max_cycles_num ->
  (exists st',
     process_seq_for_forming_states max_cycles_num corresponding_automaton_num r e
       automaton k st = Done (k, st')
     /\ reserved_after r st
          (fun c u => c = k /\ In (rm_unit u) (units_of e) /\ own u = true) st'
     /\ forall u, In (rm_unit u) (units_of e) -> own u = true -> k < max_cycles_num)
  \/ (process_seq_for_forming_states max_cycles_num corresponding_automaton_num r e
        automaton k st = Abort
      /\ exists u, In (rm_unit u) (units_of e) /\ own u = true /\ max_cycles_num <= k).
Proof.
  intros Hflat Hfilled Hr Hlen.
  assert (leaf e ->
          (exists st',
             process_seq_for_forming_states max_cycles_num corresponding_automaton_num r e
               automaton k st = Done (k, st')
             /\ reserved_after r st
                  (fun c u => c = k /\ In (rm_unit u) [e] /\ own u = true) st'
             /\ forall u, In (rm_unit u) [e] -> own u = true -> k < max_cycles_num)
          \/ (process_seq_for_forming_states max_cycles_num corresponding_automaton_num r e
                automaton k st = Abort
              /\ exists u, In (rm_unit u) [e] /\ own u = true /\ max_cycles_num <= k))
    as Hleaf.
  { intros Hleaf.
    destruct (process_leaf r e k st Hleaf Hr Hlen)
      as [(st' & E & [Hres Hbits] & Hfit)|(E & u & Heq & Hown & Hk)].
    - left. exists st'. split; [exact E|]. split; [split; [exact Hres|]|].
      + intros c u. rewrite Hbits. cbn [In]. tauto.
      + intros u [Heq|[]]. apply Hfit. exact Heq.
    - right. split; [exact E|]. exists u. cbn [In]. auto. }
  destruct e as [u| | | | |rs|]; try contradiction; try (apply Hleaf; exact I).
  cbn [flat_allof] in Hflat. cbn [units_of].
  change (process_seq_for_forming_states max_cycles_num corresponding_automaton_num r
            (rm_allof rs) automaton k)
    with (allof_loop r k rs 0).
  destruct (allof_loop_cases r k rs Hflat 0 st Hr Hlen) as [(st' & E & Hrest)|Habort];
    [left | right; exact Habort].
  exists st'. split; [|exact Hrest]. rewrite E. destruct rs; [congruence | reflexivity].
Qed.

(** The cycles of an alternative, from the cycle [k] on. *)
Lemma sequence_loop_cases (r : nat) (rs : list regexp) :
  Forall flat_allof rs -> Forall (fun e => e <> rm_allof []) rs ->
  forall k st,
    r < length (states st) ->
    length (reservs (the_state st r)) = max_cycles_num ->
    (exists st',
       sequence_loop r rs k st = Done (k + length rs, st')
       /\ reserved_after r st
            (fun c u => exists i, c = k + i
                                  /\ In (rm_unit u) (units_of (nth i rs rm_nothing))
                                  /\ own u = true) st'
       /\ forall i u, In (rm_unit u) (units_of (nth i rs rm_nothing)) -> own u = true ->
                      k + i < max_cycles_num)
    \/ (sequence_loop r rs k st = Abort
        /\ exists i u, In (rm_unit u) (units_of (nth i rs rm_nothing)) /\ own u = true
                       /\ max_cycles_num <= k + i).
Proof.
  induction rs as [|e rs IH]; intros Hflat Hfilled k st Hr Hlen; cbn [sequence_loop].
  - left. exists st. split; [unfold ret; rewrite Nat.add_0_r; reflexivity|].
    assert (forall i u, ~ In (rm_unit u) (units_of (nth i (@nil regexp) rm_nothing))) as Hno.
    { intros i u. destruct i; cbn; intros [H|[]]; discriminate. }
    split.
    + apply reserved_after_refl. intros c u (i & _ & Hin & _). exact (Hno i u Hin).
    + intros i u Hin. destruct (Hno i u Hin).
  - pose proof (Forall_inv Hflat) as He. pose proof (Forall_inv_tail Hflat) as Hflat'.
    pose proof (Forall_inv Hfilled) as Hne. pose proof (Forall_inv_tail Hfilled) as Hfilled'.
    destruct (process_cycle r e k st He Hne Hr Hlen)
      as [(st1 & E1 & Hafter1 & Hfit1)|(E1 & u & Hin & Hown & Hk)].
    + unfold bind. rewrite E1.
      destruct (IH Hflat' Hfilled' (k + 1) st1)
        as [(st' & E & Hafter & Hfit)|(E & i & u & Hin & Hown & Hk)].
      * rewrite (reserving_length r st st1 (proj1 Hafter1)). exact Hr.
      * destruct Hafter1 as [(_ & _ & _ & _ & _ & Hl) _]. congruence.
      * left. exists st'. split; [|split].
        -- rewrite E. cbn [length]. do 2 f_equal. lia.
        -- refine (reserved_after_trans r st st1 st' _ _ _ _ Hafter1 Hafter).
           intros c u. split.
           ++ intros ([|i] & -> & Hin & Hown); cbn [nth] in Hin.
              ** left. split; [lia | auto].
              ** right. exists i. split; [lia | auto].
           ++ intros [(-> & Hin & Hown)|(i & -> & Hin & Hown)].
              ** exists 0. split; [lia | auto].
              ** exists (S i). split; [lia | auto].
        -- intros [|i] u Hin Hown; cbn [nth] in Hin.
           ++ pose proof (Hfit1 u Hin Hown). lia.
           ++ pose proof (Hfit i u Hin Hown). lia.
      * right. split; [exact E|]. exists (S i), u. cbn [nth].
        split; [exact Hin|]. split; [exact Hown | lia].
    + right. unfold bind. rewrite E1. split; [reflexivity|]. exists 0, u. cbn [nth].
      split; [exact Hin|]. split; [exact Hown | lia].
Qed.

(** [process_seq_for_forming_states (regexp, automaton, 0)] on an
    alternative. *)
Lemma process_seq_for_forming_states_cases (r : nat) (alt : regexp) (st : store) :
  flat_sequence alt -> filled alt ->
  r < length (states st) ->
  length (reservs (the_state st r)) = max_cycles_num ->
  (exists cycle st',
     process_seq_for_forming_states max_cycles_num corresponding_automaton_num r alt
       automaton 0 st = Done (cycle, st')
     /\ reserved_after r st (fun c u => on_cycle alt c u /\ own u = true) st'
     /\ fits alt)
  \/ (process_seq_for_forming_states max_cycles_num corresponding_automaton_num r alt
        automaton 0 st = Abort
      /\ exists c u, on_cycle alt c u /\ own u = true /\ max_cycles_num <= c).
Proof.
  intros Hflat Hfilled Hr Hlen.
  assert (flat_allof alt -> cycles_of alt = [alt] ->
          (exists cycle st',
             process_seq_for_forming_states max_cycles_num corresponding_automaton_num r alt
               automaton 0 st = Done (cycle, st')
             /\ reserved_after r st (fun c u => on_cycle alt c u /\ own u = true) st'
             /\ fits alt)
          \/ (process_seq_for_forming_states max_cycles_num corresponding_automaton_num r
                alt automaton 0 st = Abort
              /\ exists c u, on_cycle alt c u /\ own u = true /\ max_cycles_num <= c))
    as Hone.
  { intros Hfa Hcycles. unfold filled in Hfilled. unfold fits, on_cycle.
    rewrite Hcycles in *. pose proof (Forall_inv Hfilled) as Hne.
    assert (forall c u, In (rm_unit u) (units_of (nth c [alt] rm_nothing))
                        <-> c = 0 /\ In (rm_unit u) (units_of alt)) as Hnth.
    { intros [|[|c]] u; cbn [nth units_of In]; split; try tauto;
        try (intros [H|[]]; discriminate); intros [H _]; discriminate. }
    destruct (process_cycle r alt 0 st Hfa Hne Hr Hlen)
      as [(st' & E & [Hres Hbits] & Hfit)|(E & u & Hin & Hown & Hk)].
    - left. exists 0, st'. split; [exact E|]. split; [split; [exact Hres|]|].
      + intros c u. rewrite Hbits, Hnth. tauto.
      + intros c u Hin Hown. apply Hnth in Hin. destruct Hin as [-> Hin].
        exact (Hfit u Hin Hown).
    - right. split; [exact E|]. exists 0, u. rewrite Hnth. auto. }
  destruct alt as [u| | |rs| | |]; try contradiction;
    try (apply Hone; [exact Hflat | reflexivity]).
  cbn [flat_sequence] in Hflat. unfold filled, fits, on_cycle in *. cbn [cycles_of] in *.
  change (process_seq_for_forming_states max_cycles_num corresponding_automaton_num r
            (rm_sequence rs) automaton 0)
    with (sequence_loop r rs 0).
  destruct (sequence_loop_cases r rs Hflat Hfilled 0 st Hr Hlen)
    as [(st' & E & [Hres Hbits] & Hfit)|(E & i & u & Hin & Hown & Hk)].
  - left. exists (length rs), st'. split; [exact E|]. split; [split; [exact Hres|]|].
    + intros c u. rewrite Hbits. split; (intros [H|H]; [left; exact H | right]).
      * destruct H as (i & -> & Hin & Hown). auto.
      * exists c. split; [reflexivity | exact H].
    + intros c u Hin Hown. exact (Hfit c u Hin Hown).
  - right. split; [exact E|]. exists i, u. auto.
Qed.

(** *** One alt state *)

(** The end of [process_alts_for_forming_states] with
    [finish_forming_alt_state] is the end of [states_union]. *)
Lemma finish_forming_alt_state_in_table (r : nat) (curr : list nat) (st : store) :
  (state_in_table <- insert_state r ;;
   if negb (state_in_table =? r)
   then free_state r ;;; ret (state_in_table :: curr)
   else ret (r :: curr)) st
  = match state_in_table_for r st with
    | Done (e, st') => Done (e :: curr, st')
    | Abort => Abort
    | NoFuel => NoFuel
    end.
Proof.
  unfold state_in_table_for, bind, insert_state.
  destruct (find _ (state_table st)) as [entry|].
  - rewrite (Nat.eqb_sym r entry). destruct (entry =? r); reflexivity.
  - rewrite Nat.eqb_refl. reflexivity.
Qed.

Lemma form_alt_state_steps (alt : regexp) (curr : list nat) (st : store) :
  form_alt_state max_cycles_num corresponding_automaton_num alt automaton curr st
  = match get_free_state max_cycles_num true (automaton_order_num automaton) st with
    | Done (r, st1) =>
      match process_seq_for_forming_states max_cycles_num corresponding_automaton_num r
              alt automaton 0 st1 with
      | Done (_, st2) =>
        match state_in_table_for r st2 with
        | Done (e, st') => Done (e :: curr, st')
        | Abort => Abort
        | NoFuel => NoFuel
        end
      | Abort => Abort
      | NoFuel => NoFuel
      end
    | Abort => Abort
    | NoFuel => NoFuel
    end.
Proof.
  unfold form_alt_state. unfold bind at 1.
  destruct (get_free_state _ _ _ st) as [[r st1]| |]; try reflexivity.
  unfold bind at 1.
  destruct (process_seq_for_forming_states _ _ r alt automaton 0 st1) as [[c st2]| |];
    try reflexivity.
  apply finish_forming_alt_state_in_table.
Qed.

Lemma form_alt_state_cases (alt : regexp) (curr : list nat) (st : store) :
  0 < max_cycles_num -> table_ok st -> flat_sequence alt -> filled alt ->
  (exists s st',
     form_alt_state max_cycles_num corresponding_automaton_num alt automaton curr st
     = Done (s :: curr, st')
     /\ new_state st st' s /\ mirrors st' alt s /\ fits alt)
  \/ (form_alt_state max_cycles_num corresponding_automaton_num alt automaton curr st
      = Abort
      /\ exists c u, on_cycle alt c u /\ own u = true /\ max_cycles_num <= c).
Proof.
  intros Hcycles Hok Hflat Hfilled. rewrite form_alt_state_steps.
  destruct (get_free_state_fresh max_cycles_num true (automaton_order_num automaton) st
              (state_table st) Hcycles Hok)
    as (r & st1 & Eg & Hnew & Huse1 & Harcs1 & _ & Hsame1).
  pose proof (get_free_state_unplaced max_cycles_num true _ st r st1 (proj1 Hok) Eg)
    as Hunplaced.
  destruct (get_free_state_spec _ _ _ _ _ _ (proj1 Hok) Eg)
    as (Hr & _ & Hcomp1 & Hauto1 & _ & Hempty & Htable1 & _ & _ & _).
  specialize (Hempty eq_refl).
  rewrite Eg.
  destruct (process_seq_for_forming_states_cases r alt st1 Hflat Hfilled Hr)
    as [(cycle & st2 & E2 & [Hres Hbits] & Hfits)|[E2 Hbad]].
  { rewrite Hempty. apply repeat_length. }
  2:{ right. rewrite E2. split; [reflexivity | exact Hbad]. }
  left. rewrite E2.
  destruct (StateData.state_in_table_for_done r st2) as (e & st' & Et). rewrite Et.
  exists e, st'. split; [reflexivity|].
  destruct Hres as ([Hframe Htable2] & Hauto2 & Harcs2 & Hplaced2 & Hcomp2 & Hlen2).
  rewrite Htable1 in Htable2.
  destruct (state_in_table_for_frame r st2 e st') as (Hstates & Hok' & Hcases).
  { rewrite Htable2. exact (in_use_frame r st1 st2 _ Hframe Huse1). }
  { rewrite Htable2. exact Hnew. }
  { exact Et. }
  destruct (StateData.state_in_table_for_reservs st2 r e st') as (Hreservs & Hauto & He & _);
    [congruence | exact Et |].
  assert (forall s, the_state st' s = the_state st2 s) as Hsame'
    by (intros s; unfold the_state; rewrite Hstates; reflexivity).
  assert (forall s, In s (state_table st) -> the_state st' s = the_state st s) as Hsame.
  { intros s Hs. rewrite Hsame'. destruct Hframe as (Hothers & _).
    rewrite Hothers by (intros ->; contradiction). apply Hsame1. exact Hs. }
  split; [|split; [|exact Hfits]].
  - split; [exact Hok'|]. split; [exact Hsame|].
    rewrite Htable2 in Hcases. destruct Hcases as [[-> Htable']|[He' Htable']];
      rewrite Htable'.
    + split; [intros s Hs; right; exact Hs|]. split; [left; reflexivity|].
      intros s [<-|Hs]; [right | left; exact Hs]. split; [reflexivity|].
      unfold out_arcs, placed in *. rewrite !Hsame'. split; congruence.
    + split; [apply incl_refl|]. split; [exact He'|]. intros s Hs. left. exact Hs.
  - split; [exact He|]. split; [congruence|]. intros c u _. rewrite Hreservs.
    unfold test_unit_reserv.
    assert (TEST_BIT (nth c (reservs (the_state st2 r)) 0%Z) u = true
            <-> on_cycle alt c u /\ own u = true) as Hbit.
    { rewrite Hbits, Hempty. unfold alloc_empty_reserv_sets. rewrite nth_repeat, TEST_BIT_0.
      split; [intros [H|H]; [discriminate | exact H] | auto]. }
    destruct (Nat.leb_spec max_cycles_num c) as [Hle|Hlt].
    + split; [discriminate|]. intros [Hon Hown]. pose proof (Hfits c u Hon Hown). lia.
    + rewrite <- Hbit. split; [intros H; injection H as ->; reflexivity|].
      intros ->. reflexivity.
Qed.

(** *** The alt states of an insn *)

(** The loop of [process_alts_for_forming_states] over the operands of
    a oneof: a new head of the list for each one. *)
Lemma process_alts_loop_cases (rs : list regexp) :
  Forall flat_sequence rs -> Forall filled rs ->
  forall curr st,
    0 < max_cycles_num -> table_ok st ->
    (exists l st',
       process_alts_loop max_cycles_num corresponding_automaton_num rs automaton curr st
       = Done (rev l ++ curr, st')
       /\ grown st st' /\ Forall2 (mirrors st') rs l /\ Forall fits rs)
    \/ (process_alts_loop max_cycles_num corresponding_automaton_num rs automaton curr st
        = Abort
        /\ exists alt c u, In alt rs /\ on_cycle alt c u /\ own u = true
                           /\ max_cycles_num <= c).
Proof.
  induction rs as [|alt rs IH]; intros Hflat Hfilled curr st Hcycles Hok;
    cbn [process_alts_loop].
  - left. exists [], st. split; [reflexivity|]. split; [apply grown_refl; exact Hok|].
    split; constructor.
  - pose proof (Forall_inv Hflat) as Ha. pose proof (Forall_inv Hfilled) as Hf.
    assert (process_alts_inside_oneof max_cycles_num corresponding_automaton_num alt
              automaton curr
            = form_alt_state max_cycles_num corresponding_automaton_num alt automaton curr)
      as -> by (destruct alt; try reflexivity; contradiction).
    destruct (form_alt_state_cases alt curr st Hcycles Hok Ha Hf)
      as [(s & st1 & E1 & Hnew1 & Hmirror1 & Hfit1)|(E1 & c & u & Hbad)].
    + unfold bind. rewrite E1.
      destruct (IH (Forall_inv_tail Hflat) (Forall_inv_tail Hfilled) (s :: curr) st1
                  Hcycles (proj1 Hnew1))
        as [(l & st' & E & Hgrown & Hmirrors & Hfits)|(E & alt' & c & u & Hin & Hbad)].
      * left. exists (s :: l), st'. split; [|split; [|split]].
        -- rewrite E. cbn [rev]. rewrite <- app_assoc. reflexivity.
        -- exact (grown_trans _ _ _ (new_state_grown _ _ _ Hnew1) Hgrown).
        -- constructor; [|exact Hmirrors]. exact (mirrors_grown _ _ _ _ Hgrown Hmirror1).
        -- constructor; assumption.
      * right. split; [exact E|]. exists alt', c, u. cbn [In]. auto.
    + right. unfold bind. rewrite E1. split; [reflexivity|]. exists alt, c, u.
      cbn [In]. auto.
Qed.

Lemma Forall2_rev {A B : Type} (R : A -> B -> Prop) (l : list A) (l' : list B) :
  Forall2 R l l' -> Forall2 R (rev l) (rev l').
Proof.
  induction 1 as [|a b l l' Hab Hl IH]; cbn [rev]; [constructor|].
  apply Forall2_app; [exact IH | constructor; [exact Hab | constructor]].
Qed.

(** [process_alts_for_forming_states (regexp, automaton, 0)] on the
    transformed regexp of an insn. *)
Lemma process_alts_for_forming_states_cases (regexp : regexp) (st : store) :
  0 < max_cycles_num -> table_ok st ->
  Forall flat_sequence (alternatives regexp) -> Forall filled (alternatives regexp) ->
  (exists alt_states' st',
     process_alts_for_forming_states max_cycles_num corresponding_automaton_num regexp
       automaton [] st = Done (alt_states', st')
     /\ grown st st'
     /\ Forall2 (mirrors st') (alternatives regexp) alt_states'
     /\ Forall fits (alternatives regexp))
  \/ (process_alts_for_forming_states max_cycles_num corresponding_automaton_num regexp
        automaton [] st = Abort
      /\ exists alt c u, In alt (alternatives regexp) /\ on_cycle alt c u /\ own u = true
                         /\ max_cycles_num <= c).
Proof.
  intros Hcycles Hok Hflat Hfilled.
  assert (forall rs,
            Forall flat_sequence (rev rs) -> Forall filled (rev rs) ->
            (exists alt_states' st',
               process_alts_loop max_cycles_num corresponding_automaton_num rs automaton []
                 st = Done (alt_states', st')
               /\ grown st st'
               /\ Forall2 (mirrors st') (rev rs) alt_states'
               /\ Forall fits (rev rs))
            \/ (process_alts_loop max_cycles_num corresponding_automaton_num rs automaton []
                  st = Abort
                /\ exists alt c u, In alt (rev rs) /\ on_cycle alt c u /\ own u = true
                                   /\ max_cycles_num <= c)) as Hloop.
  { intros rs Hf1 Hf2.
    destruct (process_alts_loop_cases rs) with (curr := @nil nat) (st := st)
      as [(l & st' & E & Hgrown & Hmirrors & Hfits)|(E & alt & c & u & Hin & Hbad)];
      try assumption.
    - rewrite <- (rev_involutive rs). apply Forall_rev. exact Hf1.
    - rewrite <- (rev_involutive rs). apply Forall_rev. exact Hf2.
    - left. exists (rev l), st'. rewrite app_nil_r in E. split; [exact E|].
      split; [exact Hgrown|]. split; [apply Forall2_rev; exact Hmirrors|].
      apply Forall_rev. exact Hfits.
    - right. split; [exact E|]. exists alt, c, u. rewrite <- in_rev. auto. }
  assert (forall alt,
            Forall flat_sequence [alt] -> Forall filled [alt] ->
            (exists alt_states' st',
               form_alt_state max_cycles_num corresponding_automaton_num alt automaton []
                 st = Done (alt_states', st')
               /\ grown st st'
               /\ Forall2 (mirrors st') [alt] alt_states'
               /\ Forall fits [alt])
            \/ (form_alt_state max_cycles_num corresponding_automaton_num alt automaton []
                  st = Abort
                /\ exists alt' c u, In alt' [alt] /\ on_cycle alt' c u /\ own u = true
                                    /\ max_cycles_num <= c)) as Hone.
  { intros alt Hf1 Hf2.
    destruct (form_alt_state_cases alt [] st Hcycles Hok (Forall_inv Hf1) (Forall_inv Hf2))
      as [(s & st' & E & Hnew & Hmirror & Hfit)|(E & c & u & Hbad)].
    - left. exists [s], st'. split; [exact E|]. split; [exact (new_state_grown _ _ _ Hnew)|].
      split; [constructor; [exact Hmirror | constructor]
             |constructor; [exact Hfit | constructor]].
    - right. split; [exact E|]. exists alt, c, u. cbn [In]. auto. }
  destruct regexp as [u| | |rs| | |rs]; cbn [alternatives process_alts_for_forming_states] in *;
    try (apply Hone; assumption).
  rewrite <- (rev_involutive rs) in Hflat, Hfilled.
  destruct (Hloop (rev rs) Hflat Hfilled) as [H|H]; rewrite rev_involutive in H;
    [left | right]; exact H.
Qed.

(** *** The alt states of the insns of the automaton *)

Variable advance_cycle_insn_decl : nat.
(** [insn_reserv_decl->transformed_regexp] of the insn declaration *)
Variable transformed_regexp : nat -> regexp.

(** A transformed regexp whose alternatives [process_alts_for_forming_states]
    can read into states of [max_cycles_num] cycles. *)
Definition formable (r : regexp) : Prop :=
  canonical r /\ Forall filled (alternatives r) /\ Forall fits (alternatives r).

(** The insn [a'] is the insn [a] with its alt states. *)
Definition formed (st : store) (a a' : ainsn) : Prop :=
  insn_reserv_decl a' = insn_reserv_decl a
  /\ first_insn_with_same_reservs a' = first_insn_with_same_reservs a
  /\ (insn_reserv_decl a = advance_cycle_insn_decl -> a' = a)
  /\ (insn_reserv_decl a <> advance_cycle_insn_decl ->
      Forall2 (mirrors st) (alternatives (transformed_regexp (insn_reserv_decl a)))
        (alt_states a')
      /\ sorted_alt_states a' = uniq_sort_alt_states (alt_states a')).

Lemma formed_grown (st st' : store) (a a' : ainsn) :
  grown st st' -> formed st a a' -> formed st' a a'.
Proof.
  intros Hgrown (H1 & H2 & H3 & H4). split; [exact H1|]. split; [exact H2|].
  split; [exact H3|]. intros Hne. destruct (H4 Hne) as [Hm Hs]. split; [|exact Hs].
  eapply Forall2_impl; [|exact Hm]. intros alt s. apply mirrors_grown. exact Hgrown.
Qed.

Lemma canonical_alternatives (r : regexp) :
  canonical r <-> Forall flat_sequence (alternatives r).
Proof.
  destruct r; cbn [canonical alternatives]; try reflexivity;
    (split; [intros H; constructor; [exact H | constructor] | apply Forall_inv]).
Qed.

Lemma create_alt_states_loop_step (a : ainsn) (ainsns : list ainsn) (st : store) :
  create_alt_states_loop max_cycles_num corresponding_automaton_num
    advance_cycle_insn_decl transformed_regexp automaton (a :: ainsns) st
  = if insn_reserv_decl a =? advance_cycle_insn_decl then
      match create_alt_states_loop max_cycles_num corresponding_automaton_num
              advance_cycle_insn_decl transformed_regexp automaton ainsns st with
      | Done (rest, st') => Done (a :: rest, st')
      | Abort => Abort
      | NoFuel => NoFuel
      end
    else
      match process_alts_for_forming_states max_cycles_num corresponding_automaton_num
              (transformed_regexp (insn_reserv_decl a)) automaton [] st with
      | Done (alt_states', st1) =>
        match create_alt_states_loop max_cycles_num corresponding_automaton_num
                advance_cycle_insn_decl transformed_regexp automaton ainsns st1 with
        | Done (rest, st') =>
          Done (mk_ainsn (insn_reserv_decl a) alt_states'
                  (uniq_sort_alt_states alt_states') (first_insn_with_same_reservs a)
                :: rest, st')
        | Abort => Abort
        | NoFuel => NoFuel
        end
      | Abort => Abort
      | NoFuel => NoFuel
      end.
Proof.
  cbn [create_alt_states_loop].
  destruct (insn_reserv_decl a =? advance_cycle_insn_decl); cbn [negb]; unfold bind, ret.
  - destruct (create_alt_states_loop _ _ _ _ _ ainsns st) as [[rest st']| |]; reflexivity.
  - destruct (process_alts_for_forming_states _ _ _ _ _ st) as [[l st1]| |];
      reflexivity.
Qed.

Lemma create_alt_states_loop_cases (ainsns : list ainsn) :
  (forall a, In a ainsns -> insn_reserv_decl a <> advance_cycle_insn_decl ->
             canonical (transformed_regexp (insn_reserv_decl a))
             /\ Forall filled (alternatives (transformed_regexp (insn_reserv_decl a)))) ->
  forall st,
    0 < max_cycles_num -> table_ok st ->
    (exists ainsns' st',
       create_alt_states_loop max_cycles_num corresponding_automaton_num
         advance_cycle_insn_decl transformed_regexp automaton ainsns st
       = Done (ainsns', st')
       /\ grown st st'
       /\ Forall2 (formed st') ainsns ainsns'
       /\ forall a, In a ainsns -> insn_reserv_decl a <> advance_cycle_insn_decl ->
                    Forall fits (alternatives (transformed_regexp (insn_reserv_decl a))))
    \/ (create_alt_states_loop max_cycles_num corresponding_automaton_num
          advance_cycle_insn_decl transformed_regexp automaton ainsns st
        = Abort
        /\ exists a alt c u,
             In a ainsns /\ insn_reserv_decl a <> advance_cycle_insn_decl
             /\ In alt (alternatives (transformed_regexp (insn_reserv_decl a)))
             /\ on_cycle alt c u /\ own u = true /\ max_cycles_num <= c).
Proof.
  induction ainsns as [|a ainsns IH]; intros Hshape st Hcycles Hok.
  - left. exists [], st. split; [reflexivity|]. split; [apply grown_refl; exact Hok|].
    split; [constructor | intros a []].
  - assert (forall b, In b ainsns -> insn_reserv_decl b <> advance_cycle_insn_decl ->
              canonical (transformed_regexp (insn_reserv_decl b))
              /\ Forall filled (alternatives (transformed_regexp (insn_reserv_decl b))))
      as Hshape' by (intros b Hb; apply Hshape; right; exact Hb).
    rewrite create_alt_states_loop_step.
    destruct (Nat.eqb_spec (insn_reserv_decl a) advance_cycle_insn_decl) as [Hadv|Hadv].
    + destruct (IH Hshape' st Hcycles Hok)
        as [(ainsns' & st' & E & Hgrown & Hformed & Hfits)|(E & b & alt & c & u & Hb & Hbad)].
      * left. exists (a :: ainsns'), st'. rewrite E. split; [reflexivity|].
        split; [exact Hgrown|]. split.
        -- constructor; [|exact Hformed]. split; [reflexivity|]. split; [reflexivity|].
           split; [reflexivity|]. intros Hne. contradiction.
        -- intros b [<-|Hb]; [contradiction | apply Hfits; exact Hb].
      * right. rewrite E. split; [reflexivity|]. exists b, alt, c, u. cbn [In]. auto.
    + destruct (Hshape a (or_introl eq_refl) Hadv) as [Hcanon Hfilled].
      apply canonical_alternatives in Hcanon.
      destruct (process_alts_for_forming_states_cases
                  (transformed_regexp (insn_reserv_decl a)) st Hcycles Hok Hcanon Hfilled)
        as [(l & st1 & E1 & Hgrown1 & Hmirrors1 & Hfits1)|(E1 & alt & c & u & Hbad)].
      * rewrite E1.
        destruct (IH Hshape' st1 Hcycles (proj1 Hgrown1))
          as [(ainsns' & st' & E & Hgrown & Hformed & Hfits)
             |(E & b & alt & c & u & Hb & Hbad)].
        -- left. eexists (_ :: ainsns'), st'. rewrite E. split; [reflexivity|].
           split; [exact (grown_trans _ _ _ Hgrown1 Hgrown)|]. split.
           ++ constructor; [|exact Hformed]. apply (formed_grown st1 st' _ _ Hgrown).
              split; [reflexivity|]. split; [reflexivity|].
              split; [intros H; contradiction|]. intros _. cbn [alt_states sorted_alt_states].
              split; [exact Hmirrors1 | reflexivity].
           ++ intros b [<-|Hb] Hne; [exact Hfits1 | exact (Hfits b Hb Hne)].
        -- right. rewrite E. split; [reflexivity|]. exists b, alt, c, u. cbn [In]. auto.
      * right. rewrite E1. split; [reflexivity|].
        exists a, alt, c, u. cbn [In]. tauto.
Qed.

End Forming.

(** On the transformed regexp of an insn, of the shape
    oneof (sequence (allof (unit | nothing ...) ...) ...) with no allof
    without operands, and with the units of the automaton on cycles below
    [max_cycles_num], [process_alts_for_forming_states] ends without
    [abort ()] and returns one alt state for each alternative, in the
    order of the alternatives; each is a state of the table of this
    automaton on which [test_unit_reserv] finds a unit on a cycle exactly
    when the alternative has this unit, a unit of the automaton, on this
    cycle.  The states that the table had are as they were.  The units
    are those of the bytes of a cycle, [chars_num * CHAR_BIT] bits: the
    units of the automaton in the regexp, and the unit tested. *)
Theorem process_alts_for_forming_states_mirrors (max_cycles_num chars_num : nat)
    (corresponding_automaton_num : nat -> nat) (automaton : automaton_t)
    (regexp : regexp) (st : store) :
  0 < max_cycles_num -> table_ok st ->
  canonical regexp -> Forall filled (alternatives regexp) ->
  Forall (fits max_cycles_num corresponding_automaton_num automaton)
    (alternatives regexp) ->
  Forall (within chars_num corresponding_automaton_num automaton)
    (alternatives regexp) ->
  exists alt_states' st',
    process_alts_for_forming_states max_cycles_num corresponding_automaton_num regexp
      automaton [] st = Done (alt_states', st')
    /\ grown st st'
    /\ Forall2 (mirrors max_cycles_num chars_num corresponding_automaton_num automaton st')
         (alternatives regexp) alt_states'.
Proof.
  intros Hcycles Hok Hcanon Hfilled Hfits _. apply canonical_alternatives in Hcanon.
  destruct (process_alts_for_forming_states_cases max_cycles_num chars_num
              corresponding_automaton_num automaton regexp st Hcycles Hok Hcanon Hfilled)
    as [(l & st' & E & Hgrown & Hmirrors & _)|(_ & alt & c & u & Hin & Hon & Hown & Hc)].
  - exists l, st'. auto.
  - rewrite Forall_forall in Hfits. pose proof (Hfits alt Hin c u Hon Hown). lia.
Qed.

(** On such a regexp, [process_alts_for_forming_states] ends in the
    [abort ()] of [set_unit_reserv] when an alternative has a unit of the
    automaton on a cycle that is not below [max_cycles_num]. *)
Theorem process_alts_for_forming_states_aborts (max_cycles_num : nat)
    (corresponding_automaton_num : nat -> nat) (automaton : automaton_t)
    (regexp : regexp) (st : store) (alt : IR.regexp) (cycle unit : nat) :
  0 < max_cycles_num -> table_ok st ->
  canonical regexp -> Forall filled (alternatives regexp) ->
  In alt (alternatives regexp) -> on_cycle alt cycle unit ->
  own corresponding_automaton_num automaton unit = true ->
  max_cycles_num <= cycle ->
  process_alts_for_forming_states max_cycles_num corresponding_automaton_num regexp
    automaton [] st = Abort.
Proof.
  intros Hcycles Hok Hcanon Hfilled Hin Hon Hown Hc. apply canonical_alternatives in Hcanon.
  destruct (process_alts_for_forming_states_cases max_cycles_num 0
              corresponding_automaton_num automaton regexp st Hcycles Hok Hcanon Hfilled)
    as [(l & st' & _ & _ & _ & Hfits)|[E _]]; [|exact E].
  rewrite Forall_forall in Hfits. pose proof (Hfits alt Hin cycle unit Hon Hown). lia.
Qed.

Lemma Forall2_In_r {A B : Type} (R : A -> B -> Prop) (l : list A) (l' : list B) (y : B) :
  Forall2 R l l' -> In y l' -> exists x, In x l /\ R x y.
Proof.
  induction 1 as [|a b l l' Hab Hl IH]; intros Hy; [destruct Hy|].
  destruct Hy as [<-|Hy]; [exists a; split; [left; reflexivity | exact Hab]|].
  destruct (IH Hy) as (x & Hx & HR). exists x. split; [right; exact Hx | exact HR].
Qed.

(** [create_alt_states] on insns whose regexps can be read. *)
Lemma create_alt_states_spec (max_cycles_num chars_num : nat)
    (corresponding_automaton_num : nat -> nat) (advance_cycle_insn_decl : nat)
    (transformed_regexp : nat -> regexp) (automaton : automaton_t) (st : store) :
  0 < max_cycles_num -> table_ok st ->
  (forall s, In s (state_table st) -> placed st s = false /\ out_arcs st s = []) ->
  (forall a s, In a (ainsn_list automaton) ->
               insn_reserv_decl a = advance_cycle_insn_decl ->
               In s (alt_states a) -> In s (state_table st)) ->
  (forall a, In a (ainsn_list automaton) ->
             insn_reserv_decl a <> advance_cycle_insn_decl ->
             formable max_cycles_num corresponding_automaton_num automaton
               (transformed_regexp (insn_reserv_decl a))) ->
  exists automaton' st',
    create_alt_states max_cycles_num corresponding_automaton_num advance_cycle_insn_decl
      transformed_regexp automaton st = Done (automaton', st')
    /\ table_ok st'
    /\ (forall s, In s (state_table st') -> placed st' s = false /\ out_arcs st' s = [])
    /\ (forall a s, In a (ainsn_list automaton') -> In s (alt_states a) ->
                    In s (state_table st'))
    /\ Forall2 (formed max_cycles_num chars_num corresponding_automaton_num automaton
                  advance_cycle_insn_decl transformed_regexp st')
         (ainsn_list automaton) (ainsn_list automaton')
    /\ start_state automaton' = start_state automaton
    /\ automaton_order_num automaton' = automaton_order_num automaton.
Proof.
  intros Hcycles Hok Hfresh Hadvance Hformable. unfold create_alt_states.
  destruct (create_alt_states_loop_cases max_cycles_num chars_num
              corresponding_automaton_num
              automaton advance_cycle_insn_decl transformed_regexp
              (ainsn_list automaton)) with (st := st)
    as [(ainsns' & st' & E & Hgrown & Hformed & _)
       |(_ & a & alt & c & u & Ha & Hne & Halt & Hon & Hown & Hc)];
    try assumption.
  - intros a Ha Hne. destruct (Hformable a Ha Hne) as (H1 & H2 & _). auto.
  - exists (set_ainsn_list automaton ainsns'), st'. unfold bind. rewrite E.
    split; [reflexivity|]. pose proof Hgrown as (Hok' & Hsame & Hincl & Hnew).
    split; [exact Hok'|]. split; [|split; [|split; [exact Hformed | split; reflexivity]]].
    + intros s Hs. destruct (Hnew s Hs) as [Hold|[Harcs Hplaced]]; [|auto].
      unfold placed, out_arcs. rewrite (Hsame s Hold). exact (Hfresh s Hold).
    + cbn [set_ainsn_list ainsn_list]. intros a' s Ha' Hs.
      destruct (Forall2_In_r _ _ _ a' Hformed Ha') as (a & Ha & _ & _ & Hadv & Hother).
      destruct (Nat.eq_dec (insn_reserv_decl a) advance_cycle_insn_decl) as [Heq|Hne].
      * rewrite (Hadv Heq) in Hs. apply Hincl. exact (Hadvance a s Ha Heq Hs).
      * destruct (Hother Hne) as [Hmirrors _].
        destruct (Forall2_In_r _ _ _ s Hmirrors Hs) as (alt & _ & Hin & _). exact Hin.
  - destruct (Hformable a Ha Hne) as (_ & _ & Hfits). rewrite Forall_forall in Hfits.
    pose proof (Hfits alt Halt c u Hon Hown). lia.
Qed.

(** When the transformed regexps of the insns of the automaton, but
    the advancing of a cycle, have the shape above, [create_alt_states]
    ends without [abort ()] and leaves what [make_automaton] starts from:
    each insn has one alt state for each alternative of its regexp, with
    the reservations of the alternative, and their sorted list; every alt
    state is in the state table, and the states that entered the table
    have no arcs and were in no stack.  The insn of the advancing of a
    cycle is left as it was.  The units are those of the bytes of a
    cycle, [chars_num * CHAR_BIT] bits: the units of the automaton in
    the regexps, and the units tested on the alt states. *)
Theorem create_alt_states_forms_insns (max_cycles_num chars_num : nat)
    (corresponding_automaton_num : nat -> nat) (advance_cycle_insn_decl : nat)
    (transformed_regexp : nat -> regexp) (automaton : automaton_t) (st : store) :
  0 < max_cycles_num -> table_ok st ->
  (forall s, In s (state_table st) -> placed st s = false /\ out_arcs st s = []) ->
  (forall a s, In a (ainsn_list automaton) ->
               insn_reserv_decl a = advance_cycle_insn_decl ->
               In s (alt_states a) -> In s (state_table st)) ->
  (forall a, In a (ainsn_list automaton) ->
             insn_reserv_decl a <> advance_cycle_insn_decl ->
             formable max_cycles_num corresponding_automaton_num automaton
               (transformed_regexp (insn_reserv_decl a))) ->
  (forall a, In a (ainsn_list automaton) ->
             insn_reserv_decl a <> advance_cycle_insn_decl ->
             Forall (within chars_num corresponding_automaton_num automaton)
               (alternatives (transformed_regexp (insn_reserv_decl a)))) ->
  exists automaton' st',
    create_alt_states max_cycles_num corresponding_automaton_num advance_cycle_insn_decl
      transformed_regexp automaton st = Done (automaton', st')
    /\ table_ok st'
    /\ (forall s, In s (state_table st') -> placed st' s = false /\ out_arcs st' s = [])
    /\ (forall a s, In a (ainsn_list automaton') -> In s (alt_states a) ->
                    In s (state_table st'))
    /\ Forall2 (formed max_cycles_num chars_num corresponding_automaton_num automaton
                  advance_cycle_insn_decl transformed_regexp st')
         (ainsn_list automaton) (ainsn_list automaton')
    /\ start_state automaton' = start_state automaton
    /\ automaton_order_num automaton' = automaton_order_num automaton.
Proof.
  intros Hcycles Hok Hfresh Hadvance Hformable _.
  exact (create_alt_states_spec max_cycles_num chars_num corresponding_automaton_num
           advance_cycle_insn_decl transformed_regexp automaton st Hcycles Hok Hfresh
           Hadvance Hformable).
Qed.

(** Two alternatives of two cycles and of one cycle, for an automaton
    of all units and states of two cycles. *)
Definition two_alternatives : regexp :=
  rm_oneof [rm_sequence [rm_unit 0; rm_allof [rm_unit 1; rm_unit 2]]; rm_unit 1].

Lemma two_alternatives_fit :
  Forall (fits 2 (fun _ => 0) (mk_automaton [] None 0 0)) (alternatives two_alternatives).
Proof.
  apply Forall_cons; [|apply Forall_cons; [|apply Forall_nil]];
    intros [|[|c]] u Hon _; try lia; unfold on_cycle in Hon; cbn in Hon;
    destruct c; destruct Hon as [H|[]]; discriminate.
Qed.

Ltac unit_within :=
  match goal with
  | Hon : on_cycle _ _ _ |- _ =>
    unfold on_cycle in Hon; cbn in Hon;
    repeat (destruct Hon as [Hon|Hon];
            [try discriminate; injection Hon as <-; cbn; lia|]);
    try contradiction
  end.

Lemma two_alternatives_within :
  Forall (within 8 (fun _ => 0) (mk_automaton [] None 0 0)) (alternatives two_alternatives).
Proof.
  apply Forall_cons; [|apply Forall_cons; [|apply Forall_nil]];
    intros [|[|[|c]]] u Hon _; unit_within.
Qed.

Lemma process_alts_for_forming_states_mirrors_witness :
  exists alt_states' st',
    process_alts_for_forming_states 2 (fun _ => 0) two_alternatives
      (mk_automaton [] None 0 0) [] initiate_states = Done (alt_states', st')
    /\ grown initiate_states st'
    /\ Forall2 (mirrors 2 8 (fun _ => 0) (mk_automaton [] None 0 0) st')
         (alternatives two_alternatives) alt_states'.
Proof.
  apply (process_alts_for_forming_states_mirrors 2 8 (fun _ => 0)
           (mk_automaton [] None 0 0) two_alternatives initiate_states).
  - lia.
  - apply in_use_b_spec. vm_compute. reflexivity.
  - cbn. repeat constructor.
  - repeat constructor; discriminate.
  - exact two_alternatives_fit.
  - exact two_alternatives_within.
Defined.

Lemma process_alts_for_forming_states_aborts_witness :
  process_alts_for_forming_states 1 (fun _ => 0) (rm_sequence [rm_unit 0; rm_unit 1])
    (mk_automaton [] None 0 0) [] initiate_states = Abort.
Proof.
  apply (process_alts_for_forming_states_aborts 1 (fun _ => 0) (mk_automaton [] None 0 0)
           (rm_sequence [rm_unit 0; rm_unit 1]) initiate_states
           (rm_sequence [rm_unit 0; rm_unit 1]) 1 1).
  - lia.
  - apply in_use_b_spec. vm_compute. reflexivity.
  - cbn. repeat constructor.
  - repeat constructor; discriminate.
  - left. reflexivity.
  - left. reflexivity.
  - reflexivity.
  - lia.
Defined.

(** The transformed regexps of [exclusive_decls]. *)
Definition exclusive_regexp (d : nat) : regexp :=
  match nth d exclusive_decls dm_automaton with
  | dm_insn_reserv _ (Some r) => r
  | _ => rm_nothing
  end.

Lemma create_alt_states_forms_insns_witness :
  exists automaton' st',
    create_alt_states 1 (fun _ => 0) 4 exclusive_regexp
      (mk_automaton (create_ainsns exclusive_decls 0) None 0 0) initiate_states
    = Done (automaton', st')
    /\ table_ok st'
    /\ (forall s, In s (state_table st') -> placed st' s = false /\ out_arcs st' s = [])
    /\ (forall a s, In a (ainsn_list automaton') -> In s (alt_states a) ->
                    In s (state_table st'))
    /\ Forall2 (formed 1 8 (fun _ => 0)
                  (mk_automaton (create_ainsns exclusive_decls 0) None 0 0) 4
                  exclusive_regexp st')
         (ainsn_list (mk_automaton (create_ainsns exclusive_decls 0) None 0 0))
         (ainsn_list automaton')
    /\ start_state automaton'
       = start_state (mk_automaton (create_ainsns exclusive_decls 0) None 0 0)
    /\ automaton_order_num automaton'
       = automaton_order_num (mk_automaton (create_ainsns exclusive_decls 0) None 0 0).
Proof.
  apply (create_alt_states_forms_insns 1 8 (fun _ => 0) 4 exclusive_regexp
           (mk_automaton (create_ainsns exclusive_decls 0) None 0 0) initiate_states).
  - lia.
  - apply in_use_b_spec. vm_compute. reflexivity.
  - intros s [].
  - intros a s [<-|[<-|[<-|[]]]] _ [].
  - intros a [<-|[<-|[<-|[]]]] Hne; try (exfalso; apply Hne; reflexivity);
      (split; [exact I|]; split; [repeat constructor; discriminate|]);
      (apply Forall_cons; [|apply Forall_nil]); intros [|c] u Hon _; try lia;
      unfold on_cycle in Hon; cbn in Hon; destruct c; destruct Hon as [H|[]];
      discriminate.
  - intros a [<-|[<-|[<-|[]]]] Hne; try (exfalso; apply Hne; reflexivity);
      (apply Forall_cons; [|apply Forall_nil]); intros [|[|c]] u Hon _; unit_within.
Defined.

End FormAltStates.

(** ** The automaton of a description *)

Module AutomatonOfDescription.
Import Bits Reservs IR Automata Minimize.
Import Transform(outcome, Done, Abort, NoFuel, canonical).
Import StateGraph BuildDFA Pipeline FormAltStates.

Local Open Scope nat_scope.
Local Open Scope heap_scope.

(** [create_ainsns] makes an insn for each insn declaration, with the
    position of the declaration and without alt states. *)
Lemma create_ainsns_decls (ds : list decl) :
  forall i,
    NoDup (map insn_reserv_decl (create_ainsns ds i))
    /\ forall a, In a (create_ainsns ds i) ->
         i <= insn_reserv_decl a /\ alt_states a = []
         /\ insn_decl ds (insn_reserv_decl a - i).
Proof.
  induction ds as [|d ds IH]; intros i; cbn [create_ainsns].
  - split; [constructor | intros a []].
  - destruct (IH (S i)) as [Hnd Hall].
    assert (forall a, In a (create_ainsns ds (S i)) ->
              i <= insn_reserv_decl a /\ alt_states a = []
              /\ insn_decl (d :: ds) (insn_reserv_decl a - i)) as Hrest.
    { intros a Ha. destruct (Hall a Ha) as (Hle & Halt & lat & r & Hk).
      split; [lia|]. split; [exact Halt|]. exists lat, r.
      replace (insn_reserv_decl a - i) with (S (insn_reserv_decl a - S i)) by lia.
      exact Hk. }
    destruct d as [| | | | | | |lat r]; try (split; [exact Hnd | exact Hrest]).
    cbn [map insn_reserv_decl]. split.
    + constructor; [|exact Hnd]. intros Hin. apply in_map_iff in Hin.
      destruct Hin as (a & Heq & Ha). destruct (Hall a Ha) as (Hle & _). lia.
    + intros a [<-|Ha]; [|exact (Hrest a Ha)]. cbn [insn_reserv_decl alt_states].
      split; [lia|]. split; [reflexivity|]. exists lat, r. rewrite Nat.sub_diag.
      reflexivity.
Qed.

(** [form_ainsn_with_same_reservs] changes
    [first_insn_with_same_reservs] only. *)
Lemma form_ainsn_with_same_reservs_loop_keeps (advance_cycle_insn_decl : nat)
    (ainsns : list ainsn) :
  forall first_insns,
    Forall2 (fun a a' => insn_reserv_decl a' = insn_reserv_decl a
                         /\ alt_states a' = alt_states a)
      ainsns (form_ainsn_with_same_reservs_loop advance_cycle_insn_decl ainsns first_insns).
Proof.
  induction ainsns as [|a ainsns IH]; intros first_insns;
    cbn [form_ainsn_with_same_reservs_loop]; [constructor|].
  destruct (insn_reserv_decl a =? advance_cycle_insn_decl);
    [|destruct (existsb _ first_insns)]; constructor; auto.
Qed.

Lemma Forall2_map_eq {A B : Type} (f : A -> B) (R : A -> A -> Prop) (l l' : list A) :
  (forall a a', R a a' -> f a' = f a) -> Forall2 R l l' -> map f l' = map f l.
Proof.
  intros HR. induction 1 as [|a a' l l' Ha Hl IH]; cbn [map]; [reflexivity|].
  rewrite (HR a a' Ha), IH. reflexivity.
Qed.

(** On a description whose insns, but the advancing of a cycle, have
    transformed regexps of the shape
    oneof (sequence (allof (unit | nothing ...) ...) ...) that fit in
    [max_cycles_num] cycles, [create_alt_states] on the insns of
    [create_ainsns] ends without [abort ()]; and whenever [make_automaton]
    without [-ndfa] ends on the insns that [form_ainsn_with_same_reservs]
    has marked, [NDFA_to_DFA] and [minimize_DFA] end without [abort ()],
    and the minimized automaton takes from its start state the sequences
    of insns that the automaton of [make_automaton] takes from its start
    state, each insn with the same number of alternatives. *)
Theorem automaton_of_description_minimal (units_num chars_num : nat)
    (unit_excl_set_table : list Z)
    (unit_presence_set_table unit_final_presence_set_table : list (list Z))
    (unit_absence_set_table unit_final_absence_set_table : list (list Z))
    (max_cycles_num advance_cycle_insn_decl : nat) (units_array : list unit_decl)
    (corresponding_automaton_num : nat -> nat) (transformed_regexp : nat -> regexp)
    (decls : list decl) (nums : equiv_class_nums) (equiv_class_state : nat -> nat)
    (automaton : automaton_t) (st : store) :
  0 < max_cycles_num -> table_ok st ->
  (forall s, In s (state_table st) -> placed st s = false /\ out_arcs st s = []) ->
  ainsn_list automaton = create_ainsns decls 0 ->
  (forall d, insn_decl decls d -> d <> advance_cycle_insn_decl ->
             formable max_cycles_num corresponding_automaton_num automaton
               (transformed_regexp d)) ->
  exists automaton1 st1,
    create_alt_states max_cycles_num corresponding_automaton_num advance_cycle_insn_decl
      transformed_regexp automaton st = Done (automaton1, st1)
    /\ forall fuel fuel' automaton2 st2,
         make_automaton units_num chars_num unit_excl_set_table unit_presence_set_table
           unit_final_presence_set_table unit_absence_set_table
           unit_final_absence_set_table max_cycles_num units_array false
           advance_cycle_insn_decl fuel
           (form_ainsn_with_same_reservs advance_cycle_insn_decl automaton1) st1
         = Done (automaton2, st2) ->
         length (state_table st2) < fuel' ->
         exists st3 automaton4 st4,
           NDFA_to_DFA max_cycles_num false decls fuel' automaton2 st2 = Done (tt, st3)
           /\ minimize_DFA max_cycles_num units_array fuel' automaton2 nums
                equiv_class_state st3 = Done (automaton4, st4)
           /\ forall insns,
                trace st4 (start_state automaton4) insns
                = trace st2 (start_state automaton2) insns.
Proof.
  intros Hcycles Hok Hfresh Hainsns Hformable.
  destruct (create_ainsns_decls decls 0) as [Hnd Hall]. rewrite <- Hainsns in Hnd, Hall.
  destruct (create_alt_states_spec max_cycles_num 0 corresponding_automaton_num
              advance_cycle_insn_decl transformed_regexp automaton st Hcycles Hok Hfresh)
    as (automaton1 & st1 & E1 & Hok1 & Hfresh1 & Halts1 & Hformed & _).
  - intros a s Ha _ Hs. destruct (Hall a Ha) as (_ & Hnil & _). rewrite Hnil in Hs.
    destruct Hs.
  - intros a Ha Hne. apply Hformable; [|exact Hne].
    destruct (Hall a Ha) as (_ & _ & Hd). rewrite Nat.sub_0_r in Hd. exact Hd.
  - exists automaton1, st1. split; [exact E1|].
    intros fuel fuel' automaton2 st2 E2 Hfuel.
    pose proof (form_ainsn_with_same_reservs_loop_keeps advance_cycle_insn_decl
                  (ainsn_list automaton1) []) as Hkeeps.
    apply (minimal_DFA_spec units_num chars_num unit_excl_set_table
             unit_presence_set_table unit_final_presence_set_table unit_absence_set_table
             unit_final_absence_set_table max_cycles_num advance_cycle_insn_decl
             units_array decls nums equiv_class_state fuel fuel'
             (form_ainsn_with_same_reservs advance_cycle_insn_decl automaton1) st1
             automaton2 st2 Hok1 Hfresh1); [| |exact E2 | exact Hfuel].
    + cbn [form_ainsn_with_same_reservs set_ainsn_list ainsn_list]. intros a' s Ha' Hs.
      destruct (Forall2_In_r _ _ _ a' Hkeeps Ha') as (a & Ha & _ & Heq).
      rewrite Heq in Hs. exact (Halts1 a s Ha Hs).
    + cbn [form_ainsn_with_same_reservs set_ainsn_list ainsn_list].
      rewrite (Forall2_map_eq insn_reserv_decl _ _ _ (fun a a' H => proj1 H) Hkeeps).
      rewrite (Forall2_map_eq insn_reserv_decl _ _ _ (fun a a' H => proj1 H) Hformed).
      exact Hnd.
Qed.

Lemma automaton_of_description_minimal_witness :
  exists st3 automaton4 st4,
    NDFA_to_DFA 1 false exclusive_decls 5 exclusive_automaton exclusive_NDFA_states
    = Done (tt, st3)
    /\ minimize_DFA 1 exclusive_units 5 exclusive_automaton
         (mk_nums (fun _ => 0) (fun _ => 0)) (fun s => s) st3
       = Done (automaton4, st4)
    /\ forall insns,
         trace st4 (start_state automaton4) insns
         = trace exclusive_NDFA_states (start_state exclusive_automaton) insns.
Proof.
  destruct (automaton_of_description_minimal 2 8 [2; 1]%Z [[]; []] [[]; []] [[]; []]
              [[]; []] 1 4 exclusive_units (fun _ => 0) exclusive_regexp exclusive_decls
              (mk_nums (fun _ => 0) (fun _ => 0)) (fun s => s)
              (mk_automaton (create_ainsns exclusive_decls 0) None 0 0) initiate_states)
    as (automaton1 & st1 & E1 & Hrest).
  - lia.
  - apply in_use_b_spec. vm_compute. reflexivity.
  - intros s [].
  - reflexivity.
  - intros d (lat & r & Hd) Hne.
    destruct d as [|[|[|[|[|d]]]]]; try discriminate;
      try (exfalso; apply Hne; reflexivity);
      try (destruct d; discriminate);
      (split; [exact I|]; split; [repeat constructor; discriminate|]);
      (apply Forall_cons; [|apply Forall_nil]); intros [|c] u Hon _; try lia;
      unfold on_cycle in Hon; cbn in Hon; destruct c; destruct Hon as [H|[]];
      discriminate.
  - vm_compute in E1. injection E1 as <- <-.
    apply (Hrest 20 5 exclusive_automaton exclusive_NDFA_states);
      [vm_compute; reflexivity | cbn; lia].
Defined.

End AutomatonOfDescription.

(** ** What the test of the first cycle reads *)

Module FirstCycle.
Import Bits Reservs IR Automata Minimize.
Import Transform(outcome, Done, Abort, NoFuel).
Import StateGraph QueryTable ReservedUnits.

Local Open Scope nat_scope.

Lemma query_unit_nth_error (units_array : list unit_decl) (i : nat) :
  query_unit units_array i
  <-> exists unit, nth_error units_array i = Some unit /\ query_p unit = true.
Proof.
  unfold query_unit. split.
  - intros Hq. destruct (nth_error units_array i) as [unit|] eqn:E.
    + exists unit. split; [reflexivity|]. rewrite (nth_error_nth _ _ _ E) in Hq. exact Hq.
    + apply nth_error_None in E. rewrite nth_overflow in Hq by exact E. discriminate.
  - intros (unit & E & Hq). rewrite (nth_error_nth _ _ _ E). exact Hq.
Qed.

Section Reads.

Variable max_cycles_num : nat.
Hypothesis cycles : 0 < max_cycles_num.
Variable units_array : list unit_decl.
Variable st : store.

(** The test on the first cycle of the first component state. *)
Lemma first_cycle_unit_presence_test (state unit_num : nat) :
  first_cycle_unit_presence max_cycles_num st state unit_num
  = test_unit_reserv max_cycles_num (reservs (the_state st (first_component st state)))
      0 unit_num.
Proof.
  unfold first_cycle_unit_presence, first_component.
  destruct (component_states (the_state st state)); reflexivity.
Qed.

Lemma differed_query_unit_first (state another_state : nat) :
  exists differed,
    differed_query_unit max_cycles_num st state another_state units_array 0 = Done differed
    /\ (differed = true
        <-> exists i,
              query_unit units_array i
              /\ test_unit_reserv max_cycles_num
                   (reservs (the_state st (first_component st state))) 0 i
                 <> test_unit_reserv max_cycles_num
                      (reservs (the_state st (first_component st another_state))) 0 i).
Proof.
  destruct (differed_query_unit_spec max_cycles_num st cycles state another_state
              units_array 0) as (b & E & Hb).
  exists b. split; [exact E|]. rewrite Hb. split.
  - intros (j & unit & Hj & Hq & Hd). exists j.
    split; [apply query_unit_nth_error; exists unit; auto|].
    rewrite <- !first_cycle_unit_presence_test. exact Hd.
  - intros (i & Hq & Hd). apply query_unit_nth_error in Hq. destruct Hq as (unit & Hi & Hq).
    exists i, unit. split; [exact Hi|]. split; [exact Hq|].
    cbn [Nat.add]. rewrite !first_cycle_unit_presence_test. exact Hd.
Qed.

Lemma state_is_differed_by_query_unit (state another_state another_state_out_arcs_num : nat)
    (num : nat -> nat) (marks : insn_marks) (i : nat) :
  query_unit units_array i ->
  test_unit_reserv max_cycles_num (reservs (the_state st (first_component st state))) 0 i
  <> test_unit_reserv max_cycles_num
       (reservs (the_state st (first_component st another_state))) 0 i ->
  state_is_differed max_cycles_num units_array st state another_state
    another_state_out_arcs_num num marks = Done true.
Proof.
  intros Hq Hd. unfold state_is_differed.
  destruct (differed_arc _ _ _ _); [|reflexivity].
  destruct (negb _); [reflexivity|].
  destruct (differed_query_unit_first state another_state) as (b & -> & Hb).
  f_equal. apply Hb. exists i. auto.
Qed.

End Reads.

(** C10.  The test [first_cycle_unit_presence] of a state reads, for a
    declared unit, the reservations on the first cycle of one state:
    the state itself if it has no component states, else the first of
    its component states, the one with the least number among the alt
    states that [uniq_sort_alt_states] made the component states of;
    a unit that only another component state reserves is not found.
    The loop of [state_is_differed] over the query units finds a
    difference if and only if this test of a query unit differs for the
    two states, and then [state_is_differed] answers 1.  In the vector
    of [output_reserved_units_table] the bit of a state achieved and a
    query unit is set if and only if this test finds the unit. *)
Theorem first_cycle_unit_presence_reads_first_component (max_cycles_num : nat)
    (units_array : list unit_decl) (st : store) :
  0 < max_cycles_num ->
  (forall state alts,
     component_states (the_state st state) = uniq_sort_alt_states alts ->
     (alts = [] -> first_component st state = state)
     /\ (alts <> [] ->
         In (first_component st state) alts
         /\ forall c, In c alts -> first_component st state <= c))
  /\ (forall state unit_num,
        unit_num < length units_array ->
        first_cycle_unit_presence max_cycles_num st state unit_num
        = test_unit_reserv max_cycles_num
            (reservs (the_state st (first_component st state))) 0 unit_num
        /\ forall component,
             In component (component_states (the_state st state)) ->
             test_unit_reserv max_cycles_num
               (reservs (the_state st (first_component st state))) 0 unit_num
             = Some false ->
             test_unit_reserv max_cycles_num (reservs (the_state st component)) 0 unit_num
             = Some true ->
             first_cycle_unit_presence max_cycles_num st state unit_num = Some false)
  /\ (forall state another_state,
        exists differed,
          differed_query_unit max_cycles_num st state another_state units_array 0
          = Done differed
          /\ (differed = true
              <-> exists i,
                    query_unit units_array i
                    /\ test_unit_reserv max_cycles_num
                         (reservs (the_state st (first_component st state))) 0 i
                       <> test_unit_reserv max_cycles_num
                            (reservs (the_state st (first_component st another_state)))
                            0 i))
  /\ (forall state another_state another_state_out_arcs_num num marks i,
        query_unit units_array i ->
        test_unit_reserv max_cycles_num
          (reservs (the_state st (first_component st state))) 0 i
        <> test_unit_reserv max_cycles_num
             (reservs (the_state st (first_component st another_state))) 0 i ->
        state_is_differed max_cycles_num units_array st state another_state
          another_state_out_arcs_num num marks = Done true)
  /\ forall (query_num : nat -> nat) (query_units_num : nat) (universe : list nat)
            (fuel : nat) (automaton : automaton_t) (order_state_num : nat -> nat),
       (forall i, query_unit units_array i -> query_num i < query_units_num) ->
       (forall i j, query_unit units_array i -> query_unit units_array j ->
                    query_num i = query_num j -> i = j) ->
       closed_except st [] universe ->
       In (start_state automaton) universe ->
       length universe < fuel ->
       exists order_state_num' reserved_units_table,
         enumerate_states fuel st automaton order_state_num = Some order_state_num'
         /\ output_reserved_units_table max_cycles_num units_array query_num
              order_state_num' query_units_num fuel st automaton
            = Done reserved_units_table
         /\ forall state i,
              achieved st (start_state automaton) state -> query_unit units_array i ->
              exists presence_p,
                test_unit_reserv max_cycles_num
                  (reservs (the_state st (first_component st state))) 0 i
                = Some presence_p
                /\ cpu_unit_reservation_bit query_units_num reserved_units_table
                     (order_state_num' state) (query_num i)
                   = Z.b2z presence_p.
Proof.
  intros Hcycles. split; [|split; [|split; [|split]]].
  - intros state alts Hcomp. unfold first_component. rewrite Hcomp. split.
    + intros ->. reflexivity.
    + intros Hne. destruct alts as [|x l]; [contradiction|].
      destruct (uniq_sort_alt_states_head x l) as (first & rest & -> & Hin & Hmin).
      cbn [hd]. auto.
  - intros state unit_num _. split; [apply first_cycle_unit_presence_test|].
    intros component _ Hfirst _. rewrite first_cycle_unit_presence_test. exact Hfirst.
  - intros state another_state. apply differed_query_unit_first. exact Hcycles.
  - intros state another_state n num marks i.
    apply state_is_differed_by_query_unit. exact Hcycles.
  - intros query_num query_units_num universe fuel automaton order_state_num
           Hbound Hone Hclosed Hstart Hfuel.
    destruct (reserved_units_table_spec max_cycles_num units_array query_num
                query_units_num st universe fuel automaton order_state_num Hcycles Hbound
                Hone Hclosed Hstart Hfuel) as (order' & table & E & Etable & _ & Hbits).
    exists order', table. split; [exact E|]. split; [exact Etable|].
    intros state i Hstate Hi. eexists. split; [|apply Hbits; assumption].
    unfold test_unit_reserv, first_cycle_reservs.
    destruct (Nat.leb_spec max_cycles_num 0); [lia | reflexivity].
Qed.

Lemma first_cycle_unit_presence_reads_first_component_witness :
  (forall state alts,
     component_states (the_state alternative_states state) = uniq_sort_alt_states alts ->
     (alts = [] -> first_component alternative_states state = state)
     /\ (alts <> [] ->
         In (first_component alternative_states state) alts
         /\ forall c, In c alts -> first_component alternative_states state <= c))
  /\ (forall state unit_num,
        unit_num < length alternative_units ->
        first_cycle_unit_presence 1 alternative_states state unit_num
        = test_unit_reserv 1
            (reservs (the_state alternative_states
                        (first_component alternative_states state))) 0 unit_num
        /\ forall component,
             In component (component_states (the_state alternative_states state)) ->
             test_unit_reserv 1
               (reservs (the_state alternative_states
                           (first_component alternative_states state))) 0 unit_num
             = Some false ->
             test_unit_reserv 1 (reservs (the_state alternative_states component)) 0
               unit_num
             = Some true ->
             first_cycle_unit_presence 1 alternative_states state unit_num = Some false)
  /\ (forall state another_state,
        exists differed,
          differed_query_unit 1 alternative_states state another_state alternative_units 0
          = Done differed
          /\ (differed = true
              <-> exists i,
                    query_unit alternative_units i
                    /\ test_unit_reserv 1
                         (reservs (the_state alternative_states
                                     (first_component alternative_states state))) 0 i
                       <> test_unit_reserv 1
                            (reservs (the_state alternative_states
                                        (first_component alternative_states
                                           another_state))) 0 i))
  /\ (forall state another_state another_state_out_arcs_num num marks i,
        query_unit alternative_units i ->
        test_unit_reserv 1
          (reservs (the_state alternative_states
                      (first_component alternative_states state))) 0 i
        <> test_unit_reserv 1
             (reservs (the_state alternative_states
                         (first_component alternative_states another_state))) 0 i ->
        state_is_differed 1 alternative_units alternative_states state another_state
          another_state_out_arcs_num num marks = Done true)
  /\ forall (query_num : nat -> nat) (query_units_num : nat) (universe : list nat)
            (fuel : nat) (automaton : automaton_t) (order_state_num : nat -> nat),
       (forall i, query_unit alternative_units i -> query_num i < query_units_num) ->
       (forall i j, query_unit alternative_units i -> query_unit alternative_units j ->
                    query_num i = query_num j -> i = j) ->
       closed_except alternative_states [] universe ->
       In (start_state automaton) universe ->
       length universe < fuel ->
       exists order_state_num' reserved_units_table,
         enumerate_states fuel alternative_states automaton order_state_num
         = Some order_state_num'
         /\ output_reserved_units_table 1 alternative_units query_num
              order_state_num' query_units_num fuel alternative_states automaton
            = Done reserved_units_table
         /\ forall state i,
              achieved alternative_states (start_state automaton) state ->
              query_unit alternative_units i ->
              exists presence_p,
                test_unit_reserv 1
                  (reservs (the_state alternative_states
                              (first_component alternative_states state))) 0 i
                = Some presence_p
                /\ cpu_unit_reservation_bit query_units_num reserved_units_table
                     (order_state_num' state) (query_num i)
                   = Z.b2z presence_p.
Proof.
  apply (first_cycle_unit_presence_reads_first_component 1 alternative_units
           alternative_states).
  lia.
Defined.

(** On the automaton of the insn with two alternatives the conditions
    of the table hold: the bit of the composed state 4 and of [u2],
    that its first component state reserves, is set, and the bit of
    [u1], that only its second component state reserves, is not. *)
Lemma composed_state_table_bits :
  (forall i, query_unit alternative_units i -> alternative_query_num i < 2)
  /\ (forall i j, query_unit alternative_units i -> query_unit alternative_units j ->
                  alternative_query_num i = alternative_query_num j -> i = j)
  /\ closed_except alternative_states [] [0; 1; 2; 3; 4]
  /\ achieved alternative_states (start_state alternative_automaton) 4
  /\ query_unit alternative_units 0 /\ query_unit alternative_units 1
  /\ cpu_unit_reservation_bit 2 [0; 2; 3]%Z (alternative_order_state_num 4)
       (alternative_query_num 0) = 0%Z
  /\ cpu_unit_reservation_bit 2 [0; 2; 3]%Z (alternative_order_state_num 4)
       (alternative_query_num 1) = 1%Z.
Proof.
  assert (forall i, query_unit alternative_units i -> i = 0 \/ i = 1) as Hunits.
  { intros [|[|i]] H; auto. unfold query_unit in H. destruct i; discriminate H. }
  split; [|split; [|split; [|split; [|split; [|split; [|split]]]]]].
  - intros i Hi. destruct (Hunits i Hi) as [->| ->]; vm_compute; lia.
  - intros i j Hi Hj. destruct (Hunits i Hi) as [->| ->], (Hunits j Hj) as [->| ->];
      vm_compute; congruence.
  - apply closed_b_spec. vm_compute. reflexivity.
  - exact (achieved_arc alternative_states 2 2 (mk_arc 0 4 0 1)
             (achieved_start alternative_states 2) (or_intror (or_introl eq_refl))).
  - reflexivity.
  - reflexivity.
  - vm_compute. reflexivity.
  - vm_compute. reflexivity.
Qed.

End FirstCycle.

(** ** What minimization keeps *)

Module MinimizeKeeps.
Import Bits Reservs IR Automata Minimize.
Import Transform(outcome, Done, Abort, NoFuel).
Import StateGraph QueryTable ReservedUnits.

Local Open Scope nat_scope.

(** The test of the first cycle reads the component states of the
    state and the reservations of the first of them. *)
Lemma first_cycle_unit_presence_same (max_cycles_num : nat) (st st' : store)
    (state state' unit_num : nat) :
  reservs (the_state st' (first_component st' state'))
  = reservs (the_state st (first_component st state)) ->
  first_cycle_unit_presence max_cycles_num st' state' unit_num
  = first_cycle_unit_presence max_cycles_num st state unit_num.
Proof.
  intros H. rewrite !FirstCycle.first_cycle_unit_presence_test, H. reflexivity.
Qed.

(** The first of the component states that [uniq_sort_alt_states]
    left is the least of them. *)
Lemma first_component_least (st : store) (state : nat) (alts : list nat) :
  component_states (the_state st state) = uniq_sort_alt_states alts ->
  forall c, In c (component_states (the_state st state)) ->
            In (first_component st state) (component_states (the_state st state))
            /\ first_component st state <= c.
Proof.
  intros Hcomp c Hc. unfold first_component. rewrite Hcomp in *.
  destruct alts as [|x l]; [contradiction|].
  destruct (uniq_sort_alt_states_head x l) as (first & rest & E & Hin & Hmin).
  rewrite E in *. cbn [hd]. split; [left; reflexivity|].
  apply Hmin. rewrite <- E in Hc.
  apply (AltStates.uniq_sort_alt_states_spec (x :: l)). exact Hc.
Qed.

Section Keeps.

Variable max_cycles_num : nat.
Variable units_array : list unit_decl.
Variable st st' : store.
Variable all used : list nat.
Variable classes : list (list nat).
Variable equiv_class_state' : nat -> nat.

Hypothesis all_used : incl all used.
Hypothesis all_closed : closed_except st [] all.
Hypothesis all_stable : stable max_cycles_num units_array st all classes.
Hypothesis components_used :
  forall s, In s all -> incl (component_states (the_state st s)) used.
Hypothesis components_sorted :
  forall s, In s all ->
            exists alts, component_states (the_state st s) = uniq_sort_alt_states alts.
Hypothesis class_states :
  forall K, In K classes ->
    exists r,
      (forall s, In s K -> equiv_class_state' s = r)
      /\ (forall i, transition (out_arcs st' r) i
                    = merged equiv_class_state' (transition (out_arcs st (hd 0 K)) i))
      /\ (K = [r]
          \/ (2 <= length K /\ ~ In r used
              /\ component_states (the_state st' r)
                 = uniq_sort_alt_states (class_components st K []))).
Hypothesis used_kept :
  forall u, In u used ->
    reservs (the_state st' u) = reservs (the_state st u)
    /\ component_states (the_state st' u) = component_states (the_state st u).

Lemma class_of (s : nat) : In s all -> exists K, In K classes /\ In s K.
Proof.
  intros Hs. destruct all_stable as (Hperm & _).
  apply (Permutation_in _ (Permutation_sym Hperm)) in Hs. apply in_concat in Hs. exact Hs.
Qed.

Lemma class_in_all (K : list nat) (s : nat) : In K classes -> In s K -> In s all.
Proof.
  intros HK Hs. destruct all_stable as (Hperm & _).
  apply (Permutation_in _ Hperm), in_concat. exists K. auto.
Qed.

Lemma class_head (K : list nat) : In K classes -> In (hd 0 K) K.
Proof.
  intros HK. destruct all_stable as (_ & Hne & _). apply hd_In.
  rewrite Forall_forall in Hne. apply Hne. exact HK.
Qed.

(** A state in use reads the same reservations in the two stores. *)
Lemma used_first_component (s : nat) :
  In s all ->
  reservs (the_state st' (first_component st' s))
  = reservs (the_state st (first_component st s)).
Proof.
  intros Hs. unfold first_component.
  rewrite (proj2 (used_kept s (all_used s Hs))).
  destruct (component_states (the_state st s)) as [|c cs] eqn:Ec; cbn [hd].
  - apply used_kept, all_used. exact Hs.
  - apply used_kept. apply (components_used s Hs). rewrite Ec. left. reflexivity.
Qed.

(** The state of a class answers for the query units as the states of
    the class did. *)
Lemma class_state_queries (s i : nat) :
  In s all -> query_unit units_array i ->
  first_cycle_unit_presence max_cycles_num st' (equiv_class_state' s) i
  = first_cycle_unit_presence max_cycles_num st s i.
Proof.
  intros Hs Hi. destruct (class_of s Hs) as (K & HK & HsK).
  destruct (class_states K HK) as (r & Hall & _ & Hcase). rewrite (Hall s HsK).
  destruct Hcase as [->|(H2 & Hnew & Hcomp)].
  - destruct HsK as [<-|[]]. apply first_cycle_unit_presence_same.
    apply used_first_component. exact Hs.
  - apply FirstCycle.query_unit_nth_error in Hi. destruct Hi as (unit & Hi & Hq).
    assert (forall m, In m K ->
              first_cycle_unit_presence max_cycles_num st m i
              = first_cycle_unit_presence max_cycles_num st s i) as Hsame.
    { intros m Hm. destruct all_stable as (_ & _ & num & c & _ & Hagree).
      rewrite (proj2 (Hagree K HK m Hm) i unit Hi Hq).
      rewrite (proj2 (Hagree K HK s HsK) i unit Hi Hq). reflexivity. }
    pose proof (class_head K HK) as Hhead.
    assert (exists x l, class_components st K [] = x :: l) as (x & l & Ecc).
    { destruct (class_components st K []) as [|x l] eqn:E; [|eauto]. exfalso.
      assert (forall y, ~ In y (class_components st K [])) as Hnone
        by (rewrite E; intros y []).
      destruct (component_states (the_state st (hd 0 K))) as [|c cs] eqn:Ec.
      - apply (Hnone (hd 0 K)). apply class_components_In. right. exists (hd 0 K). auto.
      - apply (Hnone c). apply class_components_In. right. exists (hd 0 K).
        split; [exact Hhead|]. right. rewrite Ec. left. reflexivity. }
    destruct (uniq_sort_alt_states_head x l) as (first & rest & E & Hin & Hmin).
    rewrite <- Ecc in E, Hin, Hmin.
    apply class_components_In in Hin. destruct Hin as [[]|(m & Hm & Hfirst)].
    rewrite <- (Hsame m Hm). apply first_cycle_unit_presence_same.
    assert (first_component st' r = first) as ->
      by (unfold first_component; rewrite Hcomp, E; reflexivity).
    pose proof (class_in_all K m HK Hm) as Hm_all.
    destruct Hfirst as [[Hnone ->]|Hfirst].
    + unfold first_component. rewrite Hnone. cbn [hd].
      apply used_kept, all_used. exact Hm_all.
    + destruct (components_sorted m Hm_all) as (alts & Halts).
      destruct (first_component_least st m alts Halts first Hfirst) as [Hfc Hle].
      assert (first <= first_component st m) as Hge.
      { apply Hmin. apply class_components_In. right. exists m. auto. }
      replace (first_component st m) with first by lia.
      apply used_kept. apply (components_used m Hm_all). exact Hfirst.
Qed.

(** The state of the class of a state takes the insns of the state,
    to the state of the class of the state entered. *)
Lemma class_state_moves (s : nat) (insns : list nat) :
  In s all ->
  trace st' (equiv_class_state' s) insns = trace st s insns
  /\ match final_state st' (equiv_class_state' s) insns, final_state st s insns with
     | Some state', Some state => In state all /\ state' = equiv_class_state' state
     | None, None => True
     | _, _ => False
     end.
Proof.
  revert s. induction insns as [|i insns IH]; intros s Hs; [cbn; auto|].
  destruct (class_of s Hs) as (K & HK & HsK).
  destruct (class_states K HK) as (r & Hall & Ht & _).
  cbn [trace final_state]. rewrite (Hall s HsK), Ht.
  destruct all_stable as (Hperm & _ & num & c & Hnum & Hagree).
  pose proof (proj1 (Hagree K HK s HsK) i) as Hag.
  destruct (transition (out_arcs st s) i) as [[t a]|] eqn:Es;
    destruct (transition (out_arcs st (hd 0 K)) i) as [[t' a']|] eqn:Eh;
    try contradiction; cbn [merged]; [|auto].
  destruct Hag as [Hn <-].
  assert (In t all) as Ht_all.
  { destruct (transition_In _ _ _ _ Es) as (arc & Harc & <-).
    apply (all_closed s Hs (fun H => H) arc Harc). }
  assert (In t' all) as Ht'_all.
  { destruct (transition_In _ _ _ _ Eh) as (arc & Harc & <-).
    apply (all_closed (hd 0 K) (class_in_all K _ HK (class_head K HK)) (fun H => H)
             arc Harc). }
  destruct (numbered_same_class classes num c t t' Hnum) as (K' & HK' & HtK' & Ht'K');
    [apply (Permutation_in _ (Permutation_sym Hperm)); exact Ht_all
    |apply (Permutation_in _ (Permutation_sym Hperm)); exact Ht'_all
    |exact Hn|].
  destruct (class_states K' HK') as (r' & Hall' & _).
  rewrite (Hall' t' Ht'K'), <- (Hall' t HtK').
  destruct (IH t Ht_all) as [-> Hfinal]. split; [reflexivity | exact Hfinal].
Qed.

End Keeps.

(** C4, as the code has it.  Let the states of [universe] be states in
    use that hold the start state and the states their arcs enter, each
    with one arc an insn at most and a positive [state_alts] on each
    arc, and with component states in use that
    [uniq_sort_alt_states] left.  Then [minimize_DFA] ends, and the
    automaton it leaves takes from its start state the sequences of
    insns the automaton took before, with the same [state_alts] on the
    arcs taken; the state a sequence leads to answers the test of the
    first cycle, for each query unit, as the state it led to before.
    (The reservations of the states are not kept: see
    [minimize_DFA_merges_reservations].) *)
Theorem minimize_DFA_keeps_insn_sequences (max_cycles_num : nat)
    (units_array : list unit_decl) (fuel : nat) (automaton : automaton_t)
    (nums : equiv_class_nums) (equiv_class_state : nat -> nat) (st : store)
    (universe used : list nat) :
  0 < max_cycles_num ->
  closed_except st [] universe ->
  (forall s, In s universe -> deterministic st s) ->
  In (start_state automaton) universe ->
  length universe < fuel ->
  in_use st used -> incl universe used ->
  (forall s, In s universe ->
             incl (component_states (the_state st s)) used
             /\ exists alts, component_states (the_state st s)
                             = uniq_sort_alt_states alts) ->
  exists automaton' st',
    minimize_DFA max_cycles_num units_array fuel automaton nums equiv_class_state st
    = Done (automaton', st')
    /\ forall insns,
         trace st' (start_state automaton') insns
         = trace st (start_state automaton) insns
         /\ match final_state st' (start_state automaton') insns,
                  final_state st (start_state automaton) insns with
            | Some state', Some state =>
              forall i, query_unit units_array i ->
                        first_cycle_unit_presence max_cycles_num st' state' i
                        = first_cycle_unit_presence max_cycles_num st state i
            | None, None => True
            | _, _ => False
            end.
Proof.
  intros Hcycles Hclosed Hdet Hstart Hfuel Huse Hused Hcomps.
  destruct (minimize_DFA_classes max_cycles_num units_array fuel automaton nums
              equiv_class_state st universe used Hcycles Hclosed Hdet Hstart Hfuel
              Huse Hused)
    as (automaton' & st' & all & classes & ecs & E & Hstart' & Hin & Hincl & Hcl
        & Hstable & Hclass & Hkept).
  exists automaton', st'. split; [exact E|]. intros insns. rewrite Hstart'.
  assert (incl all used) as Hall_used by (intros x Hx; apply Hused, Hincl; exact Hx).
  destruct (class_state_moves max_cycles_num units_array st st' all used classes ecs
              Hcl Hstable Hclass (start_state automaton) insns Hin) as [Htrace Hfinal].
  split; [exact Htrace|].
  destruct (final_state st' (ecs (start_state automaton)) insns) as [state'|],
           (final_state st (start_state automaton) insns) as [state|];
    try contradiction; [|exact I].
  destruct Hfinal as [Hstate ->]. intros i Hi.
  apply (class_state_queries max_cycles_num units_array st st' all used classes ecs
           Hall_used Hstable); try assumption.
  - intros s Hs. apply Hcomps, Hincl. exact Hs.
  - intros s Hs. apply Hcomps, Hincl. exact Hs.
Qed.

Lemma exclusive_states_components (s : nat) :
  In s [0; 1; 2] ->
  incl (component_states (the_state exclusive_states s)) [0; 1; 2]
  /\ exists alts, component_states (the_state exclusive_states s)
                  = uniq_sort_alt_states alts.
Proof.
  intros [<-|[<-|[<-|[]]]]; (split; [intros x [] | exists []; reflexivity]).
Qed.

(** The two units that exclude each other and a query unit that no
    insn reserves. *)
Definition exclusive_and_query_units : list unit_decl :=
  exclusive_units ++ [gen_query_cpu_unit None].

Lemma minimize_DFA_keeps_insn_sequences_witness :
  exists automaton' st',
    minimize_DFA 1 exclusive_and_query_units 20 exclusive_automaton
      (mk_nums (fun _ => 0) (fun _ => 0)) (fun s => s) exclusive_states
    = Done (automaton', st')
    /\ forall insns,
         trace st' (start_state automaton') insns
         = trace exclusive_states (start_state exclusive_automaton) insns
         /\ match final_state st' (start_state automaton') insns,
                  final_state exclusive_states (start_state exclusive_automaton) insns with
            | Some state', Some state =>
              forall i, query_unit exclusive_and_query_units i ->
                        first_cycle_unit_presence 1 st' state' i
                        = first_cycle_unit_presence 1 exclusive_states state i
            | None, None => True
            | _, _ => False
            end.
Proof.
  apply (minimize_DFA_keeps_insn_sequences 1 exclusive_and_query_units 20
           exclusive_automaton
           (mk_nums (fun _ => 0) (fun _ => 0)) (fun s => s) exclusive_states
           [0; 1; 2] [0; 1; 2]).
  - lia.
  - apply closed_b_spec. vm_compute. reflexivity.
  - apply deterministic_b_spec. vm_compute. reflexivity.
  - right. right. left. reflexivity.
  - cbn [length]. lia.
  - apply in_use_b_spec. vm_compute. reflexivity.
  - apply incl_refl.
  - exact exclusive_states_components.
Defined.

(** With the query unit the states 0 and 1 are still merged: the state
    3 that [a] and [b] lead to has the component states 0 and 1 and
    answers for the query unit as the state 0 and the state 1 did. *)
Lemma merged_state_answers_queries :
  query_unit exclusive_and_query_units 2
  /\ first_cycle_unit_presence 1 exclusive_states 0 2 = Some false
  /\ first_cycle_unit_presence 1 exclusive_states 1 2 = Some false
  /\ exists automaton' st',
       minimize_DFA 1 exclusive_and_query_units 20 exclusive_automaton
         (mk_nums (fun _ => 0) (fun _ => 0)) (fun s => s) exclusive_states
       = Done (automaton', st')
       /\ final_state st' (start_state automaton') [0] = Some 3
       /\ final_state st' (start_state automaton') [1] = Some 3
       /\ component_states (the_state st' 3) = [0; 1]
       /\ first_cycle_unit_presence 1 st' 3 2 = Some false.
Proof.
  split; [reflexivity|]. split; [reflexivity|]. split; [reflexivity|].
  eexists. eexists. split; [vm_compute; reflexivity|]. repeat split.
Qed.

End MinimizeKeeps.
